(* ===== verification/_CoqProject ===== *)
-Q . S2P
Prelude.v
Errors.v
Json.v
Utf8.v
Str.v
StrMap.v
Transport.v
Endpoint.v
Request.v
Mime.v
MimeProps.v
MimeLines.v
MimeRoundtrip.v
MimeNested.v
Job.v
PoolConfig.v
RestartGuard.v
Metrics.v
Executor.v
JsHost.v
BufferLike.v
JsDemo.v
Codecs.v
CodecsDemo.v
MimeJs.v
Url.v
UrlProps.v
UrlDemo.v
RuntimeApi.v
Runtime.v
EndpointModule.v
EndpointModuleDemo.v
Builtins.v
Pool.v
PoolDemo.v
ReplyProtocol.v
PoolSafety.v
PoolCalls.v
PoolWorkers.v
PoolDrop.v
PoolLiveness.v
