(* ===== verification/Prelude.v ===== *)
(** * mechanics-core: a verification development

    [mechanics-core] is a Rust library that runs JavaScript jobs on a pool of
    worker threads.  A caller gives [MechanicsPool::run] a job (a module and
    its argument); a worker evaluates the module in its own Boa engine, sends
    the result of the default export back as soon as it is known, and goes on
    polling what the script has left behind until everything is quiet or the
    execution limit is reached.  Scripts reach the outside only through
    configured HTTP endpoints and a few built-in modules.

    ** Files and sources

    All source paths are under src/src/internal/.

    - [Prelude]: machine integers, [Result], clocks, strings, tactics.
    - [Errors] (error.rs), [Json] (serde's values), [Utf8], [Str] and [StrMap]
      (what the code uses of the standard library's strings and maps).
    - [Job] (job.rs): jobs, their validation and JSON form, execution limits.
    - [Transport] (http/transport.rs, http/headers.rs): typed transport
      errors, headers, request deadlines, the default HTTP client.
    - [Endpoint] (http/endpoint/execute.rs, http/options.rs): an endpoint call
      with its retry loop and the decoding of the response.
    - [Request] (http/endpoint/request.rs): the URL and the headers of a call,
      from a template, a configuration and the options.
    - [JsHost]: JavaScript values and the engine operations the built-in
      modules call; [JsDemo]: a small engine for concrete runs.
    - [BufferLike] (runtime/buffer_like.rs, builtins/rand.rs): reading and
      filling buffer views.
    - [Codecs], [CodecsDemo] (builtins/base64.rs, base32.rs, hex.rs,
      form_urlencoded.rs, html.rs, uuid.rs, console.rs, helpers of mod.rs).
    - [Url], [UrlProps], [UrlDemo] (builtins/url.rs): URL and URLSearchParams
      objects over shared cells.
    - [EndpointModule], [EndpointModuleDemo] (builtins/endpoint.rs, conversions
      of mod.rs): the function scripts call, on top of [Endpoint].
    - [Mime], [MimeProps], [MimeJs] (builtins/mime.rs): the text of MIME
      messages, composed and parsed, and their JavaScript objects; [MimeLines],
      [MimeRoundtrip], [MimeNested]: rendered lines, sections and messages
      read back, and the conditions on a message under which they are.
    - [PoolConfig], [RestartGuard], [Metrics] (pool/config.rs,
      pool/restart_guard.rs, pool/metrics.rs).
    - [Executor] (executor.rs): job queues, timers, the event loop.
    - [RuntimeApi]: the contract between runtime and pool; [Runtime]
      (runtime.rs, http/wrappers.rs): running one script, which meets it.
    - [Builtins] (builtins/mod.rs, url.rs, endpoint.rs): the modules of all
      features together, the registration of the URL classes, and what a
      runtime answers to an import.
    - [Pool] (pool/shared.rs, worker.rs, api.rs, constructor.rs,
      drop_impl.rs): the pool as a transition system; [PoolDemo]: concrete
      schedules; [ReplyProtocol]: the abstract protocol of calls and replies.
    - [PoolSafety], [PoolCalls], [PoolWorkers], [PoolDrop], [PoolLiveness]: the
      properties of the pool.

    ** How the parts are modelled

    Sequential code is a function on explicit state: a failing operation
    returns [result], a loop that is not structural takes fuel and returns
    [option].  For the parser and the boundary search a theorem says how much
    is enough ([parse_always_returns], [boundary_search_ends]); the fuel of
    [digits] and [hex_digits] is the number of digits of the widest integer.
    The event loop has no such bound: it runs until the clock it reads reaches
    the deadline, and nothing promises how far a clock moves in one turn.
    There the theorems are about every number of turns: a loop that has not
    returned has read a clock before the deadline at every turn, and returns
    at the first turn that does not ([run_loop_ends_at_deadline],
    [run_source_ends_at_deadline]).

    The pool is concurrent.  [Pool.World] holds the shared state, the worker
    threads, the callers, the supervisor and the owner, each with a program
    counter; a step is one critical section, one channel operation or one
    clock tick, and every interleaving of steps is allowed.  Where the code
    computes what is left of a deadline and then waits for that long, these
    are two steps, with two readings of the clock.  The channels are those of
    the crossbeam-channel crate, whose documented behaviour is part of the
    transition system: a bounded FIFO queue and one-slot reply channels.
    [reachable] are the states after any schedule from [MechanicsPool::new].
    A running script is a worker step that may or may not reply, which is what
    [RuntimeApi] promises and [Runtime.run_source_contract] proves of the
    runtime.

    A native function of a built-in module is a function of the monad
    [JsHost.Js]: it passes the engine's state on and returns a value or throws.
    An engine operation that can run script code (a getter, a callback) can
    change all of that state.  The Rust values behind URL objects are cells of
    [Url.World], named by their position, so that two objects over one cell
    alias as they do in the program.

    Libraries are parameters, and their calls are functions, so that each is
    assumed to return: Boa and Tokio are the classes [JsTime],
    [JsEngine], [JsRuntime], [Boa], [HostObjects] and [ClassRegistry]; the
    HTTP client is [Mhc]; [mechanics-config] is [ConfigLib], [TemplateLib] and
    the records [HttpEndpoint] and [EndpointRetryPolicy]; the crates behind the built-in modules are
    [Base64], [DataEncoding], [HexLib], [FormLib], [UrlLib], [Htmlize],
    [UuidLib] and [Getrandom].  Their [..Laws] classes state documented
    behaviour (a clock does not go back, a request honours its timeout,
    decoding undoes encoding, a view's range lies in its buffer) and have
    concrete instances in the modules and files [*Demo].  Integers
    keep their width: [u64], [u128] and [usize] arithmetic is checked,
    saturating or wrapping as in the source.  [Duration::div_f64] is computed
    on IEEE binary64.

    ** What the theorems show

    - Pool: every step refines the reply protocol; an accepted job is answered
      at most once and never lost; the queue is a bounded FIFO; a call that is
      past its deadline and its wait returns within three steps of its own
      under every schedule, and reports only errors that are true; at most
      [worker_count] workers are registered and restarts respect the sliding
      window; after the drop nothing is left running.  If no restart is in
      flight when the pool is closed, the drop can finish after every schedule;
      one theorem shows that it can wait forever when one is.
    - Runtime and executor: the reply closure is called at most once, with
      what the promise of the script's main function says when it has first
      settled, and the outcome tells the truth; a run ends at its deadline if
      the engine's own calls return; a job leaves nothing behind for
      the next one; the loop stops only where it should and counts what it
      abandons; a timer turn calls
      exactly the due timers; however many jobs were run, a script imports
      built-in modules only.  One theorem shows that a result that settles at
      the very deadline is dropped.
    - Endpoints: retries are bounded and justified, the timeout is aggregate,
      the response respects status policy, size limit and body type, and the
      default client keeps its limits.  Headers are the defaults, then the
      configured ones, then the allow-listed overrides; the URL is the template
      with its slots filled and the configured queries.
    - Endpoint function: whatever a script passes, requests go only to
      configured endpoints, and each is the one the configuration builds from
      the options the script passed.
    - Buffers and codecs: a view is read exactly or refused, a fill writes its
      range only; every codec round trips and accepts exactly the texts of
      some bytes; a form record keeps its entries.
    - URL: the methods of URLSearchParams are the list operations of the URL
      standard (for [sort] as far as no name has a character above U+FFFF),
      [url.searchParams] is live in both directions, a copy through the
      serialized text is independent and equal, every property of a URL object
      reads and writes its own component, and the constructor, [canParse] and
      [parse] agree.
    - MIME: transfer encodings and header words are lossless, headers cannot
      be injected, the boundary search and the parser end, only valid messages
      are composed, and a composed text is parsed to the message it was made
      from, at every level, under conditions on its headers and on the
      boundaries of its levels that [MimeNested.composable] lists; a generated
      boundary is in no line of a simple part, whatever its body contains.
      Two theorems show faults: nested multipart
      messages can be given the same boundary, and a message object that
      contains itself is read without end.
    - Jobs, configuration, metrics: validation is exact, serialisation round
      trips, counters balance.

    ** Not modelled

    Script semantics, HTTP and TLS are the libraries'.  The accessor objects
    that the engine's class builder makes are the engine's too; the tables of
    accessors and methods are modelled.  lib.rs and the mod.rs files only
    declare and re-export; getters that return a field, delegating setters of
    test builds and test modules are left out.  Memory exhaustion, stack
    overflow and panics inside libraries are outside the model, except that a
    panicking job and a failing thread start are steps of the pool.

    ** Plan

    In this order: the round trip of MIME messages through their JavaScript
    objects; a bound on the number of steps of a drop; the built-in functions
    as the host functions of a run of [Runtime]. *)

From stdpp Require Export prelude gmap strings sorting.
From Stdlib Require Export ZArith Lia.

(** ** Machine integers

    Rust's fixed-width unsigned integers are modelled as [Z] with their
    bounds written out.  [usize] is 64 bits wide on the supported targets. *)

Global Open Scope Z_scope.

Definition u8_max : Z := 2 ^ 8 - 1.
Definition u32_max : Z := 2 ^ 32 - 1.
Definition u64_max : Z := 2 ^ 64 - 1.
Definition u128_max : Z := 2 ^ 128 - 1.
Definition usize_max : Z := u64_max.

(** [in_range max x]: [x] is a value of the unsigned type with maximum [max]. *)
Definition in_range (max x : Z) : Prop := 0 <= x <= max.

(** [checked_add], [saturating_add], [saturating_sub], [wrapping_add] and
    [wrapping_mul] of an unsigned type with maximum [max]. *)
Definition checked_add (max a b : Z) : option Z :=
  if a + b <=? max then Some (a + b) else None.
Definition checked_mul (max a b : Z) : option Z :=
  if a * b <=? max then Some (a * b) else None.
Definition saturating_add (max a b : Z) : Z := Z.min max (a + b).
Definition saturating_sub (a b : Z) : Z := Z.max 0 (a - b).
Definition wrapping_add (max a b : Z) : Z := (a + b) mod (max + 1).
Definition wrapping_mul (max a b : Z) : Z := (a * b) mod (max + 1).

(** [T::try_from(x).ok()] into the unsigned type with maximum [max]. *)
Definition try_from (max x : Z) : option Z :=
  if (0 <=? x) && (x <=? max) then Some x else None.

(** ** [Result]

    [Result<A, E>] with the error type first, so that it is a monad in [A]. *)

Inductive result (E A : Type) : Type :=
| Ok (a : A)
| Err (e : E).
Arguments Ok {E A} _.
Arguments Err {E A} _.

Global Instance result_ret E : MRet (result E) := fun A a => Ok a.
Global Instance result_bind E : MBind (result E) := fun A B f m =>
  match m with Ok a => f a | Err e => Err e end.
Global Instance result_fmap E : FMap (result E) := fun A B f m =>
  match m with Ok a => Ok (f a) | Err e => Err e end.

Definition map_err {E F A} (f : E -> F) (m : result E A) : result F A :=
  match m with Ok a => Ok a | Err e => Err (f e) end.
Definition ok_or {E A} (e : E) (o : option A) : result E A :=
  match o with Some a => Ok a | None => Err e end.
Definition result_ok {E A} (m : result E A) : option A :=
  match m with Ok a => Some a | Err _ => None end.
Definition is_ok {E A} (m : result E A) : bool :=
  match m with Ok _ => true | Err _ => false end.
Definition or_else {E F A} (m : result E A) (k : E -> result F A) : result F A :=
  match m with Ok a => Ok a | Err e => k e end.

Global Instance result_eq_dec {E A} `{EqDecision E, EqDecision A} : EqDecision (result E A).
Proof. solve_decision. Defined.

(** [Option::or] and [Option::unwrap_or]. *)
Definition opt_or {A} (a b : option A) : option A :=
  match a with Some _ => a | None => b end.

(** ** Time

    A [Duration] is its number of nanoseconds; [std::time::Instant] is a
    number of nanoseconds on the monotonic clock.  On unix the seconds of an
    [Instant] are an [i64], which is what [Instant::checked_add] checks. *)

Abbreviation Duration := Z (only parsing).
Abbreviation Instant := Z (only parsing).

Definition nanos_per_sec : Z := 1000000000.
Definition nanos_per_milli : Z := 1000000.
Definition duration_max : Z := u64_max * nanos_per_sec + (nanos_per_sec - 1).
Definition instant_max : Z := (2 ^ 63 - 1) * nanos_per_sec + (nanos_per_sec - 1).

Definition from_secs (s : Z) : Duration := s * nanos_per_sec.
Definition from_millis (ms : Z) : Duration := ms * nanos_per_milli.
Definition as_millis (d : Duration) : Z := d / nanos_per_milli.
Definition is_zero (d : Duration) : bool := d =? 0.

(** [Instant::checked_add], [duration_since] (which saturates at zero) and
    [checked_duration_since]. *)
Definition instant_checked_add (t : Instant) (d : Duration) : option Instant :=
  checked_add instant_max t d.
Definition duration_since (t earlier : Instant) : Duration := saturating_sub t earlier.
Definition checked_duration_since (t earlier : Instant) : option Duration :=
  if earlier <=? t then Some (t - earlier) else None.

(** ** Strings

    A Rust [str] is a sequence of Unicode scalar values; [lit] embeds an
    ASCII literal. *)

Abbreviation str := (list Z) (only parsing).
Abbreviation bytes := (list Z) (only parsing).

Definition lit (s : string) : str :=
  (fun a => Z.of_N (Ascii.N_of_ascii a)) <$> String.list_ascii_of_string s.

Global Arguments lit : simpl never.

(** ** Automation *)

(** Decide the comparisons of literals. *)
Ltac lit_decide :=
  repeat match goal with
  | |- context [bool_decide (lit ?a = lit ?b)] =>
      let r := eval vm_compute in (bool_decide (lit a = lit b)) in
      replace (bool_decide (lit a = lit b)) with r by (vm_compute; reflexivity)
  end.

Create HintDb mech.

(** Split the boolean tests of the model into arithmetic facts. *)
Ltac bool_facts :=
  repeat match goal with
  | H : (_ && _)%bool = true |- _ => apply andb_true_iff in H as [? ?]
  | H : (_ || _)%bool = false |- _ => apply orb_false_iff in H as [? ?]
  | H : (_ <=? _)%Z = true |- _ => apply Z.leb_le in H
  | H : (_ <=? _)%Z = false |- _ => apply Z.leb_gt in H
  | H : (_ <? _)%Z = true |- _ => apply Z.ltb_lt in H
  | H : (_ <? _)%Z = false |- _ => apply Z.ltb_ge in H
  | H : (_ =? _)%Z = true |- _ => apply Z.eqb_eq in H
  | H : (_ =? _)%Z = false |- _ => apply Z.eqb_neq in H
  | H : (_ <=? _)%nat = true |- _ => apply Nat.leb_le in H
  | H : (_ <=? _)%nat = false |- _ => apply Nat.leb_gt in H
  | H : (_ <? _)%nat = true |- _ => apply Nat.ltb_lt in H
  | H : (_ <? _)%nat = false |- _ => apply Nat.ltb_ge in H
  | H : (_ =? _)%nat = true |- _ => apply Nat.eqb_eq in H
  | H : (_ =? _)%nat = false |- _ => apply Nat.eqb_neq in H
  | H : negb _ = true |- _ => apply negb_true_iff in H
  | H : negb _ = false |- _ => apply negb_false_iff in H
  | H : bool_decide _ = true |- _ => apply bool_decide_eq_true in H
  | H : bool_decide _ = false |- _ => apply bool_decide_eq_false in H
  end.

(** Case analysis on every [match] and [if] of the goal or of a hypothesis,
    with the tests turned into facts. *)
Ltac case_all :=
  repeat (case_match; simplify_eq/=; bool_facts).

(** [lia] with quotients and remainders by constants. *)
Ltac dlia := Z.to_euclidean_division_equations; lia.

(** ** Shared lemmas *)

Lemma saturating_sub_nonneg a b : 0 <= saturating_sub a b.
Proof. unfold saturating_sub. lia. Qed.

#[export] Hint Resolve saturating_sub_nonneg : mech.

Lemma saturating_sub_pos a b : b <= a -> saturating_sub a b = a - b.
Proof. unfold saturating_sub. lia. Qed.

Lemma checked_add_Some max a b c :
  checked_add max a b = Some c <-> c = a + b /\ a + b <= max.
Proof. unfold checked_add. case_match; bool_facts; naive_solver lia. Qed.

Lemma checked_add_None max a b : checked_add max a b = None <-> max < a + b.
Proof. unfold checked_add. case_match; bool_facts; naive_solver lia. Qed.

Lemma try_from_Some max x y : try_from max x = Some y <-> y = x /\ in_range max x.
Proof. unfold try_from, in_range. case_match; bool_facts; [naive_solver lia|]. 
  apply andb_false_iff in H as [H|H]; bool_facts; naive_solver lia. Qed.

Lemma checked_duration_since_Some t e d :
  checked_duration_since t e = Some d <-> e <= t /\ d = t - e.
Proof. unfold checked_duration_since. case_match; bool_facts; naive_solver lia. Qed.

Lemma bind_Ok {E A B} (m : result E A) (f : A -> result E B) b :
  m ≫= f = Ok b <-> exists a, m = Ok a /\ f a = Ok b.
Proof. destruct m; cbn; naive_solver. Qed.

Lemma bind_Err {E A B} (m : result E A) (f : A -> result E B) e :
  m ≫= f = Err e <-> m = Err e \/ exists a, m = Ok a /\ f a = Err e.
Proof. destruct m; cbn; naive_solver. Qed.

Lemma filter_all {A} (P : A -> Prop) `{forall x, Decision (P x)} (l : list A) :
  Forall P l -> filter P l = l.
Proof. induction 1; [done|]. rewrite filter_cons_True by done. by f_equal. Qed.

Lemma filter_none {A} (P : A -> Prop) `{forall x, Decision (P x)} (l : list A) :
  Forall (fun x => ~ P x) l -> filter P l = [].
Proof. induction 1; [done|]. by rewrite filter_cons_False. Qed.

(** A nondecreasing list grows by an element no smaller than all of it. *)
Lemma sorted_snoc l x :
  StronglySorted Z.le l -> Forall (fun t => t <= x) l -> StronglySorted Z.le (l ++ [x]).
Proof.
  intros Hs Hf. apply StronglySorted_app_2; [|done|repeat constructor].
  intros a b Ha ->%list_elem_of_singleton. by rewrite Forall_forall in Hf; apply Hf.
Qed.

Lemma Forall_le_trans l (a b : Z) :
  Forall (fun t => t <= a) l -> a <= b -> Forall (fun t => t <= b) l.
Proof. intros H Hab. eapply Forall_impl; [exact H|]. simpl. lia. Qed.

(** Views of a list that an update of one element does not change. *)
Lemma fmap_insert_same {A B} (f : A -> B) (l : list A) (i : nat) x y :
  l !! i = Some x -> f y = f x -> f <$> <[i := y]> l = f <$> l.
Proof.
  intros Hi Hf. rewrite list_fmap_insert. apply list_insert_id.
  rewrite list_lookup_fmap, Hi. cbn. by rewrite Hf.
Qed.

Lemma fmap_alter_same {A B} (f : A -> B) (g : A -> A) (l : list A) (i : nat) :
  (forall x, f (g x) = f x) -> f <$> alter g i l = f <$> l.
Proof.
  intros Hf. apply list_eq. intros j. rewrite !list_lookup_fmap, list_lookup_alter.
  case_decide; subst; [|done]. destruct (l !! j); cbn; by rewrite ?Hf.
Qed.

Lemma fmap_foldr_alter_same {A B} (f : A -> B) (g : A -> A) (l : list A) (is_ : list nat) :
  (forall x, f (g x) = f x) -> f <$> foldr (alter g) l is_ = f <$> l.
Proof. intros Hf. induction is_ as [|i is_ IH]; [done|]. cbn. by rewrite fmap_alter_same. Qed.
