(* ===== verification/Errors.v ===== *)
(** * Errors: the structured error type of the crate (src/src/internal/error.rs)

    [MechanicsErrorKind], [MechanicsError], their accessors and the [Display]
    rendering.  Messages are [str]; [Cow<'static, str>] is its contents. *)

From S2P Require Import Prelude.

(** [enum MechanicsErrorKind] with its [repr(u8)] discriminants. *)
Inductive MechanicsErrorKind :=
| KExecution | KQueueFull | KQueueTimeout | KRunTimeout | KPoolClosed
| KWorkerUnavailable | KCanceled | KPanic | KRuntimePool.

Global Instance MechanicsErrorKind_eq_dec : EqDecision MechanicsErrorKind.
Proof. solve_decision. Defined.

Definition kind_code (k : MechanicsErrorKind) : Z :=
  match k with
  | KExecution => 1 | KQueueFull => 2 | KQueueTimeout => 3 | KRunTimeout => 4
  | KPoolClosed => 5 | KWorkerUnavailable => 6 | KCanceled => 7 | KPanic => 8
  | KRuntimePool => 9
  end.

Definition as_str (k : MechanicsErrorKind) : str :=
  match k with
  | KExecution => lit "MechanicsError::Execution"
  | KQueueFull => lit "MechanicsError::QueueFull"
  | KQueueTimeout => lit "MechanicsError::QueueTimeout"
  | KRunTimeout => lit "MechanicsError::RunTimeout"
  | KPoolClosed => lit "MechanicsError::PoolClosed"
  | KWorkerUnavailable => lit "MechanicsError::WorkerUnavailable"
  | KCanceled => lit "MechanicsError::Canceled"
  | KPanic => lit "MechanicsError::Panic"
  | KRuntimePool => lit "MechanicsError::RuntimePool"
  end.

(** [enum MechanicsError]. *)
Inductive MechanicsError :=
| Execution (m : str) | QueueFull (m : str) | QueueTimeout (m : str)
| RunTimeout (m : str) | PoolClosed (m : str) | WorkerUnavailable (m : str)
| Canceled (m : str) | Panic (m : str) | RuntimePool (m : str).

Global Instance MechanicsError_eq_dec : EqDecision MechanicsError.
Proof. solve_decision. Defined.

(** The public constructors. *)
Definition execution : str -> MechanicsError := Execution.
Definition runtime_pool : str -> MechanicsError := RuntimePool.
Definition queue_full : str -> MechanicsError := QueueFull.
Definition queue_timeout : str -> MechanicsError := QueueTimeout.
Definition run_timeout_error : str -> MechanicsError := RunTimeout.
Definition pool_closed : str -> MechanicsError := PoolClosed.
Definition worker_unavailable : str -> MechanicsError := WorkerUnavailable.
Definition canceled_error : str -> MechanicsError := Canceled.
Definition worker_panic : str -> MechanicsError := Panic.

Definition msg (e : MechanicsError) : str :=
  match e with
  | Execution m | QueueFull m | QueueTimeout m | RunTimeout m | PoolClosed m
  | WorkerUnavailable m | Canceled m | Panic m | RuntimePool m => m
  end.

Definition kind (e : MechanicsError) : MechanicsErrorKind :=
  match e with
  | Execution _ => KExecution
  | QueueFull _ => KQueueFull
  | QueueTimeout _ => KQueueTimeout
  | RunTimeout _ => KRunTimeout
  | PoolClosed _ => KPoolClosed
  | WorkerUnavailable _ => KWorkerUnavailable
  | Canceled _ => KCanceled
  | Panic _ => KPanic
  | RuntimePool _ => KRuntimePool
  end.

(** [impl Display for MechanicsError]: ["{kind}: {msg}"]. *)
Definition display (e : MechanicsError) : str :=
  as_str (kind e) ++ lit ": " ++ msg e.

(** ** Rendering loses nothing *)

(** An error is its kind and its message. *)
Lemma kind_msg_inj e1 e2 : kind e1 = kind e2 -> msg e1 = msg e2 -> e1 = e2.
Proof. destruct e1, e2; simpl; congruence. Qed.

(** No symbolic name followed by the separator is a prefix of another. *)
Lemma as_str_prefix_free k1 k2 r1 r2 :
  as_str k1 ++ lit ": " ++ r1 = as_str k2 ++ lit ": " ++ r2 -> k1 = k2 /\ r1 = r2.
Proof.
  destruct k1, k2; cbn; intros H; try (split; [reflexivity|]); simplify_eq; done.
Qed.
