(* ===== verification/Json.v ===== *)
(** * Json: the JSON values that jobs and endpoint calls carry

    [serde_json::Value] with its public constructors.  An object is the list
    of its entries in the order they are visited. *)

From S2P Require Import Prelude.

(** [serde_json::Number]: a [u64], a negative [i64], or the bits of an [f64]. *)
Inductive Number := PosInt (u : Z) | NegInt (i : Z) | Float (bits : Z).

Inductive Value :=
| VNull
| VBool (b : bool)
| VNumber (n : Number)
| VString (s : str)
| VArray (l : list Value)
| VObject (fields : list (str * Value)).

(** What a derived [Deserialize] implementation reports. *)
Inductive DeError :=
| UnknownField (f : str)
| DuplicateField (f : str)
| MissingField (f : str)
| InvalidLength (n : nat)
| InvalidType
| Custom (m : str).

(** [String::deserialize] from a JSON value. *)
Definition de_string (v : Value) : result DeError str :=
  match v with VString s => Ok s | _ => Err InvalidType end.
