(* ===== verification/Utf8.v ===== *)
(** * Utf8: the standard library's UTF-8 conversions

    [str::as_bytes], [str::from_utf8] and [String::from_utf8_lossy] on lists
    of code points and of bytes, as the codecs and the endpoint client use
    them, with their round trip. *)

From S2P Require Import Prelude.

(** A Unicode scalar value, what a [char] is. *)
Definition is_scalar (c : Z) : bool :=
  ((0 <=? c) && (c <? 0xD800)) || ((0xE000 <=? c) && (c <=? 0x10FFFF)).

Definition valid_str (s : str) : Prop := Forall (fun c => is_scalar c = true) s.
Definition valid_bytes (b : bytes) : Prop := Forall (fun x => in_range u8_max x) b.

(** The bytes of one [char]. *)
Definition encode_char (c : Z) : bytes :=
  if c <? 0x80 then [c]
  else if c <? 0x800 then [0xC0 + c / 64; 0x80 + c mod 64]
  else if c <? 0x10000 then [0xE0 + c / 4096; 0x80 + c / 64 mod 64; 0x80 + c mod 64]
  else [0xF0 + c / 262144; 0x80 + c / 4096 mod 64; 0x80 + c / 64 mod 64; 0x80 + c mod 64].

(** [str::as_bytes]. *)
Definition utf8_encode (s : str) : bytes := c ← s; encode_char c.

Definition is_cont (b : Z) : bool := (0x80 <=? b) && (b <=? 0xBF).

(** The range of the second byte after a three- or four-byte lead. *)
Definition second_ok (b0 b1 : Z) : bool :=
  if b0 =? 0xE0 then (0xA0 <=? b1) && (b1 <=? 0xBF)
  else if b0 =? 0xED then (0x80 <=? b1) && (b1 <=? 0x9F)
  else if b0 =? 0xF0 then (0x90 <=? b1) && (b1 <=? 0xBF)
  else if b0 =? 0xF4 then (0x80 <=? b1) && (b1 <=? 0x8F)
  else is_cont b1.

Definition byte_at (i : nat) (l : bytes) : Z := default (-1) (l !! i).

(** The first character of a non-empty input and its length, or the length of
    the maximal invalid prefix. *)
Definition utf8_next (l : bytes) : option Z * nat :=
  let b0 := byte_at 0 l in let b1 := byte_at 1 l in
  let b2 := byte_at 2 l in let b3 := byte_at 3 l in
  if (0 <=? b0) && (b0 <? 0x80) then (Some b0, 1%nat)
  else if (0xC2 <=? b0) && (b0 <=? 0xDF) then
    if is_cont b1 then (Some ((b0 - 0xC0) * 64 + (b1 - 0x80)), 2%nat) else (None, 1%nat)
  else if (0xE0 <=? b0) && (b0 <=? 0xEF) then
    if second_ok b0 b1 then
      if is_cont b2 then (Some ((b0 - 0xE0) * 4096 + (b1 - 0x80) * 64 + (b2 - 0x80)), 3%nat)
      else (None, 2%nat)
    else (None, 1%nat)
  else if (0xF0 <=? b0) && (b0 <=? 0xF4) then
    if second_ok b0 b1 then
      if is_cont b2 then
        if is_cont b3 then
          (Some ((b0 - 0xF0) * 262144 + (b1 - 0x80) * 4096 + (b2 - 0x80) * 64 + (b3 - 0x80)), 4%nat)
        else (None, 3%nat)
      else (None, 2%nat)
    else (None, 1%nat)
  else (None, 1%nat).

(** The input cut into characters and invalid pieces; the fuel is its length. *)
Fixpoint utf8_chunks (fuel : nat) (l : bytes) : list (option Z) :=
  match fuel, l with
  | S fuel', _ :: _ => let '(c, n) := utf8_next l in c :: utf8_chunks fuel' (drop n l)
  | _, _ => []
  end.

(** [str::from_utf8] and [String::from_utf8_lossy]. *)
Definition from_utf8 (l : bytes) : option str := mapM id (utf8_chunks (length l) l).
Definition from_utf8_lossy (l : bytes) : str := default 0xFFFD <$> utf8_chunks (length l) l.

(** ** The round trip *)

Lemma scalar_cases c : is_scalar c = true -> 0 <= c < 0xD800 \/ 0xE000 <= c <= 0x10FFFF.
Proof. unfold is_scalar. intros [H|H]%orb_true_iff; bool_facts; lia. Qed.

Lemma encode_char_nonempty c : (0 < length (encode_char c))%nat.
Proof. unfold encode_char. repeat case_match; cbn; lia. Qed.

Ltac range_tests :=
  repeat match goal with
  | |- context [?a <=? ?b] => destruct (Z.leb_spec a b)
  | |- context [?a <? ?b] => destruct (Z.ltb_spec a b)
  | |- context [?a =? ?b] => destruct (Z.eqb_spec a b)
  end.

(** Evaluate the outermost test, whose value follows from the context. *)
Ltac btest := range_tests; first [reflexivity | exfalso; lia].
Ltac decide_if :=
  match goal with
  | |- (if ?c then _ else _) = _ =>
      first [ replace c with true by (symmetry; btest) | replace c with false by (symmetry; btest) ]
  end; cbv iota.

Lemma utf8_next_1 b rest : 0 <= b < 0x80 -> utf8_next (b :: rest) = (Some b, 1%nat).
Proof. intros. unfold utf8_next, byte_at. cbn -[Z.mul]. by decide_if. Qed.

Lemma utf8_next_2 a b rest : 2 <= a < 32 -> 0 <= b < 64 ->
  utf8_next (0xC0 + a :: 0x80 + b :: rest) = (Some (a * 64 + b), 2%nat).
Proof.
  intros. unfold utf8_next, byte_at, is_cont. cbn -[Z.mul]. repeat decide_if. do 2 f_equal. lia.
Qed.

Lemma utf8_next_3 a b d rest : 0 <= a < 16 -> 0 <= b < 64 -> 0 <= d < 64 ->
  is_scalar (a * 4096 + b * 64 + d) = true -> 0x800 <= a * 4096 + b * 64 + d ->
  utf8_next (0xE0 + a :: 0x80 + b :: 0x80 + d :: rest) = (Some (a * 4096 + b * 64 + d), 3%nat).
Proof.
  intros Ha Hb Hd Hs%scalar_cases Hl. unfold utf8_next, byte_at, is_cont. cbn -[Z.mul second_ok].
  assert (second_ok (0xE0 + a) (0x80 + b) = true) as Hok.
  { unfold second_ok, is_cont. repeat (decide_if || (range_tests; lia || reflexivity)). }
  rewrite Hok. repeat decide_if. do 2 f_equal. lia.
Qed.

Lemma utf8_next_4 a b d e rest : 0 <= a < 8 -> 0 <= b < 64 -> 0 <= d < 64 -> 0 <= e < 64 ->
  0x10000 <= a * 262144 + b * 4096 + d * 64 + e <= 0x10FFFF ->
  utf8_next (0xF0 + a :: 0x80 + b :: 0x80 + d :: 0x80 + e :: rest) =
    (Some (a * 262144 + b * 4096 + d * 64 + e), 4%nat).
Proof.
  intros Ha Hb Hd He Hl. unfold utf8_next, byte_at, is_cont. cbn -[Z.mul second_ok].
  assert (second_ok (0xF0 + a) (0x80 + b) = true) as Hok.
  { unfold second_ok, is_cont. repeat (decide_if || (range_tests; lia || reflexivity)). }
  rewrite Hok. repeat decide_if. do 2 f_equal. lia.
Qed.

(** Reading back the bytes of a character. *)
Lemma utf8_next_encode c rest : is_scalar c = true ->
  utf8_next (encode_char c ++ rest) = (Some c, length (encode_char c)).
Proof.
  intros Hs. pose proof (scalar_cases _ Hs) as Hc. unfold encode_char.
  destruct (Z.ltb_spec c 0x80); [|destruct (Z.ltb_spec c 0x800); [|destruct (Z.ltb_spec c 0x10000)]];
    cbn -[Z.div Z.modulo Z.add].
  - apply utf8_next_1. lia.
  - rewrite utf8_next_2 by dlia. do 2 f_equal. dlia.
  - assert (c / 4096 * 4096 + c / 64 mod 64 * 64 + c mod 64 = c) as Heq by dlia.
    rewrite utf8_next_3; rewrite ?Heq; (done || dlia).
  - assert (c / 262144 * 262144 + c / 4096 mod 64 * 4096 + c / 64 mod 64 * 64 + c mod 64 = c) as Heq by dlia.
    rewrite utf8_next_4; rewrite ?Heq; (done || dlia).
Qed.

Lemma utf8_chunks_encode s fuel :
  valid_str s -> (length (utf8_encode s) <= fuel)%nat -> utf8_chunks fuel (utf8_encode s) = Some <$> s.
Proof.
  intros Hv. revert fuel. induction Hv as [|c s Hc _ IH]; intros fuel Hf; [by destruct fuel|].
  unfold utf8_encode in *. cbn in *. rewrite length_app in Hf. pose proof (encode_char_nonempty c).
  destruct fuel as [|fuel]; [lia|]. pose proof (utf8_next_encode c (s ≫= encode_char) Hc) as Hn.
  destruct (encode_char c ++ (s ≫= encode_char)) as [|b l] eqn:He;
    [destruct (encode_char c); cbn in *; done || lia|].
  cbn [utf8_chunks]. rewrite Hn, <- He, drop_app_length. f_equal. apply IH. lia.
Qed.

Lemma mapM_Some {A} (l : list A) : mapM id (Some <$> l) = Some l.
Proof. induction l as [|x l IH]; [done|]. cbn in *. by rewrite IH. Qed.

(** Decoding the bytes of a string gives it back. *)
Lemma from_utf8_encode s : valid_str s -> from_utf8 (utf8_encode s) = Some s.
Proof. intros Hv. unfold from_utf8. rewrite utf8_chunks_encode by done. apply mapM_Some. Qed.

Lemma from_utf8_lossy_encode s : valid_str s -> from_utf8_lossy (utf8_encode s) = s.
Proof.
  intros Hv. unfold from_utf8_lossy. rewrite utf8_chunks_encode by done.
  rewrite <- list_fmap_compose. apply list_fmap_id.
Qed.
