(* ===== verification/Str.v ===== *)
(** * Str: the standard library's string operations

    What the code uses of [str], [String] and [char] beyond UTF-8: searching,
    splitting, replacing and trimming, ASCII case and number formatting, on
    lists of code points, with the lemmas the components share.  Positions
    are counted in characters; they are only used to cut. *)

From S2P Require Import Prelude Utf8.

(** [s.len()], in bytes. *)
Definition str_len (s : str) : Z := Z.of_nat (length (utf8_encode s)).
Definition is_ascii (s : str) : bool := forallb (fun c => (0 <=? c) && (c <? 128)) s.

Definition ascii_lower (c : Z) : Z := if (65 <=? c) && (c <=? 90) then c + 32 else c.
Definition to_ascii_lowercase (s : str) : str := ascii_lower <$> s.
Definition eq_ignore_ascii_case (a b : str) : bool :=
  bool_decide (to_ascii_lowercase a = to_ascii_lowercase b).

(** [char::is_ascii_whitespace] and [char::is_whitespace]. *)
Definition is_ascii_whitespace (c : Z) : bool :=
  (c =? 32) || (c =? 9) || (c =? 10) || (c =? 12) || (c =? 13).
Definition is_whitespace (c : Z) : bool :=
  ((9 <=? c) && (c <=? 13)) || (c =? 32) || (c =? 0x85) || (c =? 0xA0) || (c =? 0x1680)
  || ((0x2000 <=? c) && (c <=? 0x200A)) || (c =? 0x2028) || (c =? 0x2029) || (c =? 0x202F)
  || (c =? 0x205F) || (c =? 0x3000).

(** [starts_with], [ends_with], [strip_suffix]. *)
Fixpoint starts_with (pat s : str) : bool :=
  match pat, s with
  | [], _ => true
  | p :: pat', c :: s' => (p =? c) && starts_with pat' s'
  | _, [] => false
  end.
Definition ends_with (pat s : str) : bool := starts_with (rev pat) (rev s).
Definition strip_suffix (pat s : str) : option str :=
  if ends_with pat s then Some (take (length s - length pat) s) else None.

(** [split_once] at the first occurrence of a non-empty pattern; [find] gives
    its position and [contains] whether there is one. *)
Fixpoint split_once (pat s : str) : option (str * str) :=
  if starts_with pat s then Some ([], drop (length pat) s)
  else match s with
       | [] => None
       | c :: s' => '(a, b) ← split_once pat s'; Some (c :: a, b)
       end.
Definition contains (pat s : str) : bool :=
  match split_once pat s with Some _ => true | None => false end.

(** [split] at every occurrence of a character. *)
Fixpoint split_char (sep : Z) (s : str) : list str :=
  match s with
  | [] => [[]]
  | c :: s' =>
      let pieces := split_char sep s' in
      if c =? sep then [] :: pieces
      else match pieces with
           | p :: rest => (c :: p) :: rest
           | [] => [[c]]
           end
  end.

(** [replace] of a non-empty pattern, from left to right; [skip] counts the
    characters of a match that are still to be dropped. *)
Fixpoint replace_from (pat by_ : str) (skip : nat) (s : str) : str :=
  match s with
  | [] => []
  | c :: s' =>
      match skip with
      | S k => replace_from pat by_ k s'
      | O => if starts_with pat s then by_ ++ replace_from pat by_ (length pat - 1) s'
             else c :: replace_from pat by_ 0 s'
      end
  end.
Definition replace (pat by_ s : str) : str := replace_from pat by_ 0 s.

(** [trim_start], [trim_end], [trim] and [trim_end_matches] of a character. *)
Fixpoint drop_while (p : Z -> bool) (s : str) : str :=
  match s with c :: s' => if p c then drop_while p s' else s | [] => [] end.
Definition trim_end_while (p : Z -> bool) (s : str) : str := rev (drop_while p (rev s)).
Definition trim (s : str) : str := trim_end_while is_whitespace (drop_while is_whitespace s).
Definition trim_end_matches (c : Z) (s : str) : str := trim_end_while (Z.eqb c) s.

(** [parts.join(sep)]. *)
Fixpoint join (sep : str) (parts : list str) : str :=
  match parts with
  | [] => []
  | [p] => p
  | p :: rest => p ++ sep ++ join sep rest
  end.

(** [{n}]: decimal rendering of a machine integer. *)
Fixpoint digits (fuel : nat) (n : Z) : str :=
  match fuel with
  | 0%nat => []
  | S fuel' => (if n <? 10 then [] else digits fuel' (n / 10)) ++ [48 + n mod 10]
  end.
Definition show (n : Z) : str := digits 20 n.

(** [{n:0wx}]: lower-case hexadecimal, padded with zeros to width [w]; at most
    sixteen digits for a [u64]. *)
Definition hex_lower (d : Z) : Z := if d <? 10 then 48 + d else 87 + d.
Fixpoint hex_digits (fuel : nat) (n : Z) : str :=
  match fuel with
  | 0%nat => []
  | S fuel' => (if n <? 16 then [] else hex_digits fuel' (n / 16)) ++ [hex_lower (n mod 16)]
  end.
Definition show_hex (w : nat) (n : Z) : str :=
  let ds := hex_digits 16 n in replicate (w - length ds) 48 ++ ds.

(** ** Lemmas *)

Lemma starts_with_app pat s : starts_with pat (pat ++ s) = true.
Proof. induction pat as [|p pat IH]; [done|]. cbn. by rewrite Z.eqb_refl. Qed.

Lemma starts_with_true pat s : starts_with pat s = true <-> exists t, s = pat ++ t.
Proof.
  split; [|intros [t ->]; apply starts_with_app].
  revert s. induction pat as [|p pat IH]; intros s; [by exists s|].
  destruct s as [|c s]; cbn; [done|]. intros Hs. bool_facts. subst.
  destruct (IH s) as [t ->]; [done|]. by exists t.
Qed.

Lemma starts_with_drop pat s : starts_with pat s = true -> s = pat ++ drop (length pat) s.
Proof. intros [t ->]%starts_with_true. by rewrite drop_app_length. Qed.

Lemma split_once_Some pat s a b : split_once pat s = Some (a, b) -> s = a ++ pat ++ b.
Proof.
  revert a. induction s as [|c s IH]; intros a; cbn [split_once].
  all: destruct (starts_with pat _) eqn:Hs; [intros [= <- <-]; by apply starts_with_drop|].
  - done.
  - intros ([a' b'] & Hrec & [= <- <-])%bind_Some. cbn. f_equal. by apply IH.
Qed.

Lemma split_once_cons pat c s :
  split_once pat (c :: s) =
  if starts_with pat (c :: s) then Some ([], drop (length pat) (c :: s))
  else '(a, b) ← split_once pat s; Some (c :: a, b).
Proof. done. Qed.

(** The first occurrence is found where the pattern's first character first
    appears. *)
Lemma split_once_here p pat a b :
  p ∉ a -> split_once (p :: pat) (a ++ (p :: pat) ++ b) = Some (a, b).
Proof.
  induction a as [|c a IH]; intros Hp.
  - rewrite app_nil_l. pose proof (starts_with_app (p :: pat) b) as Hs.
    pose proof (drop_app_length (p :: pat) b) as Hd. rewrite <- Hd at 2.
    destruct ((p :: pat) ++ b) as [|x l]; [done|]. rewrite split_once_cons, Hs. done.
  - apply not_elem_of_cons in Hp as [Hne Hp]. rewrite <- app_comm_cons, split_once_cons, IH by done.
    cbn [starts_with]. by rewrite (proj2 (Z.eqb_neq p c) Hne).
Qed.

Lemma split_once_None p pat s : p ∉ s -> split_once (p :: pat) s = None.
Proof.
  induction s as [|c s IH]; intros Hp; [done|]. apply not_elem_of_cons in Hp as [Hne Hp].
  rewrite split_once_cons, IH by done. cbn [starts_with]. by rewrite (proj2 (Z.eqb_neq p c) Hne).
Qed.

Lemma contains_true pat s : contains pat s = true -> exists a b, s = a ++ pat ++ b.
Proof.
  unfold contains. destruct (split_once pat s) as [[a b]|] eqn:E; [|done].
  intros _. exists a, b. by apply split_once_Some.
Qed.

Lemma is_ascii_cons c s : is_ascii (c :: s) = (0 <=? c) && (c <? 128) && is_ascii s.
Proof. done. Qed.

Lemma is_ascii_Forall s : is_ascii s = true <-> Forall (fun c => 0 <= c < 128) s.
Proof.
  unfold is_ascii. rewrite forallb_forall, Forall_forall. setoid_rewrite andb_true_iff.
  setoid_rewrite Z.leb_le. setoid_rewrite Z.ltb_lt.
  split; intros Hs x Hx; apply Hs; by apply list_elem_of_In.
Qed.

Lemma utf8_encode_app s t : utf8_encode (s ++ t) = utf8_encode s ++ utf8_encode t.
Proof. unfold utf8_encode. apply bind_app. Qed.

(** ASCII text is its own encoding. *)
Lemma utf8_encode_ascii s : Forall (fun c => 0 <= c < 128) s -> utf8_encode s = s.
Proof.
  induction 1 as [|c s Hc _ IH]; [done|]. unfold utf8_encode in *. cbn. rewrite IH.
  unfold encode_char. by rewrite (proj2 (Z.ltb_lt c 0x80)) by lia.
Qed.
