(* ===== verification/StrMap.v ===== *)
(** * StrMap: the order of strings and [BTreeMap<String, String>]

    [Ord for str] compares the UTF-8 bytes; a [BTreeMap] is the list of its
    entries in increasing order of the keys.  Also the deserialisation of a
    JSON object into a map of strings, which several modules share. *)

From S2P Require Import Prelude Json Utf8 Str.

(** ** The order of strings *)

Fixpoint bytes_cmp (a b : bytes) : comparison :=
  match a, b with
  | [], [] => Eq
  | [], _ :: _ => Lt
  | _ :: _, [] => Gt
  | x :: a', y :: b' => match x ?= y with Eq => bytes_cmp a' b' | c => c end
  end.

(** [Ord::cmp] of two strings. *)
Definition str_cmp (a b : str) : comparison := bytes_cmp (utf8_encode a) (utf8_encode b).
Definition str_leb (a b : str) : bool := match str_cmp a b with Gt => false | _ => true end.
Definition str_lt (a b : str) : Prop := str_cmp a b = Lt.

Lemma bytes_cmp_refl a : bytes_cmp a a = Eq.
Proof. induction a as [|x a IH]; [done|]. cbn. by rewrite Z.compare_refl. Qed.

Lemma bytes_cmp_eq a b : bytes_cmp a b = Eq -> a = b.
Proof.
  revert b. induction a as [|x a IH]; intros [|y b]; cbn; try done.
  destruct (Z.compare_spec x y); try done. intros ?. f_equal; auto.
Qed.

Lemma bytes_cmp_antisym a b : bytes_cmp b a = CompOpp (bytes_cmp a b).
Proof.
  revert b. induction a as [|x a IH]; intros [|y b]; cbn; try done.
  rewrite (Z.compare_antisym x y). by destruct (x ?= y); cbn.
Qed.

Lemma bytes_cmp_lt_trans a b c : bytes_cmp a b = Lt -> bytes_cmp b c = Lt -> bytes_cmp a c = Lt.
Proof.
  revert b c. induction a as [|x a IH]; intros [|y b] [|z c]; cbn; try done.
  destruct (Z.compare_spec x y), (Z.compare_spec y z), (Z.compare_spec x z); try done; try lia. apply IH.
Qed.

Lemma utf8_encode_inj a b : valid_str a -> valid_str b -> utf8_encode a = utf8_encode b -> a = b.
Proof.
  intros Ha Hb E. pose proof (from_utf8_encode _ Ha) as E1. rewrite E, from_utf8_encode in E1 by done. congruence.
Qed.

Lemma str_cmp_eq a b : valid_str a -> valid_str b -> str_cmp a b = Eq <-> a = b.
Proof.
  intros Ha Hb. unfold str_cmp. split; [|intros ->; apply bytes_cmp_refl].
  intros E%bytes_cmp_eq. by apply utf8_encode_inj.
Qed.

Lemma str_lt_trans a b c : str_lt a b -> str_lt b c -> str_lt a c.
Proof. apply bytes_cmp_lt_trans. Qed.

Lemma str_lt_irrefl a : ~ str_lt a a.
Proof. unfold str_lt, str_cmp. by rewrite bytes_cmp_refl. Qed.

Lemma str_cmp_flip a b : str_cmp a b = Gt <-> str_lt b a.
Proof. unfold str_lt, str_cmp. rewrite (bytes_cmp_antisym (utf8_encode a)). by destruct (bytes_cmp _ _). Qed.

Lemma str_leb_total a b : str_leb a b = true \/ str_leb b a = true.
Proof.
  unfold str_leb, str_cmp. rewrite (bytes_cmp_antisym (utf8_encode a)). destruct (bytes_cmp _ _); auto.
Qed.

Lemma str_leb_trans a b c : str_leb a b = true -> str_leb b c = true -> str_leb a c = true.
Proof.
  unfold str_leb, str_cmp.
  destruct (bytes_cmp (utf8_encode a) (utf8_encode b)) eqn:E1; [apply bytes_cmp_eq in E1 as ->; done| |done].
  destruct (bytes_cmp (utf8_encode b) (utf8_encode c)) eqn:E2; [apply bytes_cmp_eq in E2 as <-; by rewrite E1| |done].
  intros _ _. by rewrite (bytes_cmp_lt_trans _ _ _ E1 E2).
Qed.

(** ** The map *)

(** [BTreeMap::insert]. *)
Fixpoint btree_insert (k v : str) (m : list (str * str)) : list (str * str) :=
  match m with
  | [] => [(k, v)]
  | (k', v') :: rest =>
      match str_cmp k k' with
      | Eq => (k', v) :: rest
      | Lt => (k, v) :: m
      | Gt => (k', v') :: btree_insert k v rest
      end
  end.

Fixpoint btree_get (k : str) (m : list (str * str)) : option str :=
  match m with
  | [] => None
  | (k', v) :: rest => if decide (k = k') then Some v else btree_get k rest
  end.

(** Inserting entries one after the other. *)
Definition btree_extend (entries m : list (str * str)) : list (str * str) :=
  fold_left (fun m '(k, v) => btree_insert k v m) entries m.

(** [serde_json]'s message for a value where a string is expected. *)
Class SerdeMessages := expected_string : Value -> str.

(** *** The order of the characters

    Rust compares strings by the bytes of their UTF-8 form; that is the
    lexicographic order of their characters. *)
Inductive lex_le : list Z -> list Z -> Prop :=
| lex_nil b : lex_le [] b
| lex_head x y a b : x < y -> lex_le (x :: a) (y :: b)
| lex_tail x a b : lex_le a b -> lex_le (x :: a) (x :: b).

Lemma bytes_cmp_prefix p a b : bytes_cmp (p ++ a) (p ++ b) = bytes_cmp a b.
Proof. induction p as [|x p IH]; [done|]. cbn. by rewrite Z.compare_refl. Qed.

Lemma encode_char_lt c d s t : is_scalar c = true -> is_scalar d = true -> c < d ->
  bytes_cmp (encode_char c ++ s) (encode_char d ++ t) = Lt.
Proof.
  intros Hc%scalar_cases Hd%scalar_cases Hlt. unfold encode_char.
  repeat match goal with |- context [if ?a <? ?b then _ else _] => destruct (Z.ltb_spec a b) end.
  all: try lia; cbn [bytes_cmp app].
  all: repeat match goal with |- context [?a ?= ?b] => destruct (Z.compare_spec a b); try (exfalso; dlia); try reflexivity end.
Qed.

Lemma str_cmp_chars a b : valid_str a -> valid_str b -> str_cmp a b = bytes_cmp a b.
Proof.
  unfold str_cmp, utf8_encode. intros Ha. revert b.
  induction Ha as [|c a Hc Ha IH]; intros b Hb; destruct Hb as [|d b Hd Hb]; [done|..]; cbn.
  - pose proof (encode_char_nonempty d). destruct (encode_char d); cbn in *; [lia|done].
  - pose proof (encode_char_nonempty c). destruct (encode_char c); cbn in *; [lia|done].
  - destruct (Z.compare_spec c d) as [->|Hlt|Hgt].
    + rewrite bytes_cmp_prefix. by apply IH.
    + by apply encode_char_lt.
    + rewrite bytes_cmp_antisym, encode_char_lt by done. done.
Qed.

Lemma bytes_cmp_lex a b : bytes_cmp a b <> Gt <-> lex_le a b.
Proof.
  revert b. induction a as [|x a IH]; intros [|y b]; cbn; split; try done; try (intros _; apply lex_nil).
  - inversion 1.
  - destruct (Z.compare_spec x y) as [->|Hlt|Hgt]; [|intros _; by apply lex_head|done].
    intros ?. by apply lex_tail, IH.
  - inversion 1; subst.
    + by rewrite (proj2 (Z.compare_lt_iff _ _)).
    + rewrite Z.compare_refl. by apply IH.
Qed.

Lemma str_leb_lex a b : valid_str a -> valid_str b -> str_leb a b = true <-> lex_le a b.
Proof.
  intros Ha Hb. unfold str_leb. rewrite str_cmp_chars, <- bytes_cmp_lex by done. by destruct (bytes_cmp a b).
Qed.

(** [serde_json::from_value::<BTreeMap<String, String>>] and
    [<HashMap<String, String>>] of an object: the entries, if all are strings. *)
Fixpoint string_entries `{SerdeMessages} (fields : list (str * Value)) : result str (list (str * str)) :=
  match fields with
  | [] => Ok []
  | (k, VString s) :: rest => es ← string_entries rest; Ok ((k, s) :: es)
  | (_, v) :: _ => Err (expected_string v)
  end.

(** ** What a map is *)

Definition valid_pairs (m : list (str * str)) : Prop := Forall (fun p => valid_str p.1 /\ valid_str p.2) m.
Definition btree_ok (m : list (str * str)) : Prop := StronglySorted (fun p q => str_lt p.1 q.1) m /\ valid_pairs m.

(** The value of the last entry with a key. *)
Definition last_value (k : str) (entries : list (str * str)) : option str :=
  last (omap (fun p => if decide (p.1 = k) then Some p.2 else None) entries).

Lemma btree_insert_keys k v m x :
  x ∈ btree_insert k v m -> str_cmp k x.1 = Eq \/ x = (k, v) \/ x ∈ m.
Proof.
  induction m as [|[k' v'] m IH]; cbn; [intros ->%list_elem_of_singleton; auto|].
  destruct (str_cmp k k') eqn:E; rewrite !elem_of_cons; [|by naive_solver|].
  - intros [->|Hx]; [by left|by auto].
  - intros [->|Hx]; [by auto|]. destruct (IH Hx) as [?|[?|?]]; auto.
Qed.

Lemma btree_insert_ok k v m : valid_str k -> valid_str v -> btree_ok m -> btree_ok (btree_insert k v m).
Proof.
  intros Hk Hv [Hs Hm]. induction Hs as [|[k' v'] m Hs IH Hlt]; cbn; [by repeat constructor|].
  apply Forall_cons in Hm as [[Hk' Hv'] Hm]. destruct (IH Hm) as [IHs IHm].
  destruct (str_cmp k k') eqn:E.
  - split; by repeat constructor.
  - split; [|by repeat constructor]. constructor; [by constructor|]. constructor; [done|].
    eapply Forall_impl; [exact Hlt|]. cbn. intros x Hx. by eapply str_lt_trans.
  - apply str_cmp_flip in E. split; [|by repeat constructor]. constructor; [done|].
    apply Forall_forall. intros x Hx. apply btree_insert_keys in Hx as Hx'.
    destruct Hx' as [Heq|[->|Hx']]; [|done|by rewrite Forall_forall in Hlt; apply Hlt].
    cbn. unfold valid_pairs in IHm. rewrite Forall_forall in IHm.
    apply str_cmp_eq in Heq; [by rewrite <- Heq|done|by apply IHm].
Qed.

Lemma btree_get_insert k v m q : valid_str k -> valid_pairs m ->
  btree_get q (btree_insert k v m) = if decide (q = k) then Some v else btree_get q m.
Proof.
  intros Hk Hm. induction Hm as [|[k' v'] m [Hk' _] Hm IH]; cbn; [by repeat case_decide|].
  cbn in Hk'. destruct (str_cmp k k') eqn:E; cbn.
  - apply str_cmp_eq in E; [|done..]. subst. by repeat case_decide.
  - done.
  - rewrite IH. repeat case_decide; subst; try done.
    apply str_cmp_flip in E. by apply str_lt_irrefl in E.
Qed.

Lemma btree_extend_ok es m : valid_pairs es -> btree_ok m -> btree_ok (btree_extend es m).
Proof.
  intros Hes. revert m. induction Hes as [|[k v] es [Hk Hv] _ IH]; intros m Hm; [done|].
  cbn. by apply IH, btree_insert_ok.
Qed.

Lemma last_value_cons q k v es :
  last_value q ((k, v) :: es) = opt_or (last_value q es) (if decide (k = q) then Some v else None).
Proof.
  unfold last_value. cbn. case_decide; cbn; [|by destruct (last _)].
  rewrite last_cons. by destruct (last (omap _ es)).
Qed.

(** The last entry of a key wins. *)
Lemma btree_get_extend es m q : valid_pairs es -> btree_ok m ->
  btree_get q (btree_extend es m) = opt_or (last_value q es) (btree_get q m).
Proof.
  intros Hes. revert m. induction Hes as [|[k v] es [Hk Hv] Hes IH]; intros m Hm; [done|].
  cbn. rewrite IH by (by apply btree_insert_ok). rewrite last_value_cons, btree_get_insert by (done || apply Hm).
  destruct (last_value q es); [done|]. cbn. by repeat case_decide.
Qed.

Lemma btree_insert_last k v m :
  Forall (fun p => str_lt p.1 k) m -> btree_insert k v m = m ++ [(k, v)].
Proof.
  induction 1 as [|[k' v'] m Hlt _ IH]; [done|]. cbn in *. apply str_cmp_flip in Hlt. by rewrite Hlt, IH.
Qed.

Lemma btree_extend_app m1 m2 : btree_ok (m1 ++ m2) -> btree_extend m2 m1 = m1 ++ m2.
Proof.
  revert m1. induction m2 as [|[k v] m2 IH]; intros m1 [Hs Hv]; [by rewrite app_nil_r|]. cbn.
  rewrite btree_insert_last.
  - rewrite IH; [by rewrite <- app_assoc|]. by rewrite <- app_assoc.
  - apply Forall_forall. intros x Hx.
    apply (StronglySorted_app_1_elem_of (fun p q => str_lt p.1 q.1) m1 ((k, v) :: m2) x (k, v)); [done..|by left].
Qed.

(** Reading the entries of a map in order builds the same map. *)
Lemma btree_extend_id m : btree_ok m -> btree_extend m [] = m.
Proof. apply (btree_extend_app []). Qed.

Lemma string_entries_Ok `{SerdeMessages} es :
  string_entries ((fun p => (p.1, VString p.2)) <$> es) = Ok es.
Proof. induction es as [|[k v] es IH]; [done|]. cbn in *. by rewrite IH. Qed.
