(* ===== verification/Transport.v ===== *)
(** * Transport: the endpoint HTTP transport
    (src/src/internal/http/{transport,headers}.rs)

    The typed transport errors and their retry classes, the header collection,
    the request and response shapes, the [EndpointHttpClient] interface and its
    default implementation.  The [http] and [mechanics-http-client] crates are
    parameters: a header map is what can be asked of it, and a client is the
    class [Mhc].  Every operation that takes time passes the environment [E]
    along, whose clock is [env_now]. *)

From S2P Require Import Prelude Json Utf8 Str.

(** ** [std::io::Error] *)

(** The [ErrorKind]s this code tells apart, and the rest by number. *)
Inductive ErrorKind := TimedOut | InvalidData | InvalidInput | OtherKind | OtherIoKind (n : nat).

Global Instance ErrorKind_eq_dec : EqDecision ErrorKind.
Proof. solve_decision. Defined.

Record IoError := mkIoError { io_kind : ErrorKind; io_msg : str }.

Definition io_other (m : str) : IoError := mkIoError OtherKind m.

(** ** [EndpointTransportError] *)

Inductive EndpointTransportError :=
| Network (e : IoError)
| Timeout
| BodyTooLarge (limit : Z) (seen : option Z)
| InvalidRequest (m : str)
| Decode (m : str)
| Other (m : str).

(** [EndpointRetryPolicy] of [mechanics-config]: its fields and methods. *)
Record EndpointRetryPolicy := {
  max_attempts : nat;
  retry_on_io_errors : bool;
  retry_on_timeout : bool;
  should_retry_status : Z -> bool;
  retry_delay_for_status : Z -> option str -> nat -> Duration;
  retry_delay_for_transport : nat -> Duration;
}.

Definition transport_display (e : EndpointTransportError) : str :=
  match e with
  | Network e => io_msg e
  | Timeout => lit "request timed out"
  | BodyTooLarge limit (Some n) =>
      lit "response body exceeds configured max bytes (" ++ show limit ++
      lit "): content-length is " ++ show n
  | BodyTooLarge limit None =>
      lit "response body exceeds configured max bytes (" ++ show limit ++ lit ")"
  | InvalidRequest m | Decode m | Other m => m
  end.

Definition is_retryable_per (e : EndpointTransportError) (policy : EndpointRetryPolicy) : bool :=
  match e with
  | Network _ => retry_on_io_errors policy
  | Timeout => retry_on_timeout policy
  | BodyTooLarge _ _ | InvalidRequest _ | Decode _ | Other _ => false
  end.

(** [EndpointTransportError::into_io_error]. *)
Definition into_io_error (e : EndpointTransportError) : IoError :=
  match e with
  | Network e => e
  | Timeout => mkIoError TimedOut (lit "request timed out")
  | BodyTooLarge _ _ => mkIoError InvalidData (transport_display e)
  | InvalidRequest _ => mkIoError InvalidInput (transport_display e)
  | Decode _ | Other _ => io_other (transport_display e)
  end.

(** ** Headers *)

(** [EndpointHttpHeaders]: its entries in insertion order. *)
Record EndpointHttpHeaders := mkHeaders { entries : list (str * str) }.

Definition headers_new : EndpointHttpHeaders := mkHeaders [].
Definition headers_insert (name value : str) (h : EndpointHttpHeaders) : EndpointHttpHeaders :=
  mkHeaders (entries h ++ [(name, value)]).
Definition headers_iter (h : EndpointHttpHeaders) : list (str * str) := entries h.
Definition headers_values (name : str) (h : EndpointHttpHeaders) : list str :=
  snd <$> filter (fun e => eq_ignore_ascii_case (fst e) name = true) (entries h).

(** [http::HeaderMap]: [hm_keys] lists the names it iterates over, and
    [hm_get_all] the raw values of a name. *)
Record HeaderMap := {
  hm_keys : list str;
  hm_get_all : str -> list bytes;
}.

(** [HeaderValue::to_str]: visible ASCII and tab only. *)
Definition header_to_str (v : bytes) : option str :=
  if forallb (fun b => ((32 <=? b) && (b <? 127)) || (b =? 9)) v then Some v else None.

Definition header_text (v : bytes) : str :=
  match header_to_str v with Some s => s | None => from_utf8_lossy v end.

(** [from_http_map], with the set of the names seen so far. *)
Fixpoint from_http_map_loop (headers : HeaderMap) (names : list str) (seen_multi : list str)
    (out : EndpointHttpHeaders) : EndpointHttpHeaders :=
  match names with
  | [] => out
  | name :: rest =>
      if bool_decide (name ∈ seen_multi) then from_http_map_loop headers rest seen_multi out
      else
        from_http_map_loop headers rest (name :: seen_multi)
          (foldl (fun out v => headers_insert name (header_text v) out) out (hm_get_all headers name))
  end.
Definition from_http_map (headers : HeaderMap) : EndpointHttpHeaders :=
  from_http_map_loop headers (hm_keys headers) [] headers_new.

(** [extract_exposed_response_headers_prepared]: the set of allow-listed names
    as the list it iterates over; the result as the map it fills. *)
Definition extract_exposed_response_headers_prepared (headers : EndpointHttpHeaders)
    (allowlisted : list str) : gmap (list Z) (list Z) :=
  foldl (fun out name =>
    let parts := headers_values name headers in
    if bool_decide (parts = []) then out
    else <[to_ascii_lowercase name := join (lit ", ") parts]> out) ∅ allowlisted.

(** ** Requests, responses and clients *)

Inductive HttpMethod := Get | Post | Put | Patch | Delete | Head | Options.

(** [http::Method]'s constants, by name. *)
Definition as_http_method (m : HttpMethod) : str :=
  match m with
  | Get => lit "GET" | Post => lit "POST" | Put => lit "PUT" | Patch => lit "PATCH"
  | Delete => lit "DELETE" | Head => lit "HEAD" | Options => lit "OPTIONS"
  end.

Inductive EndpointHttpRequestBody :=
| BodyAbsent | BodyJson (v : Value) | BodyUtf8 (s : str) | BodyBytes (b : bytes).

Record EndpointHttpRequest := mkRequest {
  rq_method : HttpMethod;
  rq_url : str;
  rq_headers : EndpointHttpHeaders;
  rq_timeout_ms : option Z;
  rq_response_max_bytes : option Z;
  rq_body : EndpointHttpRequestBody;
}.

Record EndpointHttpResponse := mkResponse {
  rs_status : Z;
  rs_headers : EndpointHttpHeaders;
  rs_content_length : option Z;
  rs_body : bytes;
}.

(** The environment of asynchronous code: a clock and a timer. *)
Class Env (E : Type) := {
  env_now : E -> Instant;
  env_sleep : Duration -> E -> E;
}.

(** The [EndpointHttpClient] trait. *)
Class EndpointHttpClient (E C : Type) :=
  client_execute : C -> EndpointHttpRequest -> E -> E * result EndpointTransportError EndpointHttpResponse.

(** ** The request deadline *)

Definition deadline_new (now : Instant) (timeout_ms : option Z) : result IoError (option Instant) :=
  match timeout_ms with
  | None => Ok None
  | Some ms =>
      t ← ok_or (mkIoError InvalidInput
                   (lit "request timeout is too large for the current platform clock"))
            (instant_checked_add now (from_millis ms));
      mret (Some t)
  end.

Definition deadline_remaining (now expires_at : Instant) : result IoError Duration :=
  ok_or (mkIoError TimedOut (lit "request timed out"))
    (d ← checked_duration_since expires_at now;
     if is_zero d then None else Some d).

(** ** The default client *)

(** [mechanics_http_client::Error] with its [Display] text; [MhcUnknown] is a
    variant this version does not know. *)
Inductive MhcError :=
| MhcTimeout | MhcUnreachable | MhcTls | MhcCancelled | MhcDns | MhcQuicHandshake
| MhcBodyTooLarge (limit seen : Z)
| MhcInvalidUrl (m : str) | MhcInvalidHeader (m : str) | MhcSerializeJson (m : str)
| MhcDecode (m : str) | MhcInternal (m : str) | MhcUnknown.

(** A request as the builder of the client collects it. *)
Inductive MhcBody := MhcNoBody | MhcJson (v : Value) | MhcRaw (b : bytes).
Record MhcRequest := mkMhcRequest {
  mr_method : str;
  mr_url : str;
  mr_headers : list (str * str);
  mr_timeout : option Duration;
  mr_body : MhcBody;
}.

(** What the default client asks of [mechanics-http-client].  [mhc_read] reads
    the body, with an optional cap, under an optional [tokio] timeout; [None]
    when it elapsed. *)
Class Mhc (E Client Resp : Type) := {
  mhc_display : MhcError -> str;
  mhc_fresh_transport : Client -> E -> E * result MhcError Client;
  mhc_send : Client -> MhcRequest -> E -> E * result MhcError Resp;
  mhc_status : Resp -> Z;
  mhc_content_length : Resp -> option Z;
  mhc_headers : Resp -> HeaderMap;
  mhc_read : Resp -> option Z -> option Duration -> E -> E * option (result MhcError bytes);
}.

Section default_client.
Context {E Client Resp : Type} `{Env E} `{Mhc E Client Resp}.

Definition classify_mhc_error (e : MhcError) : EndpointTransportError :=
  let message := mhc_display e in
  match e with
  | MhcTimeout => Timeout
  | MhcUnreachable | MhcTls | MhcCancelled | MhcDns | MhcQuicHandshake => Network (io_other message)
  | MhcBodyTooLarge limit seen => BodyTooLarge limit (Some seen)
  | MhcInvalidUrl m | MhcInvalidHeader m | MhcSerializeJson m => InvalidRequest m
  | MhcDecode m => Decode m
  | MhcInternal m => Other m
  | MhcUnknown => Other message
  end.

Definition classify_deadline_error (e : IoError) : EndpointTransportError :=
  match io_kind e with
  | TimedOut => Timeout
  | InvalidInput => InvalidRequest (io_msg e)
  | _ => Other (io_msg e)
  end.

(** The body of a request. *)
Definition mhc_body (b : EndpointHttpRequestBody) : MhcBody :=
  match b with
  | BodyAbsent => MhcNoBody
  | BodyJson v => MhcJson v
  | BodyUtf8 s => MhcRaw (utf8_encode s)
  | BodyBytes b => MhcRaw b
  end.

(** [read_body]: with a cap, an over-long body is reported without a size. *)
Definition classify_read (max : option Z) (r : result MhcError bytes) : result EndpointTransportError bytes :=
  match r with
  | Ok b => Ok b
  | Err (MhcBodyTooLarge limit seen) =>
      match max with
      | Some _ => Err (BodyTooLarge limit None)
      | None => Err (classify_mhc_error (MhcBodyTooLarge limit seen))
      end
  | Err e => Err (classify_mhc_error e)
  end.

(** The response body, under what is left of the deadline. *)
Definition read_response (request : EndpointHttpRequest) (deadline : option Instant) (res : Resp) (e : E)
  : E * result EndpointTransportError EndpointHttpResponse :=
  let finish body := mkResponse (mhc_status res) (from_http_map (mhc_headers res))
                       (mhc_content_length res) body in
  let max := rq_response_max_bytes request in
  let too_large := match max, mhc_content_length res with
  | Some m, Some len =>
      if m <? len then Some (BodyTooLarge m (Some len)) else None
  | _, _ => None
  end in
  match too_large with
  | Some err => (e, Err err)
  | None =>
      match match deadline with
            | Some d => remaining ← map_err classify_deadline_error (deadline_remaining (env_now e) d);
                        mret (Some remaining)
            | None => Ok None
            end with
      | Err err => (e, Err err)
      | Ok budget =>
          let '(e1, r) := mhc_read res max budget e in
          match r with
          | Some r => (e1, body ← classify_read max r; mret (finish body))
          | None => (e1, Err Timeout)
          end
      end
  end.

Definition default_execute (client : Client) (request : EndpointHttpRequest) (e : E)
  : E * result EndpointTransportError EndpointHttpResponse :=
  let '(e1, fresh) := mhc_fresh_transport client e in
  match fresh with
  | Err err => (e1, Err (Other (mhc_display err)))
  | Ok client =>
      match deadline ← map_err classify_deadline_error (deadline_new (env_now e1) (rq_timeout_ms request));
            match deadline with
            | Some d => remaining ← map_err classify_deadline_error (deadline_remaining (env_now e1) d);
                        mret (deadline, Some remaining)
            | None => Ok (deadline, None)
            end with
      | Err err => (e1, Err err)
      | Ok (deadline, timeout) =>
          let req := mkMhcRequest (as_http_method (rq_method request)) (rq_url request)
                       (headers_iter (rq_headers request)) timeout (mhc_body (rq_body request)) in
          let '(e2, sent) := mhc_send client req e1 in
          match sent with
          | Err err => (e2, Err (classify_mhc_error err))
          | Ok res => read_response request deadline res e2
          end
      end
  end.

Global Instance DefaultEndpointHttpClient : EndpointHttpClient E Client := default_execute.
End default_client.

(** ** What a client promises to its caller *)

(** Timers and clients return within the time they are given, up to [slack]
    for local work and timer granularity, and never turn the clock back. *)
Class EnvLaws (E : Type) (slack : Duration) `{Env E} := {
  slack_nonneg : 0 <= slack;
  sleep_bounds : forall d e, 0 <= d ->
    env_now e <= env_now (env_sleep d e) <= env_now e + d + slack;
}.

Class ClientLaws (E C : Type) (slack : Duration) `{Env E} `{EndpointHttpClient E C} := {
  execute_mono : forall c req e, env_now e <= env_now (fst (client_execute c req e));
  execute_within : forall c req e t, rq_timeout_ms req = Some t -> 0 <= t ->
    env_now (fst (client_execute c req e)) <= env_now e + from_millis t + slack;
}.

(** What [mechanics-http-client] documents: a transport is built locally, a
    request honours its timeout, a body read its budget and its cap. *)
Class MhcLaws (E Client Resp : Type) (slack : Duration) `{Env E} `{Mhc E Client Resp} := {
  mhc_slack_nonneg : 0 <= slack;
  fresh_bounds : forall c e, env_now e <= env_now (fst (mhc_fresh_transport c e)) <= env_now e + slack;
  send_mono : forall c req e, env_now e <= env_now (fst (mhc_send c req e));
  send_within : forall c req e d, mr_timeout req = Some d -> 0 <= d ->
    env_now (fst (mhc_send c req e)) <= env_now e + d + slack;
  read_mono : forall res max b e, env_now e <= env_now (fst (mhc_read res max b e));
  read_within : forall res max b e, 0 <= b -> env_now (fst (mhc_read res max (Some b) e)) <= env_now e + b + slack;
  read_cap : forall res max b e body,
    snd (mhc_read res (Some max) b e) = Some (Ok body) -> Z.of_nat (length body) <= max;
}.

Lemma deadline_remaining_Ok now d r : deadline_remaining now d = Ok r <-> now < d /\ r = d - now.
Proof.
  unfold deadline_remaining, checked_duration_since, is_zero, ok_or.
  destruct (Z.leb_spec now d); cbn; [|split; [done|lia]].
  destruct (Z.eqb_spec (d - now) 0); split; try done; try lia.
  - intros [= <-]. lia.
  - intros [_ ->]. done.
Qed.

Section default_laws.
Context {E Client Resp : Type} {slack : Duration} `{!Env E, !Mhc E Client Resp, !MhcLaws E Client Resp slack}.

(** The body of a response ends within the deadline, and within the cap. *)
Lemma read_response_bounds request deadline (res : Resp) e :
  env_now e <= env_now (fst (read_response request deadline res e)) /\
  forall d, deadline = Some d ->
    env_now (fst (read_response request deadline res e)) <= Z.max (env_now e) (d + slack).
Proof.
  pose proof (mhc_slack_nonneg (E := E) (Client := Client) (Resp := Resp)) as Hs.
  unfold read_response. destruct (match rq_response_max_bytes request with Some _ => _ | None => _ end);
    [cbn; split; [lia|intros; lia]|].
  destruct deadline as [d|]; cbn.
  - destruct (deadline_remaining (env_now e) d) as [r|err] eqn:Hr; cbn; [|split; [lia|intros; lia]].
    apply deadline_remaining_Ok in Hr as [Hlt ->].
    pose proof (read_mono res (rq_response_max_bytes request) (Some (d - env_now e)) e) as Hm.
    pose proof (read_within res (rq_response_max_bytes request) (d - env_now e) e) as Hw; specialize (Hw ltac:(lia)).
    destruct (mhc_read res _ _ e) as [e1 [r|]]; cbn in *; split; try lia; intros d' [= <-]; lia.
  - pose proof (read_mono res (rq_response_max_bytes request) None e) as Hm.
    destruct (mhc_read res _ _ e) as [e1 [r|]]; cbn in *; split; try lia; done.
Qed.

Lemma read_response_cap request deadline (res : Resp) e resp max :
  rq_response_max_bytes request = Some max ->
  snd (read_response request deadline res e) = Ok resp ->
  Z.of_nat (length (rs_body resp)) <= max /\
  forall len, rs_content_length resp = Some len -> len <= max.
Proof.
  intros Hmax. unfold read_response. rewrite Hmax.
  destruct (match mhc_content_length res with Some _ => _ | None => _ end) eqn:Hl; [done|].
  destruct (match deadline with Some _ => _ | None => _ end) as [budget|]; [|done].
  pose proof (read_cap res max budget e) as Hcap.
  destruct (mhc_read res (Some max) budget e) as [e1 [r|]]; cbn; [|done].
  intros (body & Hb & Hresp)%bind_Ok. injection Hresp as <-. cbn.
  destruct r as [b|err]; cbn in Hb; [|by destruct err]. injection Hb as ->. split; [by apply Hcap|].
  intros len Hlen. rewrite Hlen in Hl. case_match; [done|]. by bool_facts.
Qed.

(** The default client meets the contract, with twice the slack of the library. *)
Global Instance default_client_laws : ClientLaws E Client (2 * slack).
Proof.
  pose proof (mhc_slack_nonneg (E := E) (Client := Client) (Resp := Resp)) as Hs.
  assert (forall c req e, env_now e <= env_now (fst (default_execute c req e)) /\
    forall t, rq_timeout_ms req = Some t -> 0 <= t ->
      env_now (fst (default_execute c req e)) <= env_now e + from_millis t + 2 * slack) as Hall.
  { intros c req e. unfold default_execute. pose proof (fresh_bounds c e) as Hf.
    destruct (mhc_fresh_transport c e) as [e1 [c1|err]]; cbn in Hf |- *;
      [|split; [lia|intros; unfold from_millis, nanos_per_milli; lia]].
    unfold deadline_new. destruct (rq_timeout_ms req) as [t|] eqn:Ht; cbn.
    - unfold instant_checked_add, from_millis, nanos_per_milli.
      destruct (checked_add instant_max _ _) as [d|] eqn:Hd; cbn; [|split; [lia|intros ? [= <-]; lia]].
      apply checked_add_Some in Hd as [-> _].
      destruct (deadline_remaining (env_now e1) _) as [r|] eqn:Hr; cbn; [|split; [lia|intros ? [= <-]; lia]].
      apply deadline_remaining_Ok in Hr as [Hlt ->].
      pose proof (send_mono c1 (mkMhcRequest (as_http_method (rq_method req)) (rq_url req)
        (headers_iter (rq_headers req)) (Some (env_now e1 + t * 1000000 - env_now e1)) (mhc_body (rq_body req))) e1) as Hm.
      pose proof (send_within c1 (mkMhcRequest (as_http_method (rq_method req)) (rq_url req)
        (headers_iter (rq_headers req)) (Some (env_now e1 + t * 1000000 - env_now e1)) (mhc_body (rq_body req))) e1
        _ eq_refl) as Hw; specialize (Hw ltac:(lia)).
      destruct (mhc_send _ _ _) as [e2 [res|err]]; cbn in Hm, Hw |- *; [|split; [lia|intros ? [= <-]; lia]].
      pose proof (read_response_bounds req (Some (env_now e1 + t * 1000000)) res e2) as [Hr1 Hr2].
      specialize (Hr2 _ eq_refl). split; [lia|]. intros t' [= <-] Hpos. lia.
    - pose proof (send_mono c1 (mkMhcRequest (as_http_method (rq_method req)) (rq_url req)
        (headers_iter (rq_headers req)) None (mhc_body (rq_body req))) e1) as Hm.
      destruct (mhc_send _ _ _) as [e2 [res|err]]; cbn in Hm |- *; [|split; [lia|done]].
      pose proof (read_response_bounds req None res e2) as [Hr1 _]. split; [lia|done]. }
  split; intros c req e; [apply Hall|]. intros t Ht Hp. by apply Hall.
Qed.
End default_laws.

(** ** Header collections *)

Lemma headers_values_insert name n v h :
  headers_values name (headers_insert n v h) =
  headers_values name h ++ (if eq_ignore_ascii_case n name then [v] else []).
Proof.
  unfold headers_values, headers_insert. cbn. rewrite filter_app, fmap_app. f_equal.
  rewrite filter_cons, filter_nil. cbn. by destruct (eq_ignore_ascii_case n name).
Qed.

Lemma headers_values_inserts name n vs h :
  headers_values name (foldl (fun out v => headers_insert n (header_text v) out) h vs) =
  headers_values name h ++ (if eq_ignore_ascii_case n name then header_text <$> vs else []).
Proof.
  revert h. induction vs as [|v vs IH]; intros h; cbn.
  - destruct (eq_ignore_ascii_case n name); by rewrite app_nil_r.
  - rewrite IH, headers_values_insert. rewrite <- (assoc_L (++)). f_equal.
    by destruct (eq_ignore_ascii_case n name).
Qed.

Lemma from_http_map_loop_values hm name names seen out :
  Forall (fun n => to_ascii_lowercase n = n) names ->
  headers_values name (from_http_map_loop hm names seen out) =
  headers_values name out ++
    (if bool_decide (to_ascii_lowercase name ∈ names /\ to_ascii_lowercase name ∉ seen)
     then header_text <$> hm_get_all hm (to_ascii_lowercase name) else []).
Proof.
  intros Hl. revert seen out. induction Hl as [|n names Hn _ IH]; intros seen out; cbn.
  - rewrite bool_decide_eq_false_2 by (intros [Hin _]; by apply not_elem_of_nil in Hin).
    by rewrite app_nil_r.
  - assert (eq_ignore_ascii_case n name = bool_decide (n = to_ascii_lowercase name)) as He
      by (unfold eq_ignore_ascii_case; by rewrite Hn).
    destruct (decide (n ∈ seen)) as [Hseen|Hseen];
      [rewrite (bool_decide_eq_true_2 (n ∈ seen)) by done|rewrite (bool_decide_eq_false_2 (n ∈ seen)) by done];
      rewrite IH.
    + f_equal. repeat case_bool_decide; set_solver.
    + rewrite headers_values_inserts, He, <- (assoc_L (++)). f_equal.
      destruct (decide (n = to_ascii_lowercase name)) as [->|Hne].
      * rewrite bool_decide_eq_true_2 by done. rewrite bool_decide_eq_false_2 by set_solver.
        rewrite bool_decide_eq_true_2 by set_solver. by rewrite app_nil_r.
      * rewrite bool_decide_eq_false_2 by done. cbn. repeat case_bool_decide; set_solver.
Qed.

(** The header collection is faithful to the header map it is built from:
    looking a name up, in any letter case, gives exactly the values of that
    name, in order and once, and nothing for a name the map does not have.
    (Header names of the [http] crate are lower case.) *)
Theorem header_values_preserved (hm : HeaderMap) (name : str) :
  Forall (fun n => to_ascii_lowercase n = n) (hm_keys hm) ->
  headers_values name (from_http_map hm) =
  if bool_decide (to_ascii_lowercase name ∈ hm_keys hm)
  then header_text <$> hm_get_all hm (to_ascii_lowercase name) else [].
Proof.
  intros Hl. unfold from_http_map. rewrite from_http_map_loop_values by done. cbn.
  repeat case_bool_decide; set_solver.
Qed.

Lemma header_values_preserved_witness :
  headers_values (lit "Retry-After")
    (from_http_map {| hm_keys := [lit "retry-after"; lit "x"; lit "retry-after"];
                      hm_get_all := fun n => if bool_decide (n = lit "x") then [lit "1"]
                                             else [lit "5"; lit "6"] |}) = [lit "5"; lit "6"].
Proof. rewrite header_values_preserved; [reflexivity|repeat constructor]. Defined.

Section default_properties.
Context {E Client Resp : Type} {slack : Duration} `{!Env E, !Mhc E Client Resp, !MhcLaws E Client Resp slack}.

(** C28. The default client keeps the limits of a request: it returns within the
    request's timeout (plus twice the library's slack), and a response it
    returns has neither a body nor an announced length over the cap. *)
Theorem default_client_respects_limits (client : Client) (req : EndpointHttpRequest) (e : E) :
  (forall t, rq_timeout_ms req = Some t -> 0 <= t ->
    env_now (fst (default_execute client req e)) <= env_now e + from_millis t + 2 * slack) /\
  (forall max resp, rq_response_max_bytes req = Some max -> snd (default_execute client req e) = Ok resp ->
    Z.of_nat (length (rs_body resp)) <= max /\ forall len, rs_content_length resp = Some len -> len <= max).
Proof.
  split; [intros t Ht Hp; apply (execute_within (ClientLaws := default_client_laws)); done|].
  intros max resp Hmax. unfold default_execute.
  destruct (mhc_fresh_transport client e) as [e1 [c1|err]]; [|done].
  destruct (deadline ← _; _) as [[deadline timeout]|]; [|done].
  destruct (mhc_send c1 _ e1) as [e2 [res|err]]; [|done]. by apply read_response_cap.
Qed.
End default_properties.

(** ** A concrete client

    Time is a counter; a send takes ten milliseconds or its timeout, reading a
    body takes one millisecond per byte or its budget, and the response echoes
    the request body. *)
Module TransportDemo.
Definition clock_env : Env Z := {| env_now := fun e => e; env_sleep := fun d e => e + d |}.
#[local] Existing Instance clock_env.

Definition spend (cost : Z) (budget : option Z) (e : Z) : Z :=
  e + Z.max 0 (match budget with Some b => Z.min cost b | None => cost end).

Definition echo_mhc : Mhc Z () bytes := {|
  mhc_display := fun _ => lit "mhc";
  mhc_fresh_transport := fun c e => (e, Ok c);
  mhc_send := fun _ req e =>
    (spend (from_millis 10) (mr_timeout req) e,
     if bool_decide (mr_timeout req = Some (from_millis 1)) then Err MhcTimeout
     else Ok match mr_body req with MhcRaw b => b | _ => [] end);
  mhc_status := fun _ => 200;
  mhc_content_length := fun _ => None;
  mhc_headers := fun _ => {| hm_keys := []; hm_get_all := fun _ => [] |};
  mhc_read := fun b max budget e =>
    (spend (Z.of_nat (length b) * from_millis 1) budget e,
     Some match max with
          | Some m => if m <? Z.of_nat (length b) then Err (MhcBodyTooLarge m (Z.of_nat (length b))) else Ok b
          | None => Ok b
          end) |}.
#[local] Existing Instance echo_mhc.

Lemma echo_laws : MhcLaws Z () bytes (from_millis 1).
Proof.
  split; unfold env_now, mhc_send, mhc_read, mhc_fresh_transport; cbn; unfold spend, from_millis, nanos_per_milli.
  - lia.
  - intros; lia.
  - intros c req e. lia.
  - intros c req e d -> ?. lia.
  - intros res max b e. lia.
  - intros res max b e. lia.
  - intros res max b e body. case_match; [done|]. bool_facts. intros [= <-]. done.
Qed.

Definition request (t : option Z) (b : bytes) : EndpointHttpRequest :=
  mkRequest Post (lit "http://h/") headers_new t (Some 3) (BodyBytes b).

Lemma default_client_respects_limits_witness :
  snd (default_execute () (request (Some 20) [1; 2; 3]) 0) =
    Ok (mkResponse 200 headers_new None [1; 2; 3]) /\
  fst (default_execute () (request (Some 20) [1; 2; 3]) 0) <= 0 + from_millis 20 + 2 * from_millis 1.
Proof.
  split; [reflexivity|].
  apply (proj1 (default_client_respects_limits (MhcLaws0 := echo_laws) () (request (Some 20) [1; 2; 3]) 0) 20);
    [reflexivity|lia].
Defined.
End TransportDemo.
