(* ===== verification/Endpoint.v ===== *)
(** * Endpoint: executing an endpoint call
    (src/src/internal/http/endpoint/execute.rs, headers.rs, options.rs)

    [execute_endpoint]: the request, the retry loop under an aggregate
    deadline, and the checks and decoding of the response.  [HttpEndpoint]
    belongs to [mechanics-config] and is the record of what is asked of it;
    the URL parser, the header types and the JSON parser are parameters. *)

From S2P Require Import Prelude Json Utf8 Str Transport.

Inductive EndpointBodyType := TJson | TUtf8 | TBytes.

Inductive EndpointCallBody := CallAbsent | CallJson (v : Value) | CallUtf8 (s : str) | CallBytes (b : bytes).

Record EndpointCallOptions := mkOptions {
  url_params : list (str * str);
  queries : list (str * str);
  opt_headers : list (str * str);
  opt_body : EndpointCallBody;
}.

Inductive EndpointResponseBody := RespJson (v : Value) | RespUtf8 (s : str) | RespBytes (b : bytes) | RespEmpty.

Record EndpointResponse := mkEndpointResponse {
  er_body : EndpointResponseBody;
  er_headers : gmap (list Z) (list Z);
  er_status : Z;
  er_ok : bool;
}.

(** [HttpEndpoint] and [PreparedHttpEndpoint] of [mechanics-config]. *)
Record HttpEndpoint := {
  build_url : list (str * str) -> list (str * str) -> result IoError str;
  build_headers : list (str * str) -> result IoError (list (str * str));
  ep_timeout_ms : option Z;
  ep_response_max_bytes : option Z;
  ep_method : HttpMethod;
  effective_request_body_type : EndpointBodyType;
  response_body_type : EndpointBodyType;
  allow_non_2xx_status : bool;
  ep_retry_policy : EndpointRetryPolicy;
  exposed_response_allowlist : list str;
}.

(** What the code uses of [mechanics-config]'s methods, of [url], [http] and
    [serde_json]. *)
Class EndpointLibs := {
  supports_request_body : HttpMethod -> bool;
  method_as_str : HttpMethod -> str;
  url_parse : str -> result str str;
  header_name_try_from : str -> result str str;
  header_value_try_from : str -> result str str;
  header_map_of : list (str * str) -> HeaderMap;
  json_from_slice : bytes -> result str Value;
  utf8_error : bytes -> str;
}.

Section endpoint.
Context `{EndpointLibs}.
Context {E C : Type} `{Env E} `{EndpointHttpClient E C}.

Definition DEFAULT_USER_AGENT (version : str) : str :=
  lit "Mozilla/5.0 (compatible; mechanics-rs/" ++ version ++ lit ")".

(** [header_from_pairs]: every name and value is validated; the pairs that are
    inserted, in order, determine the map. *)
Definition header_from_pairs (pairs : list (str * str)) : result IoError HeaderMap :=
  checked ← foldl (fun acc p =>
      acc ← acc;
      name ← map_err (mkIoError InvalidInput) (header_name_try_from (fst p));
      value ← map_err (mkIoError InvalidInput) (header_value_try_from (snd p));
      mret (acc ++ [(name, value)])) (Ok []) pairs;
  mret (header_map_of checked).

Definition build_url_for_options (ep : HttpEndpoint) (o : EndpointCallOptions) : result IoError str :=
  url ← build_url ep (url_params o) (queries o);
  map_err io_other (url_parse url).

Definition build_headers_for_options (version : str) (ep : HttpEndpoint)
    (default_content_type : option str) (o : EndpointCallOptions) : result IoError HeaderMap :=
  endpoint_pairs ← build_headers ep (opt_headers o);
  header_from_pairs
    ([(lit "user-agent", DEFAULT_USER_AGENT version)] ++
     match default_content_type with Some ct => [(lit "content-type", ct)] | None => [] end ++
     endpoint_pairs).

Definition default_content_type (ep : HttpEndpoint) (o : EndpointCallOptions) : option str :=
  if supports_request_body (ep_method ep) then
    match opt_body o with
    | CallAbsent => None
    | _ => Some match effective_request_body_type ep with
                | TJson => lit "application/json"
                | TUtf8 => lit "text/plain; charset=utf-8"
                | TBytes => lit "application/octet-stream"
                end
    end
  else None.

(** The body of [build_request]. *)
Definition request_body (ep : HttpEndpoint) (o : EndpointCallOptions)
  : result IoError EndpointHttpRequestBody :=
  if supports_request_body (ep_method ep) then
    match effective_request_body_type ep, opt_body o with
    | _, CallAbsent => Ok BodyAbsent
    | TJson, CallJson v => Ok (BodyJson v)
    | TJson, CallUtf8 s => Ok (BodyJson (VString s))
    | TJson, CallBytes _ =>
        Err (mkIoError InvalidInput (lit "request_body_type `json` requires a JSON-compatible value"))
    | TUtf8, CallUtf8 s => Ok (BodyUtf8 s)
    | TUtf8, _ =>
        Err (mkIoError InvalidInput (lit "request_body_type `utf8` requires `options.body` to be a string"))
    | TBytes, CallBytes b => Ok (BodyBytes b)
    | TBytes, _ =>
        Err (mkIoError InvalidInput (lit "request_body_type `bytes` requires `options.body` to be a typed array, ArrayBuffer, or DataView"))
    end
  else match opt_body o with
       | CallAbsent => Ok BodyAbsent
       | _ => Err (mkIoError InvalidInput
                (lit "HTTP " ++ method_as_str (ep_method ep) ++ lit " endpoint does not accept a request body"))
       end.

(** [build_request]. *)
Definition build_request (ep : HttpEndpoint) (o : EndpointCallOptions) (url : str) (headers : HeaderMap)
    (response_max_bytes attempt_timeout_ms : option Z) : result IoError EndpointHttpRequest :=
  body ← request_body ep o;
  mret (mkRequest (ep_method ep) url (from_http_map headers) attempt_timeout_ms response_max_bytes body).

(** The closures [remaining] and [remaining_ms]. *)
Definition remaining (now : Instant) (deadline : option Instant) : option Duration :=
  (fun d => default 0 (checked_duration_since d now)) <$> deadline.
Definition remaining_ms (now : Instant) (deadline : option Instant) : option Z :=
  (fun r => default u64_max (try_from u64_max (as_millis r))) <$> remaining now deadline.

(** The bounded sleep before a retry. *)
Definition retry_sleep (delay : Duration) (deadline : option Instant) (e : E) : E :=
  if is_zero delay then e
  else
    let bounded := match remaining (env_now e) deadline with Some r => Z.min delay r | None => delay end in
    if is_zero bounded then e else env_sleep bounded e.

(** One finished attempt: the request and what the client returned. *)
Definition AttemptLog := (EndpointHttpRequest * result EndpointTransportError EndpointHttpResponse)%type.

Section attempts.
Context (policy : EndpointRetryPolicy) (client : C) (deadline : option Instant).
Context (mk_request : option Z -> result IoError EndpointHttpRequest).

(** How one iteration of the loop ends: without an attempt, with the last
    attempt, or with an attempt to be repeated after a delay. *)
Inductive Iteration :=
| NoAttempt (err : IoError)
| LastAttempt (log : AttemptLog) (r : result IoError EndpointHttpResponse)
| RetryAfter (log : AttemptLog) (delay : Duration).

(** One iteration. *)
Definition one_attempt (attempt : nat) (e : E) : E * Iteration :=
  match remaining_ms (env_now e) deadline with
  | Some 0 =>
      (e, NoAttempt (mkIoError TimedOut
         (lit "endpoint call timed out across " ++ show (Z.of_nat (attempt - 1)) ++ lit " attempt(s)")))
  | attempt_timeout_ms =>
      match mk_request attempt_timeout_ms with
      | Err err => (e, NoAttempt err)
      | Ok req =>
          let '(e1, res) := client_execute client req e in
          (e1,
           match res with
           | Ok res =>
               if bool_decide (attempt < max_attempts policy)%nat
                  && should_retry_status policy (rs_status res)
               then RetryAfter (req, Ok res)
                      (retry_delay_for_status policy (rs_status res)
                         (head (headers_values (lit "retry-after") (rs_headers res))) attempt)
               else LastAttempt (req, Ok res) (Ok res)
           | Err err =>
               if bool_decide (attempt < max_attempts policy)%nat && is_retryable_per err policy
               then RetryAfter (req, Err err) (retry_delay_for_transport policy attempt)
               else LastAttempt (req, Err err) (Err (into_io_error err))
           end)
      end
  end.

(** [for attempt in 1..=max_attempts]; [left_] attempts are left.  Returns the
    environment, the attempts made, and the final response or the error;
    [Ok None] when the attempts ran out. *)
Fixpoint attempt_loop (left_ attempt : nat) (e : E)
  : E * list AttemptLog * result IoError (option EndpointHttpResponse) :=
  match left_ with
  | 0%nat => (e, [], Ok None)
  | S left' =>
      match one_attempt attempt e with
      | (e1, NoAttempt err) => (e1, [], Err err)
      | (e1, LastAttempt log r) => (e1, [log], res ← r; mret (Some res))
      | (e1, RetryAfter log delay) =>
          let '(e2, logs, r) := attempt_loop left' (S attempt) (retry_sleep delay deadline e1) in
          (e2, log :: logs, r)
      end
  end.
End attempts.

Definition extend_body_with_limit (target chunk : bytes) (max_bytes : option Z) : result IoError bytes :=
  match max_bytes with
  | Some max =>
      next_len ← ok_or (mkIoError InvalidData
                   (lit "response body size overflow while enforcing max bytes limit"))
                   (checked_add usize_max (Z.of_nat (length target)) (Z.of_nat (length chunk)));
      if max <? next_len
      then Err (mkIoError InvalidData
             (lit "response body exceeds configured max bytes (" ++ show max ++ lit ")"))
      else Ok (target ++ chunk)
  | None => Ok (target ++ chunk)
  end.

(** [response_body_type] decoding of a non-empty body. *)
Definition decode_body (ty : EndpointBodyType) (b : bytes) : result IoError EndpointResponseBody :=
  match ty with
  | TJson => v ← map_err io_other (json_from_slice b); mret (RespJson v)
  | TUtf8 => s ← ok_or (io_other (utf8_error b)) (from_utf8 b); mret (RespUtf8 s)
  | TBytes => Ok (RespBytes b)
  end.

Definition is_2xx (status : Z) : bool := (200 <=? status) && (status <=? 299).

(** The part of [execute_endpoint] after the retry loop. *)
Definition decode_response (ep : HttpEndpoint) (response_max_bytes : option Z) (res : EndpointHttpResponse)
  : result IoError EndpointResponse :=
  let status_code := rs_status res in
  let ok := is_2xx status_code in
  if negb (allow_non_2xx_status ep) && negb ok then
    Err (io_other (lit "HTTP status " ++ show status_code))
  else
    let response_headers :=
      extract_exposed_response_headers_prepared (rs_headers res) (exposed_response_allowlist ep) in
    _ ← match response_max_bytes, rs_content_length res with
        | Some max, Some content_len =>
            if max <? content_len
            then Err (mkIoError InvalidData
                   (lit "response body exceeds configured max bytes (" ++ show max ++
                    lit "): content-length is " ++ show content_len))
            else Ok ()
        | _, _ => Ok ()
        end;
    b ← extend_body_with_limit [] (rs_body res) response_max_bytes;
    if bool_decide (b = []) then mret (mkEndpointResponse RespEmpty response_headers status_code ok)
    else
      body ← decode_body (response_body_type ep) b;
      mret (mkEndpointResponse body response_headers status_code ok).

(** [execute_endpoint], with the attempts it made. *)
Definition execute_endpoint (version : str) (ep : HttpEndpoint) (client : C)
    (default_timeout_ms default_response_max_bytes : option Z) (o : EndpointCallOptions) (e : E)
  : E * list AttemptLog * result IoError EndpointResponse :=
  let timeout_ms := opt_or (ep_timeout_ms ep) default_timeout_ms in
  let response_max_bytes := opt_or (ep_response_max_bytes ep) default_response_max_bytes in
  match url ← build_url_for_options ep o;
        headers ← build_headers_for_options version ep (default_content_type ep o) o;
        mret (url, headers) with
  | Err err => (e, [], Err err)
  | Ok (url, headers) =>
      let deadline := ms ← timeout_ms; instant_checked_add (env_now e) (from_millis ms) in
      let '(e1, log, r) :=
        attempt_loop (ep_retry_policy ep) client deadline
          (build_request ep o url headers response_max_bytes)
          (max_attempts (ep_retry_policy ep)) 1 e in
      (e1, log,
       final_response ← r;
       res ← ok_or (io_other (lit "endpoint request attempts exhausted without terminal response"))
               final_response;
       decode_response ep response_max_bytes res)
  end.
End endpoint.

(** ** The retry loop *)

Section loop_lemmas.
Context {E C : Type} {slack : Duration} `{!Env E, !EndpointHttpClient E C}.
Context (policy : EndpointRetryPolicy) (client : C) (deadline : option Instant).
Context (mk_request : option Z -> result IoError EndpointHttpRequest).

(** The outcomes after which another attempt is allowed: a status the policy
    lists, a network error or a timeout where the policy says so; a response
    that is too large, a request that cannot be made, a body that cannot be
    decoded and any other error are terminal. *)
Inductive retry_allowed : result EndpointTransportError EndpointHttpResponse -> Prop :=
| retry_status res : should_retry_status policy (rs_status res) = true -> retry_allowed (Ok res)
| retry_network err : retry_on_io_errors policy = true -> retry_allowed (Err (Network err))
| retry_timeout : retry_on_timeout policy = true -> retry_allowed (Err Timeout).

Lemma is_retryable_allowed err : is_retryable_per err policy = true -> retry_allowed (Err err).
Proof. destruct err; cbn; intros Hr; try discriminate Hr; by constructor. Qed.

(** What the attempts and the result of the loop have to do with each other,
    with [n] attempts at hand: every attempt but the last was worth a retry;
    the result is that of the last attempt, or the loop stopped before an
    attempt; a response worth a retry is final only if no attempt is left. *)
Inductive loop_trace : nat -> list AttemptLog -> result IoError (option EndpointHttpResponse) -> Prop :=
| trace_stop n err : loop_trace n [] (Err err)
| trace_final n req res : (retry_allowed (Ok res) -> n = 1%nat) -> loop_trace n [(req, Ok res)] (Ok (Some res))
| trace_fail n req err : loop_trace n [(req, Err err)] (Err (into_io_error err))
| trace_retry n req res log r : retry_allowed res -> loop_trace n log r -> loop_trace (S n) ((req, res) :: log) r.

Lemma loop_trace_retried n log r i req res :
  loop_trace n log r -> log !! i = Some (req, res) -> (S i < length log)%nat -> retry_allowed res.
Proof.
  intros Ht. revert i. induction Ht as [| | |n req' res' log r Hw Ht IH]; intros [|i] Hi Hlt; cbn in *; simplify_eq; try lia; try done.
  eapply IH; [done|lia].
Qed.

Lemma loop_trace_final n log res :
  loop_trace n log (Ok (Some res)) ->
  (exists req, last log = Some (req, Ok res)) /\ (retry_allowed (Ok res) -> length log = n).
Proof.
  intros Ht. remember (Ok (Some res)) as r eqn:Hr.
  induction Ht as [|n req res' Hn| |n req res' log r Hw Ht IH]; simplify_eq; cbn.
  - split; [by eauto|]. intros ?. by rewrite Hn.
  - destruct (IH eq_refl) as [[req' Hlast] Hlen]. split; [exists req'; by destruct log|]. intros ?. f_equal. auto.
Qed.

(** What one iteration promises. *)
Lemma one_attempt_spec attempt e :
  match snd (one_attempt policy client deadline mk_request attempt e) with
  | NoAttempt _ => True
  | LastAttempt (req, res) r => r = map_err into_io_error res /\
      forall resp, res = Ok resp -> retry_allowed res -> (max_attempts policy <= attempt)%nat
  | RetryAfter (req, res) _ => retry_allowed res /\ (attempt < max_attempts policy)%nat
  end.
Proof.
  unfold one_attempt. destruct (remaining_ms _ _) as [[|p|p]|]; cbn; try done.
  all: destruct (mk_request _) as [req|]; cbn; [|done].
  all: destruct (client_execute client req e) as [e1 [res|err]]; cbn.
  all: match goal with |- context [if ?c then _ else _] => destruct c eqn:Hc end; cbn.
  all: rewrite ?andb_true_iff, ?andb_false_iff, ?bool_decide_eq_true, ?bool_decide_eq_false in Hc.
  all: try (destruct Hc; split; [by (constructor || apply is_retryable_allowed)|done]).
  all: split; [done|]; intros resp [= ->] Ha; inversion Ha; simplify_eq; destruct Hc; (lia || congruence).
Qed.

(** The loop makes at most [left_] attempts and, started in step with the
    policy, never runs out of them. *)
Lemma attempt_loop_trace left_ attempt e :
  (0 < left_)%nat -> (attempt + left_ = S (max_attempts policy))%nat ->
  let '(_, log, r) := attempt_loop policy client deadline mk_request left_ attempt e in
  loop_trace left_ log r /\ (length log <= left_)%nat.
Proof.
  revert attempt e. induction left_ as [|left_ IH]; intros attempt e Hpos Hsum; [lia|].
  cbn [attempt_loop]. pose proof (one_attempt_spec attempt e) as Hone.
  destruct (one_attempt _ _ _ _ attempt e) as [e1 [err|[req res] r|[req res] delay]]; cbn in Hone.
  - split; [constructor|cbn; lia].
  - destruct Hone as [-> Hmax]. destruct res as [resp|]; cbn; (split; [|lia]); [|apply trace_fail].
    apply trace_final. intros Ha. specialize (Hmax _ eq_refl Ha). lia.
  - destruct Hone as [Hw Hlt]. specialize (IH (S attempt) (retry_sleep delay deadline e1) ltac:(lia) ltac:(lia)).
    destruct (attempt_loop _ _ _ _ left_ _ _) as [[e2 log] r]. destruct IH. split; [by constructor|cbn; lia].
Qed.

Context `{!EnvLaws E slack, !ClientLaws E C slack}.
Context (mk_request_timeout : forall t req, mk_request t = Ok req -> rq_timeout_ms req = t).

(** The timeout of an attempt ends no later than the deadline. *)
Lemma remaining_ms_within now d t :
  remaining_ms now (Some d) = Some t -> t <> 0 -> 0 <= t /\ now + from_millis t <= d.
Proof.
  unfold remaining_ms, remaining, as_millis, from_millis, checked_duration_since. cbn.
  destruct (Z.leb_spec now d); cbn; intros [= <-]; unfold try_from, nanos_per_milli.
  - destruct (Z.leb_spec 0 ((d - now) / 1000000)), (Z.leb_spec ((d - now) / 1000000) u64_max);
      cbn [andb default from_option id]; pose proof (eq_refl : (0 <=? u64_max) = true); bool_facts;
      generalize dependent u64_max; intros; dlia.
  - intros Hn. exfalso. apply Hn. reflexivity.
Qed.

Lemma one_attempt_time attempt d e :
  deadline = Some d -> env_now e <= d + slack ->
  env_now (fst (one_attempt policy client deadline mk_request attempt e)) <= d + slack.
Proof.
  intros Hd Hnow. unfold one_attempt.
  assert (forall t, remaining_ms (env_now e) deadline = Some t -> t <> 0 ->
    env_now (fst (match mk_request (Some t) with
                  | Err err => (e, NoAttempt err)
                  | Ok req => let '(e1, res) := client_execute client req e in (e1, NoAttempt (io_other []))
                  end)) <= d + slack) as Hrun.
  { intros t Ht Hne. rewrite Hd in Ht. apply remaining_ms_within in Ht as [Hpos Hle]; [|done].
    destruct (mk_request (Some t)) as [req|] eqn:Hreq; cbn; [|lia].
    pose proof (execute_within client req e t (mk_request_timeout _ _ Hreq) Hpos) as Hw.
    destruct (client_execute client req e). cbn in *. lia. }
  destruct (remaining_ms (env_now e) deadline) as [[|p|p]|] eqn:Hr; cbn in *; [lia|..].
  - specialize (Hrun _ eq_refl ltac:(done)). destruct (mk_request _); [|done].
    by destruct (client_execute client a e).
  - specialize (Hrun _ eq_refl ltac:(done)). destruct (mk_request _); [|done].
    by destruct (client_execute client a e).
  - by rewrite Hd in Hr.
Qed.

Lemma retry_sleep_time delay d e :
  deadline = Some d -> 0 <= delay -> env_now e <= d + slack ->
  env_now (retry_sleep delay deadline e) <= d + slack.
Proof.
  intros -> Hdel Hnow. unfold retry_sleep, is_zero, remaining, checked_duration_since. cbn.
  destruct (Z.eqb_spec delay 0); [done|].
  destruct (Z.leb_spec (env_now e) d); cbn.
  - destruct (Z.eqb_spec (delay `min` (d - env_now e)) 0); [done|].
    assert (0 <= delay `min` (d - env_now e)) as Hb by lia.
    pose proof (sleep_bounds (slack := slack) _ e Hb). lia.
  - rewrite Z.min_r by lia. cbn. done.
Qed.

Lemma one_attempt_delay attempt e :
  (forall st ra n, 0 <= retry_delay_for_status policy st ra n) ->
  (forall n, 0 <= retry_delay_for_transport policy n) ->
  match snd (one_attempt policy client deadline mk_request attempt e) with
  | RetryAfter _ delay => 0 <= delay
  | _ => True
  end.
Proof.
  intros Hst Htr. unfold one_attempt. destruct (remaining_ms _ _) as [[|p|p]|]; cbn; try done.
  all: destruct (mk_request _) as [req|]; cbn; [|done].
  all: destruct (client_execute client req e) as [e1 [res|err]]; cbn; destruct (bool_decide _); cbn; try done.
  all: match goal with |- context [if ?c then _ else _] => destruct c end; done.
Qed.

(** The whole loop ends within the deadline. *)
Lemma attempt_loop_time left_ attempt d e :
  (forall st ra n, 0 <= retry_delay_for_status policy st ra n) ->
  (forall n, 0 <= retry_delay_for_transport policy n) ->
  deadline = Some d -> env_now e <= d + slack ->
  env_now (fst (fst (attempt_loop policy client deadline mk_request left_ attempt e))) <= d + slack.
Proof.
  intros Hst Htr Hd. revert attempt e. induction left_ as [|left_ IH]; intros attempt e Hnow; cbn [attempt_loop]; [done|].
  pose proof (one_attempt_time attempt d e Hd Hnow) as Hone.
  pose proof (one_attempt_delay attempt e Hst Htr) as Hdelay.
  destruct (one_attempt _ _ _ _ attempt e) as [e1 [err|log r|log delay]]; cbn in *; try done.
  specialize (IH (S attempt) (retry_sleep delay deadline e1) (retry_sleep_time delay d e1 Hd Hdelay Hone)).
  by destruct (attempt_loop _ _ _ _ left_ _ _) as [[e2 logs] r].
Qed.
End loop_lemmas.

(** ** Properties *)

(** A typing of the policy: delays are durations. *)
Definition delays_typed (p : EndpointRetryPolicy) : Prop :=
  (forall st ra n, 0 <= retry_delay_for_status p st ra n) /\ forall n, 0 <= retry_delay_for_transport p n.

Section properties.
Context `{EndpointLibs}.
Context {E C : Type} {slack : Duration} `{!Env E, !EndpointHttpClient E C}.
Context (version : str) (ep : HttpEndpoint) (client : C).
Context (default_timeout_ms default_response_max_bytes : option Z) (o : EndpointCallOptions).

(** C19. The retry loop is bounded and justified: an endpoint call makes at most
    [max_attempts] attempts; every attempt but the last ended with a status
    that the policy retries, with a network error under [retry_on_io_errors]
    or with a timeout under [retry_on_timeout], so that a body that is too
    large, an invalid request, a decoding failure and any other error are
    never retried; and a response is returned only for the last attempt,
    decoded, and never for a status that the policy retries while attempts
    are left. *)
Theorem endpoint_attempts_justified (e : E) :
  (0 < max_attempts (ep_retry_policy ep))%nat ->
  let '(_, log, r) := execute_endpoint version ep client default_timeout_ms default_response_max_bytes o e in
  (length log <= max_attempts (ep_retry_policy ep))%nat /\
  (forall i req res, log !! i = Some (req, res) -> (S i < length log)%nat ->
     retry_allowed (ep_retry_policy ep) res) /\
  (forall resp, r = Ok resp -> exists req res, last log = Some (req, Ok res) /\
     decode_response ep (opt_or (ep_response_max_bytes ep) default_response_max_bytes) res = Ok resp /\
     (should_retry_status (ep_retry_policy ep) (rs_status res) = true ->
       length log = max_attempts (ep_retry_policy ep))).
Proof.
  intros Hpos. unfold execute_endpoint.
  destruct (url ← _; _) as [[url headers]|err]; [|split; [cbn; lia|split; [done|done]]].
  match goal with |- context [attempt_loop ?p ?c ?d ?m ?n 1 e] =>
    pose proof (attempt_loop_trace p c d m n 1 e Hpos eq_refl) as Hl;
    destruct (attempt_loop p c d m n 1 e) as [[e1 log] r] end.
  destruct Hl as [Ht Hlen]. split; [done|]. split; [intros i req res; by eapply loop_trace_retried|].
  intros resp Hr. destruct r as [[res|]|]; try done. cbn in Hr.
  destruct (loop_trace_final _ _ _ _ Ht) as [[req Hlast] Hn]. exists req, res. split_and!; [done..|].
  intros Hs. by apply Hn, retry_status.
Qed.

Context `{!EnvLaws E slack, !ClientLaws E C slack}.

(** C20. The timeout of an endpoint call is aggregate: whatever the number of
    attempts and the delays between them, the call is over at most the
    client's slack after [timeout_ms] from its start. *)
Theorem endpoint_timeout_aggregate (e : E) (ms : Z) :
  delays_typed (ep_retry_policy ep) ->
  opt_or (ep_timeout_ms ep) default_timeout_ms = Some ms -> 0 <= ms ->
  env_now e + from_millis ms <= instant_max ->
  let '(e', _, _) := execute_endpoint version ep client default_timeout_ms default_response_max_bytes o e in
  env_now e' <= env_now e + from_millis ms + slack.
Proof.
  intros [Hst Htr] Hms Hpos Hmax. pose proof (slack_nonneg (E := E) (slack := slack)) as Hs.
  assert (0 <= from_millis ms) as Hge by (unfold from_millis, nanos_per_milli; lia).
  unfold execute_endpoint. rewrite Hms. cbn.
  destruct (url ← _; _) as [[url headers]|err]; [|lia].
  unfold instant_checked_add. rewrite (proj2 (checked_add_Some _ _ _ _) (conj eq_refl Hmax)).
  match goal with |- context [attempt_loop ?p ?c ?d ?m ?n 1 e] =>
    pose proof (attempt_loop_time (slack := slack) p c d m) as Hl;
    specialize (Hl ltac:(intros t req (body & _ & [= <-])%bind_Ok; reflexivity) n 1%nat _ e Hst Htr eq_refl);
    destruct (attempt_loop p c d m n 1 e) as [[e1 log] r] end.
  cbn in Hl. apply Hl. lia.
Qed.
End properties.

Section decode_properties.
Context `{EndpointLibs} (ep : HttpEndpoint).

(** The accumulated body is the chunk after what was there, within the limit. *)
Lemma extend_body_ok target chunk (max : option Z) b :
  extend_body_with_limit target chunk max = Ok b ->
  b = target ++ chunk /\ forall m, max = Some m -> Z.of_nat (length b) <= m.
Proof.
  unfold extend_body_with_limit. destruct max as [m|]; [|intros [= <-]; split; [done|intros ? [=]]].
  intros (n & Hn & Hb)%bind_Ok.
  destruct (checked_add _ _ _) as [n'|] eqn:Ha; [|done]. injection Hn as ->.
  apply checked_add_Some in Ha as [-> _].
  destruct (Z.ltb_spec m (Z.of_nat (length target) + Z.of_nat (length chunk))); [done|].
  injection Hb as <-. split; [done|]. intros m' [= <-]. rewrite length_app. lia.
Qed.

(** C27. A decoded response keeps the endpoint's policy: [ok] says whether the
    status is 2xx, another status passes only if the endpoint allows it, the
    body is at most the configured maximum, and it has the configured type or
    is empty. *)
Theorem decode_response_sound (max : option Z) (res : EndpointHttpResponse) (resp : EndpointResponse) :
  decode_response ep max res = Ok resp ->
  er_status resp = rs_status res /\ er_ok resp = is_2xx (rs_status res) /\
  (er_ok resp = true \/ allow_non_2xx_status ep = true) /\
  (forall m, max = Some m -> Z.of_nat (length (rs_body res)) <= m) /\
  (er_body resp = RespEmpty <-> rs_body res = []) /\
  match er_body resp with
  | RespJson v => response_body_type ep = TJson /\ json_from_slice (rs_body res) = Ok v
  | RespUtf8 s => response_body_type ep = TUtf8 /\ from_utf8 (rs_body res) = Some s
  | RespBytes b => response_body_type ep = TBytes /\ b = rs_body res
  | RespEmpty => True
  end.
Proof.
  unfold decode_response. destruct (allow_non_2xx_status ep) eqn:Ha, (is_2xx (rs_status res)) eqn:Hok; cbn; try done.
  all: intros (_ & _ & (b & Hb & Hr)%bind_Ok)%bind_Ok.
  all: apply extend_body_ok in Hb as [-> Hm]; cbn [app] in *.
  all: case_bool_decide as Hnil; [injection Hr as <-; cbn; rewrite Hnil in Hm |- *; by intuition|].
  all: apply bind_Ok in Hr as (body & Hbody & [= <-]); cbn.
  all: unfold decode_body in Hbody; destruct (response_body_type ep) eqn:Hty.
  all: try (injection Hbody as <-; by intuition).
  all: apply bind_Ok in Hbody as (v & Hv & [= <-]); cbn.
  all: try (destruct (json_from_slice _) eqn:Hj; cbn in Hv; [|done]; injection Hv as ->; by intuition).
  all: destruct (from_utf8 _) eqn:Hj; cbn in Hv; [|done]; injection Hv as ->; by intuition.
Qed.

(** A request body is built exactly when the method takes one and the value
    fits the endpoint's body type (a string is accepted where JSON is wanted);
    an absent body is always accepted, and every other combination is refused
    as invalid input, before anything is sent. *)
Theorem request_body_matrix (o : EndpointCallOptions) :
  let accepted :=
    opt_body o = CallAbsent \/
    supports_request_body (ep_method ep) = true /\
    match effective_request_body_type ep, opt_body o with
    | TJson, CallBytes _ | TUtf8, (CallJson _ | CallBytes _) | TBytes, (CallJson _ | CallUtf8 _) => False
    | _, _ => True
    end in
  match request_body ep o with
  | Ok b => accepted /\ (b = BodyAbsent <-> opt_body o = CallAbsent)
  | Err err => ~ accepted /\ io_kind err = InvalidInput
  end.
Proof.
  unfold request_body.
  destruct (supports_request_body _), (effective_request_body_type ep), (opt_body o); cbn; naive_solver.
Qed.
End decode_properties.

(** ** A concrete endpoint

    A server that answers 503 until the clock reads 30 ms and then echoes the
    body; every attempt takes 10 ms or its timeout. *)
Module EndpointDemo.
#[local] Existing Instance TransportDemo.clock_env.

Definition flaky (_ : ()) (req : EndpointHttpRequest) (e : Z)
  : Z * result EndpointTransportError EndpointHttpResponse :=
  let body := match rq_body req with BodyBytes b => b | _ => [] end in
  (TransportDemo.spend (from_millis 10) (from_millis <$> rq_timeout_ms req) e,
   if match rq_timeout_ms req with Some t => t <? 10 | None => false end then Err Timeout
   else Ok (mkResponse (if e <? from_millis 30 then 503 else 200) headers_new None body)).
Definition flaky_client : EndpointHttpClient Z () := flaky.
#[local] Existing Instance flaky_client.

Lemma clock_laws : EnvLaws Z 0.
Proof. split; unfold env_now, env_sleep; cbn; lia. Qed.

Lemma flaky_laws : ClientLaws Z () 0.
Proof.
  split; intros c req e; unfold env_now, client_execute; cbn; unfold TransportDemo.spend, from_millis, nanos_per_milli.
  - lia.
  - intros t -> Ht. cbn. lia.
Qed.

Definition demo_libs : EndpointLibs := {|
  supports_request_body := fun m => match m with Post | Put | Patch => true | _ => false end;
  method_as_str := as_http_method;
  url_parse := fun u => Ok u;
  header_name_try_from := fun n => Ok (to_ascii_lowercase n);
  header_value_try_from := fun v => Ok v;
  header_map_of := fun ps => {| hm_keys := fst <$> ps;
                                hm_get_all := fun n => option_list (last (snd <$> filter (fun p => fst p = n) ps)) |};
  json_from_slice := fun _ => Err (lit "no JSON here");
  utf8_error := fun _ => lit "invalid utf-8";
|}.
#[local] Existing Instance demo_libs.

Definition demo_policy : EndpointRetryPolicy := {|
  max_attempts := 3; retry_on_io_errors := true; retry_on_timeout := true;
  should_retry_status := fun s => s =? 503;
  retry_delay_for_status := fun _ _ n => from_millis (5 * Z.of_nat n);
  retry_delay_for_transport := fun n => from_millis (5 * Z.of_nat n);
|}.

Definition demo_endpoint : HttpEndpoint := {|
  build_url := fun _ _ => Ok (lit "http://h/");
  build_headers := fun hs => Ok hs;
  ep_timeout_ms := Some 100; ep_response_max_bytes := Some 8; ep_method := Post;
  effective_request_body_type := TBytes; response_body_type := TUtf8;
  allow_non_2xx_status := false; ep_retry_policy := demo_policy; exposed_response_allowlist := [];
|}.

Definition demo_options : EndpointCallOptions := mkOptions [] [] [] (CallBytes [104; 105]).

Definition demo_call (timeout : option Z) :=
  execute_endpoint (lit "1") demo_endpoint () timeout None demo_options 0.

(** Two attempts are answered 503, the third one succeeds, after 15 ms of sleep. *)
Lemma endpoint_attempts_justified_witness :
  snd (demo_call None) = Ok (mkEndpointResponse (RespUtf8 (lit "hi")) ∅ 200 true) /\
  (length (snd (fst (demo_call None))) <= 3)%nat.
Proof.
  split; [vm_compute; reflexivity|].
  assert (0 < max_attempts (ep_retry_policy demo_endpoint))%nat as Hpos by (cbn; lia).
  pose proof (endpoint_attempts_justified (lit "1") demo_endpoint () None None demo_options 0 Hpos) as Hj.
  unfold demo_call. destruct (execute_endpoint _ _ _ _ _ _ _) as [[e log] r]. exact (proj1 Hj).
Defined.

Lemma demo_delays_typed : delays_typed (ep_retry_policy demo_endpoint).
Proof. split; cbn; intros; unfold from_millis, nanos_per_milli; lia. Qed.

Lemma endpoint_timeout_aggregate_witness :
  fst (fst (demo_call None)) = from_millis 45 /\ fst (fst (demo_call None)) <= 0 + from_millis 100 + 0.
Proof.
  split; [vm_compute; reflexivity|].
  pose proof (endpoint_timeout_aggregate (slack := 0) (EnvLaws0 := clock_laws) (ClientLaws0 := flaky_laws)
    (lit "1") demo_endpoint () None None demo_options 0 100 demo_delays_typed eq_refl) as Ht.
  specialize (Ht ltac:(lia) ltac:(vm_compute; discriminate)).
  unfold demo_call. destruct (execute_endpoint _ _ _ _ _ _ _) as [[e log] r]. exact Ht.
Defined.

Lemma decode_response_sound_witness :
  Z.of_nat (length [104; 105]) <= 8.
Proof.
  refine (proj1 (proj2 (proj2 (proj2 (decode_response_sound demo_endpoint (Some 8)
    (mkResponse 200 headers_new None [104; 105])
    (mkEndpointResponse (RespUtf8 (lit "hi")) ∅ 200 true) _)))) 8 eq_refl).
  vm_compute. reflexivity.
Defined.
End EndpointDemo.
