(* ===== verification/Request.v ===== *)
(** * Request: building the URL and the headers of an endpoint call
    (src/src/internal/http/endpoint/request.rs)

    The file is kept in the repository although no module of the crate declares
    it: the functions moved to [mechanics-config], which [Endpoint] takes as
    the record [HttpEndpoint].  It is modelled on its own.  What it calls and
    the repository does not have (the rules for slots and query keys, percent
    encoding, the URL type) is the class [TemplateLib].  The maps it iterates
    over are lists of their entries in the order of iteration, with distinct
    keys.  The [debug_assert!]s on the prepared form are not evaluated: they
    are absent from release builds. *)

From S2P Require Import Prelude Json Utf8 Str Transport Endpoint.

(** ** Templates and queries *)

Inductive UrlTemplateChunk := Literal (s : str) | Slot (slot : str).

Section request.
Context {UrlParamSpec SlottedQueryMode Url : Type}.

Inductive QuerySpec :=
| Const (key value : str)
| Slotted (key slot : str) (mode : SlottedQueryMode) (dflt : option str) (min_bytes max_bytes : option Z).

Class TemplateLib := {
  resolve_value : UrlParamSpec -> str -> option str -> result IoError str;
  percent_encode_component : str -> str;
  validate_query_key : str -> result IoError ();
  validate_slot_name : str -> result IoError ();
  validate_min_max_bounds : str -> option Z -> option Z -> result IoError ();
  resolve_slotted_query_value :
    str -> SlottedQueryMode -> option str -> option str -> option Z -> option Z -> result IoError (option str);
  Url_parse : str -> result str Url;
  Url_fragment : Url -> option str;
  Url_query : Url -> option str;
  append_pair : str -> str -> Url -> Url;
}.
Context `{EndpointLibs} `{TemplateLib}.

(** The fields of [HttpEndpoint] and [PreparedHttpEndpoint] the functions
    read; [USER_AGENT] is a constant of [HttpEndpoint]. *)
Record TemplateEndpoint := mkTemplateEndpoint {
  USER_AGENT : str;
  url_template : str;
  te_headers : list (str * str);
  url_param_specs : list (str * UrlParamSpec);
  query_specs : list QuerySpec;
  request_body_type : option EndpointBodyType;
}.
Record PreparedTemplate := mkPreparedTemplate {
  allowed_overrides : list str;
  url_slot_set : list str;
  parsed_url_chunks : list UrlTemplateChunk;
  allowed_query_slots : list str;
}.

Definition effective_body_type (ep : TemplateEndpoint) : EndpointBodyType :=
  default TJson (request_body_type ep).

(** [HashMap::get]. *)
Definition map_get {A} (k : str) (m : list (str * A)) : option A :=
  snd <$> head (filter (fun p => fst p = k) m).

Definition invalid_input (m : str) : IoError := mkIoError InvalidInput m.
Definition backquote (s : str) : str := [96] ++ s ++ [96].

(** ** Headers

    A [HeaderMap] that is only filled by [insert] holds one value per name. *)

Abbreviation HeaderTable := (gmap (list Z) (list Z)).

(** The loop over the configured headers. *)
Fixpoint insert_configured (hs : list (str * str)) (headers : HeaderTable) : result IoError HeaderTable :=
  match hs with
  | [] => Ok headers
  | (k, v) :: rest =>
      name ← map_err (fun e => invalid_input (lit "invalid header name " ++ backquote k ++ lit ": " ++ e)) (header_name_try_from k);
      value ← map_err (fun e => invalid_input (lit "invalid header value for " ++ backquote k ++ lit ": " ++ e)) (header_value_try_from v);
      insert_configured rest (<[name := value]> headers)
  end.

(** The loop over the overrides of the call, with the names seen so far. *)
Fixpoint insert_overrides (allowed : list str) (hs : list (str * str)) (seen_override_names : gset (list Z))
    (headers : HeaderTable) : result IoError HeaderTable :=
  match hs with
  | [] => Ok headers
  | (k, v) :: rest =>
      name ← map_err (fun e => invalid_input (lit "invalid override header name " ++ backquote k ++ lit ": " ++ e)) (header_name_try_from k);
      if bool_decide (name ∈ seen_override_names) then
        Err (invalid_input (lit "duplicate override header " ++ backquote k ++ lit " in options.headers (case-insensitive)"))
      else if negb (bool_decide (name ∈ allowed)) then
        Err (invalid_input (lit "override header " ++ backquote k ++ lit " is not allowlisted in overridable_request_headers"))
      else
        value ← map_err (fun e => invalid_input (lit "invalid override header value for " ++ backquote k ++ lit ": " ++ e)) (header_value_try_from v);
        insert_overrides allowed rest ({[name]} ∪ seen_override_names) (<[name := value]> headers)
  end.

(** The headers before the configured ones. *)
Definition default_headers (ep : TemplateEndpoint) (default_content_type : option str) : result IoError HeaderTable :=
  user_agent ← map_err (fun e => invalid_input (lit "invalid default User-Agent header: " ++ e)) (header_value_try_from (USER_AGENT ep));
  let headers := <[lit "user-agent" := user_agent]> ∅ in
  match default_content_type with
  | Some ct =>
      content_type ← map_err (fun e => invalid_input (lit "invalid default Content-Type header: " ++ e)) (header_value_try_from ct);
      mret (<[lit "content-type" := content_type]> headers)
  | None => mret headers
  end.

Definition build_headers_prepared (ep : TemplateEndpoint) (default_content_type : option str)
    (options : EndpointCallOptions) (prepared : PreparedTemplate) : result IoError HeaderTable :=
  headers ← default_headers ep default_content_type;
  headers ← insert_configured (te_headers ep) headers;
  insert_overrides (allowed_overrides prepared) (opt_headers options) ∅ headers.

(** ** URLs *)

(** The check that every provided key is known. *)
Fixpoint check_known (known : list str) (unknown : str -> IoError) (keys : list str) : result IoError () :=
  match keys with
  | [] => Ok ()
  | k :: rest => if negb (bool_decide (k ∈ known)) then Err (unknown k) else check_known known unknown rest
  end.

(** The loop over the chunks of the template. *)
Fixpoint resolve_chunks (specs : list (str * UrlParamSpec)) (params : list (str * str))
    (chunks : list UrlTemplateChunk) : result IoError str :=
  match chunks with
  | [] => Ok []
  | Literal s :: rest => out ← resolve_chunks specs params rest; mret (s ++ out)
  | Slot slot :: rest =>
      spec ← ok_or (invalid_input (lit "missing url_param_specs entry for slot " ++ backquote slot)) (map_get slot specs);
      value ← resolve_value spec slot (map_get slot params);
      out ← resolve_chunks specs params rest;
      mret (percent_encode_component value ++ out)
  end.

(** The loop over the query specifications. *)
Fixpoint emit_pairs (specs : list QuerySpec) (queries : list (str * str)) : result IoError (list (str * str)) :=
  match specs with
  | [] => Ok []
  | Const key value :: rest =>
      _ ← validate_query_key key;
      more ← emit_pairs rest queries;
      mret ((key, value) :: more)
  | Slotted key slot mode dflt min_bytes max_bytes :: rest =>
      _ ← validate_query_key key;
      _ ← validate_slot_name slot;
      _ ← validate_min_max_bounds slot min_bytes max_bytes;
      value ← resolve_slotted_query_value slot mode dflt (map_get slot queries) min_bytes max_bytes;
      more ← emit_pairs rest queries;
      mret match value with Some value => (key, value) :: more | None => more end
  end.

Definition build_url_prepared (ep : TemplateEndpoint) (options : EndpointCallOptions)
    (prepared : PreparedTemplate) : result IoError Url :=
  _ ← check_known (url_slot_set prepared)
        (fun k => invalid_input (lit "unknown urlParams key " ++ backquote k ++ lit " for endpoint template " ++ backquote (url_template ep)))
        (url_params options).*1;
  resolved_url ← resolve_chunks (url_param_specs ep) (url_params options) (parsed_url_chunks prepared);
  url ← map_err io_other (Url_parse resolved_url);
  if bool_decide (Url_fragment url <> None) then
    Err (invalid_input (lit "url_template must not include URL fragments"))
  else if bool_decide (Url_query url <> None) then
    Err (invalid_input (lit "url_template must not include query parameters; use query_specs instead"))
  else
    _ ← check_known (allowed_query_slots prepared)
          (fun k => invalid_input (lit "unknown queries key " ++ backquote k ++ lit " for endpoint"))
          (queries options).*1;
    emitted_pairs ← emit_pairs (query_specs ep) (queries options);
    mret (foldl (fun url p => append_pair p.1 p.2 url) url emitted_pairs).

(** ** Headers: defaults, then configuration, then allow-listed overrides *)

(** What a list of headers says of a name: the last entry for it. *)
Fixpoint entry_for (n : str) (hs : list (str * str)) : option str :=
  match hs with
  | [] => None
  | (k, v) :: rest =>
      opt_or (entry_for n rest)
        match header_name_try_from k, header_value_try_from v with
        | Ok name, Ok value => if bool_decide (name = n) then Some value else None
        | _, _ => None
        end
  end.

Lemma insert_configured_spec hs headers headers' : insert_configured hs headers = Ok headers' ->
  forall n, headers' !! n = opt_or (entry_for n hs) (headers !! n).
Proof.
  revert headers. induction hs as [|[k v] hs IH]; intros headers; cbn [insert_configured]; [by intros [= <-] n|].
  destruct (header_name_try_from k) as [name|] eqn:Hn; cbn [map_err mbind result_bind]; [|done].
  destruct (header_value_try_from v) as [value|] eqn:Hv; cbn [map_err mbind result_bind]; [|done].
  intros Hr n. rewrite (IH _ Hr n). cbn [entry_for]. rewrite Hn, Hv.
  case_bool_decide; subst; simplify_map_eq; by destruct (entry_for n hs).
Qed.

Lemma insert_overrides_spec allowed hs seen headers headers' :
  insert_overrides allowed hs seen headers = Ok headers' ->
  insert_configured hs headers = Ok headers' /\
  Forall (fun p => exists name value, header_name_try_from p.1 = Ok name /\ header_value_try_from p.2 = Ok value /\
    name ∈ allowed /\ (name ∉ seen) /\ headers' !! name = Some value) hs /\
  (forall n, (n ∈ seen \/ (n ∉ allowed)) -> headers' !! n = headers !! n).
Proof.
  revert seen headers. induction hs as [|[k v] hs IH]; intros seen headers; cbn [insert_overrides insert_configured].
  { intros [= <-]. repeat split; auto. }
  destruct (header_name_try_from k) as [name|] eqn:Hn; cbn [map_err mbind result_bind]; [|done].
  case_bool_decide as Hseen; [done|]. case_bool_decide as Hall; cbn [negb]; [|done].
  destruct (header_value_try_from v) as [value|] eqn:Hv; cbn [map_err mbind result_bind]; [|done].
  intros (Hc & Hf & Hkeep)%IH. split; [done|]. split; [constructor|].
  - exists name, value. repeat split; try done. rewrite Hkeep by set_solver. by simplify_map_eq.
  - eapply Forall_impl; [exact Hf|]. cbn. intros p (n & x & ? & ? & ? & ? & ?). exists n, x. set_solver.
  - intros n Hor. rewrite Hkeep by set_solver. apply lookup_insert_ne. set_solver.
Qed.

(** C18. Headers of a request: a configured header wins over the automatic
    one, and an override of the call over both; every override is for an
    allow-listed name and takes effect, and a name that is not allow-listed
    keeps the value it has without overrides. *)
Theorem request_headers_precedence (ep : TemplateEndpoint) (ct : option str)
    (o : EndpointCallOptions) (p : PreparedTemplate) (m : HeaderTable) :
  build_headers_prepared ep ct o p = Ok m ->
  exists auto, default_headers ep ct = Ok auto /\
  (forall n, m !! n = opt_or (entry_for n (opt_headers o)) (opt_or (entry_for n (te_headers ep)) (auto !! n))) /\
  (forall n, n ∉ allowed_overrides p -> m !! n = opt_or (entry_for n (te_headers ep)) (auto !! n)) /\
  Forall (fun h => exists name value, header_name_try_from h.1 = Ok name /\ header_value_try_from h.2 = Ok value /\
    name ∈ allowed_overrides p /\ m !! name = Some value) (opt_headers o).
Proof.
  intros (auto & Ha & (base & Hb & Ho)%bind_Ok)%bind_Ok. exists auto.
  pose proof (insert_configured_spec _ _ _ Hb) as Hbase.
  destruct (insert_overrides_spec _ _ _ _ _ Ho) as (Hover & Hf & Hkeep).
  split; [done|]. split; [|split].
  - intros n. by rewrite (insert_configured_spec _ _ _ Hover), Hbase.
  - intros n Hn. by rewrite Hkeep, Hbase by auto.
  - eapply Forall_impl; [exact Hf|]. cbn. intros h (name & value & ? & ? & ? & _ & ?). by exists name, value.
Qed.

(** ** URLs: only configured slots and queries *)

Lemma check_known_Ok known unknown keys :
  check_known known unknown keys = Ok () <-> Forall (fun k => k ∈ known) keys.
Proof.
  induction keys as [|k keys IH]; cbn; [by split|]. rewrite Forall_cons.
  case_bool_decide; cbn; naive_solver.
Qed.

(** What a chunk of the template contributes. *)
Definition chunk_piece (specs : list (str * UrlParamSpec)) (params : list (str * str))
    (chunk : UrlTemplateChunk) (piece : str) : Prop :=
  match chunk with
  | Literal s => piece = s
  | Slot slot => exists spec value, map_get slot specs = Some spec /\
      resolve_value spec slot (map_get slot params) = Ok value /\ piece = percent_encode_component value
  end.

Lemma resolve_chunks_pieces specs params chunks out : resolve_chunks specs params chunks = Ok out ->
  exists pieces, Forall2 (chunk_piece specs params) chunks pieces /\ out = concat pieces.
Proof.
  revert out. induction chunks as [|[s|slot] chunks IH]; intros out; cbn [resolve_chunks].
  - intros [= <-]. by exists [].
  - intros (rest & (ps & Hps & ->)%IH & [= <-])%bind_Ok. exists (s :: ps). by repeat constructor.
  - destruct (map_get slot specs) as [spec|] eqn:Hs; cbn [ok_or mbind result_bind]; [|done].
    intros (value & Hv & (rest & (ps & Hps & ->)%IH & [= <-])%bind_Ok)%bind_Ok.
    exists (percent_encode_component value :: ps). split; [|done]. constructor; [|done]. by exists spec, value.
Qed.

(** What a query specification contributes: its own key, with its constant or
    the value its slot resolves to. *)
Definition query_piece (queries : list (str * str)) (spec : QuerySpec) (piece : option (str * str)) : Prop :=
  match spec with
  | Const key value => piece = Some (key, value)
  | Slotted key slot mode dflt lo hi => exists value,
      resolve_slotted_query_value slot mode dflt (map_get slot queries) lo hi = Ok value /\ piece = (fun v => (key, v)) <$> value
  end.

Lemma emit_pairs_pieces specs qs pairs : emit_pairs specs qs = Ok pairs ->
  exists pieces, Forall2 (query_piece qs) specs pieces /\ pairs = omap id pieces.
Proof.
  revert pairs. induction specs as [|[key value|key slot mode dflt lo hi] specs IH]; intros pairs; cbn [emit_pairs].
  - intros [= <-]. by exists [].
  - intros (_ & _ & (more & (ps & Hps & ->)%IH & [= <-])%bind_Ok)%bind_Ok.
    exists (Some (key, value) :: ps). by repeat constructor.
  - intros (_ & _ & (_ & _ & (_ & _ & (value & Hv & (more & (ps & Hps & ->)%IH & [= <-])%bind_Ok)%bind_Ok)%bind_Ok)%bind_Ok)%bind_Ok.
    exists (((fun v => (key, v)) <$> value) :: ps). split; [|by destruct value].
    constructor; [|done]. by exists value.
Qed.

(** URL of a request: it is the template with every slot replaced by the
    percent-encoded value its specification resolves to, has neither query
    nor fragment of its own, and gets exactly the pairs of the query
    specifications, in their order; a call that names any other slot or query
    is refused. *)
Theorem request_url_confined (ep : TemplateEndpoint) (o : EndpointCallOptions)
    (p : PreparedTemplate) (u : Url) :
  build_url_prepared ep o p = Ok u ->
  exists pieces base query,
    Forall2 (chunk_piece (url_param_specs ep) (url_params o)) (parsed_url_chunks p) pieces /\
    Url_parse (concat pieces) = Ok base /\ Url_fragment base = None /\ Url_query base = None /\
    Forall2 (query_piece (queries o)) (query_specs ep) query /\
    u = foldl (fun u q => append_pair q.1 q.2 u) base (omap id query) /\
    Forall (fun k => k ∈ url_slot_set p) (url_params o).*1 /\
    Forall (fun k => k ∈ allowed_query_slots p) (queries o).*1.
Proof.
  intros ([] & Hk%check_known_Ok & (out & (pieces & Hps & ->)%resolve_chunks_pieces & (base & Hbase & Hr)%bind_Ok)%bind_Ok)%bind_Ok.
  case_bool_decide as Hf; [done|]. case_bool_decide as Hq; [done|].
  apply bind_Ok in Hr as ([] & Hk2%check_known_Ok & (pairs & (query & Hqs & ->)%emit_pairs_pieces & [= <-])%bind_Ok).
  exists pieces, base, query. destruct (Url_parse (concat pieces)); simplify_eq/=.
  by destruct (Url_fragment base), (Url_query base).
Qed.
End request.

Arguments QuerySpec : clear implicits.
Arguments TemplateEndpoint : clear implicits.
Arguments TemplateLib : clear implicits.

(** ** A concrete call *)

Module RequestDemo.
#[local] Existing Instance EndpointDemo.demo_libs.

(** A parameter is a maximal length; a query mode says whether a value is
    required; a URL is its text and its query pairs. *)
Definition demo_lib : TemplateLib nat bool (str * list (str * str)) := {|
  resolve_value := fun max slot v =>
    match v with
    | Some v => if (length v <=? max)%nat then Ok v else Err (invalid_input slot)
    | None => Err (invalid_input slot)
    end;
  percent_encode_component := fun s => c ← s; if c =? 47 then lit "%2F" else [c];
  validate_query_key := fun k => if bool_decide (k = []) then Err (invalid_input k) else Ok ();
  validate_slot_name := fun k => if bool_decide (k = []) then Err (invalid_input k) else Ok ();
  validate_min_max_bounds := fun _ _ _ => Ok ();
  resolve_slotted_query_value := fun slot required dflt v _ _ =>
    match opt_or v dflt with
    | Some v => Ok (Some v)
    | None => if required : bool then Err (invalid_input slot) else Ok None
    end;
  Url_parse := fun s => if starts_with (lit "https://") s then Ok (s, []) else Err (lit "relative URL without a base");
  Url_fragment := fun u => snd <$> split_once (lit "#") u.1;
  Url_query := fun u => snd <$> split_once (lit "?") u.1;
  append_pair := fun k v u => (u.1, u.2 ++ [(k, v)]);
|}.
#[local] Existing Instance demo_lib.

Definition users : TemplateEndpoint nat bool :=
  mkTemplateEndpoint (lit "mechanics") (lit "https://api/users/{id}") [(lit "User-Agent", lit "bot"); (lit "X-Trace", lit "off")]
    [(lit "id", 8%nat)] [Const (lit "v") (lit "2"); Slotted (lit "page") (lit "p") false None None None] None.
Definition users_prepared : PreparedTemplate :=
  mkPreparedTemplate [lit "x-trace"] [lit "id"] [Literal (lit "https://api/users/"); Slot (lit "id")] [lit "p"].
Definition call : EndpointCallOptions :=
  mkOptions [(lit "id", lit "a/b")] [(lit "p", lit "3")] [(lit "X-TRACE", lit "on")] CallAbsent.

Example call_url : build_url_prepared users call users_prepared =
  Ok (lit "https://api/users/a%2Fb", [(lit "v", lit "2"); (lit "page", lit "3")]).
Proof. vm_compute. reflexivity. Qed.

Definition call_table : gmap (list Z) (list Z) :=
  <[lit "x-trace" := lit "on"]> (<[lit "x-trace" := lit "off"]> (<[lit "user-agent" := lit "bot"]> (<[lit "user-agent" := lit "mechanics"]> ∅))).

Example override_refused :
  build_headers_prepared users None (mkOptions [] [] [(lit "user-agent", lit "me")] CallAbsent) users_prepared =
  Err (invalid_input (lit "override header " ++ backquote (lit "user-agent") ++ lit " is not allowlisted in overridable_request_headers")).
Proof. vm_compute. reflexivity. Qed.

Example duplicate_refused :
  is_ok (build_headers_prepared users None (mkOptions [] [] [(lit "x-trace", lit "1"); (lit "X-Trace", lit "2")] CallAbsent) users_prepared) = false.
Proof. vm_compute. reflexivity. Qed.

Lemma request_headers_precedence_witness : exists auto, default_headers users None = Ok auto /\
  (forall n, call_table !! n = opt_or (entry_for n (opt_headers call)) (opt_or (entry_for n (te_headers users)) (auto !! n))) /\
  (forall n, n ∉ allowed_overrides users_prepared -> call_table !! n = opt_or (entry_for n (te_headers users)) (auto !! n)) /\
  Forall (fun h => exists name value, header_name_try_from h.1 = Ok name /\ header_value_try_from h.2 = Ok value /\
    name ∈ allowed_overrides users_prepared /\ call_table !! name = Some value) (opt_headers call).
Proof. apply (request_headers_precedence users None call users_prepared call_table). reflexivity. Defined.

Lemma request_url_confined_witness : exists pieces base query,
    Forall2 (chunk_piece (url_param_specs users) (url_params call)) (parsed_url_chunks users_prepared) pieces /\
    Url_parse (concat pieces) = Ok base /\ Url_fragment base = None /\ Url_query base = None /\
    Forall2 (query_piece (queries call)) (query_specs users) query /\
    (lit "https://api/users/a%2Fb", [(lit "v", lit "2"); (lit "page", lit "3")]) =
      foldl (fun u q => append_pair q.1 q.2 u) base (omap id query) /\
    Forall (fun k => k ∈ url_slot_set users_prepared) (url_params call).*1 /\
    Forall (fun k => k ∈ allowed_query_slots users_prepared) (queries call).*1.
Proof. apply request_url_confined. vm_compute. reflexivity. Defined.
End RequestDemo.
