(* ===== verification/Mime.v ===== *)
(** * Mime: composing and parsing MIME messages
    (src/src/internal/runtime/builtins/mime.rs)

    The text side of the [mechanics:mime] module: headers, transfer encodings,
    encoded words, folding, multipart rendering and parsing.  Base64 is the
    [data-encoding] crate, the class [Base64].  An error is the message of
    the [TypeError].  Reading a message from and returning it to JavaScript
    ([collect_*], [*_to_js]) is in [MimeJs]. *)

From S2P Require Import Prelude Utf8 Str.

Definition MIME_VERSION : str := lit "MIME-Version".
Definition CONTENT_TYPE : str := lit "Content-Type".
Definition CONTENT_TRANSFER_ENCODING : str := lit "Content-Transfer-Encoding".
Definition DEFAULT_TEXT_CONTENT_TYPE : str := lit "text/plain; charset=utf-8".
Definition DEFAULT_MULTIPART_CONTENT_TYPE : str := lit "multipart/mixed".

Definition CR : Z := 13.
Definition LF : Z := 10.
Definition CRLF : str := [CR; LF].

Record Header := mkHeader { h_name : str; h_value : str }.

Inductive MimeBody := Text (s : str) | Bytes (b : bytes).

Inductive MimeMessage := mkMime {
  m_headers : list Header;
  m_body : option MimeBody;
  m_parts : list MimeMessage;
  m_encoding : option str;
}.

Inductive TransferEncoding := SevenBit | EightBit | Binary | QuotedPrintable | Base64Enc.

Definition encoding_token (e : TransferEncoding) : str :=
  match e with
  | SevenBit => lit "7bit" | EightBit => lit "8bit" | Binary => lit "binary"
  | QuotedPrintable => lit "quoted-printable" | Base64Enc => lit "base64"
  end.

Definition encoding_parse (token : str) : option TransferEncoding :=
  let t := to_ascii_lowercase token in
  if bool_decide (t = lit "7bit") then Some SevenBit
  else if bool_decide (t = lit "8bit") then Some EightBit
  else if bool_decide (t = lit "binary") then Some Binary
  else if bool_decide (t = lit "quoted-printable") then Some QuotedPrintable
  else if bool_decide (t = lit "base64") then Some Base64Enc
  else None.

(** ** Headers *)

Definition header_matches (name wanted : str) : bool := eq_ignore_ascii_case name wanted.

(** The last matching header wins. *)
Definition header_value (headers : list Header) (name : str) : option str :=
  h_value <$> head (filter (fun h => header_matches (h_name h) name = true) (rev headers)).

(** The first matching header is replaced, or a new one is appended. *)
Fixpoint set_header (headers : list Header) (name value : str) : list Header :=
  match headers with
  | [] => [mkHeader name value]
  | h :: rest =>
      if header_matches (h_name h) name then mkHeader (h_name h) value :: rest
      else h :: set_header rest name value
  end.

Definition has_header (headers : list Header) (name : str) : bool :=
  match header_value headers name with Some _ => true | None => false end.

Definition name_byte_ok (b : Z) : bool :=
  (((33 <=? b) && (b <=? 57)) || ((59 <=? b) && (b <=? 126))) && negb (b =? 58).

Definition validate_header_name (name : str) : result str () :=
  if bool_decide (name = []) || negb (forallb name_byte_ok (utf8_encode name))
  then Err (lit "MIME header names must be non-empty RFC 5322 field names")
  else Ok ().

Definition validate_header_value (value : str) : result str () :=
  if existsb (fun b => (b =? CR) || (b =? LF)) (utf8_encode value)
  then Err (lit "MIME header values must not contain line breaks")
  else Ok ().

Definition content_type_base (content_type : str) : str :=
  trim match split_once (lit ";") content_type with Some (base, _) => base | None => content_type end.

Definition is_text_content_type (content_type : str) : bool :=
  starts_with (lit "text/") (to_ascii_lowercase (content_type_base content_type)).

(** The boundary of one parameter, if it is the boundary. *)
Definition param_boundary (param : str) : option str :=
  '(name, value) ← split_once (lit "=") (trim param);
  if eq_ignore_ascii_case (trim name) (lit "boundary") then
    let value := trim value in
    Some (if starts_with [34] value && ends_with [34] value && (2 <=? str_len value)
          then take (length value - 2) (drop 1 value) else value)
  else None.

Definition parse_boundary (content_type : str) : option str :=
  head (omap param_boundary (drop 1 (split_char 59 content_type))).

Definition content_type_with_boundary (content_type boundary : str) : str :=
  match parse_boundary content_type with
  | Some _ => content_type
  | None => content_type ++ lit "; boundary=" ++ [34] ++ boundary ++ [34]
  end.

(** ** Line breaks *)

Definition normalize_text_lines (text : str) : str :=
  replace [LF] CRLF (replace [CR] [LF] (replace CRLF [LF] text)).

Definition normalize_raw_message (raw : str) : str := replace [CR] [LF] (replace CRLF [LF] raw).

(** [wrap_ascii_line], from a line of which [line_len] bytes are written. *)
Fixpoint wrap_from (width line_len : Z) (input : str) : str :=
  match input with
  | [] => []
  | ch :: rest =>
      let brk := width <=? line_len in
      (if brk then CRLF else []) ++ ch ::
      wrap_from width (saturating_add usize_max (if brk then 0 else line_len) (Z.of_nat (length (encode_char ch)))) rest
  end.
Definition wrap_ascii_line (input : str) (width : Z) : str := wrap_from width 0 input.

(** ** Transfer encodings *)

(** [data_encoding::BASE64]. *)
Class Base64 := {
  b64_encode : bytes -> str;
  b64_decode : bytes -> option bytes;
}.

Definition base64_encode_wrapped `{Base64} (b : bytes) : str := wrap_ascii_line (b64_encode b) 76.

Definition base64_decode_liberal `{Base64} (input : str) : result str bytes :=
  let compact := filter (fun ch => is_ascii_whitespace ch = false) input in
  ok_or (lit "invalid MIME base64 body") (b64_decode (utf8_encode compact)).

Definition hex_value (byte : Z) : option Z :=
  if (48 <=? byte) && (byte <=? 57) then Some (byte - 48)
  else if (97 <=? byte) && (byte <=? 102) then Some (byte - 97 + 10)
  else if (65 <=? byte) && (byte <=? 70) then Some (byte - 65 + 10)
  else None.

Definition hex_upper (d : Z) : Z := if d <? 10 then 48 + d else 55 + d.
Definition hex_pair (byte : Z) : str := [hex_upper (Z.shiftr byte 4); hex_upper (Z.land byte 15)].

(** [qp_push_token]: what is written, and the new line length. *)
Definition qp_push_token (line_len : Z) (token : str) : str * Z :=
  let brk := 75 <? saturating_add usize_max line_len (str_len token) in
  ((if brk then [61] ++ CRLF else []) ++ token,
   saturating_add usize_max (if brk then 0 else line_len) (str_len token)).

Definition qp_literal (byte : Z) : bool :=
  (byte =? 9) || ((32 <=? byte) && (byte <=? 60)) || ((62 <=? byte) && (byte <=? 126)).

Definition qp_token (byte : Z) : str := if qp_literal byte then [byte] else 61 :: hex_pair byte.

(** The loop of [qp_encode]; [skip] drops the line feed of a line break that
    has been written. *)
Fixpoint qp_encode_from (line_len : Z) (skip : bool) (b : bytes) : str :=
  match b with
  | [] => []
  | byte :: rest =>
      if skip then qp_encode_from line_len false rest
      else if (byte =? CR) && bool_decide (head rest = Some LF)
      then CRLF ++ qp_encode_from 0 true rest
      else
        let '(out, line_len') := qp_push_token line_len (qp_token byte) in
        out ++ qp_encode_from line_len' false rest
  end.
Definition qp_encode (b : bytes) : str := qp_encode_from 0 false b.

Definition invalid_escape : str := lit "invalid quoted-printable escape".

(** The loop of [qp_decode]; [skip] counts the bytes of an escape that has
    been decoded. *)
Fixpoint qp_decode_from (encoded_word : bool) (skip : nat) (b : bytes) : result str bytes :=
  match b with
  | [] => Ok []
  | byte :: rest =>
      match skip with
      | S k => qp_decode_from encoded_word k rest
      | O =>
          if encoded_word && (byte =? 95) then
            out ← qp_decode_from encoded_word 0 rest; mret (32 :: out)
          else if negb (byte =? 61) then
            out ← qp_decode_from encoded_word 0 rest; mret (byte :: out)
          else if bool_decide (rest !! 0%nat = Some CR) && bool_decide (rest !! 1%nat = Some LF)
          then qp_decode_from encoded_word 2 rest
          else if bool_decide (rest !! 0%nat = Some LF) then qp_decode_from encoded_word 1 rest
          else
            hi ← ok_or invalid_escape (rest !! 0%nat ≫= hex_value);
            lo ← ok_or invalid_escape (rest !! 1%nat ≫= hex_value);
            out ← qp_decode_from encoded_word 2 rest;
            mret (Z.lor (Z.shiftl hi 4) lo :: out)
      end
  end.
Definition qp_decode (input : str) (encoded_word : bool) : result str bytes :=
  qp_decode_from encoded_word 0 (utf8_encode input).

(** ** Encoded words *)

Definition q_literal (byte : Z) : bool :=
  ((65 <=? byte) && (byte <=? 90)) || ((97 <=? byte) && (byte <=? 122)) ||
  ((48 <=? byte) && (byte <=? 57)) ||
  (byte =? 33) || (byte =? 42) || (byte =? 43) || (byte =? 45) || (byte =? 47).

Definition q_token (byte : Z) : str :=
  if byte =? 32 then [95] else if q_literal byte then [byte] else 61 :: hex_pair byte.

Definition q_encode_header (value : str) : str :=
  lit "=?UTF-8?Q?" ++ (utf8_encode value ≫= q_token) ++ lit "?=".

Definition maybe_encode_header_value (value : str) : str :=
  if is_ascii value then value else q_encode_header value.

Section words.
Context `{Base64}.

(** One encoded word [=?charset?encoding?text?=]: its three fields and the
    rest, if it is complete. *)
Definition word_fields (after_start : str) : option (str * str * str * str) :=
  '(charset, after_charset) ← split_once (lit "?") after_start;
  '(encoding, after_encoding) ← split_once (lit "?") after_charset;
  '(encoded, rest) ← split_once (lit "?=") after_encoding;
  Some (charset, encoding, encoded, rest).

Definition decode_word (charset encoding encoded : str) : result str str :=
  let cs := to_ascii_lowercase charset in
  if bool_decide (cs = lit "utf-8") || bool_decide (cs = lit "utf8") then
    let enc := to_ascii_lowercase encoding in
    decoded ← (if bool_decide (enc = lit "b") then base64_decode_liberal encoded
               else if bool_decide (enc = lit "q") then qp_decode encoded true
               else Err (lit "unsupported RFC 2047 encoding"));
    ok_or (lit "invalid RFC 2047 UTF-8") (from_utf8 decoded)
  else Err (lit "unsupported RFC 2047 charset").

(** The loop of [decode_encoded_words]; [None] when the fuel ran out. *)
Fixpoint decode_words_from (fuel : nat) (rest : str) : option (result str str) :=
  match fuel with
  | O => None
  | S fuel' =>
      match split_once (lit "=?") rest with
      | None => Some (Ok rest)
      | Some (before, after_start) =>
          match word_fields after_start with
          | None => Some (Ok rest)
          | Some (charset, encoding, encoded, rest') =>
              match decode_word charset encoding encoded with
              | Err e => Some (Err e)
              | Ok decoded =>
                  r ← decode_words_from fuel' rest';
                  Some ((fun out => before ++ decoded ++ out) <$> (r : result str str))
              end
          end
      end
  end.
Definition decode_encoded_words (value : str) : result str str :=
  default (Err []) (decode_words_from (S (length value)) value).
End words.

(** ** Header lines *)

(** The loop of [fold_header_line] over the words of a line: [folded] and
    [current] as the code keeps them. *)
Fixpoint fold_words (words : list str) (folded current : str) : str * str :=
  match words with
  | [] => (folded, current)
  | word :: rest =>
      let separator := if bool_decide (current = []) then [] else [32] in
      if negb (bool_decide (current = [])) &&
         (78 <? saturating_add usize_max (saturating_add usize_max (str_len current) (str_len separator)) (str_len word))
      then
        fold_words rest
          (if bool_decide (folded = []) then current else folded ++ CRLF ++ [32] ++ current) word
      else fold_words rest folded (current ++ separator ++ word)
  end.

Definition fold_header_line (name value : str) : str :=
  let line := name ++ lit ": " ++ value in
  if str_len line <=? 78 then line
  else
    let '(folded, current) := fold_words (split_char 32 line) [] [] in
    if bool_decide (folded = []) then line else folded ++ CRLF ++ [32] ++ current.

Fixpoint render_headers (headers : list Header) : result str str :=
  match headers with
  | [] => Ok []
  | header :: rest =>
      _ ← validate_header_name (h_name header);
      _ ← validate_header_value (h_value header);
      let encoded := maybe_encode_header_value (h_value header) in
      out ← render_headers rest;
      mret (fold_header_line (h_name header) encoded ++ CRLF ++ out)
  end.

(** ** Bodies *)

Definition choose_encoding (message : MimeMessage) (headers : list Header) : result str TransferEncoding :=
  match m_encoding message with
  | Some explicit =>
      ok_or (lit "MIME encoding must be 7bit, 8bit, binary, quoted-printable, or base64") (encoding_parse explicit)
  | None =>
      match header_value headers CONTENT_TRANSFER_ENCODING with
      | Some header => ok_or (lit "invalid Content-Transfer-Encoding header") (encoding_parse header)
      | None =>
          let content_type := default DEFAULT_TEXT_CONTENT_TYPE (header_value headers CONTENT_TYPE) in
          let is_text := is_text_content_type content_type in
          Ok match m_body message with
             | Some (Text text) => if is_text && is_ascii text then SevenBit
                                   else if is_text then QuotedPrintable else Base64Enc
             | Some (Bytes _) => Base64Enc
             | None => SevenBit
             end
      end
  end.

Definition body_bytes_and_text (message : MimeMessage) : bytes * bool :=
  match m_body message with
  | Some (Text text) => (utf8_encode (normalize_text_lines text), true)
  | Some (Bytes b) => (b, false)
  | None => ([], true)
  end.

Section render.
Context `{Base64}.

Definition render_body (message : MimeMessage) (encoding : TransferEncoding) : result str str :=
  let '(b, text_body) := body_bytes_and_text message in
  match encoding with
  | SevenBit =>
      if negb (is_ascii b) then Err (lit "7bit MIME bodies must be ASCII")
      else ok_or (lit "7bit MIME body is not UTF-8") (from_utf8 b)
  | EightBit | Binary =>
      if text_body : bool then ok_or (lit "MIME body is not UTF-8") (from_utf8 b)
      else Err (lit "explicit 8bit/binary Uint8Array bodies cannot be represented in a JS string")
  | QuotedPrintable => Ok (qp_encode b)
  | Base64Enc => Ok (base64_encode_wrapped b)
  end.

(** ** Boundaries *)

Definition fnv_byte (state byte : Z) : Z := wrapping_mul u64_max (Z.lxor state byte) 0x100000001b3.

Fixpoint boundary_seed (message : MimeMessage) (state : Z) : Z :=
  let state := foldl (fun st h => foldl fnv_byte st (utf8_encode (h_name h) ++ utf8_encode (h_value h)))
                 state (m_headers message) in
  let state := match m_body message with
               | Some (Text text) => foldl fnv_byte state (utf8_encode text)
               | Some (Bytes b) => foldl fnv_byte state b
               | None => state
               end in
  (fix go (parts : list MimeMessage) (st : Z) :=
     match parts with [] => st | part :: rest => go rest (boundary_seed part st) end)
    (m_parts message) state.

(** [windows(boundary.len()).any(..)] is [contains] on the bytes. *)
Fixpoint message_contains_boundary (message : MimeMessage) (boundary : str) : bool :=
  match m_body message with
  | Some (Text text) => contains boundary text
  | Some (Bytes b) => contains (utf8_encode boundary) b
  | None => false
  end || existsb (fun part => message_contains_boundary part boundary) (m_parts message).

Definition boundary_text (seed attempt : Z) : str :=
  lit "mechanics-" ++ show_hex 16 seed ++ lit "-" ++ show_hex 4 attempt.

(** The [loop] of [generate_boundary]; [None] when the fuel ran out. *)
Fixpoint boundary_from (fuel : nat) (message : MimeMessage) (seed attempt : Z) : option str :=
  match fuel with
  | O => None
  | S fuel' =>
      let boundary := boundary_text seed attempt in
      if message_contains_boundary message boundary
      then boundary_from fuel' message seed (saturating_add u64_max attempt 1)
      else Some boundary
  end.
Definition generate_boundary (fuel : nat) (message : MimeMessage) : option str :=
  boundary_from fuel message (boundary_seed message 0xcbf29ce484222325) 0.

(** ** Messages *)

Definition top_headers (message : MimeMessage) (top_level : bool) : list Header :=
  if top_level && negb (has_header (m_headers message) MIME_VERSION)
  then mkHeader MIME_VERSION (lit "1.0") :: m_headers message else m_headers message.

Definition message_boundary (fuel : nat) (message : MimeMessage) (headers : list Header) : option str :=
  match header_value headers CONTENT_TYPE ≫= parse_boundary with
  | Some boundary => Some boundary
  | None => generate_boundary fuel message
  end.

(** A message without parts. *)
Definition render_single (message : MimeMessage) (headers : list Header) : result str str :=
  let headers := if has_header headers CONTENT_TYPE then headers
                 else set_header headers CONTENT_TYPE DEFAULT_TEXT_CONTENT_TYPE in
  encoding ← choose_encoding message headers;
  let headers := set_header headers CONTENT_TRANSFER_ENCODING (encoding_token encoding) in
  output ← render_headers headers;
  body ← render_body message encoding;
  mret (output ++ CRLF ++ body).

(** [render_message]; [fuel] is that of the boundary search. *)
Fixpoint render_message (fuel : nat) (message : MimeMessage) (top_level : bool) : option (result str str) :=
  let headers := top_headers message top_level in
  match m_parts message with
  | [] => Some (render_single message headers)
  | _ :: _ =>
      boundary ← message_boundary fuel message headers;
      let content_type := match header_value headers CONTENT_TYPE with
                          | Some ct => content_type_base ct
                          | None => DEFAULT_MULTIPART_CONTENT_TYPE
                          end in
      let headers := set_header headers CONTENT_TYPE (content_type_with_boundary content_type boundary) in
      match render_headers headers with
      | Err e => Some (Err e)
      | Ok output =>
          body ← (fix go (parts : list MimeMessage) : option (result str str) :=
                    match parts with
                    | [] => Some (Ok (lit "--" ++ boundary ++ lit "--" ++ CRLF))
                    | part :: rest =>
                        r ← render_message fuel part false;
                        match r with
                        | Err e => Some (Err e)
                        | Ok text =>
                            r' ← go rest;
                            Some ((fun more => lit "--" ++ boundary ++ CRLF ++ text ++ CRLF ++ more)
                                    <$> (r' : result str str))
                        end
                    end) (m_parts message);
          Some ((fun b => output ++ CRLF ++ b) <$> (body : result str str))
      end
  end.
End render.

(** ** Parsing *)

Inductive ParsedMessage := mkParsed {
  p_headers : list Header;
  p_body : option bytes;
  p_parts : list ParsedMessage;
  p_text_body : bool;
}.

Definition split_header_body (raw : str) : result str (str * str) :=
  ok_or (lit "malformed MIME message: missing header/body separator") (split_once [LF; LF] raw).

Section parse.
Context `{Base64}.

(** [headers.push(..)] of the header collected so far. *)
Definition flush_header (current_name : option str) (current_value : str) : result str (list Header) :=
  match current_name with
  | Some name => v ← decode_encoded_words (trim current_value); mret [mkHeader name v]
  | None => Ok []
  end.

(** The loop of [parse_headers] over the lines. *)
Fixpoint parse_header_lines (lines : list str) (current_name : option str) (current_value : str)
  : result str (list Header) :=
  match lines with
  | [] => flush_header current_name current_value
  | line :: rest =>
      if starts_with [32] line || starts_with [9] line then
        match current_name with
        | None => Err (lit "malformed folded MIME header")
        | Some _ => parse_header_lines rest current_name (current_value ++ [32] ++ trim line)
        end
      else
        done ← flush_header current_name current_value;
        let current_value := match current_name with Some _ => [] | None => current_value end in
        '(name, value) ← ok_or (lit "malformed MIME header") (split_once (lit ":") line);
        _ ← validate_header_name name;
        more ← parse_header_lines rest (Some name) (current_value ++ trim value);
        mret (done ++ more)
  end.
Definition parse_headers (raw : str) : result str (list Header) :=
  parse_header_lines (split_char LF raw) None [].

Definition decode_body (raw : str) (headers : list Header) : result str (bytes * bool) :=
  let encoding := default SevenBit (header_value headers CONTENT_TRANSFER_ENCODING ≫= encoding_parse) in
  b ← match encoding with
      | SevenBit | EightBit | Binary => Ok (utf8_encode raw)
      | QuotedPrintable => qp_decode raw false
      | Base64Enc => base64_decode_liberal raw
      end;
  let content_type := default DEFAULT_TEXT_CONTENT_TYPE (header_value headers CONTENT_TYPE) in
  mret (b, is_text_content_type content_type).

Definition trim_part_section (section : str) : str :=
  let cut := default section (strip_suffix [LF] section) in
  default (default section (strip_suffix [LF] section)) (strip_suffix [CR] cut).

(** The loop of [multipart_sections] over the lines: [None] when the closing
    boundary is missing. *)
Fixpoint sections_from (marker close_marker : str) (lines : list str) (inside : bool) (current : str)
  : option (list str) :=
  match lines with
  | [] => None
  | line :: rest =>
      let trimmed := trim_end_matches CR line in
      if bool_decide (trimmed = marker) then
        (if inside then (trim_part_section current ::.) else id)
          <$> sections_from marker close_marker rest true (if inside then [] else current)
      else if bool_decide (trimmed = close_marker) then
        Some (if inside then [trim_part_section current] else [])
      else sections_from marker close_marker rest inside (if inside then current ++ line ++ [LF] else current)
  end.
Definition multipart_sections (body boundary : str) : result str (list str) :=
  ok_or (lit "malformed multipart MIME body: missing closing boundary")
    (sections_from (lit "--" ++ boundary) (lit "--" ++ boundary ++ lit "--") (split_char LF body) false []).

(** [parse_message_raw]: [fuel] bounds the nesting; [None] when it ran out. *)
Fixpoint parse_message_raw (fuel : nat) (raw : str) : option (result str ParsedMessage) :=
  match fuel with
  | O => None
  | S fuel' =>
      match split_header_body raw ≫= fun '(raw_headers, raw_body) =>
              headers ← parse_headers raw_headers; mret (headers, raw_body) with
      | Err e => Some (Err e)
      | Ok (headers, raw_body) =>
          let content_type := default DEFAULT_TEXT_CONTENT_TYPE (header_value headers CONTENT_TYPE) in
          if starts_with (lit "multipart/") (to_ascii_lowercase (content_type_base content_type)) then
            match boundary ← ok_or (lit "multipart MIME message is missing boundary") (parse_boundary content_type);
                  multipart_sections raw_body boundary with
            | Err e => Some (Err e)
            | Ok sections =>
                (* [collect] stops at the first error *)
                parts ← (fix go (l : list str) : option (result str (list ParsedMessage)) :=
                           match l with
                           | [] => Some (Ok [])
                           | part :: rest =>
                               r ← parse_message_raw fuel' part;
                               match r with
                               | Err e => Some (Err e)
                               | Ok m => r' ← go rest; Some ((m ::.) <$> (r' : result str (list ParsedMessage)))
                               end
                           end) sections;
                Some ((fun ps => mkParsed headers None ps false) <$> (parts : result str (list ParsedMessage)))
            end
          else
            Some ('(body, text_body) ← decode_body raw_body headers;
                  mret (mkParsed headers (Some body) [] text_body))
      end
  end.

(** The text part of [compose] and [parse]. *)
Definition compose_text (fuel : nat) (message : MimeMessage) : option (result str str) :=
  render_message fuel message true.
Definition parse_text (raw : str) : option (result str ParsedMessage) :=
  let normalized := normalize_raw_message raw in parse_message_raw (S (length normalized)) normalized.
End parse.
