(* ===== verification/MimeProps.v ===== *)
(** * MimeProps: properties of the MIME codec

    Round trips of the transfer encodings and of encoded header words, the
    shape of rendered header blocks, the search for a multipart boundary, and
    a message the composer renders but the parser rejects. *)

From S2P Require Import Prelude Utf8 Str Mime.

(** ** Hexadecimal pairs *)

Definition all_bytes : list Z := Z.of_nat <$> seq 0 256.

Lemma all_bytes_elem b : in_range u8_max b -> b ∈ all_bytes.
Proof.
  unfold in_range, u8_max. intros Hb. apply list_elem_of_fmap. exists (Z.to_nat b).
  split; [lia|]. apply elem_of_seq. lia.
Qed.

(** A decidable fact about every byte, by evaluation. *)
Lemma byte_check (f : Z -> bool) b : forallb f all_bytes = true -> in_range u8_max b -> f b = true.
Proof. intros Hf Hb%all_bytes_elem. rewrite forallb_forall in Hf. by apply Hf, list_elem_of_In. Qed.

Definition pair_ok (b : Z) : bool :=
  match hex_pair b with
  | [h; l] =>
      negb (h =? CR) && negb (h =? LF) && negb (l =? CR) && negb (l =? LF) &&
      (0 <=? h) && (h <? 128) && (0 <=? l) && (l <? 128) && negb (h =? 63) && negb (l =? 63) &&
      match hex_value h, hex_value l with
      | Some hi, Some lo => Z.lor (Z.shiftl hi 4) lo =? b
      | _, _ => false
      end
  | _ => false
  end.

Lemma pair_ok_all b : in_range u8_max b -> pair_ok b = true.
Proof. apply byte_check. vm_compute. reflexivity. Qed.

(** An escape decodes to its byte. *)
Lemma qp_decode_escape ew b (rest : bytes) : in_range u8_max b ->
  qp_decode_from ew 0 ((61 :: hex_pair b) ++ rest) = (b ::.) <$> qp_decode_from ew 0 rest.
Proof.
  intros Hb%pair_ok_all. unfold pair_ok in Hb. destruct (hex_pair b) as [|h [|l []]]; try done.
  destruct (hex_value h) as [hi|] eqn:Hh, (hex_value l) as [lo|] eqn:Hl; bool_facts; try done.
  cbn -[Z.lor Z.shiftl Z.eqb]. change (61 =? 95) with false. change (61 =? 61) with true.
  rewrite andb_false_r. cbn -[Z.lor Z.shiftl].
  rewrite bool_decide_eq_false_2 by congruence. cbn -[Z.lor Z.shiftl].
  rewrite bool_decide_eq_false_2 by congruence. rewrite Hh. cbn -[Z.lor Z.shiftl]. rewrite Hl.
  subst b. by destruct (qp_decode_from ew 0 rest).
Qed.

(** ** Quoted-printable *)

Lemma qp_decode_literal b (rest : bytes) : b <> 61 ->
  qp_decode_from false 0 (b :: rest) = (b ::.) <$> qp_decode_from false 0 rest.
Proof.
  intros Hb. cbn. rewrite (proj2 (Z.eqb_neq b 61)) by done. cbn. by destruct (qp_decode_from false 0 rest).
Qed.

Lemma qp_decode_token b (rest : bytes) : in_range u8_max b ->
  qp_decode_from false 0 (qp_token b ++ rest) = (b ::.) <$> qp_decode_from false 0 rest.
Proof.
  intros Hb. unfold qp_token. destruct (qp_literal b) eqn:Hl; [|by apply qp_decode_escape].
  apply qp_decode_literal. unfold qp_literal in Hl. intros ->. done.
Qed.

Lemma qp_decode_soft ew (rest : bytes) : qp_decode_from ew 0 ([61] ++ CRLF ++ rest) = qp_decode_from ew 0 rest.
Proof. by destruct ew. Qed.

(** Decoding undoes encoding, whatever the position in the line. *)
Lemma qp_decode_encode b : valid_bytes b -> forall line_len,
  qp_decode_from false 0 (qp_encode_from line_len false b) = Ok b /\
  qp_decode_from false 0 (qp_encode_from line_len true b) = Ok (tail b).
Proof.
  induction 1 as [|byte rest Hb _ IH]; intros line_len; [done|].
  split; [|apply IH]. cbn [qp_encode_from].
  destruct ((byte =? CR) && bool_decide (head rest = Some LF)) eqn:Hcr.
  - bool_facts. subst. destruct rest as [|c rest]; [done|].
    match goal with Hh : head _ = _ |- _ => injection Hh as -> end.
    change (CRLF ++ ?x) with (CR :: LF :: x). rewrite !qp_decode_literal by done. by rewrite (proj2 (IH 0)).
  - unfold qp_push_token. rewrite <- (assoc_L (++)).
    destruct (75 <? _); rewrite ?app_nil_l, <- ?(assoc_L (++)), ?qp_decode_soft, qp_decode_token by done;
      by rewrite (proj1 (IH _)).
Qed.

(** ** Line lengths *)

(** Longest line of a text, and of the text that follows [n] characters. *)
Definition lines_within (n k : nat) (s : str) : Prop :=
  match split_char LF s with
  | [] => True
  | l :: ls => (n + length l <= k)%nat /\ Forall (fun l => (length l <= k)%nat) ls
  end.

Lemma split_char_nonempty sep s : split_char sep s <> [].
Proof. induction s as [|c s IH]; [done|]. cbn. destruct (c =? sep), (split_char sep s); done. Qed.

Lemma lines_within_nil n k : (n <= k)%nat -> lines_within n k [].
Proof. intros. unfold lines_within. cbn. split; [lia|constructor]. Qed.

Lemma lines_within_cons n k c s : c <> LF -> lines_within (S n) k s -> lines_within n k (c :: s).
Proof.
  unfold lines_within. intros Hc. cbn. rewrite (proj2 (Z.eqb_neq c LF)) by done.
  pose proof (split_char_nonempty LF s). destruct (split_char LF s) as [|l ls]; cbn; [done|]. intros []. split; [lia|done].
Qed.

Lemma lines_within_lf n k s : (n <= k)%nat -> lines_within 0 k s -> lines_within n k (LF :: s).
Proof.
  unfold lines_within. cbn. intros Hn. pose proof (split_char_nonempty LF s).
  destruct (split_char LF s) as [|l ls]; [done|]. intros [Hl Hls]. split; [lia|]. by constructor.
Qed.

Lemma lines_within_app n k t s : LF ∉ t -> lines_within (n + length t) k s -> lines_within n k (t ++ s).
Proof.
  revert n. induction t as [|c t IH]; intros n Ht Hs; cbn in *; [by rewrite Nat.add_0_r in Hs|].
  apply not_elem_of_cons in Ht as [Hc Ht]. apply lines_within_cons; [congruence|].
  apply IH; [done|]. by rewrite <- Nat.add_succ_comm in Hs.
Qed.

(** What the tokens look like. *)
Definition token_ok (f : Z -> str) (b : Z) : bool :=
  forallb (fun c => negb (c =? LF) && (0 <=? c) && (c <? 128)) (f b) && (length (f b) <=? 3)%nat.

Lemma qp_token_ok b : in_range u8_max b -> token_ok qp_token b = true.
Proof. apply byte_check. vm_compute. reflexivity. Qed.

Lemma token_ok_spec f b : token_ok f b = true ->
  (LF ∉ f b) /\ Forall (fun c => 0 <= c < 128) (f b) /\ (length (f b) <= 3)%nat.
Proof.
  unfold token_ok. intros Ht. bool_facts. rewrite forallb_forall in *. split; [|split; [|done]].
  - intros Hin%list_elem_of_In%H. bool_facts. done.
  - apply Forall_forall. intros c Hc%list_elem_of_In%H. bool_facts. lia.
Qed.

(** Soft line breaks keep every line within 76 characters and the carriage
    return. *)
Lemma qp_lines b : valid_bytes b -> forall (line_len : nat) skip, (line_len <= 75)%nat ->
  lines_within line_len 77 (qp_encode_from (Z.of_nat line_len) skip b).
Proof.
  induction 1 as [|byte rest Hb _ IH]; intros n skip Hn; [apply lines_within_nil; lia|]. cbn [qp_encode_from].
  destruct skip; [by apply IH|]. destruct ((byte =? CR) && _).
  - apply lines_within_cons; [done|]. apply lines_within_lf; [lia|]. apply (IH 0%nat). lia.
  - pose proof (token_ok_spec _ _ (qp_token_ok _ Hb)) as (Hlf & Hasc & Hlen). unfold qp_push_token, str_len.
    rewrite utf8_encode_ascii by done. unfold saturating_add.
    assert (forall x, 0 <= x <= 80 -> usize_max `min` x = x) as Hmin by (unfold usize_max, u64_max; lia).
    rewrite (Hmin (Z.of_nat n + _)) by lia.
    destruct (Z.ltb_spec 75 (Z.of_nat n + Z.of_nat (length (qp_token byte)))); rewrite Hmin by lia.
    + rewrite <- !(assoc_L (++)). apply lines_within_cons; [done|]. apply lines_within_cons; [done|].
      apply lines_within_lf; [lia|]. apply lines_within_app; [done|]. rewrite Z.add_0_l. apply IH. lia.
    + rewrite app_nil_l. apply lines_within_app; [done|]. rewrite <- Nat2Z.inj_add. apply IH. lia.
Qed.

Lemma qp_encode_ascii b : valid_bytes b -> forall line_len skip,
  Forall (fun c => 0 <= c < 128) (qp_encode_from line_len skip b).
Proof.
  induction 1 as [|byte rest Hb _ IH]; intros n skip; [constructor|]. cbn [qp_encode_from].
  destruct skip; [apply IH|]. destruct (_ && _); [repeat (constructor; [unfold CR, LF; lia|]); apply IH|].
  unfold qp_push_token. pose proof (token_ok_spec _ _ (qp_token_ok _ Hb)) as (_ & Hasc & _).
  rewrite !Forall_app. split; [split; [|done]|apply IH].
  destruct (75 <? _); repeat constructor; unfold CR, LF; lia.
Qed.

(** ** Base64 *)

(** The alphabet of RFC 4648 base64 and its padding. *)
Definition b64_char (c : Z) : bool :=
  ((65 <=? c) && (c <=? 90)) || ((97 <=? c) && (c <=? 122)) || ((48 <=? c) && (c <=? 57)) ||
  (c =? 43) || (c =? 47) || (c =? 61).

(** What [data-encoding] documents: decoding undoes encoding, and the output
    is made of the characters of the alphabet. *)
Class Base64Laws `{Base64} := {
  b64_roundtrip : forall b, valid_bytes b -> b64_decode (b64_encode b) = Some b;
  b64_chars : forall b, valid_bytes b -> Forall (fun c => b64_char c = true) (b64_encode b);
}.

Lemma b64_char_plain c : b64_char c = true -> (0 <= c < 128 /\ is_ascii_whitespace c = false) /\ c <> 45.
Proof.
  intros Hc. assert (43 <= c < 128) as Hr by (unfold b64_char in Hc; rewrite !orb_true_iff in Hc; intuition; bool_facts; lia).
  split; [split; [lia|]|by intros ->]. unfold is_ascii_whitespace. rewrite !orb_false_iff, !Z.eqb_neq. lia.
Qed.

Lemma b64_alphabet `{Base64Laws} b : valid_bytes b ->
  Forall (fun c => 0 <= c < 128 /\ is_ascii_whitespace c = false) (b64_encode b).
Proof. intros Hb. eapply Forall_impl; [by apply b64_chars|]. intros c Hc. by apply b64_char_plain. Qed.

Lemma wrap_filter width input : forall line_len,
  Forall (fun c => is_ascii_whitespace c = false) input ->
  filter (fun ch => is_ascii_whitespace ch = false) (wrap_from width line_len input) = input.
Proof.
  induction input as [|c input IH]; intros n Hf; [done|]. apply Forall_cons in Hf as [Hc Hf]. cbn [wrap_from].
  destruct (width <=? n); cbn [app CRLF]; rewrite ?(filter_cons_False _ CR), ?(filter_cons_False _ LF) by done;
    rewrite filter_cons_True by done; f_equal; by apply IH.
Qed.

Lemma wrap_lines input : Forall (fun c => 0 <= c < 128 /\ is_ascii_whitespace c = false) input ->
  forall line_len : nat, (line_len <= 76)%nat -> lines_within line_len 77 (wrap_from 76 (Z.of_nat line_len) input).
Proof.
  induction 1 as [|c input [Hc Hw] _ IH]; intros n Hn; [apply lines_within_nil; lia|]. cbn [wrap_from].
  assert (c <> LF) as Hlf by (intros ->; done).
  assert (length (encode_char c) = 1%nat) as -> by (unfold encode_char; by rewrite (proj2 (Z.ltb_lt c 0x80)) by lia).
  unfold saturating_add. rewrite !(Z.min_r usize_max) by (destruct (76 <=? _); unfold usize_max, u64_max; lia).
  destruct (Z.leb_spec 76 (Z.of_nat n)).
  - apply lines_within_cons; [done|]. apply lines_within_lf; [lia|]. apply lines_within_cons; [done|].
    apply (IH 1%nat). lia.
  - apply lines_within_cons; [done|]. replace (Z.of_nat n + Z.of_nat 1) with (Z.of_nat (S n)) by lia. apply IH. lia.
Qed.

(** ** Encoded words *)

Lemma q_token_ok b : in_range u8_max b -> token_ok q_token b = true.
Proof. apply byte_check. vm_compute. reflexivity. Qed.

(** Neither a question mark nor a line break is left in an encoded word. *)
Lemma q_token_plain b : in_range u8_max b -> forallb (fun c => negb (c =? 63) && negb (c =? CR)) (q_token b) = true.
Proof. apply (byte_check (fun b => forallb (fun c => negb (c =? 63) && negb (c =? CR)) (q_token b))). vm_compute. reflexivity. Qed.

Lemma q_decode_token b (rest : bytes) : in_range u8_max b ->
  qp_decode_from true 0 (q_token b ++ rest) = (b ::.) <$> qp_decode_from true 0 rest.
Proof.
  intros Hb. unfold q_token. destruct (Z.eqb_spec b 32) as [->|Hne].
  - cbn. by destruct (qp_decode_from true 0 rest).
  - destruct (q_literal b) eqn:Hl; [|by apply qp_decode_escape].
    assert (b <> 95 /\ b <> 61) as [H95 H61] by (split; intros ->; done).
    cbn. rewrite (proj2 (Z.eqb_neq b 95)), (proj2 (Z.eqb_neq b 61)) by done. cbn.
    by destruct (qp_decode_from true 0 rest).
Qed.

Lemma q_decode_tokens b : valid_bytes b -> qp_decode_from true 0 (b ≫= q_token) = Ok b.
Proof. induction 1 as [|x b Hx _ IH]; [done|]. cbn. by rewrite q_decode_token, IH. Qed.

Lemma q_tokens_plain b : valid_bytes b ->
  Forall (fun c => 0 <= c < 128 /\ c <> 63 /\ c <> CR /\ c <> LF) (b ≫= q_token).
Proof.
  induction 1 as [|x b Hx _ IH]; [constructor|]. cbn. apply Forall_app. split; [|done].
  destruct (token_ok_spec _ _ (q_token_ok _ Hx)) as (Hlf & Ha & _).
  pose proof (q_token_plain _ Hx) as Hp. rewrite forallb_forall in Hp.
  rewrite Forall_forall in Ha |- *. intros c Hc. specialize (Ha c Hc).
  pose proof Hc as Hc'. apply list_elem_of_In in Hc'. specialize (Hp c Hc'). bool_facts.
  repeat split; try lia. congruence.
Qed.

(** The bytes of a string are bytes. *)
Lemma encode_char_valid c : is_scalar c = true -> valid_bytes (encode_char c).
Proof.
  intros Hs%scalar_cases. unfold encode_char, valid_bytes, in_range, u8_max.
  repeat case_match; bool_facts; repeat constructor; dlia.
Qed.

Lemma utf8_encode_valid s : valid_str s -> valid_bytes (utf8_encode s).
Proof.
  induction 1 as [|c s Hc _ IH]; [constructor|]. unfold utf8_encode. cbn.
  apply Forall_app. split; [by apply encode_char_valid|done].
Qed.

Lemma q_encode_header_ascii v : valid_str v ->
  Forall (fun c => 0 <= c < 128 /\ c <> CR /\ c <> LF) (q_encode_header v).
Proof.
  intros Hv. unfold q_encode_header. repeat (apply Forall_app; split).
  - vm_compute. repeat constructor; discriminate.
  - eapply Forall_impl; [by apply q_tokens_plain, utf8_encode_valid|]. cbn. intuition.
  - vm_compute. repeat constructor; discriminate.
Qed.

Section words.
Context `{Base64}.

Lemma decode_words_S fuel s :
  decode_words_from (S fuel) s =
  match split_once (lit "=?") s with
  | None => Some (Ok s)
  | Some (before, after_start) =>
      match word_fields after_start with
      | None => Some (Ok s)
      | Some (charset, encoding, encoded, rest) =>
          match decode_word charset encoding encoded with
          | Err e => Some (Err e)
          | Ok decoded => r ← decode_words_from fuel rest;
              Some ((fun out => before ++ decoded ++ out) <$> (r : result str str))
          end
      end
  end.
Proof. done. Qed.

Lemma decode_words_plain fuel s : contains (lit "=?") s = false -> decode_words_from (S fuel) s = Some (Ok s).
Proof. unfold contains. rewrite decode_words_S. by destruct (split_once (lit "=?") s) as [[]|]. Qed.

(** Every round of the loop consumes a complete word. *)
Lemma decode_words_total fuel s : (length s < fuel)%nat -> is_Some (decode_words_from fuel s).
Proof.
  revert s. induction fuel as [|fuel IH]; intros s Hs; [lia|]. cbn [decode_words_from].
  destruct (split_once (lit "=?") s) as [[before after]|] eqn:E1; [|by eexists].
  destruct (word_fields after) as [[[[cs enc] txt] rest]|] eqn:E2; [|by eexists].
  destruct (decode_word cs enc txt); [|by eexists].
  assert (length rest < length s)%nat as Hlt.
  { unfold word_fields in E2. apply bind_Some in E2 as ([a1 b1] & F1%split_once_Some & E2).
    apply bind_Some in E2 as ([a2 b2] & F2%split_once_Some & E2).
    apply bind_Some in E2 as ([a3 b3] & F3%split_once_Some & E2). simplify_eq.
    apply split_once_Some in E1. rewrite E1. rewrite !length_app. change (length (lit "=?")) with 2%nat. lia. }
  destruct (IH rest) as [r ->]; [lia|]. by eexists.
Qed.

Lemma decode_words_q v : valid_str v -> decode_encoded_words (q_encode_header v) = Ok v.
Proof.
  intros Hv. pose proof (utf8_encode_valid _ Hv) as Hb. pose proof (q_tokens_plain _ Hb) as Hp.
  unfold decode_encoded_words. set (t := utf8_encode v ≫= q_token) in *.
  assert (63 ∉ t) as Hq by (rewrite Forall_forall in Hp; intros Hin%Hp; lia).
  assert (length (q_encode_header v) = S (11 + length t))%nat as Hlen.
  { unfold q_encode_header. fold t. rewrite !length_app. change (length (lit "=?UTF-8?Q?")) with 10%nat.
    change (length (lit "?=")) with 2%nat. lia. }
  rewrite Hlen, decode_words_S.
  change (q_encode_header v) with ([] ++ lit "=?" ++ (lit "UTF-8" ++ lit "?" ++ (lit "Q" ++ lit "?" ++ (t ++ lit "?=" ++ [])))).
  rewrite (split_once_here 61 [63]) by apply not_elem_of_nil.
  assert (word_fields (lit "UTF-8" ++ lit "?" ++ lit "Q" ++ lit "?" ++ t ++ lit "?=" ++ [])
    = Some (lit "UTF-8", lit "Q", t, [])) as ->.
  { unfold word_fields. rewrite (split_once_here 63 []) by (vm_compute; set_solver).
    cbn [mbind option_bind]. rewrite (split_once_here 63 []) by (vm_compute; set_solver).
    cbn [mbind option_bind]. by rewrite (split_once_here 63 [61]) by done. }
  assert (decode_word (lit "UTF-8") (lit "Q") t = Ok v) as ->.
  { unfold decode_word. change (bool_decide (to_ascii_lowercase (lit "UTF-8") = lit "utf-8")) with true.
    change (bool_decide (to_ascii_lowercase (lit "Q") = lit "b")) with false.
    change (bool_decide (to_ascii_lowercase (lit "Q") = lit "q")) with true. cbn [orb].
    unfold qp_decode. rewrite utf8_encode_ascii by (eapply Forall_impl; [exact Hp|]; cbn; lia).
    pose proof (q_decode_tokens _ Hb) as Hd. fold t in Hd. rewrite Hd. cbn. by rewrite from_utf8_encode. }
  rewrite decode_words_plain by done. cbn. by rewrite app_nil_r.
Qed.
End words.

(** ** Header lines *)

Definition unbroken (s : str) : Prop := Forall (fun c => c <> CR /\ c <> LF) s.

Lemma split_char_Forall (P : Z -> Prop) sep s : Forall P s -> Forall (Forall P) (split_char sep s).
Proof.
  induction 1 as [|c s Hc _ IH]; [repeat constructor|]. cbn. destruct (c =? sep); [by repeat constructor|].
  destruct IH; repeat constructor; done.
Qed.

(** The first piece of a text keeps a prefix without separators. *)
Lemma split_char_prefix sep a s : sep ∉ a -> exists p ps, split_char sep (a ++ s) = (a ++ p) :: ps.
Proof.
  induction a as [|c a IH]; intros Ha; cbn.
  - pose proof (split_char_nonempty sep s). destruct (split_char sep s) as [|p ps]; [done|]. by exists p, ps.
  - apply not_elem_of_cons in Ha as [Hne Ha]. destruct (IH Ha) as (p & ps & ->).
    rewrite (proj2 (Z.eqb_neq c sep)) by congruence. by exists p, ps.
Qed.

(** Folding writes pieces of the line, joined by a line break and a space. *)
Definition fold_sep : str := CRLF ++ [32].

Lemma join_snoc sep (l : list str) p : l <> [] -> join sep (l ++ [p]) = join sep l ++ sep ++ p.
Proof.
  induction l as [|x l IH]; [done|]. intros _. destruct l as [|y l]; [done|].
  cbn [app join] in *. rewrite IH by done. by rewrite <- !(assoc_L (++)).
Qed.

Lemma join_nonempty sep x (l : list str) : x <> [] -> join sep (x :: l) <> [].
Proof. destruct x; [done|]. by destruct l. Qed.

Lemma fold_words_shape words : Forall unbroken words ->
  forall (pieces : list str) first current,
  head (pieces ++ [current]) = Some first -> first <> [] -> Forall unbroken (pieces ++ [current]) ->
  exists pieces' current' more,
    fold_words words (join fold_sep pieces) current = (join fold_sep pieces', current') /\
    head (pieces' ++ [current']) = Some (first ++ more) /\ Forall unbroken (pieces' ++ [current']).
Proof.
  induction 1 as [|word words Hw _ IH]; intros pieces first current Hhd Hne Hu.
  { exists pieces, current, []. rewrite app_nil_r. done. }
  cbn [fold_words]. rewrite Forall_app, Forall_singleton in Hu. destruct Hu as [Hup Huc].
  destruct (negb (bool_decide (current = [])) && _) eqn:Hb.
  - bool_facts.
    assert ((if bool_decide (join fold_sep pieces = []) then current
             else join fold_sep pieces ++ CRLF ++ [32] ++ current) = join fold_sep (pieces ++ [current])) as ->.
    { destruct pieces as [|p ps]; [done|]. cbn in Hhd. injection Hhd as ->.
      rewrite bool_decide_eq_false_2 by (by apply join_nonempty). rewrite join_snoc by done. done. }
    destruct (IH (pieces ++ [current]) first word) as (ps & c & more & Hf & Hh & Hu').
    + destruct pieces; done.
    + done.
    + by rewrite !Forall_app, !Forall_singleton.
    + by exists ps, c, more.
  - set (cur := current ++ _ ++ word).
    assert (unbroken cur) as Hcur.
    { unfold cur, unbroken. rewrite !Forall_app. split; [done|]. split; [|done].
      case_bool_decide; repeat constructor; done. }
    destruct pieces as [|p ps].
    + cbn in Hhd. injection Hhd as ->.
      destruct (IH [] cur cur) as (ps & c & more & Hf & Hh & Hu');
        [done|unfold cur; by destruct first|by apply Forall_singleton|].
      exists ps, c, ((if bool_decide (first = []) then [] else [32]) ++ word ++ more).
      split; [done|]. split; [|done]. rewrite Hh. unfold cur. by rewrite <- !(assoc_L (++)).
    + cbn in Hhd. injection Hhd as ->.
      destruct (IH (first :: ps) first cur) as (ps' & c & more & Hf & Hh & Hu');
        [done|done|by rewrite Forall_app, Forall_singleton|]. by exists ps', c, more.
Qed.

(** A header line and its continuation lines. *)
Definition header_block (name : str) (lines : list str) : Prop :=
  exists first rest, lines = first :: rest /\ starts_with (name ++ lit ":") first = true /\
  Forall (fun l => starts_with [32] l = true) rest /\ Forall unbroken lines.

Definition with_breaks (lines : list str) : str := l ← lines; l ++ CRLF.

Lemma join_with_breaks (pieces : list str) first :
  join fold_sep (first :: pieces) ++ CRLF = with_breaks (first :: (([32] ++.) <$> pieces)).
Proof.
  revert first. induction pieces as [|p ps IH]; intros first; [cbn; by rewrite app_nil_r|].
  specialize (IH p). unfold with_breaks in *. cbn [fmap list_fmap mbind list_bind join] in *.
  rewrite <- !(assoc_L (++)) in *. unfold fold_sep in *. cbn [app] in *. rewrite IH. done.
Qed.

Lemma utf8_encode_elem c x s : c ∈ s -> x ∈ encode_char c -> x ∈ utf8_encode s.
Proof. intros Hc Hx. unfold utf8_encode. apply list_elem_of_bind. eauto. Qed.

Lemma name_plain name : validate_header_name name = Ok () -> (32 ∉ name) /\ unbroken name.
Proof.
  unfold validate_header_name. destruct (_ || _) eqn:Hv; [done|]. intros _. bool_facts.
  rewrite forallb_forall in *.
  assert (forall c, c ∈ name -> 33 <= c) as Hc.
  { intros c Hc. destruct (Z.lt_ge_cases c 128) as [Hlt|]; [|lia].
    assert (c ∈ encode_char c) as Hin
      by (unfold encode_char; rewrite (proj2 (Z.ltb_lt c 0x80)) by lia; by constructor).
    assert (name_byte_ok c = true) as Hok by (apply H0, list_elem_of_In; eauto using utf8_encode_elem).
    unfold name_byte_ok in Hok. bool_facts. apply orb_true_iff in H1 as [H1|H1]; bool_facts; lia. }
  split; [intros Hin%Hc; lia|]. apply Forall_forall. unfold CR, LF. intros c Hin%Hc. lia.
Qed.

Lemma value_unbroken value : validate_header_value value = Ok () -> unbroken value.
Proof.
  unfold validate_header_value. destruct (existsb _ _) eqn:Hv; [done|]. intros _.
  apply Forall_forall. intros c Hc. apply not_true_iff_false in Hv. rewrite existsb_exists in Hv.
  split; intros ->; apply Hv; eexists; (split; [apply list_elem_of_In, (utf8_encode_elem _ _ _ Hc); by constructor|done]).
Qed.

Lemma maybe_encode_unbroken value : valid_str value -> unbroken value -> unbroken (maybe_encode_header_value value).
Proof.
  intros Hv Hu. unfold maybe_encode_header_value. destruct (is_ascii value); [done|].
  eapply Forall_impl; [by apply q_encode_header_ascii|]. cbn. intuition.
Qed.

(** One header is one block. *)
Lemma fold_header_block name value : (32 ∉ name) -> unbroken name -> unbroken value ->
  exists lines, fold_header_line name value ++ CRLF = with_breaks lines /\ header_block name lines.
Proof.
  intros Hsp Hn Hv. unfold fold_header_line. set (line := name ++ lit ": " ++ value).
  assert (unbroken line) as Hl by (unfold line, unbroken; repeat (apply Forall_app; split); try done; by repeat constructor).
  assert (exists lines, line ++ CRLF = with_breaks lines /\ header_block name lines) as Hone.
  { exists [line]. unfold with_breaks. cbn. rewrite app_nil_r. split; [done|]. exists line, [].
    split; [done|]. split; [|split; [done|by constructor]]. apply starts_with_true.
    exists ([32] ++ value). unfold line. by rewrite <- !(assoc_L (++)). }
  destruct (str_len line <=? 78); [done|].
  destruct (split_char_prefix 32 (name ++ lit ":") ([32] ++ value)) as (p & ps & Hsplit).
  { intros [Hin|Hin]%elem_of_app; [done|]. vm_compute in Hin. set_solver. }
  rewrite <- (assoc_L (++)) in Hsplit. change (lit ":" ++ [32] ++ value) with (lit ": " ++ value) in Hsplit.
  fold line in Hsplit. pose proof (split_char_Forall _ 32 line Hl) as Hws.
  rewrite Hsplit in Hws |- *. apply Forall_cons in Hws as [Hw Hws]. cbn [fold_words].
  rewrite bool_decide_eq_true_2 by done. cbn [negb andb app].
  assert ((name ++ lit ":") ++ p <> []) as Hne by (by destruct name).
  destruct (fold_words_shape ps Hws [] _ ((name ++ lit ":") ++ p) eq_refl Hne) as (pieces & current & more & Hf & Hh & Hu);
    [by apply Forall_singleton|].
  cbn [join app] in Hf. change ([] ++ ?x) with x. rewrite Hf. destruct pieces as [|first rest]; [done|].
  cbn in Hh. injection Hh as ->.
  rewrite bool_decide_eq_false_2 by (apply join_nonempty; by destruct name).
  exists ((((name ++ lit ":") ++ p) ++ more) :: (([32] ++.) <$> (rest ++ [current]))). split.
  - rewrite <- join_with_breaks. rewrite app_comm_cons, join_snoc by done. unfold fold_sep. by rewrite <- !(assoc_L (++)).
  - exists (((name ++ lit ":") ++ p) ++ more), (([32] ++.) <$> (rest ++ [current])). split; [done|]. split; [|split].
    + apply starts_with_true. exists (p ++ more). by rewrite <- !(assoc_L (++)).
    + apply Forall_fmap, Forall_forall. done.
    + rewrite <- app_comm_cons in Hu. apply Forall_cons in Hu as [Hu1 Hu2]. constructor; [done|].
      apply Forall_fmap. eapply Forall_impl; [exact Hu2|]. cbn. intros x Hx. constructor; [done|exact Hx].
Qed.

Lemma render_headers_blocks hs out :
  Forall (fun h => valid_str (h_value h)) hs -> render_headers hs = Ok out ->
  exists blocks, out = with_breaks (concat blocks) /\ Forall2 (fun h b => header_block (h_name h) b) hs blocks.
Proof.
  intros Hv. revert out. induction Hv as [|h hs Hh _ IH]; intros out; cbn [render_headers].
  - intros [= <-]. by exists [].
  - intros ([] & Hn%name_plain & Hr)%bind_Ok. apply bind_Ok in Hr as ([] & Hval%value_unbroken & Hr).
    apply bind_Ok in Hr as (out' & Hout & [= <-]). destruct (IH _ Hout) as (blocks & -> & Hb).
    destruct (fold_header_block (h_name h) (maybe_encode_header_value (h_value h))) as (lines & Hl & Hblock);
      [apply Hn|apply Hn|by apply maybe_encode_unbroken|].
    exists (lines :: blocks). split; [|by constructor]. change (CR :: LF :: ?x) with (CRLF ++ x). rewrite app_assoc, Hl.
    unfold with_breaks. cbn. by rewrite bind_app.
Qed.

(** ** Boundaries *)

Definition hex_digit_value (c : Z) : Z := if c <? 58 then c - 48 else c - 87.
Definition hex_number (s : str) : Z := foldl (fun acc c => 16 * acc + hex_digit_value c) 0 s.

Lemma hex_number_digits fuel n : 0 <= n < 16 ^ Z.of_nat fuel -> hex_number (hex_digits fuel n) = n.
Proof.
  revert n. induction fuel as [|fuel IH]; intros n Hn; [cbn in *; lia|]. cbn [hex_digits].
  unfold hex_number in *. rewrite foldl_app. cbn [foldl].
  assert (hex_digit_value (hex_lower (n mod 16)) = n mod 16) as ->.
  { pose proof (Z.mod_pos_bound n 16 ltac:(lia)). unfold hex_digit_value, hex_lower.
    destruct (Z.ltb_spec (n mod 16) 10); [rewrite (proj2 (Z.ltb_lt _ _)) by lia; lia|].
    rewrite (proj2 (Z.ltb_ge _ _)) by lia. lia. }
  destruct (Z.ltb_spec n 16); [cbn; rewrite Z.mod_small by lia; lia|].
  rewrite IH; [pose proof (Z.div_mod n 16); lia|].
  rewrite Nat2Z.inj_succ, Z.pow_succ_r in Hn by lia. split; [apply Z.div_pos; lia|]. apply Z.div_lt_upper_bound; lia.
Qed.

Lemma show_hex_number w n : 0 <= n <= u64_max -> hex_number (show_hex w n) = n.
Proof.
  intros Hn. unfold show_hex, hex_number. rewrite foldl_app.
  assert (forall k, foldl (fun acc c => 16 * acc + hex_digit_value c) 0 (replicate k 48) = 0) as ->
    by (induction k; cbn; auto).
  apply (hex_number_digits 16). unfold u64_max in Hn. change (16 ^ Z.of_nat 16) with (2 ^ 64). lia.
Qed.

Lemma boundary_text_inj seed i j :
  0 <= i <= u64_max -> 0 <= j <= u64_max -> boundary_text seed i = boundary_text seed j -> i = j.
Proof.
  intros Hi Hj. unfold boundary_text. intros Heq. do 3 apply app_inv_head in Heq.
  rewrite <- (show_hex_number 4 i), <- (show_hex_number 4 j) by done. by rewrite Heq.
Qed.

Lemma boundary_text_ascii seed i : utf8_encode (boundary_text seed i) = boundary_text seed i.
Proof.
  apply utf8_encode_ascii. unfold boundary_text, show_hex.
  assert (forall fuel n, Forall (fun c => 0 <= c < 128) (hex_digits fuel n)) as Hd.
  { induction fuel as [|fuel IH]; intros n; [constructor|]. cbn [hex_digits]. apply Forall_app. split.
    - destruct (n <? 16); [constructor|apply IH].
    - constructor; [|constructor]. pose proof (Z.mod_pos_bound n 16 ltac:(lia)).
      unfold hex_lower. destruct (Z.ltb_spec (n mod 16) 10); lia. }
  assert (forall k, Forall (fun c => 0 <= c < 128) (replicate k 48)) as Hr by (intros k; apply Forall_replicate; lia).
  assert (forall t, is_ascii (lit t) = true -> Forall (fun c => 0 <= c < 128) (lit t)) as Ht
    by (intros t; apply is_ascii_Forall).
  rewrite !Forall_app. split; [by apply Ht|]. split; [done|]. split; [by apply Ht|done].
Qed.

(** All the pieces of a text, and of the bodies of a message. *)
Definition pieces_of (s : str) : list str :=
  k ← seq 0 (S (length s)); n ← seq 0 (S (length s)); [take n (drop k s)].

Lemma bind_length_const {X Y} (f : X -> list Y) (l : list X) n :
  (forall x, length (f x) = n) -> length (l ≫= f) = (length l * n)%nat.
Proof. intros Hf. induction l as [|x l IH]; [done|]. cbn. rewrite length_app, Hf. lia. Qed.

Lemma pieces_of_length s : length (pieces_of s) = (S (length s) * S (length s))%nat.
Proof.
  unfold pieces_of. rewrite (bind_length_const _ _ (S (length s))), length_seq; [done|].
  intros k. rewrite (bind_length_const _ _ 1%nat), length_seq by done. lia.
Qed.

Lemma contains_pieces pat s : contains pat s = true -> pat ∈ pieces_of s.
Proof.
  intros (a & b & ->)%contains_true. unfold pieces_of. apply list_elem_of_bind. exists (length a).
  split; [|apply elem_of_seq; rewrite !length_app; lia].
  apply list_elem_of_bind. exists (length pat). split; [|apply elem_of_seq; rewrite !length_app; lia].
  rewrite drop_app_length, take_app_length. by apply list_elem_of_singleton.
Qed.

(** Induction on messages and their parts. *)
Lemma mime_ind (Q : MimeMessage -> Prop) :
  (forall hs b ps e, Forall Q ps -> Q (mkMime hs b ps e)) -> forall m, Q m.
Proof.
  intros Hstep. fix rec 1. intros [hs b ps e]. apply Hstep.
  induction ps as [|p ps IH]; constructor; [apply rec|exact IH].
Qed.

Definition body_text (m : MimeMessage) : str :=
  match m_body m with Some (Text t) => t | Some (Bytes b) => b | None => [] end.

(** The bodies of a message and of all its parts. *)
Fixpoint body_texts (m : MimeMessage) : list str :=
  body_text m ::
  (fix go (ps : list MimeMessage) := match ps with [] => [] | p :: rest => body_texts p ++ go rest end) (m_parts m).

(** How many candidates the bodies can rule out. *)
Definition search_space (m : MimeMessage) : nat :=
  sum_list ((fun t => S (length t) * S (length t))%nat <$> body_texts m).

Lemma body_texts_parts m p t : p ∈ m_parts m -> t ∈ body_texts p -> t ∈ body_texts m.
Proof.
  destruct m as [hs b ps e]. cbn. intros Hp Ht. right. induction ps as [|q ps IH]; [by apply not_elem_of_nil in Hp|].
  apply elem_of_app. apply elem_of_cons in Hp as [->|Hp]; [by left|right; by apply IH].
Qed.

Lemma contains_boundary_pieces m seed i :
  message_contains_boundary m (boundary_text seed i) = true ->
  exists t, t ∈ body_texts m /\ boundary_text seed i ∈ pieces_of t.
Proof.
  induction m as [hs b ps e IH] using mime_ind. cbn [message_contains_boundary m_body m_parts].
  intros [Hb|Hp]%orb_true_iff.
  - exists (body_text (mkMime hs b ps e)). split; [by left|].
    destruct b as [[t|b]|]; [by apply contains_pieces| |done].
    rewrite boundary_text_ascii in Hb. by apply contains_pieces.
  - apply existsb_exists in Hp as (p & Hp%list_elem_of_In & Hc). rewrite Forall_forall in IH.
    destruct (IH p Hp Hc) as (t & Ht & Hin). exists t. split; [|done]. by apply (body_texts_parts _ p).
Qed.

Lemma search_space_pieces m : search_space m = length (body_texts m ≫= pieces_of).
Proof.
  unfold search_space. induction (body_texts m) as [|t l IH]; [done|].
  cbn [fmap list_fmap sum_list mbind list_bind]. rewrite length_app, pieces_of_length. rewrite <- IH. done.
Qed.

(** Ruled-out candidates are distinct pieces of the bodies. *)
Lemma boundary_blocked fuel m seed attempt :
  0 <= attempt -> attempt + Z.of_nat fuel <= 2 ^ 64 -> boundary_from fuel m seed attempt = None ->
  Forall (fun i => message_contains_boundary m (boundary_text seed i) = true)
    ((fun k => attempt + Z.of_nat k) <$> seq 0 fuel).
Proof.
  revert attempt. induction fuel as [|fuel IH]; intros attempt H0 Hmax; [constructor|]. cbn [boundary_from].
  destruct (message_contains_boundary m (boundary_text seed attempt)) eqn:Hc; [|done]. intros Hrec.
  cbn [seq fmap list_fmap]. constructor; [by rewrite Z.add_0_r|].
  destruct fuel as [|fuel]; [constructor|].
  rewrite <- fmap_S_seq, <- list_fmap_compose.
  assert (saturating_add u64_max attempt 1 = attempt + 1) as Hsat by (unfold saturating_add, u64_max; lia).
  rewrite Hsat in Hrec. apply IH in Hrec; [|lia|lia].
  rewrite Forall_fmap in Hrec |- *. eapply Forall_impl; [exact Hrec|]. cbn. intros k Hk.
  by replace (attempt + Z.of_nat (S k)) with (attempt + 1 + Z.of_nat k) by lia.
Qed.

Lemma boundary_from_fresh fuel m seed attempt b :
  boundary_from fuel m seed attempt = Some b -> message_contains_boundary m b = false.
Proof.
  revert attempt. induction fuel as [|fuel IH]; intros attempt; [done|]. cbn [boundary_from].
  destruct (message_contains_boundary m (boundary_text seed attempt)) eqn:Hc; [apply IH|]. by intros [= <-].
Qed.

Lemma boundary_found fuel m seed :
  (search_space m < fuel)%nat -> Z.of_nat fuel <= 2 ^ 64 -> is_Some (boundary_from fuel m seed 0).
Proof.
  intros Hs Hmax. destruct (boundary_from fuel m seed 0) as [b|] eqn:Hnone; [by eexists|]. exfalso.
  apply boundary_blocked in Hnone; [|lia|lia].
  set (l := (fun k => boundary_text seed (0 + Z.of_nat k)) <$> seq 0 fuel).
  assert (NoDup l) as Hnd.
  { apply NoDup_fmap_2_strong; [|apply NoDup_seq]. intros i j Hi%elem_of_seq Hj%elem_of_seq Heq.
    apply boundary_text_inj in Heq; unfold u64_max; lia. }
  assert (l ⊆+ (body_texts m ≫= pieces_of)) as Hsub.
  { apply NoDup_submseteq; [done|]. intros x (k & -> & Hk)%list_elem_of_fmap.
    rewrite Forall_fmap, Forall_forall in Hnone. specialize (Hnone k Hk). cbn in Hnone.
    apply contains_boundary_pieces in Hnone as (t & Ht & Hin). apply list_elem_of_bind. eauto. }
  apply submseteq_length in Hsub. unfold l in Hsub. rewrite length_fmap, length_seq in Hsub.
  rewrite search_space_pieces in Hs. lia.
Qed.

(** ** The parser *)

Definition lines_size (lines : list str) : nat := sum_list ((fun l => S (length l)) <$> lines).

Lemma split_char_size sep s : lines_size (split_char sep s) = S (length s).
Proof.
  induction s as [|c s IH]; [done|]. cbn. destruct (c =? sep); [unfold lines_size in *; cbn in *; lia|].
  pose proof (split_char_nonempty sep s). destruct (split_char sep s); [done|]. unfold lines_size in *. cbn in *. lia.
Qed.

Lemma strip_suffix_length pat s t : strip_suffix pat s = Some t -> (length t <= length s)%nat.
Proof. unfold strip_suffix. destruct (ends_with pat s); [|done]. intros [= <-]. rewrite length_take. lia. Qed.

Lemma trim_part_section_length s : (length (trim_part_section s) <= length s)%nat.
Proof.
  unfold trim_part_section. destruct (strip_suffix [LF] s) as [t|] eqn:E1; cbn;
    [apply strip_suffix_length in E1; destruct (strip_suffix [CR] t) as [u|] eqn:E2
    |destruct (strip_suffix [CR] s) as [u|] eqn:E2]; cbn; try (apply strip_suffix_length in E2); lia.
Qed.

(** A section is no longer than the lines it is collected from. *)
Lemma sections_size marker close lines : forall inside current secs,
  sections_from marker close lines inside current = Some secs ->
  Forall (fun s => (length s <= length current + lines_size lines)%nat) secs.
Proof.
  induction lines as [|line lines IH]; intros inside current secs; [done|]. cbn [sections_from].
  unfold lines_size in *. cbn [fmap list_fmap sum_list].
  pose proof (trim_part_section_length current) as Ht.
  assert (forall (cur : str) (secs' : list str), (length cur <= length current + S (length line))%nat ->
    Forall (fun s => (length s <= length cur + sum_list ((fun l : str => S (length l)) <$> lines))%nat) secs' ->
    Forall (fun s => (length s <= length current + (S (length line) + sum_list ((fun l : str => S (length l)) <$> lines)))%nat) secs') as Hmono.
  { intros cur secs' Hc Hf. eapply Forall_impl; [exact Hf|]. cbn. lia. }
  case_bool_decide.
  - intros (secs' & Hrec & ->)%fmap_Some. apply IH in Hrec. destruct inside; cbn; [constructor; [lia|]|];
      (eapply Hmono; [|exact Hrec]; cbn; lia).
  - case_bool_decide; [intros [= <-]; destruct inside; repeat constructor; lia|]. intros Hrec%IH.
    eapply Hmono; [|exact Hrec]. destruct inside; rewrite ?length_app; cbn; lia.
Qed.

Lemma parse_message_total `{Base64} fuel : forall raw, (length raw < fuel)%nat -> is_Some (parse_message_raw fuel raw).
Proof.
  induction fuel as [|fuel IH]; intros raw Hraw; [lia|]. cbn [parse_message_raw].
  destruct (split_header_body raw) as [[raw_headers raw_body]|] eqn:Hs; cbn [mbind result_bind]; [|by eexists].
  assert (length raw_body + 2 <= length raw)%nat as Hlen.
  { unfold split_header_body in Hs. destruct (split_once [LF; LF] raw) as [[a b]|] eqn:E; [|done].
    injection Hs as -> ->. apply split_once_Some in E. rewrite E, !length_app. cbn. lia. }
  destruct (parse_headers raw_headers) as [headers|]; cbn [mbind result_bind mret result_ret]; [|by eexists].
  match goal with |- context [if ?c then _ else _] => destruct c end; [|by eexists].
  destruct (parse_boundary _) as [boundary|]; cbn [ok_or mbind result_bind]; [|by eexists].
  destruct (multipart_sections raw_body boundary) as [sections|] eqn:Hm; [|by eexists].
  assert (Forall (fun s => (length s < fuel)%nat) sections) as Hsec.
  { unfold multipart_sections in Hm.
    destruct (sections_from _ _ _ _ _) as [secs|] eqn:E; [|done]. injection Hm as ->. apply sections_size in E.
    rewrite split_char_size in E. eapply Forall_impl; [exact E|]. cbn. lia. }
  match goal with |- is_Some (?go sections ≫= _) => assert (is_Some (go sections)) as [parts ->] end; [|by eexists].
  clear Hm. induction Hsec as [|s secs Hs' _ IHs]; [by eexists|].
  destruct (IH s Hs') as [[m|e] ->]; cbn [mbind option_bind]; [|by eexists].
  destruct IHs as [r ->]. by eexists.
Qed.

(** ** Properties *)

(** C38. The parser always returns: on every input the nesting of multipart
    sections and the encoded words of a header are used up, so that neither
    loop runs forever. *)
Theorem parse_always_returns `{Base64} (raw : str) :
  is_Some (parse_text raw) /\ is_Some (decode_words_from (S (length raw)) raw).
Proof. split; [apply parse_message_total; lia|apply decode_words_total; lia]. Qed.

(** The transfer encodings are lossless and keep the line limit: decoding a
    quoted-printable or base64 rendering gives the bytes back, and no line of
    either is longer than 76 characters (and the carriage return). *)
Theorem transfer_encodings_roundtrip `{Base64Laws} (b : bytes) :
  valid_bytes b ->
  qp_decode (qp_encode b) false = Ok b /\ lines_within 0 77 (qp_encode b) /\
  base64_decode_liberal (base64_encode_wrapped b) = Ok b /\ lines_within 0 77 (base64_encode_wrapped b).
Proof.
  intros Hb. pose proof (b64_alphabet b Hb) as Hal. split; [|split; [|split]].
  - unfold qp_decode, qp_encode. rewrite utf8_encode_ascii by (by apply qp_encode_ascii). by apply qp_decode_encode.
  - apply (qp_lines b Hb 0). lia.
  - unfold base64_decode_liberal, base64_encode_wrapped, wrap_ascii_line.
    rewrite wrap_filter by (eapply Forall_impl; [exact Hal|]; cbn; intuition).
    rewrite utf8_encode_ascii by (eapply Forall_impl; [exact Hal|]; cbn; intuition).
    by rewrite b64_roundtrip.
  - apply (wrap_lines _ Hal 0). lia.
Qed.

(** Header values survive encoding: a value that is not ASCII is written as
    one encoded word, an ASCII value without the start of one as it is, and
    decoding gives the value back. *)
Theorem header_value_roundtrip `{Base64} (v : str) :
  valid_str v -> (is_ascii v = true -> contains (lit "=?") v = false) ->
  decode_encoded_words (maybe_encode_header_value v) = Ok v.
Proof.
  intros Hv Hplain. unfold maybe_encode_header_value. destruct (is_ascii v); [|by apply decode_words_q].
  unfold decode_encoded_words. rewrite decode_words_plain by auto. done.
Qed.

(** C36. No header injection: a rendered header block is one block of lines per
    header, in order, whose first line starts with the header's name and a
    colon and whose other lines start with a space; no line contains a line
    break, whatever the values contain. *)
Theorem headers_not_injectable (hs : list Header) (out : str) :
  Forall (fun h => valid_str (h_value h)) hs -> render_headers hs = Ok out ->
  exists blocks, out = with_breaks (concat blocks) /\ Forall2 (fun h b => header_block (h_name h) b) hs blocks.
Proof. apply render_headers_blocks. Qed.

(** C37. The search for a boundary ends and finds one that occurs in no body:
    the candidates are distinct, so the bodies can rule out at most one per
    piece of text they have. *)
Theorem boundary_search_ends (m : MimeMessage) (fuel : nat) :
  (search_space m < fuel)%nat -> Z.of_nat fuel <= 2 ^ 64 ->
  exists b, generate_boundary fuel m = Some b /\ message_contains_boundary m b = false.
Proof.
  intros Hs Hmax. unfold generate_boundary.
  destruct (boundary_found fuel m (boundary_seed m 0xcbf29ce484222325) Hs Hmax) as [b Hb].
  exists b. split; [done|]. by eapply boundary_from_fresh.
Qed.

(** ** Examples *)

Module MimeDemo.
(** Base64 by hexadecimal pairs, which has the same laws. *)
Definition hex_codec : Base64 := {|
  b64_encode b := b ≫= hex_pair;
  b64_decode := (fix go (s : bytes) : option bytes :=
    match s with
    | [] => Some []
    | h :: l :: rest => hi ← hex_value h; lo ← hex_value l; out ← go rest; Some (Z.lor (Z.shiftl hi 4) lo :: out)
    | _ => None
    end) |}.
#[local] Existing Instance hex_codec.

Definition plain (text : string) : MimeMessage := mkMime [] (Some (Text (lit text))) [] None.
Definition multipart (parts : list MimeMessage) : MimeMessage := mkMime [] None parts None.

(** Nested multipart messages can collide: a part that is itself multipart,
    in a parent without headers or other parts, gets the boundary of its
    parent, for every content; the composed text then does not parse. *)
Theorem nested_boundaries_collide :
  (forall fuel parts, generate_boundary fuel (multipart [multipart parts]) = generate_boundary fuel (multipart parts)) /\
  exists text, compose_text 3 (multipart [multipart [plain "hello"]]) = Some (Ok text) /\
    parse_text text = Some (Err (lit "malformed MIME message: missing header/body separator")).
Proof.
  split.
  - intros fuel parts. unfold generate_boundary. 
    assert (forall b, message_contains_boundary (multipart [multipart parts]) b =
                      message_contains_boundary (multipart parts) b) as Hc.
    { intros b. cbn. by rewrite orb_false_r. }
    change (boundary_seed (multipart [multipart parts]) 0xcbf29ce484222325)
      with (boundary_seed (multipart parts) 0xcbf29ce484222325).
    generalize (boundary_seed (multipart parts) 0xcbf29ce484222325) as seed, 0 as attempt.
    induction fuel as [|fuel IH]; intros seed attempt; [done|]. cbn [boundary_from]. rewrite Hc. by rewrite IH.
  - exists (match compose_text 3 (multipart [multipart [plain "hello"]]) with Some (Ok t) => t | _ => [] end).
    split; vm_compute; reflexivity.
Qed.

Lemma header_value_roundtrip_witness :
  decode_encoded_words (maybe_encode_header_value [104; 0xE9; 32; 63]) = Ok [104; 0xE9; 32; 63].
Proof. apply header_value_roundtrip; [repeat constructor|vm_compute; discriminate]. Defined.

Lemma headers_not_injectable_witness :
  exists blocks, length blocks = 1%nat /\
    with_breaks (concat blocks) = lit "Subject: =?UTF-8?Q?a=C3=A9b?=" ++ CRLF.
Proof.
  assert (render_headers [mkHeader (lit "Subject") [97; 0xE9; 98]] =
    Ok (lit "Subject: =?UTF-8?Q?a=C3=A9b?=" ++ CRLF)) as Hr by (vm_compute; reflexivity).
  destruct (headers_not_injectable [mkHeader (lit "Subject") [97; 0xE9; 98]] _ ltac:(repeat constructor) Hr)
    as (blocks & Hb & Hf).
  exists blocks. split; [symmetry; exact (Forall2_length _ _ _ Hf)|symmetry; exact Hb].
Defined.

Lemma boundary_search_ends_witness :
  exists b, generate_boundary 37 (plain "hello") = Some b /\ message_contains_boundary (plain "hello") b = false.
Proof. apply boundary_search_ends; [apply Nat.ltb_lt; vm_compute; reflexivity|vm_compute; discriminate]. Defined.

Lemma hex_codec_laws : Base64Laws.
Proof.
  split.
  - induction 1 as [|x b Hx _ IH]; [done|]. pose proof (pair_ok_all x Hx) as Hp. unfold pair_ok in Hp. cbn in *.
    destruct (hex_value (hex_upper (x ≫ 4))), (hex_value (hex_upper (Z.land x 15))); bool_facts; try done.
    cbn. rewrite IH. cbn. congruence.
  - induction 1 as [|x b Hx _ IH]; [constructor|]. cbn. 
    assert (forallb b64_char (hex_pair x) = true) as Hp.
    { revert Hx. apply (byte_check (fun x => forallb b64_char (hex_pair x))). vm_compute. reflexivity. }
    cbn [hex_pair forallb] in Hp. bool_facts. by repeat constructor.
Qed.

Lemma transfer_encodings_roundtrip_witness :
  qp_decode (qp_encode [61; 200; 13; 10; 65]) false = Ok [61; 200; 13; 10; 65].
Proof.
  assert (valid_bytes [61; 200; 13; 10; 65]) as Hv by (repeat constructor; vm_compute; discriminate).
  exact (proj1 (transfer_encodings_roundtrip (H0 := hex_codec_laws) _ Hv)).
Defined.

(** Composing a message and parsing the text. *)
Definition roundtrip (m : MimeMessage) : option (result str ParsedMessage) :=
  match compose_text 3 m with Some (Ok text) => parse_text text | _ => None end.

(** An ASCII value that looks like an encoded word is written as it is. *)
Lemma literal_word_rejected :
  roundtrip (mkMime [mkHeader (lit "X") (lit "=?a?b?c?=")] (Some (Text [])) [] None) =
  Some (Err (lit "unsupported RFC 2047 charset")).
Proof. vm_compute. reflexivity. Qed.

(** Binary content in quoted-printable loses its carriage returns. *)
Lemma binary_quoted_printable_lossy :
  p_body <$> (roundtrip (mkMime [] (Some (Bytes [65; 13; 10])) [] (Some (lit "quoted-printable"))) ≫= result_ok) =
  Some (Some [65; 10]).
Proof. vm_compute. reflexivity. Qed.

(** With two spellings of the same header the composer changes the first and
    the parser reads the last. *)
Lemma duplicate_header_mismatch :
  roundtrip (mkMime [mkHeader (lit "content-type") (lit "multipart/mixed");
                     mkHeader (lit "Content-Type") (lit "multipart/mixed")] None [plain "hello"] None) =
  Some (Err (lit "multipart MIME message is missing boundary")).
Proof. vm_compute. reflexivity. Qed.
End MimeDemo.
