(* ===== verification/MimeLines.v ===== *)
(** * MimeLines: line breaks, words and folding of MIME text

    Lemmas on the text functions of [Mime] that the round trip of whole
    messages needs: what normalising line breaks does, how lines and words
    come apart again, and what the parser reads from a folded header. *)

From S2P Require Import Prelude Utf8 Str Mime MimeProps.

(** ** Line breaks *)

(** [normalize_raw_message] in one pass. *)
Fixpoint unify (s : str) : str :=
  match s with
  | [] => []
  | c :: r =>
      if c =? CR then
        match r with
        | d :: r' => if d =? LF then LF :: unify r' else LF :: unify r
        | [] => [LF]
        end
      else c :: unify r
  end.

(** Induction that takes a line break CR LF at once. *)
Lemma crlf_ind (Q : str -> Prop) :
  Q [] -> (forall r, Q r -> Q (CR :: LF :: r)) ->
  (forall r, (forall r', r <> LF :: r') -> Q r -> Q (CR :: r)) ->
  (forall c r, c <> CR -> Q r -> Q (c :: r)) -> forall s, Q s.
Proof.
  intros H0 H1 H2 H3 s. remember (length s) as n eqn:Hn. revert s Hn.
  induction n as [n IH] using lt_wf_ind. intros [|c r] Hn; [done|]. cbn in Hn.
  destruct (decide (c = CR)) as [->|Hc]; [|apply H3; [done|]; eapply IH; [|done]; lia].
  destruct r as [|d r].
  - apply H2; [done|]. by apply (IH 0%nat); [lia|].
  - destruct (decide (d = LF)) as [->|Hd].
    + apply H1. apply (IH (length r)); [cbn in Hn; lia|done].
    + apply H2; [congruence|]. eapply IH; [|done]. lia.
Qed.

Lemma unify_crlf r : unify (CR :: LF :: r) = LF :: unify r.
Proof. done. Qed.

Lemma unify_cr r : (forall r', r <> LF :: r') -> unify (CR :: r) = LF :: unify r.
Proof.
  intros Hr. destruct r as [|d r]; [done|]. change (unify (CR :: d :: r)) with (if d =? LF then LF :: unify r else LF :: unify (d :: r)).
  rewrite (proj2 (Z.eqb_neq d LF)); [done|]. intros ->. by eapply Hr.
Qed.

Lemma unify_other c r : c <> CR -> unify (c :: r) = c :: unify r.
Proof. intros Hc. cbn. by rewrite (proj2 (Z.eqb_neq c CR)). Qed.

Lemma replace_char x ys s : replace [x] ys s = s ≫= fun c => if x =? c then ys else [c].
Proof.
  unfold replace. induction s as [|c s IH]; [done|]. cbn. rewrite andb_true_r. destruct (x =? c); cbn; by rewrite IH.
Qed.

Lemma replace_crlf_eq r : replace CRLF [LF] (CR :: LF :: r) = LF :: replace CRLF [LF] r.
Proof. done. Qed.

Lemma replace_crlf_cr r : (forall r', r <> LF :: r') -> replace CRLF [LF] (CR :: r) = CR :: replace CRLF [LF] r.
Proof.
  intros Hr. unfold replace. cbn [replace_from]. destruct r as [|d r]; [done|].
  assert (starts_with CRLF (CR :: d :: r) = false) as ->; [|done].
  unfold CRLF. cbn [starts_with]. change (CR =? CR) with true. cbn [andb]. rewrite andb_true_r. apply Z.eqb_neq. intros <-. by eapply Hr.
Qed.

Lemma replace_crlf_other c r : c <> CR -> replace CRLF [LF] (c :: r) = c :: replace CRLF [LF] r.
Proof.
  intros Hc. unfold replace. cbn [replace_from]. unfold CRLF at 1. cbn [starts_with].
  by rewrite (proj2 (Z.eqb_neq CR c)) by congruence.
Qed.

Lemma normalize_raw_unify s : normalize_raw_message s = unify s.
Proof.
  unfold normalize_raw_message. rewrite replace_char.
  induction s as [|r IH|r Hr IH|c r Hc IH] using crlf_ind; [done|..].
  - rewrite replace_crlf_eq, unify_crlf, <- IH. done.
  - rewrite replace_crlf_cr, unify_cr, <- IH by done. done.
  - rewrite replace_crlf_other, unify_other, <- IH by done. cbn [mbind list_bind]. by rewrite (proj2 (Z.eqb_neq CR c)) by congruence.
Qed.

Lemma unify_no_cr s : CR ∉ unify s.
Proof.
  induction s as [|r IH|r Hr IH|c r Hc IH] using crlf_ind; [apply not_elem_of_nil|..].
  - rewrite unify_crlf. apply not_elem_of_cons. by split.
  - rewrite unify_cr by done. apply not_elem_of_cons. by split.
  - rewrite unify_other by done. apply not_elem_of_cons. by split.
Qed.

Lemma unify_id s : CR ∉ s -> unify s = s.
Proof.
  induction s as [|c s IH]; [done|]. intros [Hc Hs]%not_elem_of_cons. rewrite unify_other by done. by rewrite IH.
Qed.

(** Writing a line break after a text does not disturb it. *)
Lemma unify_app_crlf s r : unify (s ++ CRLF ++ r) = unify s ++ LF :: unify r.
Proof.
  induction s as [|s IH|s Hs IH|c s Hc IH] using crlf_ind; [done|..]; rewrite <- ?app_comm_cons.
  - by rewrite !unify_crlf, IH.
  - rewrite (unify_cr s) by done. rewrite unify_cr; [by rewrite IH|].
    intros r' Hr. destruct s as [|d s]; [done|]. injection Hr as -> _. by eapply Hs.
  - by rewrite !unify_other, IH.
Qed.

Lemma unify_append s r : (CR ∉ s) -> unify (s ++ r) = s ++ unify r.
Proof.
  induction s as [|c s IH]; [done|]. intros [Hc Hs]%not_elem_of_cons. rewrite <- app_comm_cons, unify_other by done. by rewrite IH.
Qed.

Lemma unbroken_no_cr s : unbroken s -> CR ∉ s.
Proof. unfold unbroken. intros Hu Hin. rewrite Forall_forall in Hu. by destruct (Hu CR Hin). Qed.
Lemma unbroken_no_lf s : unbroken s -> LF ∉ s.
Proof. unfold unbroken. intros Hu Hin. rewrite Forall_forall in Hu. by destruct (Hu LF Hin). Qed.

Lemma normalize_text_unify t : normalize_text_lines t = unify t ≫= fun c => if LF =? c then CRLF else [c].
Proof.
  unfold normalize_text_lines. rewrite replace_char. fold (normalize_raw_message t). by rewrite normalize_raw_unify.
Qed.

(** Line feeds become CR LF and back. *)
Lemma unify_expand s : CR ∉ s -> unify (s ≫= fun c => if LF =? c then CRLF else [c]) = s.
Proof.
  induction s as [|c s IH]; [done|]. intros [Hc Hs]%not_elem_of_cons. cbn [mbind list_bind].
  destruct (Z.eqb_spec LF c) as [<-|Hne]; [change (CRLF ++ ?x) with (CR :: LF :: x); by rewrite unify_crlf, IH|].
  change ([c] ++ ?x) with (c :: x). by rewrite unify_other, IH.
Qed.

Lemma unify_text t : unify (normalize_text_lines t) = unify t.
Proof. rewrite normalize_text_unify. apply unify_expand, unify_no_cr. Qed.

Lemma crlf_text t : replace CRLF [LF] (normalize_text_lines t) = unify t.
Proof.
  rewrite normalize_text_unify. generalize (unify_no_cr t). generalize (unify t). clear t.
  intros s. induction s as [|c s IH]; [done|]. intros [Hc Hs]%not_elem_of_cons. cbn [mbind list_bind].
  destruct (Z.eqb_spec LF c) as [<-|Hne]; [change (CRLF ++ ?x) with (CR :: LF :: x); by rewrite replace_crlf_eq, IH|].
  change ([c] ++ ?x) with (c :: x). by rewrite replace_crlf_other, IH.
Qed.

(** ** Splitting and trimming *)

Lemma split_lines_app sep a b : split_char sep (a ++ sep :: b) = split_char sep a ++ split_char sep b.
Proof.
  induction a as [|c a IH]; cbn; [by rewrite Z.eqb_refl|]. destruct (c =? sep); [by rewrite IH|]. rewrite IH.
  pose proof (split_char_nonempty sep a). by destruct (split_char sep a).
Qed.

Lemma split_char_one sep s : sep ∉ s -> split_char sep s = [s].
Proof.
  induction s as [|c s IH]; [done|]. intros [Hc Hs]%not_elem_of_cons. cbn. rewrite IH by done.
  by rewrite (proj2 (Z.eqb_neq c sep)) by congruence.
Qed.

Lemma split_char_join sep words : words <> [] -> Forall (fun w => sep ∉ w) words -> split_char sep (join [sep] words) = words.
Proof.
  intros Hne Hf. induction Hf as [|w words Hw Hf IH]; [done|].
  destruct words as [|w' words]; [by apply split_char_one|].
  change (join [sep] (w :: w' :: words)) with (w ++ sep :: join [sep] (w' :: words)).
  rewrite split_lines_app, IH by done. by rewrite split_char_one.
Qed.

(** The pieces of a text, put together again. *)
Lemma split_char_concat sep s : (l ← split_char sep s; l ++ [sep]) = s ++ [sep].
Proof.
  induction s as [|c s IH]; [done|]. cbn. destruct (Z.eqb_spec c sep) as [->|]; cbn; [by rewrite IH|].
  pose proof (split_char_nonempty sep s). destruct (split_char sep s); [done|]. cbn in *. by rewrite IH.
Qed.

Lemma drop_while_id p s : (forall c, head s = Some c -> p c = false) -> drop_while p s = s.
Proof. destruct s as [|c s]; [done|]. intros Hs. cbn. by rewrite (Hs c). Qed.

Lemma trim_id s : (forall c, head s = Some c -> is_whitespace c = false) ->
  (forall c, last s = Some c -> is_whitespace c = false) -> trim s = s.
Proof.
  intros Hh Hl. unfold trim, trim_end_while. rewrite (drop_while_id _ s) by done.
  rewrite drop_while_id; [apply rev_involutive|]. intros c Hc. apply Hl.
  rewrite rev_alt in Hc. change (rev_append s []) with (reverse s) in Hc. by rewrite head_reverse in Hc.
Qed.

Lemma trim_space s : trim (32 :: s) = trim s.
Proof. done. Qed.

(** Words: not empty and without white space. *)
Definition word_ok (w : str) : Prop := w <> [] /\ Forall (fun c => is_whitespace c = false) w.

Lemma word_no_space w : word_ok w -> 32 ∉ w.
Proof. intros [_ Hw] Hin. rewrite Forall_forall in Hw. by specialize (Hw 32 Hin). Qed.

Lemma join_cons sep w words : words <> [] -> join sep (w :: words) = w ++ sep ++ join sep words.
Proof. by destruct words. Qed.

Lemma join_last sep w words c : last (join sep (words ++ [w])) = Some c -> w <> [] -> last w = Some c.
Proof.
  intros Hl Hw. destruct words as [|x words]; [done|]. rewrite join_snoc in Hl by done.
  rewrite !last_app in Hl. by destruct (last w) eqn:E; [|apply last_None in E].
Qed.

Lemma trim_words words : Forall word_ok words -> trim (join [32] words) = join [32] words.
Proof.
  intros Hw. apply trim_id; intros c Hc.
  - destruct Hw as [|w words [Hne Hws] Hf]; [done|]. destruct w as [|d w]; [done|].
    assert (head (join [32] ((d :: w) :: words)) = Some d) as Hd by (by destruct words).
    rewrite Hd in Hc. injection Hc as <-. by inversion Hws.
  - destruct words as [|w words _] using rev_ind; [done|].
    apply Forall_app in Hw as [_ [Hne Hws]%Forall_singleton]. apply join_last in Hc; [|done].
    rewrite Forall_forall in Hws. apply Hws. by apply last_Some_elem_of.
Qed.

(** ** Folding *)

(** Folding groups the words of a line. *)
Lemma fold_words_groups words : Forall (fun w => w <> []) words ->
  forall (groups : list (list str)) (g : list str),
  Forall (Forall (fun w => w <> [])) groups -> Forall (fun g => g <> []) groups ->
  Forall (fun w => w <> []) g -> (g = [] -> groups = []) ->
  exists groups' g', fold_words words (join fold_sep (join [32] <$> groups)) (join [32] g) =
      (join fold_sep (join [32] <$> groups'), join [32] g') /\
    concat groups' ++ g' = concat groups ++ g ++ words /\ Forall (fun g => g <> []) groups' /\
    Forall (Forall (fun w => w <> [])) groups' /\ Forall (fun w => w <> []) g' /\ (g' = [] -> groups' = []).
Proof.
  assert (forall g : list str, Forall (fun w => w <> []) g -> join [32] g = [] <-> g = []) as Hnil.
  { intros g Hg. split; [|by intros ->]. destruct Hg as [|w g Hw _]; [done|].
    intros Hj. exfalso. revert Hj. by apply join_nonempty. }
  induction 1 as [|word words Hw Hwords IH]; intros groups g Hgs Hne Hg Hlast.
  { exists groups, g. by rewrite !app_nil_r. }
  cbn [fold_words].
  destruct (negb (bool_decide (join [32] g = [])) && _) eqn:Hb.
  - bool_facts. assert (g <> []) as Hg0 by (rewrite <- Hnil by done; done).
    assert ((if bool_decide (join fold_sep (join [32] <$> groups) = []) then join [32] g
             else join fold_sep (join [32] <$> groups) ++ CRLF ++ [32] ++ join [32] g) =
            join fold_sep (join [32] <$> (groups ++ [g]))) as ->.
    { rewrite fmap_app. cbn [fmap list_fmap]. destruct groups as [|g1 groups]; [done|].
      rewrite join_snoc, bool_decide_eq_false_2 by
        (try done; apply join_nonempty; inversion Hgs; inversion Hne; subst; rewrite Hnil; done). done. }
    change word with (join [32] [word]).
    destruct (IH (groups ++ [g]) [word]) as (groups' & g' & Heq & Hc & Hrest); try done.
    + apply Forall_app; split; [done|by repeat constructor].
    + apply Forall_app; split; [done|by repeat constructor].
    + by repeat constructor.
    + exists groups', g'. rewrite Heq, Hc, concat_app. cbn. rewrite app_nil_r, <- !(assoc_L (++)). done.
  - assert (join [32] g ++ (if bool_decide (join [32] g = []) then [] else [32]) ++ word = join [32] (g ++ [word])) as ->.
    { destruct g as [|w g]; [done|]. rewrite join_snoc, bool_decide_eq_false_2 by (try done; by rewrite Hnil). done. }
    destruct (IH groups (g ++ [word])) as (groups' & g' & Heq & Hc & Hrest); try done.
    + apply Forall_app; split; [done|by repeat constructor].
    + by destruct g.
    + exists groups', g'. rewrite Heq, Hc, <- !(assoc_L (++)). done.
Qed.

(** A folded line is its words again, grouped into lines. *)
Lemma fold_header_groups name words : Forall (fun w => w <> []) words -> Forall (fun w => 32 ∉ w) words -> words <> [] -> 32 ∉ name ->
  exists g groups, fold_header_line name (join [32] words) = join fold_sep (join [32] <$> (((name ++ [58]) :: g) :: groups)) /\
    g ++ concat groups = words /\ Forall (fun g => g <> []) groups.
Proof.
  intros Hne Hsp Hw Hname. unfold fold_header_line.
  assert (name ++ lit ": " ++ join [32] words = join [32] ((name ++ [58]) :: words)) as Hline.
  { rewrite join_cons by done. change (lit ": ") with [58; 32]. by rewrite <- !(assoc_L (++)). }
  rewrite Hline. destruct (str_len _ <=? 78); [exists words, []; by rewrite app_nil_r|].
  assert ((name ++ [58]) <> []) as Hn by (by destruct name).
  rewrite split_char_join; [|done|].
  2: { constructor; [|done]. rewrite not_elem_of_app, list_elem_of_singleton. done. }
  assert (Forall (fun w : str => w <> []) ((name ++ [58]) :: words)) as Hall by (by constructor).
  destruct (fold_words_groups _ Hall [] []) as (groups & g & Heq & Hc & Hgs & _ & Hg & Hl); try by constructor.
  cbn [fmap list_fmap join app concat] in Heq, Hc. rewrite Heq.
  destruct groups as [|g0 groups].
  - rewrite bool_decide_eq_true_2 by done. exists words, []. split; [done|]. cbn. by rewrite app_nil_r.
  - rewrite bool_decide_eq_false_2.
    2: { apply join_nonempty. cbn in Hc. inversion Hgs; subst. destruct g0 as [|w g0]; [done|]. injection Hc as -> _.
         apply join_nonempty. done. }
    assert (CRLF ++ [32] ++ join [32] g = fold_sep ++ join [32] g) as -> by done.
    rewrite <- join_snoc by done. change [join [32] g] with (join [32] <$> [g]). rewrite <- fmap_app.
    inversion Hgs; subst. destruct g0 as [|w g0]; [done|]. cbn in Hc. injection Hc as -> Hc.
    exists g0, (groups ++ [g]). split; [done|]. split.
    + rewrite <- Hc, concat_app. cbn. rewrite app_nil_r. by rewrite (assoc_L (++)).
    + apply Forall_app. split; [done|]. apply Forall_singleton. intros Hg0%Hl. discriminate.
Qed.

(** ** Headers *)

Lemma name_chars name : validate_header_name name = Ok () ->
  name <> [] /\ Forall (fun c => 33 <= c /\ c <> 58) name.
Proof.
  unfold validate_header_name. destruct (_ || _) eqn:Hv; [done|]. intros _. bool_facts. split; [done|].
  rewrite forallb_forall in *. apply Forall_forall. intros c Hc.
  destruct (Z.lt_ge_cases c 128) as [Hlt|]; [|lia].
  assert (c ∈ encode_char c) as Hin by (unfold encode_char; rewrite (proj2 (Z.ltb_lt c 0x80)) by lia; by constructor).
  assert (name_byte_ok c = true) as Hok by (apply H0, list_elem_of_In; eauto using utf8_encode_elem).
  unfold name_byte_ok in Hok. bool_facts. apply orb_true_iff in H1 as [H1|H1]; bool_facts; lia.
Qed.

(** A value that folding does not change: words with single spaces between
    them, or nothing. *)
Definition word_okb (w : str) : bool := negb (bool_decide (w = [])) && forallb (fun c => negb (is_whitespace c)) w.
Definition single_spaced (v : str) : bool := bool_decide (v = []) || forallb word_okb (split_char 32 v).

(** A value that survives the trip: ASCII values are written as they are, so
    they must be single-spaced and not contain the start of an encoded word. *)
Definition value_restorable (v : str) : Prop :=
  valid_str v /\ (is_ascii v = true -> contains (lit "=?") v = false /\ single_spaced v = true).

Lemma join_split sep s : join [sep] (split_char sep s) = s.
Proof.
  induction s as [|c s IH]; [done|]. cbn [split_char]. pose proof (split_char_nonempty sep s) as Hne.
  destruct (Z.eqb_spec c sep) as [->|]; [by rewrite join_cons, IH|].
  destruct (split_char sep s) as [|p ps]; [done|]. destruct ps as [|q ps]; cbn [join] in *; by rewrite <- IH.
Qed.

Lemma word_okb_ok w : word_okb w = true -> word_ok w.
Proof.
  unfold word_okb. intros Hw. bool_facts. split; [done|]. rewrite forallb_forall in *.
  apply Forall_forall. intros c Hc%list_elem_of_In%H0. by bool_facts.
Qed.

Lemma single_spaced_words v : single_spaced v = true -> exists words, Forall word_ok words /\ v = join [32] words.
Proof.
  unfold single_spaced. intros [Hv|Hv]%orb_true_iff; bool_facts; [by subst; exists []|].
  exists (split_char 32 v). split; [|by rewrite join_split]. rewrite forallb_forall in *.
  apply Forall_forall. intros w Hw%list_elem_of_In%Hv. by apply word_okb_ok.
Qed.

Lemma q_token_word b : in_range u8_max b -> forallb (fun c => negb (is_whitespace c)) (q_token b) = true.
Proof. apply (byte_check (fun b => forallb (fun c => negb (is_whitespace c)) (q_token b))). vm_compute. reflexivity. Qed.

Lemma q_encode_word v : valid_str v -> word_ok (q_encode_header v).
Proof.
  intros Hv. split; [done|]. unfold q_encode_header. repeat (apply Forall_app; split).
  - repeat constructor.
  - pose proof (utf8_encode_valid _ Hv) as Hb. induction Hb as [|x b Hx _ IH]; [constructor|]. cbn.
    apply Forall_app. split; [|done]. pose proof (q_token_word x Hx) as Ht. rewrite forallb_forall in Ht.
    apply Forall_forall. intros c Hc%list_elem_of_In%Ht. by bool_facts.
  - repeat constructor.
Qed.

Section headers.
Context `{Base64}.

(** What is written for a value, as words, decodes to the value. *)
Lemma encoded_words v : value_restorable v ->
  exists words, Forall word_ok words /\ maybe_encode_header_value v = join [32] words /\
    decode_encoded_words (join [32] words) = Ok v.
Proof.
  intros [Hv Ha]. unfold maybe_encode_header_value. destruct (is_ascii v).
  - destruct (Ha eq_refl) as [Hc (words & Hw & ->)%(single_spaced_words v)]. exists words. split; [done|]. split; [done|].
    unfold decode_encoded_words. by rewrite decode_words_plain.
  - exists [q_encode_header v]. split; [apply Forall_singleton; by apply q_encode_word|]. split; [done|]. by apply decode_words_q.
Qed.

(** The first line of a header. *)
Lemma parse_first_line name x rest cur val : validate_header_name name = Ok () -> (cur = None -> val = []) ->
  parse_header_lines ((name ++ 58 :: x) :: rest) cur val =
    (done ← flush_header cur val; more ← parse_header_lines rest (Some name) (trim x); mret (done ++ more)).
Proof.
  intros Hn Hcur. pose proof (name_chars _ Hn) as [Hne Hch]. cbn [parse_header_lines].
  assert (starts_with [32] (name ++ 58 :: x) || starts_with [9] (name ++ 58 :: x) = false) as ->.
  { destruct Hch as [|c name [Hc _] _]; [done|]. cbn [app starts_with].
    by rewrite (proj2 (Z.eqb_neq 32 c)), (proj2 (Z.eqb_neq 9 c)) by lia. }
  assert (split_once (lit ":") (name ++ 58 :: x) = Some (name, x)) as ->.
  { apply (split_once_here 58 []). intros Hin. rewrite Forall_forall in Hch. by destruct (Hch 58 Hin). }
  cbn [ok_or mbind result_bind]. rewrite Hn. cbn [mbind result_bind].
  destruct cur; [done|]. by rewrite Hcur.
Qed.

(** Its continuation lines. *)
Definition continue_value (v : str) (conts : list str) : str := foldl (fun v p => v ++ [32] ++ trim p) v conts.

Lemma parse_continuation name conts rest v :
  parse_header_lines ((([32] ++.) <$> conts) ++ rest) (Some name) v = parse_header_lines rest (Some name) (continue_value v conts).
Proof.
  revert v. induction conts as [|p conts IH]; intros v; [done|]. cbn [fmap list_fmap app parse_header_lines].
  change (starts_with [32] (32 :: p)) with true. cbn [orb]. by rewrite trim_space, IH.
Qed.

(** Words with a space before each. *)
Definition spaced (words : list str) : str := w ← words; 32 :: w.

Lemma spaced_join words : words <> [] -> [32] ++ join [32] words = spaced words.
Proof.
  induction words as [|w words IH]; [done|]. intros _. destruct words as [|w' words]; [cbn; by rewrite app_nil_r|].
  rewrite join_cons by done. unfold spaced in *. cbn [mbind list_bind] in *. rewrite <- IH by done. done.
Qed.

Lemma join_spaced ws ws' : ws <> [] -> join [32] (ws ++ ws') = join [32] ws ++ spaced ws'.
Proof.
  induction ws as [|w ws IH]; [done|]. intros _. destruct ws as [|w' ws].
  - cbn [app]. destruct ws' as [|x ws']; [cbn; by rewrite app_nil_r|]. by rewrite join_cons, <- spaced_join.
  - cbn [app]. rewrite !join_cons by done. change (w' :: ws ++ ws') with ((w' :: ws) ++ ws').
    rewrite IH, (join_cons _ w (w' :: ws)) by done. by rewrite <- !(assoc_L (++)).
Qed.

Lemma continue_groups v groups : Forall (Forall word_ok) groups -> Forall (fun g => g <> []) groups ->
  continue_value v (join [32] <$> groups) = v ++ spaced (concat groups).
Proof.
  revert v. induction groups as [|g groups IH]; intros v Hok Hne; [cbn; by rewrite app_nil_r|].
  apply Forall_cons in Hok as [Hg Hok]. apply Forall_cons in Hne as [Hg0 Hne].
  unfold continue_value in *. cbn [fmap list_fmap foldl concat]. rewrite IH by done.
  unfold spaced. rewrite bind_app. rewrite trim_words by done. fold (spaced g).
  rewrite <- (spaced_join g) by done. by rewrite <- !(assoc_L (++)).
Qed.

Lemma word_unbroken w : word_ok w -> unbroken w.
Proof. intros [_ Hw]. eapply Forall_impl; [exact Hw|]. cbn. intros c Hc. split; intros ->; done. Qed.

Lemma words_unbroken words : Forall word_ok words -> unbroken (join [32] words).
Proof.
  intros Hw. induction Hw as [|w words Hw Hws IH]; [constructor|]. destruct words as [|w' words]; [by apply word_unbroken|].
  rewrite join_cons by done. unfold unbroken in *. repeat (apply Forall_app; split); [by apply word_unbroken|by repeat constructor|done].
Qed.

(** A line of a header: not empty, no break, and not the start of a part:
    it has a colon or starts with a space. *)
Definition header_line (l : str) : Prop := l <> [] /\ unbroken l /\ (58 ∈ l \/ head l = Some 32).

(** The lines written for one header, and what the parser reads from them. *)
Definition reads_as (name : str) (lines : list str) (w : str) : Prop :=
  forall rest cur val, (cur = None -> val = []) ->
    parse_header_lines (lines ++ rest) cur val =
      (done ← flush_header cur val; more ← parse_header_lines rest (Some name) w; mret (done ++ more)).

(** A first line and its continuations. *)
Lemma block_reads name x conts : validate_header_name name = Ok () -> unbroken x -> Forall unbroken conts ->
  let lines := (name ++ 58 :: x) :: (([32] ++.) <$> conts) in
  join fold_sep ((name ++ 58 :: x) :: conts) ++ CRLF = with_breaks lines /\ Forall header_line lines /\
  reads_as name lines (continue_value (trim x) conts).
Proof.
  intros Hn Hx Hc lines. split; [apply join_with_breaks|]. split.
  - pose proof (name_plain _ Hn) as [_ Hnu]. constructor.
    + split; [by destruct name|]. split; [|left; set_solver]. unfold unbroken in *. apply Forall_app. split; [done|].
      by constructor.
    + apply Forall_fmap. eapply Forall_impl; [exact Hc|]. intros p Hp. cbn. split; [done|]. split; [|by right]. by constructor.
  - intros rest cur val Hcur. unfold lines. rewrite <- app_comm_cons, parse_first_line by done. by rewrite parse_continuation.
Qed.

(** An empty value. *)
Lemma fold_empty name : (32 ∉ name) ->
  exists x conts, fold_header_line name [] = join fold_sep ((name ++ 58 :: x) :: conts) /\
    unbroken x /\ Forall unbroken conts /\ trim (continue_value (trim x) conts) = [].
Proof.
  intros Hn. unfold fold_header_line. change (lit ": ") with [58; 32]. rewrite app_nil_r.
  destruct (str_len _ <=? 78); [exists [32], []; by repeat constructor|].
  assert (split_char 32 (name ++ [58; 32]) = [name ++ [58]; []]) as ->.
  { change (name ++ [58; 32]) with (name ++ [58] ++ 32 :: []). rewrite (assoc_L (++)), split_lines_app.
    rewrite split_char_one; [done|]. rewrite not_elem_of_app, list_elem_of_singleton. done. }
  assert (name ++ [58] <> []) as Hne by (by destruct name).
  cbn [fold_words]. rewrite bool_decide_eq_true_2 by done. cbn [negb andb app].
  rewrite (bool_decide_eq_false_2 (name ++ [58] = [])) by done. cbn [negb andb].
  destruct (78 <? _).
  - change (bool_decide ([] = [])) with true. cbn iota. rewrite bool_decide_eq_false_2 by done. exists [], [[]]. by repeat constructor.
  - rewrite bool_decide_eq_true_2 by done. exists [32], []. by repeat constructor.
Qed.

Lemma fold_restores name words : validate_header_name name = Ok () -> Forall word_ok words ->
  exists x conts, fold_header_line name (join [32] words) = join fold_sep ((name ++ 58 :: x) :: conts) /\
    unbroken x /\ Forall unbroken conts /\ trim (continue_value (trim x) conts) = join [32] words.
Proof.
  intros Hn%name_plain Hw. destruct (decide (words = [])) as [->|Hne]; [apply fold_empty, Hn|].
  destruct (fold_header_groups name words) as (g & groups & -> & Hc & Hg); try done; [| |apply Hn|].
  { eapply Forall_impl; [exact Hw|]. by intros w []. }
  { eapply Forall_impl; [exact Hw|]. apply word_no_space. }
  rewrite <- Hc in Hw. apply Forall_app in Hw as [Hwg Hwgs]. apply Forall_concat in Hwgs.
  exists (spaced g), (join [32] <$> groups). split.
  { cbn [fmap list_fmap]. change ((name ++ [58]) :: g) with ([name ++ [58]] ++ g). rewrite join_spaced by done.
    cbn [join]. by rewrite <- (assoc_L (++)). }
  assert (trim (spaced g) = join [32] g) as Ht.
  { destruct g as [|w g]; [done|]. rewrite <- spaced_join by done. change ([32] ++ ?x) with (32 :: x).
    rewrite trim_space. by apply trim_words. }
  split; [|split].
  - destruct g as [|w g]; [constructor|]. rewrite <- spaced_join by done. constructor; [done|]. by apply words_unbroken.
  - apply Forall_fmap. eapply Forall_impl; [exact Hwgs|]. apply words_unbroken.
  - rewrite Ht, continue_groups by done. assert (Forall word_ok words) as Hall by (rewrite <- Hc; apply Forall_app; split; [done|]; by apply Forall_concat).
    destruct g as [|w g].
    + cbn [join app]. cbn in Hc. rewrite Hc. rewrite <- spaced_join by done.
      change ([32] ++ ?x) with (32 :: x). rewrite trim_space. by apply trim_words.
    + rewrite <- join_spaced by done. rewrite Hc. by apply trim_words.
Qed.

(** A rendered header block is read back. *)
Lemma render_headers_restores hs out : Forall (fun h => value_restorable (h_value h)) hs -> render_headers hs = Ok out ->
  exists lines, out = with_breaks lines /\ Forall header_line lines /\ (hs <> [] -> lines <> []) /\
    forall cur val, (cur = None -> val = []) ->
      parse_header_lines lines cur val = (done ← flush_header cur val; mret (done ++ hs)).
Proof.
  intros Hv. revert out. induction Hv as [|h hs Hh Hhs IH]; intros out; cbn [render_headers].
  - intros [= <-]. exists []. split; [done|]. split; [constructor|]. split; [done|]. intros cur val Hcur. cbn.
    destruct (flush_header cur val); [|done]. cbn. by rewrite app_nil_r.
  - intros ([] & Hn & Hr)%bind_Ok. apply bind_Ok in Hr as ([] & _ & Hr). apply bind_Ok in Hr as (out' & Hout & [= <-]).
    destruct (IH _ Hout) as (lines & -> & Hl & _ & Hp).
    destruct (encoded_words _ Hh) as (words & Hw & -> & Hdec).
    destruct (fold_restores _ _ Hn Hw) as (x & conts & Hfold & Hx & Hconts & Htrim).
    pose proof (block_reads (h_name h) x conts Hn Hx Hconts) as (Hb & Hbl & Hreads).
    set (block := (h_name h ++ 58 :: x) :: (([32] ++.) <$> conts)) in *. exists (block ++ lines). split; [|split; [|split]].
    + change (CR :: LF :: ?y) with (CRLF ++ y). rewrite (assoc_L (++)). rewrite Hfold, Hb. unfold with_breaks. by rewrite bind_app.
    + by apply Forall_app.
    + done.
    + intros cur val Hcur. rewrite Hreads by done. destruct (flush_header cur val) as [done_|]; [|done]. cbn [mbind result_bind].
      rewrite Hp by done. cbn [flush_header]. rewrite Htrim, Hdec. cbn. by destruct h.
Qed.
End headers.
