(* ===== verification/MimeRoundtrip.v ===== *)
(** * MimeRoundtrip: parsing what was composed

    The text of a composed message, at any depth of multipart nesting, is
    parsed to the headers, bodies and parts it was made from.  [faithful] says
    what the message must satisfy, [restored] what comes back. *)

From S2P Require Import Prelude Utf8 Str Mime MimeProps MimeLines.

(** ** Bodies *)

Lemma encode_char_ascii c : 0 <= c < 128 -> encode_char c = [c].
Proof. intros Hc. unfold encode_char. by rewrite (proj2 (Z.ltb_lt c 0x80)) by lia. Qed.

Lemma encode_char_high c : is_scalar c = true -> 128 <= c -> Forall (fun x => 128 <= x) (encode_char c).
Proof.
  intros Hs%scalar_cases Hc. unfold encode_char. repeat case_match; bool_facts; repeat constructor; dlia.
Qed.

Lemma utf8_encode_cons c s : utf8_encode (c :: s) = encode_char c ++ utf8_encode s.
Proof. done. Qed.

(** The encoding of a character other than a line break has none. *)
Lemma encode_char_plain c x : is_scalar c = true -> x ∈ encode_char c -> (x = CR \/ x = LF) -> c = x.
Proof.
  intros Hs Hx Hor. destruct (Z.lt_ge_cases c 128) as [Hlt|Hge].
  - rewrite encode_char_ascii in Hx by (apply scalar_cases in Hs; lia). by apply list_elem_of_singleton in Hx.
  - pose proof (encode_char_high c Hs Hge) as Hf. rewrite Forall_forall in Hf. specialize (Hf x Hx). unfold CR, LF in *. lia.
Qed.

Lemma utf8_head_lf s r : valid_str s -> utf8_encode s = LF :: r -> exists r', s = LF :: r'.
Proof.
  intros Hs Heq. destruct Hs as [|d s Hd Hs]; [done|]. rewrite utf8_encode_cons in Heq. exists s. f_equal.
  eapply encode_char_plain; [done| |by right]. pose proof (encode_char_nonempty d).
  destruct (encode_char d); cbn in *; [lia|]. injection Heq as -> _. by constructor.
Qed.

Lemma utf8_unify s : valid_str s -> unify (utf8_encode s) = utf8_encode (unify s).
Proof.
  induction s as [|r IH|r Hr IH|c r Hc IH] using crlf_ind; intros Hv; [done|..]; inversion Hv as [|? ? Hcv Hrv]; subst.
  - inversion Hrv; subst. rewrite unify_crlf. change (utf8_encode (CR :: LF :: r)) with (CR :: LF :: utf8_encode r).
    rewrite unify_crlf, IH by done. done.
  - change (utf8_encode (CR :: r)) with (CR :: utf8_encode r). rewrite (unify_cr r) by done.
    rewrite unify_cr; [by rewrite IH|]. intros r' Heq. destruct (utf8_head_lf _ _ Hrv Heq) as [r2 ->]. by eapply Hr.
  - rewrite unify_other by done. rewrite !utf8_encode_cons. rewrite unify_append, IH by
      (try done; intros Hin; apply Hc; eapply encode_char_plain; eauto). done.
Qed.

(** Quoted-printable text whose line breaks were normalised. *)
Lemma qp_decode_soft_lf (rest : bytes) : qp_decode_from false 0 (61 :: LF :: rest) = qp_decode_from false 0 rest.
Proof. done. Qed.

Lemma qp_token_no_cr b : in_range u8_max b -> CR ∉ qp_token b.
Proof.
  intros Hb. assert (forallb (fun c => negb (c =? CR)) (qp_token b) = true) as Hf.
  { revert Hb. apply (byte_check (fun b => forallb (fun c => negb (c =? CR)) (qp_token b))). vm_compute. reflexivity. }
  rewrite forallb_forall in Hf. intros Hin%list_elem_of_In%Hf. by bool_facts.
Qed.

Lemma qp_decode_pushed line_len b (rest : str) : in_range u8_max b ->
  qp_decode_from false 0 (unify ((qp_push_token line_len (qp_token b)).1 ++ rest)) = (b ::.) <$> qp_decode_from false 0 (unify rest).
Proof.
  intros Hb. unfold qp_push_token. cbn [fst]. destruct (75 <? _); rewrite <- !(assoc_L (++)).
  - change ([61] ++ CRLF ++ ?x) with (61 :: CR :: LF :: x). rewrite unify_other, unify_crlf, qp_decode_soft_lf by done.
    by rewrite unify_append, qp_decode_token by (try apply qp_token_no_cr; done).
  - cbn [app]. by rewrite unify_append, qp_decode_token by (try apply qp_token_no_cr; done).
Qed.

Lemma qp_encode_crlf n r : qp_encode_from n false (CR :: LF :: r) = CRLF ++ qp_encode_from 0 false r.
Proof. done. Qed.

Lemma qp_encode_token n c r : (c = CR -> forall r', r <> LF :: r') ->
  qp_encode_from n false (c :: r) =
  (qp_push_token n (qp_token c)).1 ++ qp_encode_from (qp_push_token n (qp_token c)).2 false r.
Proof.
  intros Hc. cbn [qp_encode_from].
  assert ((c =? CR) && bool_decide (head r = Some LF) = false) as ->.
  { destruct (Z.eqb_spec c CR) as [->|]; [|done]. cbn. apply bool_decide_eq_false_2. intros Hh.
    destruct r as [|d r]; [done|]. injection Hh as ->. by eapply Hc. }
  by destruct (qp_push_token n (qp_token c)).
Qed.

Lemma qp_decode_unified b : valid_bytes b -> forall n,
  qp_decode_from false 0 (unify (qp_encode_from n false b)) = Ok (replace CRLF [LF] b).
Proof.
  induction b as [|r IH|r Hr IH|c r Hc IH] using crlf_ind; intros Hv n; [done|..]; inversion Hv as [|? ? Hcv Hrv]; subst.
  - inversion Hrv; subst. rewrite qp_encode_crlf, replace_crlf_eq. change (CRLF ++ ?x) with (CR :: LF :: x).
    rewrite unify_crlf, qp_decode_literal, IH by done. done.
  - rewrite qp_encode_token, qp_decode_pushed, IH, replace_crlf_cr by done. done.
  - rewrite qp_encode_token, qp_decode_pushed, IH, replace_crlf_other by done. done.
Qed.

Lemma unify_elem c s : c ∈ unify s -> c = LF \/ c ∈ s.
Proof.
  induction s as [|r IH|r Hr IH|d r Hd IH] using crlf_ind; [by intros ?%not_elem_of_nil|..].
  - rewrite unify_crlf. set_solver.
  - rewrite unify_cr by done. set_solver.
  - rewrite unify_other by done. set_solver.
Qed.

Lemma unify_Forall (Q : Z -> Prop) s : Q LF -> Forall Q s -> Forall Q (unify s).
Proof. intros Hlf. rewrite !Forall_forall. intros Hs c [->|Hc]%unify_elem; auto. Qed.

Lemma filter_unify s :
  filter (fun ch => is_ascii_whitespace ch = false) (unify s) = filter (fun ch => is_ascii_whitespace ch = false) s.
Proof.
  induction s as [|r IH|r Hr IH|c r Hc IH] using crlf_ind; [done|..].
  - rewrite unify_crlf, !filter_cons_False by done. exact IH.
  - rewrite unify_cr, !filter_cons_False by done. exact IH.
  - rewrite unify_other, !filter_cons, IH by done. done.
Qed.

(** The body's bytes are bytes. *)
Definition body_valid (m : MimeMessage) : Prop :=
  match m_body m with Some (Text t) => valid_str t | Some (Bytes b) => valid_bytes b | None => True end.

(** What the parser makes of a body: base64 gives every byte back, the other
    encodings give line feeds for line breaks, and quoted-printable keeps
    carriage returns that stand alone. *)
Definition restored_bytes (m : MimeMessage) (encoding : TransferEncoding) : bytes :=
  let b := (body_bytes_and_text m).1 in
  match encoding with
  | SevenBit | EightBit | Binary => unify b
  | QuotedPrintable => replace CRLF [LF] b
  | Base64Enc => b
  end.

Lemma unify_valid_str s : valid_str s -> valid_str (unify s).
Proof. by apply unify_Forall. Qed.

Lemma expand_valid_str s : valid_str s -> valid_str (normalize_text_lines s).
Proof.
  intros Hs. rewrite normalize_text_unify. apply unify_valid_str in Hs. revert Hs. generalize (unify s). clear s. intros s Hs.
  induction Hs as [|c s Hc _ IH]; [constructor|]. cbn [mbind list_bind]. apply Forall_app. split; [|done].
  destruct (LF =? c); repeat constructor; done.
Qed.

Lemma body_bytes_valid m : body_valid m -> valid_bytes (body_bytes_and_text m).1.
Proof.
  unfold body_valid, body_bytes_and_text. destruct (m_body m) as [[t|b]|]; [|done|constructor].
  intros Ht. by apply utf8_encode_valid, expand_valid_str.
Qed.

Lemma ascii_bytes_text b : is_ascii b = true -> from_utf8 b = Some b /\ utf8_encode b = b /\ valid_str b.
Proof.
  intros Ha. pose proof (proj1 (is_ascii_Forall b) Ha) as Hf. pose proof (utf8_encode_ascii b Hf) as He.
  assert (valid_str b) as Hv.
  { eapply Forall_impl; [exact Hf|]. cbn. intros c Hc. unfold is_scalar. apply orb_true_intro. left.
    apply andb_true_intro. rewrite Z.leb_le, Z.ltb_lt. lia. }
  split; [|done]. rewrite <- He at 1. by apply from_utf8_encode.
Qed.

Section bodies.
Context `{Base64Laws}.

(** The bytes of a rendered body, for each encoding. *)
Definition transfer_decode (encoding : TransferEncoding) (raw : str) : result str bytes :=
  match encoding with
  | SevenBit | EightBit | Binary => Ok (utf8_encode raw)
  | QuotedPrintable => qp_decode raw false
  | Base64Enc => base64_decode_liberal raw
  end.

Lemma body_is_text m : body_valid m ->
  is_ascii (body_bytes_and_text m).1 = true \/ (body_bytes_and_text m).2 = true ->
  exists s, valid_str s /\ (body_bytes_and_text m).1 = utf8_encode s.
Proof.
  intros Hv [(_ & He & Hs)%ascii_bytes_text|Ht]; [by eexists|]. unfold body_valid, body_bytes_and_text in *.
  destruct (m_body m) as [[t|b]|]; [|done|exists []; by split; [constructor|]]. eexists. split; [|done]. by apply expand_valid_str.
Qed.

Lemma render_body_restores m encoding body : body_valid m -> render_body m encoding = Ok body ->
  transfer_decode encoding (unify body) = Ok (restored_bytes m encoding).
Proof.
  intros Hv Hr. pose proof (body_bytes_valid m Hv) as Hb. unfold render_body, restored_bytes in *.
  assert (forall text, from_utf8 (body_bytes_and_text m).1 = Some text ->
    is_ascii (body_bytes_and_text m).1 = true \/ (body_bytes_and_text m).2 = true ->
    utf8_encode (unify text) = unify (body_bytes_and_text m).1) as Hplain.
  { intros text Hf Hor. destruct (body_is_text m Hv Hor) as (s & Hs & Heq). rewrite Heq in Hf |- *.
    rewrite from_utf8_encode in Hf by done. injection Hf as <-. by rewrite utf8_unify. }
  destruct (body_bytes_and_text m) as [b is_text]. cbn [fst snd] in *.
  destruct encoding; cbn [transfer_decode].
  - destruct (is_ascii b) eqn:Ha; cbn [negb] in Hr; [|done].
    destruct (from_utf8 b) as [t|] eqn:Hf; [|done]. injection Hr as <-. by rewrite (Hplain t) by auto.
  - destruct is_text; [|done]. destruct (from_utf8 b) as [t|] eqn:Hf; [|done]. injection Hr as <-. by rewrite (Hplain t) by auto.
  - destruct is_text; [|done]. destruct (from_utf8 b) as [t|] eqn:Hf; [|done]. injection Hr as <-. by rewrite (Hplain t) by auto.
  - injection Hr as <-. unfold qp_decode, qp_encode.
    rewrite utf8_encode_ascii by (apply unify_Forall; [unfold LF; lia|by apply qp_encode_ascii]). by apply qp_decode_unified.
  - injection Hr as <-. unfold base64_decode_liberal, base64_encode_wrapped, wrap_ascii_line.
    pose proof (b64_alphabet b Hb) as Hal. rewrite filter_unify, wrap_filter by (eapply Forall_impl; [exact Hal|]; cbn; intuition).
    rewrite utf8_encode_ascii by (eapply Forall_impl; [exact Hal|]; cbn; intuition). by rewrite b64_roundtrip.
Qed.
End bodies.

(** ** Looking up headers *)

(** No two headers have the same name, case apart. *)
Definition names_distinct (hs : list Header) : Prop := NoDup ((fun h => to_ascii_lowercase (h_name h)) <$> hs).

Lemma header_matches_eq a b : header_matches a b = true <-> to_ascii_lowercase a = to_ascii_lowercase b.
Proof. apply bool_decide_eq_true. Qed.

Lemma header_value_cons h hs n :
  header_value (h :: hs) n =
  opt_or (header_value hs n) (if header_matches (h_name h) n then Some (h_value h) else None).
Proof.
  unfold header_value. cbn [rev]. rewrite filter_app. destruct (filter _ (rev hs)) as [|x l]; [|done]. cbn [app].
  rewrite filter_cons. by destruct (header_matches (h_name h) n).
Qed.

Lemma header_value_None hs n : Forall (fun h => header_matches (h_name h) n = false) hs -> header_value hs n = None.
Proof. induction 1 as [|h hs Hh _ IH]; [done|]. by rewrite header_value_cons, IH, Hh. Qed.

Lemma header_value_elem hs n v : header_value hs n = Some v -> exists h, h ∈ hs /\ h_value h = v.
Proof.
  induction hs as [|h hs IH]; [done|]. rewrite header_value_cons. destruct (header_value hs n) as [v'|].
  - intros [= <-]. destruct IH as (h' & Hin & Hv); [done|]. exists h'. split; [by right|done].
  - destruct (header_matches _ _); [|done]. intros [= <-]. exists h. split; [by left|done].
Qed.

Lemma set_header_names hs n v :
  (fun h => to_ascii_lowercase (h_name h)) <$> set_header hs n v =
  ((fun h => to_ascii_lowercase (h_name h)) <$> hs) ++
  (if bool_decide (to_ascii_lowercase n ∈ (fun h => to_ascii_lowercase (h_name h)) <$> hs) then [] else [to_ascii_lowercase n]).
Proof.
  induction hs as [|h hs IH]; [done|]. cbn [set_header fmap list_fmap].
  destruct (header_matches (h_name h) n) eqn:Hm.
  - apply header_matches_eq in Hm. cbn [fmap list_fmap h_name]. rewrite bool_decide_eq_true_2 by (rewrite <- Hm; by left).
    by rewrite app_nil_r.
  - cbn [fmap list_fmap app]. rewrite IH. f_equal. f_equal.
    assert (to_ascii_lowercase (h_name h) <> to_ascii_lowercase n) as Hne
      by (intros Heq; apply header_matches_eq in Heq; congruence).
    match goal with |- (if bool_decide ?A then _ else _) = (if bool_decide ?B then _ else _) =>
      rewrite (bool_decide_ext A B); [done|] end.
    rewrite elem_of_cons. naive_solver.
Qed.

Lemma set_header_distinct hs n v : names_distinct hs -> names_distinct (set_header hs n v).
Proof.
  unfold names_distinct. rewrite set_header_names. intros Hd. case_bool_decide as Hin; [by rewrite app_nil_r|].
  apply NoDup_app. split; [done|]. split; [|apply NoDup_singleton]. by intros x Hx ->%list_elem_of_singleton.
Qed.

Lemma header_value_set hs n v : names_distinct hs -> header_value (set_header hs n v) n = Some v.
Proof.
  unfold names_distinct. induction hs as [|h hs IH]; intros Hd.
  - cbn [set_header]. rewrite header_value_cons. cbn. by rewrite (proj2 (header_matches_eq n n)).
  - cbn [fmap list_fmap] in Hd. apply NoDup_cons in Hd as [Hnin Hd]. cbn [set_header].
    destruct (header_matches (h_name h) n) eqn:Hm; rewrite header_value_cons.
    + cbn [h_name h_value]. rewrite Hm, header_value_None; [done|]. apply Forall_forall. intros h' Hh'.
      apply not_true_iff_false. intros Hm'. apply Hnin. apply header_matches_eq in Hm, Hm'.
      rewrite Hm, <- Hm'. apply list_elem_of_fmap. by exists h'.
    + by rewrite IH.
Qed.

Lemma header_value_set_ne hs n v n' : to_ascii_lowercase n <> to_ascii_lowercase n' ->
  header_value (set_header hs n v) n' = header_value hs n'.
Proof.
  intros Hne. assert (forall a, to_ascii_lowercase a = to_ascii_lowercase n -> header_matches a n' = false) as Hm.
  { intros a Ha. apply not_true_iff_false. rewrite header_matches_eq. congruence. }
  induction hs as [|h hs IH]; cbn [set_header].
  - rewrite header_value_cons. cbn [h_name]. by rewrite Hm.
  - destruct (header_matches (h_name h) n) eqn:Hh; rewrite !header_value_cons; [|by rewrite IH].
    apply header_matches_eq in Hh. cbn [h_name]. by rewrite !Hm.
Qed.

Lemma set_header_Forall (Q : str -> Prop) hs n v :
  Forall (fun h => Q (h_value h)) hs -> Q v -> Forall (fun h => Q (h_value h)) (set_header hs n v).
Proof.
  intros Hf Hv. induction Hf as [|h hs Hh Hhs IH]; cbn [set_header]; [by repeat constructor|].
  destruct (header_matches _ _); by constructor.
Qed.

Lemma set_header_nonempty hs n v : set_header hs n v <> [].
Proof. destruct hs as [|h hs]; [done|]. cbn. by destruct (header_matches _ _). Qed.

Lemma top_headers_distinct m top : names_distinct (m_headers m) -> names_distinct (top_headers m top).
Proof.
  unfold top_headers, has_header. destruct (header_value (m_headers m) MIME_VERSION) eqn:Hv; destruct top; cbn; try done.
  unfold names_distinct. cbn [fmap list_fmap h_name]. intros Hd. apply NoDup_cons. split; [|done].
  intros (h & Heq & Hin)%list_elem_of_fmap. revert Hv Hin. clear Hd. induction (m_headers m) as [|h' hs IH]; [by intros _ ?%not_elem_of_nil|].
  rewrite header_value_cons. destruct (header_value hs MIME_VERSION); [done|]. cbn [opt_or].
  destruct (header_matches (h_name h') MIME_VERSION) eqn:Hm; [done|]. intros _ [->|Hin]%elem_of_cons; [|by apply IH].
  symmetry in Heq. apply header_matches_eq in Heq. congruence.
Qed.

Lemma top_headers_Forall (Q : str -> Prop) m top :
  Forall (fun h => Q (h_value h)) (m_headers m) -> Q (lit "1.0") -> Forall (fun h => Q (h_value h)) (top_headers m top).
Proof. unfold top_headers. intros Hf Hq. destruct (_ && _); [by constructor|done]. Qed.

(** ** Header and body of a text *)

Lemma split_once_skip p pat l s : p ∉ l ->
  split_once (p :: pat) (l ++ s) = (fun '(a, b) => (l ++ a, b)) <$> split_once (p :: pat) s.
Proof.
  induction l as [|c l IH]; intros Hp; [cbn [app]; by destruct (split_once (p :: pat) s) as [[a b]|]|].
  apply not_elem_of_cons in Hp as [Hne Hp]. rewrite <- app_comm_cons, split_once_cons, IH by done.
  cbn [starts_with]. rewrite (proj2 (Z.eqb_neq p c) Hne). cbn [andb]. by destruct (split_once (p :: pat) s) as [[a b]|].
Qed.

Lemma split_lines lines z : lines <> [] -> Forall header_line lines ->
  split_once [LF; LF] ((l ← lines; l ++ [LF]) ++ LF :: z) = Some (join [LF] lines, z).
Proof.
  intros Hne Hl. induction Hl as [|l lines (Hl0 & Hu & _) Hls IH]; [done|]. apply unbroken_no_lf in Hu.
  cbn [mbind list_bind]. destruct lines as [|l' lines].
  - cbn [mbind list_bind join]. rewrite app_nil_r, <- (assoc_L (++)). by apply (split_once_here LF [LF]).
  - rewrite <- !(assoc_L (++)), split_once_skip by done. change ([LF] ++ ?x) with (LF :: x). rewrite split_once_cons.
    specialize (IH ltac:(done)). apply Forall_inv in Hls as (Hl0' & Hu' & _).
    assert (starts_with [LF; LF] (LF :: ((l' :: lines) ≫= fun l => l ++ [LF]) ++ LF :: z) = false) as ->.
    { destruct l' as [|c l']; [done|]. cbn [mbind list_bind app starts_with]. rewrite Z.eqb_refl. cbn [andb].
      inversion Hu' as [|? ? [_ Hc] _]; subst. by rewrite (proj2 (Z.eqb_neq LF c)) by congruence. }
    rewrite IH. cbn [mbind option_bind fmap option_fmap option_map]. by rewrite (join_cons _ l) by done.
Qed.

Lemma unify_breaks lines z : Forall header_line lines ->
  unify (with_breaks lines ++ CRLF ++ z) = (l ← lines; l ++ [LF]) ++ LF :: unify z.
Proof.
  intros Hl. induction Hl as [|l lines (_ & Hu & _) _ IH]; [done|]. unfold with_breaks in *. cbn [mbind list_bind].
  rewrite <- !(assoc_L (++)). rewrite unify_app_crlf, IH. rewrite unify_id by (by apply unbroken_no_cr). done.
Qed.

(** The parser finds the headers and the body of a text. *)
Lemma split_message lines body : lines <> [] -> Forall header_line lines ->
  split_header_body (unify (with_breaks lines ++ CRLF ++ body)) = Ok (join [LF] lines, unify body).
Proof. intros Hne Hl. unfold split_header_body. by rewrite unify_breaks, split_lines. Qed.

Lemma parse_headers_lines `{Base64} lines : lines <> [] -> Forall header_line lines ->
  parse_headers (join [LF] lines) = parse_header_lines lines None [].
Proof.
  intros Hne Hl. unfold parse_headers. rewrite split_char_join; [done|done|].
  eapply Forall_impl; [exact Hl|]. intros l (_ & Hu & _). by apply unbroken_no_lf.
Qed.

(** Rendered headers and a body come apart again. *)
Lemma message_splits `{Base64} hs out body : hs <> [] -> Forall (fun h => value_restorable (h_value h)) hs ->
  render_headers hs = Ok out ->
  (split_header_body (unify (out ++ CRLF ++ body)) ≫= fun '(raw_headers, raw_body) =>
     headers ← parse_headers raw_headers; mret (headers, raw_body)) = Ok (hs, unify body).
Proof.
  intros Hne Hv Hr. destruct (render_headers_restores hs out Hv Hr) as (lines & -> & Hl & Hln & Hp).
  rewrite split_message by auto. cbn [mbind result_bind]. rewrite parse_headers_lines, Hp by auto. done.
Qed.

(** ** Content types *)

Definition is_multipart (content_type : str) : bool :=
  starts_with (lit "multipart/") (to_ascii_lowercase (content_type_base content_type)).

Lemma split_once_char_Some p s a b : split_once [p] s = Some (a, b) -> p ∉ a.
Proof.
  revert a. induction s as [|c s IH]; intros a; [done|]. rewrite split_once_cons. cbn [starts_with andb].
  rewrite andb_true_r. destruct (Z.eqb_spec p c) as [->|Hne]; [intros [= <- _]; apply not_elem_of_nil|].
  intros ([a' b'] & Hrec & [= <- <-])%bind_Some. apply not_elem_of_cons. split; [done|]. by apply IH.
Qed.

Lemma split_once_char_None p s : split_once [p] s = None -> p ∉ s.
Proof.
  induction s as [|c s IH]; [intros _; apply not_elem_of_nil|]. rewrite split_once_cons. cbn [starts_with].
  rewrite andb_true_r. destruct (Z.eqb_spec p c) as [->|Hne]; [done|].
  destruct (split_once [p] s) as [[a b]|]; [done|]. intros _. apply not_elem_of_cons. by split; [|apply IH].
Qed.

Lemma drop_while_elem p c s : c ∈ drop_while p s -> c ∈ s.
Proof. induction s as [|d s IH]; [done|]. cbn. destruct (p d); [|done]. intros Hc. right. by apply IH. Qed.

Lemma trim_elem c s : c ∈ trim s -> c ∈ s.
Proof.
  unfold trim, trim_end_while.
  intros Hc. apply (drop_while_elem is_whitespace). apply list_elem_of_In, in_rev.
  apply list_elem_of_In, (drop_while_elem is_whitespace). apply list_elem_of_In in Hc. by apply list_elem_of_In, in_rev.
Qed.

Lemma drop_while_head p s c : head (drop_while p s) = Some c -> p c = false.
Proof. induction s as [|d s IH]; [done|]. cbn. destruct (p d) eqn:Hd; [done|]. by intros [= <-]. Qed.

Lemma drop_while_suffix p s : exists k, s = k ++ drop_while p s.
Proof.
  induction s as [|c s [k IH]]; [by exists []|]. cbn. destruct (p c); [exists (c :: k); cbn; by rewrite <- IH|by exists []].
Qed.

Lemma trim_trim s : trim (trim s) = trim s.
Proof.
  apply trim_id; intros c Hc; unfold trim, trim_end_while in Hc; rewrite rev_alt in Hc;
    change (rev_append ?l []) with (reverse l) in Hc.
  - destruct (drop_while_suffix is_whitespace (rev (drop_while is_whitespace s))) as [k Hk].
    set (t := drop_while is_whitespace s) in *. set (u := drop_while is_whitespace (rev t)) in *.
    apply (drop_while_head is_whitespace s). fold t. rewrite <- (rev_involutive t), Hk, rev_app_distr.
    rewrite (rev_alt u). change (rev_append u []) with (reverse u). destruct (reverse u); [done|]. done.
  - rewrite last_reverse in Hc. by eapply drop_while_head.
Qed.

Lemma content_type_base_plain ct : 59 ∉ content_type_base ct.
Proof.
  unfold content_type_base. intros Hin%trim_elem.
  destruct (split_once (lit ";") ct) as [[a b]|] eqn:E; [by apply split_once_char_Some in E|by apply split_once_char_None in E].
Qed.

(** The boundary that is added is the boundary that is read, on the same
    type. *)
Lemma boundary_added base b : (59 ∉ base) -> (59 ∉ b) -> trim base = base ->
  parse_boundary (content_type_with_boundary base b) = Some b /\
  content_type_base (content_type_with_boundary base b) = base.
Proof.
  intros Hbase Hb Htrim. unfold content_type_with_boundary.
  assert (parse_boundary base = None) as -> by (unfold parse_boundary; by rewrite split_char_one).
  set (value := [34] ++ b ++ [34]). change (lit "; boundary=") with (59 :: lit " boundary="). split.
  - unfold parse_boundary. rewrite <- app_comm_cons, split_lines_app, split_char_one by done.
    rewrite split_char_one.
    2: { unfold value. rewrite !not_elem_of_app. repeat split; try done; vm_compute; set_solver. }
    cbn [app drop omap list_omap]. 
    assert (param_boundary (lit " boundary=" ++ value) = Some b) as ->; [|done].
    assert (trim (lit " boundary=" ++ value) = lit "boundary=" ++ value) as Ht.
    { change (lit " boundary=" ++ value) with (32 :: lit "boundary=" ++ value). rewrite trim_space. apply trim_id.
      - by intros c [= <-].
      - unfold value. rewrite !last_app. cbn. by intros c [= <-]. }
    unfold param_boundary. rewrite Ht. change (lit "boundary=" ++ value) with (lit "boundary" ++ [61] ++ value).
    rewrite (split_once_here 61 []) by (vm_compute; set_solver). cbn [mbind option_bind].
    change (eq_ignore_ascii_case (trim (lit "boundary")) (lit "boundary")) with true. cbn iota.
    assert (trim value = value) as ->.
    { apply trim_id; [by intros c [= <-]|]. unfold value. rewrite !last_app. cbn. by intros c [= <-]. }
    assert (starts_with [34] value && ends_with [34] value && (2 <=? str_len value) = true) as ->.
    { unfold value, ends_with. rewrite !rev_app_distr. cbn [rev app starts_with andb]. rewrite !Z.eqb_refl. cbn [andb].
      apply Z.leb_le. unfold str_len. change (34 :: b ++ [34]) with ([34] ++ b ++ [34]).
      rewrite !utf8_encode_app, !length_app. change (length (utf8_encode [34])) with 1%nat. lia. }
    change (drop 1 value) with (b ++ [34]). assert (length value - 2 = length b)%nat as ->; [|by rewrite take_app_length].
    unfold value. rewrite !length_app. cbn. lia.
  - unfold content_type_base. rewrite <- app_comm_cons. change (base ++ 59 :: ?x) with (base ++ [59] ++ x).
    rewrite (split_once_here 59 []) by done. done.
Qed.

Lemma param_boundary_elem p b c : param_boundary p = Some b -> c ∈ b -> c ∈ p.
Proof.
  unfold param_boundary. intros ([name value] & Hs%split_once_Some & Hr)%bind_Some Hin. apply trim_elem.
  destruct (eq_ignore_ascii_case _ _); [|done]. injection Hr as <-. rewrite Hs. rewrite !elem_of_app. right. right.
  apply trim_elem. destruct (_ && _); [|done]. apply subseteq_take in Hin. by apply subseteq_drop in Hin.
Qed.

Lemma split_char_no_sep sep s : Forall (fun p => sep ∉ p) (split_char sep s).
Proof.
  induction s as [|c s IH]; cbn; [repeat constructor; apply not_elem_of_nil|].
  destruct (Z.eqb_spec c sep) as [->|Hne]; [constructor; [apply not_elem_of_nil|done]|].
  destruct IH as [|p ps Hp Hps]; [repeat constructor; set_solver|]. constructor; [|done]. apply not_elem_of_cons. by split.
Qed.

(** A boundary is part of a parameter. *)
Lemma parse_boundary_param ct b : parse_boundary ct = Some b ->
  exists p, p ∈ split_char 59 ct /\ forall c, c ∈ b -> c ∈ p.
Proof.
  unfold parse_boundary. intros Hh%head_Some_elem_of. apply list_elem_of_omap in Hh as (p & Hp%subseteq_drop & Hb).
  exists p. split; [done|]. intros c. by apply param_boundary_elem.
Qed.

Lemma parse_boundary_plain ct b : parse_boundary ct = Some b -> 59 ∉ b.
Proof.
  intros (p & Hp & Hb)%parse_boundary_param Hin%Hb.
  pose proof (split_char_no_sep 59 ct) as Hs. rewrite Forall_forall in Hs. by apply (Hs p).
Qed.

Lemma parse_boundary_unbroken ct b : parse_boundary ct = Some b -> unbroken ct -> unbroken b.
Proof.
  intros (p & Hp & Hb)%parse_boundary_param Hu%(split_char_Forall _ 59). rewrite Forall_forall in Hu. specialize (Hu p Hp).
  unfold unbroken. rewrite Forall_forall in Hu |- *. auto.
Qed.

(** The characters of a generated boundary. *)
Definition boundary_char (c : Z) : bool := (c =? 45) || ((48 <=? c) && (c <=? 57)) || ((97 <=? c) && (c <=? 122)).
Abbreviation boundary_chars := (Forall (fun c => boundary_char c = true)).

Lemma hex_lower_char n : boundary_char (hex_lower (n mod 16)) = true.
Proof.
  pose proof (Z.mod_pos_bound n 16 ltac:(lia)) as Hn. unfold hex_lower, boundary_char.
  destruct (Z.ltb_spec (n mod 16) 10); rewrite !orb_true_iff, !andb_true_iff, !Z.leb_le, !Z.eqb_eq; lia.
Qed.

Lemma show_hex_chars w n : boundary_chars (show_hex w n).
Proof.
  apply Forall_app. split; [by apply Forall_replicate|]. generalize 16%nat as fuel. intros fuel. revert n.
  induction fuel as [|fuel IH]; intros n; [constructor|]. cbn [hex_digits]. apply Forall_app. split.
  - destruct (n <? 16); [constructor|apply IH].
  - constructor; [apply hex_lower_char|constructor].
Qed.

Lemma boundary_text_chars seed i : boundary_chars (boundary_text seed i).
Proof.
  apply Forall_app. split; [repeat constructor|]. apply Forall_app. split; [apply show_hex_chars|].
  apply Forall_app. split; [repeat constructor|apply show_hex_chars].
Qed.

Lemma boundary_from_text fuel m seed attempt b : boundary_from fuel m seed attempt = Some b -> exists i, b = boundary_text seed i.
Proof.
  revert attempt. induction fuel as [|fuel IH]; intros attempt; [done|]. cbn [boundary_from].
  destruct (message_contains_boundary _ _); [apply IH|]. intros [= <-]. by eexists.
Qed.

Lemma generated_chars fuel m b : generate_boundary fuel m = Some b -> boundary_chars b.
Proof. intros [i ->]%boundary_from_text. apply boundary_text_chars. Qed.

Lemma message_boundary_plain fuel m hs b : message_boundary fuel m hs = Some b -> 59 ∉ b.
Proof.
  unfold message_boundary. destruct (header_value hs CONTENT_TYPE ≫= parse_boundary) as [b'|] eqn:E.
  - intros [= <-]. apply bind_Some in E as (ct & _ & Hp). by eapply parse_boundary_plain.
  - intros Hf%generated_chars Hin. rewrite Forall_forall in Hf. by specialize (Hf _ Hin).
Qed.

(** ** Sections of a multipart body *)

Definition marker (b : str) : str := lit "--" ++ b.
Definition closer (b : str) : str := lit "--" ++ b ++ lit "--".

(** No line of a text looks like the start or the end of a part. *)
Definition separated (b text : str) : Prop :=
  Forall (fun l => l <> marker b /\ l <> closer b) (split_char LF (unify text)).

(** The body that is written for the texts of the parts. *)
Fixpoint multipart_text (b : str) (texts : list str) : str :=
  match texts with
  | [] => closer b ++ CRLF
  | text :: rest => marker b ++ CRLF ++ text ++ CRLF ++ multipart_text b rest
  end.

Lemma marker_closer b : closer b <> marker b.
Proof. unfold marker, closer. intros Heq%(f_equal length). rewrite !length_app in Heq. change (length (lit "--")) with 2%nat in Heq. lia. Qed.

Lemma trim_end_cr l : CR ∉ l -> trim_end_matches CR l = l.
Proof.
  intros Hl. unfold trim_end_matches, trim_end_while. rewrite drop_while_id; [apply rev_involutive|].
  intros c Hc. apply Z.eqb_neq. intros <-. apply Hl. apply list_elem_of_In, in_rev, list_elem_of_In. by apply head_Some_elem_of.
Qed.

Lemma trim_part_restores s : CR ∉ s -> trim_part_section (s ++ [LF]) = s.
Proof.
  intros Hs. unfold trim_part_section.
  assert (strip_suffix [LF] (s ++ [LF]) = Some s) as ->.
  { unfold strip_suffix, ends_with. rewrite rev_app_distr. cbn [rev app starts_with]. rewrite Z.eqb_refl. cbn [andb].
    f_equal. rewrite length_app. cbn. rewrite Nat.add_sub. by rewrite take_app_length. }
  cbn [default from_option id]. assert (strip_suffix [CR] s = None) as ->; [|done].
  unfold strip_suffix, ends_with. cbn [rev app]. destruct (starts_with [CR] (rev s)) eqn:E; [|done]. exfalso. apply Hs.
  apply starts_with_true in E as [t E]. apply list_elem_of_In, in_rev. rewrite E. by left.
Qed.

(** The lines of a part are collected. *)
Lemma sections_lines b ls rest cur :
  Forall (fun l => CR ∉ l) ls -> Forall (fun l => l <> marker b /\ l <> closer b) ls ->
  sections_from (marker b) (closer b) (ls ++ rest) true cur =
  sections_from (marker b) (closer b) rest true (cur ++ (l ← ls; l ++ [LF])).
Proof.
  revert cur. induction ls as [|l ls IH]; intros cur Hcr Hf; [cbn; by rewrite app_nil_r|].
  apply Forall_cons in Hcr as [Hc Hcr]. apply Forall_cons in Hf as [[Hm Hcl] Hf].
  cbn [app sections_from]. rewrite trim_end_cr by done. rewrite !bool_decide_eq_false_2 by done.
  rewrite IH by done. cbn [mbind list_bind]. by rewrite <- !(assoc_L (++)).
Qed.

Lemma split_lf_no_cr s : CR ∉ s -> Forall (fun l => CR ∉ l) (split_char LF s).
Proof.
  intros Hs. assert (Forall (fun c => c <> CR) s) as Hf by (apply Forall_forall; congruence).
  apply (split_char_Forall _ LF) in Hf. eapply Forall_impl; [exact Hf|]. cbn. intros l Hl Hin.
  rewrite Forall_forall in Hl. by apply (Hl CR).
Qed.

(** The texts of the parts are the sections. *)
Lemma sections_restore b texts : unbroken b -> Forall (separated b) texts ->
  (forall cur, sections_from (marker b) (closer b) (split_char LF (unify (multipart_text b texts))) true cur =
    Some (trim_part_section cur :: (unify <$> texts))) /\
  sections_from (marker b) (closer b) (split_char LF (unify (multipart_text b texts))) false [] = Some (unify <$> texts).
Proof.
  intros Hb Hs.
  assert (unbroken (marker b)) as Hm by (unfold unbroken; apply Forall_app; split; [by repeat constructor|done]).
  assert (unbroken (closer b)) as Hcl by
    (unfold unbroken; repeat (apply Forall_app; split); [by repeat constructor|done|by repeat constructor]).
  pose proof (unbroken_no_cr _ Hm) as Hm_cr. pose proof (unbroken_no_cr _ Hcl) as Hcl_cr.
  induction Hs as [|text texts Ht Hts [IHt IHf]]; cbn [multipart_text fmap list_fmap].
  - assert (split_char LF (unify (closer b ++ CRLF)) = [closer b; []]) as ->.
    { rewrite unify_append by done. change (unify CRLF) with [LF]. rewrite split_lines_app. cbn.
      by rewrite split_char_one by (by apply unbroken_no_lf). }
    cbn [sections_from]. rewrite trim_end_cr by done. rewrite (bool_decide_eq_false_2 (closer b = marker b)) by apply marker_closer.
    by rewrite bool_decide_eq_true_2.
  - assert (split_char LF (unify (marker b ++ CRLF ++ text ++ CRLF ++ multipart_text b texts)) =
      marker b :: split_char LF (unify text) ++ split_char LF (unify (multipart_text b texts))) as ->.
    { rewrite unify_app_crlf, unify_app_crlf, (unify_id (marker b)), split_lines_app, split_lines_app by done.
      by rewrite (split_char_one _ (marker b)) by (by apply unbroken_no_lf). }
    pose proof (split_lf_no_cr _ (unify_no_cr text)) as Hcr.
    cbn [sections_from]. rewrite trim_end_cr by done. rewrite bool_decide_eq_true_2 by done.
    rewrite sections_lines, split_char_concat, IHt by done.
    cbn [app]. rewrite trim_part_restores by apply unify_no_cr. done.
Qed.

(** ** Messages *)

(** The headers a single message is written with: its own, a content type,
    and the transfer encoding. *)
Definition with_content_type (hs : list Header) : list Header :=
  if has_header hs CONTENT_TYPE then hs else set_header hs CONTENT_TYPE DEFAULT_TEXT_CONTENT_TYPE.
Definition single_headers (hs : list Header) (encoding : TransferEncoding) : list Header :=
  set_header (with_content_type hs) CONTENT_TRANSFER_ENCODING (encoding_token encoding).

(** The content type a multipart message is written with. *)
Definition multipart_type (hs : list Header) (boundary : str) : str :=
  content_type_with_boundary
    match header_value hs CONTENT_TYPE with Some ct => content_type_base ct | None => DEFAULT_MULTIPART_CONTENT_TYPE end
    boundary.

Definition headers_ok (hs : list Header) : Prop :=
  names_distinct hs /\ Forall (fun h => value_restorable (h_value h)) hs.

(** Messages that survive the trip: header names differ, values are
    restorable, the content type says whether there are parts, and no part has
    a line that looks like the boundary. *)
Inductive faithful `{Base64} (fuel : nat) : bool -> MimeMessage -> Prop :=
| faithful_single top m :
    m_parts m = [] -> headers_ok (m_headers m) -> body_valid m ->
    (forall ct, header_value (m_headers m) CONTENT_TYPE = Some ct -> is_multipart ct = false) ->
    faithful fuel top m
| faithful_multipart top m b :
    m_parts m <> [] -> headers_ok (m_headers m) ->
    message_boundary fuel m (top_headers m top) = Some b ->
    value_restorable (multipart_type (top_headers m top) b) ->
    (forall ct, header_value (m_headers m) CONTENT_TYPE = Some ct -> is_multipart ct = true) ->
    Forall (fun part => faithful fuel false part /\
      forall text, render_message fuel part false = Some (Ok text) -> separated b text) (m_parts m) ->
    faithful fuel top m.

(** What comes back. *)
Inductive restored (fuel : nat) : bool -> MimeMessage -> ParsedMessage -> Prop :=
| restored_single top m encoding :
    m_parts m = [] -> choose_encoding m (with_content_type (top_headers m top)) = Ok encoding ->
    restored fuel top m
      (mkParsed (single_headers (top_headers m top) encoding) (Some (restored_bytes m encoding)) []
         (is_text_content_type (default DEFAULT_TEXT_CONTENT_TYPE (header_value (m_headers m) CONTENT_TYPE))))
| restored_multipart top m b parts :
    m_parts m <> [] -> message_boundary fuel m (top_headers m top) = Some b ->
    Forall2 (restored fuel false) (m_parts m) parts ->
    restored fuel top m
      (mkParsed (set_header (top_headers m top) CONTENT_TYPE (multipart_type (top_headers m top) b)) None parts false).

Lemma literal_restorable s : is_ascii (lit s) = true -> contains (lit "=?") (lit s) = false ->
  single_spaced (lit s) = true -> value_restorable (lit s).
Proof.
  intros Ha Hc Hs. split; [|done]. by apply ascii_bytes_text.
Qed.

Lemma token_restorable encoding : value_restorable (encoding_token encoding).
Proof. destruct encoding; apply literal_restorable; vm_compute; reflexivity. Qed.

Lemma encoding_token_parse encoding : encoding_parse (encoding_token encoding) = Some encoding.
Proof. destruct encoding; vm_compute; reflexivity. Qed.

Lemma top_headers_ok m top : headers_ok (m_headers m) -> headers_ok (top_headers m top).
Proof.
  intros [Hd Hv]. split; [by apply top_headers_distinct|]. apply top_headers_Forall; [done|].
  apply literal_restorable; vm_compute; reflexivity.
Qed.

Lemma set_header_ok hs n v : headers_ok hs -> value_restorable v -> headers_ok (set_header hs n v).
Proof. intros [Hd Hv] Hr. split; [by apply set_header_distinct|by apply set_header_Forall]. Qed.

Lemma with_content_type_ok hs : headers_ok hs -> headers_ok (with_content_type hs).
Proof.
  intros Hok. unfold with_content_type. destruct (has_header _ _); [done|]. apply set_header_ok; [done|].
  apply literal_restorable; vm_compute; reflexivity.
Qed.

Lemma top_headers_value m top n : to_ascii_lowercase MIME_VERSION <> to_ascii_lowercase n ->
  header_value (top_headers m top) n = header_value (m_headers m) n.
Proof.
  intros Hne. unfold top_headers. destruct (_ && _); [|done]. rewrite header_value_cons. cbn [h_name].
  assert (header_matches MIME_VERSION n = false) as ->; [|by destruct (header_value _ n)].
  apply not_true_iff_false. by rewrite header_matches_eq.
Qed.

Lemma with_content_type_value hs : names_distinct hs ->
  header_value (with_content_type hs) CONTENT_TYPE = Some (default DEFAULT_TEXT_CONTENT_TYPE (header_value hs CONTENT_TYPE)).
Proof.
  intros Hd. unfold with_content_type, has_header. destruct (header_value hs CONTENT_TYPE) eqn:E; [done|]. by apply header_value_set.
Qed.

Lemma single_content_type m top encoding : headers_ok (m_headers m) ->
  header_value (single_headers (top_headers m top) encoding) CONTENT_TYPE =
  Some (default DEFAULT_TEXT_CONTENT_TYPE (header_value (m_headers m) CONTENT_TYPE)).
Proof.
  intros Hok. unfold single_headers. rewrite header_value_set_ne by (vm_compute; discriminate).
  rewrite with_content_type_value by (by apply (top_headers_ok m top)).
  by rewrite top_headers_value by (vm_compute; discriminate).
Qed.

Section messages.
Context `{Base64Laws} (fuel : nat).

(** The loops over the parts, by name. *)
Definition render_all (b : str) : list MimeMessage -> option (result str str) :=
  fix go (parts : list MimeMessage) : option (result str str) :=
    match parts with
    | [] => Some (Ok (lit "--" ++ b ++ lit "--" ++ CRLF))
    | part :: rest =>
        r ← render_message fuel part false;
        match r with
        | Err e => Some (Err e)
        | Ok text => r' ← go rest;
            Some ((fun more => lit "--" ++ b ++ CRLF ++ text ++ CRLF ++ more) <$> (r' : result str str))
        end
    end.

Lemma render_multipart m top : m_parts m <> [] ->
  render_message fuel m top =
  (b ← message_boundary fuel m (top_headers m top);
   match render_headers (set_header (top_headers m top) CONTENT_TYPE (multipart_type (top_headers m top) b)) with
   | Err e => Some (Err e)
   | Ok output => body ← render_all b (m_parts m); Some ((fun b => output ++ CRLF ++ b) <$> (body : result str str))
   end).
Proof. by destruct m as [hs b [|p ps] e]. Qed.

Definition parse_all (fp : nat) : list str -> option (result str (list ParsedMessage)) :=
  fix go (l : list str) : option (result str (list ParsedMessage)) :=
    match l with
    | [] => Some (Ok [])
    | part :: rest =>
        r ← parse_message_raw fp part;
        match r with
        | Err e => Some (Err e)
        | Ok m => r' ← go rest; Some ((m ::.) <$> (r' : result str (list ParsedMessage)))
        end
    end.

Lemma parse_multipart fp raw hs raw_body ct b sections :
  (split_header_body raw ≫= fun '(raw_headers, raw_body) =>
     headers ← parse_headers raw_headers; mret (headers, raw_body)) = Ok (hs, raw_body) ->
  header_value hs CONTENT_TYPE = Some ct -> is_multipart ct = true -> parse_boundary ct = Some b ->
  multipart_sections raw_body b = Ok sections ->
  parse_message_raw (S fp) raw =
  (parts ← parse_all fp sections; Some ((fun ps => mkParsed hs None ps false) <$> (parts : result str (list ParsedMessage)))).
Proof.
  intros Hs Hct Hm Hb Hsec. cbn [parse_message_raw]. rewrite Hs. cbv iota beta. rewrite Hct. cbn [default from_option id].
  unfold is_multipart in Hm. rewrite Hm, Hb. cbn [ok_or mbind result_bind]. by rewrite Hsec.
Qed.

(** The parts of a multipart message are rendered one by one, *)
Lemma render_all_texts b parts body : render_all b parts = Some (Ok body) ->
  exists texts, Forall2 (fun part text => render_message fuel part false = Some (Ok text)) parts texts /\
    body = multipart_text b texts.
Proof.
  revert body. induction parts as [|part parts IH]; intros body.
  - intros [= <-]. exists []. split; [constructor|]. unfold multipart_text, closer. by rewrite <- !(assoc_L (++)).
  - intros ([text|e] & Hpart & Hr)%bind_Some; [|done]. apply bind_Some in Hr as ([more|e] & Hmore & [= <-]).
    destruct (IH _ Hmore) as (texts & Hf & ->). exists (text :: texts). split; [by constructor|].
    cbn [multipart_text]. unfold marker. by rewrite <- !(assoc_L (++)).
Qed.

(** and the sections are parsed one by one. *)
Lemma parse_all_parts fp sections parts : Forall2 (fun s p => parse_message_raw fp s = Some (Ok p)) sections parts ->
  parse_all fp sections = Some (Ok parts).
Proof. induction 1 as [|s p sections parts Hp _ IH]; [done|]. cbn. rewrite Hp. cbn [mbind option_bind]. by rewrite IH. Qed.

Lemma single_restores top m text fp : m_parts m = [] -> headers_ok (m_headers m) -> body_valid m ->
  (forall ct, header_value (m_headers m) CONTENT_TYPE = Some ct -> is_multipart ct = false) ->
  render_single m (top_headers m top) = Ok text ->
  exists p, parse_message_raw (S fp) (unify text) = Some (Ok p) /\ restored fuel top m p.
Proof.
  intros Hp Hok Hbody Hct Hr. unfold render_single in Hr. fold (with_content_type (top_headers m top)) in Hr.
  apply bind_Ok in Hr as (encoding & Henc & (out & Hout & (body & Hrb & [= <-])%bind_Ok)%bind_Ok).
  pose proof (single_content_type m top encoding Hok) as Hctv.
  fold (single_headers (top_headers m top) encoding) in Hout.
  set (hs := single_headers (top_headers m top) encoding) in *.
  assert (headers_ok hs) as [Hd Hv].
  { apply set_header_ok; [by apply with_content_type_ok, top_headers_ok|apply token_restorable]. }
  eexists. split; [|by apply restored_single].
  cbn [parse_message_raw]. change (CR :: LF :: body) with (CRLF ++ body).
  rewrite (message_splits hs out body) by (try done; apply set_header_nonempty). cbv iota beta. rewrite Hctv. cbn [default].
  set (ct := default DEFAULT_TEXT_CONTENT_TYPE (header_value (m_headers m) CONTENT_TYPE)) in *.
  assert (is_multipart ct = false) as Hmp.
  { unfold ct. destruct (header_value (m_headers m) CONTENT_TYPE) as [ct'|] eqn:E; [by apply Hct|]. vm_compute. reflexivity. }
  unfold is_multipart in Hmp. cbn [default from_option id]. rewrite Hmp.
  unfold decode_body. rewrite Hctv.
  assert (header_value hs CONTENT_TRANSFER_ENCODING = Some (encoding_token encoding)) as ->
    by (apply header_value_set; by apply with_content_type_ok, top_headers_ok).
  cbn [mbind option_bind]. rewrite encoding_token_parse. cbn [default from_option id].
  pose proof (render_body_restores m encoding body Hbody Hrb) as Hdec. unfold transfer_decode in Hdec. rewrite Hdec. done.
Qed.

(** The content type of a multipart message is read as it was written. *)
Lemma multipart_type_reads m top b :
  (forall ct, header_value (m_headers m) CONTENT_TYPE = Some ct -> is_multipart ct = true) -> 59 ∉ b ->
  parse_boundary (multipart_type (top_headers m top) b) = Some b /\ is_multipart (multipart_type (top_headers m top) b) = true.
Proof.
  intros Hmp Hb. unfold multipart_type, is_multipart. rewrite top_headers_value by (vm_compute; discriminate).
  destruct (header_value (m_headers m) CONTENT_TYPE) as [ct|] eqn:E.
  - destruct (boundary_added (content_type_base ct) b) as [-> ->]; try done; [apply content_type_base_plain|apply trim_trim|].
    split; [done|]. by apply Hmp.
  - destruct (boundary_added DEFAULT_MULTIPART_CONTENT_TYPE b) as [-> ->]; try done. vm_compute. set_solver.
Qed.

(** What was rendered had no line breaks in its values. *)
Lemma rendered_unbroken hs out h : render_headers hs = Ok out -> h ∈ hs -> unbroken (h_value h).
Proof.
  revert out. induction hs as [|h' hs IH]; intros out; [by intros _ ?%not_elem_of_nil|]. cbn [render_headers].
  intros ([] & _ & ([] & Hv & (out' & Hout & _)%bind_Ok)%bind_Ok)%bind_Ok [->|Hin]%elem_of_cons; [by apply value_unbroken|].
  by eapply IH.
Qed.

Lemma rendered_length hs out : hs <> [] -> render_headers hs = Ok out -> (1 <= length (unify out))%nat.
Proof.
  destruct hs as [|h hs]; [done|]. cbn [render_headers].
  intros _ (_ & _ & (_ & _ & (out' & Hout & [= <-])%bind_Ok)%bind_Ok)%bind_Ok.
  change (CR :: LF :: out') with (CRLF ++ out'). rewrite unify_app_crlf, length_app. cbn. lia.
Qed.

(** Parsing what was rendered, with any fuel beyond the length. *)
Lemma message_restores m : forall top text fp,
  faithful fuel top m -> render_message fuel m top = Some (Ok text) -> (length (unify text) < fp)%nat ->
  exists p, parse_message_raw fp (unify text) = Some (Ok p) /\ restored fuel top m p.
Proof.
  induction m as [hs0 body0 parts0 enc0 IH] using mime_ind. set (m := mkMime hs0 body0 parts0 enc0) in *.
  change parts0 with (m_parts m) in IH. clearbody m. intros top text [|fp] Hf Hr Hfp; [lia|].
  destruct Hf as [top m Hp Hok Hbody Hct|top m b Hp Hok Hb Hrest Hmp Hparts].
  { apply single_restores; try done. destruct m as [hs b ps e]. cbn [m_parts] in Hp. subst ps. by injection Hr. }
  rewrite render_multipart, Hb in Hr by done. cbn [mbind option_bind] in Hr.
  set (hs := set_header _ _ _) in *. destruct (render_headers hs) as [out|e] eqn:Hout; [|done].
  apply bind_Some in Hr as ([body|e] & Hbody & Hr); [|done]. injection Hr as <-.
  apply render_all_texts in Hbody as (texts & Htexts & ->).
  pose proof (top_headers_ok m top Hok) as Htop. assert (headers_ok hs) as [Hd Hv] by (by apply set_header_ok).
  destruct (multipart_type_reads m top b Hmp) as [Hpb Hmt]; [by eapply message_boundary_plain|].
  pose proof (header_value_set (top_headers m top) CONTENT_TYPE (multipart_type (top_headers m top) b) (proj1 Htop)) as Hct.
  assert (unbroken b) as Hub.
  { apply (parse_boundary_unbroken _ _ Hpb). destruct (header_value_elem _ _ _ Hct) as (h & Hin & <-). by eapply rendered_unbroken. }
  assert (Forall (separated b) texts) as Hsep.
  { clear -Htexts Hparts. induction Htexts as [|part text parts texts Hr _ IHt]; [constructor|].
    apply Forall_cons in Hparts as [[_ Hs] Hparts]. constructor; auto. }
  pose proof (sections_restore b texts Hub Hsep) as [_ Hsec].
  pose proof (message_splits hs out (multipart_text b texts)) as Hsplit.
  assert (Forall (fun s => (length s < fp)%nat) (unify <$> texts)) as Hlen.
  { apply sections_size in Hsec. rewrite split_char_size in Hsec. eapply Forall_impl; [exact Hsec|]. cbn beta. intros s Hs.
    change (CR :: LF :: ?x) with (CRLF ++ x) in Hfp. rewrite unify_app_crlf, length_app in Hfp. cbn [length] in *.
    pose proof (rendered_length hs out (set_header_nonempty _ _ _) Hout). lia. }
  assert (exists parts, Forall2 (restored fuel false) (m_parts m) parts /\
    Forall2 (fun s p => parse_message_raw fp s = Some (Ok p)) (unify <$> texts) parts) as (parts & Hres & Hpp).
  { clear -Htexts Hparts IH Hlen. induction Htexts as [|part text parts texts Hr _ IHt]; [by exists []|].
    apply Forall_cons in Hparts as [[Hfp _] Hparts]. apply Forall_cons in IH as [IHp IH]. apply Forall_cons in Hlen as [Hl Hlen].
    destruct (IHp false text fp Hfp Hr Hl) as (p & Hp & Hrp). destruct IHt as (ps & Hps & Hpps); try done.
    exists (p :: ps). split; by constructor. }
  exists (mkParsed hs None parts false). split; [|by eapply restored_multipart].
  erewrite parse_multipart; [|apply Hsplit; try done; apply set_header_nonempty|done|done|done|].
  2: { unfold multipart_sections. unfold marker, closer in Hsec. by rewrite Hsec. }
  by rewrite (parse_all_parts fp _ parts).
Qed.
End messages.
