(* ===== verification/MimeNested.v ===== *)
(** * MimeNested: boundaries that separate, at every level of nesting

    The search for a boundary looks at the bodies as the script gave them, not
    at what is written for them.  For parts without parts of their own that is
    enough: no line of a header can be a boundary line, and a body line that
    is one, in any transfer encoding, comes from a body with the boundary in
    it.  For nested parts it is not enough ([nested_boundaries_collide]): the
    boundary of each level must also differ from those of the levels inside
    it.  [composable] collects these conditions on a message, and
    [composed_messages_restored] shows that they suffice. *)

From S2P Require Import Prelude Utf8 Str Mime MimeProps MimeLines MimeRoundtrip.

(** ** Pieces of a text *)

Definition infix (x s : str) : Prop := exists a c, s = a ++ x ++ c.

Lemma infix_cons x c s : infix x s -> infix x (c :: s).
Proof. intros (a & d & ->). by exists (c :: a), d. Qed.

Lemma infix_trans x y z : infix x y -> infix y z -> infix x z.
Proof. intros (a & b & ->) (c & d & ->). exists (c ++ a), (b ++ d). by rewrite <- !(assoc_L (++)). Qed.

Lemma prefix_infix x s t : s = x ++ t -> infix x s.
Proof. intros ->. by exists [], t. Qed.

Lemma infix_contains x s : infix x s -> contains x s = true.
Proof.
  intros (a & c & ->). unfold contains. induction a as [|d a IH].
  - cbn [app]. destruct (x ++ c) as [|e r] eqn:E.
    + apply app_eq_nil in E as [-> ->]. done.
    + rewrite split_once_cons, <- E, starts_with_app. done.
  - rewrite <- app_comm_cons, split_once_cons. destruct (starts_with x _); [done|].
    destruct (split_once x (a ++ x ++ c)) as [[? ?]|]; [done|]. done.
Qed.

(** The lines of a text, up to the kind of line breaks, are pieces of it. *)
Lemma unify_lines s : exists l ls, split_char LF (unify s) = l :: ls /\ (exists t, s = l ++ t) /\ Forall (fun l => infix l s) ls.
Proof.
  induction s as [|r (l & ls & Heq & (t & Ht) & Hf)|r Hr (l & ls & Heq & (t & Ht) & Hf)|c r Hc (l & ls & Heq & (t & Ht) & Hf)]
    using crlf_ind; [by exists [], []; split; [|split; [exists []|constructor]]|..].
  - exists [], (l :: ls). rewrite unify_crlf. cbn [split_char]. rewrite Z.eqb_refl, Heq. split; [done|]. split; [by eexists|].
    constructor; [apply infix_cons, infix_cons; by eapply prefix_infix|].
    eapply Forall_impl; [exact Hf|]. intros x Hx. by apply infix_cons, infix_cons.
  - exists [], (l :: ls). rewrite unify_cr by done. cbn [split_char]. rewrite Z.eqb_refl, Heq. split; [done|]. split; [by eexists|].
    constructor; [apply infix_cons; by eapply prefix_infix|]. eapply Forall_impl; [exact Hf|]. intros x Hx. by apply infix_cons.
  - rewrite unify_other by done. cbn [split_char]. rewrite Heq. destruct (c =? LF).
    + exists [], (l :: ls). split; [done|]. split; [by eexists|].
      constructor; [apply infix_cons; by eapply prefix_infix|]. eapply Forall_impl; [exact Hf|]. intros x Hx. by apply infix_cons.
    + exists (c :: l), ls. split; [done|]. split; [exists t; by rewrite Ht|].
      eapply Forall_impl; [exact Hf|]. intros x Hx. by apply infix_cons.
Qed.

Lemma line_infix l s : l ∈ split_char LF (unify s) -> infix l s.
Proof.
  destruct (unify_lines s) as (h & ls & -> & (t & ->) & Hf). intros [->|Hl]%elem_of_cons; [by eapply prefix_infix|].
  rewrite Forall_forall in Hf. by apply Hf.
Qed.

(** A piece without line breaks is a piece of a line. *)
Lemma infix_line x s : x <> [] -> unbroken x -> infix x s -> exists l, l ∈ split_char LF (unify s) /\ infix x l.
Proof.
  intros Hne Hu (a & c & ->). induction a as [|a IH|a Ha IH|d a Hd IH] using crlf_ind.
  - cbn [app]. rewrite unify_append by (by apply unbroken_no_cr).
    destruct (split_char_prefix LF x (unify c)) as (p & ps & ->); [by apply unbroken_no_lf|].
    exists (x ++ p). split; [by left|]. by exists [], p.
  - destruct IH as (l & Hl & Hx). exists l. split; [|done]. rewrite <- !app_comm_cons, unify_crlf. cbn [split_char].
    rewrite Z.eqb_refl. by right.
  - destruct IH as (l & Hl & Hx). exists l. split; [|done]. rewrite <- app_comm_cons, unify_cr.
    + cbn [split_char]. rewrite Z.eqb_refl. by right.
    + intros r' Hr. destruct a as [|e a]; [|injection Hr as -> _; by eapply Ha]. destruct x as [|e x]; [done|].
      injection Hr as -> _. by inversion Hu as [|? ? [] _].
  - destruct IH as (l & Hl & Hx). rewrite <- app_comm_cons, unify_other by done. cbn [split_char].
    destruct (d =? LF); [exists l; split; [by right|done]|].
    destruct (split_char LF (unify (a ++ x ++ c))) as [|h t]; [by apply not_elem_of_nil in Hl|].
    apply elem_of_cons in Hl as [->|Hl]; [exists (d :: h)|exists l]; (split; [|by try apply infix_cons]); [by left|by right].
Qed.

(** ASCII pieces of an encoded text. *)
Definition ascii_str (s : str) : Prop := Forall (fun c => 0 <= c < 128) s.

Lemma encode_char_head c x r : is_scalar c = true -> encode_char c = x :: r -> x < 128 -> c = x /\ r = [].
Proof.
  intros Hs He Hx. destruct (Z.lt_ge_cases c 128) as [Hlt|Hge].
  - rewrite encode_char_ascii in He by (apply scalar_cases in Hs; lia). by injection He as -> <-.
  - pose proof (encode_char_high c Hs Hge) as Hf. rewrite He in Hf. inversion Hf; subst. lia.
Qed.

Lemma utf8_prefix l s y : valid_str s -> ascii_str l -> utf8_encode s = l ++ y -> exists y', s = l ++ y'.
Proof.
  intros Hs Hl. revert s Hs. induction Hl as [|c l Hc _ IH]; intros s Hs Heq; [by exists s|].
  destruct Hs as [|d s Hd Hs]; [done|]. rewrite utf8_encode_cons in Heq. pose proof (encode_char_nonempty d) as Hn.
  destruct (encode_char d) as [|e r] eqn:He; [cbn in Hn; lia|]. cbn in Heq. injection Heq as -> Heq.
  destruct (encode_char_head d c r Hd He) as [-> ->]; [lia|]. cbn in Heq. destruct (IH s Hs Heq) as [y' ->]. by exists y'.
Qed.

Lemma utf8_infix l s : valid_str s -> ascii_str l -> l <> [] -> infix l (utf8_encode s) -> infix l s.
Proof.
  intros Hs Hl Hne (x & y & Heq). revert x Heq. induction Hs as [|c s Hc Hs IH]; intros x Heq.
  - destruct x; [|done]. by destruct l.
  - destruct x as [|x0 x].
    + cbn [app] in Heq. destruct (utf8_prefix l (c :: s) y) as [y' ->]; [by constructor|done|done|]. by exists [], y'.
    + rewrite utf8_encode_cons in Heq. apply app_eq_inv in Heq as [(k & He & Hk)|(k & Hx & Hk)].
      * destruct k as [|e k]; [apply infix_cons, (IH []); by rewrite Hk|].
        destruct l as [|l0 l]; [done|]. injection Hk as -> Hk. exfalso.
        destruct (Z.lt_ge_cases c 128) as [Hlt|Hge].
        { rewrite encode_char_ascii in He by (apply scalar_cases in Hc; lia). by destruct x. }
        pose proof (encode_char_high c Hc Hge) as Hf. rewrite He, Forall_app in Hf. destruct Hf as [_ Hf].
        inversion Hf; subst. inversion Hl; subst. lia.
      * apply infix_cons, (IH k). done.
Qed.

(** ** What is written for a body *)

(** A line of quoted-printable text without an equals sign is a piece of the
    bytes it stands for. *)
Definition plain_lines (b : bytes) (ls : list str) : Prop := Forall (fun l => 61 ∉ l -> infix l b) ls.

Lemma qp_token_plain c : in_range u8_max c -> (qp_token c = [c] /\ c <> LF) \/ 61 ∈ qp_token c.
Proof.
  intros _. unfold qp_token. destruct (qp_literal c) eqn:Hl; [left|right; by left]. split; [done|]. by intros ->.
Qed.

Lemma split_lf_prepend t s l ls : LF ∉ t -> split_char LF s = l :: ls -> split_char LF (t ++ s) = (t ++ l) :: ls.
Proof.
  induction t as [|c t IH]; intros Ht Hs; [done|]. apply not_elem_of_cons in Ht as [Hc Ht].
  cbn [app split_char]. rewrite (IH Ht Hs). by rewrite (proj2 (Z.eqb_neq c LF)) by congruence.
Qed.

(** The first line comes from the start of the bytes, the others from
    anywhere. *)
Definition plain_text (b : bytes) (s : str) : Prop := exists l ls,
  split_char LF (unify s) = l :: ls /\ (61 ∉ l -> exists t, b = l ++ t) /\ plain_lines b ls.

Lemma plain_lines_cons c b ls : plain_lines b ls -> plain_lines (c :: b) ls.
Proof. intros Hf. eapply Forall_impl; [exact Hf|]. intros l Hl H61. by apply infix_cons, Hl. Qed.

Lemma plain_text_token c r s : in_range u8_max c -> plain_text r s -> plain_text (c :: r) (qp_token c ++ s).
Proof.
  intros Hc (l & ls & Heq & Hl & Hls). pose proof (token_ok_spec _ _ (qp_token_ok c Hc)) as (Htlf & _ & _).
  exists (qp_token c ++ l), ls. rewrite unify_append by (by apply qp_token_no_cr).
  rewrite (split_lf_prepend _ _ l ls) by done. split; [done|]. split; [|by apply plain_lines_cons].
  intros [H1 H2]%not_elem_of_app. destruct (qp_token_plain c Hc) as [[-> _]|]; [|done].
  destruct (Hl H2) as [t ->]. by exists t.
Qed.

Lemma plain_text_soft b s : plain_text b s -> plain_text b ([61] ++ CRLF ++ s).
Proof.
  intros (l & ls & Heq & Hl & Hls). exists [61], (l :: ls). change ([61] ++ CRLF ++ s) with (61 :: CR :: LF :: s).
  rewrite unify_other, unify_crlf by done. cbn [split_char]. change (61 =? LF) with false. rewrite Z.eqb_refl, Heq.
  split; [done|]. split; [by intros []; left|]. constructor; [|done]. intros [t ->]%Hl. by eapply prefix_infix.
Qed.

Lemma qp_lines_plain b : valid_bytes b -> forall n, plain_text b (qp_encode_from n false b).
Proof.
  assert (forall c r n, in_range u8_max c -> (c = CR -> forall r', r <> LF :: r') ->
    (forall n, plain_text r (qp_encode_from n false r)) -> plain_text (c :: r) (qp_encode_from n false (c :: r))) as Hstep.
  { intros c r n Hc Hcr IH. rewrite qp_encode_token by done. unfold qp_push_token. cbn [fst snd].
    destruct (75 <? _); rewrite <- ?(assoc_L (++)); [apply plain_text_soft|cbn [app]]; by apply plain_text_token. }
  induction b as [|r IH|r Hr IH|c r Hc IH] using crlf_ind; intros Hv n.
  - exists [], []. split; [done|]. split; [by exists []|constructor].
  - apply Forall_cons in Hv as [_ Hv]. apply Forall_cons in Hv as [_ Hv]. destruct (IH Hv 0) as (l & ls & Heq & Hl & Hls).
    rewrite qp_encode_crlf. change (CRLF ++ ?x) with (CR :: LF :: x). unfold plain_text. rewrite unify_crlf. cbn [split_char].
    rewrite Z.eqb_refl, Heq. exists [], (l :: ls). split; [done|]. split; [by eexists|]. constructor.
    + intros [t ->]%Hl. apply infix_cons, infix_cons. by eapply prefix_infix.
    + by apply plain_lines_cons, plain_lines_cons.
  - apply Forall_cons in Hv as [Hcv Hv]. apply Hstep; auto.
  - apply Forall_cons in Hv as [Hcv Hv]. apply Hstep; [done|done|auto].
Qed.

Lemma qp_line_infix b l : valid_bytes b -> l ∈ split_char LF (unify (qp_encode b)) -> 61 ∉ l -> infix l b.
Proof.
  intros Hb. destruct (qp_lines_plain b Hb 0) as (h & ls & Heq & Hh & Hls). unfold qp_encode. rewrite Heq.
  intros [->|Hl]%elem_of_cons H61; [destruct (Hh H61) as [t ->]; by eapply prefix_infix|].
  unfold plain_lines in Hls. rewrite Forall_forall in Hls. by apply Hls.
Qed.

Lemma wrap_elem width input n c : c ∈ wrap_from width n input -> c = CR \/ c = LF \/ c ∈ input.
Proof.
  revert n. induction input as [|d input IH]; intros n; [by intros ?%not_elem_of_nil|]. cbn [wrap_from].
  intros Hc. destruct (width <=? n); [change (CRLF ++ ?x) with (CR :: LF :: x) in Hc|cbn [app] in Hc];
    repeat (apply elem_of_cons in Hc as [->|Hc]; [set_solver|]); apply IH in Hc; set_solver.
Qed.

(** ** Boundary lines *)

(** The characters allowed in a boundary here: ASCII, and none that a header
    line or a quoted-printable escape has. *)
Definition tame (c : Z) : bool :=
  (0 <=? c) && (c <? 128) && negb (c =? 58) && negb (c =? 61) && negb (c =? CR) && negb (c =? LF).
Abbreviation tame_chars := (Forall (fun c => tame c = true)).

Lemma tame_spec c : tame c = true -> 0 <= c < 128 /\ c <> 58 /\ c <> 61 /\ c <> CR /\ c <> LF.
Proof. unfold tame. intros Hc. bool_facts. lia. Qed.

Lemma boundary_chars_tame b : boundary_chars b -> tame_chars b.
Proof.
  intros Hb. eapply Forall_impl; [exact Hb|]. cbn. intros c Hc. unfold boundary_char in Hc. unfold tame, CR, LF.
  rewrite !orb_true_iff in Hc. rewrite !andb_true_iff, !negb_true_iff, !Z.eqb_neq, Z.leb_le, Z.ltb_lt.
  intuition; bool_facts; lia.
Qed.

Lemma tame_ascii b : tame_chars b -> ascii_str b.
Proof. intros Hb. eapply Forall_impl; [exact Hb|]. by intros c []%tame_spec. Qed.

Lemma tame_unbroken b : tame_chars b -> unbroken b.
Proof. intros Hb. eapply Forall_impl; [exact Hb|]. intros c Hc%tame_spec. tauto. Qed.

(** What a line that starts or ends a part is made of. *)
Lemma boundary_line b l : tame_chars b -> l = marker b \/ l = closer b -> tame_chars l /\ head l = Some 45 /\ infix b l.
Proof.
  intros Hb. assert (tame_chars (lit "--")) as Hd by (by repeat constructor).
  intros [-> | ->]; unfold marker, closer; (split; [by rewrite !Forall_app|]); (split; [done|]).
  - exists (lit "--"), []. by rewrite app_nil_r.
  - by exists (lit "--"), (lit "--").
Qed.

Lemma separated_intro b text :
  (forall l, l ∈ split_char LF (unify text) -> ~ (l = marker b \/ l = closer b)) -> separated b text.
Proof. intros Hl. apply Forall_forall. intros l Hin%Hl. tauto. Qed.

Lemma separated_join b s r : separated b s -> separated b r -> separated b (s ++ CRLF ++ r).
Proof. unfold separated. intros Hs Hr. rewrite unify_app_crlf, split_lines_app. by apply Forall_app. Qed.

Lemma separated_line b l : unbroken l -> l <> marker b -> l <> closer b -> separated b l.
Proof.
  intros Hu Hm Hc. unfold separated. rewrite unify_id by (by apply unbroken_no_cr).
  rewrite split_char_one by (by apply unbroken_no_lf). by repeat constructor.
Qed.

Lemma separated_nil b : separated b [].
Proof. by repeat constructor. Qed.

(** Boundaries none of whose lines are lines of the other. *)
Definition apart (b b' : str) : Prop := b' <> b /\ b' <> b ++ lit "--" /\ b <> b' ++ lit "--".

Lemma apart_lines b b' l : apart b b' -> l = marker b' \/ l = closer b' -> l <> marker b /\ l <> closer b.
Proof.
  intros (H1 & H2 & H3) [-> | ->]; unfold marker, closer; split; intros Heq%(inj (app (lit "--")));
    try (apply (inj (fun x => x ++ lit "--")) in Heq); congruence.
Qed.

(** A multipart body, whose parts and whose own boundary do not have the
    boundary of an outer level. *)
Lemma multipart_separated b b' texts : apart b b' -> tame_chars b' -> Forall (separated b) texts ->
  separated b (multipart_text b' texts).
Proof.
  intros Hap Hb' Hts.
  assert (forall l, l = marker b' \/ l = closer b' -> separated b l) as Hl.
  { intros l Hor. destruct (apart_lines b b' l Hap Hor). destruct (boundary_line b' l Hb' Hor) as (Ht & _).
    apply separated_line; [by apply tame_unbroken|done|done]. }
  induction Hts as [|text texts Ht _ IH]; cbn [multipart_text].
  - change CRLF with (CRLF ++ []) at 1. apply separated_join; [by apply Hl; right|apply separated_nil].
  - apply separated_join; [by apply Hl; left|]. by apply separated_join.
Qed.

Section separation.
Context `{Base64Laws}.

(** A line of a rendered body that is made of boundary characters, and is not
    base64, comes from the body. *)
Lemma rendered_line_source m encoding body l : body_valid m -> render_body m encoding = Ok body ->
  l ∈ split_char LF (unify body) -> tame_chars l -> 45 ∈ l -> infix l (body_bytes_and_text m).1.
Proof.
  intros Hv Hr Hl Hch H45. pose proof (body_bytes_valid m Hv) as Hb. unfold render_body in Hr.
  assert (forall text, from_utf8 (body_bytes_and_text m).1 = Some text ->
    is_ascii (body_bytes_and_text m).1 = true \/ (body_bytes_and_text m).2 = true ->
    infix l text -> infix l (body_bytes_and_text m).1) as Hplain.
  { intros text Hf Hor (a & c & ->). destruct (body_is_text m Hv Hor) as (s & Hs & Heq). rewrite Heq in Hf |- *.
    rewrite from_utf8_encode in Hf by done. injection Hf as Hf. subst s. exists (utf8_encode a), (utf8_encode c).
    rewrite !utf8_encode_app. do 2 f_equal. by apply utf8_encode_ascii, tame_ascii. }
  destruct (body_bytes_and_text m) as [b is_text]. cbn [fst snd] in *. destruct encoding.
  - destruct (is_ascii b) eqn:Ha; cbn [negb] in Hr; [|done].
    destruct (from_utf8 b) as [t|] eqn:Hf; [|done]. injection Hr as <-. apply (Hplain t); auto using line_infix.
  - destruct is_text; [|done]. destruct (from_utf8 b) as [t|] eqn:Hf; [|done]. injection Hr as <-. apply (Hplain t); auto using line_infix.
  - destruct is_text; [|done]. destruct (from_utf8 b) as [t|] eqn:Hf; [|done]. injection Hr as <-. apply (Hplain t); auto using line_infix.
  - injection Hr as <-. apply qp_line_infix; [done|done|]. intros H61. rewrite Forall_forall in Hch. by specialize (Hch 61 H61).
  - injection Hr as <-. exfalso. apply (line_infix _ _) in Hl as (a & c & Heq).
    assert (45 ∈ base64_encode_wrapped b) as Hin by (rewrite Heq; set_solver).
    apply wrap_elem in Hin as [?|[?|Hin]]; try done. pose proof (b64_chars b Hb) as Hf. rewrite Forall_forall in Hf.
    specialize (Hf _ Hin). by apply b64_char_plain in Hf as [_ []].
Qed.

(** A body whose bytes have the boundary in them is one that has it. *)
Lemma body_has_boundary m b : body_valid m -> tame_chars b -> b <> [] -> infix b (body_bytes_and_text m).1 ->
  message_contains_boundary m b = true.
Proof.
  intros Hv Hb Hne Hin. destruct m as [hs body ps e]. cbn [message_contains_boundary m_body]. apply orb_true_intro. left.
  pose proof (tame_ascii b Hb) as Ha. pose proof (tame_unbroken b Hb) as Hu.
  unfold body_valid, body_bytes_and_text in *. cbn [m_body] in *. destruct body as [[t|bs]|]; cbn [fst] in *.
  - apply infix_contains. apply utf8_infix in Hin; [|by apply expand_valid_str|done|done].
    apply infix_line in Hin as (l & Hl & Hbl); [|done|done]. rewrite unify_text in Hl. apply line_infix in Hl. by eapply infix_trans.
  - rewrite utf8_encode_ascii by done. by apply infix_contains.
  - destruct Hin as (a & c & Heq). destruct a; [|done]. by destruct b.
Qed.

Lemma rendered_body_separated m encoding body b : body_valid m -> render_body m encoding = Ok body ->
  tame_chars b -> b <> [] -> message_contains_boundary m b = false -> separated b body.
Proof.
  intros Hv Hr Hb Hne Hfresh. apply separated_intro. intros l Hl (Ht & H45 & Hbl)%boundary_line; [|done].
  apply not_true_iff_false in Hfresh. apply Hfresh. apply body_has_boundary; try done. eapply infix_trans; [exact Hbl|].
  eapply rendered_line_source; try done. by apply head_Some_elem_of.
Qed.

(** No line of a rendered header is a boundary line. *)
Lemma headers_separated b hs out rest : Forall (fun h => value_restorable (h_value h)) hs -> render_headers hs = Ok out ->
  tame_chars b -> separated b rest -> separated b (out ++ CRLF ++ rest).
Proof.
  intros Hh Hout Hb Hrest. apply render_headers_restores in Hout as (lines & -> & Hl & _ & _); [|done].
  unfold separated. rewrite unify_breaks by done.
  assert (split_char LF ((lines ≫= fun l => l ++ [LF]) ++ LF :: unify rest) = lines ++ [] :: split_char LF (unify rest)) as ->.
  { clear -Hl. induction Hl as [|l lines (_ & Hu & _) _ IH]; [done|]. cbn [mbind list_bind]. rewrite <- !(assoc_L (++)).
    change ([LF] ++ ?x) with (LF :: x). rewrite split_lines_app, IH. by rewrite split_char_one by (by apply unbroken_no_lf). }
  apply Forall_app. split; [|by constructor].
  eapply Forall_impl; [exact Hl|]. intros l (_ & _ & Hor).
  assert (~ (l = marker b \/ l = closer b)) as Hno; [|tauto]. intros (Ht & Hhd & _)%boundary_line; [|done].
  destruct Hor as [H58|Hsp]; [|congruence]. rewrite Forall_forall in Ht. by specialize (Ht _ H58).
Qed.

Lemma boundary_nonempty fuel m b : generate_boundary fuel m = Some b -> b <> [].
Proof. by intros [i ->]%boundary_from_text. Qed.

Lemma part_lacks_boundary m part b : part ∈ m_parts m -> message_contains_boundary m b = false ->
  message_contains_boundary part b = false.
Proof.
  intros Hin Hm. destruct m as [hs body ps e]. cbn in Hm, Hin. apply orb_false_iff in Hm as [_ Hm].
  apply not_true_iff_false. intros Hc. apply not_true_iff_false in Hm. apply Hm.
  apply existsb_exists. exists part. split; [by apply list_elem_of_In|done].
Qed.

(** A rendered part without parts. *)
Lemma single_separated fuel part b text :
  m_parts part = [] -> headers_ok (m_headers part) -> body_valid part -> tame_chars b -> b <> [] ->
  message_contains_boundary part b = false ->
  render_message fuel part false = Some (Ok text) -> separated b text.
Proof.
  intros Hp Hh Hbody Hb Hne Hfresh Hr.
  assert (render_single part (top_headers part false) = Ok text) as Hs
    by (destruct part as [hs body ps e]; cbn [m_parts] in Hp; subst ps; by injection Hr).
  unfold render_single in Hs. fold (with_content_type (top_headers part false)) in Hs.
  apply bind_Ok in Hs as (encoding & _ & (out & Hout & (rendered & Hrb & [= <-])%bind_Ok)%bind_Ok).
  change (CR :: LF :: ?x) with (CRLF ++ x). eapply headers_separated; [|exact Hout|done|by eapply rendered_body_separated].
  apply set_header_ok; [by apply with_content_type_ok, top_headers_ok|apply token_restorable].
Qed.
End separation.

(** ** Messages that survive the trip *)

(** [sub] is a part of [m], or a part of a part, and so on. *)
Inductive inside (sub : MimeMessage) : MimeMessage -> Prop :=
| inside_part m : sub ∈ m_parts m -> inside sub m
| inside_deep m part : part ∈ m_parts m -> inside sub part -> inside sub m.

(** What a message with parts may say of its content type, when its boundary
    is [b]: nothing, or that it is multipart, in words that can be read back;
    a boundary the message itself names is not in its bodies. *)
Definition type_fits (m : MimeMessage) (b : str) : Prop :=
  forall ct, header_value (m_headers m) CONTENT_TYPE = Some ct ->
    is_multipart ct = true /\ value_restorable (multipart_type (m_headers m) b) /\
    (is_Some (parse_boundary ct) -> tame_chars b /\ b <> [] /\ message_contains_boundary m b = false).

(** The boundary of a message differs from those of the multipart messages
    inside it. *)
Definition levels_apart (fuel : nat) (m : MimeMessage) (b : str) : Prop :=
  forall sub b', inside sub m -> m_parts sub <> [] -> message_boundary fuel sub (m_headers sub) = Some b' -> apart b b'.

(** At every level: header names differ, values can be read back, bodies are
    texts and bytes, the content type says whether there are parts, and
    boundaries differ from those further in. *)
Inductive composable (fuel : nat) : MimeMessage -> Prop :=
| composable_single m :
    m_parts m = [] -> headers_ok (m_headers m) -> body_valid m ->
    (forall ct, header_value (m_headers m) CONTENT_TYPE = Some ct -> is_multipart ct = false) ->
    composable fuel m
| composable_multipart m b :
    m_parts m <> [] -> headers_ok (m_headers m) ->
    message_boundary fuel m (m_headers m) = Some b -> type_fits m b -> levels_apart fuel m b ->
    Forall (composable fuel) (m_parts m) ->
    composable fuel m.

(** The default content type with a generated boundary. *)
Lemma mixed_restorable b : boundary_chars b -> value_restorable (content_type_with_boundary DEFAULT_MULTIPART_CONTENT_TYPE b).
Proof.
  intros Hb. assert (content_type_with_boundary DEFAULT_MULTIPART_CONTENT_TYPE b =
    join [32] [lit "multipart/mixed;"; lit "boundary=" ++ [34] ++ b ++ [34]]) as -> by done.
  assert (Forall (fun c => 0 <= c < 128) b) as Hasc.
  { eapply Forall_impl; [exact Hb|]. cbn. intros x Hx. unfold boundary_char in Hx. rewrite !orb_true_iff in Hx. intuition; bool_facts; lia. }
  assert (Forall (fun c => is_whitespace c = false /\ c <> 63) b) as Hws.
  { eapply Forall_impl; [exact Hb|]. cbn. intros x Hx. rewrite Forall_forall in Hasc.
    unfold boundary_char in Hx. rewrite !orb_true_iff in Hx. split; [|intros ->; intuition; bool_facts; lia].
    unfold is_whitespace. rewrite !orb_false_iff, !andb_false_iff, !Z.leb_gt, !Z.eqb_neq. intuition; bool_facts; lia. }
  assert (forall P : Z -> Prop, Forall P (lit "multipart/mixed;") -> P 32 -> Forall P (lit "boundary=") -> P 34 -> Forall P b ->
    Forall P (join [32] [lit "multipart/mixed;"; lit "boundary=" ++ [34] ++ b ++ [34]])) as Hall.
  { intros P H1 H2 H3 H4 H5. cbn [join]. by rewrite !Forall_app, !Forall_singleton. }
  assert (is_ascii (join [32] [lit "multipart/mixed;"; lit "boundary=" ++ [34] ++ b ++ [34]]) = true) as Ha.
  { apply is_ascii_Forall, Hall; [apply is_ascii_Forall; reflexivity|lia|apply is_ascii_Forall; reflexivity|lia|done]. }
  split; [by apply ascii_bytes_text|]. intros _. split.
  - destruct (contains _ _) eqn:Hc; [|done]. apply contains_true in Hc as (a & c & Heq).
    assert (Forall (fun c => c <> 63) (join [32] [lit "multipart/mixed;"; lit "boundary=" ++ [34] ++ b ++ [34]])) as Hf.
    { apply Hall; try (by repeat constructor). eapply Forall_impl; [exact Hws|]. by intros x []. }
    rewrite Heq in Hf. rewrite Forall_forall in Hf. exfalso. apply (Hf 63); [|done].
    change (lit "=?") with [61; 63]. set_solver.
  - unfold single_spaced. apply orb_true_intro. right.
    assert (word_ok (lit "boundary=" ++ [34] ++ b ++ [34])) as Hw2.
    { split; [done|]. rewrite !Forall_app, !Forall_singleton. split; [by repeat constructor|]. split; [done|]. split; [|done].
      eapply Forall_impl; [exact Hws|]. by intros x []. }
    rewrite split_char_join; [|done|constructor; [vm_compute; set_solver|constructor; [by apply word_no_space|constructor]]].
    cbn [forallb]. rewrite andb_true_r. apply andb_true_intro. split; [reflexivity|].
    destruct Hw2 as [Hne Hf]. unfold word_okb. rewrite bool_decide_eq_false_2 by done. cbn [negb andb].
    apply forallb_forall. intros x Hx%list_elem_of_In. rewrite Forall_forall in Hf. by rewrite Hf.
Qed.

Lemma top_type m top b : multipart_type (top_headers m top) b = multipart_type (m_headers m) b.
Proof. unfold multipart_type. by rewrite top_headers_value by (vm_compute; discriminate). Qed.

Lemma top_boundary fuel m top : message_boundary fuel m (top_headers m top) = message_boundary fuel m (m_headers m).
Proof. unfold message_boundary. by rewrite top_headers_value by (vm_compute; discriminate). Qed.

(** The boundary of a composable message, generated or named. *)
Lemma boundary_fits fuel m b : message_boundary fuel m (m_headers m) = Some b -> type_fits m b ->
  value_restorable (multipart_type (m_headers m) b) /\ tame_chars b /\ b <> [] /\ message_contains_boundary m b = false.
Proof.
  intros Hb Ht.
  assert (generate_boundary fuel m = Some b -> tame_chars b /\ b <> [] /\ message_contains_boundary m b = false) as Hgen.
  { intros Hg. split; [by eapply boundary_chars_tame, generated_chars|]. split; [by eapply boundary_nonempty|].
    by eapply boundary_from_fresh. }
  unfold message_boundary in Hb. destruct (header_value (m_headers m) CONTENT_TYPE) as [ct|] eqn:Hct; cbn in Hb.
  - destruct (Ht ct Hct) as (_ & Hr & Hown). split; [done|]. destruct (parse_boundary ct) as [b'|]; [|by apply Hgen].
    apply Hown. by eexists.
  - split; [|by apply Hgen]. unfold multipart_type. rewrite Hct. by eapply mixed_restorable, generated_chars.
Qed.

Section nested.
Context `{Base64Laws}.

(** A rendered part has no line of an outer boundary that is in none of its
    bodies and apart from its own boundaries. *)
Lemma nested_separated fuel b part : tame_chars b -> b <> [] -> forall text,
  composable fuel part -> message_contains_boundary part b = false -> levels_apart fuel part b ->
  (forall b', m_parts part <> [] -> message_boundary fuel part (m_headers part) = Some b' -> apart b b') ->
  render_message fuel part false = Some (Ok text) -> separated b text.
Proof.
  intros Hb Hne. induction part as [hs0 body0 parts0 enc0 IH] using mime_ind. set (m := mkMime hs0 body0 parts0 enc0) in *.
  change parts0 with (m_parts m) in IH. clearbody m. intros text Hc Hfresh Hlev Hown Hr.
  destruct Hc as [m Hp Hok Hbody _|m b' Hp Hok Hb' Htype _ Hparts]; [by eapply single_separated|].
  destruct (boundary_fits fuel m b' Hb' Htype) as (Hmt & Htame & _).
  rewrite render_multipart, top_boundary, Hb' in Hr by done. cbn [mbind option_bind] in Hr. rewrite top_type in Hr.
  set (hs := set_header _ _ _) in *. destruct (render_headers hs) as [out|e] eqn:Hout; [|done].
  apply bind_Some in Hr as ([body|e] & Hbody & Hr); [|done]. injection Hr as <-.
  apply render_all_texts in Hbody as (texts & Htexts & ->).
  assert (headers_ok hs) as [_ Hv] by (apply set_header_ok; [by apply top_headers_ok|done]).
  change (CR :: LF :: ?x) with (CRLF ++ x). eapply headers_separated; try done. apply multipart_separated; [by apply Hown|done|].
  apply Forall_lookup. intros i text Hi. destruct (Forall2_lookup_r _ _ _ _ _ Htexts Hi) as (part & Hpi & Hpr).
  pose proof (list_elem_of_lookup_2 _ _ _ Hpi) as Hin. rewrite Forall_forall in IH, Hparts.
  apply (IH part Hin text); [by apply Hparts|by eapply part_lacks_boundary| |  |done].
  - intros sub b2 Hsub. apply Hlev. by eapply inside_deep.
  - intros b2. apply Hlev. by apply inside_part.
Qed.

Lemma composable_faithful fuel m : forall top, composable fuel m -> faithful fuel top m.
Proof.
  induction m as [hs0 body0 parts0 enc0 IH] using mime_ind. set (m := mkMime hs0 body0 parts0 enc0) in *.
  change parts0 with (m_parts m) in IH. clearbody m. intros top Hc.
  destruct Hc as [m Hp Hok Hbody Hct|m b Hp Hok Hb Htype Hlev Hparts]; [by apply faithful_single|].
  destruct (boundary_fits fuel m b Hb Htype) as (Hmt & Htame & Hne & Hfresh).
  apply faithful_multipart with b; [done|done|by rewrite top_boundary|by rewrite top_type|by intros ct []%Htype|].
  rewrite Forall_forall in IH, Hparts |- *. intros part Hin. split; [by apply IH, Hparts|]. intros text Hr.
  eapply (nested_separated fuel b part); [done|done|by apply Hparts|by eapply part_lacks_boundary| | |done].
  - intros sub b2 Hsub. apply Hlev. by eapply inside_deep.
  - intros b2. apply Hlev. by apply inside_part.
Qed.
End nested.

(** ** Properties *)

(** A text body is the text again, with line feeds for its line breaks,
    whatever the transfer encoding: [body_to_js] normalises what it reads. *)
Lemma restored_text m t encoding : m_body m = Some (Text t) -> valid_str t ->
  exists s, from_utf8 (restored_bytes m encoding) = Some s /\ normalize_raw_message s = normalize_raw_message t.
Proof.
  intros Hm Ht. pose proof (expand_valid_str t Ht) as Hv. unfold restored_bytes, body_bytes_and_text. rewrite Hm. cbn [fst].
  setoid_rewrite normalize_raw_unify.
  assert (forall s, valid_str s -> replace CRLF [LF] (utf8_encode s) = utf8_encode (replace CRLF [LF] s)) as Hcrlf.
  { intros s. induction s as [|r IH|r Hr IH|c r Hc IH] using crlf_ind; intros Hs; [done|..]; inversion Hs as [|? ? Hcv Hrv]; subst.
    - inversion Hrv; subst. rewrite replace_crlf_eq. change (utf8_encode (CR :: LF :: r)) with (CR :: LF :: utf8_encode r).
      rewrite replace_crlf_eq, IH by done. done.
    - rewrite replace_crlf_cr by done. change (utf8_encode (CR :: r)) with (CR :: utf8_encode r).
      rewrite replace_crlf_cr; [by rewrite IH|]. intros r' Heq. destruct (utf8_head_lf _ _ Hrv Heq) as [r2 ->]. by eapply Hr.
    - rewrite replace_crlf_other, !utf8_encode_cons, <- IH by done.
      assert (CR ∉ encode_char c) as Hno by (intros Hin; apply Hc; eapply encode_char_plain; eauto).
      revert Hno. generalize (encode_char c). induction l as [|x l IHl]; [done|]. intros [Hx Hl]%not_elem_of_cons.
      rewrite <- !app_comm_cons, replace_crlf_other by congruence. by rewrite IHl. }
  assert (valid_str (unify t)) as Hu by (by apply unify_valid_str).
  pose proof (unify_id _ (unify_no_cr t)) as Hid.
  destruct encoding; rewrite ?utf8_unify, ?Hcrlf, ?unify_text, ?crlf_text by done.
  1-4: exists (unify t); by rewrite from_utf8_encode.
  exists (normalize_text_lines t). by rewrite from_utf8_encode, unify_text.
Qed.

(** C11. A composed message is parsed to what it was made from, at every level
    of nesting: the same headers in the same order (with those the composer
    adds), the same parts, and the bytes of each body up to the line breaks
    its transfer encoding normalises.  The message must be [composable]: at
    every level, header names are distinct and header values can be read back
    ([value_restorable]: an ASCII value has single spaces and no encoded word
    in it), bodies are valid texts and bytes, the content type says multipart
    exactly when there are parts, a boundary the message names itself is plain
    ASCII and in none of its bodies, and the boundary of a level differs from
    those of the levels inside it.  The last condition is about nested
    multipart messages alone, and is not one the composer sees to
    ([nested_boundaries_collide]); a generated boundary is otherwise never
    mistaken for a line of a part, however the bodies are encoded. *)
Theorem composed_messages_restored `{Base64Laws} (fuel : nat) (m : MimeMessage) (text : str) :
  compose_text fuel m = Some (Ok text) -> composable fuel m ->
  exists p, parse_text text = Some (Ok p) /\ restored fuel true m p.
Proof.
  intros Hc Hf. unfold parse_text. rewrite normalize_raw_unify.
  apply message_restores; [by apply composable_faithful|done|lia].
Qed.

(** ** A concrete message *)

Module MimeNestedDemo.
Import MimeDemo.
#[local] Existing Instances hex_codec hex_codec_laws.

(** A letter of a text with a line that looks like a boundary and an
    attachment, and a message that forwards it, with a boundary of its own. *)
Definition attachment : MimeMessage :=
  mkMime [mkHeader (lit "Content-Type") (lit "application/octet-stream")] (Some (Bytes [0; 13; 10; 255])) [] None.
Definition note : MimeMessage := mkMime [] (Some (Text (lit "--mechanics" ++ [10; 0xE9]))) [] None.
Definition letter : MimeMessage := mkMime [mkHeader (lit "Subject") [104; 0xE9; 32; 32; 63]] None [note; attachment] None.
Definition forwarded : MimeMessage :=
  mkMime [mkHeader (lit "Content-Type") (lit "multipart/digest; boundary=outer")] None [letter; attachment] None.
Definition forwarded_text : str := match compose_text 3 forwarded with Some (Ok t) => t | _ => [] end.

Lemma attachment_composable fuel : composable fuel attachment.
Proof.
  apply composable_single; [reflexivity| | |].
  - split; [apply NoDup_singleton|]. constructor; [|constructor]. by apply literal_restorable.
  - repeat constructor; vm_compute; discriminate.
  - intros ct Hct. vm_compute in Hct. injection Hct as <-. vm_compute. reflexivity.
Qed.

Lemma note_composable fuel : composable fuel note.
Proof. apply composable_single; [reflexivity|split; constructor|repeat constructor|discriminate]. Qed.

Lemma flat_levels fuel m b : Forall (fun p => m_parts p = []) (m_parts m) -> levels_apart fuel m b.
Proof.
  rewrite Forall_forall. intros Hf sub b' Hin Hne. destruct Hin as [m Hp|m p Hp Hin]; [by destruct Hne; apply Hf|].
  specialize (Hf p Hp). exfalso. destruct Hin as [m' Hq|m' q Hq _]; rewrite Hf in Hq; by apply not_elem_of_nil in Hq.
Qed.

Lemma letter_composable : composable 3 letter.
Proof.
  eapply composable_multipart; [discriminate| |vm_compute; reflexivity|discriminate|apply flat_levels; by repeat constructor|].
  - split; [apply NoDup_singleton|]. constructor; [|constructor]. split; [repeat constructor|]. vm_compute. discriminate.
  - constructor; [apply note_composable|constructor; [apply attachment_composable|constructor]].
Qed.

Lemma forwarded_levels : levels_apart 3 forwarded (lit "outer").
Proof.
  assert (levels_apart 3 letter (lit "outer")) as Hl by (apply flat_levels; by repeat constructor).
  assert (levels_apart 3 attachment (lit "outer")) as Ha by (apply flat_levels; constructor).
  intros sub b' Hin. inversion Hin as [m Hp|m p Hp Hin']; apply list_elem_of_In in Hp as [<-|[<-|[]]].
  - intros _ Hb. vm_compute in Hb. injection Hb as <-. split; [|split]; vm_compute; discriminate.
  - done.
  - by apply Hl.
  - by apply Ha.
Qed.

Lemma composed_messages_restored_witness :
  compose_text 3 forwarded = Some (Ok forwarded_text) /\
  exists p, parse_text forwarded_text = Some (Ok p) /\ restored 3 true forwarded p.
Proof.
  assert (compose_text 3 forwarded = Some (Ok forwarded_text)) as Hc by (vm_compute; reflexivity). split; [exact Hc|].
  apply (composed_messages_restored 3 forwarded forwarded_text Hc).
  apply (composable_multipart 3 forwarded (lit "outer")); [discriminate| |vm_compute; reflexivity| |exact forwarded_levels|].
  - split; [apply NoDup_singleton|]. constructor; [|constructor]. by apply literal_restorable.
  - intros ct Hct. vm_compute in Hct. injection Hct as <-. split; [vm_compute; reflexivity|]. split.
    + split; [apply ascii_bytes_text; vm_compute; reflexivity|]. intros _. split; vm_compute; reflexivity.
    + intros _. split; [by repeat constructor|]. split; [discriminate|vm_compute; reflexivity].
  - constructor; [apply letter_composable|constructor; [apply attachment_composable|constructor]].
Defined.
End MimeNestedDemo.
