(* ===== verification/Job.v ===== *)
(** * Job: jobs and execution limits (src/src/internal/job.rs)

    [MechanicsConfig] belongs to the [mechanics-config] crate and [Duration]'s
    JSON form to [serde]: both are parameters of the (de)serialisation
    section, with the round trip the crate relies on as hypotheses. *)

From S2P Require Import Prelude Errors Json.

Record MechanicsJob (Config : Type) := mkJob {
  module_source : str;
  arg : Value;
  config : Config;
  run_timeout : option Duration;
}.
Arguments mkJob {Config} _ _ _ _.
Arguments module_source {Config} _.
Arguments arg {Config} _.
Arguments config {Config} _.
Arguments run_timeout {Config} _.

Definition validate_module_source (s : str) : result MechanicsError () :=
  if bool_decide (s = []) then Err (runtime_pool (lit "module_source must not be empty"))
  else Ok ().

Definition job_new {Config} (source : str) (a : Value) (c : Config)
  : result MechanicsError (MechanicsJob Config) :=
  _ ← validate_module_source source;
  mret {| module_source := source; arg := a; config := c; run_timeout := None |}.

Definition with_run_timeout {Config} (j : MechanicsJob Config) (timeout : Duration)
  : result MechanicsError (MechanicsJob Config) :=
  if is_zero timeout then Err (runtime_pool (lit "job run_timeout must be > 0"))
  else Ok {| module_source := module_source j; arg := arg j; config := config j;
             run_timeout := Some timeout |}.

Definition into_parts {Config} (j : MechanicsJob Config) : str * Value * Config :=
  (module_source j, arg j, config j).

(** The invariant of constructed jobs. *)
Definition job_valid {Config} (j : MechanicsJob Config) : Prop :=
  module_source j <> [] /\ forall t, run_timeout j = Some t -> t <> 0.

Lemma job_new_ok {Config} s a (c : Config) : s <> [] -> job_new s a c = Ok (mkJob s a c None).
Proof.
  intros H. unfold job_new, validate_module_source. by rewrite bool_decide_eq_false_2.
Qed.

Lemma with_run_timeout_ok {Config} (j : MechanicsJob Config) t :
  t <> 0 -> with_run_timeout j t = Ok (mkJob (module_source j) (arg j) (config j) (Some t)).
Proof. intros H. unfold with_run_timeout, is_zero. by rewrite (proj2 (Z.eqb_neq t 0)). Qed.

(** ** Serialisation *)

Section serde.
Context {Config : Type}.
Context (config_to_json : Config -> Value) (config_from_json : Value -> result DeError Config).
Context (duration_to_json : Duration -> Value) (duration_from_json : Value -> result DeError Duration).

Definition serialize (j : MechanicsJob Config) : Value :=
  VObject
    ([(lit "module_source", VString (module_source j));
      (lit "arg", arg j);
      (lit "config", config_to_json (config j))] ++
     match run_timeout j with
     | Some t => [(lit "run_timeout", duration_to_json t)]
     | None => []
     end).

(** [struct RawMechanicsJob] while its fields are collected. *)
Record RawMechanicsJob := mkRaw {
  raw_module_source : option str;
  raw_arg : option Value;
  raw_config : option Config;
  raw_run_timeout : option (option Duration);
}.

Definition raw_empty : RawMechanicsJob := mkRaw None None None None.

(** [Option<Duration>]: [null] is [None]. *)
Definition de_timeout (v : Value) : result DeError (option Duration) :=
  match v with VNull => Ok None | _ => Some <$> duration_from_json v end.

(** One entry of the map, as the derived visitor handles it. *)
Definition visit_entry (r : RawMechanicsJob) (kv : str * Value) : result DeError RawMechanicsJob :=
  let '(k, v) := kv in
  if bool_decide (k = lit "module_source") then
    match raw_module_source r with
    | Some _ => Err (DuplicateField k)
    | None => s ← de_string v;
              mret (mkRaw (Some s) (raw_arg r) (raw_config r) (raw_run_timeout r))
    end
  else if bool_decide (k = lit "arg") then
    match raw_arg r with
    | Some _ => Err (DuplicateField k)
    | None => Ok (mkRaw (raw_module_source r) (Some v) (raw_config r) (raw_run_timeout r))
    end
  else if bool_decide (k = lit "config") then
    match raw_config r with
    | Some _ => Err (DuplicateField k)
    | None => c ← config_from_json v;
              mret (mkRaw (raw_module_source r) (raw_arg r) (Some c) (raw_run_timeout r))
    end
  else if bool_decide (k = lit "run_timeout") then
    match raw_run_timeout r with
    | Some _ => Err (DuplicateField k)
    | None => t ← de_timeout v;
              mret (mkRaw (raw_module_source r) (raw_arg r) (raw_config r) (Some t))
    end
  else Err (UnknownField k).

Fixpoint visit_map (r : RawMechanicsJob) (entries : list (str * Value))
  : result DeError RawMechanicsJob :=
  match entries with
  | [] => Ok r
  | kv :: rest => r' ← visit_entry r kv; visit_map r' rest
  end.

(** The struct from a sequence: fields by position, the defaulted one optional. *)
Definition visit_seq (l : list Value) : result DeError RawMechanicsJob :=
  m ← ok_or (InvalidLength 0) (l !! 0%nat); s ← de_string m;
  a ← ok_or (InvalidLength 1) (l !! 1%nat);
  c ← ok_or (InvalidLength 2) (l !! 2%nat); cfg ← config_from_json c;
  t ← match l !! 3%nat with Some t => Some <$> de_timeout t | None => Ok None end;
  if (4 <? length l)%nat then Err (InvalidLength (length l))
  else mret (mkRaw (Some s) (Some a) (Some cfg) t).

(** Building the job from the collected fields: missing ones are errors
    except the defaulted [run_timeout], then the validated constructors. *)
Definition raw_into_job (r : RawMechanicsJob) : result DeError (MechanicsJob Config) :=
  s ← ok_or (MissingField (lit "module_source")) (raw_module_source r);
  a ← ok_or (MissingField (lit "arg")) (raw_arg r);
  c ← ok_or (MissingField (lit "config")) (raw_config r);
  map_err (fun e => Custom (display e))
    (j ← job_new s a c;
     match default None (raw_run_timeout r) with
     | Some t => with_run_timeout j t
     | None => Ok j
     end).

Definition deserialize (v : Value) : result DeError (MechanicsJob Config) :=
  match v with
  | VObject entries => r ← visit_map raw_empty entries; raw_into_job r
  | VArray l => r ← visit_seq l; raw_into_job r
  | _ => Err InvalidType
  end.
End serde.

(** A job built from collected fields is valid. *)
Lemma raw_into_job_valid {Config} (r : @RawMechanicsJob Config) j : raw_into_job r = Ok j -> job_valid j.
Proof.
  unfold raw_into_job, job_new, validate_module_source, with_run_timeout, job_valid, is_zero.
  destruct r as [[]  [] [] [[t|]|]]; cbn; try done; case_bool_decide; cbn; try done;
    try (case_match; cbn; try done); bool_facts; intros ?; simplify_eq/=; split; naive_solver.
Qed.


(** ** Execution limits *)

Record MechanicsExecutionLimits := mkLimits {
  max_execution_time : Duration;
  max_loop_iterations : Z;
  max_recursion_depth : Z;
  max_stack_size : Z;
}.

Definition limits_validate (l : MechanicsExecutionLimits) : result MechanicsError () :=
  if is_zero (max_execution_time l) then
    Err (runtime_pool (lit "execution_limits.max_execution_time must be > 0"))
  else if max_loop_iterations l =? 0 then
    Err (runtime_pool (lit "execution_limits.max_loop_iterations must be > 0"))
  else if max_recursion_depth l =? 0 then
    Err (runtime_pool (lit "execution_limits.max_recursion_depth must be > 0"))
  else if max_stack_size l =? 0 then
    Err (runtime_pool (lit "execution_limits.max_stack_size must be > 0"))
  else Ok ().

Definition limits_new (t l r s : Z) : result MechanicsError MechanicsExecutionLimits :=
  let limits := mkLimits t l r s in
  _ ← limits_validate limits; mret limits.

Definition limits_default : MechanicsExecutionLimits :=
  {| max_execution_time := from_secs 30; max_loop_iterations := 1000000;
     max_recursion_depth := 512; max_stack_size := 10 * 1024 |}.

Definition limits_valid (l : MechanicsExecutionLimits) : Prop :=
  max_execution_time l <> 0 /\ max_loop_iterations l <> 0 /\
  max_recursion_depth l <> 0 /\ max_stack_size l <> 0.

Lemma limits_validate_ok l : limits_validate l = Ok () <-> limits_valid l.
Proof. unfold limits_validate, limits_valid, is_zero. case_all; naive_solver lia. Qed.

(** ** Properties *)

Section properties.
Context {Config : Type}.
Context (config_from_json : Value -> result DeError Config).
Context (duration_from_json : Value -> result DeError Duration).

(** C35. Serialising a valid job and deserialising the result gives the job
    back, timeout override included, whenever the configuration and the
    [Duration] encodings of the libraries round-trip. *)
Theorem job_serde_roundtrip (config_to_json : Config -> Value)
    (duration_to_json : Duration -> Value) (j : MechanicsJob Config) :
  (forall c, config_from_json (config_to_json c) = Ok c) ->
  (forall d, duration_from_json (duration_to_json d) = Ok d) ->
  (forall d, duration_to_json d <> VNull) ->
  job_valid j ->
  deserialize config_from_json duration_from_json
    (serialize config_to_json duration_to_json j) = Ok j.
Proof.
  intros Hc Hd Hn [Hs Ht]. destruct j as [s a c o]. cbn in Hs, Ht.
  unfold serialize, deserialize. destruct o as [t|];
    cbn [visit_map visit_entry app module_source arg config run_timeout]; lit_decide; cbn -[raw_into_job];
    lit_decide; rewrite Hc; cbn -[raw_into_job]; lit_decide.
  - assert (de_timeout duration_from_json (duration_to_json t) = Ok (Some t)) as ->.
    { unfold de_timeout. specialize (Hn t). rewrite Hd. by destruct (duration_to_json t). }
    unfold raw_into_job. cbn -[job_new]. rewrite job_new_ok by done.
    cbn -[with_run_timeout]. by rewrite with_run_timeout_ok by eauto.
  - unfold raw_into_job. cbn -[job_new]. by rewrite job_new_ok.
Qed.

(** Whatever the payload (an object, in any field order, or a sequence),
    a job that deserialises satisfies the constructors' invariant: a
    non-empty module source and no zero timeout; and an object with a field
    outside the four known ones never deserialises. *)
Theorem deserialize_validates (v : Value) :
  (forall j, deserialize config_from_json duration_from_json v = Ok j -> job_valid j) /\
  (forall entries k x, v = VObject entries -> (k, x) ∈ entries ->
     k ∉ [lit "module_source"; lit "arg"; lit "config"; lit "run_timeout"] ->
     exists e, deserialize config_from_json duration_from_json v = Err e).
Proof.
  split.
  - intros j. destruct v; cbn [deserialize]; try done; intros (r & _ & H)%bind_Ok;
      eauto using raw_into_job_valid.
  - intros entries k x -> Hin Hk. cbn [deserialize].
    enough (exists e, visit_map config_from_json duration_from_json raw_empty entries = Err e)
      as [e ->] by (by eexists).
    generalize (@raw_empty Config). induction entries as [|kv rest IH]; intros r; [set_solver|].
    apply elem_of_cons in Hin as [<-|Hin]; cbn.
    + rewrite !bool_decide_eq_false_2 by set_solver. by eexists.
    + destruct (visit_entry _ _ r kv) as [r'|e]; cbn; [by apply IH|by eexists].
Qed.
End properties.

Lemma job_serde_roundtrip_witness :
  exists from_c from_d to_c to_d (j : MechanicsJob bool),
    deserialize from_c from_d (serialize to_c to_d j) = Ok j /\ run_timeout j = Some 60.
Proof.
  exists (fun v => match v with VBool b => Ok b | _ => Err InvalidType end),
    (fun v => match v with VNumber (PosInt d) => Ok d | _ => Err InvalidType end),
    VBool, (fun d => VNumber (PosInt d)),
    (mkJob (lit "export default 1") VNull true (Some 60)).
  split; [|reflexivity].
  apply job_serde_roundtrip; try done. split; [done|]. cbn. intros ? [= <-]. done.
Defined.

Lemma deserialize_validates_witness :
  job_valid (Config := bool) (mkJob (lit "x") VNull true None) /\
  exists e : DeError, deserialize (Config := bool) (fun _ => Ok true) (fun _ => Ok 1)
    (VObject [(lit "unknown", VBool true)]) = Err e.
Proof.
  split.
  - eapply (proj1 (deserialize_validates (fun _ => Ok true) (fun _ => Ok 1)
      (VArray [VString (lit "x"); VNull; VNull]))). reflexivity.
  - eapply (proj2 (deserialize_validates (fun _ => Ok true) (fun _ => Ok 1) _) _ (lit "unknown") (VBool true));
      [reflexivity|set_solver|].
    vm_compute. intros H. repeat (apply elem_of_cons in H as [H|H]; [discriminate|]).
    by apply elem_of_nil in H.
Defined.

(** [MechanicsExecutionLimits::new] accepts exactly the limits that are all
    non-zero, and the default limits are accepted. *)
Theorem limits_new_spec (t l r s : Z) :
  (limits_new t l r s = Ok (mkLimits t l r s) <-> t <> 0 /\ l <> 0 /\ r <> 0 /\ s <> 0) /\
  limits_validate limits_default = Ok ().
Proof.
  split; [|reflexivity]. unfold limits_new. rewrite bind_Ok.
  pose proof (limits_validate_ok (mkLimits t l r s)). split.
  - intros ([] & Hv & _). by apply H.
  - intros Hv. exists (). by rewrite (proj2 H).
Qed.
