(* ===== verification/PoolConfig.v ===== *)
(** * PoolConfig: pool configuration (src/src/internal/pool/config.rs)

    The record, its default, its builder methods and the construction-time
    validation.  [usize] and [u64] fields are [Z]; the endpoint transport is an
    abstract type [Client].  [available_parallelism] and the clock reading are
    arguments of the functions that consult them. *)

From S2P Require Import Prelude Errors Job.

Record MechanicsPoolConfig (Client : Type) := mkConfig {
  worker_count : Z;
  queue_capacity : Z;
  enqueue_timeout : Duration;
  cfg_run_timeout : Duration;
  execution_limits : MechanicsExecutionLimits;
  default_http_timeout_ms : option Z;
  default_http_response_max_bytes : option Z;
  restart_window : Duration;
  cfg_max_restarts_in_window : Z;
  endpoint_http_client : option Client;
}.
Arguments mkConfig {Client}.
Arguments worker_count {Client} _.
Arguments queue_capacity {Client} _.
Arguments enqueue_timeout {Client} _.
Arguments cfg_run_timeout {Client} _.
Arguments execution_limits {Client} _.
Arguments default_http_timeout_ms {Client} _.
Arguments default_http_response_max_bytes {Client} _.
Arguments restart_window {Client} _.
Arguments cfg_max_restarts_in_window {Client} _.
Arguments endpoint_http_client {Client} _.

Section config.
Context {Client : Type}.
Implicit Types c : MechanicsPoolConfig Client.

(** [Default]: [parallelism] is what [available_parallelism] returned. *)
Definition config_default (parallelism : option Z) : MechanicsPoolConfig Client :=
  let workers := default 1 parallelism in
  {| worker_count := Z.max workers 1;
     queue_capacity := Z.max (Z.min usize_max (workers * 64)) 64;
     enqueue_timeout := from_millis 500;
     cfg_run_timeout := from_secs 30;
     execution_limits := limits_default;
     default_http_timeout_ms := Some 120000;
     default_http_response_max_bytes := Some (8 * 1024 * 1024);
     restart_window := from_secs 10;
     cfg_max_restarts_in_window := 16;
     endpoint_http_client := None |}.

(** [validate], with the [Instant::now()] it reads. *)
Definition validate (now : Instant) c : result MechanicsError () :=
  if worker_count c =? 0 then Err (runtime_pool (lit "worker_count must be > 0"))
  else if queue_capacity c =? 0 then Err (runtime_pool (lit "queue_capacity must be > 0"))
  else if cfg_max_restarts_in_window c =? 0 then
    Err (runtime_pool (lit "max_restarts_in_window must be > 0"))
  else if is_zero (cfg_run_timeout c) then Err (runtime_pool (lit "run_timeout must be > 0"))
  else if negb (bool_decide (is_Some (instant_checked_add now (cfg_run_timeout c)))) then
    Err (runtime_pool (lit "run_timeout is too large for the current platform clock"))
  else if bool_decide (default_http_timeout_ms c = Some 0) then
    Err (runtime_pool (lit "default_http_timeout_ms must be >= 1 when provided"))
  else if bool_decide (default_http_response_max_bytes c = Some 0) then
    Err (runtime_pool (lit "default_http_response_max_bytes must be >= 1 when provided"))
  else limits_validate (execution_limits c).

(** The builder methods. *)
Definition with_worker_count (n : Z) c :=
  mkConfig n (queue_capacity c) (enqueue_timeout c) (cfg_run_timeout c) (execution_limits c)
    (default_http_timeout_ms c) (default_http_response_max_bytes c) (restart_window c)
    (cfg_max_restarts_in_window c) (endpoint_http_client c).
Definition with_queue_capacity (n : Z) c :=
  mkConfig (worker_count c) n (enqueue_timeout c) (cfg_run_timeout c) (execution_limits c)
    (default_http_timeout_ms c) (default_http_response_max_bytes c) (restart_window c)
    (cfg_max_restarts_in_window c) (endpoint_http_client c).
Definition with_enqueue_timeout (t : Duration) c :=
  mkConfig (worker_count c) (queue_capacity c) t (cfg_run_timeout c) (execution_limits c)
    (default_http_timeout_ms c) (default_http_response_max_bytes c) (restart_window c)
    (cfg_max_restarts_in_window c) (endpoint_http_client c).
Definition cfg_with_run_timeout (t : Duration) c :=
  mkConfig (worker_count c) (queue_capacity c) (enqueue_timeout c) t (execution_limits c)
    (default_http_timeout_ms c) (default_http_response_max_bytes c) (restart_window c)
    (cfg_max_restarts_in_window c) (endpoint_http_client c).
Definition with_execution_limits (l : MechanicsExecutionLimits) c :=
  mkConfig (worker_count c) (queue_capacity c) (enqueue_timeout c) (cfg_run_timeout c) l
    (default_http_timeout_ms c) (default_http_response_max_bytes c) (restart_window c)
    (cfg_max_restarts_in_window c) (endpoint_http_client c).
Definition with_default_http_timeout_ms (t : option Z) c :=
  mkConfig (worker_count c) (queue_capacity c) (enqueue_timeout c) (cfg_run_timeout c)
    (execution_limits c) t (default_http_response_max_bytes c) (restart_window c)
    (cfg_max_restarts_in_window c) (endpoint_http_client c).
Definition with_default_http_response_max_bytes (m : option Z) c :=
  mkConfig (worker_count c) (queue_capacity c) (enqueue_timeout c) (cfg_run_timeout c)
    (execution_limits c) (default_http_timeout_ms c) m (restart_window c)
    (cfg_max_restarts_in_window c) (endpoint_http_client c).
Definition with_restart_window (w : Duration) c :=
  mkConfig (worker_count c) (queue_capacity c) (enqueue_timeout c) (cfg_run_timeout c)
    (execution_limits c) (default_http_timeout_ms c) (default_http_response_max_bytes c) w
    (cfg_max_restarts_in_window c) (endpoint_http_client c).
Definition with_max_restarts_in_window (n : Z) c :=
  mkConfig (worker_count c) (queue_capacity c) (enqueue_timeout c) (cfg_run_timeout c)
    (execution_limits c) (default_http_timeout_ms c) (default_http_response_max_bytes c)
    (restart_window c) n (endpoint_http_client c).
Definition with_endpoint_http_client (cl : Client) c :=
  mkConfig (worker_count c) (queue_capacity c) (enqueue_timeout c) (cfg_run_timeout c)
    (execution_limits c) (default_http_timeout_ms c) (default_http_response_max_bytes c)
    (restart_window c) (cfg_max_restarts_in_window c) (Some cl).

(** What validation promises to the pool. *)
Definition config_valid (now : Instant) c : Prop :=
  worker_count c <> 0 /\ queue_capacity c <> 0 /\ cfg_max_restarts_in_window c <> 0 /\
  cfg_run_timeout c <> 0 /\ now + cfg_run_timeout c <= instant_max /\
  default_http_timeout_ms c <> Some 0 /\ default_http_response_max_bytes c <> Some 0 /\
  limits_valid (execution_limits c).

(** The fields are values of their Rust types. *)
Definition config_typed c : Prop :=
  in_range usize_max (worker_count c) /\ in_range usize_max (queue_capacity c) /\
  in_range usize_max (cfg_max_restarts_in_window c) /\ in_range duration_max (enqueue_timeout c) /\
  in_range duration_max (cfg_run_timeout c) /\ in_range duration_max (restart_window c).

Lemma checked_add_is_Some max a b : is_Some (checked_add max a b) <-> a + b <= max.
Proof.
  rewrite <- not_eq_None_Some, checked_add_None. lia.
Qed.

(** [validate] accepts exactly the configurations whose counts, timeouts and
    limits are non-zero and whose [run_timeout] the platform clock can
    represent from now on. *)
Theorem validate_ok_iff (now : Instant) c : validate now c = Ok () <-> config_valid now c.
Proof.
  unfold validate, config_valid, is_zero, instant_checked_add.
  rewrite <- limits_validate_ok, <- checked_add_is_Some.
  repeat case_bool_decide; case_all; naive_solver.
Qed.
End config.

(** The default configuration is valid whatever parallelism the host reports,
    and its queue capacity fits a [usize], as long as the clock is thirty
    seconds below its end. *)
Theorem config_default_valid {Client} (parallelism : option Z) (now : Instant) :
  now + from_secs 30 <= instant_max ->
  validate now (config_default (Client := Client) parallelism) = Ok () /\
  in_range usize_max (queue_capacity (config_default (Client := Client) parallelism)).
Proof.
  intros Hnow. split.
  - apply validate_ok_iff. repeat split; try done; try exact Hnow; cbn; lia.
  - cbn [queue_capacity config_default]. unfold in_range, usize_max, u64_max. lia.
Qed.

Lemma config_default_valid_witness :
  validate 0 (config_default (Client := ()) (Some 8)) = Ok () /\
  queue_capacity (config_default (Client := ()) (Some 8)) = 512.
Proof.
  split; [|reflexivity].
  apply config_default_valid. vm_compute; discriminate.
Defined.
