(* ===== verification/RestartGuard.v ===== *)
(** * RestartGuard: the sliding-window limiter of worker restarts
    (src/src/internal/pool/restart_guard.rs)

    The guard remembers the instants of the restarts it granted, evicts the
    ones older than the window from the front, and grants a new one while
    fewer than [max_restarts] remain.  The reference specification at the end
    of the file decides from the whole history of grants. *)

From S2P Require Import Prelude.

Record RestartGuard := {
  window : Duration;
  max_restarts : nat;
  restarts : list Instant;
}.

Definition guard_new (w : Duration) (m : nat) : RestartGuard :=
  {| window := w; max_restarts := m; restarts := [] |}.

(** The [while let Some(oldest) = self.restarts.front()] loop. *)
Fixpoint evict (w : Duration) (now : Instant) (l : list Instant) : list Instant :=
  match l with
  | [] => []
  | oldest :: rest =>
      if duration_since now oldest >? w then evict w now rest else l
  end.

Definition allow_restart (g : RestartGuard) (now : Instant) : RestartGuard * bool :=
  let kept := evict (window g) now (restarts g) in
  if (max_restarts g <=? length kept)%nat then
    ({| window := window g; max_restarts := max_restarts g; restarts := kept |}, false)
  else
    ({| window := window g; max_restarts := max_restarts g; restarts := kept ++ [now] |}, true).

Definition restart_attempts_in_window (g : RestartGuard) : nat := length (restarts g).
Definition max_restarts_in_window (g : RestartGuard) : nat := max_restarts g.

(** A run of the guard: the instants of a sequence of calls, the guard after
    them, and the instants it granted. *)
Fixpoint guard_run (g : RestartGuard) (calls : list Instant) : RestartGuard * list Instant :=
  match calls with
  | [] => (g, [])
  | now :: rest =>
      let '(g', ok) := allow_restart g now in
      let '(g'', granted) := guard_run g' rest in
      (g'', if ok then now :: granted else granted)
  end.

(** ** Reference specification

    A call at [now] is granted iff fewer than [m] of the restarts granted so
    far are at most [w] old. *)
Definition recent (w : Duration) (now t : Instant) : Prop := duration_since now t <= w.

Global Instance recent_dec w now t : Decision (recent w now t).
Proof. unfold recent. apply _. Defined.

Fixpoint spec_run (w : Duration) (m : nat) (history calls : list Instant) : list Instant :=
  match calls with
  | [] => []
  | now :: rest =>
      if (length (filter (recent w now) history) <? m)%nat
      then now :: spec_run w m (history ++ [now]) rest
      else spec_run w m history rest
  end.

(** [spaced w m l]: any restart and the [m]-th one after it are more than [w]
    apart, i.e. no window of length [w] holds more than [m] of them. *)
Definition spaced (w : Duration) (m : nat) (l : list Instant) : Prop :=
  forall i a b, l !! i = Some a -> l !! (i + m)%nat = Some b -> w < b - a.

(** ** Lemmas *)

(** The relation between the guard and the history of its grants: the guard
    remembers a suffix, and what it forgot is no longer recent. *)
Record tracks (w : Duration) (m : nat) (now : Instant) (h : list Instant) (g : RestartGuard) : Prop := {
  tr_window : window g = w;
  tr_max : max_restarts g = m;
  tr_sorted : StronglySorted Z.le h;
  tr_past : Forall (fun t => t <= now) h;
  tr_suffix : exists old, h = old ++ restarts g /\ Forall (fun t => w < now - t) old;
}.

Lemma not_recent w now t : w < now - t -> ~ recent w now t.
Proof. unfold recent, duration_since, saturating_sub. lia. Qed.

(** On a nondecreasing list, eviction from the front splits the list into
    forgotten instants, none recent, and the recent ones. *)
Lemma evict_split w now l :
  StronglySorted Z.le l ->
  exists old, l = old ++ evict w now l /\
    Forall (fun t => w < duration_since now t) old /\
    Forall (recent w now) (evict w now l).
Proof.
  induction 1 as [|t l Hs IH Hle]; [by exists []|].
  cbn. rewrite Z.gtb_ltb. case_match; bool_facts.
  - destruct IH as (old & Heq & Hold & Hkept). exists (t :: old).
    split; [by rewrite Heq at 1|]. split; [by constructor|done].
  - exists []. split; [done|]. split; [constructor|]. constructor; [done|].
    eapply Forall_impl; [exact Hle|]. cbn.
    unfold recent, duration_since, saturating_sub in *. lia.
Qed.

Lemma old_gap w now l :
  0 <= w -> Forall (fun t => w < duration_since now t) l -> Forall (fun t => w < now - t) l.
Proof.
  intros Hw H. eapply Forall_impl; [exact H|].
  cbn. unfold duration_since, saturating_sub. lia.
Qed.

Lemma old_later w now now' l :
  now <= now' -> Forall (fun t => w < now - t) l -> Forall (fun t => w < now' - t) l.
Proof. intros Hn H. eapply Forall_impl; [exact H|]. cbn. lia. Qed.

Lemma filter_recent_old w now l :
  Forall (fun t => w < now - t) l -> filter (recent w now) l = [].
Proof. intros H. apply filter_none. eapply Forall_impl; [exact H|]. apply not_recent. Qed.

(** What the guard keeps is what the specification counts. *)
Lemma tracks_recent w m now now' h g :
  0 <= w -> now <= now' -> tracks w m now h g ->
  filter (recent w now') h = evict w now' (restarts g).
Proof.
  intros Hw Hn [_ _ Hs _ (old & -> & Hold)].
  apply StronglySorted_app_1_r in Hs.
  destruct (evict_split w now' _ Hs) as (old' & Heq & Hold' & Hkept).
  rewrite filter_app, filter_recent_old by eauto using old_later.
  rewrite Heq at 1. rewrite filter_app, filter_recent_old by eauto using old_gap.
  by rewrite filter_all.
Qed.

(** One call keeps the relation, with the history extended on a grant. *)
Lemma tracks_step w m now now' h g :
  0 <= w -> now <= now' -> tracks w m now h g ->
  let '(g', ok) := allow_restart g now' in
  tracks w m now' (if ok then h ++ [now'] else h) g' /\
  ok = (length (filter (recent w now') h) <? m)%nat.
Proof.
  intros Hw Hn Ht. pose proof (tracks_recent _ _ _ _ _ _ Hw Hn Ht) as Hrec.
  destruct Ht as [Hwin Hmax Hs Hpast (old & -> & Hold)].
  pose proof (StronglySorted_app_1_r _ _ _ Hs) as Hs2.
  destruct (evict_split w now' _ Hs2) as (old' & Heq & Hold' & Hkept).
  unfold allow_restart. rewrite Hwin, Hmax, Hrec.
  assert (Forall (fun t => t <= now') (old ++ restarts g)) as Hpast' by eauto using Forall_le_trans.
  assert (Forall (fun t => w < now' - t) (old ++ old')) as Hforgot.
  { apply Forall_app; split; eauto using old_later, old_gap. }
  destruct (Nat.leb_spec m (length (evict w now' (restarts g))));
    (split; [constructor; cbn; eauto using sorted_snoc|]).
  - exists (old ++ old'). split; [by rewrite <- (assoc_L (++)), <- Heq|done].
  - symmetry. by apply Nat.ltb_ge.
  - apply Forall_app; split; [done|repeat constructor; lia].
  - exists (old ++ old'). split; [by rewrite Heq at 1; rewrite <- !(assoc_L (++))|done].
  - symmetry. by apply Nat.ltb_lt.
Qed.

Lemma tracks_new w m now : tracks w m now [] (guard_new w m).
Proof. constructor; cbn; try constructor. by exists []. Qed.

Lemma guard_run_tracks w m now h g calls :
  0 <= w -> tracks w m now h g -> StronglySorted Z.le (now :: calls) ->
  snd (guard_run g calls) = spec_run w m h calls.
Proof.
  intros Hw. revert now h g. induction calls as [|c calls IH]; intros now h g Ht Hs; [done|].
  inversion Hs as [|? ? Hs' Hle]; subst. apply Forall_cons in Hle as [Hc _]. simpl guard_run. simpl spec_run.
  pose proof (tracks_step w m now c h g Hw Hc Ht) as Hstep.
  destruct (allow_restart g c) as [g' ok]. destruct Hstep as [Ht' ->].
  specialize (IH _ _ _ Ht' Hs'). destruct (guard_run g' calls) as [g'' gr]. simpl snd in IH |- *.
  subst gr. by destruct (_ <? _)%nat.
Qed.

(** Granting below the limit keeps the history spaced. *)
Lemma spaced_snoc w m now h :
  StronglySorted Z.le h -> Forall (fun t => t <= now) h ->
  (length (filter (recent w now) h) < m)%nat ->
  spaced w m h -> spaced w m (h ++ [now]).
Proof.
  intros Hs Hpast Hlt Hsp i a b Ha Hb.
  apply lookup_snoc_Some in Hb as [[Hi Hb]|[Hi <-]].
  - rewrite lookup_app_l in Ha by lia. eauto.
  - apply lookup_snoc_Some in Ha as [[Hi' Ha]|[Hi' <-]]; [|lia].
    destruct (decide (w < now - a)) as [|Hn]; [done|exfalso].
    assert (filter (recent w now) (drop i h) = drop i h) as Hall.
    { apply filter_all. apply Forall_forall. intros t Ht.
      rewrite <- (take_drop i h) in Hs. apply StronglySorted_app_1_r in Hs.
      rewrite (drop_S _ _ _ Ha) in Hs, Ht. inversion Hs as [|? ? _ Hle]; subst.
      unfold recent, duration_since, saturating_sub. 
      assert (a <= t) by (apply elem_of_cons in Ht as [->|Ht]; [lia|];
        by rewrite Forall_forall in Hle; apply Hle).
      assert (t <= now) by (rewrite Forall_forall in Hpast; apply Hpast;
        rewrite <- (take_drop i h), (drop_S _ _ _ Ha); set_solver).
      lia. }
    rewrite <- (take_drop i h), filter_app, length_app, Hall, length_drop in Hlt. lia.
Qed.

Lemma spec_run_spaced w m now h calls :
  StronglySorted Z.le h -> Forall (fun t => t <= now) h ->
  StronglySorted Z.le (now :: calls) -> spaced w m h ->
  spaced w m (h ++ spec_run w m h calls).
Proof.
  revert now h. induction calls as [|c calls IH]; intros now h Hs Hp Hc Hsp.
  - simpl. by rewrite app_nil_r.
  - inversion Hc as [|? ? Hc' Hle]; subst. apply Forall_cons in Hle as [Hnc _].
    assert (Forall (fun t => t <= c) h) by eauto using Forall_le_trans.
    simpl spec_run. destruct (Nat.ltb_spec (length (filter (recent w c) h)) m).
    + change (c :: ?l) with ([c] ++ l). rewrite (assoc_L (++)).
      apply (IH c); eauto using sorted_snoc, spaced_snoc.
      apply Forall_app; split; [done|repeat constructor; lia].
    + by apply (IH c).
Qed.

Lemma evict_length w now l : (length (evict w now l) <= length l)%nat.
Proof. induction l as [|t l IH]; cbn; [lia|]. case_match; cbn; lia. Qed.

Lemma evict_all w now l :
  Forall (fun t => w < now - t) l -> evict w now l = [].
Proof.
  induction 1 as [|t l Ht _ IH]; [done|]. cbn. rewrite Z.gtb_ltb.
  unfold duration_since, saturating_sub. by rewrite (proj2 (Z.ltb_lt _ _)) by lia.
Qed.

(** ** Properties *)

(** C22. The guard that forgets instants decides every call like the reference
    that looks at the whole history of grants, as long as the clock readings
    it is given do not go back (which [Instant::now] guarantees). *)
Theorem guard_refines_spec (w : Duration) (m : nat) (calls : list Instant) :
  0 <= w -> StronglySorted Z.le calls ->
  snd (guard_run (guard_new w m) calls) = spec_run w m [] calls.
Proof.
  intros Hw Hs. destruct calls as [|c calls]; [done|].
  apply (guard_run_tracks w m c); [done|apply tracks_new|].
  inversion Hs as [|? ? _ Hle]; subst. constructor; [done|]. constructor; [lia|done].
Qed.

Lemma guard_refines_spec_witness :
  snd (guard_run (guard_new 10 2) [0; 3; 5; 11; 12; 30]) = [0; 3; 11; 30].
Proof.
  rewrite guard_refines_spec; [reflexivity|lia|].
  repeat constructor; lia.
Defined.

(** Sliding-window bound: whatever the calls, any granted restart and the
    [max_restarts]-th one after it are more than [window] apart, so no
    interval of length [window] contains more than [max_restarts] grants. *)
Theorem grants_spaced (w : Duration) (m : nat) (calls : list Instant) :
  0 <= w -> StronglySorted Z.le calls ->
  spaced w m (snd (guard_run (guard_new w m) calls)).
Proof.
  intros Hw Hs. destruct calls as [|c calls]; [intros [] a b Ha; discriminate|].
  assert (StronglySorted Z.le (c :: c :: calls)) as Hs'.
  { inversion Hs as [|? ? _ Hle]; subst. constructor; [done|]. constructor; [lia|done]. }
  rewrite (guard_run_tracks w m c []) by (done || apply tracks_new).
  apply (spec_run_spaced w m c [] (c :: calls)); [constructor|constructor|done|].
  intros [] a b Ha; discriminate.
Qed.

Lemma grants_spaced_witness : 10 < 30 - 3.
Proof.
  apply (grants_spaced 10 2 [0; 3; 5; 11; 12; 30] ltac:(lia)
           ltac:(repeat constructor; lia) 1%nat 3 30); reflexivity.
Defined.

(** Recovery: once every remembered restart is older than the window, the
    next call is granted and is the only one remembered. *)
Theorem allow_restart_recovers (g : RestartGuard) (now : Instant) :
  (0 < max_restarts g)%nat -> Forall (fun t => window g < now - t) (restarts g) ->
  allow_restart g now =
  ({| window := window g; max_restarts := max_restarts g; restarts := [now] |}, true).
Proof.
  intros Hm Hold. unfold allow_restart. rewrite evict_all by done. cbn.
  by destruct (max_restarts g); [lia|].
Qed.

Lemma allow_restart_recovers_witness :
  snd (allow_restart {| window := 10; max_restarts := 2; restarts := [1; 2] |} 20) = true.
Proof.
  rewrite allow_restart_recovers; [reflexivity|cbn; lia|repeat constructor; cbn; lia].
Defined.

(** The guard never remembers more than [max_restarts] instants. *)
Lemma allow_restart_bounded g now :
  (length (restarts g) <= max_restarts g)%nat ->
  (length (restarts (fst (allow_restart g now))) <= max_restarts g)%nat.
Proof.
  intros H. pose proof (evict_length (window g) now (restarts g)).
  unfold allow_restart. case_match; bool_facts; cbn; rewrite ?length_app; cbn; lia.
Qed.
