(* ===== verification/Metrics.v ===== *)
(** * Metrics: pool metrics (src/src/internal/pool/metrics.rs)

    The [metrics] facade is a library: what the code does is the sequence of
    operations it performs on named instruments, so each recording function
    returns that sequence.  Gauge values are the [f64] of a [u32], which is
    exact, and are kept as that integer. *)

From S2P Require Import Prelude Errors.

Definition JOBS_ACCEPTED_TOTAL : str := lit "mechanics_jobs_accepted_total".
Definition JOBS_COMPLETED_TOTAL : str := lit "mechanics_jobs_completed_total".
Definition JOBS_QUEUE_DEPTH : str := lit "mechanics_jobs_queue_depth".
Definition POOL_WORKERS_TOTAL : str := lit "mechanics_pool_workers_total".
Definition POOL_WORKERS_BUSY : str := lit "mechanics_pool_workers_busy".
Definition WORKER_RESTARTS_TOTAL : str := lit "mechanics_worker_restarts_total".
Definition JOB_DURATION_SECONDS : str := lit "mechanics_job_duration_seconds".

Definition JOB_OUTCOME_LABELS : list str :=
  [lit "ok"; lit "failed"; lit "timeout"; lit "cancelled"].
Definition WORKER_RESTART_REASON_LABELS : list str :=
  [lit "panic"; lit "timeout"; lit "other"].

(** One operation on an instrument, with its label value if it has one. *)
Inductive MetricOp :=
| Register (name : str) (label : option str)
| Increment (name : str) (label : option str) (by_ : Z)
| SetGauge (name : str) (v : Z)
| RecordHistogram (name : str) (d : Duration).

Inductive JobOutcome := OOk | OFailed | OTimeout | OCancelled.

Global Instance JobOutcome_eq_dec : EqDecision JobOutcome.
Proof. solve_decision. Defined.

Definition from_error (e : MechanicsError) : JobOutcome :=
  match kind e with
  | KRunTimeout | KQueueTimeout => OTimeout
  | KCanceled => OCancelled
  | KExecution | KQueueFull | KPoolClosed | KWorkerUnavailable | KPanic | KRuntimePool => OFailed
  end.

Definition label (o : JobOutcome) : str :=
  match o with
  | OOk => lit "ok" | OFailed => lit "failed" | OTimeout => lit "timeout"
  | OCancelled => lit "cancelled"
  end.

Definition register_metrics : list MetricOp :=
  [Register JOBS_ACCEPTED_TOTAL None] ++
  ((fun o => Register JOBS_COMPLETED_TOTAL (Some o)) <$> JOB_OUTCOME_LABELS) ++
  [Register JOBS_QUEUE_DEPTH None; Register POOL_WORKERS_TOTAL None;
   Register POOL_WORKERS_BUSY None] ++
  ((fun r => Register WORKER_RESTARTS_TOTAL (Some r)) <$> WORKER_RESTART_REASON_LABELS) ++
  [Register JOB_DURATION_SECONDS None].

(** [u32::try_from(value).unwrap_or(u32::MAX)], then the exact [f64]. *)
Definition usize_to_f64 (v : Z) : Z := default u32_max (try_from u32_max v).

Definition record_queue_depth (depth : Z) : list MetricOp :=
  [SetGauge JOBS_QUEUE_DEPTH (usize_to_f64 depth)].

Definition record_job_accepted (depth : Z) : list MetricOp :=
  Increment JOBS_ACCEPTED_TOTAL None 1 :: record_queue_depth depth.

Definition record_job_duration (d : Duration) : list MetricOp :=
  [RecordHistogram JOB_DURATION_SECONDS d].

(** [now] is the reading behind [accepted_at.elapsed()]. *)
Definition record_job_completed (accepted_at now : Instant) (o : JobOutcome) : list MetricOp :=
  Increment JOBS_COMPLETED_TOTAL (Some (label o)) 1 ::
  record_job_duration (duration_since now accepted_at).

Definition record_pool_workers_total (n : Z) : list MetricOp :=
  [SetGauge POOL_WORKERS_TOTAL (usize_to_f64 n)].

Definition record_worker_restart (reason : str) : list MetricOp :=
  [Increment WORKER_RESTARTS_TOTAL (Some reason) 1].

Definition record_pool_workers_busy (n : Z) : list MetricOp :=
  [SetGauge POOL_WORKERS_BUSY (usize_to_f64 n)].

(** ** The busy guard

    [busy_workers.fetch_update] with the closure's result: [Some] stores and
    reports the previous value as [Ok], [None] leaves it and reports [Err]. *)
Definition fetch_update (f : Z -> option Z) (cell : Z) : Z * result Z Z :=
  match f cell with
  | Some v => (v, Ok cell)
  | None => (cell, Err cell)
  end.

Definition busy_start (busy : Z) : Z * list MetricOp :=
  let '(busy', prev) := fetch_update (fun v => checked_add usize_max v 1) busy in
  let current := match prev with
                 | Ok previous => saturating_add usize_max previous 1
                 | Err previous => previous
                 end in
  (busy', record_pool_workers_busy current).

Definition busy_drop (busy : Z) : Z * list MetricOp :=
  let '(busy', prev) := fetch_update (fun v => Some (saturating_sub v 1)) busy in
  let current := match prev with
                 | Ok previous => saturating_sub previous 1
                 | Err previous => previous
                 end in
  (busy', record_pool_workers_busy current).

(** The last value a sequence of operations leaves in a gauge. *)
Definition gauge_after (name : str) (ops : list MetricOp) : option Z :=
  foldl (fun acc op => match op with
                       | SetGauge n v => if bool_decide (n = name) then Some v else acc
                       | _ => acc
                       end) None ops.

Lemma busy_start_value busy :
  in_range usize_max busy ->
  fst (busy_start busy) = Z.min usize_max (busy + 1) /\
  snd (busy_start busy) = record_pool_workers_busy (fst (busy_start busy)).
Proof.
  intros [? ?]. unfold busy_start, fetch_update, checked_add, saturating_add.
  destruct (Z.leb_spec (busy + 1) usize_max); cbn; split; try f_equal; lia.
Qed.

Lemma busy_drop_value busy :
  fst (busy_drop busy) = saturating_sub busy 1 /\
  snd (busy_drop busy) = record_pool_workers_busy (fst (busy_drop busy)).
Proof. done. Qed.

(** The busy counter is balanced: starting and dropping a guard below the
    counter's maximum restores the count, the published gauge is always the
    counter just stored, clamped to a [u32], and the counter stays a [usize]. *)
Theorem busy_guard_balanced (busy : Z) :
  in_range usize_max busy -> busy < usize_max ->
  fst (busy_drop (fst (busy_start busy))) = busy /\
  in_range usize_max (fst (busy_start busy)) /\
  gauge_after POOL_WORKERS_BUSY (snd (busy_start busy)) = Some (Z.min u32_max (busy + 1)) /\
  gauge_after POOL_WORKERS_BUSY (snd (busy_drop (fst (busy_start busy)))) =
    Some (Z.min u32_max busy).
Proof.
  intros Hr Hlt. pose proof (busy_start_value busy Hr) as [Hs Hg].
  pose proof (busy_drop_value (fst (busy_start busy))) as [Hd Hg'].
  assert (forall n, 0 <= n -> usize_to_f64 n = Z.min u32_max n) as Hclamp.
  { intros n Hn. unfold usize_to_f64, try_from.
    destruct (Z.leb_spec 0 n), (Z.leb_spec n u32_max); cbn [andb default from_option id]; lia. }
  unfold in_range in *. rewrite Hg, Hg', Hd, Hs in *.
  unfold gauge_after, record_pool_workers_busy, saturating_sub. cbn -[usize_to_f64].
  rewrite bool_decide_eq_true_2 by done. rewrite !Hclamp by lia.
  repeat split; try f_equal; lia.
Qed.

Lemma busy_guard_balanced_witness : fst (busy_drop (fst (busy_start 3))) = 3.
Proof. apply busy_guard_balanced; vm_compute; intuition discriminate. Defined.

(** Every completed job is counted once, under one of the four registered
    outcome labels, and its duration is never negative. *)
Theorem completed_label_registered (o : JobOutcome) (accepted_at now : Instant) :
  exists d, record_job_completed accepted_at now o =
    [Increment JOBS_COMPLETED_TOTAL (Some (label o)) 1; RecordHistogram JOB_DURATION_SECONDS d] /\
  0 <= d /\
  Register JOBS_COMPLETED_TOTAL (Some (label o)) ∈ register_metrics.
Proof.
  eexists. split; [reflexivity|]. split; [apply saturating_sub_nonneg|].
  unfold register_metrics. apply elem_of_app; right. apply elem_of_app; left.
  apply list_elem_of_fmap. exists (label o). split; [done|].
  unfold JOB_OUTCOME_LABELS. destruct o; cbn; set_solver.
Qed.
