(* ===== verification/Executor.v ===== *)
(** * Executor: job queues and the event loop (src/src/internal/executor.rs)

    The [Queue] that backs Boa's job executor: routing of jobs, timers in a
    [BTreeMap] ordered by due instant, one macrotask turn, and the loop that
    runs turns until quiescence or deadline.  The JavaScript engine is a
    library: its clock ([JsTime]), its context, its job objects and what a job
    does when it is called are the parameters of the section [queue]. *)

From S2P Require Import Prelude.

(** ** The engine's instants *)

(** [boa_engine::context::time::JsInstant] as the executor uses it. *)
Class JsTime (I : Type) := {
  js_instant_new : Z -> Z -> I;
  millis_since_epoch : I -> Z;
  js_leb : I -> I -> bool;
}.

(** What its documentation promises: a total order, consistent with the
    number of whole milliseconds, which is a [u64]. *)
Class JsTimeLaws (I : Type) `{JsTime I} := {
  js_leb_refl : forall a, js_leb a a = true;
  js_leb_trans : forall a b c, js_leb a b = true -> js_leb b c = true -> js_leb a c = true;
  js_leb_antisym : forall a b, js_leb a b = true -> js_leb b a = true -> a = b;
  js_leb_total : forall a b, js_leb a b = true \/ js_leb b a = true;
  millis_mono : forall a b, js_leb a b = true -> millis_since_epoch a <= millis_since_epoch b;
  millis_range : forall a, in_range u64_max (millis_since_epoch a);
  millis_new : forall s n, 0 <= s -> 0 <= n < nanos_per_sec ->
    in_range u64_max (s * 1000 + n / nanos_per_milli) ->
    millis_since_epoch (js_instant_new s n) = s * 1000 + n / nanos_per_milli;
}.

(** ** Timer map

    [BTreeMap<JsInstant, Vec<TimeoutJob>>]: its entries in key order. *)
Section timers.
Context {I : Type} `{JsTime I} {T : Type}.
Abbreviation timers := (list (I * list T)).

Definition js_eqb (a b : I) : bool := js_leb a b && js_leb b a.

(** [map.entry(at).or_default().push(t)]. *)
Fixpoint timers_push (at_ : I) (t : T) (m : timers) : timers :=
  match m with
  | [] => [(at_, [t])]
  | (k, ts) :: rest =>
      if js_eqb at_ k then (k, ts ++ [t]) :: rest
      else if js_leb at_ k then (at_, [t]) :: m
      else (k, ts) :: timers_push at_ t rest
  end.

(** The first [retain]: drop cancelled jobs, then emptied entries. *)
Definition timers_retain (cancelled : T -> bool) (m : timers) : timers :=
  filter (fun e => snd e <> [])
    ((fun e => (fst e, filter (fun t => cancelled t = false) (snd e))) <$> m).

(** The [while let Some((at, _)) = first_key_value()] loop: the due jobs in
    order, and the map that is left. *)
Fixpoint timers_take_due (now : I) (m : timers) : list T * timers :=
  match m with
  | [] => ([], [])
  | (at_, ts) :: rest =>
      if js_leb at_ now then
        let '(due, m') := timers_take_due now rest in (ts ++ due, m')
      else ([], m)
  end.

Definition timers_len (m : timers) : nat := sum_list (length ∘ snd <$> m).

(** All jobs with their due instant, in map order. *)
Definition timers_flat (m : timers) : list (I * T) :=
  e ← m; (fun t => (fst e, t)) <$> snd e.

Definition js_lt (a b : I) : Prop := js_leb a b = true /\ a <> b.

(** The map's representation invariant: keys strictly increasing. *)
Definition timers_ok (m : timers) : Prop := StronglySorted js_lt (fst <$> m).
End timers.
Arguments timers_len {I T} _ : simpl never.
Global Arguments timers_flat : simpl never.

(** ** The queue *)

Record QueueSnapshot := mkSnapshot {
  snap_in_flight : Z;
  snap_promise : nat;
  snap_timeout : nat;
  snap_generic : nat;
}.

Inductive RunJobsExit := Complete | DeadlineExceeded (s : QueueSnapshot).

(** A [JsError], as far as it is inspected: native kind and message, or an
    opaque thrown value [V]. *)
Inductive JsErrorKind := JsTypeError | JsRangeError | JsReferenceError | JsRuntimeLimit | JsPlainError.
Inductive JsError (V : Type) :=
| NativeError (k : JsErrorKind) (m : str)
| OpaqueError (v : V)
| RustError (m : str).
Arguments NativeError {V} _ _.
Arguments OpaqueError {V} _.
Arguments RustError {V} _.

Section queue.
Context {I : Type} `{JsTime I}.
Context {AsyncJob PromiseJob TimeoutJob UserGeneric JsVal : Type}.

(** Generic jobs: the engine's own, and the two error closures that
    [enqueue_job] creates. *)
Inductive GenericJob := GenericUser (g : UserGeneric) | GenericFail (e : JsError JsVal).

(** [boa_engine::job::Job]; [JobOther] is a variant this version does not
    know, with its [Debug] rendering. *)
Inductive Job :=
| JobPromise (j : PromiseJob)
| JobAsync (j : AsyncJob)
| JobTimeout (t : TimeoutJob) (delay : Duration)
| JobGeneric (g : UserGeneric)
| JobOther (debug : str).

Record Queue := mkQueue {
  async_jobs : list AsyncJob;
  promise_jobs : list PromiseJob;
  timeout_jobs : list (I * list TimeoutJob);
  generic_jobs : list GenericJob;
  deadline : option I;
}.

Definition queue_new : Queue := mkQueue [] [] [] [] None.

Definition timeout_error : JsError JsVal :=
  NativeError JsRuntimeLimit (lit "Maximum execution time exceeded").

Definition set_deadline (d : option I) (q : Queue) : Queue :=
  mkQueue (async_jobs q) (promise_jobs q) (timeout_jobs q) (generic_jobs q) d.

Definition clear_all (q : Queue) : Queue := mkQueue [] [] [] [] (deadline q).

Definition deadline_exceeded (now : I) (q : Queue) : bool :=
  match deadline q with
  | None => false
  | Some d => js_leb d now
  end.

Definition snapshot (in_flight : Z) (q : Queue) : QueueSnapshot :=
  mkSnapshot in_flight (length (promise_jobs q)) (timers_len (timeout_jobs q))
    (length (generic_jobs q)).

Definition next_timeout_at (q : Queue) : option I := fst <$> head (timeout_jobs q).

(** [js_instant_from_millis]. *)
Definition js_instant_from_millis (ms : Z) : option I :=
  nanos ← checked_mul u64_max (ms mod 1000) 1000000;
  nanos ← try_from u32_max nanos;
  mret (js_instant_new (ms / 1000) nanos).

(** [instant_checked_add]: [u128] addition, then down to [u64]. *)
Definition js_checked_add (base : I) (delta : Duration) : option I :=
  let base_ms := millis_since_epoch base in
  let delta_ms := as_millis delta in
  total_ms ← checked_add u128_max base_ms delta_ms;
  total_ms ← try_from u64_max total_ms;
  js_instant_from_millis total_ms.

Definition millis_until_or_zero (later earlier : I) : Z :=
  saturating_sub (millis_since_epoch later) (millis_since_epoch earlier).

Definition has_due_timeout_job (now : I) (q : Queue) : bool :=
  match next_timeout_at q with Some t => js_leb t now | None => false end.

Definition wait_budget (now : I) (q : Queue) : option Duration :=
  let timeout_budget := (fun t => from_millis (millis_until_or_zero t now)) <$> next_timeout_at q in
  let deadline_budget := (fun d => from_millis (millis_until_or_zero d now)) <$> deadline q in
  match timeout_budget, deadline_budget with
  | Some a, Some b => Some (Z.min a b)
  | Some a, None => Some a
  | None, Some b => Some b
  | None, None => None
  end.

Definition push_generic (g : GenericJob) (q : Queue) : Queue :=
  mkQueue (async_jobs q) (promise_jobs q) (timeout_jobs q) (generic_jobs q ++ [g]) (deadline q).

(** [enqueue_job], with the clock reading it takes for timers. *)
Definition enqueue_job (j : Job) (now : I) (q : Queue) : Queue :=
  match j with
  | JobPromise p =>
      mkQueue (async_jobs q) (promise_jobs q ++ [p]) (timeout_jobs q) (generic_jobs q) (deadline q)
  | JobAsync a =>
      mkQueue (async_jobs q ++ [a]) (promise_jobs q) (timeout_jobs q) (generic_jobs q) (deadline q)
  | JobTimeout t delay =>
      match js_checked_add now delay with
      | None =>
          push_generic (GenericFail (NativeError JsRangeError
            (lit "setTimeout delay is too large for the current platform clock"))) q
      | Some at_ =>
          mkQueue (async_jobs q) (promise_jobs q) (timers_push at_ t (timeout_jobs q))
            (generic_jobs q) (deadline q)
      end
  | JobGeneric g => push_generic (GenericUser g) q
  | JobOther debug =>
      push_generic (GenericFail (NativeError JsTypeError
        (lit "unsupported job type: " ++ debug))) q
  end.

Definition queue_size (q : Queue) : nat :=
  (length (async_jobs q) + length (promise_jobs q) + timers_len (timeout_jobs q)
   + length (generic_jobs q))%nat.

Definition queue_ok (q : Queue) : Prop := timers_ok (timeout_jobs q).
End queue.
Arguments Queue : clear implicits.
Arguments Job : clear implicits.
Arguments GenericJob : clear implicits.
Global Arguments js_checked_add : simpl never.

(** ** The engine

    What the loop asks of Boa and Tokio.  Calling a job, or polling the group
    of running futures, changes the context, enqueues jobs (each with the
    clock reading at that moment) and returns or throws.  [poll_group] is
    [group.next()] under an optional time budget: [None] when the budget
    elapsed, otherwise the index of the finished future and its result.
    [call_async] makes the future of an async job; the queue of async jobs is
    borrowed meanwhile. *)
Class JsEngine (I A P T G V C : Type) := {
  clock_now : C -> I;
  is_cancelled : C -> T -> bool;
  call_async : A -> C -> C * list (Job A P T G * I);
  call_promise : P -> C -> C * list (Job A P T G * I) * result (JsError V) ();
  call_timeout : T -> C -> C * list (Job A P T G * I) * result (JsError V) ();
  call_generic : G -> C -> C * list (Job A P T G * I) * result (JsError V) ();
  clear_kept_objects : C -> C;
  sleep : Duration -> C -> C;
  poll_group : list A -> option Duration -> C ->
    C * list (Job A P T G * I) * option (nat * result (JsError V) ());
  yield_now : C -> C;
}.

Section loop.
Context {I A P T G V C : Type} `{JsTime I} `{JsEngine I A P T G V C}.
Abbreviation queue := (Queue I A P T G V).
Abbreviation job := (Job A P T G).
Abbreviation js_result := (result (JsError V)).

Definition enqueue_all (js : list (job * I)) (q : queue) : queue :=
  foldl (fun q jn => enqueue_job (fst jn) (snd jn) q) q js.

(** Apply a call's effects to the queue and the context. *)
Definition run_call (r : C * list (job * I) * js_result ()) (q : queue)
  : queue * C * js_result () :=
  let '(c', enq, res) := r in (enqueue_all enq q, c', res).

(** [for job in jobs { job.call(context)?; }]. *)
Fixpoint call_each {J} (call : J -> C -> C * list (job * I) * js_result ())
    (js : list J) (q : queue) (c : C) : queue * C * js_result () :=
  match js with
  | [] => (q, c, Ok ())
  | j :: rest =>
      let '(q', c', res) := run_call (call j c) q in
      match res with
      | Ok _ => call_each call rest q' c'
      | Err e => (q', c', Err e)
      end
  end.

Definition drain_timeout_jobs (q : queue) (c : C) : queue * C * js_result () :=
  let now := clock_now c in
  let kept := timers_retain (is_cancelled c) (timeout_jobs q) in
  let '(due, left_) := timers_take_due now kept in
  call_each call_timeout due
    (mkQueue (async_jobs q) (promise_jobs q) left_ (generic_jobs q) (deadline q)) c.

Definition call_generic_job (g : GenericJob G V) (c : C) : C * list (job * I) * js_result () :=
  match g with
  | GenericUser g => call_generic g c
  | GenericFail e => (c, [], Err e)
  end.

(** One macrotask turn: due timers, one generic task, then the promise jobs
    that were queued at that point. *)
Definition drain_jobs (q : queue) (c : C) : queue * C * js_result () :=
  let '(q1, c1, r1) := drain_timeout_jobs q c in
  match r1 with
  | Err e => (q1, c1, Err e)
  | Ok _ =>
      let '(q2, c2, r2) :=
        match generic_jobs q1 with
        | [] => (q1, c1, Ok ())
        | g :: gs =>
            run_call (call_generic_job g c1)
              (mkQueue (async_jobs q1) (promise_jobs q1) (timeout_jobs q1) gs (deadline q1))
        end in
      match r2 with
      | Err e => (q2, c2, Err e)
      | Ok _ =>
          let '(q3, c3, r3) :=
            call_each call_promise (promise_jobs q2)
              (mkQueue (async_jobs q2) [] (timeout_jobs q2) (generic_jobs q2) (deadline q2)) c2 in
          match r3 with
          | Err e => (q3, c3, Err e)
          | Ok _ => (q3, clear_kept_objects c3, Ok ())
          end
      end
  end.

(** The local variables of [run_jobs_async_until_then_to_quiescence]: the
    queue, the context, the future group, the in-flight counter, [stopped],
    the closure that is still to be called, and the state [X] it captures. *)
Record LoopState (X : Type) := mkLoop {
  ls_queue : queue;
  ls_ctx : C;
  ls_group : list A;
  ls_in_flight : Z;
  ls_stopped : bool;
  ls_on_stop : option (C -> X -> C * list (job * I) * X * js_result ());
  ls_host : X;
}.
Arguments mkLoop {X}. Arguments ls_queue {X}. Arguments ls_ctx {X}. Arguments ls_group {X}.
Arguments ls_in_flight {X}. Arguments ls_stopped {X}. Arguments ls_on_stop {X}. Arguments ls_host {X}.

(** One phase of the loop body: fall through to the next phase, or return. *)
Inductive flow (X : Type) :=
| Next (s : LoopState X)
| Return (s : LoopState X) (r : js_result RunJobsExit).
Arguments Next {X}. Arguments Return {X}.

Definition flow_bind {X} (m : flow X) (k : LoopState X -> flow X) : flow X :=
  match m with Next s => k s | Return s r => Return s r end.

Section phases.
Context {X : Type} (should_stop : C -> bool).
Implicit Types s : LoopState X.

Definition with_ctx (c : C) s : LoopState X :=
  mkLoop (ls_queue s) c (ls_group s) (ls_in_flight s) (ls_stopped s) (ls_on_stop s) (ls_host s).

(** [if !stopped && should_stop() { on_stop.take()...; stopped = true }]. *)
Definition phase_stop s : flow X :=
  if negb (ls_stopped s) && should_stop (ls_ctx s) then
    match ls_on_stop s with
    | Some f =>
        let '(c', enq, h', r) := f (ls_ctx s) (ls_host s) in
        let q' := enqueue_all enq (ls_queue s) in
        match r with
        | Ok _ => Next (mkLoop q' c' (ls_group s) (ls_in_flight s) true None h')
        | Err e => Return (mkLoop q' c' (ls_group s) (ls_in_flight s) (ls_stopped s) None h') (Err e)
        end
    | None =>
        Next (mkLoop (ls_queue s) (ls_ctx s) (ls_group s) (ls_in_flight s) true None (ls_host s))
    end
  else Next s.

Definition phase_deadline s : flow X :=
  if deadline_exceeded (clock_now (ls_ctx s)) (ls_queue s) then
    Return s (Ok (DeadlineExceeded (snapshot (ls_in_flight s) (ls_queue s))))
  else Next s.

(** [for job in take(async_jobs) { group.insert(job.call(context)); ... }]. *)
Fixpoint admit_each (js : list A) s : LoopState X :=
  match js with
  | [] => s
  | j :: rest =>
      let '(c', enq) := call_async j (ls_ctx s) in
      admit_each rest
        (mkLoop (enqueue_all enq (ls_queue s)) c' (ls_group s ++ [j])
           (saturating_add usize_max (ls_in_flight s) 1) (ls_stopped s) (ls_on_stop s) (ls_host s))
  end.

Definition phase_admit s : flow X :=
  let q := ls_queue s in
  Next (admit_each (async_jobs q)
    (mkLoop (mkQueue [] (promise_jobs q) (timeout_jobs q) (generic_jobs q) (deadline q))
       (ls_ctx s) (ls_group s) (ls_in_flight s) (ls_stopped s) (ls_on_stop s) (ls_host s))).

Definition phase_complete s : flow X :=
  let q := ls_queue s in
  if bool_decide (ls_group s = []) && bool_decide (promise_jobs q = [])
     && bool_decide (timeout_jobs q = []) && bool_decide (generic_jobs q = [])
  then Return s (Ok Complete) else Next s.

(** How long to sleep when only timers are left. *)
Definition idle_sleep (now next_at : I) (q : queue) : Duration :=
  if js_leb next_at now then 0
  else
    let d := from_millis (millis_until_or_zero next_at now) in
    match deadline q with
    | Some dl =>
        let remaining := if js_leb dl now then 0 else from_millis (millis_until_or_zero dl now) in
        Z.min d remaining
    | None => d
    end.

(** Remove the finished future. *)
Definition group_remove (i : nat) (g : list A) : list A := take i g ++ drop (S i) g.

(** [next_result]: poll the group unless synchronous work is ready or the
    time budget is zero. *)
Definition await_next s : C * list (job * I) * option (nat * js_result ()) :=
  let q := ls_queue s in
  let c := ls_ctx s in
  let now := clock_now c in
  let has_sync_ready_jobs :=
    negb (bool_decide (promise_jobs q = [])) || negb (bool_decide (generic_jobs q = []))
    || has_due_timeout_job now q in
  if has_sync_ready_jobs then (c, [], None)
  else match wait_budget now q with
       | Some b => if is_zero b then (c, [], None) else poll_group (ls_group s) (Some b) c
       | None => poll_group (ls_group s) None c
       end.

Definition phase_wait s : flow X :=
  let q := ls_queue s in
  let c := ls_ctx s in
  if bool_decide (ls_group s = []) then
    match promise_jobs q, generic_jobs q, next_timeout_at q with
    | [], [], Some next_at =>
        let d := idle_sleep (clock_now c) next_at q in
        Next (if is_zero d then s else with_ctx (sleep d c) s)
    | _, _, _ => Next s
    end
  else
    let '(c', enq, r) := await_next s in
    let s' := mkLoop (enqueue_all enq q) c' (ls_group s) (ls_in_flight s)
                (ls_stopped s) (ls_on_stop s) (ls_host s) in
    match r with
    | Some (i, Ok _) =>
        Next (mkLoop (ls_queue s') c' (group_remove i (ls_group s))
                (saturating_sub (ls_in_flight s) 1) (ls_stopped s) (ls_on_stop s) (ls_host s))
    | Some (i, Err e) => Return s' (Err e)
    | None => Next s'
    end.

Definition phase_drain s : flow X :=
  let '(q', c', r) := drain_jobs (ls_queue s) (ls_ctx s) in
  let s' := mkLoop q' c' (ls_group s) (ls_in_flight s) (ls_stopped s) (ls_on_stop s) (ls_host s) in
  match r with
  | Ok _ => Next (with_ctx (yield_now c') s')
  | Err e => Return s' (Err e)
  end.

Definition loop_body s : flow X :=
  flow_bind (phase_stop s) (fun s =>
  flow_bind (phase_deadline s) (fun s =>
  flow_bind (phase_admit s) (fun s =>
  flow_bind (phase_complete s) (fun s =>
  flow_bind (phase_wait s) (fun s =>
  flow_bind (phase_deadline s) phase_drain))))).

(** [fuel] bounds the number of turns; [None] means it ran out. *)
Fixpoint run_loop (fuel : nat) s : option (LoopState X * js_result RunJobsExit) :=
  match fuel with
  | O => None
  | S fuel =>
      match loop_body s with
      | Return s' r => Some (s', r)
      | Next s' => run_loop fuel s'
      end
  end.

(** The state in which turn [n] begins, if the loop gets that far. *)
Fixpoint turns (n : nat) s : option (LoopState X) :=
  match n with
  | O => Some s
  | S n =>
      match loop_body s with
      | Return _ _ => None
      | Next s' => turns n s'
      end
  end.
End phases.

Definition loop_start {X} (q : queue) (c : C) (on_stop : C -> X -> C * list (job * I) * X * js_result ()) (h : X)
  : LoopState X := mkLoop q c [] 0 false (Some on_stop) h.

(** [run_jobs_until_then_to_quiescence]. *)
Definition run_jobs_until {X} (fuel : nat) (should_stop : C -> bool)
    (on_stop : C -> X -> C * list (job * I) * X * js_result ()) (q : queue) (c : C) (h : X)
  : option (LoopState X * js_result RunJobsExit) :=
  run_loop should_stop fuel (loop_start q c on_stop h).

(** [run_jobs]: quiescence with nothing to stop for; a deadline is an error. *)
Definition run_jobs (fuel : nat) (q : queue) (c : C) : option (queue * C * js_result ()) :=
  '(s, r) ← run_jobs_until fuel (fun _ => false) (fun c u => (c, [], u, Ok ())) q c ();
  mret (ls_queue s, ls_ctx s,
        match r with
        | Ok Complete => Ok ()
        | Ok (DeadlineExceeded _) => Err timeout_error
        | Err e => Err e
        end).
End loop.
Arguments LoopState : clear implicits.
Arguments flow : clear implicits.
Arguments mkLoop {I A P T G V C X}.
Arguments ls_queue {I A P T G V C X}.
Arguments ls_ctx {I A P T G V C X}.
Arguments ls_group {I A P T G V C X}.
Arguments ls_in_flight {I A P T G V C X}.
Arguments ls_stopped {I A P T G V C X}.
Arguments ls_on_stop {I A P T G V C X}.
Arguments ls_host {I A P T G V C X}.
Arguments Next {I A P T G V C X}.
Arguments Return {I A P T G V C X}.

(** ** Module loader *)

Section loader.
Context {Module V : Type}.

Definition loader_new : gmap str Module := ∅.
Definition define_module (spec : str) (m : Module) (defined : gmap str Module) : gmap str Module :=
  <[spec := m]> defined.
Definition load_imported_module (defined : gmap str Module) (spec : str)
  : result (JsError V) Module :=
  ok_or (NativeError JsReferenceError (lit "Module not found")) (defined !! spec).
End loader.

(** ** Lemmas: timers *)

Section timer_lemmas.
Context {I : Type} `{JsTimeLaws I} {T : Type}.
Implicit Types m : list (I * list T).

Lemma js_lt_trans (a b c : I) : js_lt a b -> js_lt b c -> js_lt a c.
Proof.
  intros [Hab Hne] [Hbc Hne']. split; [by eapply js_leb_trans|].
  intros ->. apply Hne'. by apply js_leb_antisym.
Qed.

Lemma js_lt_leb_trans (a b c : I) : js_lt a b -> js_leb b c = true -> js_lt a c.
Proof.
  intros [Hab Hne] Hbc. split; [by eapply js_leb_trans|].
  intros ->. apply Hne. by apply js_leb_antisym.
Qed.

Lemma js_eqb_true (a b : I) : js_eqb a b = true <-> a = b.
Proof.
  unfold js_eqb. rewrite andb_true_iff. split; [intros []; by apply js_leb_antisym|].
  intros ->. split; apply js_leb_refl.
Qed.

Lemma js_leb_false (a b : I) : js_leb a b = false -> js_lt b a.
Proof.
  intros Hn. destruct (js_leb_total a b) as [|Hb]; [congruence|].
  split; [done|]. intros ->. rewrite js_leb_refl in Hn. done.
Qed.

Lemma timers_push_keys at_ (t : T) m k :
  k ∈ fst <$> timers_push at_ t m -> k = at_ \/ k ∈ fst <$> m.
Proof.
  induction m as [|[k' ts] m IH]; cbn; [set_solver|].
  case_match; [set_solver|]. case_match; cbn; set_solver.
Qed.

Lemma timers_push_ok at_ (t : T) m : timers_ok m -> timers_ok (timers_push at_ t m).
Proof.
  unfold timers_ok. induction m as [|[k ts] m IH]; cbn; intros Hs; [repeat constructor|].
  inversion Hs as [|? ? Hs' Hlt]; subst.
  destruct (js_eqb at_ k) eqn:Heq; [done|].
  destruct (js_leb at_ k) eqn:Hle; cbn.
  - assert (js_lt at_ k) as Hk.
    { split; [done|]. intros ->. rewrite (proj2 (js_eqb_true k k)) in Heq; done. }
    constructor; [done|]. constructor; [done|].
    eapply Forall_impl; [exact Hlt|]. intros. by eapply js_lt_trans.
  - constructor; [by apply IH|]. apply Forall_forall.
    intros k' [->|Hin]%timers_push_keys; [by apply js_leb_false|].
    by rewrite Forall_forall in Hlt; apply Hlt.
Qed.

Lemma timers_push_len at_ (t : T) m : timers_len (timers_push at_ t m) = S (timers_len m).
Proof.
  unfold timers_len. induction m as [|[k ts] m IH]; cbn; [done|].
  case_match; cbn; [rewrite length_app; cbn; lia|]. case_match; cbn; [done|].
  rewrite IH. lia.
Qed.

Lemma timers_flat_cons k (ts : list T) m :
  timers_flat ((k, ts) :: m) = (pair k <$> ts) ++ timers_flat m.
Proof. done. Qed.

Lemma timers_flat_length m : length (timers_flat m) = timers_len m.
Proof.
  unfold timers_len. induction m as [|[k ts] m IH]; [done|].
  rewrite timers_flat_cons, length_app, length_fmap, IH. done.
Qed.

Lemma filter_fmap_pair (k : I) (P : I * T -> Prop) `{forall x, Decision (P x)} (ts : list T) :
  filter P (pair k <$> ts) = pair k <$> filter (fun t => P (k, t)) ts.
Proof.
  induction ts as [|t ts IH]; [done|].
  rewrite fmap_cons, !filter_cons. destruct (decide _); [rewrite fmap_cons|]; by rewrite IH.
Qed.

Lemma timers_retain_flat cancelled m :
  timers_flat (timers_retain cancelled m) =
  filter (fun e => cancelled (snd e) = false) (timers_flat m).
Proof.
  unfold timers_retain. induction m as [|[k ts] m IH]; [done|].
  rewrite timers_flat_cons, filter_app, filter_fmap_pair, <- IH, fmap_cons, filter_cons. simpl.
  destruct (decide _) as [|Hn]; [done|]. apply dec_stable in Hn. by rewrite Hn.
Qed.

Lemma timers_retain_ok cancelled m : timers_ok m -> timers_ok (timers_retain cancelled m).
Proof.
  unfold timers_ok, timers_retain. induction m as [|[k ts] m IH]; cbn -[filter]; intros Hs; [done|].
  inversion Hs as [|? ? Hs' Hlt]; subst. rewrite filter_cons.
  destruct (decide _); cbn; [|by apply IH].
  constructor; [by apply IH|]. apply Forall_forall. intros k' Hk'.
  rewrite Forall_forall in Hlt. apply Hlt.
  apply list_elem_of_fmap in Hk' as ([k1 ts1] & -> & Hin).
  apply list_elem_of_filter in Hin as [_ Hin].
  apply list_elem_of_fmap in Hin as ([k2 ts2] & [= -> ->] & Hin).
  apply list_elem_of_fmap. by exists (k2, ts2).
Qed.

Lemma timers_retain_nonempty cancelled m :
  Forall (fun e => snd e <> []) (timers_retain cancelled m).
Proof. apply Forall_forall. unfold timers_retain. by intros e [? _]%list_elem_of_filter. Qed.

Lemma flat_keys e m : e ∈ timers_flat m -> fst e ∈ fst <$> m.
Proof.
  unfold timers_flat. intros Hin. apply list_elem_of_bind in Hin as ([k ts] & Hin & He).
  apply list_elem_of_fmap in Hin as (t & -> & _). apply list_elem_of_fmap. by exists (k, ts).
Qed.

(** Taking the due entries of a map splits its jobs by due instant. *)
Lemma timers_take_due_flat now m due left_ :
  timers_ok m -> timers_take_due now m = (due, left_) ->
  due = snd <$> filter (fun e => js_leb (fst e) now = true) (timers_flat m) /\
  timers_flat left_ = filter (fun e => js_leb (fst e) now = false) (timers_flat m) /\
  exists pre, m = pre ++ left_.
Proof.
  revert due left_. induction m as [|[k ts] m IH]; intros due left_ Hs; [by intros [= <- <-]; repeat split; exists []|].
  inversion Hs as [|? ? Hs' Hlt]; subst.
  rewrite timers_flat_cons. cbn [timers_take_due]. rewrite !filter_app, !filter_fmap_pair.
  destruct (js_leb k now) eqn:Hk.
  - destruct (timers_take_due now m) as [due' left'] eqn:Ht. intros [= <- <-].
    destruct (IH _ _ Hs' eq_refl) as (-> & Hl & pre & ->). cbn.
    rewrite (filter_all (fun t => js_leb k now = true)) by (by apply Forall_true).
    rewrite (filter_none (fun t => js_leb k now = false)) by (apply Forall_true; intros ?; congruence).
    rewrite fmap_app, <- list_fmap_compose. unfold compose. cbn. rewrite list_fmap_id.
    repeat split; [done|]. by exists ((k, ts) :: pre).
  - intros [= <- <-]. cbn.
    assert (Forall (fun e => js_leb (fst e) now = false) (timers_flat m)) as Hall.
    { apply Forall_forall. intros e He%flat_keys. rewrite Forall_forall in Hlt.
      specialize (Hlt _ He). destruct (js_leb e.1 now) eqn:Hle; [|done].
      pose proof (js_lt_leb_trans _ _ _ Hlt Hle) as [Hle' _]. congruence. }
    rewrite (filter_none (fun t => js_leb k now = true)) by (apply Forall_true; intros ?; congruence).
    rewrite (filter_all (fun t => js_leb k now = false)) by (by apply Forall_true).
    rewrite (filter_all (fun e => js_leb e.1 now = false)) by done.
    rewrite (filter_none (fun e => js_leb e.1 now = true)) by
      (eapply Forall_impl; [exact Hall|]; cbn; intros ? ->; done).
    repeat split; by exists [].
Qed.

Lemma timers_suffix_ok pre m : timers_ok (pre ++ m) -> timers_ok m.
Proof. unfold timers_ok. rewrite fmap_app. apply StronglySorted_app_1_r. Qed.
End timer_lemmas.

(** ** Lemmas: queue and loop *)

Section queue_lemmas.
Context {I A P T G V : Type} `{JsTimeLaws I}.
Implicit Types q : Queue I A P T G V.

Lemma enqueue_job_deadline j now q : deadline (enqueue_job j now q) = deadline q.
Proof. destruct j; cbn; try done. by case_match. Qed.

Lemma enqueue_job_ok j now q : queue_ok q -> queue_ok (enqueue_job j now q).
Proof.
  unfold queue_ok. destruct j; cbn; try done. case_match; cbn; [|done].
  intros. by apply timers_push_ok.
Qed.

Lemma enqueue_job_size j now q : queue_size (enqueue_job j now q) = S (queue_size q).
Proof.
  unfold queue_size. destruct j as [| |t delay| |]; cbn; try (rewrite length_app; cbn; lia).
  destruct (js_checked_add now delay); cbn; rewrite ?timers_push_len, ?length_app; cbn; lia.
Qed.
End queue_lemmas.

(** Laws of the engine the loop relies on: Boa's clock does not go back, and a
    poll finishes a future of the group.  Making a future runs none of it
    (futures are lazy), so no async job is enqueued meanwhile.  [tick] orders
    instants like integers. *)
Class JsEngineLaws (I A P T G V C : Type) `{JsTimeLaws I} `{!JsEngine I A P T G V C} := {
  tick : I -> Z;
  tick_leb : forall a b, js_leb a b = true <-> tick a <= tick b;
  call_promise_mono : forall j c, tick (clock_now c) <= tick (clock_now (call_promise j c).1.1);
  call_timeout_mono : forall j c, tick (clock_now c) <= tick (clock_now (call_timeout j c).1.1);
  call_generic_mono : forall j c, tick (clock_now c) <= tick (clock_now (call_generic j c).1.1);
  clear_kept_mono : forall c, tick (clock_now c) <= tick (clock_now (clear_kept_objects c));
  sleep_mono : forall d c, tick (clock_now c) <= tick (clock_now (sleep d c));
  poll_mono : forall g b c, tick (clock_now c) <= tick (clock_now (poll_group g b c).1.1);
  yield_mono : forall c, tick (clock_now c) <= tick (clock_now (yield_now c));
  call_async_mono : forall j c, tick (clock_now c) <= tick (clock_now (call_async j c).1);
  call_async_lazy : forall j c a now, (JobAsync a, now) ∉ (call_async j c).2;
  poll_index : forall g b c i r, (poll_group g b c).2 = Some (i, r) -> (i < length g)%nat;
}.

Section loop_lemmas.
Context {I A P T G V C : Type} `{JsEngineLaws I A P T G V C}.
Abbreviation queue := (Queue I A P T G V).
Implicit Types (q : queue) (c : C).

(** How a queue and a context may change while jobs run. *)
Definition evolves (s s' : queue * C) : Prop :=
  deadline s'.1 = deadline s.1 /\
  tick (clock_now s.2) <= tick (clock_now s'.2) /\
  (queue_ok s.1 -> queue_ok s'.1).

Lemma evolves_refl s : evolves s s.
Proof. repeat split; try done; lia. Qed.

Lemma evolves_trans s1 s2 s3 : evolves s1 s2 -> evolves s2 s3 -> evolves s1 s3.
Proof. intros (? & ? & ?) (? & ? & ?). repeat split; [congruence|lia|eauto]. Qed.

Lemma enqueue_all_evolves js q :
  deadline (enqueue_all js q) = deadline q /\ (queue_ok q -> queue_ok (enqueue_all js q)).
Proof.
  unfold enqueue_all. revert q. induction js as [|[j n] js IH]; intros q; [done|]. cbn.
  destruct (IH (enqueue_job j n q)) as [-> Hok].
  rewrite enqueue_job_deadline. eauto using enqueue_job_ok.
Qed.

Lemma run_call_evolves q c (r : C * list (Job A P T G * I) * result (JsError V) ()) q' c' res :
  tick (clock_now c) <= tick (clock_now r.1.1) ->
  run_call r q = (q', c', res) -> evolves (q, c) (q', c').
Proof.
  destruct r as [[c1 enq] r1]. cbn. intros Ht [= <- <- <-].
  destruct (enqueue_all_evolves enq q). repeat split; done.
Qed.

Lemma call_each_evolves {J} (call : J -> C -> C * list (Job A P T G * I) * result (JsError V) ())
    js q c q' c' res :
  (forall j c, tick (clock_now c) <= tick (clock_now (call j c).1.1)) ->
  call_each call js q c = (q', c', res) -> evolves (q, c) (q', c').
Proof.
  intros Hm. revert q c. induction js as [|j js IH]; intros q c; cbn [call_each].
  - intros [= <- <- <-]. apply evolves_refl.
  - destruct (run_call (call j c) q) as [[q1 c1] r1] eqn:Hr.
    apply (run_call_evolves _ c) in Hr; [|done]. destruct r1.
    + intros Hc%IH. by eapply evolves_trans.
    + by intros [= <- <- <-].
Qed.

Lemma drain_timeout_evolves q c q' c' res :
  drain_timeout_jobs q c = (q', c', res) -> evolves (q, c) (q', c').
Proof.
  unfold drain_timeout_jobs. destruct (timers_take_due _ _) as [due left_] eqn:Ht.
  intros Hc%call_each_evolves; [|apply call_timeout_mono].
  destruct Hc as (? & ? & Hok). repeat split; try done. cbn in *. intros Hq. apply Hok.
  apply timers_take_due_flat in Ht as (_ & _ & pre & Hpre); [|by apply timers_retain_ok].
  unfold queue_ok. cbn. apply (timers_suffix_ok pre). rewrite <- Hpre. by apply timers_retain_ok.
Qed.

Lemma call_generic_job_mono (g : GenericJob G V) c :
  tick (clock_now c) <= tick (clock_now (call_generic_job g c).1.1).
Proof. destruct g; [apply call_generic_mono|cbn; lia]. Qed.

Lemma drain_jobs_evolves q c q' c' res :
  drain_jobs q c = (q', c', res) -> evolves (q, c) (q', c').
Proof.
  unfold drain_jobs. destruct (drain_timeout_jobs q c) as [[q1 c1] r1] eqn:Hd1.
  apply drain_timeout_evolves in Hd1. destruct r1; [|by intros [= <- <- <-]].
  destruct (match generic_jobs q1 with [] => _ | _ => _ end) as [[q2 c2] r2] eqn:Hd2.
  assert (evolves (q1, c1) (q2, c2)) as Hd2'.
  { destruct (generic_jobs q1) as [|g gs]; [simplify_eq; apply evolves_refl|].
    eapply run_call_evolves in Hd2; [|apply call_generic_job_mono]. done. }
  destruct r2; [|by intros [= <- <- <-]; eapply evolves_trans].
  destruct (call_each _ _ _ _) as [[q3 c3] r3] eqn:Hd3.
  apply call_each_evolves in Hd3; [|apply call_promise_mono].
  assert (evolves (q, c) (q3, c3)) as Hall by (eapply evolves_trans; [|exact Hd3]; by eapply evolves_trans).
  destruct r3; intros [= <- <- <-]; [|done].
  eapply evolves_trans; [exact Hall|]. repeat split; [|done]. apply clear_kept_mono.
Qed.
End loop_lemmas.

Section phase_lemmas.
Context {I A P T G V C X : Type} `{JsEngineLaws I A P T G V C} (should_stop : C -> bool).
Abbreviation lstate := (LoopState I A P T G V C X).
Implicit Types s : lstate.

Definition view s : Queue I A P T G V * C := (ls_queue s, ls_ctx s).

(** The closure and its captured state are untouched between [s] and [s']. *)
Definition same_host s s' : Prop :=
  ls_stopped s' = ls_stopped s /\ ls_on_stop s' = ls_on_stop s /\
  ls_host s' = ls_host s.

Definition flow_state (f : flow I A P T G V C X) : lstate :=
  match f with Next s | Return s _ => s end.

Lemma await_next_mono s :
  tick (clock_now (ls_ctx s)) <= tick (clock_now (await_next s).1.1).
Proof. unfold await_next. repeat case_match; cbn; try lia; apply poll_mono. Qed.

Lemma phase_wait_inv s :
  evolves (view s) (view (flow_state (phase_wait s))) /\
  same_host s (flow_state (phase_wait s)).
Proof.
  unfold phase_wait. case_bool_decide.
  - repeat case_match; cbn; (split; [|done]); try apply evolves_refl.
    repeat split; [|done]. apply sleep_mono.
  - pose proof (await_next_mono s) as Ht. destruct (await_next s) as [[c' enq] r].
    destruct (enqueue_all_evolves enq (ls_queue s)) as [Hdl Hok].
    repeat case_match; cbn; (split; [|done]); repeat split; done.
Qed.

Lemma phase_drain_inv s :
  evolves (view s) (view (flow_state (phase_drain s))) /\
  same_host s (flow_state (phase_drain s)).
Proof.
  unfold phase_drain. destruct (drain_jobs _ _) as [[q' c'] r] eqn:Hd.
  apply drain_jobs_evolves in Hd as (Hdl & Ht & Hok). cbn in *.
  pose proof (yield_mono c'). destruct r; cbn; repeat split; try done; cbn; lia.
Qed.

Lemma admit_each_inv js s :
  evolves (view s) (view (admit_each js s)) /\ same_host s (admit_each js s).
Proof.
  revert s. induction js as [|j js IH]; intros s; cbn [admit_each]; [by split; [apply evolves_refl|]|].
  pose proof (call_async_mono j (ls_ctx s)) as Ht. destruct (call_async j (ls_ctx s)) as [c' enq].
  destruct (enqueue_all_evolves enq (ls_queue s)) as [Hdl Hok].
  set (s1 := mkLoop _ _ _ _ _ _ _). destruct (IH s1) as [Hv Hh]. split; [|exact Hh].
  eapply evolves_trans; [|exact Hv]. repeat split; done.
Qed.

Lemma phase_admit_inv s :
  exists s', phase_admit s = Next s' /\ evolves (view s) (view s') /\ same_host s s'.
Proof.
  eexists. split; [reflexivity|]. set (s1 := mkLoop _ _ _ _ _ _ _).
  destruct (admit_each_inv (async_jobs (ls_queue s)) s1) as [Hv Hh]. split; [|exact Hh].
  eapply evolves_trans; [|exact Hv]. repeat split; [|done]. cbn. lia.
Qed.

End phase_lemmas.

Section exit_lemmas.
Context {I A P T G V C X : Type} `{JsEngineLaws I A P T G V C} (should_stop : C -> bool).
Abbreviation lstate := (LoopState I A P T G V C X).
Implicit Types s : lstate.

(** The ways through one turn, by the phase that leaves it. *)
Inductive turn_of s : flow I A P T G V C X -> Prop :=
| turn_throws s1 e : phase_stop should_stop s = Return s1 (Err e) -> turn_of s (Return s1 (Err e))
| turn_late s1 : phase_stop should_stop s = Next s1 ->
    deadline_exceeded (clock_now (ls_ctx s1)) (ls_queue s1) = true ->
    turn_of s (Return s1 (Ok (DeadlineExceeded (snapshot (ls_in_flight s1) (ls_queue s1)))))
| turn_completes s1 s2 : phase_stop should_stop s = Next s1 ->
    deadline_exceeded (clock_now (ls_ctx s1)) (ls_queue s1) = false -> phase_admit s1 = Next s2 ->
    phase_complete s2 = Return s2 (Ok Complete) -> turn_of s (Return s2 (Ok Complete))
| turn_fails s1 s2 s3 e : phase_stop should_stop s = Next s1 ->
    deadline_exceeded (clock_now (ls_ctx s1)) (ls_queue s1) = false -> phase_admit s1 = Next s2 ->
    phase_wait s2 = Return s3 (Err e) -> turn_of s (Return s3 (Err e))
| turn_waits_late s1 s2 s3 : phase_stop should_stop s = Next s1 ->
    deadline_exceeded (clock_now (ls_ctx s1)) (ls_queue s1) = false -> phase_admit s1 = Next s2 ->
    phase_wait s2 = Next s3 -> deadline_exceeded (clock_now (ls_ctx s3)) (ls_queue s3) = true ->
    turn_of s (Return s3 (Ok (DeadlineExceeded (snapshot (ls_in_flight s3) (ls_queue s3)))))
| turn_drains s1 s2 s3 : phase_stop should_stop s = Next s1 ->
    deadline_exceeded (clock_now (ls_ctx s1)) (ls_queue s1) = false -> phase_admit s1 = Next s2 ->
    phase_wait s2 = Next s3 -> turn_of s (phase_drain s3).

Lemma phase_stop_return s s' r : phase_stop should_stop s = Return s' r -> exists e, r = Err e.
Proof. unfold phase_stop. repeat case_match; intros; simplify_eq; by eexists. Qed.

Lemma phase_wait_return s s' r : phase_wait s = Return s' r -> exists e, r = Err e.
Proof. unfold phase_wait. repeat case_match; intros; simplify_eq; by eexists. Qed.

Lemma phase_drain_return s s' r : phase_drain s = Return s' r -> exists e, r = Err e.
Proof. unfold phase_drain. repeat case_match; intros; simplify_eq; by eexists. Qed.

Lemma loop_body_turn s : turn_of s (loop_body should_stop s).
Proof.
  unfold loop_body. destruct (phase_stop should_stop s) as [s1|s1 r1] eqn:E1; cbn [flow_bind].
  2: { destruct (phase_stop_return _ _ _ E1) as [e ->]. by constructor. }
  unfold phase_deadline at 1. destruct (deadline_exceeded _ _) eqn:Hd1; cbn [flow_bind]; [by constructor|].
  destruct (phase_admit_inv s1) as (s2 & E2 & _). rewrite E2. cbn [flow_bind].
  unfold phase_complete. destruct (bool_decide _ && _ && _ && _) eqn:Hc; cbn [flow_bind].
  { eapply turn_completes; [done..|]. unfold phase_complete. by rewrite Hc. }
  destruct (phase_wait s2) as [s3|s3 r3] eqn:E3; cbn [flow_bind].
  2: { destruct (phase_wait_return _ _ _ E3) as [e ->]. by eapply turn_fails. }
  unfold phase_deadline. destruct (deadline_exceeded (clock_now (ls_ctx s3)) _) eqn:Hd3; cbn [flow_bind];
    [by eapply turn_waits_late|by eapply turn_drains].
Qed.

(** *** The stop closure *)

(** The stop closure has not been called, or is spent. *)
Definition armed (f : C -> X -> C * list (Job A P T G * I) * X * result (JsError V) ()) (h : X) s : Prop :=
  ls_stopped s = false /\ ls_on_stop s = Some f /\ ls_host s = h.
Definition spent (h : X) s : Prop := ls_stopped s = true /\ ls_host s = h.

Lemma same_host_armed f h s s' : same_host s s' -> armed f h s -> armed f h s'.
Proof. unfold same_host, armed. by intros (-> & -> & ->). Qed.
Lemma same_host_spent h s s' : same_host s s' -> spent h s -> spent h s'.
Proof. unfold same_host, spent. by intros (-> & _ & ->). Qed.
Lemma same_host_trans s1 s2 s3 : same_host s1 s2 -> same_host s2 s3 -> same_host s1 s3.
Proof. unfold same_host. intros (-> & -> & ->) (-> & -> & ->). done. Qed.

(** After its first phase a turn leaves the closure alone. *)
Lemma turn_same_host s fl s1 :
  turn_of s fl -> phase_stop should_stop s = Next s1 -> same_host s1 (flow_state fl).
Proof.
  intros Ht E. destruct Ht as [? ? E1|? E1|? ? E1|? ? ? ? E1|? ? ? E1|? ? ? E1]; rewrite E in E1;
    try discriminate E1; injection E1 as <-; cbn; try done.
  all: match goal with E2 : phase_admit ?s1 = _ |- _ =>
    destruct (phase_admit_inv s1) as (? & E2' & _ & Hh2); rewrite E2 in E2'; injection E2' as <- end; try done.
  all: match goal with E3 : phase_wait ?s2 = _ |- _ =>
    pose proof (phase_wait_inv s2) as [_ Hh3]; rewrite E3 in Hh3; cbn in Hh3 end.
  3: destruct (phase_drain_inv s3) as [_ Hh4].
  all: eauto using same_host_trans.
Qed.

Lemma loop_body_armed f h s :
  armed f h s -> should_stop (ls_ctx s) = false -> armed f h (flow_state (loop_body should_stop s)).
Proof.
  intros Ha Hs. assert (phase_stop should_stop s = Next s) as E.
  { unfold phase_stop. by rewrite (proj1 Ha), Hs. }
  eapply same_host_armed; [exact (turn_same_host _ _ _ (loop_body_turn s) E)|done].
Qed.

Lemma loop_body_spent h s : spent h s -> spent h (flow_state (loop_body should_stop s)).
Proof.
  intros Ha. assert (phase_stop should_stop s = Next s) as E.
  { unfold phase_stop. by rewrite (proj1 Ha). }
  eapply same_host_spent; [exact (turn_same_host _ _ _ (loop_body_turn s) E)|done].
Qed.

(** A turn that begins with the stop condition calls the closure. *)
Lemma loop_body_fires f h s :
  armed f h s -> should_stop (ls_ctx s) = true ->
  ls_host (flow_state (loop_body should_stop s)) = (f (ls_ctx s) h).1.2 /\
  forall s', loop_body should_stop s = Next s' -> spent (f (ls_ctx s) h).1.2 s'.
Proof.
  intros (Hs0 & Hf & Hh) Hs. pose proof (loop_body_turn s) as Ht.
  destruct (f (ls_ctx s) h) as [[[c' enq] h'] r] eqn:Hr. cbn. destruct r as [[]|e].
  - assert (exists s1, phase_stop should_stop s = Next s1 /\ spent h' s1) as (s1 & E & Hsp).
    { unfold phase_stop. rewrite Hs0, Hs, Hf, Hh, Hr. cbn. by eexists. }
    pose proof (same_host_spent _ _ _ (turn_same_host _ _ _ Ht E) Hsp) as Hsp'.
    split; [apply Hsp'|]. intros s' Hn. by rewrite Hn in Hsp'.
  - assert (exists s1, phase_stop should_stop s = Return s1 (Err e) /\ ls_host s1 = h') as (s1 & E & Hsp).
    { unfold phase_stop. rewrite Hs0, Hs, Hf, Hh, Hr. cbn. by eexists. }
    unfold loop_body. rewrite E. cbn. done.
Qed.

Lemma run_loop_spent fuel h s s' r :
  spent h s -> run_loop should_stop fuel s = Some (s', r) -> ls_host s' = h.
Proof.
  revert s. induction fuel as [|fuel IH]; intros s Hsp; [done|]. cbn [run_loop].
  pose proof (loop_body_spent _ _ Hsp) as Hsp'.
  destruct (loop_body should_stop s) as [s1|s1 r1]; [by apply IH|]. intros [= <- <-]. apply Hsp'.
Qed.

(** The closure is called in the first turn that begins with the stop
    condition, and in no other. *)
Lemma run_loop_first_stop f h fuel s s' r :
  armed f h s -> run_loop should_stop fuel s = Some (s', r) ->
  (ls_host s' = h /\ forall n sn, turns should_stop n s = Some sn -> should_stop (ls_ctx sn) = false) \/
  (exists n sn, turns should_stop n s = Some sn /\ should_stop (ls_ctx sn) = true /\
    (forall k sk, (k < n)%nat -> turns should_stop k s = Some sk -> should_stop (ls_ctx sk) = false) /\
    ls_host s' = (f (ls_ctx sn) h).1.2).
Proof.
  revert s. induction fuel as [|fuel IH]; intros s Ha; [done|]. cbn [run_loop].
  destruct (should_stop (ls_ctx s)) eqn:Hs.
  - pose proof (loop_body_fires _ _ _ Ha Hs) as [Hh Hn].
    intros Hr. right. exists 0%nat, s. do 2 (split; [done|]). split; [intros; lia|].
    destruct (loop_body should_stop s) as [s1|s1 r1]; [|by simplify_eq].
    eapply run_loop_spent; [by apply Hn|done].
  - pose proof (loop_body_armed _ _ _ Ha Hs) as Ha'.
    destruct (loop_body should_stop s) as [s1|s1 r1] eqn:E; cbn in Ha'.
    + intros [[Hh Hno]|(n & sn & Hn & Hss & Hfirst & Hh)]%(IH s1 Ha').
      * left. split; [done|]. intros [|n] sn; cbn [turns]; [by intros [= <-]|]. rewrite E. apply Hno.
      * right. exists (S n), sn. cbn [turns]. rewrite E. do 2 (split; [done|]). split; [|done].
        intros [|k] sk Hk; cbn [turns]; [by intros [= <-]|]. rewrite E. apply Hfirst. lia.
    + intros [= <- <-]. left. split; [apply Ha'|].
      intros [|n] sn; cbn [turns]; [by intros [= <-]|]. by rewrite E.
Qed.

(** *** Where the loop leaves *)

Lemma phase_stop_served s s1 :
  phase_stop should_stop s = Next s1 -> ls_stopped s1 = false -> should_stop (ls_ctx s1) = false.
Proof.
  unfold phase_stop. destruct (negb (ls_stopped s) && should_stop (ls_ctx s)) eqn:Hb.
  - repeat case_match; intros; by simplify_eq.
  - intros [= <-] Hf. by rewrite Hf in Hb.
Qed.

(** *** The clock *)

(** The stop closure does not turn the clock back. *)
Definition stop_mono s : Prop :=
  forall f c h, ls_on_stop s = Some f -> tick (clock_now c) <= tick (clock_now (f c h).1.1.1).

Lemma phase_stop_evolves s :
  stop_mono s -> evolves (view s) (view (flow_state (phase_stop should_stop s))) /\
    stop_mono (flow_state (phase_stop should_stop s)).
Proof.
  intros Hm. unfold phase_stop. destruct (negb _ && _); [|split; [apply evolves_refl|done]].
  destruct (ls_on_stop s) as [f|] eqn:Hf; [|split; [apply evolves_refl|done]].
  pose proof (Hm f (ls_ctx s) (ls_host s) Hf) as Ht.
  destruct (f _ _) as [[[c' enq] h'] []]; cbn in *;
    destruct (enqueue_all_evolves enq (ls_queue s)); (split; [by repeat split|done]).
Qed.

Lemma stop_mono_same s s' : same_host s s' -> stop_mono s -> stop_mono s'.
Proof. unfold stop_mono. by intros (_ & -> & _). Qed.

(** A turn leaves the deadline alone and never turns the clock back. *)
Lemma turn_evolves s fl :
  stop_mono s -> turn_of s fl -> evolves (view s) (view (flow_state fl)) /\ stop_mono (flow_state fl).
Proof.
  intros Hm Ht. pose proof (phase_stop_evolves s Hm) as [Hv1 Hm1].
  destruct Ht; rewrite H2 in Hv1, Hm1; cbn [flow_state] in *; try done.
  all: match goal with E2 : phase_admit ?s1 = _ |- _ =>
    destruct (phase_admit_inv s1) as (? & E2' & Hv2 & Hh2); rewrite E2 in E2'; injection E2' as <- end;
    try by eauto using evolves_trans, stop_mono_same.
  all: match goal with E3 : phase_wait ?s2 = _ |- _ =>
    pose proof (phase_wait_inv s2) as [Hv3 Hh3]; rewrite E3 in Hv3, Hh3; cbn in Hv3, Hh3 end.
  all: pose proof (evolves_trans _ _ _ Hv1 (evolves_trans _ _ _ Hv2 Hv3)) as Hv;
    pose proof (stop_mono_same _ _ Hh3 (stop_mono_same _ _ Hh2 Hm1)) as Hm3; try done.
  destruct (phase_drain_inv s3) as [Hv4 Hh4]. eauto using evolves_trans, stop_mono_same.
Qed.

Lemma deadline_exceeded_false (now d : I) (q : Queue I A P T G V) :
  deadline q = Some d -> deadline_exceeded now q = false -> tick now < tick d.
Proof.
  unfold deadline_exceeded. intros -> Hf. destruct (Z.lt_ge_cases (tick now) (tick d)) as [|Hge]; [done|].
  apply tick_leb in Hge. congruence.
Qed.

(** A turn that goes on to the next has found the deadline in the future. *)
Lemma turn_before s s' d :
  stop_mono s -> loop_body should_stop s = Next s' -> deadline (ls_queue s) = Some d ->
  tick (clock_now (ls_ctx s)) < tick d.
Proof.
  intros Hm E Hd. pose proof (loop_body_turn s) as Ht. rewrite E in Ht.
  destruct (phase_stop_evolves s Hm) as [Hv1 _]. inversion Ht; subst.
  match goal with E1 : phase_stop _ _ = Next _ |- _ => rewrite E1 in Hv1; destruct Hv1 as (Hd1 & Hle & _) end.
  match goal with Hx : deadline_exceeded _ _ = false |- _ => eapply deadline_exceeded_false in Hx end; [|cbn in Hd1; by rewrite Hd1].
  cbn in Hle. lia.
Qed.

(** More fuel does not change the result. *)
Lemma run_loop_more fuel fuel' s x :
  (fuel <= fuel')%nat -> run_loop should_stop fuel s = Some x -> run_loop should_stop fuel' s = Some x.
Proof.
  revert fuel' s. induction fuel as [|fuel IH]; intros [|fuel'] s Hle; cbn [run_loop]; try done; [lia|].
  destruct (loop_body should_stop s); [|done]. apply IH. lia.
Qed.

Lemma run_loop_evolves fuel s s' r :
  stop_mono s -> run_loop should_stop fuel s = Some (s', r) -> evolves (view s) (view s').
Proof.
  revert s. induction fuel as [|fuel IH]; intros s Hm; [done|]. cbn [run_loop].
  pose proof (turn_evolves s _ Hm (loop_body_turn s)) as [Hv Hm'].
  destruct (loop_body should_stop s) as [s1|s1 r1]; cbn in Hv, Hm'; [|by intros [= <- <-]].
  intros Hr%IH; [eauto using evolves_trans|done].
Qed.

Lemma turns_evolve n s sn :
  stop_mono s -> turns should_stop n s = Some sn -> evolves (view s) (view sn) /\ stop_mono sn.
Proof.
  revert s. induction n as [|n IH]; intros s Hm; cbn [turns]; [intros [= <-]; split; [apply evolves_refl|done]|].
  pose proof (turn_evolves s _ Hm (loop_body_turn s)) as [Hv Hm'].
  destruct (loop_body should_stop s) as [s1|s1 r1]; [|done]. cbn in Hv, Hm'.
  intros [Hv1 ?]%IH; [|done]. split; [by eapply evolves_trans|done].
Qed.

Lemma turns_split k n s sk sn :
  (k <= n)%nat -> turns should_stop k s = Some sk -> turns should_stop n s = Some sn ->
  exists m, turns should_stop m sk = Some sn.
Proof.
  revert n s. induction k as [|k IH]; intros n s Hk; cbn [turns]; [intros [= <-]; by exists n|].
  destruct n as [|n]; [lia|]. cbn [turns]. destruct (loop_body should_stop s) as [s1|]; [|done].
  apply IH. lia.
Qed.

Lemma run_loop_turns n s sn s' r :
  turns should_stop n s = Some sn -> loop_body should_stop sn = Return s' r ->
  run_loop should_stop (S n) s = Some (s', r).
Proof.
  revert s. induction n as [|n IH]; intros s.
  - cbn. by intros [= <-] ->.
  - cbn [turns]. intros Hn E. cbn [run_loop]. destruct (loop_body should_stop s) as [s1|]; [|done].
    by apply IH.
Qed.

(** The loop has taken all of [fuel] turns, each begun before [d]. *)
Definition runs_before (d : I) (fuel : nat) s : Prop :=
  forall k, (k < fuel)%nat -> exists sk, turns should_stop k s = Some sk /\ js_leb d (clock_now (ls_ctx sk)) = false.

Lemma run_loop_unfinished fuel s d :
  deadline (ls_queue s) = Some d -> stop_mono s ->
  run_loop should_stop fuel s = None -> runs_before d fuel s.
Proof.
  revert s. induction fuel as [|fuel IH]; intros s Hd Hm; [intros _ k Hk; lia|]. cbn [run_loop].
  pose proof (turn_evolves s _ Hm (loop_body_turn s)) as [(Hd' & _) Hm'].
  destruct (loop_body should_stop s) as [s1|s1 r1] eqn:E; [|done]. cbn in Hd', Hm'.
  intros Hr [|k] Hk; cbn [turns].
  - exists s. split; [done|]. apply not_true_iff_false. rewrite tick_leb.
    pose proof (turn_before _ _ _ Hm E Hd). lia.
  - rewrite E. apply (IH s1); [congruence|done|done|lia].
Qed.

(** A turn that begins at or after the deadline is the last one. *)
Lemma loop_body_late s d :
  deadline (ls_queue s) = Some d -> stop_mono s -> js_leb d (clock_now (ls_ctx s)) = true ->
  exists s' r, loop_body should_stop s = Return s' r /\ ls_group s' = ls_group s /\
    match r with Ok Complete => False | _ => True end.
Proof.
  intros Hd Hm Hl%tick_leb. pose proof (phase_stop_evolves s Hm) as [(Hd1 & Ht1 & _) _]. unfold loop_body.
  assert (ls_group (flow_state (phase_stop should_stop s)) = ls_group s) as Hg
    by (unfold phase_stop; by repeat case_match).
  destruct (phase_stop should_stop s) as [s1|s1 r1] eqn:E1; cbn [flow_bind flow_state view fst snd] in *.
  - unfold phase_deadline at 1. assert (deadline_exceeded (clock_now (ls_ctx s1)) (ls_queue s1) = true) as ->.
    { unfold deadline_exceeded. rewrite Hd1, Hd. apply tick_leb. lia. }
    by eexists _, _.
  - destruct (phase_stop_return _ _ _ E1) as [e ->]. by eexists _, _.
Qed.

(** *** The count of running futures *)

(** The counter of running futures is exact. *)
Definition counted s : Prop := ls_in_flight s = Z.of_nat (length (ls_group s)).

Lemma admit_each_counted js s :
  counted s -> Z.of_nat (length (ls_group s) + length js) <= usize_max -> counted (admit_each js s).
Proof.
  revert s. induction js as [|j js IH]; intros s Hc Hle; cbn [admit_each]; [done|].
  destruct (call_async j (ls_ctx s)) as [c' enq]. apply IH; unfold counted in *; cbn in *;
    rewrite length_app; cbn; [|lia]. unfold saturating_add. lia.
Qed.

Lemma phase_wait_counted s : counted s -> counted (flow_state (phase_wait s)) \/ exists s' e, phase_wait s = Return s' (Err e).
Proof.
  intros Hc. unfold phase_wait. case_bool_decide; [left; repeat case_match; done|].
  destruct (await_next s) as [[c' enq] [[i [|]]|]] eqn:Ha; [|right; by eexists _, _|by left]. left.
  unfold counted in *. cbn. unfold group_remove. rewrite length_app, length_take, length_drop.
  assert (i < length (ls_group s))%nat as Hi.
  { unfold await_next in Ha. repeat case_match; simplify_eq;
      match goal with E : poll_group ?g ?b ?c = _ |- _ => apply (poll_index g b c i (Ok ())); by rewrite E; destruct a end. }
  rewrite Hc. unfold saturating_sub. lia.
Qed.

(** No turn admits more futures than a [usize] counts. *)
Definition never_saturates s : Prop :=
  forall k sk s1, turns should_stop k s = Some sk -> phase_stop should_stop sk = Next s1 ->
    Z.of_nat (length (ls_group s1) + length (async_jobs (ls_queue s1))) <= usize_max.

Lemma phase_stop_counted s : counted s -> counted (flow_state (phase_stop should_stop s)).
Proof. unfold phase_stop. by repeat case_match. Qed.

(** Where the turn goes on or runs into the deadline, the counter is exact. *)
Lemma turn_counted s fl :
  counted s -> never_saturates s -> turn_of s fl ->
  match fl with Return _ (Err _) => True | _ => counted (flow_state fl) end.
Proof.
  intros Hc Hs Ht. pose proof (phase_stop_counted s Hc) as Hc1.
  assert (forall s1 s2, phase_stop should_stop s = Next s1 -> phase_admit s1 = Next s2 -> counted s2) as Hadm.
  { intros s1 s2 E1 E2. injection E2 as <-. rewrite E1 in Hc1. apply admit_each_counted; [done|].
    exact (Hs 0%nat s s1 eq_refl E1). }
  destruct Ht as [|? E1|? ? E1 ? E2|? ? ? ? E1 ? E2 E3|? ? ? E1 ? E2 E3|? ? s3 E1 ? E2 E3]; cbn [flow_state] in *.
  - done.
  - by rewrite E1 in Hc1.
  - by eapply Hadm.
  - done.
  - destruct (phase_wait_counted _ (Hadm _ _ E1 E2)) as [Hc3|(? & ? & E)]; rewrite E3 in *; [done|discriminate E].
  - destruct (phase_wait_counted _ (Hadm _ _ E1 E2)) as [Hc3|(? & ? & E)]; rewrite E3 in *; [|discriminate E].
    unfold phase_drain. by destruct (drain_jobs _ _) as [[? ?] []].
Qed.

Lemma enqueue_all_no_async enq (q : Queue I A P T G V) :
  (forall a now, (JobAsync a, now) ∉ enq) -> async_jobs (enqueue_all enq q) = async_jobs q.
Proof.
  revert q. induction enq as [|[j now] enq IH]; intros q Hn; [done|]. cbn.
  etrans; [apply IH; intros a n' Hin; apply (Hn a n'); by right|].
  destruct j; cbn; try done; [|by case_match]. by destruct (Hn j now); left.
Qed.

Lemma admit_each_async js s : async_jobs (ls_queue s) = [] -> async_jobs (ls_queue (admit_each js s)) = [].
Proof.
  revert s. induction js as [|j js IH]; intros s Hs; cbn [admit_each]; [done|].
  pose proof (call_async_lazy j (ls_ctx s)) as Hl. destruct (call_async j (ls_ctx s)) as [c' enq].
  apply IH. cbn. by rewrite enqueue_all_no_async.
Qed.

Lemma admit_each_group js s : ls_group (admit_each js s) = ls_group s ++ js.
Proof.
  revert s. induction js as [|j js IH]; intros s; cbn [admit_each]; [by rewrite app_nil_r|].
  destruct (call_async j (ls_ctx s)) as [c' enq]. rewrite IH. cbn. by rewrite <- (assoc_L (++)).
Qed.

(** What holds where a turn ends the loop regularly. *)
Lemma turn_exit s s' e :
  turn_of s (Return s' (Ok e)) ->
  match e with
  | Complete => ls_group s' = [] /\ queue_size (ls_queue s') = 0%nat /\
      deadline_exceeded (clock_now (ls_ctx s')) (ls_queue s') = false /\
      (ls_stopped s' = false -> should_stop (ls_ctx s') = false)
  | DeadlineExceeded snap =>
      deadline_exceeded (clock_now (ls_ctx s')) (ls_queue s') = true /\
      snap = snapshot (ls_in_flight s') (ls_queue s')
  end.
Proof.
  inversion 1 as [|? E1 Hd|s1 s2 E1 Hd E2 Hc| |s1 s2 s3 E1 Hd E2 E3 Hd3|s1 s2 s3 E1 Hd E2 E3 Ef]; subst; try done.
  - injection E2 as <-. unfold phase_complete in Hc. destruct (bool_decide _ && _ && _ && _) eqn:Hb; [|done].
    bool_facts. rewrite admit_each_group in *. cbn in *.
    match goal with Hg : _ ++ _ = [] |- _ => apply app_eq_nil in Hg as [Hg Ha] end.
    rewrite Ha in *. cbn in *. unfold queue_size. cbn.
    repeat match goal with Hx : _ = [] |- _ => rewrite Hx; clear Hx end.
    repeat split; [done|]. by eapply phase_stop_served.
  - apply phase_drain_return in Ef as [? ?]. done.
Qed.

(** The same for the whole loop, with the counter. *)
Lemma run_loop_exit fuel s s' e :
  run_loop should_stop fuel s = Some (s', Ok e) ->
  (exists s0, turn_of s0 (Return s' (Ok e))) /\ (counted s -> never_saturates s -> counted s').
Proof.
  revert s. induction fuel as [|fuel IH]; intros s; [done|]. cbn [run_loop].
  pose proof (loop_body_turn s) as Ht. pose proof (fun Hc Hs => turn_counted s _ Hc Hs Ht) as Hc.
  destruct (loop_body should_stop s) as [s1|s1 r1] eqn:E.
  - intros [Hex Hc1]%IH. split; [done|]. intros Hcs Hns. apply Hc1; [by apply Hc|].
    intros k sk s2 Hk. apply (Hns (S k)). cbn. by rewrite E.
  - intros [= -> ->]. eauto.
Qed.
End exit_lemmas.

(** ** A concrete engine

    Instants are nanoseconds; a context is the clock and the log of what ran.
    A promise job [n > 0] enqueues [n - 1] and a timer; promise job [0]
    enqueues itself again; a timer logs itself; making a future logs its job
    and enqueues a generic job.  Every yield takes 1 ns. *)
Module Demo.
Global Instance time : JsTime Z := {|
  js_instant_new s n := s * nanos_per_sec + n;
  millis_since_epoch a := Z.min u64_max (Z.max 0 (a / nanos_per_milli));
  js_leb := Z.leb;
|}.

Global Instance time_laws : JsTimeLaws Z.
Proof.
  split; cbn; unfold nanos_per_milli, nanos_per_sec, in_range.
  - apply Z.leb_refl.
  - intros a b c ??; bool_facts. apply Z.leb_le. lia.
  - intros a b ??; bool_facts. lia.
  - intros a b. rewrite !Z.leb_le. lia.
  - intros a b Hab; bool_facts. pose proof (Z.div_le_mono a b 1000000 ltac:(lia) Hab). lia.
  - intros a. unfold u64_max. lia.
  - intros s n Hs Hn Hr. replace (s * 1000000000 + n) with (n + (s * 1000) * 1000000) by lia.
    rewrite Z.div_add by lia. lia.
Qed.

Abbreviation ctx := (Z * list nat)%type.
Definition log (n : nat) (c : ctx) : ctx := (c.1, c.2 ++ [n]).

Global Instance engine : JsEngine Z nat nat nat nat () ctx := {|
  clock_now c := c.1;
  is_cancelled _ t := bool_decide (t = 99%nat);
  call_async j c := (log j c, [(JobGeneric j, c.1)]);
  call_promise p c :=
    match p with
    | O => (c, [(JobPromise O, c.1)], Ok ())
    | S n => (log p c, [(JobPromise n, c.1); (JobTimeout n 5, c.1)], Ok ())
    end;
  call_timeout t c := (log t c, [], Ok ());
  call_generic g c := (log g c, [], Ok ());
  clear_kept_objects c := c;
  sleep d c := (c.1 + Z.max 0 d, c.2);
  poll_group g _ c := (c, [], match g with [] => None | _ => Some (0%nat, Ok ()) end);
  yield_now c := (c.1 + 1, c.2);
|}.

Global Instance engine_laws : JsEngineLaws Z nat nat nat nat () ctx.
Proof.
  refine {| tick := fun x => x |}; [intros a b; apply Z.leb_le|..];
    cbn; try (intros; lia).
  - intros [] c; cbn; lia.
  - intros j c a now. set_solver.
  - intros [] b c i r Hp; simplify_eq/=; lia.
Defined.
End Demo.

(** ** Properties *)

Section executor_properties.
Context {I A P T G V C X : Type} `{JsEngineLaws I A P T G V C}.
Abbreviation queue := (Queue I A P T G V).

(** No job is lost on the way in: [enqueue_job] adds exactly one job,
    whatever its kind (a timer that overflows the clock and an unknown job
    become failing generic jobs), keeps the timer map ordered and leaves the
    deadline alone. *)
Theorem enqueue_job_conserves (j : Job A P T G) (now : I) (q : queue) :
  queue_ok q ->
  queue_size (enqueue_job j now q) = S (queue_size q) /\
  queue_ok (enqueue_job j now q) /\ deadline (enqueue_job j now q) = deadline q.
Proof.
  intros Hq. split; [apply enqueue_job_size|].
  split; [by apply enqueue_job_ok|apply enqueue_job_deadline].
Qed.

(** C34. A timer turn calls exactly the timers that are due and not cancelled, in
    order of due instant and then of registration, and leaves exactly the
    later ones that are not cancelled, with no empty entry. *)
Theorem drain_timeout_jobs_exact (q : queue) (c : C) :
  queue_ok q ->
  exists left_,
    drain_timeout_jobs q c =
      call_each call_timeout
        (snd <$> filter (fun e => is_cancelled c e.2 = false /\ js_leb e.1 (clock_now c) = true)
                   (timers_flat (timeout_jobs q)))
        (mkQueue (async_jobs q) (promise_jobs q) left_ (generic_jobs q) (deadline q)) c /\
    timers_flat left_ =
      filter (fun e => is_cancelled c e.2 = false /\ js_leb e.1 (clock_now c) = false)
        (timers_flat (timeout_jobs q)) /\
    timers_ok left_ /\ Forall (fun e => e.2 <> []) left_.
Proof.
  intros Hq. unfold drain_timeout_jobs.
  destruct (timers_take_due _ _) as [due left_] eqn:Ht. exists left_.
  pose proof (timers_retain_ok (is_cancelled c) _ Hq) as Hok.
  pose proof (timers_retain_nonempty (is_cancelled c) (timeout_jobs q)) as Hne.
  apply timers_take_due_flat in Ht as (-> & Hl & pre & Hpre); [|done].
  rewrite timers_retain_flat in *.
  assert (forall P1 P2 (l : list (I * T)) `{forall x, Decision (P1 x)} `{forall x, Decision (P2 x)},
    filter P2 (filter P1 l) = filter (fun x => P1 x /\ P2 x) l) as Hff.
  { intros P1 P2 l ??. rewrite list_filter_filter. apply list_filter_iff. naive_solver. }
  rewrite !Hff in *. split; [done|]. split; [done|].
  rewrite Hpre in Hok, Hne. apply Forall_app in Hne as [_ Hne].
  split; [by eapply timers_suffix_ok|done].
Qed.

(** Arming a timer is exact or refused: [instant_checked_add] yields the
    instant whose milliseconds are the sum, and yields none exactly when that
    sum does not fit a [u64]. *)
Lemma js_checked_add_exact (base : I) (delta : Duration) :
  0 <= delta <= duration_max ->
  match js_checked_add base delta with
  | Some t => millis_since_epoch t = millis_since_epoch base + as_millis delta
  | None => u64_max < millis_since_epoch base + as_millis delta
  end.
Proof.
  intros Hd. pose proof (millis_range base) as [Hb0 Hb].
  assert (0 <= as_millis delta <= duration_max / nanos_per_milli) as [Hd0 Hd1].
  { unfold as_millis, nanos_per_milli. split; [apply Z.div_pos; lia|apply Z.div_le_mono; lia]. }
  unfold js_checked_add.
  assert (checked_add u128_max (millis_since_epoch base) (as_millis delta) =
          Some (millis_since_epoch base + as_millis delta)) as ->.
  { apply checked_add_Some. split; [done|]. etrans; [apply Z.add_le_mono; eassumption|].
    vm_compute. discriminate. }
  cbn [mbind option_bind]. set (total := _ + _).
  destruct (try_from u64_max total) as [t|] eqn:Ht; cbn [mbind option_bind].
  - apply try_from_Some in Ht as [-> Hr]. unfold js_instant_from_millis.
    pose proof (Z.mod_pos_bound total 1000 ltac:(lia)) as Hm.
    assert (checked_mul u64_max (total mod 1000) 1000000 = Some (total mod 1000 * 1000000)) as ->.
    { unfold checked_mul, u64_max. by rewrite (proj2 (Z.leb_le _ _)) by lia. }
    cbn [mbind option_bind].
    assert (try_from u32_max (total mod 1000 * 1000000) = Some (total mod 1000 * 1000000)) as ->.
    { apply try_from_Some. unfold in_range, u32_max. lia. }
    cbn [mbind option_bind mret option_ret].
    assert (total / 1000 * 1000 + total mod 1000 * 1000000 / nanos_per_milli = total) as Hsum.
    { unfold nanos_per_milli. rewrite Z.div_mul by lia. pose proof (Z.div_mod total 1000). lia. }
    rewrite millis_new; [exact Hsum| | |by rewrite Hsum].
    + apply Z.div_pos; [apply Hr|lia].
    + unfold nanos_per_sec. lia.
  - unfold try_from in Ht. case_match eqn:Hc; [done|].
    apply andb_false_iff in Hc as [Hc|Hc]; bool_facts; lia.
Qed.

(** C26. The loop returns only where it should.  On [Complete] the group and
    every queue are empty, the deadline has not passed and the stop condition
    is not left unserved.  On [DeadlineExceeded] the deadline has passed and
    the snapshot counts what is abandoned: the promise jobs, the timers (of
    all instants) and the generic jobs of the queue, and the futures of the
    group, as long as these never outgrow a [usize]; async jobs that no turn
    has started are not counted. *)
Theorem run_loop_exit_sound (should_stop : C -> bool) (fuel : nat)
    (s s' : LoopState I A P T G V C X) (e : RunJobsExit) :
  run_loop should_stop fuel s = Some (s', Ok e) ->
  match e with
  | Complete => ls_group s' = [] /\ queue_size (ls_queue s') = 0%nat /\
      deadline_exceeded (clock_now (ls_ctx s')) (ls_queue s') = false /\
      (ls_stopped s' = false -> should_stop (ls_ctx s') = false)
  | DeadlineExceeded snap =>
      deadline_exceeded (clock_now (ls_ctx s')) (ls_queue s') = true /\
      snap_promise snap = length (promise_jobs (ls_queue s')) /\
      snap_timeout snap = length (timers_flat (timeout_jobs (ls_queue s'))) /\
      snap_generic snap = length (generic_jobs (ls_queue s')) /\
      (ls_in_flight s = Z.of_nat (length (ls_group s)) -> never_saturates should_stop s ->
        snap_in_flight snap = Z.of_nat (length (ls_group s')))
  end.
Proof.
  intros [(s0 & Ht%turn_exit) Hc]%run_loop_exit. destruct e as [|snap]; [done|].
  destruct Ht as [Hd ->]. cbn. rewrite timers_flat_length. by repeat split.
Qed.

(** The stop closure is called at most once: in the first turn that begins
    with the stop condition, if there is one, on the context of that turn. *)
Theorem on_stop_called_at_most_once (should_stop : C -> bool) (fuel : nat)
    (f : C -> X -> C * list (Job A P T G * I) * X * result (JsError V) ()) (q : queue) (c : C) (h : X)
    (s' : LoopState I A P T G V C X) (r : result (JsError V) RunJobsExit) :
  run_jobs_until fuel should_stop f q c h = Some (s', r) ->
  (ls_host s' = h /\ forall n sn, turns should_stop n (loop_start q c f h) = Some sn -> should_stop (ls_ctx sn) = false) \/
  (exists n sn, turns should_stop n (loop_start q c f h) = Some sn /\ should_stop (ls_ctx sn) = true /\
    ls_host s' = (f (ls_ctx sn) h).1.2).
Proof.
  unfold run_jobs_until. intros Hr. eapply (run_loop_first_stop should_stop f h) in Hr; [|done].
  destruct Hr as [?|(n & sn & ? & ? & _ & ?)]; [by left|right; by exists n, sn].
Qed.


(** The loop never plans to wait past the deadline or past the next timer:
    the poll budget and the idle sleep are at most the whole milliseconds left
    to either. *)
Theorem waits_within_deadline (q : queue) (now d : I) :
  deadline q = Some d ->
  (exists b, wait_budget now q = Some b /\ 0 <= b <= from_millis (millis_until_or_zero d now)) /\
  (forall next_at, next_timeout_at q = Some next_at ->
     (exists b, wait_budget now q = Some b /\ b <= from_millis (millis_until_or_zero next_at now)) /\
     0 <= idle_sleep now next_at q <= from_millis (millis_until_or_zero d now)).
Proof.
  intros Hd. unfold wait_budget, idle_sleep, from_millis, millis_until_or_zero, nanos_per_milli.
  rewrite Hd. cbn [fmap option_fmap option_map].
  pose proof (saturating_sub_nonneg (millis_since_epoch d) (millis_since_epoch now)).
  split.
  - destruct (next_timeout_at q) as [t|]; cbn [fmap option_fmap option_map]; eexists; split; try done; [|lia].
    pose proof (saturating_sub_nonneg (millis_since_epoch t) (millis_since_epoch now)). lia.
  - intros t ->. cbn [fmap option_fmap option_map].
    pose proof (saturating_sub_nonneg (millis_since_epoch t) (millis_since_epoch now)).
    split; [eexists; split; [done|lia]|]. repeat case_match; lia.
Qed.
End executor_properties.

Section executor_witnesses.
Import Demo.
Abbreviation dqueue := (Queue Z nat nat nat nat ()).

Definition demo_queue : dqueue :=
  mkQueue [] [2%nat] [(3, [7; 99]%nat); (8, [8%nat])] [] (Some 20).

Lemma demo_queue_ok : queue_ok demo_queue.
Proof. repeat constructor; cbn; lia. Qed.

Lemma enqueue_job_conserves_witness :
  queue_size (enqueue_job (JobTimeout 5%nat duration_max) 4 demo_queue) = 5%nat /\
  length (generic_jobs (enqueue_job (JobTimeout 5%nat duration_max) 4 demo_queue)) = 1%nat.
Proof.
  split; [|vm_compute; reflexivity].
  exact (proj1 (enqueue_job_conserves (JobTimeout 5%nat duration_max) 4 demo_queue demo_queue_ok)).
Defined.

Lemma drain_timeout_jobs_exact_witness :
  exists left_ : list (Z * list nat), timers_flat left_ = [(8, 8%nat)] /\ timers_ok left_.
Proof.
  destruct (drain_timeout_jobs_exact demo_queue (5, []) demo_queue_ok) as (l & _ & Hl & Hok & _).
  exists l. split; [rewrite Hl; vm_compute; reflexivity|exact Hok].
Defined.

(** A loop that abandons work at its deadline: promise job [0] never ends,
    two futures are running, a timer is far away. *)
Definition demo_busy : LoopState Z nat nat nat nat () ctx nat :=
  loop_start (mkQueue [3; 4]%nat [0%nat] [(1000, [7; 8]%nat)] [] (Some 6)) (0, []) (fun c h => (c, [], S h, Ok ())) 0%nat.

Example demo_busy_snapshot :
  snd <$> run_loop (fun c => Z.leb 4 c.1) 40 demo_busy = Some (Ok (DeadlineExceeded (mkSnapshot 2 1 2 0))).
Proof. vm_compute. reflexivity. Qed.

Lemma demo_busy_small : never_saturates (fun c : ctx => Z.leb 4 c.1) demo_busy.
Proof.
  intros k sk s1 Hk Hs. assert (k < 8)%nat as Hlt.
  { destruct (le_lt_dec 8 k) as [Hle|]; [|lia]. replace k with (8 + (k - 8))%nat in Hk by lia.
    vm_compute in Hk. discriminate. }
  do 8 (destruct k as [|k]; [vm_compute in Hk; try discriminate; injection Hk as <-;
    vm_compute in Hs; injection Hs as <-; vm_compute; discriminate|]). lia.
Qed.

Lemma run_loop_exit_sound_witness :
  exists s' snap, run_loop (fun c => Z.leb 4 c.1) 40 demo_busy = Some (s', Ok (DeadlineExceeded snap)) /\
    snap_timeout snap = length (timers_flat (timeout_jobs (ls_queue s'))) /\
    snap_in_flight snap = Z.of_nat (length (ls_group s')).
Proof.
  destruct (run_loop (fun c => Z.leb 4 c.1) 40 demo_busy) as [[s' [[|snap]|]]|] eqn:E;
    try (vm_compute in E; discriminate).
  exists s', snap. split; [reflexivity|].
  destruct (run_loop_exit_sound _ _ _ _ _ E) as (_ & _ & Ht & _ & Hf).
  split; [exact Ht|]. exact (Hf eq_refl demo_busy_small).
Defined.

Lemma on_stop_called_at_most_once_witness :
  exists s' r, run_jobs_until 40 (fun c : ctx => Z.leb 4 c.1)
      (fun c h => (c, [], S h, Ok ())) demo_queue (0, []) 0%nat = Some (s', r) /\
    (ls_host s' = 0%nat \/ ls_host s' = 1%nat).
Proof.
  destruct (run_jobs_until 40 (fun c : ctx => Z.leb 4 c.1)
    (fun c h => (c, [], S h, Ok ())) demo_queue (0, []) 0%nat) as [[s' r]|] eqn:E;
    [|vm_compute in E; discriminate].
  exists s', r. split; [reflexivity|].
  destruct (on_stop_called_at_most_once _ _ _ _ _ _ _ _ E) as [[Hl _]|(n & sn & _ & _ & Hh)];
    [left; exact Hl|right; exact Hh].
Defined.


Lemma waits_within_deadline_witness : exists b, wait_budget 1 demo_queue = Some b.
Proof.
  destruct (proj1 (waits_within_deadline demo_queue 1 20 eq_refl)) as (b & Hb & _).
  by exists b.
Defined.
End executor_witnesses.
