(* ===== verification/JsHost.v ===== *)
(** * JsHost: what the built-in modules use of the JavaScript engine

    The built-in modules (src/src/internal/runtime/builtins/) are native
    functions that Boa calls with a [this] value and arguments.  Here are the
    values they see, the conversions between JavaScript and Rust strings, the
    monad of native functions, and the class [Boa] of the engine operations
    they call.  The engine's state [W] is opaque; an operation that can run
    script code (a getter, a proxy trap, a callback) can change all of it. *)

From S2P Require Import Prelude Json Utf8 Str Executor.

(** ** Strings

    A JavaScript string is a sequence of UTF-16 code units. *)

Definition is_high (u : Z) : bool := (0xD800 <=? u) && (u <=? 0xDBFF).
Definition is_low (u : Z) : bool := (0xDC00 <=? u) && (u <=? 0xDFFF).

Definition utf16_char (c : Z) : list Z :=
  if c <? 0x10000 then [c] else [0xD800 + (c - 0x10000) / 1024; 0xDC00 + (c - 0x10000) mod 1024].

(** [JsString::from(&str)]. *)
Definition encode_utf16 (s : str) : list Z := c ← s; utf16_char c.

(** [JsString::to_std_string_lossy]: an unpaired surrogate becomes U+FFFD. *)
Fixpoint to_std_string_lossy (units : list Z) : str :=
  match units with
  | [] => []
  | a :: rest =>
      if is_high a then
        match rest with
        | b :: rest' =>
            if is_low b then 0x10000 + (a - 0xD800) * 1024 + (b - 0xDC00) :: to_std_string_lossy rest'
            else 0xFFFD :: to_std_string_lossy rest
        | [] => [0xFFFD]
        end
      else (if is_low a then 0xFFFD else a) :: to_std_string_lossy rest
  end.

(** [str::to_ascii_uppercase]. *)
Definition ascii_upper (c : Z) : Z := if (97 <=? c) && (c <=? 122) then c - 32 else c.
Definition to_ascii_uppercase (s : str) : str := ascii_upper <$> s.

(** [strip_prefix(c).unwrap_or(s)]. *)
Definition strip_prefix_or (c : Z) (s : str) : str :=
  match s with x :: rest => if x =? c then rest else s | [] => [] end.

(** ** Values *)

(** [JsValue]; [O] are the object handles.  A number is an [i32] or the bits
    of an [f64]. *)
Inductive JsValue (O : Type) :=
| JsUndefined
| JsNull
| JsBoolean (b : bool)
| JsString (units : list Z)
| JsInt (i : Z)
| JsFloat (bits : Z)
| JsSymbol (id : Z)
| JsBigInt (i : Z)
| JsObject (o : O).
Arguments JsUndefined {O}.
Arguments JsNull {O}.
Arguments JsBoolean {O} _.
Arguments JsString {O} _.
Arguments JsInt {O} _.
Arguments JsFloat {O} _.
Arguments JsSymbol {O} _.
Arguments JsBigInt {O} _.
Arguments JsObject {O} _.

(** [PropertyKey]. *)
Inductive PropertyKey := KeyString (units : list Z) | KeySymbol (id : Z) | KeyIndex (i : Z).

Global Instance PropertyKey_eq_dec : EqDecision PropertyKey.
Proof. solve_decision. Defined.

(** [js_string!("name")] as a key. *)
Definition key (name : string) : PropertyKey := KeyString (lit name).

Definition is_undefined {O} (v : JsValue O) : bool := match v with JsUndefined => true | _ => false end.
Definition is_null {O} (v : JsValue O) : bool := match v with JsNull => true | _ => false end.
Definition as_object {O} (v : JsValue O) : option O := match v with JsObject o => Some o | _ => None end.
Definition as_string {O} (v : JsValue O) : option (list Z) := match v with JsString u => Some u | _ => None end.

(** [args.get_or_undefined(i)]. *)
Definition get_or_undefined {O} (args : list (JsValue O)) (i : nat) : JsValue O :=
  default JsUndefined (args !! i).

(** [buffer_like::js_string_value]. *)
Definition js_string_value {O} (s : str) : JsValue O := JsString (encode_utf16 s).

(** ** Native functions

    A native function passes the state on and returns a value or throws.
    [None] is a run that does not return: the fuel of a recursion is used up,
    or the index that stands for an [Rc] is not that of a cell, which no
    pointer of the program is. *)

Definition Js (W O A : Type) : Type := W -> option (W * result (JsError (JsValue O)) A).

Global Instance Js_ret W O : MRet (Js W O) := fun A a w => Some (w, Ok a).
Global Instance Js_bind W O : MBind (Js W O) := fun A B f m w =>
  match m w with
  | Some (w', Ok a) => f a w'
  | Some (w', Err e) => Some (w', Err e)
  | None => None
  end.

(** An engine operation, a pure result, a throw. *)
Definition boa {W O A} (f : W -> W * result (JsError (JsValue O)) A) : Js W O A := fun w => Some (f w).
Definition pure_ {W O A} (r : result (JsError (JsValue O)) A) : Js W O A := fun w => Some (w, r).
Definition throw {W O A} (e : JsError (JsValue O)) : Js W O A := pure_ (Err e).
Definition ask {W O A} (f : W -> A) : Js W O A := fun w => Some (w, Ok (f w)).

(** [buffer_like::js_type_error] and [js_range_error]; [JsError::from_rust] of
    an [io::Error] keeps its message. *)
Definition js_type_error {V} (message : str) : JsError V := NativeError JsTypeError message.
Definition js_range_error {V} (message : str) : JsError V := NativeError JsRangeError message.
Definition from_rust {V} (message : str) : JsError V := RustError message.

(** A function object of a module: its name, its declared length, its body
    on [this] and the arguments. *)
Record NativeFunction (W O : Type) := mkNative {
  fn_name : str;
  fn_length : Z;
  fn_body : JsValue O -> list (JsValue O) -> Js W O (JsValue O);
}.
Arguments mkNative {W O} _ _ _.
Arguments fn_name {W O} _.
Arguments fn_length {W O} _.
Arguments fn_body {W O} _.

(** A synthetic module: its specifier and its exports in order. *)
Record SyntheticModule (E : Type) := mkSynthetic { sm_specifier : str; sm_exports : list (str * E) }.
Arguments mkSynthetic {E} _ _.
Arguments sm_specifier {E} _.
Arguments sm_exports {E} _.

(** ** The engine

    The operations of Boa that the modules call. *)
Class Boa (W O : Type) := {
  (** Properties. *)
  obj_get : O -> PropertyKey -> W -> W * result (JsError (JsValue O)) (JsValue O);
  obj_set : O -> PropertyKey -> JsValue O -> W -> W * result (JsError (JsValue O)) ();
  own_property_keys : O -> W -> W * result (JsError (JsValue O)) (list PropertyKey);
  key_to_string : PropertyKey -> str;
  key_of_u64 : Z -> PropertyKey;
  (** Conversions. *)
  value_to_json : JsValue O -> W -> W * result (JsError (JsValue O)) (option Value);
  value_from_json : Value -> W -> W * result (JsError (JsValue O)) (JsValue O);
  to_object : JsValue O -> W -> W * result (JsError (JsValue O)) O;
  to_string : JsValue O -> W -> W * result (JsError (JsValue O)) (list Z);
  to_length : JsValue O -> W -> W * result (JsError (JsValue O)) Z;
  (** Calls and new objects. *)
  as_callable : JsValue O -> W -> option O;
  obj_call : O -> JsValue O -> list (JsValue O) -> W -> W * result (JsError (JsValue O)) (JsValue O);
  new_object : W -> W * O;
  new_array : list (JsValue O) -> W -> W * O;
  array_push : O -> JsValue O -> W -> W * result (JsError (JsValue O)) ();
  (** Buffers and views. *)
  is_typed_array : O -> W -> bool;
  is_data_view : O -> W -> bool;
  is_array_buffer : O -> W -> bool;
  typed_buffer : O -> W -> W * result (JsError (JsValue O)) (JsValue O);
  typed_byte_offset : O -> W -> W * result (JsError (JsValue O)) Z;
  typed_byte_length : O -> W -> W * result (JsError (JsValue O)) Z;
  view_buffer : O -> W -> W * result (JsError (JsValue O)) (JsValue O);
  view_byte_offset : O -> W -> W * result (JsError (JsValue O)) Z;
  view_byte_length : O -> W -> W * result (JsError (JsValue O)) Z;
  buffer_byte_length : O -> W -> Z;
  buffer_data : O -> W -> option bytes;
  set_buffer_data : O -> bytes -> W -> W;
  new_uint8_array : bytes -> W -> W * result (JsError (JsValue O)) O;
}.

(** A new object, which cannot fail. *)
Definition alloc {W O A} (f : W -> W * A) : Js W O A := fun w => let '(w', a) := f w in Some (w', Ok a).

(** [for x in l { acc.push(f(x)?) }]. *)
Fixpoint js_collect {W O A B} (f : A -> Js W O B) (l : list A) : Js W O (list B) :=
  match l with
  | [] => mret []
  | x :: rest => y ← f x; ys ← js_collect f rest; mret (y :: ys)
  end.

(** ** Lemmas on strings *)

Definition valid_units (u : list Z) : Prop := Forall (fun x => 0 <= x <= 0xFFFF) u.

(** What comes out of [to_std_string_lossy] is a Rust string. *)
Lemma lossy_valid n u : (length u <= n)%nat -> valid_units u -> valid_str (to_std_string_lossy u).
Proof.
  revert u. induction n as [|n IH]; intros u Hn Hu; destruct Hu as [|a rest Ha Hrest];
    cbn in Hn; try lia; cbn [to_std_string_lossy]; [constructor|constructor|].
  unfold is_high, is_low in *.
  assert (valid_str (to_std_string_lossy rest)) as Hv by (apply IH; (done || lia)).
  case_match; bool_facts.
  - destruct Hrest as [|b rest' Hb Hrest']; [by repeat constructor|]. case_match; bool_facts.
    + constructor; [|apply IH; (done || cbn in Hn; lia)]. unfold is_scalar.
      apply orb_true_intro. right. apply andb_true_intro. split; apply Z.leb_le; lia.
    + by constructor.
  - constructor; [|done]. unfold is_scalar.
    destruct ((0xDC00 <=? a) && (a <=? 0xDFFF)) eqn:E; [done|].
    apply andb_false_iff in E, H. apply orb_true_iff. rewrite !andb_true_iff, !Z.leb_le, Z.ltb_lt.
    destruct E, H; bool_facts; lia.
Qed.

Lemma to_std_string_lossy_valid u : valid_units u -> valid_str (to_std_string_lossy u).
Proof. by apply lossy_valid with (n := length u). Qed.

Lemma lossy_encode_char c rest : is_scalar c = true ->
  to_std_string_lossy (utf16_char c ++ rest) = c :: to_std_string_lossy rest.
Proof.
  intros Hc%scalar_cases. unfold utf16_char. destruct (Z.ltb_spec c 0x10000); cbn -[Z.add Z.sub Z.div Z.modulo Z.mul].
  - unfold is_high, is_low. rewrite !(proj2 (andb_false_iff _ _)); [done| |].
    all: rewrite !Z.leb_gt; lia.
  - unfold is_high, is_low. rewrite !(proj2 (andb_true_iff _ _)) by (rewrite !Z.leb_le; dlia).
    f_equal. dlia.
Qed.

(** A Rust string survives the trip through JavaScript. *)
Lemma lossy_encode s : valid_str s -> to_std_string_lossy (encode_utf16 s) = s.
Proof.
  unfold encode_utf16. induction 1 as [|c s Hc _ IH]; [done|]. cbn. by rewrite lossy_encode_char, IH.
Qed.

Lemma encode_utf16_ascii s : is_ascii s = true -> encode_utf16 s = s.
Proof.
  intros Hs%is_ascii_Forall. unfold encode_utf16. induction Hs as [|c s Hc _ IH]; [done|].
  cbn. rewrite IH. unfold utf16_char. by rewrite (proj2 (Z.ltb_lt c 0x10000)) by lia.
Qed.

Lemma ascii_valid s : is_ascii s = true -> valid_str s.
Proof.
  rewrite is_ascii_Forall. intros Hs. eapply Forall_impl; [exact Hs|]. cbn. intros c Hc.
  unfold is_scalar. apply orb_true_intro. left. apply andb_true_intro. rewrite Z.leb_le, Z.ltb_lt. lia.
Qed.

(** ** Lemmas on the monad *)

Lemma js_bind_Some {W O A B} (m : Js W O A) (f : A -> Js W O B) w r :
  (m ≫= f) w = Some r <->
  (exists w' a, m w = Some (w', Ok a) /\ f a w' = Some r) \/
  (exists w' e, m w = Some (w', Err e) /\ r = (w', Err e)).
Proof. unfold mbind, Js_bind. destruct (m w) as [[w' [a|e]]|]; naive_solver. Qed.

Lemma host_bind_Ok {W O A B} (m : Js W O A) (f : A -> Js W O B) w w' b :
  (m ≫= f) w = Some (w', Ok b) -> exists w1 a, m w = Some (w1, Ok a) /\ f a w1 = Some (w', Ok b).
Proof. intros [(w1 & a & Hm & Hf)|(? & ? & _ & ?)]%js_bind_Some; [by eauto|done]. Qed.

Lemma boa_Ok {W O A} (f : W -> W * result (JsError (JsValue O)) A) w w' a :
  boa f w = Some (w', Ok a) -> f w = (w', Ok a).
Proof. by intros [= ->]. Qed.

Lemma pure_Ok {W O A} (r : result (JsError (JsValue O)) A) (w w' : W) a :
  pure_ r w = Some (w', Ok a) -> w' = w /\ r = Ok a.
Proof. by intros [= -> ->]. Qed.

Lemma js_bind_eq {W O A B} (m : Js W O A) (f : A -> Js W O B) w :
  (m ≫= f) w =
  match m w with
  | Some (w', Ok a) => f a w'
  | Some (w', Err e) => Some (w', Err e)
  | None => None
  end.
Proof. done. Qed.

Lemma js_bind_ok {W O A B} (m : Js W O A) (f : A -> Js W O B) w w' a :
  m w = Some (w', Ok a) -> (m ≫= f) w = f a w'.
Proof. intros Hm. by rewrite js_bind_eq, Hm. Qed.

Lemma js_bind_err {W O A B} (m : Js W O A) (f : A -> Js W O B) w w' e :
  m w = Some (w', Err e) -> (m ≫= f) w = Some (w', Err e).
Proof. intros Hm. by rewrite js_bind_eq, Hm. Qed.
