(* ===== verification/BufferLike.v ===== *)
(** * BufferLike: bytes of typed arrays, data views and array buffers
    (src/src/internal/runtime/buffer_like.rs, builtins/rand.rs)

    Reading the bytes of a buffer view and filling it with random bytes.  The
    views and buffers are Boa's ([Boa]); [Getrandom] is the random source.
    [BoaBufferLaws] states what ECMAScript says of views: the accessors read
    internal slots, and a view's range lies in its buffer. *)

From S2P Require Import Prelude Json Utf8 Str Executor JsHost.

(** [getrandom::fill]: the new contents of the target, and whether it
    succeeded; after a failure the contents are unspecified. *)
Class Getrandom (W : Type) := getrandom_fill : bytes -> W -> W * bytes * result str ().

Section buffer_like.
Context {W O : Type} `{Boa W O}.
Abbreviation V := (JsValue O).
Abbreviation M := (Js W O).

Definition u64_to_usize (value : Z) (field : str) : M Z :=
  pure_ (ok_or (js_range_error (field ++ lit " exceeds usize range")) (try_from usize_max value)).

(** [data.get(offset..end)]. *)
Definition slice_get (offset len : Z) (data : bytes) : option bytes :=
  if offset + len <=? Z.of_nat (length data)
  then Some (take (Z.to_nat len) (drop (Z.to_nat offset) data)) else None.

(** The checks both accesses make: the buffer is attached, the end of the
    range is a [usize], the range lies in the buffer. *)
Definition read_bytes_from_array_buffer_range (buffer : O) (offset len : Z) : M bytes :=
  data ← ask (buffer_data buffer);
  data ← pure_ (ok_or (js_type_error (lit "ArrayBuffer is detached")) data);
  _ ← pure_ (ok_or (js_range_error (lit "buffer range overflow")) (checked_add usize_max offset len));
  pure_ (ok_or (js_range_error (lit "buffer range is out of bounds")) (slice_get offset len data)).

(** The buffer behind a view: it must be an object, and not shared. *)
Definition view_array_buffer (what : str) (buffer : V) : M O :=
  match as_object buffer with
  | None => throw (js_type_error (what ++ lit " buffer is not an ArrayBuffer"))
  | Some buffer_object =>
      ok ← ask (is_array_buffer buffer_object);
      if (ok : bool) then mret buffer_object
      else throw (js_type_error (what ++ lit " backed by SharedArrayBuffer is not supported"))
  end.

Definition try_extract_buffer_like_bytes (value : V) : M (option bytes) :=
  match as_object value with
  | None => mret None
  | Some object =>
      typed ← ask (is_typed_array object);
      if (typed : bool) then
        buffer ← boa (typed_buffer object);
        array_buffer ← view_array_buffer (lit "TypedArray") buffer;
        offset ← boa (typed_byte_offset object);
        len ← boa (typed_byte_length object);
        b ← read_bytes_from_array_buffer_range array_buffer offset len;
        mret (Some b)
      else
        data_view ← ask (is_data_view object);
        if (data_view : bool) then
          buffer ← boa (view_buffer object);
          array_buffer ← view_array_buffer (lit "DataView") buffer;
          offset ← boa (view_byte_offset object);
          offset ← u64_to_usize offset (lit "DataView byte_offset");
          len ← boa (view_byte_length object);
          len ← u64_to_usize len (lit "DataView byte_length");
          b ← read_bytes_from_array_buffer_range array_buffer offset len;
          mret (Some b)
        else
          array_buffer ← ask (is_array_buffer object);
          if (array_buffer : bool) then
            len ← ask (buffer_byte_length object);
            b ← read_bytes_from_array_buffer_range object 0 len;
            mret (Some b)
          else mret None
  end.

(** ** Random bytes *)

(** The data with the range replaced. *)
Definition splice (offset : Z) (target data : bytes) : bytes :=
  take (Z.to_nat offset) data ++ target ++ drop (Z.to_nat offset + length target) data.

Context `{Getrandom W}.

Definition getrandom_into (buffer : O) (offset : Z) (target data : bytes) : M () := fun w =>
  let '(w1, filled, r) := getrandom_fill target w in
  Some (set_buffer_data buffer (splice offset filled data) w1, map_err from_rust r).

Definition fill_random_in_array_buffer_range (buffer : O) (offset len : Z) : M () :=
  data ← ask (buffer_data buffer);
  data ← pure_ (ok_or (js_type_error (lit "ArrayBuffer is detached")) data);
  _ ← pure_ (ok_or (js_range_error (lit "buffer range overflow")) (checked_add usize_max offset len));
  target ← pure_ (ok_or (js_range_error (lit "buffer range is out of bounds")) (slice_get offset len data));
  getrandom_into buffer offset target data.

Definition not_buffer_like : JsError V :=
  js_type_error (lit "bufferLike must be a TypedArray, ArrayBuffer, or DataView").

Definition fill_random_buffer_like (value : V) : M () :=
  match as_object value with
  | None => throw not_buffer_like
  | Some object =>
      typed ← ask (is_typed_array object);
      if (typed : bool) then
        buffer ← boa (typed_buffer object);
        array_buffer ← view_array_buffer (lit "TypedArray") buffer;
        offset ← boa (typed_byte_offset object);
        len ← boa (typed_byte_length object);
        fill_random_in_array_buffer_range array_buffer offset len
      else
        data_view ← ask (is_data_view object);
        if (data_view : bool) then
          buffer ← boa (view_buffer object);
          array_buffer ← view_array_buffer (lit "DataView") buffer;
          offset ← boa (view_byte_offset object);
          offset ← u64_to_usize offset (lit "DataView byte_offset");
          len ← boa (view_byte_length object);
          len ← u64_to_usize len (lit "DataView byte_length");
          fill_random_in_array_buffer_range array_buffer offset len
        else
          array_buffer ← ask (is_array_buffer object);
          if (array_buffer : bool) then
            len ← ask (buffer_byte_length object);
            fill_random_in_array_buffer_range object 0 len
          else throw not_buffer_like
  end.

(** [rand_fill_random], the default export of [mechanics:rand]. *)
Definition rand_fill_random (this : V) (args : list V) : M V :=
  _ ← fill_random_buffer_like (get_or_undefined args 0);
  mret JsUndefined.

Definition bytes_to_uint8_array_value (b : bytes) : M V :=
  o ← boa (new_uint8_array b);
  mret (JsObject o).
End buffer_like.

(** ** What ECMAScript says of buffers *)

(** The internal slots of a view. *)
Record ViewSlots (O : Type) := mkSlots { vs_buffer : O; vs_offset : Z; vs_length : Z }.
Arguments mkSlots {O} _ _ _.
Arguments vs_buffer {O} _.
Arguments vs_offset {O} _.
Arguments vs_length {O} _.

(** [slots o w] are the slots of a typed array, a data view or (the whole of
    it) an array buffer.  The accessors of a typed array read the slots; those
    of a data view too, unless it is out of bounds of its buffer, which may
    have been detached or shrunk: then they throw.  Storing data of the same
    length changes the contents of that buffer and nothing else that is seen
    here. *)
Class BoaBufferLaws (W O : Type) `{Boa W O} := {
  slots : O -> W -> option (ViewSlots O);
  view_out_of_bounds : O -> W -> bool;
  typed_law : forall o w, is_typed_array o w = true -> exists s,
    slots o w = Some s /\
    typed_buffer o w = (w, Ok (JsObject (vs_buffer s))) /\
    typed_byte_offset o w = (w, Ok (vs_offset s)) /\
    typed_byte_length o w = (w, Ok (vs_length s));
  view_law : forall o w, is_typed_array o w = false -> is_data_view o w = true -> exists s,
    slots o w = Some s /\
    view_buffer o w = (w, Ok (JsObject (vs_buffer s))) /\
    if view_out_of_bounds o w then exists e, view_byte_offset o w = (w, Err e)
    else view_byte_offset o w = (w, Ok (vs_offset s)) /\ view_byte_length o w = (w, Ok (vs_length s));
  detached_law : forall o w s, slots o w = Some s -> buffer_data (vs_buffer s) w = None ->
    view_out_of_bounds o w = true;
  buffer_law : forall o w, is_typed_array o w = false -> is_data_view o w = false ->
    is_array_buffer o w = true -> slots o w = Some (mkSlots o 0 (buffer_byte_length o w));
  not_view_law : forall o w, is_typed_array o w = false -> is_data_view o w = false ->
    is_array_buffer o w = false -> slots o w = None;
  slots_range : forall o w s d, slots o w = Some s -> buffer_data (vs_buffer s) w = Some d ->
    0 <= vs_offset s /\ 0 <= vs_length s /\ vs_offset s + vs_length s <= Z.of_nat (length d);
  data_fits : forall b w d, buffer_data b w = Some d -> Z.of_nat (length d) <= usize_max;
  set_data_same : forall b d d' w, buffer_data b w = Some d -> length d' = length d ->
    buffer_data b (set_buffer_data b d' w) = Some d';
  set_data_other : forall b b' d' w, b' <> b -> buffer_data b' (set_buffer_data b d' w) = buffer_data b' w;
  set_data_slots : forall b d d' o w, buffer_data b w = Some d -> length d' = length d ->
    slots o (set_buffer_data b d' w) = slots o w /\
    view_out_of_bounds o (set_buffer_data b d' w) = view_out_of_bounds o w;
  set_data_kind : forall b d' o w,
    is_typed_array o (set_buffer_data b d' w) = is_typed_array o w /\
    is_data_view o (set_buffer_data b d' w) = is_data_view o w /\
    is_array_buffer o (set_buffer_data b d' w) = is_array_buffer o w;
}.

(** What the functions of this file see of the engine's state. *)
Definition same_buffers {W O} `{BoaBufferLaws W O} (w w' : W) : Prop :=
  forall o, buffer_data o w' = buffer_data o w /\ slots o w' = slots o w /\
    is_array_buffer o w' = is_array_buffer o w /\ is_typed_array o w' = is_typed_array o w /\
    is_data_view o w' = is_data_view o w /\ view_out_of_bounds o w' = view_out_of_bounds o w.

(** [getrandom::fill] keeps the length of its target, which is the only
    memory it writes. *)
Class GetrandomLaws (W O : Type) `{BoaBufferLaws W O} `{Getrandom W} := {
  getrandom_length : forall t w w' f r, getrandom_fill t w = (w', f, r) -> length f = length t;
  getrandom_frame : forall t w w' f r, getrandom_fill t w = (w', f, r) -> same_buffers w w';
}.

(** ** Ranges *)

Definition range {O} (s : ViewSlots O) (d : bytes) : bytes :=
  take (Z.to_nat (vs_length s)) (drop (Z.to_nat (vs_offset s)) d).

Definition disjoint_views {O} (s s2 : ViewSlots O) : Prop :=
  vs_buffer s2 <> vs_buffer s \/ vs_offset s2 + vs_length s2 <= vs_offset s \/
  vs_offset s + vs_length s <= vs_offset s2.

Lemma splice_length o t d : 0 <= o -> o + Z.of_nat (length t) <= Z.of_nat (length d) ->
  length (splice o t d) = length d.
Proof. intros. unfold splice. rewrite !length_app, length_take, length_drop. lia. Qed.

Lemma range_splice {O} (s : ViewSlots O) t d :
  0 <= vs_offset s -> vs_offset s + vs_length s <= Z.of_nat (length d) ->
  length t = Z.to_nat (vs_length s) -> 0 <= vs_length s -> range s (splice (vs_offset s) t d) = t.
Proof.
  intros Ho Hr Ht Hl. unfold range, splice. rewrite drop_app_length' by (rewrite length_take; lia).
  by rewrite take_app_length' by done.
Qed.

Lemma range_splice_disjoint {O} (s s2 : ViewSlots O) t d :
  0 <= vs_offset s -> 0 <= vs_offset s2 -> 0 <= vs_length s2 ->
  vs_offset s + vs_length s <= Z.of_nat (length d) -> length t = Z.to_nat (vs_length s) -> 0 <= vs_length s ->
  vs_offset s2 + vs_length s2 <= vs_offset s \/ vs_offset s + vs_length s <= vs_offset s2 ->
  range s2 (splice (vs_offset s) t d) = range s2 d.
Proof.
  intros Ho Ho2 Hl2 Hr Ht Hl Hd. unfold range, splice. apply list_eq. intros i.
  rewrite !lookup_take. case_decide as Hi; [|done]. rewrite !lookup_drop.
  destruct Hd as [Hd|Hd].
  - rewrite lookup_app_l by (rewrite length_take; lia). apply lookup_take_lt. lia.
  - rewrite lookup_app_r by (rewrite length_take; lia).
    rewrite lookup_app_r by (rewrite length_take; lia). rewrite lookup_drop, length_take.
    f_equal. lia.
Qed.

(** ** Where the functions look *)

Section lemmas.
Context {W O : Type} `{Boa W O} `{!BoaBufferLaws W O}.
Implicit Types (o : O) (w : W) (s : ViewSlots O).

Lemma usize_ok (n : Z) (field : list Z) w : in_range usize_max n -> u64_to_usize (O:=O) n field w = Some (w, Ok n).
Proof. intros Hn. unfold u64_to_usize, pure_. by rewrite (proj2 (try_from_Some usize_max n n)). Qed.

(** Run the monad's plumbing. *)
Ltac js_run :=
  repeat first [ rewrite js_bind_eq
               | progress cbn [ask pure_ boa throw ok_or mret Js_ret as_object]
               | match goal with E : _ = (_, Ok _) |- _ => rewrite E end ].

(** The three kinds of buffer-like objects, each with the slots it has. *)
Ltac by_kind o w Hs :=
  js_run; destruct (is_typed_array o w) eqn:Ht;
  [ destruct (typed_law o w Ht) as (s' & Hs' & E1 & E2 & E3); rewrite Hs in Hs'; injection Hs' as <-
  | js_run; destruct (is_data_view o w) eqn:Hv;
    [ destruct (view_law o w Ht Hv) as (s' & Hs' & E1 & E2); rewrite Hs in Hs'; injection Hs' as <-
    | js_run; destruct (is_array_buffer o w) eqn:Hab;
      [ rewrite (buffer_law o w Ht Hv Hab) in Hs; injection Hs as <-; cbn [vs_buffer vs_offset vs_length] in *
      | rewrite (not_view_law o w Ht Hv Hab) in Hs; discriminate Hs ] ] ];
  unfold view_array_buffer; js_run.

(** A data view must be in bounds. *)
Definition readable o w : bool :=
  is_typed_array o w || negb (is_data_view o w) || negb (view_out_of_bounds o w).

(** A view that can be read, its slots and the data of its buffer. *)
Definition attached o w s d : Prop :=
  slots o w = Some s /\ is_array_buffer (vs_buffer s) w = true /\ buffer_data (vs_buffer s) w = Some d /\
  readable o w = true.

Lemma attached_range o w s d : attached o w s d ->
  0 <= vs_offset s /\ 0 <= vs_length s /\ vs_offset s + vs_length s <= Z.of_nat (length d) /\
  vs_offset s + vs_length s <= usize_max.
Proof.
  intros (Hs & _ & Hd & _). pose proof (slots_range _ _ _ _ Hs Hd). pose proof (data_fits _ _ _ Hd). lia.
Qed.

(** A function that finds the view's buffer and range the way this file does
    ends up with its slots. *)
Lemma extract_located o w s d : attached o w s d ->
  try_extract_buffer_like_bytes (JsObject o) w =
  (b ← read_bytes_from_array_buffer_range (vs_buffer s) (vs_offset s) (vs_length s); mret (Some b)) w.
Proof.
  intros Ha. pose proof (attached_range _ _ _ _ Ha) as Hr. destruct Ha as (Hs & Hb & Hd & Ho).
  unfold try_extract_buffer_like_bytes. by_kind o w Hs.
  - rewrite Hb. by js_run.
  - rewrite Hb. unfold readable in Ho. rewrite Ht, Hv in Ho.
    rewrite (proj1 (negb_true_iff _) Ho) in E2. destruct E2 as [E2 E3]. js_run.
    do 2 (rewrite usize_ok by (unfold in_range; lia); js_run). done.
  - done.
Qed.

Lemma fill_located `{Getrandom W} o w s d : attached o w s d ->
  fill_random_buffer_like (JsObject o) w =
  fill_random_in_array_buffer_range (vs_buffer s) (vs_offset s) (vs_length s) w.
Proof.
  intros Ha. pose proof (attached_range _ _ _ _ Ha) as Hr. destruct Ha as (Hs & Hb & Hd & Ho).
  unfold fill_random_buffer_like. by_kind o w Hs.
  - rewrite Hb. by js_run.
  - rewrite Hb. unfold readable in Ho. rewrite Ht, Hv in Ho.
    rewrite (proj1 (negb_true_iff _) Ho) in E2. destruct E2 as [E2 E3]. js_run.
    do 2 (rewrite usize_ok by (unfold in_range; lia); js_run). done.
  - done.
Qed.

Lemma slice_get_ok off len (d : list Z) : off + len <= Z.of_nat (length d) ->
  slice_get off len d = Some (take (Z.to_nat len) (drop (Z.to_nat off) d)).
Proof. intros Hl. unfold slice_get. by rewrite (proj2 (Z.leb_le _ _)). Qed.

Lemma extract_attached o w s d : attached o w s d ->
  try_extract_buffer_like_bytes (JsObject o) w = Some (w, Ok (Some (range s d))).
Proof.
  intros Ha. rewrite (extract_located _ _ _ _ Ha). pose proof (attached_range _ _ _ _ Ha) as Hr.
  destruct Ha as (_ & _ & Hd & _). unfold read_bytes_from_array_buffer_range. js_run. rewrite Hd. js_run.
  unfold checked_add. rewrite (proj2 (Z.leb_le _ usize_max)) by lia. js_run.
  rewrite slice_get_ok by lia. by js_run.
Qed.

Lemma fill_attached `{Getrandom W} o w s d : attached o w s d ->
  fill_random_buffer_like (JsObject o) w = getrandom_into (vs_buffer s) (vs_offset s) (range s d) d w.
Proof.
  intros Ha. rewrite (fill_located _ _ _ _ Ha). pose proof (attached_range _ _ _ _ Ha) as Hr.
  destruct Ha as (_ & _ & Hd & _). unfold fill_random_in_array_buffer_range. js_run. rewrite Hd. js_run.
  unfold checked_add. rewrite (proj2 (Z.leb_le _ usize_max)) by lia. js_run.
  rewrite slice_get_ok by lia. by js_run.
Qed.

(** Views that cannot be read. *)
Lemma extract_shared o w s : slots o w = Some s -> is_array_buffer (vs_buffer s) w = false ->
  exists m, try_extract_buffer_like_bytes (JsObject o) w = Some (w, Err (js_type_error m)).
Proof.
  intros Hs Hb. unfold try_extract_buffer_like_bytes. by_kind o w Hs; [| |congruence].
  all: rewrite Hb; by eexists.
Qed.

Lemma extract_detached o w s : slots o w = Some s -> is_array_buffer (vs_buffer s) w = true ->
  buffer_data (vs_buffer s) w = None \/ readable o w = false ->
  exists e, try_extract_buffer_like_bytes (JsObject o) w = Some (w, Err e).
Proof.
  intros Hs Hb Hd. pose proof Hs as Hs0. unfold readable in Hd.
  unfold try_extract_buffer_like_bytes, read_bytes_from_array_buffer_range. by_kind o w Hs.
  - rewrite Hb. js_run. destruct Hd as [Hd|]; [|done]. rewrite Hd. by eexists.
  - rewrite Hb. assert (view_out_of_bounds o w = true) as Ho.
    { destruct Hd as [Hd|Hd]; [by eapply detached_law|].
      by apply negb_false_iff in Hd. }
    rewrite Ho in E2. destruct E2 as [e E2]. js_run. rewrite E2. by eexists.
  - destruct Hd as [Hd|]; [|done]. rewrite Hd. by eexists.
Qed.

Lemma extract_none (v : JsValue O) w :
  match v with JsObject o => slots o w = None | _ => True end ->
  try_extract_buffer_like_bytes v w = Some (w, Ok None).
Proof.
  destruct v as [| | | | | | | |o]; try done. intros Hs.
  unfold try_extract_buffer_like_bytes. cbn [as_object]. js_run.
  destruct (is_typed_array o w) eqn:Ht; [destruct (typed_law o w Ht) as (? & ? & _); congruence|].
  js_run. destruct (is_data_view o w) eqn:Hv; [destruct (view_law o w Ht Hv) as (? & ? & _); congruence|].
  js_run. destruct (is_array_buffer o w) eqn:Hab; [|done].
  by rewrite (buffer_law o w Ht Hv Hab) in Hs.
Qed.
End lemmas.

(** ** Properties *)

Section properties.
Context {W O : Type} `{Boa W O} `{!BoaBufferLaws W O}.

Lemma range_length (o : O) w s d : attached o w s d -> Z.of_nat (length (range s d)) = vs_length s.
Proof. intros Ha%attached_range. unfold range. rewrite length_take, length_drop. lia. Qed.

(** C31. Extraction returns exactly the bytes of the view's range and changes
    nothing; an object that is no view gives [None], and a shared buffer, a
    detached one or a data view out of bounds is an exception, never wrong
    bytes. *)
Theorem extract_reads_view (o : O) (w : W) :
  match slots o w with
  | None => try_extract_buffer_like_bytes (JsObject o) w = Some (w, Ok None)
  | Some s =>
      if is_array_buffer (vs_buffer s) w then
        match buffer_data (vs_buffer s) w, readable o w with
        | Some d, true =>
            try_extract_buffer_like_bytes (JsObject o) w = Some (w, Ok (Some (range s d))) /\
            Z.of_nat (length (range s d)) = vs_length s
        | _, _ => exists e, try_extract_buffer_like_bytes (JsObject o) w = Some (w, Err e)
        end
      else exists m, try_extract_buffer_like_bytes (JsObject o) w = Some (w, Err (js_type_error m))
  end.
Proof.
  destruct (slots o w) as [s|] eqn:Hs; [|by apply extract_none].
  destruct (is_array_buffer (vs_buffer s) w) eqn:Hb; [|by eapply extract_shared].
  destruct (buffer_data (vs_buffer s) w) as [d|] eqn:Hd; [|by eapply extract_detached; eauto].
  destruct (readable o w) eqn:Ho; [|by eapply extract_detached; eauto].
  assert (attached o w s d) as Ha by done. split; [by apply extract_attached|by eapply range_length].
Qed.

Context `{Getrandom W} `{!GetrandomLaws W O} `{EqDecision O}.

(** After a fill that was given the target [range s d]. *)
Lemma fill_effect (o : O) w s d : attached o w s d ->
  exists w1 f r, getrandom_fill (range s d) w = (w1, f, r) /\ length f = length (range s d) /\
    same_buffers w w1 /\
    fill_random_buffer_like (JsObject o) w =
      Some (set_buffer_data (vs_buffer s) (splice (vs_offset s) f d) w1, map_err from_rust r) /\
    length (splice (vs_offset s) f d) = length d.
Proof.
  intros Ha. rewrite (fill_attached _ _ _ _ Ha). unfold getrandom_into.
  destruct (getrandom_fill (range s d) w) as [[w1 f] r] eqn:Hg. exists w1, f, r.
  pose proof (getrandom_length _ _ _ _ _ Hg) as Hl. pose proof (range_length _ _ _ _ Ha).
  pose proof (attached_range _ _ _ _ Ha). split_and!; [done|done|by eapply getrandom_frame|done|].
  apply splice_length; lia.
Qed.

(** How any view looks after data of the same length was stored. *)
Lemma attached_after b d d' w w1 (o2 : O) s2 d2 :
  buffer_data b w = Some d -> length d' = length d -> same_buffers w w1 -> attached o2 w s2 d2 ->
  attached o2 (set_buffer_data b d' w1) s2 (if decide (vs_buffer s2 = b) then d' else d2).
Proof.
  intros Hb Hl Hsame (Hs & Hab & Hd & Hr). destruct (Hsame b) as (Eb & _).
  rewrite Hb in Eb. destruct (set_data_slots b d d' o2 w1 Eb Hl) as [Es Ev].
  destruct (Hsame o2) as (_ & E1 & _ & E2 & E3 & E4). destruct (Hsame (vs_buffer s2)) as (E5 & _ & E6 & _).
  destruct (set_data_kind b d' o2 w1) as (K1 & K2 & _). destruct (set_data_kind b d' (vs_buffer s2) w1) as (_ & _ & K3).
  unfold attached. rewrite Es, E1, K3, E6. split_and!; [done|done| |].
  - case_decide as Heq; [|by rewrite set_data_other, E5 by done].
    rewrite Heq. by apply set_data_same with d.
  - unfold readable in *. by rewrite K1, K2, Ev, E2, E3, E4.
Qed.

(** C29. Filling a view with random bytes writes the view's range and nothing
    else: afterwards the view reads as what the random source produced, of
    the same length, and every view of a disjoint range or of another buffer
    reads as before, whether the source succeeded or not. *)
Theorem fill_random_frame (o : O) (w : W) (s : ViewSlots O) (d : bytes) :
  attached o w s d ->
  exists w1 f r w',
    getrandom_fill (range s d) w = (w1, f, r) /\ length f = length (range s d) /\
    fill_random_buffer_like (JsObject o) w = Some (w', map_err from_rust r) /\
    try_extract_buffer_like_bytes (JsObject o) w' = Some (w', Ok (Some f)) /\
    forall o2 s2 d2, attached o2 w s2 d2 -> disjoint_views s s2 ->
      try_extract_buffer_like_bytes (JsObject o2) w' = Some (w', Ok (Some (range s2 d2))).
Proof.
  intros Ha. destruct (fill_effect _ _ _ _ Ha) as (w1 & f & r & Hg & Hf & Hsame & Hfill & Hl).
  pose proof (range_length _ _ _ _ Ha) as Hrl. pose proof (attached_range _ _ _ _ Ha) as Hr.
  pose proof Ha as (_ & _ & Hd & _).
  eexists w1, f, r, _. split_and!; [exact Hg|done|exact Hfill| |].
  - pose proof (attached_after _ _ _ _ _ _ _ _ Hd Hl Hsame Ha) as Ha'.
    rewrite decide_True in Ha' by done. rewrite (extract_attached _ _ _ _ Ha').
    rewrite range_splice by lia. done.
  - intros o2 s2 d2 Ha2 Hdis. pose proof (attached_after _ _ _ _ _ _ _ _ Hd Hl Hsame Ha2) as Ha'.
    rewrite (extract_attached _ _ _ _ Ha'). pose proof (attached_range _ _ _ _ Ha2) as Hr2.
    case_decide as Heq; [|done]. destruct Ha2 as (_ & _ & Hd2 & _). rewrite Heq, Hd in Hd2. simplify_eq.
    rewrite range_splice_disjoint; [done|lia..|]. destruct Hdis as [|Hdis]; [congruence|exact Hdis].
Qed.
End properties.
