(* ===== verification/JsDemo.v ===== *)
(** * JsDemo: a small engine for concrete runs

    A heap of objects without prototypes, proxies and getters, which has the
    operations of [Boa] and the laws of [BoaBufferLaws].  The components'
    theorems are about every engine; the concrete runs that accompany them
    use this one.  [H] is the data a host object carries, and the engine's
    state is the part [heap] of the state [W] of the run. *)

From S2P Require Import Prelude Json Utf8 Str Executor JsHost BufferLike.

Inductive DObj (H : Type) :=
| DPlain (props : list (PropertyKey * JsValue nat))
| DTyped (buf : nat) (off len : Z)
| DView (buf : nat) (off len : Z)
| DBuffer (data : option bytes)
| DShared
| DFun
| DHost (h : H).
Arguments DPlain {H} _.
Arguments DTyped {H} _ _ _.
Arguments DView {H} _ _ _.
Arguments DBuffer {H} _.
Arguments DShared {H}.
Arguments DFun {H}.
Arguments DHost {H} _.

Section heap.
Context {H : Type}.
Abbreviation Heap := (list (DObj H)).
Implicit Types h : Heap.

(** ** Properties *)

Fixpoint assoc_get (k : PropertyKey) (l : list (PropertyKey * JsValue nat)) : option (JsValue nat) :=
  match l with
  | [] => None
  | (k', v) :: rest => if decide (k = k') then Some v else assoc_get k rest
  end.
Fixpoint assoc_set (k : PropertyKey) (v : JsValue nat) (l : list (PropertyKey * JsValue nat)) :=
  match l with
  | [] => [(k, v)]
  | (k', v') :: rest => if decide (k = k') then (k, v) :: rest else (k', v') :: assoc_set k v rest
  end.

Definition props_of h (o : nat) : list (PropertyKey * JsValue nat) :=
  match h !! o with Some (DPlain ps) => ps | _ => [] end.
Definition heap_get h (o : nat) (k : PropertyKey) : JsValue nat :=
  default JsUndefined (assoc_get k (props_of h o)).
Definition heap_set h (o : nat) (k : PropertyKey) (v : JsValue nat) : Heap :=
  match h !! o with Some (DPlain ps) => <[o := DPlain (assoc_set k v ps)]> h | _ => h end.

Definition array_props (l : list (JsValue nat)) : list (PropertyKey * JsValue nat) :=
  imap (fun i v => (KeyIndex (Z.of_nat i), v)) l ++ [(key "length", JsInt (Z.of_nat (length l)))].

(** ** JSON *)

Fixpoint json_of (fuel : nat) h (v : JsValue nat) : option Value :=
  match v, fuel with
  | JsNull, _ => Some VNull
  | JsBoolean b, _ => Some (VBool b)
  | JsString u, _ => Some (VString (to_std_string_lossy u))
  | JsInt i, _ => Some (VNumber (if 0 <=? i then PosInt i else NegInt i))
  | JsFloat b, _ => Some (VNumber (Float b))
  | JsObject o, S fuel' =>
      Some (VObject (omap (fun '(k, x) => match k with
                                          | KeyString u => y ← json_of fuel' h x; Some (to_std_string_lossy u, y)
                                          | _ => None
                                          end) (props_of h o)))
  | _, _ => None
  end.

Fixpoint json_new (v : Value) h : Heap * JsValue nat :=
  match v with
  | VNull => (h, JsNull)
  | VBool b => (h, JsBoolean b)
  | VString s => (h, js_string_value s)
  | VNumber (PosInt i) | VNumber (NegInt i) => (h, JsInt i)
  | VNumber (Float b) => (h, JsFloat b)
  | VArray l =>
      let '(h', vs) := (fix go (l : list Value) h := match l with
                        | [] => (h, [])
                        | x :: r => let '(h1, y) := json_new x h in let '(h2, ys) := go r h1 in (h2, y :: ys)
                        end) l h in
      (h' ++ [DPlain (array_props vs)], JsObject (length h'))
  | VObject l =>
      let '(h', ps) := (fix go (l : list (list Z * Value)) h := match l with
                        | [] => (h, [])
                        | (k, x) :: r =>
                            let '(h1, y) := json_new x h in let '(h2, ys) := go r h1 in
                            (h2, (KeyString (encode_utf16 k), y) :: ys)
                        end) l h in
      (h' ++ [DPlain ps], JsObject (length h'))
  end.

(** ** Buffers *)

(** The contents of a buffer that fits the address space. *)
Definition heap_data (o : nat) h : option bytes :=
  match h !! o with
  | Some (DBuffer (Some d)) => if Z.of_nat (length d) <=? usize_max then Some d else None
  | _ => None
  end.

(** A view whose range is not in its buffer is out of bounds and empty. *)
Definition in_bounds (buf : nat) (off len : Z) h : bool :=
  match heap_data buf h with
  | Some d => (0 <=? off) && (0 <=? len) && (off + len <=? Z.of_nat (length d))
  | None => false
  end.
Definition clamp (buf : nat) (off len : Z) h : ViewSlots nat :=
  if in_bounds buf off len h then mkSlots buf off len else mkSlots buf 0 0.

Definition heap_slots (o : nat) h : option (ViewSlots nat) :=
  match h !! o with
  | Some (DTyped b off len) | Some (DView b off len) => Some (clamp b off len h)
  | Some (DBuffer _) => Some (mkSlots o 0 (Z.of_nat (length (default [] (heap_data o h)))))
  | _ => None
  end.
Definition heap_oob (o : nat) h : bool :=
  match h !! o with
  | Some (DTyped b off len) | Some (DView b off len) => negb (in_bounds b off len h)
  | _ => bool_decide (heap_data o h = None)
  end.
End heap.

(** ** The engine *)

Section engine.
Context {W H : Type} (heap : W -> list (DObj H)) (put : list (DObj H) -> W -> W).

Definition key_str (k : PropertyKey) : str :=
  let s := match k with KeyString u => to_std_string_lossy u | KeySymbol i | KeyIndex i => show i end in
  if forallb is_scalar s then s else [].

(** The number a string of decimal digits stands for. *)
Definition digits_value (u : list Z) : Z :=
  if forallb (fun c => (48 <=? c) && (c <=? 57)) u then fold_left (fun n c => 10 * n + (c - 48)) u 0 else 0.

Definition on_slots {A} (o : nat) (f : ViewSlots nat -> A) (w : W) : W * result (JsError (JsValue nat)) A :=
  (w, match heap_slots o (heap w) with Some s => Ok (f s) | None => Err (js_type_error (lit "not a view")) end).
Definition in_view {A} (o : nat) (f : ViewSlots nat -> A) (w : W) : W * result (JsError (JsValue nat)) A :=
  if heap_oob o (heap w) then (w, Err (js_type_error (lit "out of bounds"))) else on_slots o f w.
Definition new_ (x : DObj H) (w : W) : W * nat := (put (heap w ++ [x]) w, length (heap w)).
Definition kind_is (f : DObj H -> bool) (o : nat) (w : W) : bool :=
  match heap w !! o with Some x => f x | None => false end.

Definition demo_boa : Boa W nat := {|
  obj_get := fun o k w => (w, Ok (heap_get (heap w) o k));
  obj_set := fun o k v w => (put (heap_set (heap w) o k v) w, Ok ());
  own_property_keys := fun o w => (w, Ok (props_of (heap w) o).*1);
  key_to_string := key_str;
  key_of_u64 := KeyIndex;
  value_to_json := fun v w => (w, Ok (json_of (S (length (heap w))) (heap w) v));
  value_from_json := fun v w => let '(h, x) := json_new v (heap w) in (put h w, Ok x);
  to_object := fun v w =>
    (w, match v with JsObject o => Ok o | _ => Err (js_type_error (lit "not an object")) end);
  to_string := fun v w =>
    (w, match v with JsString u => Ok u | JsInt i => Ok (show i) | _ => Ok (lit "[object Object]") end);
  to_length := fun v w => (w, Ok (match v with JsInt i => Z.max 0 i | JsString u => digits_value u | _ => 0 end));
  as_callable := fun v w =>
    match v with JsObject o => if kind_is (fun x => match x with DFun => true | _ => false end) o w then Some o else None | _ => None end;
  obj_call := fun f this args w => (w, Ok this);
  new_object := new_ (DPlain []);
  new_array := fun l => new_ (DPlain (array_props l));
  array_push := fun o v w =>
    let n := match heap_get (heap w) o (key "length") with JsInt i => i | _ => 0 end in
    (put (heap_set (heap_set (heap w) o (KeyIndex n) v) o (key "length") (JsInt (n + 1))) w, Ok ());
  is_typed_array := kind_is (fun x => match x with DTyped _ _ _ => true | _ => false end);
  is_data_view := kind_is (fun x => match x with DView _ _ _ => true | _ => false end);
  is_array_buffer := kind_is (fun x => match x with DBuffer _ => true | _ => false end);
  typed_buffer := fun o => on_slots o (fun s => JsObject (vs_buffer s));
  typed_byte_offset := fun o => on_slots o vs_offset;
  typed_byte_length := fun o => on_slots o vs_length;
  view_buffer := fun o => on_slots o (fun s => JsObject (vs_buffer s));
  view_byte_offset := fun o => in_view o vs_offset;
  view_byte_length := fun o => in_view o vs_length;
  buffer_byte_length := fun o w => Z.of_nat (length (default [] (heap_data o (heap w))));
  buffer_data := fun o w => heap_data o (heap w);
  set_buffer_data := fun o d w =>
    match heap w !! o with Some (DBuffer _) => put (<[o := DBuffer (Some d)]> (heap w)) w | _ => w end;
  new_uint8_array := fun b w =>
    let h := heap w in
    (put (h ++ [DBuffer (Some b); DTyped (length h) 0 (Z.of_nat (length b))]) w, Ok (S (length h)));
|}.
End engine.

(** ** Its laws *)

Section laws.
Context {W H : Type} (heap : W -> list (DObj H)) (put : list (DObj H) -> W -> W).
Hypothesis heap_put : forall h w, heap (put h w) = h.
#[local] Existing Instance demo_boa.
Local Abbreviation B := (demo_boa heap put).

Lemma heap_data_fits o (h : list (DObj H)) d : heap_data o h = Some d -> Z.of_nat (length d) <= usize_max.
Proof. unfold heap_data. intros Hd. by case_all. Qed.

Lemma heap_data_buffer o (h : list (DObj H)) d : heap_data o h = Some d -> h !! o = Some (DBuffer (Some d)).
Proof. unfold heap_data. intros Hd. by case_all. Qed.

Lemma clamp_range b off len (h : list (DObj H)) d : heap_data (vs_buffer (clamp b off len h)) h = Some d ->
  0 <= vs_offset (clamp b off len h) /\ 0 <= vs_length (clamp b off len h) /\
  vs_offset (clamp b off len h) + vs_length (clamp b off len h) <= Z.of_nat (length d).
Proof.
  unfold clamp. destruct (in_bounds b off len h) eqn:Hb; cbn; intros Hd; [|lia].
  unfold in_bounds in Hb. rewrite Hd in Hb. bool_facts. lia.
Qed.

Definition store (b : nat) (d' : bytes) (h : list (DObj H)) : list (DObj H) :=
  match h !! b with Some (DBuffer _) => <[b := DBuffer (Some d')]> h | _ => h end.

Lemma heap_store b d' w : heap (@set_buffer_data _ _ B b d' w) = store b d' (heap w).
Proof. cbn. unfold store. repeat case_match; by rewrite ?heap_put. Qed.

Lemma store_other b d' (h : list (DObj H)) o : o <> b -> store b d' h !! o = h !! o.
Proof. intros Hne. unfold store. repeat case_match; by rewrite ?list_lookup_insert_ne. Qed.

Lemma store_same b d' (h : list (DObj H)) x :
  h !! b = Some (DBuffer x) -> store b d' h !! b = Some (DBuffer (Some d')).
Proof.
  intros Hb. unfold store. rewrite Hb. apply list_lookup_insert_eq. by apply lookup_lt_is_Some_1; eexists.
Qed.

Lemma store_kind b d' (h : list (DObj H)) o (f : DObj H -> bool) :
  (forall x y, f (DBuffer x) = f (DBuffer y)) ->
  match store b d' h !! o with Some x => f x | None => false end =
  match h !! o with Some x => f x | None => false end.
Proof.
  intros Hf. destruct (decide (o = b)) as [->|]; [|by rewrite store_other].
  destruct (h !! b) as [[]|] eqn:E; try (by unfold store; rewrite E, ?E).
  erewrite store_same by done. apply Hf.
Qed.

Lemma store_data b d d' (h : list (DObj H)) o : heap_data b h = Some d -> length d' = length d ->
  heap_data o (store b d' h) = if decide (o = b) then Some d' else heap_data o h.
Proof.
  intros Hb Hl. case_decide as Ho; [subst|by unfold heap_data; rewrite store_other].
  pose proof (heap_data_fits _ _ _ Hb) as Hfit.
  unfold heap_data. erewrite store_same by (by apply heap_data_buffer). rewrite Hl.
  by rewrite (proj2 (Z.leb_le _ _)).
Qed.

Lemma store_bounds b d d' (h : list (DObj H)) buf off len : heap_data b h = Some d -> length d' = length d ->
  in_bounds buf off len (store b d' h) = in_bounds buf off len h.
Proof.
  intros Hb Hl. unfold in_bounds. rewrite (store_data _ _ _ _ _ Hb Hl).
  case_decide; [subst; by rewrite Hb, Hl|done].
Qed.

Lemma store_view b d d' (h : list (DObj H)) o : heap_data b h = Some d -> length d' = length d ->
  heap_slots o (store b d' h) = heap_slots o h /\ heap_oob o (store b d' h) = heap_oob o h.
Proof.
  intros Hb Hl. unfold heap_slots, heap_oob, clamp. destruct (decide (o = b)) as [->|Hne].
  - rewrite (store_data _ _ _ _ _ Hb Hl), decide_True by done. pose proof (heap_data_buffer _ _ _ Hb) as Hbuf.
    erewrite store_same by done. rewrite Hbuf, Hb. cbn. by rewrite Hl.
  - rewrite store_other, (store_data _ _ _ _ _ Hb Hl), decide_False by done.
    destruct (h !! o) as [[]|]; by rewrite ?(store_bounds _ _ _ _ _ _ _ Hb Hl).
Qed.

Definition demo_buffer_laws : @BoaBufferLaws W nat B.
Proof.
  refine (@Build_BoaBufferLaws W nat B (fun o w => heap_slots o (heap w)) (fun o w => heap_oob o (heap w))
            _ _ _ _ _ _ _ _ _ _ _).
  - intros o w Ht. cbn in *. unfold kind_is, on_slots, heap_slots in *. case_all. eauto.
  - intros o w _ Hv. cbn in *. unfold in_view, kind_is, on_slots, heap_slots in *. case_all; eauto.
  - intros o w s. cbn. unfold heap_slots, heap_oob, clamp, in_bounds.
    destruct (heap w !! o) as [[]|]; try done; intros [= <-] Hd; cbn in *;
      repeat case_match; cbn in *; simplify_eq; try congruence; by rewrite ?bool_decide_true.
  - intros o w _ _ Hb. cbn in *. unfold kind_is, heap_slots in *. by case_all.
  - intros o w Ht Hv Hb. cbn in *. unfold kind_is, heap_slots in *. by case_all.
  - intros o w s d. cbn. unfold heap_slots. case_all; intros [= <-] Hd; try (by apply clamp_range).
    cbn in *. rewrite Hd. cbn. lia.
  - intros b w d. cbn. apply heap_data_fits.
  - intros b d d' w Hb Hl. cbn in Hb. cbn [buffer_data demo_boa]. rewrite heap_store. by rewrite (store_data _ _ _ _ _ Hb Hl), decide_True.
  - intros b b' d' w Hne. cbn [buffer_data demo_boa]. rewrite heap_store. unfold heap_data. by rewrite store_other.
  - intros b d d' o w Hb Hl. cbn beta. rewrite heap_store. by apply store_view with d.
  - intros b d' o w. cbn [is_typed_array is_data_view is_array_buffer demo_boa]. unfold kind_is.
    rewrite heap_store. split_and!; by apply store_kind.
Defined.
End laws.

(** ** Concrete buffers *)

Module BufferDemo.
Definition W := list (DObj ()).
Definition heap (w : W) : list (DObj ()) := w.
Definition put (h : list (DObj ())) (_ : W) : W := h.
#[export] Instance engine : Boa W nat := demo_boa heap put.
#[export] Instance engine_laws : BoaBufferLaws W nat := demo_buffer_laws heap put (fun _ _ => eq_refl).

(** A random source that produces 42. *)
#[export] Instance fortytwo : Getrandom W := fun t w => (w, replicate (length t) 42, Ok ()).
#[export] Instance fortytwo_laws : GetrandomLaws W nat.
Proof.
  split; intros t w w' f r [= <- <- <-]; [apply length_replicate|]. intros o. done.
Qed.

(** A buffer of six bytes, two views of it, a data view and a shared buffer. *)
Definition world : W :=
  [DBuffer (Some [1; 2; 3; 4; 5; 6]); DTyped 0 1 2; DTyped 0 3 3; DView 0 2 9; DShared; DTyped 4 0 0].

Lemma fill_random_frame_witness :
  exists w1 f r w',
    getrandom_fill [2; 3] world = (w1, f, r) /\ length f = 2%nat /\
    fill_random_buffer_like (JsObject 1%nat) world = Some (w', map_err from_rust r) /\
    try_extract_buffer_like_bytes (JsObject 1%nat) w' = Some (w', Ok (Some f)) /\
    try_extract_buffer_like_bytes (JsObject 2%nat) w' = Some (w', Ok (Some [4; 5; 6])).
Proof.
  destruct (fill_random_frame (W:=W) 1%nat world (mkSlots 0%nat 1 2) [1; 2; 3; 4; 5; 6]) as (w1 & f & r & w' & ? & ? & ? & ? & Ho).
  - done.
  - exists w1, f, r, w'. split_and!; try done.
    apply (Ho 2%nat (mkSlots 0%nat 3 3) [1; 2; 3; 4; 5; 6]); [done|]. right. right. cbn. lia.
Defined.

Lemma extract_reads_view_witness :
  try_extract_buffer_like_bytes (JsObject 2%nat) world = Some (world, Ok (Some [4; 5; 6])).
Proof. exact (proj1 (extract_reads_view (W:=W) 2%nat world)). Defined.

(** A data view that reaches past its buffer, and a view of a shared buffer. *)
Example unreadable_views :
  try_extract_buffer_like_bytes (JsObject 3%nat) world = Some (world, Err (js_type_error (lit "out of bounds"))) /\
  try_extract_buffer_like_bytes (JsObject 5%nat) world =
    Some (world, Err (js_type_error (lit "TypedArray backed by SharedArrayBuffer is not supported"))).
Proof. split; vm_compute; reflexivity. Qed.
End BufferDemo.
