(* ===== verification/Codecs.v ===== *)
(** * Codecs: the encoding, text and identifier modules
    (src/src/internal/runtime/builtins/base64.rs, base32.rs, hex.rs,
    form_urlencoded.rs, html.rs, uuid.rs, console.rs, and the argument helpers
    and [register_codec_module] of mod.rs)

    Each native function with its argument checks.  The crates that do the
    encoding are classes: [DataEncoding], [HexLib], [FormLib], [Htmlize],
    [UuidLib]; their [..Laws] state what the crates document. *)

From S2P Require Import Prelude Json Utf8 Str StrMap Executor JsHost BufferLike.

(** ** Libraries *)

(** [data_encoding::Encoding]; a failed decoding is the error's message. *)
Record Encoding := mkEncoding { enc_encode : bytes -> str; enc_decode : bytes -> result str bytes }.

Class DataEncoding := {
  BASE64 : Encoding; BASE64_NOPAD : Encoding;
  BASE64URL : Encoding; BASE64URL_NOPAD : Encoding;
  BASE32 : Encoding; BASE32_NOPAD : Encoding;
  BASE32HEX : Encoding; BASE32HEX_NOPAD : Encoding;
}.

Class HexLib := { hex_lib_encode : bytes -> str; hex_lib_decode : bytes -> result str bytes }.

(** [url::form_urlencoded]: [Serializer::new(String::new())] with
    [append_pair] for every pair and [finish]; [parse]. *)
Class FormLib := { form_serialize : list (str * str) -> str; form_parse : bytes -> list (str * str) }.

Class Htmlize := {
  htmlize_escape_text : str -> str;
  htmlize_escape_all_quotes : str -> str;
  htmlize_unescape : str -> str;
  htmlize_unescape_attribute : str -> str;
}.

(** [uuid::Uuid]; the generated ones depend on the clock and on randomness. *)
Class UuidLib (W Uuid : Type) := {
  uuid_parse_str : str -> result str Uuid;
  new_v3 : Uuid -> bytes -> Uuid;
  new_v5 : Uuid -> bytes -> Uuid;
  new_v4 : W -> W * Uuid;
  now_v6 : bytes -> W -> W * Uuid;
  now_v7 : W -> W * Uuid;
  uuid_nil : Uuid;
  uuid_max : Uuid;
  hyphenated : Uuid -> str;
}.

Section codecs.
Context {W O : Type} `{Boa W O}.
Abbreviation V := (JsValue O).
Abbreviation M := (Js W O).

(** ** Arguments (mod.rs) *)

Definition required_string_arg (args : list V) (index : nat) (name : str) : M str :=
  pure_ (ok_or (js_type_error (name ++ lit " must be a string"))
           (to_std_string_lossy <$> as_string (get_or_undefined args index))).

Definition required_buffer_like_arg (args : list V) (index : nat) (name : str) : M bytes :=
  b ← try_extract_buffer_like_bytes (get_or_undefined args index);
  pure_ (ok_or (js_type_error (name ++ lit " must be a TypedArray, ArrayBuffer, or DataView")) b).

(** A [variant] argument: the default if it is missing, or one of a list of
    names. *)
Definition parse_variant (args : list V) (index : nat) (default_ : str) (names : list str) (complaint : str) : M str :=
  let value := get_or_undefined args index in
  if is_undefined value then mret default_
  else match as_string value with
       | None => throw (js_type_error (lit "variant must be a string"))
       | Some s =>
           let t := to_std_string_lossy s in
           if bool_decide (t ∈ names) then mret t else throw (js_type_error complaint)
       end.

Definition parse_base64_variant (args : list V) (index : nat) (default_ : str) : M str :=
  parse_variant args index default_ [lit "base64"; lit "base64url"] (lit "variant must be 'base64' or 'base64url'").

Definition parse_base32_variant (args : list V) (index : nat) (default_ : str) : M str :=
  parse_variant args index default_ [lit "base32"; lit "base32hex"] (lit "variant must be 'base32' or 'base32hex'").

(** ** base64, base32, hex *)

(** [padded.decode(..).or_else(|_| unpadded.decode(..))]. *)
Definition decode_either (padded unpadded : Encoding) (input : bytes) : result str bytes :=
  or_else (enc_decode padded input) (fun _ => enc_decode unpadded input).

Definition lib_result {A} (r : result str A) : M A := pure_ (map_err from_rust r).

Definition base64_encode `{DataEncoding} (this : V) (args : list V) : M V :=
  b ← required_buffer_like_arg args 0 (lit "bufferLike");
  variant ← parse_base64_variant args 1 (lit "base64");
  if bool_decide (variant = lit "base64") then mret (js_string_value (enc_encode BASE64 b))
  else if bool_decide (variant = lit "base64url") then mret (js_string_value (enc_encode BASE64URL_NOPAD b))
  else throw (js_type_error (lit "invalid base64 variant")).

Definition base64_decode `{DataEncoding} (this : V) (args : list V) : M V :=
  encoded ← required_string_arg args 0 (lit "encoded");
  variant ← parse_base64_variant args 1 (lit "base64");
  decoded ←
    (if bool_decide (variant = lit "base64")
     then lib_result (decode_either BASE64 BASE64_NOPAD (utf8_encode encoded))
     else if bool_decide (variant = lit "base64url")
     then lib_result (decode_either BASE64URL BASE64URL_NOPAD (utf8_encode encoded))
     else throw (js_type_error (lit "invalid base64 variant")));
  bytes_to_uint8_array_value decoded.

Definition base32_encode `{DataEncoding} (this : V) (args : list V) : M V :=
  b ← required_buffer_like_arg args 0 (lit "bufferLike");
  variant ← parse_base32_variant args 1 (lit "base32");
  if bool_decide (variant = lit "base32") then mret (js_string_value (enc_encode BASE32 b))
  else if bool_decide (variant = lit "base32hex") then mret (js_string_value (enc_encode BASE32HEX b))
  else throw (js_type_error (lit "invalid base32 variant")).

Definition base32_decode `{DataEncoding} (this : V) (args : list V) : M V :=
  encoded ← required_string_arg args 0 (lit "encoded");
  let encoded_upper := to_ascii_uppercase encoded in
  variant ← parse_base32_variant args 1 (lit "base32");
  decoded ←
    (if bool_decide (variant = lit "base32")
     then lib_result (decode_either BASE32 BASE32_NOPAD (utf8_encode encoded_upper))
     else if bool_decide (variant = lit "base32hex")
     then lib_result (decode_either BASE32HEX BASE32HEX_NOPAD (utf8_encode encoded_upper))
     else throw (js_type_error (lit "invalid base32 variant")));
  bytes_to_uint8_array_value decoded.

Definition hex_encode `{HexLib} (this : V) (args : list V) : M V :=
  b ← required_buffer_like_arg args 0 (lit "bufferLike");
  mret (js_string_value (hex_lib_encode b)).

Definition hex_decode `{HexLib} (this : V) (args : list V) : M V :=
  encoded ← required_string_arg args 0 (lit "encoded");
  decoded ← lib_result (hex_lib_decode (utf8_encode encoded));
  bytes_to_uint8_array_value decoded.

(** ** form-urlencoded *)

Definition parse_form_record_arg `{SerdeMessages} (args : list V) : M (list (str * str)) :=
  json ← boa (value_to_json (get_or_undefined args 0));
  json ← pure_ (ok_or (js_type_error (lit "record must be an object")) json);
  match json with
  | VObject fields => es ← lib_result (string_entries fields); mret (btree_extend es [])
  | _ => throw (js_type_error (lit "record must be an object"))
  end.

Definition form_urlencode_encode `{SerdeMessages} `{FormLib} (this : V) (args : list V) : M V :=
  record ← parse_form_record_arg args;
  mret (js_string_value (form_serialize record)).

Definition form_urlencode_decode `{FormLib} (this : V) (args : list V) : M V :=
  params ← pure_ (ok_or (js_type_error (lit "params must be a string"))
                    (to_std_string_lossy <$> as_string (get_or_undefined args 0)));
  let params := strip_prefix_or 63 params in
  let record := btree_extend (form_parse (utf8_encode params)) [] in
  boa (value_from_json (VObject ((fun p => (p.1, VString p.2)) <$> record))).

(** ** html *)

Definition html_string_result (value : str) : V := js_string_value value.

Definition html_function (f : str -> str) (this : V) (args : list V) : M V :=
  text ← required_string_arg args 0 (lit "text");
  mret (html_string_result (f text)).

Definition escape_text `{Htmlize} : V -> list V -> M V := html_function htmlize_escape_text.
Definition escape_attribute `{Htmlize} : V -> list V -> M V := html_function htmlize_escape_all_quotes.
Definition unescape_text `{Htmlize} : V -> list V -> M V := html_function htmlize_unescape.
Definition unescape_attribute `{Htmlize} : V -> list V -> M V := html_function htmlize_unescape_attribute.

(** ** uuid *)

Definition uuid_variants : list str :=
  [lit "v3"; lit "v4"; lit "v5"; lit "v6"; lit "v7"; lit "nil"; lit "max"].

Definition parse_uuid_variant (args : list V) (index : nat) : M str :=
  parse_variant args index (lit "v4") uuid_variants
    (lit "variant must be one of 'v3', 'v4', 'v5', 'v6', 'v7', 'nil', 'max'").

Section uuid.
Context {Uuid : Type} `{UuidLib W Uuid} `{Getrandom W}.

Definition option_string (options : O) (name : string) (complaint : str) : M str :=
  v ← boa (obj_get options (key name));
  s ← pure_ (ok_or (js_type_error complaint) (as_string v));
  mret (to_std_string_lossy s).

Definition parse_uuid_v3_v5_options (args : list V) : M (Uuid * bytes) :=
  match as_object (get_or_undefined args 1) with
  | None => throw (js_type_error (lit "options must be an object with `namespace` and `name` for v3/v5"))
  | Some options =>
      namespace ← option_string options "namespace" (lit "options.namespace must be a UUID string");
      namespace ← lib_result (uuid_parse_str namespace);
      name ← option_string options "name" (lit "options.name must be a string");
      mret (namespace, utf8_encode name)
  end.

(** The random node of a version 6 UUID. *)
Definition random_node_id : M bytes := fun w =>
  let '(w1, node, r) := getrandom_fill [0; 0; 0; 0; 0; 0] w in
  Some (w1, match r with Ok _ => Ok node | Err e => Err (from_rust e) end).

Definition uuid_of_variant (variant : str) (args : list V) : M Uuid :=
  if bool_decide (variant = lit "v3") then
    '(namespace, name) ← parse_uuid_v3_v5_options args; mret (new_v3 namespace name)
  else if bool_decide (variant = lit "v4") then alloc new_v4
  else if bool_decide (variant = lit "v5") then
    '(namespace, name) ← parse_uuid_v3_v5_options args; mret (new_v5 namespace name)
  else if bool_decide (variant = lit "v6") then
    node_id ← random_node_id; alloc (now_v6 node_id)
  else if bool_decide (variant = lit "v7") then alloc now_v7
  else if bool_decide (variant = lit "nil") then mret uuid_nil
  else if bool_decide (variant = lit "max") then mret uuid_max
  else throw (js_type_error (lit "invalid UUID variant")).

Definition uuid_generate (this : V) (args : list V) : M V :=
  variant ← parse_uuid_variant args 0;
  value ← uuid_of_variant variant args;
  mret (js_string_value (hyphenated value)).
End uuid.

(** ** console *)

Definition console_noop (this : V) (args : list V) : M V := mret JsUndefined.

(** The methods of the console object, in the order they are set. *)
Definition console_methods : list (NativeFunction W O) :=
  (fun name => mkNative name 0 console_noop) <$>
  [lit "log"; lit "info"; lit "warn"; lit "error"; lit "debug"].

(** [console_object]; [build] makes the function object of a method. *)
Definition console_object (build : NativeFunction W O -> W -> W * O) : M O :=
  console ← alloc new_object;
  _ ← js_collect (fun f => method ← alloc (build f);
                           boa (obj_set console (KeyString (fn_name f)) (JsObject method))) console_methods;
  mret console.

(** Registration is skipped if the object cannot be made. *)
Definition console_register (build : NativeFunction W O -> W -> W * O) (w : W) : option (W * option (SyntheticModule O)) :=
  '(w1, r) ← console_object build w;
  Some (w1, console ← result_ok r; Some (mkSynthetic (lit "mechanics:console") [(lit "default", console)])).

(** ** Modules *)

(** [struct CodecModuleSpec] and [register_codec_module]: a module with an
    encoder and a decoder. *)
Record CodecModuleSpec := mkCodec {
  module_name : str;
  encode_name : str;
  encode_fn : V -> list V -> M V;
  encode_length : Z;
  decode_name : str;
  decode_fn : V -> list V -> M V;
  decode_length : Z;
}.

Definition register_codec_module (spec : CodecModuleSpec) : SyntheticModule (NativeFunction W O) :=
  let encode := mkNative (encode_name spec) (encode_length spec) (encode_fn spec) in
  let decode := mkNative (decode_name spec) (decode_length spec) (decode_fn spec) in
  mkSynthetic (module_name spec) [(encode_name spec, encode); (decode_name spec, decode)].

Definition base64_register `{DataEncoding} : SyntheticModule (NativeFunction W O) :=
  register_codec_module (mkCodec (lit "mechanics:base64") (lit "encode") base64_encode 2 (lit "decode") base64_decode 2).
Definition base32_register `{DataEncoding} : SyntheticModule (NativeFunction W O) :=
  register_codec_module (mkCodec (lit "mechanics:base32") (lit "encode") base32_encode 2 (lit "decode") base32_decode 2).
Definition hex_register `{HexLib} : SyntheticModule (NativeFunction W O) :=
  register_codec_module (mkCodec (lit "mechanics:hex") (lit "encode") hex_encode 1 (lit "decode") hex_decode 1).
Definition form_urlencoded_register `{SerdeMessages} `{FormLib} : SyntheticModule (NativeFunction W O) :=
  register_codec_module
    (mkCodec (lit "mechanics:form-urlencoded") (lit "encode") form_urlencode_encode 1 (lit "decode") form_urlencode_decode 1).

(** A module whose default export is one function. *)
Definition default_module (specifier : str) (f : NativeFunction W O) : SyntheticModule (NativeFunction W O) :=
  mkSynthetic specifier [(lit "default", f)].

Definition rand_register `{Getrandom W} : SyntheticModule (NativeFunction W O) :=
  default_module (lit "mechanics:rand") (mkNative (lit "fillRandom") 1 rand_fill_random).
Definition uuid_register {Uuid} `{UuidLib W Uuid} `{Getrandom W} : SyntheticModule (NativeFunction W O) :=
  default_module (lit "mechanics:uuid") (mkNative (lit "uuid") 2 uuid_generate).
Definition html_register `{Htmlize} : SyntheticModule (NativeFunction W O) :=
  mkSynthetic (lit "mechanics:html")
    [(lit "escapeText", mkNative (lit "escapeText") 1 escape_text);
     (lit "escapeAttribute", mkNative (lit "escapeAttribute") 1 escape_attribute);
     (lit "unescapeText", mkNative (lit "unescapeText") 1 unescape_text);
     (lit "unescapeAttribute", mkNative (lit "unescapeAttribute") 1 unescape_attribute)].
End codecs.

(** ** What the crates promise *)

(** A padded encoding and its unpadded form.  What is written is ASCII, and
    padding is a number of equals signs.  A decoder accepts what its encoder
    writes (trailing bits are checked, so nothing else); a padded one accepts
    the concatenation of several encodings too.  Without equals signs the two
    decoders agree, as far as the padded one accepts the input. *)
Definition padded_form (e : Encoding) (b : bytes) (t : str) : Prop :=
  exists blocks, Forall valid_bytes blocks /\ b = concat blocks /\ t = concat (enc_encode e <$> blocks).

Class EncodingPair (padded unpadded : Encoding) : Prop := {
  enc_ascii : forall b, is_ascii (enc_encode padded b) = true /\ is_ascii (enc_encode unpadded b) = true;
  enc_padding : forall b, exists n, enc_encode padded b = enc_encode unpadded b ++ replicate n 61;
  enc_no_equals : forall b, 61 ∉ enc_encode unpadded b;
  padded_decode_iff : forall t b, valid_str t ->
    enc_decode padded (utf8_encode t) = Ok b <-> padded_form padded b t;
  unpadded_decode_iff : forall t b, valid_str t ->
    enc_decode unpadded (utf8_encode t) = Ok b <-> valid_bytes b /\ t = enc_encode unpadded b;
  enc_agree : forall t b, valid_str t -> 61 ∉ t ->
    enc_decode padded (utf8_encode t) = Ok b -> enc_decode unpadded (utf8_encode t) = Ok b;
}.

(** The base 32 alphabets have no lower-case letters. *)
Class UpperCase (e : Encoding) : Prop := enc_upper : forall b, to_ascii_uppercase (enc_encode e b) = enc_encode e b.

Class DataEncodingLaws `{DataEncoding} : Prop := {
  base64_pair : EncodingPair BASE64 BASE64_NOPAD;
  base64url_pair : EncodingPair BASE64URL BASE64URL_NOPAD;
  base32_pair : EncodingPair BASE32 BASE32_NOPAD;
  base32hex_pair : EncodingPair BASE32HEX BASE32HEX_NOPAD;
  base32_upper : UpperCase BASE32 /\ UpperCase BASE32_NOPAD;
  base32hex_upper : UpperCase BASE32HEX /\ UpperCase BASE32HEX_NOPAD;
}.
#[export] Existing Instances base64_pair base64url_pair base32_pair base32hex_pair.

(** [hex] writes lower case and reads both. *)
Class HexLaws `{HexLib} : Prop := {
  hex_ascii : forall b, is_ascii (hex_lib_encode b) = true;
  hex_lower_case : forall b, to_ascii_lowercase (hex_lib_encode b) = hex_lib_encode b;
  hex_decode_iff : forall t b, valid_str t ->
    hex_lib_decode (utf8_encode t) = Ok b <-> valid_bytes b /\ to_ascii_lowercase t = hex_lib_encode b;
}.

(** [form_urlencoded]: reading what was written gives the pairs back, what is
    written has only letters, digits and [*-._+%&=], and what is read is
    text. *)
Definition form_char (c : Z) : bool :=
  ((48 <=? c) && (c <=? 57)) || ((65 <=? c) && (c <=? 90)) || ((97 <=? c) && (c <=? 122)) ||
  bool_decide (c ∈ lit "*-._+%&=").

Class FormLaws `{FormLib} : Prop := {
  form_roundtrip : forall ps, valid_pairs ps -> form_parse (utf8_encode (form_serialize ps)) = ps;
  form_chars : forall ps, forallb form_char (form_serialize ps) = true;
  form_parse_valid : forall t, valid_pairs (form_parse t);
}.

(** ** Which texts a decoder accepts *)

Inductive Codec := Base64Codec | Base64UrlCodec | Base32Codec | Base32HexCodec | HexCodec.

(** [t] is a text of the bytes [b]: padded or not, in base 32 and hex in
    either case. *)
Definition text_form `{DataEncoding} `{HexLib} (c : Codec) (b : bytes) (t : str) : Prop :=
  valid_bytes b /\
  match c with
  | Base64Codec => padded_form BASE64 b t \/ t = enc_encode BASE64_NOPAD b
  | Base64UrlCodec => padded_form BASE64URL b t \/ t = enc_encode BASE64URL_NOPAD b
  | Base32Codec =>
      padded_form BASE32 b (to_ascii_uppercase t) \/ to_ascii_uppercase t = enc_encode BASE32_NOPAD b
  | Base32HexCodec =>
      padded_form BASE32HEX b (to_ascii_uppercase t) \/ to_ascii_uppercase t = enc_encode BASE32HEX_NOPAD b
  | HexCodec => to_ascii_lowercase t = hex_lib_encode b
  end.

Lemma concat_valid bs : Forall valid_bytes bs -> valid_bytes (concat bs).
Proof. induction 1; [constructor|]. by apply Forall_app. Qed.

Lemma decode_either_iff (p u : Encoding) `{!EncodingPair p u} t b : valid_str t ->
  decode_either p u (utf8_encode t) = Ok b <->
  valid_bytes b /\ (padded_form p b t \/ t = enc_encode u b).
Proof.
  intros Ht. unfold decode_either. split.
  - destruct (enc_decode p (utf8_encode t)) as [b'|] eqn:E; cbn.
    + intros [= ->]. apply padded_decode_iff in E as E'; [|done]. split; [|by left].
      destruct E' as (bs & Hbs & -> & _). by apply concat_valid.
    + intros [? ->]%unpadded_decode_iff; [|done]. auto.
  - intros [Hb [Hf| ->]]; [by apply padded_decode_iff in Hf as ->|].
    assert (enc_decode u (utf8_encode (enc_encode u b)) = Ok b) as Hu by (by apply unpadded_decode_iff).
    destruct (enc_decode p (utf8_encode (enc_encode u b))) as [b'|] eqn:E; [|done]. cbn.
    apply enc_agree in E; [|done|apply enc_no_equals]. congruence.
Qed.

Lemma upper_valid t : valid_str t -> valid_str (to_ascii_uppercase t).
Proof.
  unfold to_ascii_uppercase. intros Ht. apply Forall_fmap. eapply Forall_impl; [exact Ht|].
  intros c Hc%scalar_cases. cbn. unfold ascii_upper, is_scalar. case_match; bool_facts;
    apply orb_true_iff; rewrite !andb_true_iff, !Z.leb_le, Z.ltb_lt; lia.
Qed.

(** ** Running the argument checks *)

Section arguments.
Context {W O : Type} `{Boa W O}.
Implicit Types (w : W) (args : list (JsValue O)).

Lemma required_string_ok u args name w :
  required_string_arg (JsString u :: args) 0 name w = Some (w, Ok (to_std_string_lossy u)).
Proof. done. Qed.

Lemma variant_default x args d names complaint w :
  parse_variant (x :: JsUndefined :: args) 1 d names complaint w = Some (w, Ok d).
Proof. done. Qed.

Lemma variant_given x args d names complaint t w : is_ascii t = true -> t ∈ names ->
  parse_variant (x :: js_string_value t :: args) 1 d names complaint w = Some (w, Ok t).
Proof.
  intros Ht Hin. unfold parse_variant. cbn. unfold id. rewrite lossy_encode by (by apply ascii_valid).
  by rewrite bool_decide_true.
Qed.

Lemma lib_result_bind {A B} (r : result (list Z) A) (f : A -> Js W O B) w :
  (lib_result r ≫= f) w = match r with Ok a => f a w | Err e => Some (w, Err (from_rust e)) end.
Proof. by destruct r. Qed.

Lemma required_buffer_ok `{!BoaBufferLaws W O} o args name w s d : attached o w s d ->
  required_buffer_like_arg (JsObject o :: args) 0 name w = Some (w, Ok (range s d)).
Proof. intros Ha. unfold required_buffer_like_arg. by rewrite (js_bind_ok _ _ _ _ _ (extract_attached _ _ _ _ Ha)). Qed.
End arguments.

Section decoding.
Context {W O : Type} `{Boa W O} `{DataEncodingLaws} `{HexLaws}.

(** The module functions of a codec, and the arguments that select it. *)
Definition codec_encode (c : Codec) : JsValue O -> list (JsValue O) -> Js W O (JsValue O) :=
  match c with
  | Base64Codec | Base64UrlCodec => base64_encode
  | Base32Codec | Base32HexCodec => base32_encode
  | HexCodec => hex_encode
  end.
Definition codec_decode (c : Codec) : JsValue O -> list (JsValue O) -> Js W O (JsValue O) :=
  match c with
  | Base64Codec | Base64UrlCodec => base64_decode
  | Base32Codec | Base32HexCodec => base32_decode
  | HexCodec => hex_decode
  end.
Definition codec_variant (c : Codec) : JsValue O :=
  match c with
  | Base64Codec | Base32Codec | HexCodec => JsUndefined
  | Base64UrlCodec => js_string_value (lit "base64url")
  | Base32HexCodec => js_string_value (lit "base32hex")
  end.

(** What the decoder of a codec does to a text. *)
Definition codec_text (c : Codec) (t : str) : result str bytes :=
  match c with
  | Base64Codec => decode_either BASE64 BASE64_NOPAD (utf8_encode t)
  | Base64UrlCodec => decode_either BASE64URL BASE64URL_NOPAD (utf8_encode t)
  | Base32Codec => decode_either BASE32 BASE32_NOPAD (utf8_encode (to_ascii_uppercase t))
  | Base32HexCodec => decode_either BASE32HEX BASE32HEX_NOPAD (utf8_encode (to_ascii_uppercase t))
  | HexCodec => hex_lib_decode (utf8_encode t)
  end.

Lemma codec_text_iff c t b : valid_str t -> codec_text c t = Ok b <-> text_form c b t.
Proof.
  intros Ht. pose proof (upper_valid _ Ht) as Hu. destruct c; cbn [codec_text];
    rewrite ?(hex_decode_iff t b Ht); try done; rewrite decode_either_iff by (done || apply _); done.
Qed.

Lemma codec_decode_run c this u w :
  codec_decode c this [JsString u; codec_variant c] w =
  match codec_text c (to_std_string_lossy u) with
  | Ok b => bytes_to_uint8_array_value b w
  | Err e => Some (w, Err (from_rust e))
  end.
Proof.
  destruct c; cbn [codec_decode codec_variant codec_text]; unfold base64_decode, base32_decode, hex_decode;
    rewrite js_bind_eq, required_string_ok; apply lib_result_bind.
Qed.

(** The text an encoder writes. *)
Definition codec_output (c : Codec) (b : bytes) : str :=
  match c with
  | Base64Codec => enc_encode BASE64 b
  | Base64UrlCodec => enc_encode BASE64URL_NOPAD b
  | Base32Codec => enc_encode BASE32 b
  | Base32HexCodec => enc_encode BASE32HEX b
  | HexCodec => hex_lib_encode b
  end.

Lemma padded_form_self e b : valid_bytes b -> padded_form e b (enc_encode e b).
Proof. intros Hb. exists [b]. split_and!; [by constructor|cbn; by rewrite app_nil_r..]. Qed.

Lemma codec_output_form c b : valid_bytes b ->
  is_ascii (codec_output c b) = true /\ text_form c b (codec_output c b).
Proof.
  intros Hb. unfold text_form. pose proof (padded_form_self) as Hself.
  destruct c; cbn [codec_output]; (split; [|split; [done|]]).
  - apply (enc_ascii (padded:=BASE64) (unpadded:=BASE64_NOPAD)).
  - left. by apply Hself.
  - apply (enc_ascii (padded:=BASE64URL) (unpadded:=BASE64URL_NOPAD)).
  - by right.
  - apply (enc_ascii (padded:=BASE32) (unpadded:=BASE32_NOPAD)).
  - left. rewrite (proj1 base32_upper). by apply Hself.
  - apply (enc_ascii (padded:=BASE32HEX) (unpadded:=BASE32HEX_NOPAD)).
  - left. rewrite (proj1 base32hex_upper). by apply Hself.
  - apply hex_ascii.
  - apply hex_lower_case.
Qed.

Lemma codec_encode_run `{!BoaBufferLaws W O} c this o w s d : attached o w s d ->
  codec_encode c this [JsObject o; codec_variant c] w = Some (w, Ok (js_string_value (codec_output c (range s d)))).
Proof.
  intros Ha. destruct c; cbn [codec_encode codec_variant codec_output];
    unfold base64_encode, base32_encode, hex_encode, parse_base64_variant, parse_base32_variant;
    rewrite js_bind_eq, (required_buffer_ok _ _ _ _ _ _ Ha); try done.
  all: rewrite js_bind_eq, ?variant_default; try done.
  all: by rewrite variant_given by (try done; right; left).
Qed.
End decoding.

(** ** Properties *)

Section properties.
Context {W O : Type} `{Boa W O} `{!BoaBufferLaws W O} `{DataEncodingLaws} `{HexLaws} `{SerdeMessages} `{FormLaws}.

(** C30. Bytes survive a round trip through every codec module: whatever
    buffer view holds them, encoding gives a string that the decoder of the
    same variant turns into an array of exactly these bytes. *)
Theorem codec_roundtrip (c : Codec) (this : JsValue O) (o : O) (w : W) (s : ViewSlots O) (d : bytes) :
  attached o w s d -> valid_bytes (range s d) ->
  exists text, codec_encode c this [JsObject o; codec_variant c] w = Some (w, Ok (js_string_value text)) /\
    forall this' w', codec_decode c this' [js_string_value text; codec_variant c] w' =
      bytes_to_uint8_array_value (range s d) w'.
Proof.
  intros Ha Hb. destruct (codec_output_form c (range s d) Hb) as [Hasc Hform].
  exists (codec_output c (range s d)). split; [by apply codec_encode_run|]. intros this' w'.
  unfold js_string_value. rewrite codec_decode_run, lossy_encode by (by apply ascii_valid).
  apply codec_text_iff in Hform as ->; [done|by apply ascii_valid].
Qed.

(** C39. A decoder accepts exactly the texts of some bytes, padded or not and,
    in base 32 and hex, in either case, and returns those bytes; any other
    string is an exception. *)
Theorem codec_decode_exact (c : Codec) (this : JsValue O) (u : list Z) (w : W) :
  valid_units u ->
  (forall b, text_form c b (to_std_string_lossy u) ->
     codec_decode c this [JsString u; codec_variant c] w = bytes_to_uint8_array_value b w) /\
  ((forall b, ~ text_form c b (to_std_string_lossy u)) ->
     exists m, codec_decode c this [JsString u; codec_variant c] w = Some (w, Err (from_rust m))).
Proof.
  intros Hu. apply to_std_string_lossy_valid in Hu. rewrite codec_decode_run. split.
  - intros b Hb. by apply codec_text_iff in Hb as ->.
  - intros Hno. destruct (codec_text c _) as [b|m] eqn:E; [|by exists m].
    apply codec_text_iff in E; [|done]. by destruct (Hno b).
Qed.

Lemma form_text_ascii ps : is_ascii (form_serialize ps) = true.
Proof.
  apply is_ascii_Forall, Forall_forall. intros x Hx. pose proof (form_chars ps) as Hc.
  rewrite forallb_forall in Hc. apply list_elem_of_In in Hx. apply Hc in Hx. unfold form_char in Hx.
  repeat (apply orb_true_iff in Hx as [Hx|Hx]); bool_facts; try lia.
  vm_compute in Hx. repeat (apply elem_of_cons in Hx as [->|Hx]; [lia|]). by apply not_elem_of_nil in Hx.
Qed.

Lemma form_text_strip ps : strip_prefix_or 63 (form_serialize ps) = form_serialize ps.
Proof.
  pose proof (form_chars ps) as Hc. destruct (form_serialize ps) as [|x l]; [done|]. cbn in *.
  destruct (Z.eqb_spec x 63); [subst|done]. apply andb_true_iff in Hc as [Hc _]. vm_compute in Hc. done.
Qed.

(** C40. A record of strings survives encoding and decoding: [encode] writes
    the entries in the order of their keys, a repeated key keeps its last
    value, and [decode] gives a JSON object with exactly these entries. *)
Theorem form_record_roundtrip (this v : JsValue O) (w w1 : W) (fields : list (str * str)) :
  value_to_json v w = (w1, Ok (Some (VObject ((fun p => (p.1, VString p.2)) <$> fields)))) ->
  valid_pairs fields ->
  exists record text,
    StronglySorted (fun p q => str_lt p.1 q.1) record /\
    (forall k, btree_get k record = last_value k fields) /\
    form_urlencode_encode this [v] w = Some (w1, Ok (js_string_value text)) /\
    forall this' w', form_urlencode_decode this' [js_string_value text] w' =
      boa (value_from_json (VObject ((fun p => (p.1, VString p.2)) <$> record))) w'.
Proof.
  intros Hj Hv. assert (btree_ok []) as Hnil by (split; constructor).
  pose proof (btree_extend_ok fields [] Hv Hnil) as [Hs Hvr]. set (record := btree_extend fields []) in *.
  exists record, (form_serialize record). split_and!; [done| | |].
  - intros k. unfold record. rewrite btree_get_extend by done. by destruct (last_value k fields).
  - unfold form_urlencode_encode, parse_form_record_arg. rewrite !js_bind_eq. cbn [get_or_undefined].
    change (get_or_undefined [v] 0) with v. unfold boa. rewrite Hj. cbn -[form_serialize].
    rewrite js_bind_eq. cbn [pure_ ok_or]. rewrite lib_result_bind, string_entries_Ok. done.
  - intros this' w'. unfold form_urlencode_decode. rewrite js_bind_eq.
    change (get_or_undefined [js_string_value (form_serialize record)] 0) with (js_string_value (O:=O) (form_serialize record)).
    unfold js_string_value. cbn [as_string fmap option_fmap option_map ok_or pure_].
    rewrite lossy_encode by apply ascii_valid, form_text_ascii.
    rewrite form_text_strip, form_roundtrip by done. by rewrite btree_extend_id.
Qed.
End properties.
