(* ===== verification/CodecsDemo.v ===== *)
(** * CodecsDemo: concrete encodings and runs of the codec modules

    Encodings by upper-case hexadecimal pairs have the laws of [data-encoding],
    [hex] and [form_urlencoded] that [Codecs] relies on.  With them and the
    engine of [JsDemo] the properties of [Codecs] are applied to concrete
    buffers and records. *)

From S2P Require Import Prelude Json Utf8 Str StrMap Executor JsHost BufferLike JsDemo Codecs.

(** ** Hexadecimal pairs *)

Definition hex_up (d : Z) : Z := if d <? 10 then 48 + d else 55 + d.
Definition hex_val (c : Z) : option Z :=
  if (48 <=? c) && (c <=? 57) then Some (c - 48)
  else if (65 <=? c) && (c <=? 70) then Some (c - 55) else None.

Definition pairs_encode (b : bytes) : str := x ← b; [hex_up (x / 16); hex_up (x mod 16)].
Fixpoint pairs_decode (t : str) : option bytes :=
  match t with
  | [] => Some []
  | a :: c :: rest => x ← hex_val a; y ← hex_val c; b ← pairs_decode rest; Some (16 * x + y :: b)
  | _ => None
  end.

Lemma hex_val_Some c x : hex_val c = Some x <-> 0 <= x < 16 /\ c = hex_up x.
Proof.
  unfold hex_val, hex_up. destruct (Z.ltb_spec x 10).
  all: destruct (Z.leb_spec 48 c), (Z.leb_spec c 57), (Z.leb_spec 65 c), (Z.leb_spec c 70); cbn.
  all: split; intros; simplify_eq; try split; try f_equal; lia.
Qed.

Lemma pairs_encode_app a b : pairs_encode (a ++ b) = pairs_encode a ++ pairs_encode b.
Proof. apply bind_app. Qed.

Lemma pairs_decode_Some n t b : (length t <= n)%nat ->
  pairs_decode t = Some b -> valid_bytes b /\ t = pairs_encode b.
Proof.
  revert t b. induction n as [|n IH]; intros [|a [|c t]] b Hn; cbn in Hn; try lia; cbn [pairs_decode]; try done.
  all: try (intros [= <-]; split; [constructor|done]).
  intros (x & Hx & (y & Hy & (b' & Hb' & [= <-])%bind_Some)%bind_Some)%bind_Some.
  apply hex_val_Some in Hx as [Hx ->], Hy as [Hy ->]. destruct (IH t b') as [Hv ->]; [lia|done|].
  split; [constructor; [unfold in_range, u8_max; lia|done]|]. unfold pairs_encode. cbn -[Z.div Z.modulo Z.mul].
  assert ((16 * x + y) / 16 = x /\ (16 * x + y) mod 16 = y) as [-> ->] by dlia. done.
Qed.

Lemma pairs_encode_cons x b : pairs_encode (x :: b) = hex_up (x / 16) :: hex_up (x mod 16) :: pairs_encode b.
Proof. done. Qed.

Lemma pairs_decode_cons a c rest :
  pairs_decode (a :: c :: rest) = (x ← hex_val a; y ← hex_val c; b ← pairs_decode rest; Some (16 * x + y :: b)).
Proof. done. Qed.

Lemma pairs_decode_encode b : valid_bytes b -> pairs_decode (pairs_encode b) = Some b.
Proof.
  induction 1 as [|x b Hx _ IH]; [done|]. unfold in_range, u8_max in Hx.
  rewrite pairs_encode_cons, pairs_decode_cons, IH.
  assert (hex_val (hex_up (x / 16)) = Some (x / 16)) as -> by (apply hex_val_Some; split; [dlia|done]).
  assert (hex_val (hex_up (x mod 16)) = Some (x mod 16)) as -> by (apply hex_val_Some; split; [dlia|done]).
  cbn -[Z.div Z.modulo Z.mul]. f_equal. f_equal. dlia.
Qed.

Lemma hex_up_range d : 0 <= d < 16 -> 48 <= hex_up d <= 57 \/ 65 <= hex_up d <= 70.
Proof. intros. unfold hex_up. case_match; bool_facts; lia. Qed.

(** Every character is a digit or one of the letters A to F. *)
Definition hexish (c : Z) : Prop := 48 <= c <= 57 \/ 65 <= c <= 70.
Lemma pairs_chars b : valid_bytes b -> Forall hexish (pairs_encode b).
Proof.
  induction 1 as [|x b Hx _ IH]; [constructor|]. unfold in_range, u8_max in Hx.
  rewrite pairs_encode_cons. constructor; [apply hex_up_range; dlia|]. constructor; [apply hex_up_range; dlia|done].
Qed.

(** ** The encodings *)

(** Bytes outside their range are encoded as nothing, so that the alphabet is
    respected on every argument. *)
Definition clean (b : bytes) : bytes := if forallb (fun x => (0 <=? x) && (x <=? u8_max)) b then b else [].
Definition hex_text (b : bytes) : str := pairs_encode (clean b).
Definition hex_bytes (t : bytes) : result str bytes :=
  match s ← from_utf8 t; pairs_decode s with Some b => Ok b | None => Err (lit "invalid symbol") end.

Lemma clean_valid b : valid_bytes (clean b).
Proof.
  unfold clean. destruct (forallb _ b) eqn:E; [|constructor]. rewrite forallb_forall in E.
  apply Forall_forall. intros x Hx%list_elem_of_In. apply E in Hx. bool_facts. done.
Qed.

Lemma clean_id b : valid_bytes b -> clean b = b.
Proof.
  intros Hb. unfold clean. replace (forallb _ b) with true; [done|]. symmetry. apply forallb_forall.
  intros x Hx%list_elem_of_In. unfold valid_bytes in Hb. rewrite Forall_forall in Hb. apply Hb in Hx.
  unfold in_range in Hx. apply andb_true_iff. rewrite !Z.leb_le. lia.
Qed.

Lemma hex_bytes_iff t b : valid_str t -> hex_bytes (utf8_encode t) = Ok b <-> valid_bytes b /\ t = hex_text b.
Proof.
  intros Ht. unfold hex_bytes. rewrite from_utf8_encode by done. cbn. split.
  - destruct (pairs_decode t) as [b'|] eqn:E; [|done]. intros [= ->].
    apply pairs_decode_Some with (n := length t) in E as [Hb ->]; [|done].
    split; [done|]. unfold hex_text. by rewrite clean_id.
  - intros [Hb ->]. unfold hex_text. by rewrite clean_id, pairs_decode_encode.
Qed.

Lemma hex_text_chars b : Forall hexish (hex_text b).
Proof. apply pairs_chars, clean_valid. Qed.

Lemma hex_text_ascii b : is_ascii (hex_text b) = true.
Proof.
  apply is_ascii_Forall. eapply Forall_impl; [apply hex_text_chars|]. unfold hexish. cbn. lia.
Qed.

Lemma hex_text_app a b : valid_bytes a -> valid_bytes b -> hex_text (a ++ b) = hex_text a ++ hex_text b.
Proof.
  intros Ha Hb. unfold hex_text. rewrite !clean_id, pairs_encode_app by (try apply Forall_app; done). done.
Qed.

Definition hexpair : Encoding := mkEncoding hex_text hex_bytes.

Lemma hexpair_form b t : padded_form hexpair b t <-> valid_bytes b /\ t = hex_text b.
Proof.
  split.
  - intros (bs & Hbs & -> & ->). split; [by apply concat_valid|].
    induction Hbs as [|x bs Hx Hbs IH]; [done|]. cbn. rewrite hex_text_app by (try apply concat_valid; done).
    f_equal. exact IH.
  - intros [Hb ->]. by apply (padded_form_self hexpair).
Qed.

Lemma hexpair_pair : EncodingPair hexpair hexpair.
Proof.
  split.
  - intros b. split; apply hex_text_ascii.
  - intros b. exists 0%nat. cbn. by rewrite app_nil_r.
  - intros b Hin. pose proof (hex_text_chars b) as Hc. rewrite Forall_forall in Hc.
    apply Hc in Hin. unfold hexish in Hin. lia.
  - intros t b Ht. rewrite hexpair_form. by apply hex_bytes_iff.
  - intros t b Ht. by apply hex_bytes_iff.
  - done.
Qed.

Lemma upper_hexish s : Forall hexish s -> to_ascii_uppercase s = s.
Proof.
  induction 1 as [|c s Hc _ IH]; [done|]. unfold to_ascii_uppercase in *. cbn. rewrite IH.
  unfold ascii_upper, hexish in *. case_match; bool_facts; [lia|done].
Qed.

Lemma upper_lower s : to_ascii_uppercase (to_ascii_lowercase s) = to_ascii_uppercase s.
Proof.
  unfold to_ascii_uppercase, to_ascii_lowercase. rewrite <- list_fmap_compose.
  apply list_fmap_ext. intros _ c _. unfold compose, ascii_lower.
  destruct (Z.leb_spec 65 c), (Z.leb_spec c 90); cbn; unfold ascii_upper; range_tests; cbn; lia.
Qed.

Lemma lower_upper s : to_ascii_lowercase (to_ascii_uppercase s) = to_ascii_lowercase s.
Proof.
  unfold to_ascii_uppercase, to_ascii_lowercase. rewrite <- list_fmap_compose.
  apply list_fmap_ext. intros _ c _. unfold compose, ascii_upper.
  destruct (Z.leb_spec 97 c), (Z.leb_spec c 122); cbn; unfold ascii_lower; range_tests; cbn; lia.
Qed.

(** ** Forms

    A pair is written as the two hexadecimal texts with an equals sign between
    them; pairs are separated by ampersands. *)

Definition pair_text (p : str * str) : str := hex_text (utf8_encode p.1) ++ 61 :: hex_text (utf8_encode p.2).
Definition form_text (ps : list (str * str)) : str := join [38] (pair_text <$> ps).

Definition field_of (t : str) : option str :=
  b ← pairs_decode t; s ← from_utf8 b; if forallb is_scalar s then Some s else None.
Definition pair_of (segment : str) : option (str * str) :=
  '(a, b) ← split_once [61] segment; n ← field_of a; v ← field_of b; Some (n, v).
Definition form_pairs (t : bytes) : list (str * str) :=
  match from_utf8 t with Some s => omap pair_of (split_char 38 s) | None => [] end.

Lemma split_char_app sep a b : sep ∉ a -> split_char sep (a ++ sep :: b) = a :: split_char sep b.
Proof.
  induction a as [|c a IH]; intros Hn; cbn; [by rewrite Z.eqb_refl|].
  apply not_elem_of_cons in Hn as [Hne Hn]. rewrite IH by done.
  by rewrite (proj2 (Z.eqb_neq c sep)) by congruence.
Qed.

Lemma split_char_none sep a : sep ∉ a -> split_char sep a = [a].
Proof.
  induction a as [|c a IH]; intros Hn; cbn; [done|]. apply not_elem_of_cons in Hn as [Hne Hn].
  rewrite IH by done. by rewrite (proj2 (Z.eqb_neq c sep)) by congruence.
Qed.

Lemma not_hexish c b : ~ hexish c -> c ∉ hex_text b.
Proof. intros Hc Hin. pose proof (hex_text_chars b) as Hf. rewrite Forall_forall in Hf. by apply Hc, Hf. Qed.

Lemma pair_text_no_amp p : 38 ∉ pair_text p.
Proof.
  unfold pair_text. rewrite elem_of_app, elem_of_cons.
  intros [Hin|[?|Hin]]; [|lia|]; revert Hin; apply not_hexish; unfold hexish; lia.
Qed.

Lemma utf8_valid s : valid_str s -> valid_bytes (utf8_encode s).
Proof.
  induction 1 as [|c s Hc _ IH]; [constructor|]. unfold utf8_encode in *. cbn. apply Forall_app. split; [|done].
  apply scalar_cases in Hc. unfold encode_char, in_range, u8_max.
  repeat case_match; bool_facts; repeat constructor; dlia.
Qed.

Lemma field_of_text s : valid_str s -> field_of (hex_text (utf8_encode s)) = Some s.
Proof.
  intros Hs. unfold field_of, hex_text. pose proof (utf8_valid _ Hs) as Hb.
  rewrite clean_id, pairs_decode_encode by done. cbn. rewrite from_utf8_encode by done. cbn.
  replace (forallb is_scalar s) with true; [done|]. symmetry. apply forallb_forall.
  intros x Hx%list_elem_of_In. unfold valid_str in Hs. rewrite Forall_forall in Hs. auto.
Qed.

Lemma pair_of_text p : valid_str p.1 -> valid_str p.2 -> pair_of (pair_text p) = Some p.
Proof.
  intros H1 H2. unfold pair_of, pair_text.
  change (61 :: hex_text (utf8_encode p.2)) with ([61] ++ hex_text (utf8_encode p.2)).
  rewrite (split_once_here 61 []) by (apply not_hexish; unfold hexish; lia). cbn.
  rewrite !field_of_text by done. by destruct p.
Qed.

Lemma form_text_chars ps : Forall (fun c => hexish c \/ c = 38 \/ c = 61) (form_text ps).
Proof.
  unfold form_text. assert (Forall (Forall (fun c => hexish c \/ c = 38 \/ c = 61)) (pair_text <$> ps)) as Hp.
  { apply Forall_fmap, Forall_true. intros p. unfold compose, pair_text. apply Forall_app. split.
    - eapply Forall_impl; [apply hex_text_chars|]. auto.
    - constructor; [auto|]. eapply Forall_impl; [apply hex_text_chars|]. auto. }
  induction Hp as [|x [|y l] Hx Hl IH]; [constructor|done|]. cbn [join] in *.
  apply Forall_app. split; [done|]. constructor; auto.
Qed.

Lemma form_text_valid ps : valid_str (form_text ps).
Proof.
  eapply Forall_impl; [apply form_text_chars|]. unfold hexish, is_scalar. cbn. intros c Hc.
  apply orb_true_iff. left. apply andb_true_iff. rewrite Z.leb_le, Z.ltb_lt. lia.
Qed.

Lemma form_pairs_text ps : valid_pairs ps -> form_pairs (utf8_encode (form_text ps)) = ps.
Proof.
  intros Hv. unfold form_pairs. rewrite from_utf8_encode by apply form_text_valid. unfold form_text.
  induction Hv as [|p [|q ps] [H1 H2] Hv IH]; [done| |].
  - cbn [fmap list_fmap join]. rewrite split_char_none by apply pair_text_no_amp. cbn. by rewrite pair_of_text.
  - cbn [fmap list_fmap join] in *. cbn [app]. rewrite split_char_app by apply pair_text_no_amp.
    cbn [omap list_omap]. rewrite pair_of_text by done. f_equal. exact IH.
Qed.

Lemma field_of_valid t s : field_of t = Some s -> valid_str s.
Proof.
  unfold field_of. intros (b & _ & (s' & _ & Hs)%bind_Some)%bind_Some.
  destruct (forallb is_scalar s') eqn:E; simplify_eq. rewrite forallb_forall in E.
  apply Forall_forall. intros x Hx%list_elem_of_In. auto.
Qed.

Lemma form_pairs_valid t : valid_pairs (form_pairs t).
Proof.
  unfold form_pairs. destruct (from_utf8 t) as [s|]; [|constructor]. apply Forall_forall. intros [n v] Hp.
  apply list_elem_of_omap in Hp as (seg & _ & Hp). unfold pair_of in Hp.
  destruct (split_once [61] seg) as [[a b]|]; [|done]. cbn in Hp.
  apply bind_Some in Hp as (n' & Hn & (v' & Hv' & [= <- <-])%bind_Some).
  split; by eapply field_of_valid.
Qed.

Module CodecDemo.
#[export] Instance data_encoding : DataEncoding := {|
  BASE64 := hexpair; BASE64_NOPAD := hexpair; BASE64URL := hexpair; BASE64URL_NOPAD := hexpair;
  BASE32 := hexpair; BASE32_NOPAD := hexpair; BASE32HEX := hexpair; BASE32HEX_NOPAD := hexpair;
|}.
#[export] Instance data_encoding_laws : DataEncodingLaws.
Proof.
  split; try apply hexpair_pair; split; intros b; apply upper_hexish, hex_text_chars.
Qed.

(** [hex]: lower case is written, both are read. *)
Definition hex_any_case (t : bytes) : result str bytes :=
  match from_utf8 t with
  | Some s => hex_bytes (utf8_encode (to_ascii_uppercase s))
  | None => Err (lit "invalid symbol")
  end.
#[export] Instance hex_lib : HexLib := {|
  hex_lib_encode := fun b => to_ascii_lowercase (hex_text b);
  hex_lib_decode := hex_any_case;
|}.
#[export] Instance hex_laws : HexLaws.
Proof.
  split.
  - intros b. apply is_ascii_Forall. cbn. unfold to_ascii_lowercase. apply Forall_fmap.
    eapply Forall_impl; [apply hex_text_chars|]. unfold hexish, ascii_lower. cbn. intros. range_tests; cbn; lia.
  - intros b. cbn. rewrite <- (lower_upper (to_ascii_lowercase _)), upper_lower. apply lower_upper.
  - intros t b Ht. cbn. unfold hex_any_case. rewrite from_utf8_encode, hex_bytes_iff by (try apply upper_valid; done).
    split; intros [Hb E]; (split; [done|]).
    + by rewrite <- E, lower_upper.
    + rewrite <- upper_lower, E, upper_lower. apply upper_hexish, hex_text_chars.
Qed.

#[export] Instance form_lib : FormLib := {| form_serialize := form_text; form_parse := form_pairs |}.
#[export] Instance form_laws : FormLaws.
Proof.
  split; cbn.
  - apply form_pairs_text.
  - intros ps. apply forallb_forall. intros c Hc%list_elem_of_In. pose proof (form_text_chars ps) as Hf.
    rewrite Forall_forall in Hf. destruct (Hf c Hc) as [[?|?]|[->| ->]]; [| |done..].
    + unfold form_char. by rewrite (proj2 (andb_true_iff _ _)) by (rewrite !Z.leb_le; lia).
    + unfold form_char. rewrite (proj2 (andb_true_iff (65 <=? c) _)) by (rewrite !Z.leb_le; lia).
      by rewrite orb_true_r.
  - apply form_pairs_valid.
Qed.

#[export] Instance messages : SerdeMessages := fun _ => lit "invalid type: expected a string".

(** ** Runs *)

Import BufferDemo.

Lemma codec_roundtrip_witness :
  exists text,
    codec_encode Base64UrlCodec JsUndefined [JsObject 2%nat; codec_variant Base64UrlCodec] world =
      Some (world, Ok (js_string_value text)) /\
    forall this' w', codec_decode Base64UrlCodec this' [js_string_value text; codec_variant Base64UrlCodec] w' =
      bytes_to_uint8_array_value [4; 5; 6] w'.
Proof.
  apply (codec_roundtrip (W:=W) Base64UrlCodec JsUndefined 2%nat world (mkSlots 0%nat 3 3) [1; 2; 3; 4; 5; 6]).
  - done.
  - repeat constructor; done.
Defined.

Lemma codec_decode_exact_witness :
  codec_decode Base32Codec JsUndefined [JsString (lit "0a0B"); codec_variant Base32Codec] world =
    bytes_to_uint8_array_value [10; 11] world /\
  exists m, codec_decode HexCodec JsUndefined [JsString (lit "0a0"); codec_variant HexCodec] world =
    Some (world, Err (from_rust m)).
Proof.
  split.
  - apply (codec_decode_exact (W:=W) Base32Codec JsUndefined (lit "0a0B") world).
    + repeat constructor; done.
    + split; [repeat constructor; done|]. right. done.
  - apply (codec_decode_exact (W:=W) HexCodec JsUndefined (lit "0a0") world).
    + repeat constructor; done.
    + intros b [Hb Hf]. cbn in Hf. apply (f_equal (fun l => Nat.odd (length l))) in Hf.
      unfold to_ascii_lowercase in Hf. rewrite !length_fmap in Hf. cbn in Hf. symmetry in Hf. revert Hf.
      unfold hex_text. generalize (clean b). intros l. induction l as [|x l IH]; [done|].
      rewrite pairs_encode_cons. exact IH.
Defined.

(** An object with two properties, not in the order of their names. *)
Definition record_world : W :=
  [DPlain [(key "b", js_string_value (lit "x=1")); (key "a", js_string_value (lit "?"))]].

Lemma form_record_roundtrip_witness :
  exists record text,
    StronglySorted (fun p q => str_lt p.1 q.1) record /\
    (forall k, btree_get k record = last_value k [(lit "b", lit "x=1"); (lit "a", lit "?")]) /\
    form_urlencode_encode JsUndefined [JsObject 0%nat] record_world = Some (record_world, Ok (js_string_value text)) /\
    forall this' w', form_urlencode_decode this' [js_string_value text] w' =
      boa (value_from_json (VObject ((fun p => (p.1, VString p.2)) <$> record))) w'.
Proof.
  apply (form_record_roundtrip (W:=W) JsUndefined (JsObject 0%nat) record_world record_world
           [(lit "b", lit "x=1"); (lit "a", lit "?")]).
  - vm_compute. reflexivity.
  - repeat constructor.
Defined.
End CodecDemo.
