(* ===== verification/MimeJs.v ===== *)
(** * MimeJs: the JavaScript side of the [mechanics:mime] module
    (src/src/internal/runtime/builtins/mime.rs)

    Reading a message from a script's object, returning a parsed message as
    objects, and the exported functions [compose] and [parse] around the text
    side of [Mime].  [collect_message] calls itself through the parts of the
    object; the script decides how deep they go, so it takes fuel. *)

From S2P Require Import Prelude Json Utf8 Str StrMap Executor JsHost BufferLike JsDemo Codecs Mime MimeProps.

Section mime_js.
Context {W O : Type} `{Boa W O} `{Base64}.
Abbreviation V := (JsValue O).
Abbreviation M := (Js W O).

(** A [TypeError] with the message of a text function. *)
Definition typed {A} (r : result str A) : M A := pure_ (map_err js_type_error r).

(** A text function with fuel. *)
Definition ran {A} (r : option (result str A)) : M A := fun w =>
  match r with Some r => typed r w | None => None end.

(** ** From JavaScript *)

Definition absent (v : V) : bool := is_undefined v || is_null v.

Definition collect_headers (value : V) : M (list Header) :=
  if absent value then mret []
  else
    object ← boa (to_object value);
    keys ← boa (own_property_keys object);
    js_collect (fun k =>
      let name := key_to_string k in
      _ ← typed (validate_header_name name);
      v ← boa (obj_get object k);
      s ← boa (to_string v);
      let value := to_std_string_lossy s in
      _ ← typed (validate_header_value value);
      mret (mkHeader name value)) keys.

Definition collect_parts (collect_message : V -> M MimeMessage) (value : V) : M (list MimeMessage) :=
  if absent value then mret []
  else
    object ← boa (to_object value);
    l ← boa (obj_get object (key "length"));
    len ← boa (to_length l);
    js_collect (fun index =>
      part ← boa (obj_get object (key_of_u64 (Z.of_nat index)));
      collect_message part) (seq 0 (Z.to_nat len)).

Definition collect_body (body_value : V) : M (option MimeBody) :=
  if absent body_value then mret None
  else
    b ← try_extract_buffer_like_bytes body_value;
    match b with
    | Some b => mret (Some (Bytes b))
    | None =>
        match as_string body_value with
        | Some _ => s ← boa (to_string body_value); mret (Some (Text (to_std_string_lossy s)))
        | None => throw (js_type_error (lit "MIME body must be a string, Uint8Array, ArrayBuffer, or DataView"))
        end
    end.

Definition collect_encoding (encoding_value : V) : M (option str) :=
  if absent encoding_value then mret None
  else s ← boa (to_string encoding_value); mret (Some (to_ascii_lowercase (to_std_string_lossy s))).

Fixpoint collect_message (fuel : nat) (value : V) : M MimeMessage :=
  match fuel with
  | 0%nat => fun _ => None
  | S fuel' =>
      object ← boa (to_object value);
      headers_value ← boa (obj_get object (key "headers"));
      headers ← collect_headers headers_value;
      parts_value ← boa (obj_get object (key "parts"));
      parts ← collect_parts (collect_message fuel') parts_value;
      body_value ← boa (obj_get object (key "body"));
      body ← collect_body body_value;
      encoding_value ← boa (obj_get object (key "encoding"));
      encoding ← collect_encoding encoding_value;
      if bool_decide (body <> None) && negb (bool_decide (parts = []))
      then throw (js_type_error (lit "MIME message must not contain both body and parts"))
      else mret (mkMime headers body parts encoding)
  end.

(** [compose]; [depth] is the fuel of the object, [fuel] that of the search
    for boundaries. *)
Definition compose (depth fuel : nat) (this : V) (args : list V) : M V :=
  message ← collect_message depth (get_or_undefined args 0);
  output ← ran (compose_text fuel message);
  mret (js_string_value output).

(** ** To JavaScript *)

Definition headers_to_js (headers : list Header) : M V :=
  object ← alloc new_object;
  _ ← js_collect (fun h => boa (obj_set object (KeyString (encode_utf16 (h_name h))) (js_string_value (h_value h)))) headers;
  mret (JsObject object).

(** The body of a message without parts. *)
Definition body_to_js (m : ParsedMessage) : M V :=
  let body := default [] (p_body m) in
  if p_text_body m then
    text ← typed (ok_or (lit "MIME text body is not UTF-8") (from_utf8 body));
    mret (js_string_value (normalize_raw_message text))
  else bytes_to_uint8_array_value body.

Fixpoint parsed_to_js (m : ParsedMessage) : M V :=
  object ← alloc new_object;
  headers ← headers_to_js (p_headers m);
  _ ← boa (obj_set object (key "headers") headers);
  _ ← match p_parts m with
      | [] => body ← body_to_js m; boa (obj_set object (key "body") body)
      | _ :: _ =>
          array ← alloc (new_array []);
          _ ← (fix go (parts : list ParsedMessage) : M () :=
                 match parts with
                 | [] => mret ()
                 | part :: rest => v ← parsed_to_js part; _ ← boa (array_push array v); go rest
                 end) (p_parts m);
          boa (obj_set object (key "parts") (JsObject array))
      end;
  mret (JsObject object).

Definition parse (this : V) (args : list V) : M V :=
  let raw_value := get_or_undefined args 0 in
  b ← try_extract_buffer_like_bytes raw_value;
  raw ← match b with
        | Some b => typed (ok_or (lit "raw MIME bytes must be UTF-8") (from_utf8 b))
        | None => s ← boa (to_string raw_value); mret (to_std_string_lossy s)
        end;
  parsed ← ran (parse_text raw);
  parsed_to_js parsed.

Definition mime_register (depth fuel : nat) : SyntheticModule (NativeFunction W O) :=
  mkSynthetic (lit "mechanics:mime")
    [(lit "compose", mkNative (lit "compose") 1 (compose depth fuel)); (lit "parse", mkNative (lit "parse") 1 parse)].
End mime_js.

(** ** Which messages are composed *)

(** What [collect_message] guarantees of a message, at every level: field
    names, values on one line, and never both a body and parts. *)
Definition header_valid (h : Header) : Prop :=
  validate_header_name (h_name h) = Ok () /\ validate_header_value (h_value h) = Ok ().

Inductive message_valid : MimeMessage -> Prop :=
| message_valid_intro m :
    Forall header_valid (m_headers m) -> Forall message_valid (m_parts m) ->
    (m_body m = None \/ m_parts m = []) -> message_valid m.

Section lemmas.
Context {W O : Type} `{Boa W O} `{Base64}.

(** A postcondition of the values a function returns, if it returns. *)
Definition returns {A} (m : Js W O A) (Q : A -> Prop) : Prop := forall w w' a, m w = Some (w', Ok a) -> Q a.

Lemma returns_bind {A B} (m : Js W O A) (f : A -> Js W O B) (R : A -> Prop) (Q : B -> Prop) :
  returns m R -> (forall a, R a -> returns (f a) Q) -> returns (m ≫= f) Q.
Proof.
  intros Hm Hf w w' b Hb. apply js_bind_Some in Hb as [(w1 & a & Ha & Hb)|(? & ? & _ & ?)]; [|done].
  eapply Hf; [by eapply Hm|done].
Qed.

Lemma returns_any {A} (m : Js W O A) : returns m (fun _ => True).
Proof. done. Qed.

Lemma returns_ret {A} (a : A) (Q : A -> Prop) : Q a -> returns (mret a) Q.
Proof. intros Ha w w' b [= _ <-]. done. Qed.

Lemma returns_throw {A} e (Q : A -> Prop) : returns (throw e) Q.
Proof. intros w w' b [= _ ?]. Qed.

Lemma returns_typed {A} (r : result (list Z) A) : returns (typed r) (fun a => r = Ok a).
Proof. intros w w' a Ha. unfold typed, pure_ in Ha. destruct r; simplify_eq/=. done. Qed.

Lemma returns_collect {A B} (f : A -> Js W O B) (l : list A) (Q : B -> Prop) :
  (forall x, returns (f x) Q) -> returns (js_collect f l) (Forall Q).
Proof.
  intros Hf. induction l as [|x l IH]; cbn [js_collect]; [apply returns_ret; constructor|].
  eapply returns_bind; [apply Hf|]. intros b Hb. eapply returns_bind; [exact IH|]. intros bs Hbs.
  apply returns_ret. by constructor.
Qed.

(** Pass over an operation whose value does not matter. *)
Ltac skip := eapply returns_bind; [apply returns_any|]; intros ? _.

Lemma collect_headers_valid (v : JsValue O) : returns (collect_headers v) (Forall header_valid).
Proof.
  unfold collect_headers. case_match; [apply returns_ret; constructor|]. do 2 skip.
  apply returns_collect. intros k. eapply returns_bind; [apply returns_typed|]. intros [] Hn. do 2 skip.
  eapply returns_bind; [apply returns_typed|]. intros [] Hv. by apply returns_ret.
Qed.

Lemma collect_message_valid fuel (v : JsValue O) : returns (collect_message fuel v) message_valid.
Proof.
  revert v. induction fuel as [|fuel IH]; intros v; [done|]. cbn [collect_message]. do 2 skip.
  eapply returns_bind; [apply collect_headers_valid|]. intros headers Hh. skip.
  eapply returns_bind with (R := Forall message_valid).
  { unfold collect_parts. case_match; [apply returns_ret; constructor|]. do 3 skip.
    apply returns_collect. intros i. skip. apply IH. }
  intros parts Hp. skip. eapply returns_bind; [apply returns_any|]. intros body _. do 2 skip.
  case_match eqn:E; [apply returns_throw|]. apply returns_ret.
  constructor; cbn; [done..|]. apply andb_false_iff in E as [E|E]; bool_facts; [left|by right].
  destruct body; [|done]. by destruct E.
Qed.
End lemmas.

(** ** Properties *)

(** C32. Whatever object a script passes, [compose] renders only messages whose
    header names are RFC 5322 field names, whose header values have no line
    breaks, and which do not have both a body and parts, at every level of
    nesting. *)
Theorem composed_messages_valid {W O : Type} `{Boa W O} `{Base64} (depth fuel : nat) (this : JsValue O)
    (args : list (JsValue O)) (w w' : W) (v : JsValue O) :
  compose depth fuel this args w = Some (w', Ok v) ->
  exists w1 m text, collect_message depth (get_or_undefined args 0) w = Some (w1, Ok m) /\ message_valid m /\
    compose_text fuel m = Some (Ok text) /\ v = js_string_value text.
Proof.
  unfold compose. intros Hc. apply js_bind_Some in Hc as [(w1 & m & Hm & Hc)|(? & ? & _ & ?)]; [|done].
  exists w1, m. apply js_bind_Some in Hc as [(w2 & text & Ht & Hc)|(? & ? & _ & ?)]; [|done].
  exists text. unfold ran in Ht. destruct (compose_text fuel m) as [r|] eqn:Hr; [|done]. apply (returns_typed (W:=W) (O:=O)) in Ht as Hok. subst r.
  split_and!; [done|by eapply collect_message_valid|done|]. by injection Hc.
Qed.

(** ** A cyclic message *)

Module MimeJsDemo.
Import BufferDemo.
#[local] Existing Instance MimeDemo.hex_codec.

(** [m.parts = [m]]: object 0 is the message, object 1 the array. *)
Definition cyclic : W := [DPlain [(key "parts", JsObject 1%nat)]; DPlain (array_props [JsObject 0%nat])].

Lemma cyclic_part (rec : JsValue nat -> Js W nat MimeMessage) :
  rec (JsObject 0%nat) cyclic = None -> collect_parts rec (JsObject 1%nat) cyclic = None.
Proof. intros Hrec. vm_compute in *. by rewrite Hrec. Qed.

(** A message that contains itself is never rejected: [collect_message]
    calls itself without end, in Rust until the stack of the host process
    overflows. *)
Theorem cyclic_parts_never_return (fuel : nat) : collect_message fuel (JsObject 0%nat) cyclic = None.
Proof.
  induction fuel as [|fuel IH]; [done|]. cbn [collect_message].
  rewrite (js_bind_ok _ _ _ cyclic 0%nat) by done. rewrite (js_bind_ok _ _ _ cyclic JsUndefined) by done.
  rewrite (js_bind_ok _ _ _ cyclic []) by done. rewrite (js_bind_ok _ _ _ cyclic (JsObject 1%nat)) by done.
  by rewrite js_bind_eq, cyclic_part.
Qed.

(** A message with two levels is read and composed. *)
Definition nested : W :=
  [DPlain [(key "parts", JsObject 1%nat)]; DPlain (array_props [JsObject 2%nat]);
   DPlain [(key "body", JsString (lit "hi")); (key "encoding", JsString (lit "7BIT"))]].

Definition nested_output : JsValue nat :=
  match compose 2 10 JsUndefined [JsObject 0%nat] nested with Some (_, Ok v) => v | _ => JsUndefined end.

Lemma composed_messages_valid_witness :
  exists w1 m text, collect_message 2 (JsObject 0%nat) nested = Some (w1, Ok m) /\ message_valid m /\
    compose_text 10 m = Some (Ok text) /\ nested_output = js_string_value text.
Proof.
  apply (composed_messages_valid 2 10 JsUndefined [JsObject 0%nat] nested nested nested_output).
  vm_compute. reflexivity.
Defined.
End MimeJsDemo.
