(* ===== verification/Url.v ===== *)
(** * Url: the [mechanics:url] module
    (src/src/internal/runtime/builtins/url.rs)

    [URL] and [URLSearchParams] objects.  The Rust values behind the objects
    are shared: a [URL] object holds an [Rc<RefCell<Url>>], the search
    parameters of a URL hold the same cell, and free-standing parameters hold
    a cell with a list of pairs.  [World] has the two kinds of cells beside
    the engine's own state, and a cell is named by its position.  The [url]
    crate is the class [UrlLib] and [FormLib]. *)

From S2P Require Import Prelude Json Utf8 Str StrMap Executor JsHost BufferLike Codecs.

Abbreviation ParamPair := (list Z * list Z)%type.

(** [enum ParamsBacking]; the numbers are cells. *)
Inductive ParamsBacking := Owned (cell : nat) | UrlBacked (cell : nat).

(** The native data of the two classes, [MechanicsUrl] and
    [MechanicsUrlSearchParams]. *)
Inductive HostData := MechanicsUrl (inner : nat) | MechanicsUrlSearchParams (backing : ParamsBacking).

(** The engine's state and the Rust cells. *)
Record World (C U : Type) := mkWorld {
  ctx : C;
  url_cells : list U;
  pair_cells : list (list ParamPair);
}.
Arguments mkWorld {C U} _ _ _.
Arguments ctx {C U} _.
Arguments url_cells {C U} _.
Arguments pair_cells {C U} _.

(** Objects with native data: [downcast_ref] and [Class::from_data]. *)
Class HostObjects (C U O : Type) := {
  host_data : O -> C -> option HostData;
  from_data : HostData -> World C U -> World C U * result (JsError (JsValue O)) O;
  symbol_iterator : Z;
}.

(** [url::Url] and [url::quirks].  A setter returns the URL it leaves behind
    and whether it succeeded. *)
Class UrlLib (U : Type) := {
  lib_parse : str -> option U;
  lib_join : U -> str -> option U;
  quirks_href : U -> str;
  quirks_origin : U -> str;
  quirks_protocol : U -> str;
  quirks_username : U -> str;
  quirks_password : U -> str;
  quirks_host : U -> str;
  quirks_hostname : U -> str;
  quirks_port : U -> str;
  quirks_pathname : U -> str;
  quirks_search : U -> str;
  quirks_hash : U -> str;
  quirks_set_href : U -> str -> U * bool;
  quirks_set_protocol : U -> str -> U * bool;
  quirks_set_username : U -> str -> U * bool;
  quirks_set_password : U -> str -> U * bool;
  quirks_set_host : U -> str -> U * bool;
  quirks_set_hostname : U -> str -> U * bool;
  quirks_set_port : U -> str -> U * bool;
  quirks_set_pathname : U -> str -> U;
  quirks_set_search : U -> str -> U;
  quirks_set_hash : U -> str -> U;
  query : U -> option str;
  query_pairs : U -> list ParamPair;
  set_query : U -> option str -> U;
}.

(** ** Lists of pairs *)

(** [pairs.retain(..)] of [params_delete]. *)
Definition delete_pairs (name : str) (value : option str) (pairs : list ParamPair) : list ParamPair :=
  filter (fun p => negb (bool_decide (p.1 = name)) ||
                   match value with Some v => negb (bool_decide (p.2 = v)) | None => false end = true) pairs.

(** [pairs.retain_mut(..)] of [params_set]: the pairs it keeps and [seen]. *)
Fixpoint set_retain (name value : str) (seen : bool) (pairs : list ParamPair) : list ParamPair * bool :=
  match pairs with
  | [] => ([], seen)
  | (n, v) :: rest =>
      if decide (n = name) then
        if seen then set_retain name value seen rest
        else let '(kept, seen') := set_retain name value true rest in ((n, value) :: kept, seen')
      else let '(kept, seen') := set_retain name value seen rest in ((n, v) :: kept, seen')
  end.
Definition set_pairs (name value : str) (pairs : list ParamPair) : list ParamPair :=
  let '(kept, seen) := set_retain name value false pairs in
  if seen then kept else kept ++ [(name, value)].

(** The stable [sort_by] on the names: an element goes in front of the later
    ones that are not smaller. *)
Fixpoint sort_insert (p : ParamPair) (sorted : list ParamPair) : list ParamPair :=
  match sorted with
  | [] => [p]
  | q :: rest => if str_leb p.1 q.1 then p :: sorted else q :: sort_insert p rest
  end.
Definition sort_pairs (pairs : list ParamPair) : list ParamPair := foldr sort_insert [] pairs.

(** [params_get], [params_get_all] and [params_has] on a snapshot. *)
Definition find_value (name : str) (pairs : list ParamPair) : option str :=
  snd <$> head (filter (fun p => p.1 = name) pairs).
Definition find_values (name : str) (pairs : list ParamPair) : list str :=
  omap (fun p => if decide (p.1 = name) then Some p.2 else None) pairs.
Definition any_pair (name : str) (value : option str) (pairs : list ParamPair) : bool :=
  existsb (fun p => bool_decide (p.1 = name) && match value with Some v => bool_decide (p.2 = v) | None => true end) pairs.

Section url.
Context {C U O : Type} `{UrlLib U} `{FormLib} `{HostObjects C U O} `{Boa (World C U) O}.
Abbreviation V := (JsValue O).
Abbreviation W := (World C U).
Abbreviation M := (Js W O).

(** ** Arguments and strings *)

Definition required_js_string (args : list V) (index : nat) (name : str) : M str :=
  pure_ (ok_or (js_type_error (name ++ lit " must be a string"))
           (to_std_string_lossy <$> as_string (get_or_undefined args index))).

Definition optional_js_string (args : list V) (index : nat) (name : str) : M (option str) :=
  let value := get_or_undefined args index in
  if is_undefined value then mret None
  else pure_ (ok_or (js_type_error (name ++ lit " must be a string when provided"))
                ((fun s => Some (to_std_string_lossy s)) <$> as_string value)).

Definition parse_url (input : str) (base : option str) : option U :=
  match base with
  | Some base => base_url ← lib_parse base; lib_join base_url input
  | None => lib_parse input
  end.

(** ** Cells *)

Definition with_url_cells (cells : list U) (w : W) : W := mkWorld (ctx w) cells (pair_cells w).
Definition with_pair_cells (cells : list (list ParamPair)) (w : W) : W := mkWorld (ctx w) (url_cells w) cells.

(** [Rc::new(RefCell::new(url))], [borrow] and a write through [borrow_mut]. *)
Definition new_url (u : U) : M nat := fun w =>
  Some (with_url_cells (url_cells w ++ [u]) w, Ok (length (url_cells w))).
Definition borrow_url (cell : nat) : M U := fun w => u ← url_cells w !! cell; Some (w, Ok u).
Definition write_url (cell : nat) (u : U) : M () := fun w =>
  _ ← url_cells w !! cell; Some (with_url_cells (<[cell := u]> (url_cells w)) w, Ok ()).

Definition new_pairs (ps : list ParamPair) : M nat := fun w =>
  Some (with_pair_cells (pair_cells w ++ [ps]) w, Ok (length (pair_cells w))).
Definition borrow_pairs (cell : nat) : M (list ParamPair) := fun w => ps ← pair_cells w !! cell; Some (w, Ok ps).
Definition write_pairs (cell : nat) (ps : list ParamPair) : M () := fun w =>
  _ ← pair_cells w !! cell; Some (with_pair_cells (<[cell := ps]> (pair_cells w)) w, Ok ()).

(** ** [this] *)

Definition invalid_this (class_ : str) : JsError V := js_type_error (lit "invalid this for " ++ class_).

Definition this_url (this : V) : M nat := fun w =>
  Some (w, match as_object this with
           | None => Err (invalid_this (lit "URL"))
           | Some o => match host_data o (ctx w) with
                       | Some (MechanicsUrl inner) => Ok inner
                       | _ => Err (invalid_this (lit "URL"))
                       end
           end).

Definition this_params (this : V) : M ParamsBacking := fun w =>
  Some (w, match as_object this with
           | None => Err (invalid_this (lit "URLSearchParams"))
           | Some o => match host_data o (ctx w) with
                       | Some (MechanicsUrlSearchParams backing) => Ok backing
                       | _ => Err (invalid_this (lit "URLSearchParams"))
                       end
           end).

(** ** Pairs of a query *)

Definition read_query_pairs (u : U) : list ParamPair := query_pairs u.
Definition encode_pairs (pairs : list ParamPair) : str := form_serialize pairs.
Definition write_query_pairs (u : U) (pairs : list ParamPair) : U :=
  if bool_decide (pairs = []) then set_query u None else set_query u (Some (encode_pairs pairs)).

(** [with_pairs]: the closure changes the list; for a URL the query is read
    before and written after. *)
Definition with_pairs (backing : ParamsBacking) (f : list ParamPair -> list ParamPair) : M () :=
  match backing with
  | Owned cell => pairs ← borrow_pairs cell; write_pairs cell (f pairs)
  | UrlBacked cell => u ← borrow_url cell; write_url cell (write_query_pairs u (f (read_query_pairs u)))
  end.

Definition snapshot_pairs (backing : ParamsBacking) : M (list ParamPair) :=
  match backing with
  | Owned cell => borrow_pairs cell
  | UrlBacked cell => u ← borrow_url cell; mret (read_query_pairs u)
  end.

Definition parse_params_string (input : str) : list ParamPair :=
  form_parse (utf8_encode (strip_prefix_or 63 input)).

(** ** Collecting pairs from an object *)

Definition is_array_like (object : O) : M bool :=
  v ← boa (obj_get object (key "length")); mret (negb (is_undefined v)).

Definition string_or (complaint : str) (v : V) : M str :=
  pure_ (ok_or (js_type_error complaint) (to_std_string_lossy <$> as_string v)).

Definition collect_pair (value : V) : M ParamPair :=
  object ← pure_ (ok_or (js_type_error (lit "URLSearchParams iterable items must be objects")) (as_object value));
  n ← boa (obj_get object (KeyIndex 0));
  name ← string_or (lit "URLSearchParams pair name must be a string") n;
  v ← boa (obj_get object (KeyIndex 1));
  value ← string_or (lit "URLSearchParams pair value must be a string") v;
  mret (name, value).

Definition collect_object_pairs (object : O) : M (list ParamPair) :=
  keys ← boa (own_property_keys object);
  js_collect (fun k =>
    let name := key_to_string k in
    v ← boa (obj_get object k);
    value ← string_or (lit "URLSearchParams object values must be strings") v;
    mret (name, value)) keys.

Definition collect_array_pairs (object : O) : M (list ParamPair) :=
  l ← boa (obj_get object (key "length"));
  len ← boa (to_length l);
  js_collect (fun index =>
    item ← boa (obj_get object (key_of_u64 (Z.of_nat index)));
    collect_pair item) (seq 0 (Z.to_nat len)).

(** ** URL: properties *)

Definition url_getter (get : U -> str) (this : V) (args : list V) : M V :=
  cell ← this_url this;
  u ← borrow_url cell;
  mret (js_string_value (get u)).

Definition url_href_get : V -> list V -> M V := url_getter quirks_href.
Definition url_origin_get : V -> list V -> M V := url_getter quirks_origin.
Definition url_protocol_get : V -> list V -> M V := url_getter quirks_protocol.
Definition url_username_get : V -> list V -> M V := url_getter quirks_username.
Definition url_password_get : V -> list V -> M V := url_getter quirks_password.
Definition url_host_get : V -> list V -> M V := url_getter quirks_host.
Definition url_hostname_get : V -> list V -> M V := url_getter quirks_hostname.
Definition url_port_get : V -> list V -> M V := url_getter quirks_port.
Definition url_pathname_get : V -> list V -> M V := url_getter quirks_pathname.
Definition url_search_get : V -> list V -> M V := url_getter quirks_search.
Definition url_hash_get : V -> list V -> M V := url_getter quirks_hash.

(** A setter that can fail leaves its URL as the library did. *)
Definition apply_url_setter (this : V) (args : list V) (name : str) (setter : U -> str -> U * bool) : M V :=
  value ← required_js_string args 0 name;
  cell ← this_url this;
  u ← borrow_url cell;
  let '(u', ok) := setter u value in
  _ ← write_url cell u';
  if ok then mret JsUndefined else throw (js_type_error (lit "invalid URL " ++ name)).

Definition url_href_set (this : V) (args : list V) : M V := apply_url_setter this args (lit "href") quirks_set_href.
Definition url_protocol_set (this : V) (args : list V) : M V := apply_url_setter this args (lit "protocol") quirks_set_protocol.
Definition url_username_set (this : V) (args : list V) : M V := apply_url_setter this args (lit "username") quirks_set_username.
Definition url_password_set (this : V) (args : list V) : M V := apply_url_setter this args (lit "password") quirks_set_password.
Definition url_host_set (this : V) (args : list V) : M V := apply_url_setter this args (lit "host") quirks_set_host.
Definition url_hostname_set (this : V) (args : list V) : M V := apply_url_setter this args (lit "hostname") quirks_set_hostname.
Definition url_port_set (this : V) (args : list V) : M V := apply_url_setter this args (lit "port") quirks_set_port.

(** The setters that cannot fail. *)
Definition url_plain_setter (this : V) (args : list V) (name : str) (setter : U -> str -> U) : M V :=
  value ← required_js_string args 0 name;
  cell ← this_url this;
  u ← borrow_url cell;
  _ ← write_url cell (setter u value);
  mret JsUndefined.

Definition url_pathname_set (this : V) (args : list V) : M V := url_plain_setter this args (lit "pathname") quirks_set_pathname.
Definition url_search_set (this : V) (args : list V) : M V := url_plain_setter this args (lit "search") quirks_set_search.
Definition url_hash_set (this : V) (args : list V) : M V := url_plain_setter this args (lit "hash") quirks_set_hash.

(** Every access makes a new object over the cell of the URL. *)
Definition url_search_params_get (this : V) (args : list V) : M V :=
  cell ← this_url this;
  o ← boa (from_data (MechanicsUrlSearchParams (UrlBacked cell)));
  mret (JsObject o).

Definition url_to_string (this : V) (args : list V) : M V := url_href_get this [].

Definition url_can_parse (this : V) (args : list V) : M V :=
  input ← required_js_string args 0 (lit "input");
  base ← optional_js_string args 1 (lit "base");
  mret (JsBoolean (match parse_url input base with Some _ => true | None => false end)).

Definition url_parse (this : V) (args : list V) : M V :=
  input ← required_js_string args 0 (lit "input");
  base ← optional_js_string args 1 (lit "base");
  match parse_url input base with
  | Some u =>
      cell ← new_url u;
      o ← boa (from_data (MechanicsUrl cell));
      mret (JsObject o)
  | None => mret JsNull
  end.

(** ** URLSearchParams: methods *)

Definition array_values_iterator (array : O) : M V :=
  f ← boa (obj_get array (key "values"));
  callable ← ask (as_callable f);
  values ← pure_ (ok_or (js_type_error (lit "Array.prototype.values is not callable")) callable);
  boa (obj_call values (JsObject array) []).

Definition pair_array (p : ParamPair) : M V :=
  o ← alloc (new_array [js_string_value p.1; js_string_value p.2]);
  mret (JsObject o).

Definition params_entries (this : V) (args : list V) : M V :=
  backing ← this_params this;
  pairs ← snapshot_pairs backing;
  entries ← js_collect pair_array pairs;
  array ← alloc (new_array entries);
  array_values_iterator array.

Definition params_keys (this : V) (args : list V) : M V :=
  backing ← this_params this;
  pairs ← snapshot_pairs backing;
  array ← alloc (new_array ((fun p : ParamPair => js_string_value p.1) <$> pairs));
  array_values_iterator array.

Definition params_values (this : V) (args : list V) : M V :=
  backing ← this_params this;
  pairs ← snapshot_pairs backing;
  array ← alloc (new_array ((fun p : ParamPair => js_string_value p.2) <$> pairs));
  array_values_iterator array.

Definition params_append (this : V) (args : list V) : M V :=
  name ← required_js_string args 0 (lit "name");
  value ← required_js_string args 1 (lit "value");
  backing ← this_params this;
  _ ← with_pairs backing (fun pairs => pairs ++ [(name, value)]);
  mret JsUndefined.

Definition params_delete (this : V) (args : list V) : M V :=
  name ← required_js_string args 0 (lit "name");
  value ← optional_js_string args 1 (lit "value");
  backing ← this_params this;
  _ ← with_pairs backing (delete_pairs name value);
  mret JsUndefined.

Definition params_get (this : V) (args : list V) : M V :=
  name ← required_js_string args 0 (lit "name");
  backing ← this_params this;
  pairs ← snapshot_pairs backing;
  mret (match find_value name pairs with Some value => js_string_value value | None => JsNull end).

Definition params_get_all (this : V) (args : list V) : M V :=
  name ← required_js_string args 0 (lit "name");
  backing ← this_params this;
  pairs ← snapshot_pairs backing;
  o ← alloc (new_array (js_string_value <$> find_values name pairs));
  mret (JsObject o).

Definition params_has (this : V) (args : list V) : M V :=
  name ← required_js_string args 0 (lit "name");
  value ← optional_js_string args 1 (lit "value");
  backing ← this_params this;
  pairs ← snapshot_pairs backing;
  mret (JsBoolean (any_pair name value pairs)).

Definition params_set (this : V) (args : list V) : M V :=
  name ← required_js_string args 0 (lit "name");
  value ← required_js_string args 1 (lit "value");
  backing ← this_params this;
  _ ← with_pairs backing (set_pairs name value);
  mret JsUndefined.

Definition params_sort (this : V) (args : list V) : M V :=
  backing ← this_params this;
  _ ← with_pairs backing sort_pairs;
  mret JsUndefined.

Definition params_to_string (this : V) (args : list V) : M V :=
  backing ← this_params this;
  pairs ← snapshot_pairs backing;
  mret (js_string_value (encode_pairs pairs)).

(** The callback sees the pairs as they were when the loop began. *)
Definition params_for_each (this : V) (args : list V) : M V :=
  callable ← ask (as_callable (get_or_undefined args 0));
  callback ← pure_ (ok_or (js_type_error (lit "callback must be callable")) callable);
  let this_arg := get_or_undefined args 1 in
  backing ← this_params this;
  pairs ← snapshot_pairs backing;
  _ ← js_collect (fun p : ParamPair =>
        boa (obj_call callback this_arg [js_string_value p.2; js_string_value p.1; this])) pairs;
  mret JsUndefined.

Definition i32_max : Z := 2 ^ 31 - 1.

Definition params_size_get (this : V) (args : list V) : M V :=
  backing ← this_params this;
  pairs ← snapshot_pairs backing;
  size ← pure_ (ok_or (js_type_error (lit "URLSearchParams size overflow")) (try_from i32_max (Z.of_nat (length pairs))));
  mret (JsInt size).

(** ** Classes *)

(** [Class::data_constructor] of the two classes. *)
Definition url_data_constructor (args : list V) : M HostData :=
  input ← required_js_string args 0 (lit "input");
  base ← optional_js_string args 1 (lit "base");
  parsed ← pure_ (ok_or (js_type_error (lit "invalid URL")) (parse_url input base));
  cell ← new_url parsed;
  mret (MechanicsUrl cell).

Definition params_data_constructor (args : list V) : M HostData :=
  let init := get_or_undefined args 0 in
  pairs ←
    (if is_undefined init || is_null init then mret []
     else match as_string init with
          | Some text => mret (parse_params_string (to_std_string_lossy text))
          | None =>
              match as_object init with
              | Some object =>
                  array_like ← is_array_like object;
                  if (array_like : bool) then collect_array_pairs object else collect_object_pairs object
              | None => throw (js_type_error (lit "URLSearchParams init must be a string or object"))
              end
          end);
  cell ← new_pairs pairs;
  mret (MechanicsUrlSearchParams (Owned cell)).

(** [new URL(..)] and [new URLSearchParams(..)]: the engine makes the object
    for the data. *)
Definition construct (data_constructor : list V -> M HostData) (this : V) (args : list V) : M V :=
  data ← data_constructor args;
  o ← boa (from_data data);
  mret (JsObject o).

(** What [Class::init] declares: accessors, methods by key, static methods. *)
Record ClassSpec := mkClass {
  class_name : str;
  class_length : Z;
  class_constructor : V -> list V -> M V;
  class_accessors : list (str * (V -> list V -> M V) * option (V -> list V -> M V));
  class_methods : list (PropertyKey * Z * (V -> list V -> M V));
  class_statics : list (PropertyKey * Z * (V -> list V -> M V));
}.

Definition url_class : ClassSpec := {|
  class_name := lit "URL";
  class_length := 1;
  class_constructor := construct url_data_constructor;
  class_accessors :=
    [(lit "href", url_href_get, Some url_href_set);
     (lit "origin", url_origin_get, None);
     (lit "protocol", url_protocol_get, Some url_protocol_set);
     (lit "username", url_username_get, Some url_username_set);
     (lit "password", url_password_get, Some url_password_set);
     (lit "host", url_host_get, Some url_host_set);
     (lit "hostname", url_hostname_get, Some url_hostname_set);
     (lit "port", url_port_get, Some url_port_set);
     (lit "pathname", url_pathname_get, Some url_pathname_set);
     (lit "search", url_search_get, Some url_search_set);
     (lit "searchParams", url_search_params_get, None);
     (lit "hash", url_hash_get, Some url_hash_set)];
  class_methods := [(key "toString", 0, url_to_string); (key "toJSON", 0, url_to_string)];
  class_statics := [(key "canParse", 1, url_can_parse); (key "parse", 1, url_parse)];
|}.

Definition params_class : ClassSpec := {|
  class_name := lit "URLSearchParams";
  class_length := 0;
  class_constructor := construct params_data_constructor;
  class_accessors := [(lit "size", params_size_get, None)];
  class_methods :=
    [(key "append", 2, params_append); (key "delete", 1, params_delete); (key "get", 1, params_get);
     (key "getAll", 1, params_get_all); (key "has", 1, params_has); (key "set", 2, params_set);
     (key "sort", 0, params_sort); (key "toString", 0, params_to_string);
     (key "entries", 0, params_entries); (key "keys", 0, params_keys); (key "values", 0, params_values);
     (key "forEach", 1, params_for_each); (KeySymbol symbol_iterator, 0, params_entries)];
  class_statics := [];
|}.

(** [register]: the exports of the module. *)
Definition url_register : SyntheticModule ClassSpec :=
  mkSynthetic (lit "mechanics:url") [(lit "default", url_class); (lit "URLSearchParams", params_class)].
End url.
