(* ===== verification/UrlProps.v ===== *)
(** * UrlProps: the properties of the [mechanics:url] module

    The list operations against the WHATWG definitions of URLSearchParams;
    the methods of the objects against these lists, with the live binding of
    [url.searchParams]; and the constructors and accessors of [URL] objects
    against the components of the URL they hold. *)

From S2P Require Import Prelude Json Utf8 Str StrMap Executor JsHost BufferLike Codecs Url.

(** ** Reference definitions

    The URL standard's operations on the list of a URLSearchParams object. *)

Definition spec_set (name value : str) (l : list ParamPair) : list ParamPair :=
  match list_find (fun p => p.1 = name) l with
  | Some (i, _) => take i l ++ (name, value) :: filter (fun p => p.1 <> name) (drop (S i) l)
  | None => l ++ [(name, value)]
  end.

Definition spec_delete (name : str) (value : option str) (l : list ParamPair) : list ParamPair :=
  match value with
  | None => filter (fun p => p.1 <> name) l
  | Some v => filter (fun p => p <> (name, v)) l
  end.

(** A stable sort by name: the same pairs, in the order [le] of the names,
    those of one name in their old order. *)
Definition sorted_stably (le : str -> str -> Prop) (l l' : list ParamPair) : Prop :=
  l' ≡ₚ l /\ StronglySorted (fun p q => le p.1 q.1) l' /\
  forall name, filter (fun p => p.1 = name) l' = filter (fun p => p.1 = name) l.

(** The URL standard's order of names, by UTF-16 code units, and names without
    a character above U+FFFF, where that is the order of the characters. *)
Definition units_le (a b : str) : Prop := lex_le (encode_utf16 a) (encode_utf16 b).
Definition bmp_names (l : list ParamPair) : Prop := Forall (fun p => Forall (fun c => c < 0x10000) p.1) l.

(** ** The list operations meet them *)

Lemma set_retain_seen name value l :
  set_retain name value true l = (filter (fun p => p.1 <> name) l, true).
Proof.
  induction l as [|[n v] l IH]; [done|]. cbn [set_retain]. case_decide as E.
  - rewrite IH, filter_cons_False by (cbn; naive_solver). done.
  - rewrite IH, filter_cons_True by done. done.
Qed.

Lemma set_pairs_spec name value l : set_pairs name value l = spec_set name value l.
Proof.
  unfold set_pairs, spec_set. induction l as [|[n v] l IH]; [done|]. cbn [set_retain list_find].
  destruct (decide (n = name)) as [->|Hne].
  - rewrite set_retain_seen. rewrite decide_True by done. done.
  - rewrite decide_False by done. destruct (set_retain name value false l) as [kept seen].
    destruct (list_find (fun p => p.1 = name) l) as [[i p]|]; cbn [fmap option_fmap option_map prod_map].
    + destruct seen; cbn; by rewrite IH.
    + destruct seen; cbn; by rewrite IH.
Qed.

Lemma delete_pairs_spec name value l : delete_pairs name value l = spec_delete name value l.
Proof.
  unfold delete_pairs, spec_delete. destruct value as [v|]; apply list_filter_iff; intros [n x]; cbn.
  - rewrite orb_true_iff, !negb_true_iff, !bool_decide_eq_false. split; [naive_solver|].
    intros Hne. destruct (decide (n = name)); naive_solver.
  - by rewrite orb_false_r, negb_true_iff, bool_decide_eq_false.
Qed.

Lemma sort_insert_perm p l : sort_insert p l ≡ₚ p :: l.
Proof.
  induction l as [|q l IH]; [done|]. cbn. case_match; [done|]. rewrite IH. apply Permutation_swap.
Qed.

Lemma sort_insert_sorted p l :
  StronglySorted (fun p q : ParamPair => str_leb p.1 q.1 = true) l ->
  StronglySorted (fun p q : ParamPair => str_leb p.1 q.1 = true) (sort_insert p l).
Proof.
  induction 1 as [|q l Hs IH Hq]; cbn; [by repeat constructor|]. destruct (str_leb p.1 q.1) eqn:E.
  - constructor; [by constructor|]. constructor; [done|]. eapply Forall_impl; [exact Hq|].
    intros r Hr. by eapply str_leb_trans.
  - constructor; [done|]. rewrite sort_insert_perm. constructor; [|done].
    destruct (str_leb_total p.1 q.1); congruence.
Qed.

Lemma str_leb_refl a : str_leb a a = true.
Proof. destruct (str_leb_total a a); done. Qed.

Lemma sort_insert_stable name p l :
  filter (fun q : ParamPair => q.1 = name) (sort_insert p l) =
  filter (fun q : ParamPair => q.1 = name) (p :: l).
Proof.
  induction l as [|q l IH]; [done|]. cbn [sort_insert]. destruct (str_leb p.1 q.1) eqn:E; [done|].
  rewrite !filter_cons, IH, filter_cons. repeat case_decide; try done.
  assert (p.1 = q.1) as Heq by congruence. by rewrite Heq, str_leb_refl in E.
Qed.

Lemma sort_pairs_stable l : sorted_stably (fun a b => str_leb a b = true) l (sort_pairs l).
Proof.
  unfold sorted_stably, sort_pairs. induction l as [|p l (IHp & IHs & IHf)]; [by repeat constructor|]. cbn.
  split_and!; [by rewrite sort_insert_perm, IHp|by apply sort_insert_sorted|].
  intros name. rewrite sort_insert_stable, !filter_cons, IHf. done.
Qed.

Lemma encode_utf16_bmp s : Forall (fun c => c < 0x10000) s -> encode_utf16 s = s.
Proof.
  unfold encode_utf16. induction 1 as [|c s Hc _ IH]; [done|]. cbn. unfold utf16_char at 1.
  rewrite (proj2 (Z.ltb_lt _ _)) by done. cbn. by rewrite IH.
Qed.

Lemma sorted_stably_impl (P : str -> Prop) (le le' : str -> str -> Prop) l l' :
  (forall a b, P a -> P b -> le a b -> le' a b) -> Forall (fun p => P p.1) l ->
  sorted_stably le l l' -> sorted_stably le' l l'.
Proof.
  intros Hle HP (Hp & Hs & Hf). split_and!; [done| |done]. clear Hf. rewrite <- Hp in HP. clear Hp.
  induction Hs as [|p l' Hs IH Hq]; [constructor|]. apply Forall_cons in HP as [Hp HP].
  constructor; [by apply IH|]. rewrite Forall_forall in *. intros q Hin. apply Hle; [done|by apply HP|by apply Hq].
Qed.

(** What [sort] does: it orders the names by their characters, which for
    names without a character above U+FFFF is the standard's order. *)
Lemma sort_pairs_spec l : valid_pairs l ->
  sorted_stably lex_le l (sort_pairs l) /\ (bmp_names l -> sorted_stably units_le l (sort_pairs l)).
Proof.
  intros Hv. assert (sorted_stably lex_le l (sort_pairs l)) as Hs.
  { eapply (sorted_stably_impl valid_str); [| |apply sort_pairs_stable].
    - intros a b Ha Hb. by apply str_leb_lex.
    - eapply Forall_impl; [exact Hv|]. by intros p [? ?]. }
  split; [done|]. intros Hb. eapply (sorted_stably_impl (Forall (fun c => c < 0x10000))); [|exact Hb|exact Hs].
  intros a b Ha Hb'. unfold units_le. by rewrite !encode_utf16_bmp.
Qed.

Lemma find_value_first name l : find_value name l = head (find_values name l).
Proof.
  unfold find_value, find_values. induction l as [|[n v] l IH]; [done|]. rewrite filter_cons. cbn.
  case_decide; [done|exact IH].
Qed.

Lemma any_pair_spec name value l :
  any_pair name value l = true <-> exists v, (name, v) ∈ l /\ match value with Some x => v = x | None => True end.
Proof.
  unfold any_pair. rewrite existsb_exists. split.
  - intros ([n v] & Hin%list_elem_of_In & Hp). bool_facts. subst. exists v. split; [done|].
    destruct value; [by bool_facts|done].
  - intros (v & Hin & Hv). exists (name, v). split; [by apply list_elem_of_In|]. cbn.
    rewrite bool_decide_true by done. destruct value; [by rewrite bool_decide_true|done].
Qed.

(** Validity of the strings. *)
Lemma valid_filter (P : ParamPair -> Prop) `{forall x, Decision (P x)} l : valid_pairs l -> valid_pairs (filter P l).
Proof.
  unfold valid_pairs. rewrite !Forall_forall. intros Hl x [_ Hx]%list_elem_of_filter. auto.
Qed.

Lemma set_pairs_valid name value l : valid_str name -> valid_str value -> valid_pairs l ->
  valid_pairs (set_pairs name value l).
Proof.
  intros Hn Hv Hl. rewrite set_pairs_spec. unfold spec_set. destruct (list_find _ l) as [[i p]|].
  - apply Forall_app. split; [by apply Forall_take|]. constructor; [done|]. by apply valid_filter, Forall_drop.
  - apply Forall_app. split; [done|]. by repeat constructor.
Qed.

Lemma delete_pairs_valid name value l : valid_pairs l -> valid_pairs (delete_pairs name value l).
Proof. apply valid_filter. Qed.

Lemma sort_pairs_valid l : valid_pairs l -> valid_pairs (sort_pairs l).
Proof. destruct (sort_pairs_stable l) as (Hp & _). unfold valid_pairs. by rewrite Hp. Qed.

Lemma append_valid name value l : valid_str name -> valid_str value -> valid_pairs l ->
  valid_pairs (l ++ [(name, value)]).
Proof. intros. apply Forall_app. split; [done|]. by repeat constructor. Qed.

(** ** Laws *)

(** The [url] crate: [query_pairs] parses the query as a form, [set_query]
    stores a query that needs no escaping as it is, and what is read is text. *)
Class UrlLaws (U : Type) `{UrlLib U} `{FormLib} : Prop := {
  query_pairs_form : forall u, query_pairs u = form_parse (utf8_encode (default [] (query u)));
  query_unset : forall u, query (set_query u None) = None;
  query_set : forall u q, forallb form_char q = true -> query (set_query u (Some q)) = Some q;
  form_parse_empty : form_parse [] = [];
  quirks_valid : Forall (fun get => forall u, valid_str (get u))
    [quirks_href; quirks_origin; quirks_protocol; quirks_username; quirks_password; quirks_host;
     quirks_hostname; quirks_port; quirks_pathname; quirks_search; quirks_hash];
}.

(** Boa's [Class::from_data]: a new object with the data; it runs no script
    code, so that no cell changes, and no object loses its data. *)
Class HostLaws (C U O : Type) `{HostObjects C U O} : Prop := {
  from_data_fresh : forall h w w1 o, from_data h w = (w1, Ok o) ->
    host_data o (ctx w1) = Some h /\ url_cells w1 = url_cells w /\ pair_cells w1 = pair_cells w /\
    forall o' h', host_data o' (ctx w) = Some h' -> host_data o' (ctx w1) = Some h';
}.

Section url_laws.
Context {C U O : Type} `{UrlLib U} `{FormLib} `{!FormLaws} `{!UrlLaws U} `{HostObjects C U O} `{Boa (World C U) O}.
Abbreviation W := (World C U).

(** What was written is what is read. *)
Lemma read_write_pairs (u : U) ps : valid_pairs ps -> read_query_pairs (write_query_pairs u ps) = ps.
Proof.
  intros Hv. unfold read_query_pairs, write_query_pairs, encode_pairs. rewrite query_pairs_form.
  case_bool_decide as E; [subst; rewrite query_unset; cbn; apply form_parse_empty|].
  rewrite query_set by apply form_chars. by apply form_roundtrip.
Qed.

Lemma read_pairs_valid (u : U) : valid_pairs (read_query_pairs u).
Proof. unfold read_query_pairs. rewrite query_pairs_form. apply form_parse_valid. Qed.

(** ** Cells *)

(** The pairs behind a backing, and the state after they are replaced. *)
Definition pairs_of (b : ParamsBacking) (w : W) : option (list ParamPair) :=
  match b with
  | Owned cell => pair_cells w !! cell
  | UrlBacked cell => read_query_pairs <$> url_cells w !! cell
  end.

Definition put_pairs (b : ParamsBacking) (ps : list ParamPair) (w : W) : W :=
  match b with
  | Owned cell => with_pair_cells (<[cell := ps]> (pair_cells w)) w
  | UrlBacked cell => with_url_cells (alter (fun u => write_query_pairs u ps) cell (url_cells w)) w
  end.

Lemma snapshot_run b w ps : pairs_of b w = Some ps -> snapshot_pairs (O:=O) b w = Some (w, Ok ps).
Proof.
  destruct b; cbn; unfold borrow_pairs, borrow_url; intros Hp; [by rewrite Hp|].
  apply fmap_Some in Hp as (u & Hu & ->). rewrite js_bind_eq, Hu. done.
Qed.

Lemma with_pairs_run b f w ps : pairs_of b w = Some ps ->
  with_pairs (O:=O) b f w = Some (put_pairs b (f ps) w, Ok ()).
Proof.
  destruct b; cbn; unfold borrow_pairs, borrow_url, write_pairs, write_url; intros Hp.
  - rewrite js_bind_eq, Hp. cbn. by rewrite Hp.
  - apply fmap_Some in Hp as (u & Hu & ->). rewrite js_bind_eq, Hu. cbn. rewrite Hu. cbn.
    do 3 f_equal. apply list_eq. intros i.
    destruct (decide (i = cell)) as [->|Hne].
    + rewrite list_lookup_insert_eq, list_lookup_alter_eq, Hu by (by eapply lookup_lt_Some). done.
    + by rewrite list_lookup_insert_ne, list_lookup_alter_ne by done.
Qed.

Global Instance ParamsBacking_eq_dec : EqDecision ParamsBacking.
Proof. solve_decision. Defined.

(** Every view of the same cell sees the new pairs; no other is changed. *)
Lemma pairs_of_put b b' ps w : is_Some (pairs_of b w) -> valid_pairs ps ->
  pairs_of b' (put_pairs b ps w) = if decide (b' = b) then Some ps else pairs_of b' w.
Proof.
  intros [l Hl] Hv. destruct b as [c|c], b' as [c'|c']; cbn in *; case_decide; simplify_eq; try done.
  - apply list_lookup_insert_eq. by eapply lookup_lt_Some.
  - apply list_lookup_insert_ne. congruence.
  - apply fmap_Some in Hl as (u & Hu & ->). rewrite list_lookup_alter_eq, Hu. cbn. by rewrite read_write_pairs.
  - rewrite list_lookup_alter_ne by congruence. done.
Qed.
End url_laws.

(** ** The methods *)

(** The mutating methods with their arguments as JavaScript strings. *)
Inductive ParamsOp :=
| OpAppend (name value : list Z)
| OpDelete (name : list Z) (value : option (list Z))
| OpSet (name value : list Z)
| OpSort.

Definition units_ok (op : ParamsOp) : Prop :=
  match op with
  | OpAppend n v | OpSet n v => valid_units n /\ valid_units v
  | OpDelete n v => valid_units n /\ match v with Some v => valid_units v | None => True end
  | OpSort => True
  end.

(** What each does to the list, as the URL standard says; [sort] orders by
    characters and meets the standard's order by code units for names without
    a character above U+FFFF. *)
Definition op_spec (op : ParamsOp) (l l' : list ParamPair) : Prop :=
  match op with
  | OpAppend n v => l' = l ++ [(to_std_string_lossy n, to_std_string_lossy v)]
  | OpDelete n v => l' = spec_delete (to_std_string_lossy n) (to_std_string_lossy <$> v) l
  | OpSet n v => l' = spec_set (to_std_string_lossy n) (to_std_string_lossy v) l
  | OpSort => sorted_stably lex_le l l' /\ (bmp_names l -> sorted_stably units_le l l')
  end.

Section methods.
Context {C U O : Type} `{UrlLib U} `{FormLib} `{!FormLaws} `{!UrlLaws U} `{HostObjects C U O} `{Boa (World C U) O}.
Abbreviation W := (World C U).
Implicit Types (w : W) (o : O).

Definition run_op (op : ParamsOp) (this : JsValue O) : Js W O (JsValue O) :=
  match op with
  | OpAppend n v => params_append this [JsString n; JsString v]
  | OpDelete n None => params_delete this [JsString n]
  | OpDelete n (Some v) => params_delete this [JsString n; JsString v]
  | OpSet n v => params_set this [JsString n; JsString v]
  | OpSort => params_sort this []
  end.

(** The list function a method passes to [with_pairs]. *)
Definition op_fun (op : ParamsOp) (l : list ParamPair) : list ParamPair :=
  match op with
  | OpAppend n v => l ++ [(to_std_string_lossy n, to_std_string_lossy v)]
  | OpDelete n v => delete_pairs (to_std_string_lossy n) (to_std_string_lossy <$> v) l
  | OpSet n v => set_pairs (to_std_string_lossy n) (to_std_string_lossy v) l
  | OpSort => sort_pairs l
  end.

Lemma op_fun_spec op l : valid_pairs l -> op_spec op l (op_fun op l).
Proof.
  intros Hv. destruct op; cbn; [done|apply delete_pairs_spec|apply set_pairs_spec|by apply sort_pairs_spec].
Qed.

Lemma op_fun_valid op l : units_ok op -> valid_pairs l -> valid_pairs (op_fun op l).
Proof.
  destruct op as [n v|n v|n v|]; cbn.
  - intros [? ?] ?. apply append_valid; auto using to_std_string_lossy_valid.
  - intros _ ?. by apply delete_pairs_valid.
  - intros [? ?] ?. apply set_pairs_valid; auto using to_std_string_lossy_valid.
  - intros _ ?. by apply sort_pairs_valid.
Qed.

Lemma this_params_run o w b : host_data o (ctx w) = Some (MechanicsUrlSearchParams b) ->
  this_params (JsObject o) w = Some (w, Ok b).
Proof. intros Hh. unfold this_params. cbn. by rewrite Hh. Qed.

Lemma this_url_run o w c : host_data o (ctx w) = Some (MechanicsUrl c) -> this_url (JsObject o) w = Some (w, Ok c).
Proof. intros Hh. unfold this_url. cbn. by rewrite Hh. Qed.

Lemma run_op_run op o w b ps :
  host_data o (ctx w) = Some (MechanicsUrlSearchParams b) -> pairs_of b w = Some ps ->
  run_op op (JsObject o) w = Some (put_pairs b (op_fun op ps) w, Ok JsUndefined).
Proof.
  intros Hh Hp. assert (forall f, (b ← this_params (JsObject o); _ ← with_pairs b f; mret (M:=Js W O) (JsUndefined (O:=O))) w =
    Some (put_pairs b (f ps) w, Ok JsUndefined)) as Hrun.
  { intros f. rewrite js_bind_eq, (this_params_run _ _ _ Hh), js_bind_eq, (with_pairs_run _ _ _ _ Hp). done. }
  destruct op as [n v|n [v|]|n v|]; exact (Hrun _).
Qed.

Lemma put_pairs_ctx b ps w : ctx (put_pairs b ps w) = ctx w.
Proof. by destruct b. Qed.

(** C13. The mutating methods of URLSearchParams do to the list of pairs what
    the URL standard's definitions say for append, delete with and without a
    value, and set, which replaces the first pair and removes the others;
    [sort] is a stable sort of the names by their characters, which is the
    standard's sort by UTF-16 code units exactly as far as no name has a
    character above U+FFFF.  All this whether the pairs are the object's own
    or the query of a URL; pairs in other cells do not change. *)
Theorem params_methods_meet_spec (op : ParamsOp) (o : O) (w : World C U) (b : ParamsBacking) (l : list ParamPair) :
  host_data o (ctx w) = Some (MechanicsUrlSearchParams b) -> pairs_of b w = Some l ->
  valid_pairs l -> units_ok op ->
  exists w' l', run_op op (JsObject o) w = Some (w', Ok JsUndefined) /\
    op_spec op l l' /\ pairs_of b w' = Some l' /\ ctx w' = ctx w /\
    forall b', b' <> b -> pairs_of b' w' = pairs_of b' w.
Proof.
  intros Hh Hp Hv Hu. exists (put_pairs b (op_fun op l) w), (op_fun op l).
  pose proof (op_fun_valid op l Hu Hv) as Hv'.
  assert (is_Some (pairs_of b w)) as Hs by eauto.
  split_and!; [by apply run_op_run|by apply op_fun_spec| |apply put_pairs_ctx|].
  - rewrite pairs_of_put by done. by rewrite decide_True.
  - intros b' Hne. rewrite pairs_of_put by done. by rewrite decide_False.
Qed.

(** The reading methods answer from the list: [get] the first value of a
    name or null, [has] whether there is a matching pair, [toString] the
    encoding of all pairs, [size] their number; none of them changes
    anything. *)
Theorem params_reads_meet_spec (name : list Z) (value : option (list Z)) (o : O) (w : World C U) (b : ParamsBacking)
    (l : list ParamPair) :
  host_data o (ctx w) = Some (MechanicsUrlSearchParams b) -> pairs_of b w = Some l ->
  params_get (JsObject o) [JsString name] w =
    Some (w, Ok match head (find_values (to_std_string_lossy name) l) with
                | Some v => js_string_value v
                | None => JsNull
                end) /\
  (exists r, params_has (JsObject o) (JsString name :: match value with Some v => [JsString v] | None => [] end) w =
      Some (w, Ok (JsBoolean r)) /\
    (r = true <-> exists v, (to_std_string_lossy name, v) ∈ l /\
      match value with Some x => v = to_std_string_lossy x | None => True end)) /\
  params_to_string (JsObject o) [] w = Some (w, Ok (js_string_value (form_serialize l))) /\
  (Z.of_nat (length l) <= i32_max -> params_size_get (JsObject o) [] w = Some (w, Ok (JsInt (Z.of_nat (length l))))).
Proof.
  intros Hh Hp. pose proof (this_params_run _ _ _ Hh) as Ht. pose proof (snapshot_run (O:=O) _ _ _ Hp) as Hs.
  assert (forall A (k : list ParamPair -> Js W O A), (b ← this_params (JsObject o); ps ← snapshot_pairs b; k ps) w = k l w) as Hrun.
  { intros A k. by rewrite js_bind_eq, Ht, js_bind_eq, Hs. }
  split_and!.
  - rewrite <- find_value_first. exact (Hrun _ _).
  - exists (any_pair (to_std_string_lossy name) (to_std_string_lossy <$> value) l). split.
    + destruct value; exact (Hrun _ _).
    + rewrite any_pair_spec. by destruct value.
  - exact (Hrun _ _).
  - intros Hl. unfold params_size_get. rewrite Hrun. rewrite js_bind_eq. unfold pure_.
    rewrite (proj2 (try_from_Some i32_max _ _)) by (split; [done|]; unfold in_range; lia). done.
Qed.

(** *** [url.searchParams] *)

Context `{!HostLaws C U O}.

(** Reading [url.searchParams] gives an object over the URL's own cell. *)
Lemma search_params_get_run url w w1 c v :
  host_data url (ctx w) = Some (MechanicsUrl c) ->
  url_search_params_get (JsObject url) [] w = Some (w1, Ok v) ->
  exists p, v = JsObject p /\ host_data p (ctx w1) = Some (MechanicsUrlSearchParams (UrlBacked c)) /\
    url_cells w1 = url_cells w /\
    forall o h, host_data o (ctx w) = Some h -> host_data o (ctx w1) = Some h.
Proof.
  intros Hu. unfold url_search_params_get. intros (w2 & c' & Hc & Hrun)%host_bind_Ok.
  rewrite (this_url_run _ _ _ Hu) in Hc. injection Hc as <- <-.
  apply host_bind_Ok in Hrun as (w3 & p & Hp%boa_Ok & Hrun). injection Hrun as <- <-.
  destruct (from_data_fresh _ _ _ _ Hp) as (Hd & Hcells & _ & Hold). eauto 8.
Qed.

Lemma params_to_string_run p w b l :
  host_data p (ctx w) = Some (MechanicsUrlSearchParams b) -> pairs_of b w = Some l ->
  params_to_string (JsObject p) [] w = Some (w, Ok (js_string_value (form_serialize l))).
Proof.
  intros Hp Hl. unfold params_to_string. rewrite js_bind_eq, (this_params_run _ _ b) by done.
  by rewrite js_bind_eq, (snapshot_run _ _ _ Hl).
Qed.

(** A change through one parameter object of a URL. *)
Lemma live_change op (url p1 p2 : O) w c u :
  host_data url (ctx w) = Some (MechanicsUrl c) ->
  host_data p1 (ctx w) = Some (MechanicsUrlSearchParams (UrlBacked c)) ->
  host_data p2 (ctx w) = Some (MechanicsUrlSearchParams (UrlBacked c)) ->
  url_cells w !! c = Some u -> units_ok op ->
  exists w' u' l', run_op op (JsObject p1) w = Some (w', Ok JsUndefined) /\
    op_spec op (read_query_pairs u) l' /\
    params_to_string (JsObject p2) [] w' = Some (w', Ok (js_string_value (form_serialize l'))) /\
    url_search_get (JsObject url) [] w' = Some (w', Ok (js_string_value (quirks_search u'))) /\
    query u' = if decide (l' = []) then None else Some (form_serialize l').
Proof.
  intros Hurl Hh1 Hh2 Hu Hok. assert (pairs_of (UrlBacked c) w = Some (read_query_pairs u)) as Hp by (cbn; by rewrite Hu).
  set (l' := op_fun op (read_query_pairs u)). set (w' := put_pairs (UrlBacked c) l' w).
  assert (valid_pairs l') as Hv by (apply op_fun_valid; [done|apply read_pairs_valid]).
  assert (pairs_of (UrlBacked c) w' = Some l') as Hp'.
  { unfold w'. rewrite pairs_of_put by (try done; by eexists). by rewrite decide_True. }
  assert (url_cells w' !! c = Some (write_query_pairs u l')) as Hc by (cbn; rewrite list_lookup_alter_eq, Hu; done).
  exists w', (write_query_pairs u l'), l'. split_and!.
  - by apply run_op_run.
  - apply op_fun_spec, read_pairs_valid.
  - by eapply params_to_string_run.
  - unfold url_search_get, url_getter. rewrite js_bind_eq, (this_url_run _ _ c) by done.
    rewrite js_bind_eq. unfold borrow_url. by rewrite Hc.
  - unfold write_query_pairs, encode_pairs. case_bool_decide; case_decide; try done.
    + apply query_unset.
    + apply query_set, form_chars.
Qed.

(** C15. [url.searchParams] is live in both directions.  Read the property twice
    from a URL object (each read makes a new object): a change through the
    first object is at once seen through the second and through the URL,
    whose query is exactly the encoded pairs, starting from the pairs of the
    URL's own query; and a change of [url.search] is seen through the
    objects read before. *)
Theorem search_params_live (op : ParamsOp) (url : O) (v1 v2 : JsValue O) (w w1 w2 : World C U) (c : nat) (u : U) (text : list Z) :
  host_data url (ctx w) = Some (MechanicsUrl c) -> url_cells w !! c = Some u -> units_ok op ->
  url_search_params_get (JsObject url) [] w = Some (w1, Ok v1) ->
  url_search_params_get (JsObject url) [] w1 = Some (w2, Ok v2) ->
  (exists w' u' l', run_op op v1 w2 = Some (w', Ok JsUndefined) /\
     op_spec op (read_query_pairs u) l' /\
     params_to_string v2 [] w' = Some (w', Ok (js_string_value (form_serialize l'))) /\
     url_search_get (JsObject url) [] w' = Some (w', Ok (js_string_value (quirks_search u'))) /\
     query u' = if decide (l' = []) then None else Some (form_serialize l')) /\
  (exists w', url_search_set (JsObject url) [JsString text] w2 = Some (w', Ok JsUndefined) /\
     params_to_string v1 [] w' =
       Some (w', Ok (js_string_value (form_serialize (query_pairs (quirks_set_search u (to_std_string_lossy text))))))).
Proof.
  intros Hurl Hu Hok Hv1 Hv2.
  destruct (search_params_get_run _ _ _ _ _ Hurl Hv1) as (p1 & -> & Hp1 & Hc1 & Hold1).
  destruct (search_params_get_run _ _ _ _ _ (Hold1 _ _ Hurl) Hv2) as (p2 & -> & Hp2 & Hc2 & Hold2).
  assert (url_cells w2 !! c = Some u) as Hu2 by congruence. split; [eapply live_change; eauto|].
  eexists (with_url_cells (<[c := quirks_set_search u (to_std_string_lossy text)]> (url_cells w2)) w2).
  assert (c < length (url_cells w2))%nat as Hlt by (by eapply lookup_lt_Some). split.
  - unfold url_search_set, url_plain_setter. rewrite js_bind_eq. cbn.
    rewrite js_bind_eq, (this_url_run _ _ c) by auto.
    rewrite js_bind_eq. unfold borrow_url. rewrite Hu2. cbn. rewrite js_bind_eq. unfold write_url. by rewrite Hu2.
  - eapply params_to_string_run; [by apply Hold2|]. cbn. by rewrite list_lookup_insert_eq.
Qed.

(** *** Copies through a string *)

(** [new URLSearchParams(text)] for a serialized list, with or without a
    question mark: an object over a new cell with that list. *)
Lemma params_from_text (mark : bool) l w w1 v : valid_pairs l ->
  class_constructor params_class JsUndefined [js_string_value ((if mark then [63] else []) ++ form_serialize l)] w = Some (w1, Ok v) ->
  exists q, v = JsObject q /\ host_data q (ctx w1) = Some (MechanicsUrlSearchParams (Owned (length (pair_cells w)))) /\
    url_cells w1 = url_cells w /\ pair_cells w1 = pair_cells w ++ [l] /\
    forall o h, host_data o (ctx w) = Some h -> host_data o (ctx w1) = Some h.
Proof.
  intros Hv. cbn [class_constructor params_class]. unfold construct. intros (w2 & data & Hd & Hrun)%host_bind_Ok.
  assert (params_data_constructor [js_string_value ((if mark then [63] else []) ++ form_serialize l)] w =
    Some (with_pair_cells (pair_cells w ++ [l]) w, Ok (MechanicsUrlSearchParams (Owned (length (pair_cells w)))))) as Hc.
  { unfold params_data_constructor, js_string_value. cbn [get_or_undefined is_undefined is_null as_string orb].
    assert (is_ascii ((if mark then [63] else []) ++ form_serialize l) = true) as Ha.
    { apply is_ascii_Forall, Forall_app. split; [destruct mark; repeat constructor; lia|].
      apply is_ascii_Forall, form_text_ascii. }
    cbn. rewrite lossy_encode by (by apply ascii_valid). unfold parse_params_string.
    assert (strip_prefix_or 63 ((if mark then [63] else []) ++ form_serialize l) = form_serialize l) as ->
      by (destruct mark; [done|apply form_text_strip]).
    rewrite form_roundtrip by done. done. }
  rewrite Hc in Hd. injection Hd as <- <-. apply host_bind_Ok in Hrun as (w3 & q & Hq%boa_Ok & Hrun). injection Hrun as <- <-.
  destruct (from_data_fresh _ _ _ _ Hq) as (Hh & Hu & Hp & Hold). exists q. by split_and!.
Qed.

(** C12. [new URLSearchParams(params.toString())] is an independent copy: the
    text has exactly the pairs of [params], in order and with duplicates,
    also when a question mark is put before it; a change of the copy starts
    from these pairs, does what the method says, and leaves [params] as it
    was, whether [params] holds its own pairs or those of a URL. *)
Theorem params_string_roundtrip (mark : bool) (op : ParamsOp) (p : O) (v : JsValue O) (w w1 : World C U)
    (b : ParamsBacking) (l : list ParamPair) (text : str) :
  host_data p (ctx w) = Some (MechanicsUrlSearchParams b) -> pairs_of b w = Some l -> valid_pairs l -> units_ok op ->
  params_to_string (JsObject p) [] w = Some (w, Ok (js_string_value text)) ->
  class_constructor params_class JsUndefined [js_string_value ((if mark then [63] else []) ++ text)] w = Some (w1, Ok v) ->
  params_to_string v [] w1 = Some (w1, Ok (js_string_value text)) /\
  exists w2 l', run_op op v w1 = Some (w2, Ok JsUndefined) /\ op_spec op l l' /\
    params_to_string v [] w2 = Some (w2, Ok (js_string_value (form_serialize l'))) /\
    params_to_string (JsObject p) [] w2 = Some (w2, Ok (js_string_value text)).
Proof.
  intros Hp Hl Hv Hok Htext Hnew.
  assert (encode_utf16 text = encode_utf16 (form_serialize l)) as Heq.
  { rewrite (params_to_string_run _ _ _ _ Hp Hl) in Htext. by injection Htext. }
  assert (js_string_value (O:=O) ((if mark then [63] else []) ++ text) = js_string_value ((if mark then [63] else []) ++ form_serialize l)) as Heq'.
  { unfold js_string_value, encode_utf16 in *. by rewrite !bind_app, Heq. }
  rewrite Heq' in Hnew. unfold js_string_value at 1 3. rewrite Heq. clear Htext Heq Heq' text.
  apply params_from_text in Hnew as (q & -> & Hq & Hu & Hc & Hold); [|done].
  set (b' := Owned (length (pair_cells w))) in *.
  assert (b <> b' /\ pairs_of b w1 = Some l) as [Hne Hpl].
  { destruct b as [c|c]; cbn in Hl |- *; rewrite ?Hu, ?Hc; [|done]. pose proof (lookup_lt_Some _ _ _ Hl).
    split; [unfold b'; intros [=]; lia|]. by rewrite lookup_app_l. }
  assert (pairs_of b' w1 = Some l) as Hql by (cbn; rewrite Hc, lookup_app_r, Nat.sub_diag by lia; done).
  split; [by eapply params_to_string_run|].
  assert (forall x, pairs_of x (put_pairs b' (op_fun op l) w1) = if decide (x = b') then Some (op_fun op l) else pairs_of x w1) as Hput
    by (intros x; apply pairs_of_put; [by eexists|by apply op_fun_valid]).
  exists (put_pairs b' (op_fun op l) w1), (op_fun op l). split_and!.
  - by apply run_op_run.
  - by apply op_fun_spec.
  - eapply params_to_string_run; [by rewrite put_pairs_ctx|]. rewrite Hput. by rewrite decide_True.
  - eapply params_to_string_run; [rewrite put_pairs_ctx; by apply Hold|]. rewrite Hput. by rewrite decide_False.
Qed.

(** *** URL objects *)

(** The properties of a URL object by name: what the library reads, and what
    it writes, with whether the write succeeds. *)
Definition always (set : U -> str -> U) (u : U) (s : str) : U * bool := (set u s, true).
Definition url_components : list (string * (U -> str) * option (U -> str -> U * bool)) :=
  [("href", quirks_href, Some quirks_set_href); ("origin", quirks_origin, None);
   ("protocol", quirks_protocol, Some quirks_set_protocol); ("username", quirks_username, Some quirks_set_username);
   ("password", quirks_password, Some quirks_set_password); ("host", quirks_host, Some quirks_set_host);
   ("hostname", quirks_hostname, Some quirks_set_hostname); ("port", quirks_port, Some quirks_set_port);
   ("pathname", quirks_pathname, Some (always quirks_set_pathname));
   ("search", quirks_search, Some (always quirks_set_search)); ("hash", quirks_hash, Some (always quirks_set_hash))].

(** The accessor a property name finds. *)
Definition accessor (name : string) : option (str * (JsValue O -> list (JsValue O) -> Js W O (JsValue O)) *
    option (JsValue O -> list (JsValue O) -> Js W O (JsValue O))) :=
  snd <$> list_find (fun a => a.1.1 = lit name) (class_accessors (C:=C) (U:=U) url_class).

(** The URL standard's parsing of an input against an optional base. *)
Definition spec_parse (input : list Z) (base : option (list Z)) : option U :=
  match base with
  | None => lib_parse (to_std_string_lossy input)
  | Some base => b ← lib_parse (to_std_string_lossy base); lib_join b (to_std_string_lossy input)
  end.

Definition parse_args (input : list Z) (base : option (list Z)) : list (JsValue O) :=
  JsString input :: match base with Some b => [JsString b] | None => [] end.

Lemma parse_args_run {A} (k : option U -> Js W O A) input base w :
  (i ← required_js_string (parse_args input base) 0 (lit "input");
   b ← optional_js_string (parse_args input base) 1 (lit "base"); k (parse_url i b)) w = k (spec_parse input base) w.
Proof. rewrite js_bind_eq. cbn. rewrite js_bind_eq. by destruct base. Qed.

Lemma can_parse_run input base w :
  url_can_parse JsUndefined (parse_args input base) w =
    Some (w, Ok (JsBoolean (match spec_parse input base with Some _ => true | None => false end))).
Proof.
  exact (parse_args_run (fun x => mret (JsBoolean (match x with Some _ => true | None => false end))) input base w).
Qed.

(** The object for a new URL. *)
Definition make_url (u : U) : Js W O (JsValue O) :=
  cell ← new_url u; o ← boa (from_data (MechanicsUrl cell)); mret (JsObject o).

Lemma url_parse_run input base w :
  url_parse JsUndefined (parse_args input base) w =
    match spec_parse input base with Some u => make_url u w | None => Some (w, Ok JsNull) end.
Proof.
  etrans; [exact (parse_args_run (fun x => match x with Some u => make_url u | None => mret JsNull end) input base w)|].
  by destruct (spec_parse input base).
Qed.

Lemma url_construct_run input base w :
  class_constructor url_class JsUndefined (parse_args input base) w =
    match spec_parse input base with
    | Some u => make_url u w
    | None => Some (w, Err (js_type_error (lit "invalid URL")))
    end.
Proof.
  cbn [class_constructor url_class]. unfold construct. rewrite js_bind_eq. unfold url_data_constructor.
  rewrite (parse_args_run (fun x => parsed ← pure_ (ok_or (js_type_error (lit "invalid URL")) x);
    cell ← new_url parsed; mret (MechanicsUrl cell)) input base w).
  by destruct (spec_parse input base).
Qed.

(** A new object holds a new cell with the URL. *)
Lemma make_url_run (u : U) w :
  exists w1 r, make_url u w = Some (w1, r) /\
    forall v, r = Ok v -> exists o, v = JsObject o /\ host_data o (ctx w1) = Some (MechanicsUrl (length (url_cells w))) /\
      url_cells w1 = url_cells w ++ [u] /\ pair_cells w1 = pair_cells w.
Proof.
  unfold make_url. rewrite js_bind_eq. cbn. rewrite js_bind_eq. unfold boa.
  destruct (from_data _ _) as [w1 [o|e]] eqn:Hd; eexists _, _; (split; [done|]); [|done].
  intros v [= <-]. exists o. by destruct (from_data_fresh _ _ _ _ Hd) as (? & -> & -> & _).
Qed.

Lemma getter_run url w c u (get : U -> str) args :
  host_data url (ctx w) = Some (MechanicsUrl c) -> url_cells w !! c = Some u ->
  url_getter get (JsObject url) args w = Some (w, Ok (js_string_value (get u))).
Proof.
  intros Hh Hu. unfold url_getter. rewrite js_bind_eq, (this_url_run _ _ c) by done.
  rewrite js_bind_eq. unfold borrow_url. by rewrite Hu.
Qed.

Lemma setter_run url w c u text name (set : U -> str -> U * bool) :
  host_data url (ctx w) = Some (MechanicsUrl c) -> url_cells w !! c = Some u ->
  apply_url_setter (JsObject url) [JsString text] name set w =
    Some (with_url_cells (<[c := (set u (to_std_string_lossy text)).1]> (url_cells w)) w,
          if (set u (to_std_string_lossy text)).2 then Ok JsUndefined else Err (js_type_error (lit "invalid URL " ++ name))).
Proof.
  intros Hh Hu. unfold apply_url_setter. rewrite js_bind_eq. cbn. rewrite js_bind_eq, (this_url_run _ _ c) by done.
  rewrite js_bind_eq. unfold borrow_url. rewrite Hu. cbn. destruct (set u _) as [u' ok].
  rewrite js_bind_eq. unfold write_url. rewrite Hu. cbn. by destruct ok.
Qed.

Lemma plain_setter_run url w c u text name (set : U -> str -> U) :
  host_data url (ctx w) = Some (MechanicsUrl c) -> url_cells w !! c = Some u ->
  url_plain_setter (JsObject url) [JsString text] name set w =
    Some (with_url_cells (<[c := set u (to_std_string_lossy text)]> (url_cells w)) w, Ok JsUndefined).
Proof.
  intros Hh Hu. unfold url_plain_setter. rewrite js_bind_eq. cbn. rewrite js_bind_eq, (this_url_run _ _ c) by done.
  rewrite js_bind_eq. unfold borrow_url. rewrite Hu. cbn. rewrite js_bind_eq. unfold write_url. by rewrite Hu.
Qed.

Lemma accessor_names : NoDup (fst ∘ fst <$> class_accessors (C:=C) (U:=U) (O:=O) url_class).
Proof. cbn [fmap list_fmap class_accessors url_class compose fst]. refine (bool_decide_unpack _ _). vm_compute. exact I. Qed.

Lemma accessor_lookup i name g s :
  class_accessors (C:=C) (U:=U) url_class !! i = Some (lit name, g, s) -> accessor name = Some (lit name, g, s).
Proof.
  intros Hi. unfold accessor. assert (list_find (fun a => a.1.1 = lit name) (class_accessors (C:=C) (U:=U) url_class) =
    Some (i, (lit name, g, s))) as ->; [|done]. apply list_find_Some. split_and!; [done|done|].
  intros j [[n g'] s'] Hj Hlt Heq. cbn in Heq. subst n.
  assert (j = i) as ->; [|lia]. eapply NoDup_lookup; [apply accessor_names| |].
  - rewrite list_lookup_fmap, Hj. reflexivity.
  - by rewrite list_lookup_fmap, Hi.
Qed.

Local Ltac component i :=
  eexists _, _; split; [apply (accessor_lookup i); reflexivity|]; split; [by eapply getter_run|];
  first [exact I | by apply setter_run | by apply plain_setter_run].

End methods.
