(* ===== verification/UrlDemo.v ===== *)
(** * UrlDemo: concrete runs of the [mechanics:url] module

    A URL is a base and a query; the engine is that of [JsDemo], whose host
    objects carry the data of the two classes. *)

From S2P Require Import Prelude Json Utf8 Str StrMap Executor JsHost BufferLike JsDemo Codecs CodecsDemo Url UrlProps.
Import CodecDemo.

Record DemoUrl := mkUrl { du_base : str; du_query : option str; du_hash : str }.

Definition text (s : str) : str := if forallb is_scalar s then s else [].
Lemma text_valid s : valid_str (text s).
Proof.
  unfold text. destruct (forallb is_scalar s) eqn:E; [|constructor]. rewrite forallb_forall in E.
  apply Forall_forall. intros x Hx%list_elem_of_In. auto.
Qed.

Definition demo_parse (s : str) : option DemoUrl :=
  if starts_with (lit "https:") s then
    Some match split_once [63] s with
         | Some (base, q) => mkUrl base (Some q) []
         | None => mkUrl s None []
         end
  else None.
Definition search_text (u : DemoUrl) : str := match du_query u with Some q => 63 :: q | None => [] end.

#[export] Instance url_lib : UrlLib DemoUrl := {|
  lib_parse := demo_parse;
  lib_join := fun base s => Some (mkUrl (du_base base ++ s) None []);
  quirks_href := fun u => text (du_base u ++ search_text u ++ du_hash u);
  quirks_origin := fun u => text (du_base u);
  quirks_protocol := fun _ => lit "https:";
  quirks_username := fun _ => [];
  quirks_password := fun _ => [];
  quirks_host := fun u => text (drop 8 (du_base u));
  quirks_hostname := fun u => text (drop 8 (du_base u));
  quirks_port := fun _ => [];
  quirks_pathname := fun _ => lit "/";
  quirks_search := fun u => text (search_text u);
  quirks_hash := fun u => text (du_hash u);
  quirks_set_href := fun u s => match demo_parse s with Some u' => (u', true) | None => (u, false) end;
  quirks_set_protocol := fun u _ => (u, false);
  quirks_set_username := fun u _ => (u, false);
  quirks_set_password := fun u _ => (u, false);
  quirks_set_host := fun u s => (mkUrl (lit "https://" ++ s) (du_query u) (du_hash u), true);
  quirks_set_hostname := fun u s => (mkUrl (lit "https://" ++ s) (du_query u) (du_hash u), true);
  quirks_set_port := fun u _ => (u, true);
  quirks_set_pathname := fun u _ => u;
  quirks_set_search := fun u s => mkUrl (du_base u) (Some (strip_prefix_or 63 s)) (du_hash u);
  quirks_set_hash := fun u s => mkUrl (du_base u) (du_query u) s;
  query := du_query;
  query_pairs := fun u => form_parse (utf8_encode (default [] (du_query u)));
  set_query := fun u q => mkUrl (du_base u) q (du_hash u);
|}.

#[export] Instance url_laws : UrlLaws DemoUrl.
Proof.
  split; try done. repeat constructor; intros u; cbn; try apply text_valid; by apply ascii_valid.
Qed.

(** ** The engine *)

Definition Ctx := list (DObj HostData).
Definition heap (w : World Ctx DemoUrl) : list (DObj HostData) := ctx w.
Definition put (h : list (DObj HostData)) (w : World Ctx DemoUrl) : World Ctx DemoUrl :=
  mkWorld h (url_cells w) (pair_cells w).

#[export] Instance engine : Boa (World Ctx DemoUrl) nat := demo_boa heap put.
#[export] Instance hosts : HostObjects Ctx DemoUrl nat := {|
  host_data := fun o c => match c !! o with Some (DHost h) => Some h | _ => None end;
  from_data := fun h w => (put (ctx w ++ [DHost h]) w, Ok (length (ctx w)));
  symbol_iterator := 1;
|}.

#[export] Instance host_laws : HostLaws Ctx DemoUrl nat.
Proof.
  split. intros h w w1 o [= <- <-]. cbn. split_and!; [|done|done|].
  - by rewrite lookup_app_r, Nat.sub_diag by lia.
  - intros o' h' Ho. match type of Ho with match ?t with _ => _ end = _ => destruct t as [x|] eqn:E; [|done] end.
    rewrite (lookup_app_l_Some _ _ _ _ E). exact Ho.
Qed.

(** ** Runs *)

Definition world0 : World Ctx DemoUrl := mkWorld [DFun] [] [].
Definition js (s : string) : JsValue nat := js_string_value (lit s).

(** [new URL("https://h?")], and two reads of its [searchParams]. *)
Definition script : Js (World Ctx DemoUrl) nat (JsValue nat) :=
  url ← construct url_data_constructor JsUndefined [js "https://h?"];
  _ ← url_search_params_get url [];
  _ ← url_search_params_get url [];
  mret url.

Definition world1 : World Ctx DemoUrl :=
  mkWorld [DFun; DHost (MechanicsUrl 0); DHost (MechanicsUrlSearchParams (UrlBacked 0));
           DHost (MechanicsUrlSearchParams (UrlBacked 0))] [mkUrl (lit "https://h") (Some []) []] [].

Example script_runs : script world0 = Some (world1, Ok (JsObject 1%nat)).
Proof. vm_compute. reflexivity. Qed.

(** Setting through one view, and what the other and the URL then show. *)
Example live_run :
  match run_op (OpSet (lit "a") (lit "b")) (JsObject 2%nat) world1 with
  | Some (w, _) => params_to_string (JsObject 3%nat) [] w
  | None => None
  end = Some (mkWorld (ctx world1) [mkUrl (lit "https://h") (Some (lit "61=62")) []] [], Ok (js "61=62")).
Proof. vm_compute. reflexivity. Qed.

(** Parameters of their own, to be sorted. *)
Definition pairs2 : list ParamPair := [(lit "b", lit "1"); (lit "a", lit "2"); (lit "b", lit "0")].
Definition world2 : World Ctx DemoUrl := mkWorld [DHost (MechanicsUrlSearchParams (Owned 0))] [] [pairs2].

Lemma params_methods_meet_spec_witness :
  exists w' l', run_op OpSort (JsObject 0%nat) world2 = Some (w', Ok JsUndefined) /\
    sorted_stably units_le pairs2 l' /\ pairs_of (Owned 0) w' = Some l'.
Proof.
  destruct (params_methods_meet_spec OpSort 0%nat world2 (Owned 0) pairs2) as (w' & l' & Hrun & [_ Hs] & Hp & _);
    [reflexivity|reflexivity|repeat constructor|exact I|].
  exists w', l'. split; [exact Hrun|]. split; [|exact Hp]. apply Hs. repeat constructor.
Defined.

Lemma params_reads_meet_spec_witness :
  params_get (JsObject 3%nat) [JsString (lit "a")] world1 = Some (world1, Ok JsNull).
Proof.
  destruct (params_reads_meet_spec (lit "a") None 3%nat world1 (UrlBacked 0) []) as [Hget _]; [done|done|exact Hget].
Defined.

(** A copy of the parameters of [world2], sorted; the original is not. *)
Definition copy_world : World Ctx DemoUrl :=
  mkWorld [DHost (MechanicsUrlSearchParams (Owned 0)); DHost (MechanicsUrlSearchParams (Owned 1))] [] [pairs2; pairs2].

Lemma params_string_roundtrip_witness :
  exists w2 l', run_op OpSort (JsObject 1%nat) copy_world = Some (w2, Ok JsUndefined) /\
    params_to_string (JsObject 1%nat) [] w2 = Some (w2, Ok (js_string_value (form_serialize l'))) /\
    params_to_string (JsObject 0%nat) [] w2 = Some (w2, Ok (js_string_value (form_serialize pairs2))).
Proof.
  destruct (params_string_roundtrip true OpSort 0%nat (JsObject 1%nat) world2 copy_world (Owned 0) pairs2 (form_serialize pairs2))
    as (_ & w2 & l' & Hrun & _ & Hcopy & Hold); [reflexivity|reflexivity|repeat constructor|exact I|vm_compute; reflexivity
    |vm_compute; reflexivity|].
  exists w2, l'. split; [exact Hrun|]. split; [exact Hcopy|exact Hold].
Defined.

(** [new URL("https://h?")] alone; its two [searchParams] are those of
    [world1]. *)
Definition url_world : World Ctx DemoUrl :=
  mkWorld [DFun; DHost (MechanicsUrl 0)] [mkUrl (lit "https://h") (Some []) []] [].
Definition url_world' : World Ctx DemoUrl :=
  mkWorld [DFun; DHost (MechanicsUrl 0); DHost (MechanicsUrlSearchParams (UrlBacked 0))] [mkUrl (lit "https://h") (Some []) []] [].

Lemma search_params_live_witness :
  exists w', url_search_set (JsObject 1%nat) [JsString (lit "?61=62")] world1 = Some (w', Ok JsUndefined) /\
    params_to_string (JsObject 2%nat) [] w' =
      Some (w', Ok (js_string_value (form_serialize (query_pairs
        (quirks_set_search (mkUrl (lit "https://h") (Some []) []) (to_std_string_lossy (lit "?61=62"))))))).
Proof.
  apply (search_params_live OpSort 1%nat (JsObject 2%nat) (JsObject 3%nat) url_world url_world' world1 0
    (mkUrl (lit "https://h") (Some []) []) (lit "?61=62")); first [reflexivity | exact I].
Defined.


(** A record of strings with a key [length] is taken for an array, and
    rejected because the elements are not there. *)
Definition length_world : World Ctx DemoUrl :=
  mkWorld [DPlain [(key "length", js "3"); (key "a", js "1")]] [] [].

Example record_with_length :
  params_data_constructor [JsObject 0%nat] length_world =
    Some (length_world, Err (js_type_error (lit "URLSearchParams iterable items must be objects"))).
Proof. vm_compute. reflexivity. Qed.

(** [sort] puts U+FF5E before U+1F600; by UTF-16 code units, as the URL
    standard has it, the order is the other one. *)
Example sort_by_code_point :
  sort_pairs [([0x1F600], []); ([0xFF5E], [])] = [([0xFF5E], []); ([0x1F600], [])] /\
  encode_utf16 [0x1F600] = [0xD83D; 0xDE00] /\ 0xD83D < 0xFF5E.
Proof. split_and!; vm_compute; reflexivity. Qed.
