(* ===== verification/RuntimeApi.v ===== *)
(** * RuntimeApi: what the runtime promises to the pool
    (src/src/internal/runtime.rs, [RunSourceOutcome])

    A worker hands a job and a one-shot reply closure to the runtime and acts
    on the outcome.  The contract between the two is stated here, so that the
    pool is verified against it and the runtime is verified to meet it. *)

From S2P Require Import Prelude Errors Json.

(** A reply: the JSON value of the script or the error. *)
Abbreviation reply := (result MechanicsError Value).

(** [enum RunSourceOutcome]. *)
Inductive RunSourceOutcome :=
| MainReplied
| MainNotReplied (e : MechanicsError).

(** The outcome tells the truth about the reply closure: [MainReplied] iff it
    has been called. *)
Definition outcome_matches (replied : bool) (o : RunSourceOutcome) : bool :=
  match o with
  | MainReplied => replied
  | MainNotReplied _ => negb replied
  end.

(** The contract of one job execution, which a pair of the replies it sent
    through the closure and the outcome it returned satisfies: at most one
    reply, and a truthful outcome. *)
Definition run_contract (replies : list reply) (o : RunSourceOutcome) : Prop :=
  (length replies <= 1)%nat /\
  outcome_matches (bool_decide (replies <> [])) o = true.
