(* ===== verification/Runtime.v ===== *)
(** * Runtime: running one script (src/src/internal/runtime.rs)

    [RuntimeInternal]: a Boa context, the job queue of [Executor], the host
    hooks and the limits; [run_source_with_early_reply] prepares a job's
    state, evaluates its module, calls the default export, hands the main
    result to the reply closure and polls what is left.  Boa and
    [mechanics-config] are the classes [JsRuntime] and [ConfigLib]; the
    operations that can run script code also return the jobs they enqueue. *)

From S2P Require Import Prelude Errors Json Job Executor RuntimeApi.

(** ** Host hooks *)

Inductive OperationType := Reject | Handle.

(** [RuntimeHostHooks] is its counter. *)
Definition promise_rejection_tracker (pending : Z) (operation : OperationType) : Z :=
  match operation with
  | Reject => saturating_add usize_max pending 1
  | Handle => saturating_sub pending 1
  end.
Definition hooks_clear (pending : Z) : Z := 0.
Definition has_unhandled_rejections (pending : Z) : bool := 0 <? pending.

(** ** State of a job *)

Inductive PromiseState (V : Type) := Pending | Fulfilled (v : V) | Rejected (e : V).
Arguments Pending {V}.
Arguments Fulfilled {V} _.
Arguments Rejected {V} _.

Definition is_pending {V} (s : PromiseState V) : bool :=
  match s with Pending => true | _ => false end.

(** [mechanics-config]: the named endpoints of a configuration, and their
    preparation, which can fail. *)
Class ConfigLib (Config Endpoint Prepared : Type) := {
  endpoints : Config -> gmap (list Z) Endpoint;
  prepare_runtime : Endpoint -> result str Prepared;
}.

(** [BoaMechanicsConfig] (http/wrappers.rs): the configuration as data the
    engine's collector does not trace, with its conversions. *)
Inductive BoaMechanicsConfig (Config : Type) := BoaConfig (config : Config).
Arguments BoaConfig {Config} _.
Definition as_inner {Config} (b : BoaMechanicsConfig Config) : Config := match b with BoaConfig c => c end.
Definition boa_config_from {Config} (value : Config) : BoaMechanicsConfig Config := BoaConfig value.
Definition boa_config_into {Config} (value : BoaMechanicsConfig Config) : Config := as_inner value.

Record MechanicsState (Config Client Prepared : Type) := mkState {
  st_config : BoaMechanicsConfig Config;
  st_endpoint_http_client : Client;
  st_default_timeout_ms : option Z;
  st_default_response_max_bytes : option Z;
  st_prepared_endpoints : gmap (list Z) Prepared;
}.
Arguments mkState {Config Client Prepared} _ _ _ _ _.
Arguments st_config {Config Client Prepared} _.
Arguments st_endpoint_http_client {Config Client Prepared} _.
Arguments st_default_timeout_ms {Config Client Prepared} _.
Arguments st_default_response_max_bytes {Config Client Prepared} _.
Arguments st_prepared_endpoints {Config Client Prepared} _.

(** [MechanicsState::endpoint]. *)
Definition state_endpoint {Config Endpoint Client Prepared} `{ConfigLib Config Endpoint Prepared}
    (st : MechanicsState Config Client Prepared) (name : str) : option (Endpoint * Prepared) :=
  e ← endpoints (as_inner (st_config st)) !! name;
  p ← st_prepared_endpoints st !! name;
  mret (e, p).

(** ** The engine

    What [RuntimeInternal] asks of Boa.  [rejection_ops] are the calls of
    [promise_rejection_tracker] since it was last asked for them: the counter
    is read at two places only, where the calls are applied in order.
    [synthetic_module] runs the [register] function of a built-in module up to
    its [define_module], which two of them leave out if they cannot make their
    objects.  [loader_changed] tells the context the contents of the module loader it
    shares with the runtime. *)
Class JsRuntime (I A P T G V C Realm Module Promise Data : Type) := {
  create_realm : C -> C * result (JsError V) Realm;
  enter_realm : Realm -> C -> C * Realm;
  synthetic_module : str -> C -> C * option Module;
  loader_changed : gmap (list Z) Module -> C -> C;
  set_loop_iteration_limit : Z -> C -> C;
  set_recursion_limit : Z -> C -> C;
  set_stack_size_limit : Z -> C -> C;
  insert_data : Data -> C -> C;
  remove_data : C -> C;
  get_data : C -> option Data;
  module_parse : str -> C -> C * result (JsError V) Module;
  load_link_evaluate : Module -> C -> C * list (Job A P T G * I) * Promise;
  promise_state : Promise -> C -> PromiseState V;
  rejection_ops : C -> C * list OperationType;
  from_json : Value -> C -> C * result (JsError V) V;
  to_json : V -> C -> C * list (Job A P T G * I) * result (JsError V) (option Value);
  get_value : Module -> str -> C -> C * list (Job A P T G * I) * result (JsError V) V;
  as_function : V -> C -> option V;
  call : V -> V -> list V -> C -> C * list (Job A P T G * I) * result (JsError V) V;
  as_promise : V -> C -> option Promise;
  promise_resolve : V -> C -> C * list (Job A P T G * I) * Promise;
  js_null : V;
  error_display : JsError V -> str;
}.

(** The cargo features that add modules. *)
Record Features := { f_encoding : bool; f_rand : bool; f_html : bool; f_console : bool; f_url : bool; f_mime : bool }.

(** The modules of [bundle_builtin_modules], in the order of registration. *)
Definition builtin_specifiers (f : Features) : list str :=
  [lit "mechanics:endpoint"] ++
  (if f_encoding f then [lit "mechanics:form-urlencoded"; lit "mechanics:base64"; lit "mechanics:hex"; lit "mechanics:base32"] else []) ++
  (if f_rand f then [lit "mechanics:rand"; lit "mechanics:uuid"] else []) ++
  (if f_html f then [lit "mechanics:html"] else []) ++
  (if f_console f then [lit "mechanics:console"] else []) ++
  (if f_url f then [lit "mechanics:url"] else []) ++
  (if f_mime f then [lit "mechanics:mime"] else []).

Section runtime.
Context {I A P T G V C Realm Module Promise Config Endpoint Client Prepared : Type}.
Context `{JsTime I} `{!JsEngine I A P T G V C} `{!ConfigLib Config Endpoint Prepared}.
Abbreviation data := (MechanicsState Config Client Prepared).
Context `{!JsRuntime I A P T G V C Realm Module Promise data}.
Context (features : Features).
Abbreviation queue := (Queue I A P T G V).
Abbreviation job := (Job A P T G).
Abbreviation js_result := (result (JsError V)).

Record RuntimeInternal := mkRuntime {
  rt_ctx : C;
  rt_loader : gmap (list Z) Module;
  rt_endpoint_http_client : Client;
  rt_queue : queue;
  rt_hooks : Z;
  rt_execution_limits : MechanicsExecutionLimits;
  rt_default_endpoint_timeout_ms : option Z;
  rt_default_endpoint_response_max_bytes : option Z;
}.

(** [compute_deadline]: [u128] milliseconds, then down to [u64]. *)
Definition too_large : JsError V :=
  NativeError JsRangeError (lit "Configured max_execution_time is too large").
Definition compute_deadline (c : C) (max_execution_time : Duration) : js_result I :=
  let now_ms := millis_since_epoch (clock_now c) in
  let timeout_ms := as_millis max_execution_time in
  deadline_ms ← ok_or too_large (checked_add u128_max now_ms timeout_ms);
  if u64_max <? deadline_ms then Err too_large
  else
    deadline_ms ← ok_or too_large (try_from u64_max deadline_ms);
    nanos ← ok_or too_large (checked_mul u64_max (deadline_ms mod 1000) 1000000);
    nanos ← ok_or too_large (try_from u32_max nanos);
    mret (js_instant_new (deadline_ms / 1000) nanos).

(** One [register(loader, context)] and [builtins::bundle_builtin_modules]. *)
Definition register_module '((l, c) : gmap (list Z) Module * C) (spec : str) : gmap (list Z) Module * C :=
  match synthetic_module spec c with
  | (c1, Some m) => let l1 := define_module spec m l in (l1, loader_changed l1 c1)
  | (c1, None) => (l, c1)
  end.
Definition bundle_builtin_modules (loader : gmap (list Z) Module) (c : C) : gmap (list Z) Module * C :=
  foldl register_module (loader, c) (builtin_specifiers features).

(** [new_with_endpoint_http_client], from the outcomes of building the Tokio
    runtime and the context. *)
Definition runtime_new (tokio : result str ()) (context : result str C) (client : Client)
  : result MechanicsError RuntimeInternal :=
  _ ← map_err (fun e => runtime_pool (lit "failed to initialize async job runtime: " ++ e)) tokio;
  c ← map_err (fun e => runtime_pool (lit "failed to initialize JavaScript context: " ++ e)) context;
  let '(loader, c1) := bundle_builtin_modules loader_new c in
  mret (mkRuntime c1 loader client queue_new 0 limits_default None None).

Definition set_execution_limits (l : MechanicsExecutionLimits) (rt : RuntimeInternal) : RuntimeInternal :=
  mkRuntime (rt_ctx rt) (rt_loader rt) (rt_endpoint_http_client rt) (rt_queue rt) (rt_hooks rt) l
    (rt_default_endpoint_timeout_ms rt) (rt_default_endpoint_response_max_bytes rt).
Definition set_default_endpoint_timeout_ms (t : option Z) (rt : RuntimeInternal) : RuntimeInternal :=
  mkRuntime (rt_ctx rt) (rt_loader rt) (rt_endpoint_http_client rt) (rt_queue rt) (rt_hooks rt)
    (rt_execution_limits rt) t (rt_default_endpoint_response_max_bytes rt).
Definition set_default_endpoint_response_max_bytes (m : option Z) (rt : RuntimeInternal) : RuntimeInternal :=
  mkRuntime (rt_ctx rt) (rt_loader rt) (rt_endpoint_http_client rt) (rt_queue rt) (rt_hooks rt)
    (rt_execution_limits rt) (rt_default_endpoint_timeout_ms rt) m.

Definition js_error_to_execution (e : JsError V) : MechanicsError := execution (error_display e).

Definition js_value_to_json (v : V) (c : C) : C * list (job * I) * result MechanicsError Value :=
  let '(c1, enq, r) := to_json v c in
  (c1, enq, map_err js_error_to_execution (default VNull <$> r)).

Definition main_pending_error : JsError V :=
  NativeError JsRuntimeLimit (lit "Default export promise did not settle").

(** ** The script's main path

    A step of the closure: it may run jobs (for which [option] stands for the
    fuel of the loop) and fail with a script error. *)
Record RunSt := mkRun { run_queue : queue; run_ctx : C; run_hooks : Z }.
Definition Js (B : Type) := RunSt -> option (RunSt * js_result B).

#[local] Instance js_ret : MRet Js := fun B b s => Some (s, Ok b).
#[local] Instance js_bind : MBind Js := fun B D f m s =>
  match m s with
  | Some (s', Ok b) => f b s'
  | Some (s', Err e) => Some (s', Err e)
  | None => None
  end.

Definition js_throw {B} (e : JsError V) : Js B := fun s => Some (s, Err e).
Definition js_lift {B} (f : C -> C * js_result B) : Js B := fun s =>
  let '(c', r) := f (run_ctx s) in Some (mkRun (run_queue s) c' (run_hooks s), r).
Definition js_lift_jobs {B} (f : C -> C * list (job * I) * js_result B) : Js B := fun s =>
  let '(c', enq, r) := f (run_ctx s) in
  Some (mkRun (enqueue_all enq (run_queue s)) c' (run_hooks s), r).
Definition js_ask {B} (f : C -> B) : Js B := fun s => Some (s, Ok (f (run_ctx s))).
Definition js_run_jobs (fuel : nat) : Js () := fun s =>
  '(q, c, r) ← run_jobs fuel (run_queue s) (run_ctx s);
  Some (mkRun q c (run_hooks s), r).
Definition js_unhandled : Js bool := fun s =>
  let '(c', ops) := rejection_ops (run_ctx s) in
  let hooks := foldl promise_rejection_tracker (run_hooks s) ops in
  Some (mkRun (run_queue s) c' hooks, Ok (has_unhandled_rejections hooks)).

(** From parsing to the promise of the default export. *)
Definition start_main (fuel : nat) (source : str) (arg : Value) : Js Promise :=
  module ← js_lift (module_parse source);
  module_eval ← js_lift_jobs (fun c => let '(c', enq, p) := load_link_evaluate module c in (c', enq, Ok p));
  _ ← js_run_jobs fuel;
  state ← js_ask (promise_state module_eval);
  _ ← match state with
      | Fulfilled _ => mret ()
      | Pending => js_throw (NativeError JsRuntimeLimit (lit "Module evaluation promise did not settle"))
      | Rejected e => js_throw (OpaqueError e)
      end;
  unhandled ← js_unhandled;
  _ ← (if unhandled : bool then js_throw (NativeError JsPlainError (lit "Unhandled promise rejection")) else mret ());
  arg ← js_lift (from_json arg);
  main ← js_lift_jobs (get_value module (lit "default"));
  f ← js_ask (as_function main);
  f ← match f with
      | Some f => mret f
      | None => js_throw (NativeError JsReferenceError (lit "Default export is not a function"))
      end;
  res ← js_lift_jobs (call f js_null [arg]);
  resolved ← js_lift_jobs (fun c => let '(c', enq, p) := promise_resolve res c in (c', enq, Ok p));
  as_p ← js_ask (as_promise res);
  mret (default resolved as_p).

(** ** The reply and the tail *)

(** What the closures of [run_source_with_early_reply] capture: whether the
    reply closure is still there, [main_replied], and the replies made. *)
Record Host := mkHost { early_reply : bool; main_replied : bool; replies : list reply }.

Definition host_start : Host := mkHost true false [].

Definition host_reply (r : reply) (h : Host) : Host :=
  mkHost false true (if early_reply h then replies h ++ [r] else replies h).

(** The result of the main promise. *)
Definition main_result (p : Promise) (c : C) : C * list (job * I) * reply :=
  match promise_state p c with
  | Fulfilled v => js_value_to_json v c
  | Pending => (c, [], Err (js_error_to_execution main_pending_error))
  | Rejected e => (c, [], Err (js_error_to_execution (OpaqueError e)))
  end.

Definition on_main_settled (p : Promise) (c : C) (h : Host) : C * list (job * I) * Host * js_result () :=
  let '(c', enq, r) := main_result p c in (c', enq, host_reply r h, Ok ()).

Definition main_settled (p : Promise) (c : C) : bool := negb (is_pending (promise_state p c)).

(** [tracing] events of a run. *)
Inductive RunLog :=
| TailPollAborted (job_id : str) (s : QueueSnapshot)
| TailError (job_id : str) (e : str).

(** The closure that yields [result]. *)
Definition run_script (fuel : nat) (job_id source : str) (arg : Value) (s : RunSt)
  : option (RunSt * Host * list RunLog * js_result ()) :=
  '(s1, r) ← start_main fuel source arg s;
  match r with
  | Err e => Some (s1, host_start, [], Err e)
  | Ok res =>
      '(ls, tail) ← run_jobs_until fuel (main_settled res) (on_main_settled res)
                      (run_queue s1) (run_ctx s1) host_start;
      let s2 := mkRun (ls_queue ls) (ls_ctx ls) (run_hooks s1) in
      let h := ls_host ls in
      Some match tail with
           | Err e => (s2, h, [], Err e)
           | Ok tail_exit =>
               if negb (main_replied h) && is_pending (promise_state res (ls_ctx ls))
               then (s2, h, [], Err main_pending_error)
               else (s2, h,
                     match tail_exit with
                     | Complete => []
                     | DeadlineExceeded snap => [TailPollAborted job_id snap]
                     end, Ok ())
           end
  end.

(** ** Running a job *)

(** The loop over the configured endpoints. *)
Fixpoint prepare_endpoints (eps : list (list Z * Endpoint)) (prepared : gmap (list Z) Prepared)
  : result MechanicsError (gmap (list Z) Prepared) :=
  match eps with
  | [] => Ok prepared
  | (name, endpoint) :: rest =>
      p ← map_err (fun m => js_error_to_execution (RustError m)) (prepare_runtime endpoint);
      prepare_endpoints rest (<[name := p]> prepared)
  end.

(** The last [match] of [run_source_with_early_reply]. *)
Definition run_outcome (job_id : str) (result : js_result ()) (main_replied : bool)
  : RunSourceOutcome * list RunLog :=
  match result, main_replied with
  | Ok _, true => (MainReplied, [])
  | Ok _, false =>
      (MainNotReplied (execution (lit "run_source_with_early_reply returned without producing a main result")), [])
  | Err e, true => (MainReplied, [TailError job_id (error_display e)])
  | Err e, false => (MainNotReplied (js_error_to_execution e), [])
  end.

(** Outcome, replies and log of a run. *)
Record Ran := mkRan { ran_outcome : RunSourceOutcome; ran_replies : list reply; ran_log : list RunLog }.

(** Entering the job's own realm: the modules, the limits, the deadline and
    the job's state; what is left to restore, and the state the script starts
    in. *)
Definition enter_job (rt : RuntimeInternal) (c : C) (deadline : I) (realm : Realm) (st : data)
  : gmap (list Z) Module * Realm * RunSt :=
  let '(c1, previous_realm) := enter_realm realm c in
  let '(loader, c2) := bundle_builtin_modules (rt_loader rt) c1 in
  let limits := rt_execution_limits rt in
  let c3 := set_loop_iteration_limit (max_loop_iterations limits) c2 in
  let c4 := set_recursion_limit (max_recursion_depth limits) c3 in
  let c5 := set_stack_size_limit (max_stack_size limits) c4 in
  let q1 := set_deadline (Some deadline) (rt_queue rt) in
  let c6 := insert_data st c5 in
  (loader, previous_realm, mkRun q1 c6 (rt_hooks rt)).

(** The part between entering and leaving the job's own realm. *)
Definition run_in_realm (fuel : nat) (rt : RuntimeInternal) (c : C) (deadline : I) (realm : Realm) (st : data)
    (job_id source : str) (arg : Value) : option (RuntimeInternal * Ran) :=
  let '(loader, previous_realm, s0) := enter_job rt c deadline realm st in
  '(s, h, log, result) ← run_script fuel job_id source arg s0;
  let c7 := remove_data (run_ctx s) in
  let q2 := clear_all (set_deadline None (run_queue s)) in
  let '(c8, _) := rejection_ops c7 in
  let hooks := hooks_clear (run_hooks s) in
  let '(c9, _) := enter_realm previous_realm c8 in
  let '(outcome, log') := run_outcome job_id result (main_replied h) in
  Some (mkRuntime c9 loader (rt_endpoint_http_client rt) q2 hooks (rt_execution_limits rt)
          (rt_default_endpoint_timeout_ms rt) (rt_default_endpoint_response_max_bytes rt),
        mkRan outcome (replies h) (log ++ log')).

Definition with_ctx_hooks (c : C) (hooks : Z) (rt : RuntimeInternal) : RuntimeInternal :=
  mkRuntime c (rt_loader rt) (rt_endpoint_http_client rt) (rt_queue rt) hooks (rt_execution_limits rt)
    (rt_default_endpoint_timeout_ms rt) (rt_default_endpoint_response_max_bytes rt).

(** [run_source_with_early_reply]; [None] when the fuel of a loop ran out. *)
Definition run_source_with_early_reply (fuel : nat) (rt : RuntimeInternal) (j : MechanicsJob Config)
    (job_id : str) : option (RuntimeInternal * Ran) :=
  let '(source, arg, config) := into_parts j in
  let '(c0, _) := rejection_ops (rt_ctx rt) in
  let rt0 := with_ctx_hooks c0 (hooks_clear (rt_hooks rt)) rt in
  let fail c err := Some (with_ctx_hooks c (rt_hooks rt0) rt0, mkRan (MainNotReplied err) [] []) in
  match prepare_endpoints (map_to_list (endpoints config)) ∅ with
  | Err err => fail c0 err
  | Ok prepared =>
      let st := mkState (boa_config_from config) (rt_endpoint_http_client rt0) (rt_default_endpoint_timeout_ms rt0)
                  (rt_default_endpoint_response_max_bytes rt0) prepared in
      match map_err js_error_to_execution
              (compute_deadline c0 (max_execution_time (rt_execution_limits rt0))) with
      | Err err => fail c0 err
      | Ok deadline =>
          let '(c1, realm) := create_realm c0 in
          match map_err js_error_to_execution realm with
          | Err err => fail c1 err
          | Ok isolated_realm => run_in_realm fuel rt0 c1 deadline isolated_realm st job_id source arg
          end
      end
  end.

(** [run_source]. *)
Definition run_source (fuel : nat) (rt : RuntimeInternal) (j : MechanicsJob Config)
  : option (RuntimeInternal * result MechanicsError Value) :=
  '(rt', ran) ← run_source_with_early_reply fuel rt j (lit "direct");
  Some (rt', match ran_outcome ran with
             | MainReplied =>
                 default (Err (execution (lit "script reported main reply but no value was captured")))
                   (last (ran_replies ran))
             | MainNotReplied err => Err err
             end).
End runtime.

(** ** Laws of the engine

    Realms and host data are Boa's: entering a realm swaps it with the current
    one, creating one changes nothing, and the data of the runtime is what was
    inserted last.  Converting a value does not turn the clock back. *)
Class JsRuntimeLaws (I A P T G V C Realm Module Promise Data : Type)
    `{JsTime I, !JsTimeLaws I, !JsEngine I A P T G V C, !JsEngineLaws I A P T G V C,
      !JsRuntime I A P T G V C Realm Module Promise Data} := {
  current_realm : C -> Realm;
  enter_realm_spec : forall r c,
    current_realm (enter_realm r c).1 = r /\ (enter_realm r c).2 = current_realm c /\
    get_data (enter_realm r c).1 = get_data c;
  create_realm_spec : forall c,
    current_realm (create_realm c).1 = current_realm c /\ get_data (create_realm c).1 = get_data c;
  rejection_ops_spec : forall c,
    current_realm (rejection_ops c).1 = current_realm c /\ get_data (rejection_ops c).1 = get_data c;
  get_remove_data : forall c, get_data (remove_data c) = None;
  to_json_mono : forall v c, tick (clock_now c) <= tick (clock_now (to_json v c).1.1);
}.

Section runtime_lemmas.
Context {I A P T G V C Realm Module Promise Config Endpoint Client Prepared : Type}.
Context `{JsTime I, !JsTimeLaws I, !JsEngine I A P T G V C, !JsEngineLaws I A P T G V C}.
Context `{!ConfigLib Config Endpoint Prepared}.
Abbreviation data := (MechanicsState Config Client Prepared).
Context `{!JsRuntime I A P T G V C Realm Module Promise data}.
Context `{!JsRuntimeLaws I A P T G V C Realm Module Promise data}.
Context (features : Features).
Abbreviation runtime := (@RuntimeInternal I A P T G V C Module Client).
Abbreviation runst := (@RunSt I A P T G V C).
Abbreviation JsM := (@Js I A P T G V C).
Implicit Types s : runst.

(** *** The reply *)

(** What the main promise [p] says once it has settled: the JSON of its value
    ([null] where there is none), or the error as text. *)
Definition promise_says (p : Promise) (c : C) (r : reply) : Prop :=
  match promise_state p c with
  | Pending => False
  | Fulfilled v =>
      match (to_json v c).2 with
      | Ok (Some j) => r = Ok j
      | Ok None => r = Ok VNull
      | Err e => r = Err (execution (error_display e))
      end
  | Rejected e => r = Err (execution (error_display (OpaqueError e)))
  end.

Lemma main_result_says (p : Promise) (c : C) :
  main_settled p c = true -> promise_says p c (main_result p c).2.
Proof.
  unfold main_settled, main_result, promise_says, js_value_to_json. destruct (promise_state p c); [done|..|done].
  intros _. by destruct (to_json v c) as [[c' enq] [[j|]|e]].
Qed.

(** How a script gets to its main promise: its module is parsed, evaluated to
    the end without a rejection left over, its default export is called with
    the argument, and what it returns is the promise or becomes one. *)
Inductive main_called (fuel : nat) (source : str) (arg : Value) s0 : runst -> Promise -> Prop :=
| main_called_intro c1 module c2 enq2 module_eval q3 c3 v c4 ops hooks c5 a c6 enq6 main f c7 enq7 res c8 enq8 resolved :
    module_parse source (run_ctx s0) = (c1, Ok module) ->
    load_link_evaluate module c1 = (c2, enq2, module_eval) ->
    run_jobs fuel (enqueue_all enq2 (run_queue s0)) c2 = Some (q3, c3, Ok ()) ->
    promise_state module_eval c3 = Fulfilled v ->
    rejection_ops c3 = (c4, ops) -> hooks = foldl promise_rejection_tracker (run_hooks s0) ops ->
    has_unhandled_rejections hooks = false ->
    from_json arg c4 = (c5, Ok a) ->
    get_value module (lit "default") c5 = (c6, enq6, Ok main) ->
    as_function main c6 = Some f ->
    call f js_null [a] c6 = (c7, enq7, Ok res) ->
    promise_resolve res c7 = (c8, enq8, resolved) ->
    main_called fuel source arg s0
      (mkRun (enqueue_all enq8 (enqueue_all enq7 (enqueue_all enq6 q3))) c8 hooks)
      (default resolved (as_promise res c8)).

Lemma js_bind_Ok {B D} (m : JsM B) (k : B -> JsM D) s s' d :
  @mbind JsM js_bind _ _ k m s = Some (s', Ok d) -> exists s1 b, m s = Some (s1, Ok b) /\ k b s1 = Some (s', Ok d).
Proof. unfold mbind, js_bind. destruct (m s) as [[s1 [b|e]]|]; try done. by eauto. Qed.

Lemma js_lift_Ok {B} (f : C -> C * result (JsError V) B) s s' b :
  js_lift f s = Some (s', Ok b) ->
  exists c, f (run_ctx s) = (c, Ok b) /\ s' = mkRun (run_queue s) c (run_hooks s).
Proof. unfold js_lift. destruct (f (run_ctx s)) as [c r]. intros [= <- ->]. by exists c. Qed.

Lemma js_lift_jobs_Ok {B} (f : C -> C * list (Job A P T G * I) * result (JsError V) B) s s' b :
  js_lift_jobs f s = Some (s', Ok b) ->
  exists c enq, f (run_ctx s) = (c, enq, Ok b) /\
    s' = mkRun (enqueue_all enq (run_queue s)) c (run_hooks s).
Proof. unfold js_lift_jobs. destruct (f (run_ctx s)) as [[c enq] r]. intros [= <- ->]. by exists c, enq. Qed.

Local Ltac js_next Hx := let Hs := fresh "Hstep" in apply js_bind_Ok in Hx as (? & ? & Hs & Hx).

Lemma start_main_called fuel source arg s0 s1 p :
  start_main fuel source arg s0 = Some (s1, Ok p) <-> main_called fuel source arg s0 s1 p.
Proof.
  split.
  - unfold start_main. intros Hx.
    js_next Hx. apply js_lift_Ok in Hstep as (c1 & Hparse & ->).
    js_next Hx. apply js_lift_jobs_Ok in Hstep as (c2 & enq2 & Heval & ->).
    destruct (load_link_evaluate _ _) as [[c2' l2] ev] eqn:Hev; simplify_eq/=.
    js_next Hx. unfold js_run_jobs in Hstep. apply bind_Some in Hstep as ([[q3 c3] r3] & Hjobs & Hs). simplify_eq/=.
    js_next Hx. unfold js_ask in Hstep. simplify_eq/=.
    js_next Hx. destruct (promise_state _ c3) as [|v|e] eqn:Hst; [done| |done]. unfold mret, js_ret in Hstep. simplify_eq/=.
    js_next Hx. unfold js_unhandled in Hstep. cbn in Hstep. destruct (rejection_ops c3) as [c4 ops] eqn:Hops. simplify_eq/=.
    js_next Hx. destruct (has_unhandled_rejections _) eqn:Hun; [done|]. unfold mret, js_ret in Hstep. simplify_eq/=.
    js_next Hx. apply js_lift_Ok in Hstep as (c5 & Harg & ->).
    js_next Hx. apply js_lift_jobs_Ok in Hstep as (c6 & enq6 & Hget & ->).
    js_next Hx. unfold js_ask in Hstep. simplify_eq/=.
    js_next Hx. destruct (as_function _ _) as [f|] eqn:Hf; [|done]. unfold mret, js_ret in Hstep. simplify_eq/=.
    js_next Hx. apply js_lift_jobs_Ok in Hstep as (c7 & enq7 & Hcall & ->).
    js_next Hx. apply js_lift_jobs_Ok in Hstep as (c8 & enq8 & Hres & ->).
    destruct (promise_resolve _ _) as [[c8' l8] resolved] eqn:Hr; simplify_eq/=.
    js_next Hx. unfold js_ask in Hstep. unfold mret, js_ret in Hx. simplify_eq/=.
    match goal with u : () |- _ => destruct u end. by econstructor.
  - intros [c1 module c2 enq2 ev q3 c3 v c4 ops hooks c5 a c6 enq6 main f c7 enq7 res c8 enq8 resolved
      E1 E2 E3 E4 E5 E6 E7 E8 E9 E10 E11 E12].
    unfold start_main, js_lift, js_lift_jobs, js_ask, js_run_jobs, js_unhandled, mbind, js_bind, mret, js_ret.
    rewrite E1. cbn. rewrite E2. cbn. rewrite E3. cbn. rewrite E4. cbn. rewrite E5. cbn. rewrite <- E6, E7. cbn.
    rewrite E8. cbn. rewrite E9. cbn. rewrite E10. cbn. rewrite E11. cbn. rewrite E12. done.
Qed.

(** The start of the event loop that settles the main promise and runs the
    tail, and the state in which its turn [n] begins. *)
Definition tail_loop (p : Promise) s1 : LoopState I A P T G V C Host :=
  loop_start (run_queue s1) (run_ctx s1) (on_main_settled p) host_start.
Definition tail_turn (p : Promise) s1 (n : nat) : option (LoopState I A P T G V C Host) :=
  turns (main_settled p) n (tail_loop p s1).

(** [r] is what the promise [p] says in the first turn of the tail loop that
    begins after it has settled. *)
Definition first_settled (p : Promise) s1 (r : reply) : Prop :=
  exists n ls, tail_turn p s1 n = Some ls /\ promise_says p (ls_ctx ls) r /\
    forall k lk, (k < n)%nat -> tail_turn p s1 k = Some lk -> promise_state p (ls_ctx lk) = Pending.

(** No turn of the tail loop begins after [p] has settled. *)
Definition never_settled (p : Promise) s1 : Prop :=
  forall n ls, tail_turn p s1 n = Some ls -> promise_state p (ls_ctx ls) = Pending.

Lemma main_unsettled (p : Promise) (c : C) : main_settled p c = false -> promise_state p c = Pending.
Proof. unfold main_settled. by destruct (promise_state p c). Qed.

(** After the tail loop the reply closure was called once, with what the
    promise said first, or not at all and the promise never settled. *)
Definition tail_replied (p : Promise) s1 (h : Host) : Prop :=
  (main_replied h = false /\ replies h = [] /\ never_settled p s1) \/
  (main_replied h = true /\ exists r, replies h = [r] /\ first_settled p s1 r).

Lemma tail_host fuel (p : Promise) s1 ls (tail : result (JsError V) RunJobsExit) :
  run_jobs_until fuel (main_settled p) (on_main_settled p) (run_queue s1) (run_ctx s1) host_start = Some (ls, tail) ->
  tail_replied p s1 (ls_host ls).
Proof.
  intros Hr. eapply (run_loop_first_stop _ (on_main_settled p) host_start) in Hr; [|done].
  destruct Hr as [[-> Hno]|(n & sn & Hn & Hs & Hfirst & ->)].
  - left. split; [done|]. split; [done|]. intros n ls' Hls. by eapply main_unsettled, Hno.
  - right. unfold on_main_settled. destruct (main_result p (ls_ctx sn)) as [[c' enq] r] eqn:Hm. cbn.
    split; [done|]. exists r. split; [done|]. exists n, sn. split; [done|]. split.
    + pose proof (main_result_says _ _ Hs) as Hsays. by rewrite Hm in Hsays.
    + intros k lk Hk Hlk. by eapply main_unsettled, Hfirst.
Qed.

Lemma promise_says_kind (p : Promise) (c : C) e : promise_says p c (Err e) -> kind e = KExecution.
Proof. unfold promise_says. repeat case_match; (done || by intros [= ->]). Qed.

(** What a script has replied when it ends. *)
Lemma run_script_reply fuel job_id source arg s s' h log (r : result (JsError V) ()) :
  run_script fuel job_id source arg s = Some (s', h, log, r) ->
  (main_replied h = false /\ replies h = [] /\ forall s1 p, ~ main_called fuel source arg s s1 p) \/
  exists s1 p, main_called fuel source arg s s1 p /\ tail_replied p s1 h.
Proof.
  unfold run_script. intros ([s1 [p|e]] & Hs & Hr)%bind_Some.
  - apply start_main_called in Hs. apply bind_Some in Hr as ([ls tail] & Hl%tail_host & Hr).
    assert (h = ls_host ls) as -> by (repeat case_match; by simplify_eq). eauto.
  - simplify_eq. left. do 2 (split; [done|]). intros s2 p Hc%start_main_called. congruence.
Qed.

Lemma main_called_unique fuel source arg s s1 p s2 p' :
  main_called fuel source arg s s1 p -> main_called fuel source arg s s2 p' -> s2 = s1 /\ p' = p.
Proof. intros H1%start_main_called H2%start_main_called. rewrite H1 in H2. by simplify_eq. Qed.

(** The outcome and the errors of a script that has replied or not. *)
Lemma reply_contract job_id (r : result (JsError V) ()) h :
  (main_replied h = false /\ replies h = []) \/
  (main_replied h = true /\ exists p (c : C) r, replies h = [r] /\ promise_says p c r) ->
  run_contract (replies h) (fst (run_outcome job_id r (main_replied h))) /\
  (forall e, fst (run_outcome job_id r (main_replied h)) = MainNotReplied e -> kind e = KExecution) /\
  (forall e, Err e ∈ replies h -> kind e = KExecution).
Proof.
  unfold run_contract, run_outcome.
  intros [[-> ->]|(-> & p & c & x & -> & Hx)]; destruct r; cbn; repeat split; try done; try lia;
    try (intros ? [= <-]; done); try (intros ? ?%not_elem_of_nil; done).
  all: intros e' He%list_elem_of_singleton; subst x; by eapply promise_says_kind.
Qed.

(** *** From the runtime to the script *)

(** The execution deadline of a run and the state its script starts in; none
    if an endpoint, the deadline or the realm cannot be prepared. *)
Definition script_start (rt : runtime) (j : MechanicsJob Config) : option (I * runst) :=
  let c0 := (rejection_ops (rt_ctx rt)).1 in
  match prepare_endpoints (V := V) (map_to_list (endpoints (config j))) ∅,
        compute_deadline (V := V) c0 (max_execution_time (rt_execution_limits rt)), create_realm c0 with
  | Ok prepared, Ok d, (c1, Ok realm) =>
      Some (d, (enter_job features (with_ctx_hooks c0 0 rt) c1 d realm
        (mkState (boa_config_from (config j)) (rt_endpoint_http_client rt) (rt_default_endpoint_timeout_ms rt)
           (rt_default_endpoint_response_max_bytes rt) prepared)).2)
  | _, _, _ => None
  end.

(** *** Isolation *)

(** What the context shows of earlier jobs: realm and host data. *)
Definition ctx_view (c : C) : Realm * option data := (current_realm c, get_data c).

(** The runtime between jobs: nothing queued, no deadline, no counted
    rejection, no job state, and the realm it started with. *)
Definition runtime_idle (realm : Realm) (rt : runtime) : Prop :=
  rt_queue rt = queue_new /\ rt_hooks rt = 0 /\ ctx_view (rt_ctx rt) = (realm, None).

(** What a run leaves as it was. *)
Definition same_settings (rt rt' : runtime) : Prop :=
  rt_endpoint_http_client rt' = rt_endpoint_http_client rt /\
  rt_execution_limits rt' = rt_execution_limits rt /\
  rt_default_endpoint_timeout_ms rt' = rt_default_endpoint_timeout_ms rt /\
  rt_default_endpoint_response_max_bytes rt' = rt_default_endpoint_response_max_bytes rt.

Lemma prepare_endpoints_kind (eps : list (list Z * Endpoint)) (m : gmap (list Z) Prepared) e :
  prepare_endpoints (V := V) eps m = Err e -> kind e = KExecution.
Proof.
  revert m. induction eps as [|[n ep] eps IH]; intros m; cbn; [done|].
  destruct (prepare_runtime ep); cbn; [apply IH|]. by intros [= <-].
Qed.

(** What was prepared, entry by entry. *)
Lemma prepare_endpoints_lookup (eps : list (list Z * Endpoint)) (m m' : gmap (list Z) Prepared) :
  NoDup eps.*1 -> prepare_endpoints (V := V) eps m = Ok m' ->
  (forall name e, (name, e) ∈ eps -> exists p, m' !! name = Some p /\ prepare_runtime e = Ok p) /\
  (forall name, name ∉ eps.*1 -> m' !! name = m !! name).
Proof.
  revert m. induction eps as [|[n ep] eps IH]; intros m; cbn.
  - intros _ [= <-]. split; [by intros name e ?%not_elem_of_nil|done].
  - intros [Hn Hnd]%NoDup_cons (p & Hp & Hm)%bind_Ok.
    destruct (IH _ Hnd Hm) as [Hin Hout]. split.
    + intros name e [Heq|Hl]%elem_of_cons; [|by apply Hin]. injection Heq as -> ->.
      exists p. split; [rewrite Hout by done; apply lookup_insert_eq|]. by destruct (prepare_runtime ep); simplify_eq/=.
    + intros name Hname. rewrite Hout by set_solver. apply lookup_insert_ne. set_solver.
Qed.

(** A run fails before the job's realm is entered, or runs in it. *)
Lemma run_source_cases fuel (rt rt' : runtime) j job_id ran :
  run_source_with_early_reply features fuel rt j job_id = Some (rt', ran) ->
  exists c, ctx_view c = ctx_view (rt_ctx rt) /\
  ((exists err, rt' = with_ctx_hooks c 0 rt /\ ran = mkRan (MainNotReplied err) [] [] /\ kind err = KExecution) \/
   (exists c0 d realm st, run_in_realm features fuel (with_ctx_hooks c0 0 rt) c d realm st job_id
      (module_source j) (arg j) = Some (rt', ran))).
Proof.
  unfold run_source_with_early_reply. cbn. pose proof (rejection_ops_spec (rt_ctx rt)) as [Hr Hd].
  destruct (rejection_ops (rt_ctx rt)) as [c0 ops]. cbn in Hr, Hd.
  assert (ctx_view c0 = ctx_view (rt_ctx rt)) as Hv by (unfold ctx_view; congruence).
  destruct (prepare_endpoints _ _) as [prepared|err] eqn:Hp.
  2: { intros [= <- <-]. exists c0. split; [done|]. left. exists err. apply prepare_endpoints_kind in Hp. done. }
  destruct (compute_deadline c0 _) as [d|err]; cbn.
  2: { intros [= <- <-]. exists c0. split; [done|]. left. by exists (js_error_to_execution err). }
  pose proof (create_realm_spec c0) as [Hr' Hd'].
  destruct (create_realm c0) as [c1 [realm|err]]; cbn in *.
  all: assert (ctx_view c1 = ctx_view (rt_ctx rt)) as Hv1 by (unfold ctx_view in *; congruence).
  - intros Hrun. exists c1. split; [done|]. right. by eauto.
  - intros [= <- <-]. exists c1. split; [done|]. left. by exists (js_error_to_execution err).
Qed.

(** Running in the realm cleans up whatever the script did. *)
Lemma run_in_realm_spec fuel (rt rt' : runtime) c d realm st job_id source arg ran :
  run_in_realm features fuel rt c d realm st job_id source arg = Some (rt', ran) ->
  rt_queue rt' = queue_new /\ rt_hooks rt' = 0 /\ ctx_view (rt_ctx rt') = (current_realm c, None) /\
  same_settings rt rt'.
Proof.
  unfold run_in_realm, enter_job. pose proof (enter_realm_spec realm c) as (_ & Hprev & _).
  destruct (enter_realm realm c) as [c1 prev]. cbn in Hprev. subst prev.
  destruct (bundle_builtin_modules features (rt_loader rt) c1) as [loader c2].
  intros ([[[s h] log] r] & _ & Hrun)%bind_Some.
  pose proof (rejection_ops_spec (remove_data (run_ctx s))) as [_ Hd].
  rewrite get_remove_data in Hd. destruct (rejection_ops _) as [c8 ops]. cbn in Hd.
  pose proof (enter_realm_spec (current_realm c) c8) as (Hr & _ & Hd').
  destruct (enter_realm (current_realm c) c8) as [c9 ?]. cbn in Hr, Hd'.
  destruct (run_outcome job_id r (main_replied h)) as [o log'] eqn:Ho. injection Hrun as <- <-. cbn.
  repeat split. unfold ctx_view. congruence.
Qed.

(** What a run makes of its script's end. *)
Lemma run_source_script (rt : runtime) j job_id :
  match script_start rt j with
  | None => exists rt' err, kind err = KExecution /\ forall fuel,
      run_source_with_early_reply features fuel rt j job_id = Some (rt', mkRan (MainNotReplied err) [] [])
  | Some (d, s0) => deadline (run_queue s0) = Some d /\ exists leave, forall fuel,
      run_source_with_early_reply features fuel rt j job_id =
        leave <$> run_script fuel job_id (module_source j) (arg j) s0 /\
      forall s h log r, exists log', (leave (s, h, log, r)).2 =
        mkRan (fst (run_outcome job_id r (main_replied h))) (replies h) log'
  end.
Proof.
  unfold script_start, run_source_with_early_reply. cbn. destruct (rejection_ops (rt_ctx rt)) as [c0 ops]. cbn.
  destruct (prepare_endpoints _ _) as [prepared|err] eqn:Hp.
  2: { eexists _, err. split; [by eapply prepare_endpoints_kind|intros fuel; reflexivity]. }
  destruct (compute_deadline c0 _) as [d|err]; cbn; [|eexists _, _; split; [|intros fuel; reflexivity]; reflexivity].
  destruct (create_realm c0) as [c1 [realm|err]]; cbn; [|eexists _, _; split; [|intros fuel; reflexivity]; reflexivity].
  set (st := mkState _ _ _ _ _). set (rt0 := with_ctx_hooks _ _ _). unfold run_in_realm, hooks_clear.
  destruct (enter_job features rt0 c1 d realm st) as [[loader prev] s0] eqn:He. cbn.
  assert (deadline (run_queue s0) = Some d) as Hd.
  { unfold enter_job in He. destruct (enter_realm realm c1), (bundle_builtin_modules _ _ _). by simplify_eq. }
  split; [done|]. eexists (fun '(s, h, log, r) => _). intros fuel. split.
  - destruct (run_script _ _ _ _ _) as [[[[s h] log] r]|]; cbn; [|done].
    rewrite (surjective_pairing (rejection_ops _)), (surjective_pairing (enter_realm prev _)), (surjective_pairing (run_outcome _ _ _)).
    reflexivity.
  - intros s h log r. cbn. by eexists.
Qed.

(** *** The deadline *)

(** A step of the script whose result does not depend on how much fuel it has
    to spare. *)
Definition steady {B} (m : nat -> JsM B) : Prop :=
  forall fuel fuel' s x, (fuel <= fuel')%nat -> m fuel s = Some x -> m fuel' s = Some x.

Lemma steady_const {B} (m : JsM B) : steady (fun _ => m).
Proof. by intros fuel fuel' s x. Qed.

Lemma steady_bind {B D} (m : nat -> JsM B) (k : nat -> B -> JsM D) :
  steady m -> (forall b, steady (fun fuel => k fuel b)) ->
  steady (fun fuel => @mbind JsM js_bind _ _ (k fuel) (m fuel)).
Proof.
  intros Hm Hk fuel fuel' s x Hle. unfold mbind, js_bind.
  destruct (m fuel s) as [[s1 r]|] eqn:E; [|done]. rewrite (Hm _ _ _ _ Hle E). destruct r; [|done]. by apply Hk.
Qed.

Lemma run_jobs_more fuel fuel' (q : Queue I A P T G V) (c : C) x :
  (fuel <= fuel')%nat -> run_jobs fuel q c = Some x -> run_jobs fuel' q c = Some x.
Proof.
  intros Hle. unfold run_jobs, run_jobs_until. intros ([ls r] & Hr & Hx)%bind_Some.
  by rewrite (run_loop_more _ _ _ _ _ Hle Hr).
Qed.

Lemma steady_start_main source arg : steady (fun fuel => start_main fuel source arg).
Proof.
  unfold start_main. do 2 (apply steady_bind; [apply steady_const|intros]).
  apply steady_bind; [|intros; apply steady_const].
  intros fuel fuel' s x Hle. unfold js_run_jobs. intros ([[q c] r] & Hr & Hx)%bind_Some.
  by rewrite (run_jobs_more _ _ _ _ _ Hle Hr).
Qed.

Lemma run_script_more fuel fuel' job_id source arg s x :
  (fuel <= fuel')%nat -> run_script fuel job_id source arg s = Some x ->
  run_script fuel' job_id source arg s = Some x.
Proof.
  intros Hle. unfold run_script. intros ([s1 [p|e]] & Hs & Hr)%bind_Some;
    rewrite (steady_start_main _ _ _ _ _ _ Hle Hs); cbn; [|done].
  apply bind_Some in Hr as ([ls tail] & Hl & Hr). unfold run_jobs_until in *.
  by rewrite (run_loop_more _ _ _ _ _ Hle Hl).
Qed.

(** The start of the first event loop, which evaluates the module. *)
Definition module_loop (source : str) s0 (ls : LoopState I A P T G V C ()) : Prop :=
  exists c1 module c2 enq module_eval,
    module_parse source (run_ctx s0) = (c1, Ok module) /\
    load_link_evaluate module c1 = (c2, enq, module_eval) /\
    ls = loop_start (enqueue_all enq (run_queue s0)) c2 (fun c u => (c, [], u, Ok ())) ().

Lemma start_main_None fuel source arg s0 :
  start_main fuel source arg s0 = None ->
  exists ls, module_loop source s0 ls /\ run_loop (fun _ => false) fuel ls = None.
Proof.
  unfold start_main. intros Hx. unfold mbind at 1, js_bind at 1, js_lift at 1 in Hx.
  destruct (module_parse source (run_ctx s0)) as [c1 [module|e]] eqn:Hp; [|done]. cbn in Hx.
  unfold mbind at 1, js_bind at 1, js_lift_jobs at 1 in Hx. cbn in Hx.
  destruct (load_link_evaluate module c1) as [[c2 enq] ev] eqn:He. cbn in Hx.
  exists (loop_start (enqueue_all enq (run_queue s0)) c2 (fun c u => (c, [], u, Ok ())) ()).
  split; [by exists c1, module, c2, enq, ev|].
  unfold mbind at 1, js_bind at 1, js_run_jobs, run_jobs, run_jobs_until in Hx. cbn in Hx.
  destruct (run_loop _ _ _) as [[ls r]|]; [|done]. exfalso. revert Hx. cbn.
  unfold mbind, js_bind, js_ask, js_lift, js_lift_jobs, js_unhandled, js_throw, mret, js_ret.
  repeat (case_match; cbn); done.
Qed.

Lemma on_main_settled_mono (p : Promise) s1 : stop_mono (tail_loop p s1).
Proof.
  intros f c h [= <-]. unfold on_main_settled, main_result, js_value_to_json.
  destruct (promise_state p c); cbn; try lia.
  pose proof (to_json_mono v c). by destruct (to_json v c) as [[? ?] ?].
Qed.

Lemma run_jobs_deadline fuel (q q' : Queue I A P T G V) (c c' : C) (r : result (JsError V) ()) :
  run_jobs fuel q c = Some (q', c', r) -> deadline q' = deadline q.
Proof.
  unfold run_jobs, run_jobs_until. intros ([ls x] & Hr & Hx)%bind_Some. injection Hx as <- <- _.
  apply run_loop_evolves in Hr as (Hd & _); [done|]. intros f c0 h [= <-]. cbn. lia.
Qed.

Lemma main_called_deadline fuel source arg s0 s1 p :
  main_called fuel source arg s0 s1 p -> deadline (run_queue s1) = deadline (run_queue s0).
Proof.
  intros []. cbn. rewrite !(proj1 (enqueue_all_evolves _ _)).
  match goal with Hj : run_jobs _ _ _ = _ |- _ => rewrite (run_jobs_deadline _ _ _ _ _ _ Hj) end.
  apply enqueue_all_evolves.
Qed.

(** A script that does not end keeps one of its two event loops before the
    deadline. *)
Definition keeps_running (d : I) (fuel : nat) (source : str) (arg : Value) s0 : Prop :=
  (exists ls, module_loop source s0 ls /\ runs_before (fun _ => false) d fuel ls) \/
  (exists s1 p, main_called fuel source arg s0 s1 p /\ runs_before (main_settled p) d fuel (tail_loop p s1)).

Lemma run_script_None fuel job_id source arg s0 d :
  deadline (run_queue s0) = Some d -> run_script fuel job_id source arg s0 = None ->
  keeps_running d fuel source arg s0.
Proof.
  intros Hd. unfold run_script. destruct (start_main fuel source arg s0) as [[s1 [p|e]]|] eqn:Hs; [|done|].
  - apply start_main_called in Hs. cbn. unfold run_jobs_until. fold (tail_loop p s1).
    destruct (run_loop (main_settled p) fuel (tail_loop p s1)) as [[ls tail]|] eqn:Hl; [done|]. intros _.
    right. exists s1, p. split; [done|]. apply run_loop_unfinished; [|apply on_main_settled_mono|done].
    cbn. by rewrite (main_called_deadline _ _ _ _ _ _ Hs).
  - intros _. apply start_main_None in Hs as (ls & Hm & Hl). left. exists ls. split; [done|].
    destruct Hm as (c1 & m & c2 & enq & ev & _ & _ & ->). apply run_loop_unfinished; [| |done].
    + cbn. by rewrite (proj1 (enqueue_all_evolves _ _)).
    + intros f c h [= <-]. cbn. lia.
Qed.
End runtime_lemmas.

(** ** Properties *)

Section runtime_properties.
Context {I A P T G V C Realm Module Promise Config Endpoint Client Prepared : Type}.
Context `{JsTime I, !JsTimeLaws I, !JsEngine I A P T G V C, !JsEngineLaws I A P T G V C}.
Context `{!ConfigLib Config Endpoint Prepared}.
Abbreviation data := (MechanicsState Config Client Prepared).
Context `{!JsRuntime I A P T G V C Realm Module Promise data}.
Context `{!JsRuntimeLaws I A P T G V C Realm Module Promise data}.
Context (features : Features).
Abbreviation runtime := (@RuntimeInternal I A P T G V C Module Client).

(** C6. The runtime keeps its contract with the pool.  A run calls the reply
    closure at most once, reports [MainReplied] exactly if it did, and every
    error is an execution error.  The reply is the script's own: it is what
    the promise of the default export of the job's module, called with the
    job's argument, says in the first turn of the tail loop that begins after
    it has settled (the JSON of its value, or its rejection as an error), so
    that nothing the tail does later changes it; and if a run whose main was
    called makes no reply, no turn of the tail loop began after that promise
    had settled. *)
Theorem run_source_contract (fuel : nat) (rt rt' : runtime) (j : MechanicsJob Config) (job_id : str) (ran : Ran) :
  run_source_with_early_reply features fuel rt j job_id = Some (rt', ran) ->
  run_contract (ran_replies ran) (ran_outcome ran) /\
  (forall e, ran_outcome ran = MainNotReplied e \/ Err e ∈ ran_replies ran -> kind e = KExecution) /\
  (forall r, r ∈ ran_replies ran -> exists d s0 s1 (p : Promise), script_start features rt j = Some (d, s0) /\
    main_called fuel (module_source j) (arg j) s0 s1 p /\ first_settled p s1 r) /\
  (ran_replies ran = [] -> forall d s0 s1 (p : Promise), script_start features rt j = Some (d, s0) ->
    main_called fuel (module_source j) (arg j) s0 s1 p -> never_settled p s1).
Proof.
  intros Hrun. pose proof (run_source_script features rt j job_id) as Hs.
  destruct (script_start features rt j) as [[d s0]|] eqn:Hst.
  - destruct Hs as (_ & leave & Hl). destruct (Hl fuel) as [Hf Hleave]. rewrite Hf in Hrun.
    apply fmap_Some in Hrun as ([[[s h] log] r] & Hscript & Hran).
    destruct (Hleave s h log r) as [log' Hrep]. rewrite <- Hran in Hrep. cbn in Hrep. subst ran. cbn.
    apply run_script_reply in Hscript. split_and!.
    1,2: destruct (reply_contract job_id r h) as (Hc & Ho & He); [|by try (intros e []; eauto)].
    1,2: destruct Hscript as [(? & ? & _)|(s1 & p & _ & [(? & ? & _)|(? & r' & ? & n & ls & _ & Hsays & _)])];
      [by left..|right; by eauto 6].
    + intros r' Hin. destruct Hscript as [(_ & Hno & _)|(s1 & p & Hm & [(_ & Hno & _)|(_ & r1 & Hr1 & Hfs)])].
      1,2: rewrite Hno in Hin; by apply not_elem_of_nil in Hin.
      rewrite Hr1 in Hin. apply list_elem_of_singleton in Hin as ->. by exists d, s0, s1, p.
    + intros Hnil d' s0' s1 p [= <- <-] Hm.
      destruct Hscript as [(_ & _ & Hno)|(s2 & p2 & Hm2 & [(_ & _ & Hns)|(_ & r1 & Hr1 & _)])].
      * by destruct (Hno s1 p).
      * by destruct (main_called_unique _ _ _ _ _ _ _ _ Hm Hm2) as [-> ->].
      * congruence.
  - destruct Hs as (rt1 & err & Hk & Hs). rewrite Hs in Hrun. injection Hrun as <- <-. cbn.
    split_and!; [split; [cbn; lia|done]| | |done].
    + by intros e [[= <-]|?%not_elem_of_nil].
    + by intros r ?%not_elem_of_nil.
Qed.

(** C8. Jobs do not leak into each other: if the runtime is idle before a run
    (empty queues, no deadline, no counted rejection, no job state, its own
    realm) it is idle after it, whatever the script did and however the run
    ended, and its settings are unchanged. *)
Theorem job_isolation (fuel : nat) (realm : Realm) (rt rt' : runtime) (j : MechanicsJob Config) (job_id : str) (ran : Ran) :
  runtime_idle realm rt ->
  run_source_with_early_reply features fuel rt j job_id = Some (rt', ran) ->
  runtime_idle realm rt' /\ same_settings rt rt'.
Proof.
  intros (Hq & Hh & Hv) (c & Hc & [(err & -> & _)|(c0 & d & r & st & Hrun)])%run_source_cases.
  - split; [|done]. split; [done|]. split; [done|]. cbn. congruence.
  - apply run_in_realm_spec in Hrun as (Hq' & Hh' & Hv' & Hs). split; [|done].
    split; [done|]. split; [done|]. rewrite Hv'. rewrite Hv in Hc. unfold ctx_view in Hc. congruence.
Qed.

(** C7. The execution deadline bounds a run, as far as the runtime is
    concerned: provided the engine's own calls return, the only thing that can
    keep a run from returning is its clock.  For every number of turns: either
    the run has returned, with a result that more turns do not change; or it
    got as far as its script, with a deadline computed from the execution
    limit, and one of its two event loops (the one that evaluates the module,
    the one that settles the main promise and runs the tail) has taken all of
    these turns, every one begun before the deadline.  Whatever a script keeps
    enqueueing, a loop that reads a clock at or past the deadline returns. *)
Theorem run_source_ends_at_deadline (fuel : nat) (rt : runtime) (j : MechanicsJob Config) (job_id : str) :
  match run_source_with_early_reply features fuel rt j job_id with
  | Some x => forall fuel', (fuel <= fuel')%nat -> run_source_with_early_reply features fuel' rt j job_id = Some x
  | None => exists d s0, script_start features rt j = Some (d, s0) /\
      compute_deadline (V := V) (rejection_ops (rt_ctx rt)).1 (max_execution_time (rt_execution_limits rt)) = Ok d /\
      keeps_running d fuel (module_source j) (arg j) s0
  end.
Proof.
  pose proof (run_source_script features rt j job_id) as Hs.
  destruct (script_start features rt j) as [[d s0]|] eqn:Hst.
  2: { destruct Hs as (rt1 & err & _ & Hs). rewrite Hs. intros fuel' _. apply Hs. }
  destruct Hs as (Hd & leave & Hl). rewrite (proj1 (Hl fuel)).
  destruct (run_script fuel job_id (module_source j) (arg j) s0) as [x|] eqn:E; cbn [fmap option_fmap option_map].
  - intros fuel' Hle. by rewrite (proj1 (Hl fuel')), (run_script_more _ _ _ _ _ _ _ Hle E).
  - exists d, s0. split; [done|]. split; [|by eapply run_script_None].
    unfold script_start in Hst. repeat case_match; by simplify_eq.
Qed.

(** Clock arithmetic is exact or refused: the instant of a timer and the
    execution deadline have exactly the milliseconds of the sum, and are
    refused exactly when that sum does not fit a [u64]. *)
Theorem clock_arithmetic_exact (c : C) (delta : Duration) :
  0 <= delta <= duration_max ->
  let sum := millis_since_epoch (clock_now c) + as_millis delta in
  match js_checked_add (clock_now c) delta with
  | Some t => millis_since_epoch t = sum
  | None => u64_max < sum
  end /\
  compute_deadline (V := V) c delta = ok_or too_large (js_checked_add (clock_now c) delta).
Proof.
  intros Hd. split; [by apply js_checked_add_exact|].
  assert (forall t, 0 <= t -> try_from u64_max t = if u64_max <? t then None else Some t) as Htry.
  { intros t Ht. unfold try_from. rewrite (proj2 (Z.leb_le 0 t)) by done. cbn.
    destruct (Z.ltb_spec u64_max t), (Z.leb_spec t u64_max); (done || lia). }
  unfold compute_deadline, js_checked_add, js_instant_from_millis.
  destruct (checked_add u128_max _ _) as [t|] eqn:Ha; [|done].
  apply checked_add_Some in Ha as [-> _]. cbn [ok_or mbind result_bind option_bind].
  rewrite Htry by (pose proof (millis_range (clock_now c)) as [? _];
    pose proof (Z.div_pos delta nanos_per_milli); unfold as_millis, nanos_per_milli in *; lia).
  destruct (u64_max <? _); [done|]. cbn [ok_or mbind result_bind option_bind].
  destruct (checked_mul _ _ _); [|done]. cbn [ok_or mbind result_bind option_bind]. by destruct (try_from _ _).
Qed.

(** After a successful preparation the endpoints a script can call are
    exactly those of its configuration, each with its own prepared form. *)
Theorem endpoints_resolve (config : Config) (client : Client) (t m : option Z) (prepared : gmap (list Z) Prepared) (name : str) :
  prepare_endpoints (V := V) (map_to_list (endpoints config)) ∅ = Ok prepared ->
  match state_endpoint (mkState (boa_config_from config) client t m prepared) name with
  | Some (e, p) => endpoints config !! name = Some e /\ prepare_runtime e = Ok p
  | None => endpoints config !! name = None
  end.
Proof.
  intros Hp. apply prepare_endpoints_lookup in Hp as [Hin _]; [|apply NoDup_fst_map_to_list].
  unfold state_endpoint. cbn. destruct (endpoints config !! name) as [e|] eqn:He; cbn; [|done].
  destruct (Hin name e) as (p & Hp & Hok); [by apply elem_of_map_to_list|]. by rewrite Hp.
Qed.
End runtime_properties.

(** ** A concrete runtime

    Instants are nanoseconds.  A promise is the instant at which it settles
    and how; an async job is the instant at which it finishes; polling the
    group waits for its first job or for the whole budget.  The script [[n]]
    starts an async job that finishes at [n] and returns a promise that
    settles then; the script [[0]] throws. *)
Module RuntimeDemo.
Abbreviation data := (MechanicsState (gmap (list Z) Z) () Z).
Record ctx := mkCtx { clock : Z; realm_ : nat; data_ : option data }.
Abbreviation promise := (Z * (Z + Z))%type.

Definition at_ (t : Z) (c : ctx) : ctx := mkCtx (Z.max (clock c) t) (realm_ c) (data_ c).

Definition demo_engine : JsEngine Z Z () () () Z ctx := {|
  clock_now := clock;
  is_cancelled _ _ := false;
  call_async _ c := (c, []);
  call_promise _ c := (c, [], Ok ());
  call_timeout _ c := (c, [], Ok ());
  call_generic _ c := (c, [], Ok ());
  clear_kept_objects c := c;
  sleep d c := at_ (clock c + d) c;
  poll_group g b c :=
    match g with
    | [] => (c, [], None)
    | t :: _ =>
        match b with
        | Some b => if t <=? clock c + b then (at_ t c, [], Some (0%nat, Ok ())) else (at_ (clock c + b) c, [], None)
        | None => (at_ t c, [], Some (0%nat, Ok ()))
        end
    end;
  yield_now c := at_ (clock c + 1) c;
|}.
#[local] Existing Instance demo_engine.

Definition demo_engine_laws : JsEngineLaws Z Z () () () Z ctx.
Proof.
  refine {| tick := fun x => x |}; [intros a b; apply Z.leb_le|..]; cbn; try (intros; lia); [|set_solver|].
  - intros [|t g] [b|] c; cbn; try lia. destruct (t <=? clock c + b); cbn; lia.
  - intros [|t g] [b|] c i r; cbn; try done; [destruct (t <=? clock c + b); cbn; [|done]|]; intros [= <- <-]; lia.
Defined.
#[local] Existing Instance demo_engine_laws.

Definition demo_config : ConfigLib (gmap (list Z) Z) Z Z := {|
  endpoints m := m;
  prepare_runtime e := if e <? 0 then Err (lit "bad endpoint") else Ok (e + 1);
|}.
#[local] Existing Instance demo_config.

Definition demo_runtime : JsRuntime Z Z () () () Z ctx nat Z promise data := {|
  create_realm c := (c, Ok (S (realm_ c)));
  enter_realm r c := (mkCtx (clock c) r (data_ c), realm_ c);
  synthetic_module spec c := (c, Some (Z.of_nat (length spec)));
  loader_changed _ c := c;
  set_loop_iteration_limit _ c := c;
  set_recursion_limit _ c := c;
  set_stack_size_limit _ c := c;
  insert_data d c := mkCtx (clock c) (realm_ c) (Some d);
  remove_data c := mkCtx (clock c) (realm_ c) None;
  get_data := data_;
  module_parse src c :=
    (c, match src with n :: _ => Ok n | [] => Err (NativeError JsPlainError (lit "empty")) end);
  load_link_evaluate m c := (c, [], (clock c, inl m));
  promise_state p c :=
    if fst p <=? clock c then match snd p with inl v => Fulfilled v | inr e => Rejected e end else Pending;
  rejection_ops c := (c, []);
  from_json _ c := (c, Ok 0);
  to_json v c := (c, [], Ok (Some (VNumber (PosInt v))));
  get_value m _ c := (c, [], Ok m);
  as_function v c := Some v;
  call f _ _ c := if f =? 0 then (c, [], Err (OpaqueError 7)) else (c, [(JobAsync f, clock c)], Ok f);
  as_promise v c := Some (v, inl v);
  promise_resolve v c := (c, [], (v, inl v));
  js_null := 0;
  error_display _ := lit "error";
|}.
#[local] Existing Instance demo_runtime.

Definition demo_runtime_laws : JsRuntimeLaws Z Z () () () Z ctx nat Z promise data.
Proof. refine {| current_realm := realm_ |}; cbn; try done; intros; lia. Defined.
#[local] Existing Instance demo_runtime_laws.

Definition all_features : Features :=
  {| f_encoding := true; f_rand := true; f_html := true; f_console := true; f_url := true; f_mime := true |}.

(** A fresh runtime with an execution limit of 50 ms. *)
Definition demo_rt : @RuntimeInternal Z Z () () () Z ctx Z () :=
  mkRuntime (mkCtx 0 0 None) ∅ () queue_new 0 (mkLimits (from_millis 50) 10 10 10) None None.

Definition demo_job (source : str) : MechanicsJob (gmap (list Z) Z) :=
  mkJob source VNull {[ lit "a" := 5 ]} None.

Definition demo_run (source : str) := run_source_with_early_reply all_features 20 demo_rt (demo_job source) (lit "j").

Definition ran_of {R} (o : option (R * Ran)) : option Ran := snd <$> o.

Lemma run_source_contract_witness :
  exists rt' ran, demo_run [from_millis 20] = Some (rt', ran) /\
    ran = mkRan MainReplied [Ok (VNumber (PosInt 20000000))] [] /\
    exists d s0 s1 p, script_start all_features demo_rt (demo_job [from_millis 20]) = Some (d, s0) /\
      main_called 20 [from_millis 20] VNull s0 s1 p /\ first_settled p s1 (Ok (VNumber (PosInt 20000000))).
Proof.
  destruct (demo_run [from_millis 20]) as [[rt' ran]|] eqn:E; [|vm_compute in E; discriminate].
  assert (ran_of (demo_run [from_millis 20]) = Some (mkRan MainReplied [Ok (VNumber (PosInt 20000000))] []))
    as Hr by (vm_compute; reflexivity).
  rewrite E in Hr. injection Hr as ->. exists rt', (mkRan MainReplied [Ok (VNumber (PosInt 20000000))] []).
  split; [reflexivity|]. split; [reflexivity|].
  destruct (run_source_contract all_features 20 demo_rt rt' _ (lit "j") _ E) as (_ & _ & Hrep & _).
  apply Hrep. by left.
Defined.

Lemma demo_rt_idle : runtime_idle 0%nat demo_rt.
Proof. done. Qed.

(** A script that throws leaves nothing behind. *)
Lemma job_isolation_witness :
  exists rt' ran, demo_run [0] = Some (rt', ran) /\ runtime_idle 0%nat rt'.
Proof.
  destruct (demo_run [0]) as [[rt' ran]|] eqn:E; [|vm_compute in E; discriminate].
  exists rt', ran. split; [reflexivity|].
  exact (proj1 (job_isolation all_features 20 0%nat demo_rt rt' _ (lit "j") ran demo_rt_idle E)).
Defined.

(** A script whose async job would finish after the deadline has returned
    after 20 turns. *)
Lemma run_source_ends_at_deadline_witness :
  exists x, forall fuel, (20 <= fuel)%nat ->
    run_source_with_early_reply all_features fuel demo_rt (demo_job [from_millis 80]) (lit "j") = Some x.
Proof.
  pose proof (run_source_ends_at_deadline all_features 20 demo_rt (demo_job [from_millis 80]) (lit "j")) as Hr.
  destruct (run_source_with_early_reply all_features 20 demo_rt (demo_job [from_millis 80]) (lit "j")) as [x|] eqn:E;
    [exists x; exact Hr|vm_compute in E; discriminate].
Defined.

Lemma clock_arithmetic_exact_witness :
  compute_deadline (mkCtx 3000000 0 None) (from_millis 4) = Ok 7000000.
Proof.
  assert (0 <= from_millis 4 <= duration_max) as Hd by (vm_compute; intuition discriminate).
  rewrite (proj2 (clock_arithmetic_exact (mkCtx 3000000 0 None) (from_millis 4) Hd)). reflexivity.
Defined.

Lemma endpoints_resolve_witness :
  exists e p, state_endpoint (mkState (Client := ()) (boa_config_from ({[ lit "a" := 5 ]} : gmap (list Z) Z)) () None None {[ lit "a" := 6 ]}) (lit "a")
    = Some (e, p) /\ prepare_runtime e = Ok p.
Proof.
  pose proof (endpoints_resolve (V := Z) (C := ctx) (Client := ()) ({[ lit "a" := 5 ]} : gmap (list Z) Z) () None None
    {[ lit "a" := 6 ]} (lit "a") eq_refl) as Hr.
  destruct (state_endpoint _ _) as [[e p]|] eqn:E; [|vm_compute in E; discriminate].
  exists e, p. split; [reflexivity|]. exact (proj2 Hr).
Defined.

(** A main result can be dropped: if the main promise settles while the loop
    waits and the execution deadline is reached at the same moment, the loop
    stops at its second deadline check before the reply closure is offered the
    result, and the run ends with the error meant for a contract bug although
    the promise is fulfilled. *)
Theorem settled_main_dropped :
  ran_of (demo_run [from_millis 50]) =
    Some (mkRan (MainNotReplied (execution (lit "run_source_with_early_reply returned without producing a main result")))
            [] [TailPollAborted (lit "j") (mkSnapshot 0 0 0 0)]).
Proof. vm_compute. reflexivity. Qed.
End RuntimeDemo.
