(* ===== verification/EndpointModule.v ===== *)
(** * EndpointModule: the [mechanics:endpoint] module
    (src/src/internal/runtime/builtins/endpoint.rs and the conversions of mod.rs)

    The call options are read from the script's object, the endpoint is looked
    up in the job's state, the request is made by [execute_endpoint], and the
    response becomes a JavaScript object.  The function is asynchronous: while
    the request is under way other jobs of the script can run, which the
    parameter [resume] of [endpoint_call] stands for.  [MechanicsState] is
    data that the engine's context carries. *)

From S2P Require Import Prelude Errors Json Utf8 Str StrMap Transport Endpoint Job PoolConfig Executor RuntimeApi Runtime JsHost BufferLike Codecs.

Section endpoint_module.
Context {W O E Client Config Endpoint_ Prepared : Type}.
Context `{Boa W O} `{SerdeMessages} `{EndpointLibs} `{Env E} `{EndpointHttpClient E Client} `{ConfigLib Config Endpoint_ Prepared}.
(** The data of the job in the engine's context, and what [mechanics-config]
    answers about an endpoint and its prepared form. *)
Context (state_of : W -> option (MechanicsState Config Client Prepared)) (view : Endpoint_ -> Prepared -> HttpEndpoint).
Abbreviation V := (JsValue O).
Abbreviation M := (JsHost.Js W O).

(** ** Options *)

Definition parse_string_map_field (options : O) (k : PropertyKey) (field_name : str) : M (list (str * str)) :=
  value ← boa (obj_get options k);
  if is_undefined value || is_null value then mret []
  else
    json ← boa (value_to_json value);
    json ← pure_ (ok_or (js_type_error (field_name ++ lit " must be an object")) json);
    match json with
    | VObject fields => lib_result (string_entries fields)
    | _ => throw (js_type_error (field_name ++ lit " must be an object"))
    end.

(** The body: absent, null, a string, bytes, or any other value as JSON. *)
Definition parse_body (body_value : V) : M EndpointCallBody :=
  if is_undefined body_value then mret CallAbsent
  else if is_null body_value then mret (CallJson VNull)
  else match as_string body_value with
       | Some s => mret (CallUtf8 (to_std_string_lossy s))
       | None =>
           b ← try_extract_buffer_like_bytes body_value;
           match b with
           | Some b => mret (CallBytes b)
           | None =>
               json ← boa (value_to_json body_value);
               json ← pure_ (ok_or (js_type_error (lit "body is not JSON-convertible")) json);
               mret (CallJson json)
           end
       end.

Definition parse_endpoint_call_options_js (value : V) : M EndpointCallOptions :=
  if is_undefined value || is_null value then mret (mkOptions [] [] [] CallAbsent)
  else match as_object value with
       | None => throw (js_type_error (lit "endpoint options must be an object or null/undefined"))
       | Some options =>
           url_params ← parse_string_map_field options (key "urlParams") (lit "urlParams");
           queries ← parse_string_map_field options (key "queries") (lit "queries");
           headers ← parse_string_map_field options (key "headers") (lit "headers");
           body_value ← boa (obj_get options (key "body"));
           body ← parse_body body_value;
           mret (mkOptions url_params queries headers body)
       end.

(** ** Response *)

Definition response_body (b : EndpointResponseBody) : M V :=
  match b with
  | RespJson v => boa (value_from_json v)
  | RespUtf8 s => mret (js_string_value s)
  | RespBytes b => bytes_to_uint8_array_value b
  | RespEmpty => mret JsNull
  end.

(** The headers as a JSON object; [serde_json]'s map is ordered by key. *)
Definition headers_json (headers : gmap (list Z) (list Z)) : Value :=
  VObject ((fun p => (p.1, VString p.2)) <$> btree_extend (map_to_list headers) []).

Definition endpoint_response_to_js_value (response : EndpointResponse) : M V :=
  body ← response_body (er_body response);
  headers ← boa (value_from_json (headers_json (er_headers response)));
  object ← alloc new_object;
  _ ← boa (obj_set object (key "body") body);
  _ ← boa (obj_set object (key "headers") headers);
  _ ← boa (obj_set object (key "status") (JsInt (er_status response)));
  _ ← boa (obj_set object (key "ok") (JsBoolean (er_ok response)));
  mret (JsObject object).

(** ** The function *)

(** What the function knows when it starts the request. *)
Record PreparedCall := mkCall {
  call_name : str;
  call_endpoint : HttpEndpoint;
  call_state : MechanicsState Config Client Prepared;
  call_options : EndpointCallOptions;
}.

(** Up to the request. *)
Definition endpoint_prepare (args : list V) : M PreparedCall :=
  endpoint ← pure_ (ok_or (js_type_error (lit "endpoint is not a string")) (as_string (get_or_undefined args 0)));
  req_options ← parse_endpoint_call_options_js (get_or_undefined args 1);
  state ← ask state_of;
  state ← pure_ (ok_or (js_type_error (lit "Invalid state")) state);
  let endpoint_name := to_std_string_lossy endpoint in
  found ← pure_ (ok_or (js_type_error (lit "Endpoint not found")) (state_endpoint state endpoint_name));
  mret (mkCall endpoint_name (view found.1 found.2) state req_options).

Definition request_failed (name : str) (e : IoError) : JsError V :=
  from_rust (lit "endpoint `" ++ name ++ lit "` request failed: " ++ io_msg e).

(** The whole call: the engine's state, the environment of the request with
    the attempts made, and the result. *)
Definition endpoint_call (version : str) (args : list V) (resume : W -> W) (w : W) (e : E)
  : option (W * E * list AttemptLog * result (JsError V) V) :=
  match endpoint_prepare args w with
  | None => None
  | Some (w1, Err err) => Some (w1, e, [], Err err)
  | Some (w1, Ok call) =>
      let st := call_state call in
      let '(e1, log, r) :=
        execute_endpoint version (call_endpoint call) (st_endpoint_http_client st)
          (st_default_timeout_ms st) (st_default_response_max_bytes st) (call_options call) e in
      let w2 := resume w1 in
      match r with
      | Err err => Some (w2, e1, log, Err (request_failed (call_name call) err))
      | Ok res => '(w3, v) ← endpoint_response_to_js_value res w2; Some (w3, e1, log, v)
      end
  end.
End endpoint_module.

(** ** Requests *)

Section requests.
Context {E C : Type} `{!Env E, !EndpointHttpClient E C}.

(** Every attempt sends a request that the builder made. *)
Lemma attempt_loop_requests policy (client : C) deadline mk_request left_ attempt (e : E) :
  let '(_, log, _) := attempt_loop policy client deadline mk_request left_ attempt e in
  Forall (fun l : AttemptLog => exists t, mk_request t = Ok l.1) log.
Proof.
  revert attempt e. induction left_ as [|left_ IH]; intros attempt e; cbn [attempt_loop]; [constructor|].
  assert (match snd (one_attempt policy client deadline mk_request attempt e) with
          | NoAttempt _ => True
          | LastAttempt l _ | RetryAfter l _ => exists t, mk_request t = Ok l.1
          end) as Hone.
  { unfold one_attempt. destruct (remaining_ms _ _) as [[|p|p]|]; cbn; try done.
    all: destruct (mk_request _) as [req|] eqn:Hreq; cbn; [|done].
    all: destruct (client_execute client req e) as [e1 [res|err]]; cbn.
    all: match goal with |- context [if ?c then _ else _] => destruct c end; cbn; eauto. }
  destruct (one_attempt _ _ _ _ attempt e) as [e1 [err|l r|l delay]]; cbn in Hone; [constructor|by constructor|].
  specialize (IH (S attempt) (retry_sleep delay deadline e1)).
  destruct (attempt_loop _ _ _ _ left_ _ _) as [[e2 logs] r]. by constructor.
Qed.
End requests.

Section properties.
Context {W O E Client Config Endpoint_ Prepared : Type}.
Context `{Boa W O} `{SerdeMessages} `{EndpointLibs} `{Env E} `{EndpointHttpClient E Client} `{ConfigLib Config Endpoint_ Prepared}.
Context (state_of : W -> option (MechanicsState Config Client Prepared)) (view : Endpoint_ -> Prepared -> HttpEndpoint).

(** A request that an endpoint's configuration made of the call options: its
    method, the URL of its template, the headers it allows, its body type and
    its limits. *)
Definition request_of (version : str) (st : MechanicsState Config Client Prepared) (ep : HttpEndpoint)
    (o : EndpointCallOptions) (req : EndpointHttpRequest) : Prop :=
  rq_method req = ep_method ep /\
  build_url_for_options ep o = Ok (rq_url req) /\
  (exists headers, build_headers_for_options version ep (default_content_type ep o) o = Ok headers /\
     rq_headers req = from_http_map headers) /\
  request_body ep o = Ok (rq_body req) /\
  rq_response_max_bytes req = opt_or (ep_response_max_bytes ep) (st_default_response_max_bytes st).

Lemma execute_requests version (st : MechanicsState Config Client Prepared) ep o (e : E) :
  let '(_, log, _) := execute_endpoint version ep (st_endpoint_http_client st)
    (st_default_timeout_ms st) (st_default_response_max_bytes st) o e in
  Forall (fun l => request_of version st ep o l.1) log.
Proof.
  unfold execute_endpoint.
  destruct (build_url_for_options ep o) as [url|] eqn:Hu; cbn; [|constructor].
  destruct (build_headers_for_options _ _ _ o) as [headers|] eqn:Hh; cbn; [|constructor].
  match goal with |- context [attempt_loop ?p ?c ?d ?m ?l ?a e] =>
    pose proof (attempt_loop_requests p c d m l a e) as Hl; destruct (attempt_loop p c d m l a e) as [[e1 log] r] end.
  eapply Forall_impl; [exact Hl|]. intros [req res] [t Ht]. cbn in *. unfold build_request in Ht.
  apply bind_Ok in Ht as (body & Hb & [= <-]). unfold request_of. cbn. eauto 10.
Qed.

(** The script's options, read from its object in this order: the three
    string maps and the body, each from the property of its own name.  A
    string map that is absent or null is empty; otherwise its JSON is an object
    of strings. *)
Inductive string_field (options : O) (name : string) (w : W) : W -> list (str * str) -> Prop :=
| field_absent w1 v : obj_get options (key name) w = (w1, Ok v) -> v = JsUndefined \/ v = JsNull ->
    string_field options name w w1 []
| field_object w1 v w2 entries : obj_get options (key name) w = (w1, Ok v) -> v <> JsUndefined -> v <> JsNull ->
    value_to_json v w1 = (w2, Ok (Some (VObject ((fun p => (p.1, VString p.2)) <$> entries)))) ->
    string_field options name w w2 entries.

Inductive body_field (w : W) : JsValue O -> W -> EndpointCallBody -> Prop :=
| body_absent : body_field w JsUndefined w CallAbsent
| body_null : body_field w JsNull w (CallJson VNull)
| body_string u : body_field w (JsString u) w (CallUtf8 (to_std_string_lossy u))
| body_bytes o w1 b : try_extract_buffer_like_bytes (JsObject o) w = Some (w1, Ok (Some b)) ->
    body_field w (JsObject o) w1 (CallBytes b)
| body_json v w1 w2 j : is_undefined v = false -> is_null v = false -> as_string v = None ->
    try_extract_buffer_like_bytes v w = Some (w1, Ok None) -> value_to_json v w1 = (w2, Ok (Some j)) ->
    body_field w v w2 (CallJson j).

Inductive options_read (w : W) : JsValue O -> W -> EndpointCallOptions -> Prop :=
| options_none v : v = JsUndefined \/ v = JsNull -> options_read w v w (mkOptions [] [] [] CallAbsent)
| options_object obj w1 w2 w3 w4 w5 v o :
    string_field obj "urlParams" w w1 (url_params o) -> string_field obj "queries" w1 w2 (queries o) ->
    string_field obj "headers" w2 w3 (opt_headers o) -> obj_get obj (key "body") w3 = (w4, Ok v) ->
    body_field w4 v w5 (opt_body o) -> options_read w (JsObject obj) w5 o.

Lemma string_entries_inv fields es :
  string_entries fields = Ok es -> fields = (fun p => (p.1, VString p.2)) <$> es.
Proof.
  revert es. induction fields as [|[k v] fields IH]; intros es; cbn; [by intros [= <-]|].
  destruct v; try done. intros (es' & He & [= <-])%bind_Ok. cbn. f_equal. by apply IH.
Qed.

Lemma parse_string_map_field_Ok obj name (field : str) w w' es :
  parse_string_map_field obj (key name) field w = Some (w', Ok es) -> string_field obj name w w' es.
Proof.
  unfold parse_string_map_field. intros (w1 & v & Hv%boa_Ok & Hf)%host_bind_Ok.
  destruct (is_undefined v || is_null v) eqn:Hn.
  - injection Hf as <- <-. eapply field_absent; [done|]. destruct v; try done; auto.
  - apply host_bind_Ok in Hf as (w2 & json & Hj%boa_Ok & Hf).
    apply host_bind_Ok in Hf as (w3 & json' & [-> Hj']%pure_Ok & Hf). destruct json as [json|]; simplify_eq/=.
    destruct json'; try done. apply pure_Ok in Hf as [-> Hes].
    destruct (string_entries fields) as [es'|] eqn:He; simplify_eq/=. apply string_entries_inv in He as ->.
    eapply field_object; [done| | |done]; by intros ->.
Qed.

Lemma parse_body_Ok v w w' b : parse_body v w = Some (w', Ok b) -> body_field w v w' b.
Proof.
  unfold parse_body. destruct (is_undefined v) eqn:Hu; [destruct v; try done; intros [= <- <-]; constructor|].
  destruct (is_null v) eqn:Hn; [destruct v; try done; intros [= <- <-]; constructor|].
  destruct (as_string v) as [u|] eqn:Hs; [destruct v; simplify_eq/=; intros [= <- <-]; constructor|].
  intros (w1 & ob & Hb & Hf)%host_bind_Ok. destruct ob as [b'|].
  - injection Hf as <- <-. unfold try_extract_buffer_like_bytes in Hb. destruct (as_object v) as [o|] eqn:Ho; [|done].
    destruct v; simplify_eq/=. by constructor.
  - apply host_bind_Ok in Hf as (w2 & json & Hj%boa_Ok & Hf).
    apply host_bind_Ok in Hf as (w3 & json' & [-> Hj']%pure_Ok & Hf). destruct json as [json|]; simplify_eq/=.
    injection Hf as <- <-. by eapply body_json.
Qed.

Lemma parse_options_Ok v w w' o :
  parse_endpoint_call_options_js v w = Some (w', Ok o) -> options_read w v w' o.
Proof.
  unfold parse_endpoint_call_options_js. destruct (is_undefined v || is_null v) eqn:Hn.
  - intros [= <- <-]. constructor. destruct v; try done; auto.
  - destruct (as_object v) as [obj|] eqn:Ho; [|by intros [_ ?]%pure_Ok]. destruct v; simplify_eq/=.
    intros (w1 & up & Hup%parse_string_map_field_Ok & Hf)%host_bind_Ok.
    apply host_bind_Ok in Hf as (w2 & q & Hq%parse_string_map_field_Ok & Hf).
    apply host_bind_Ok in Hf as (w3 & h & Hh%parse_string_map_field_Ok & Hf).
    apply host_bind_Ok in Hf as (w4 & bv & Hbv%boa_Ok & Hf).
    apply host_bind_Ok in Hf as (w5 & b & Hb%parse_body_Ok & Hf). injection Hf as <- <-. by econstructor.
Qed.

Lemma endpoint_prepare_Ok args (w w1 : W) call :
  endpoint_prepare state_of view args w = Some (w1, Ok call) ->
  exists u st ep p, get_or_undefined args 0 = JsString u /\ call_name call = to_std_string_lossy u /\
    options_read w (get_or_undefined args 1) w1 (call_options call) /\
    state_of w1 = Some st /\ state_endpoint st (to_std_string_lossy u) = Some (ep, p) /\
    call_state call = st /\ call_endpoint call = view ep p.
Proof.
  unfold endpoint_prepare. intros (w2 & u & [-> Hu]%pure_Ok & Hp)%host_bind_Ok.
  destruct (get_or_undefined args 0) as [| | |u'| | | | |]; try done. cbn in Hu. simplify_eq.
  apply host_bind_Ok in Hp as (w3 & o & Ho%parse_options_Ok & Hp).
  apply host_bind_Ok in Hp as (w4 & st' & Hst & Hp). injection Hst as <- <-.
  apply host_bind_Ok in Hp as (w4 & st & [-> Hst]%pure_Ok & Hp). destruct (state_of w3) as [st'|] eqn:Hs; simplify_eq/=.
  apply host_bind_Ok in Hp as (w5 & ep & [-> Hep]%pure_Ok & Hp). destruct (state_endpoint st _) as [[ep' p]|] eqn:He; simplify_eq/=.
  injection Hp as <- <-. eexists _, _, _, _. repeat (split; [done|]). done.
Qed.

(** C9. A script reaches the network only through its configured endpoints:
    if a call of the endpoint function makes any request, its first argument
    names an endpoint of the job's configuration, its second argument gave the
    call options, each read from the property of its own name (URL
    parameters, queries, headers, body), and every request the call makes is
    the one that endpoint's configuration builds from these options: method,
    URL, headers, body type and size limit are not the script's choice. *)
Theorem endpoint_requests_confined (version : str) (args : list (JsValue O)) (resume : W -> W) (w w' : W) (e e' : E)
    (log : list AttemptLog) (r : result (JsError (JsValue O)) (JsValue O)) :
  endpoint_call state_of view version args resume w e = Some (w', e', log, r) ->
  (log = [] /\ e' = e) \/
  exists u w1 st ep p o,
    get_or_undefined args 0 = JsString u /\ options_read w (get_or_undefined args 1) w1 o /\
    state_of w1 = Some st /\
    endpoints (as_inner (st_config st)) !! to_std_string_lossy u = Some ep /\
    st_prepared_endpoints st !! to_std_string_lossy u = Some p /\
    Forall (fun l => request_of version st (view ep p) o l.1) log.
Proof.
  unfold endpoint_call. destruct (endpoint_prepare _ _ args w) as [[w1 [call|err]]|] eqn:Hp; [|intros [= <- <- <- <-]; by left|done].
  apply endpoint_prepare_Ok in Hp as (u & st & ep & p & Hu & Hn & Ho & Hst & Hep & Hcs & Hce).
  pose proof (execute_requests version st (view ep p) (call_options call) e) as Hl. rewrite Hcs, Hce.
  destruct (execute_endpoint _ _ _ _ _ _ e) as [[e1 log1] res]. intros Hrun. right.
  unfold state_endpoint in Hep. apply bind_Some in Hep as (ep' & He & (p' & Hp' & [= <- <-])%bind_Some).
  exists u, w1, st, ep', p', (call_options call). split_and!; try done.
  destruct res as [res|err]; [|by simplify_eq]. apply bind_Some in Hrun as ([w3 v] & _ & Hrun). by simplify_eq.
Qed.

(** A call that is refused makes no request and leaves the clock alone:
    a name that is not a string, a context without job state, and a name that
    is not configured each give their own error. *)
Theorem endpoint_call_refused (version : str) (v : JsValue O) (u : list Z) (resume : W -> W) (w : W) (e : E) :
  (as_string v = None ->
     endpoint_call state_of view version [v] resume w e =
       Some (w, e, [], Err (js_type_error (lit "endpoint is not a string")))) /\
  (state_of w = None ->
     endpoint_call state_of view version [JsString u] resume w e =
       Some (w, e, [], Err (js_type_error (lit "Invalid state")))) /\
  (forall st, state_of w = Some st ->
     endpoints (as_inner (st_config st)) !! to_std_string_lossy u = None ->
     endpoint_call state_of view version [JsString u] resume w e =
       Some (w, e, [], Err (js_type_error (lit "Endpoint not found")))).
Proof.
  unfold endpoint_call, endpoint_prepare. split_and!.
  - intros Hv. rewrite js_bind_eq. change (get_or_undefined [v] 0) with v. rewrite Hv. done.
  - intros Hs. do 3 (rewrite js_bind_eq; cbn -[execute_endpoint]). by rewrite Hs.
  - intros st Hs He. do 3 (rewrite js_bind_eq; cbn -[execute_endpoint state_endpoint]). rewrite Hs.
    cbn -[execute_endpoint state_endpoint].
    rewrite js_bind_eq. cbn -[execute_endpoint state_endpoint]. rewrite js_bind_eq.
    assert (state_endpoint st (to_std_string_lossy u) = None) as -> by (unfold state_endpoint; by rewrite He). done.
Qed.
End properties.
