(* ===== verification/EndpointModuleDemo.v ===== *)
(** * EndpointModuleDemo: a concrete call of the endpoint function

    The engine of [JsDemo], the flaky server of [EndpointDemo] and a
    configuration with one endpoint. *)

From S2P Require Import Prelude Errors Json Utf8 Str StrMap Transport Endpoint Job PoolConfig Executor RuntimeApi Runtime JsHost BufferLike JsDemo Codecs CodecsDemo EndpointModule.
Import BufferDemo CodecDemo.

#[local] Existing Instances TransportDemo.clock_env EndpointDemo.flaky_client EndpointDemo.demo_libs.

#[export] Instance one_config : ConfigLib (gmap (list Z) HttpEndpoint) HttpEndpoint () := {|
  endpoints := fun c => c;
  prepare_runtime := fun _ => Ok ();
|}.

Definition job_state : MechanicsState (gmap (list Z) HttpEndpoint) () () :=
  mkState (boa_config_from {[lit "echo" := EndpointDemo.demo_endpoint]}) () None None {[lit "echo" := ()]}.
Definition state_of (_ : W) : option (MechanicsState (gmap (list Z) HttpEndpoint) () ()) := Some job_state.
Definition view (ep : HttpEndpoint) (_ : ()) : HttpEndpoint := ep.

(** The options object has a typed array of two bytes as its body. *)
Definition call_world : W :=
  [DBuffer (Some [104; 105]); DTyped 0 0 2; DPlain [(key "body", JsObject 1%nat)]].
Definition call (name : string) :=
  endpoint_call state_of view (lit "1") [JsString (lit name); JsObject 2%nat] (fun w => w) call_world 0.

(** The call sends three requests and returns an object with the response. *)
Example echo_call :
  match call "echo" with
  | Some (w, e, log, Ok (JsObject o)) =>
      (e, length log, heap_get w o (key "status"), heap_get w o (key "ok"), heap_get w o (key "body"))
  | _ => (0, 0%nat, JsUndefined, JsUndefined, JsUndefined)
  end = (from_millis 45, 3%nat, JsInt 200, JsBoolean true, JsString (lit "hi")).
Proof. vm_compute. reflexivity. Qed.

Definition call_log (name : string) : list AttemptLog :=
  match call name with Some (_, _, log, _) => log | None => [] end.

Lemma endpoint_requests_confined_witness :
  (call_log "echo" = [] /\ from_millis 45 = 0) \/
  exists u w1 st ep p o,
    get_or_undefined [JsString (lit "echo"); JsObject 2%nat] 0 = JsString u /\
    options_read call_world (get_or_undefined [JsString (lit "echo"); JsObject 2%nat] 1) w1 o /\ state_of w1 = Some st /\
    endpoints (as_inner (st_config st)) !! to_std_string_lossy u = Some ep /\
    st_prepared_endpoints st !! to_std_string_lossy u = Some p /\
    Forall (fun l => request_of (lit "1") st (view ep p) o l.1) (call_log "echo").
Proof.
  destruct (call "echo") as [[[[w' e'] log] r]|] eqn:Hc; [|vm_compute in Hc; discriminate Hc].
  assert (call_log "echo" = log) as -> by (unfold call_log; by rewrite Hc).
  assert (e' = from_millis 45) as He.
  { transitivity (match call "echo" with Some (_, e, _, _) => e | None => 0 end); [by rewrite Hc|].
    vm_compute. reflexivity. }
  rewrite <- He.
  exact (endpoint_requests_confined state_of view (lit "1") _ _ call_world w' 0 e' log r Hc).
Defined.

Lemma endpoint_call_refused_witness :
  endpoint_call state_of view (lit "1") [JsString (lit "other")] (fun w => w) call_world 0 =
    Some (call_world, 0, [], Err (js_type_error (lit "Endpoint not found"))).
Proof.
  apply (endpoint_call_refused state_of view (lit "1") JsNull (lit "other") (fun w => w) call_world 0) with job_state;
    vm_compute; reflexivity.
Defined.
