(* ===== verification/Builtins.v ===== *)
(** * Builtins: the modules a script can import
    (src/src/internal/runtime/builtins/mod.rs, url.rs, endpoint.rs, and the
    module loader of executor.rs)

    The tables of the built-in modules put together as [bundle_builtin_modules]
    does, the registration of the two URL classes, and what the loader of a
    runtime answers to an import, from the construction of the runtime through
    any number of jobs. *)

From S2P Require Import Prelude Errors Json Utf8 Str StrMap Transport Endpoint Job PoolConfig Executor RuntimeApi Runtime JsHost BufferLike Codecs Mime MimeJs Url EndpointModule.

(** ** Classes *)

(** What Boa keeps of the classes of a realm: [get_global_class],
    [ClassBuilder] and [Realm::register_class].  A class is named by its Rust
    type, here by [class_name]. *)
Class ClassRegistry (C U O : Type) `{HostObjects C U O} := {
  get_global_class : str -> Url.World C U -> option O;
  build_class : ClassSpec (C := C) (U := U) (O := O) -> Url.World C U -> Url.World C U * result (JsError (JsValue O)) O;
  realm_register_class : str -> O -> Url.World C U -> Url.World C U;
}.

Section classes.
Context {C U O : Type} `{Boa (Url.World C U) O} `{HostObjects C U O} `{UrlLib U} `{FormLib} `{!ClassRegistry C U O}.

Definition register_class (spec : ClassSpec) : Js (Url.World C U) O O := fun w =>
  match get_global_class (class_name spec) w with
  | Some constructor => Some (w, Ok constructor)
  | None =>
      match build_class spec w with
      | (w1, Err e) => Some (w1, Err e)
      | (w1, Ok constructor) => Some (realm_register_class (class_name spec) constructor w1, Ok constructor)
      end
  end.

(** [url::register] up to the definition of the module, which is skipped if a
    class cannot be registered. *)
Definition url_register_classes (w : Url.World C U) : option (Url.World C U * option (SyntheticModule O)) :=
  '(w1, r) ← (url_constructor ← register_class url_class;
              params_constructor ← register_class params_class;
              mret [(lit "default", url_constructor); (lit "URLSearchParams", params_constructor)]) w;
  Some (w1, mkSynthetic (sm_specifier url_register) <$> result_ok r).

(** What a realm promises: a registered class is found again. *)
Class ClassRegistryLaws : Prop := {
  global_class_registered : forall name c w, get_global_class name (realm_register_class name c w) = Some c;
}.

(** Registering a class again in the same realm gives the same constructor
    and changes nothing. *)
Lemma register_class_once `{!ClassRegistryLaws} spec w w1 constructor :
  register_class spec w = Some (w1, Ok constructor) -> register_class spec w1 = Some (w1, Ok constructor).
Proof.
  unfold register_class. destruct (get_global_class (class_name spec) w) as [c|] eqn:Hc.
  - intros [= -> ->]. by rewrite Hc.
  - destruct (build_class spec w) as [w2 [c|e]]; [|done]. intros [= <- <-].
    by rewrite global_class_registered.
Qed.
End classes.

(** ** The modules *)

(** Specifier and export names of a module. *)
Definition surface {E} (m : SyntheticModule E) : str * list str := (sm_specifier m, (sm_exports m).*1).

(** [endpoint::register]: the module of the asynchronous function
    [endpoint_call], whose name and length are given. *)
Definition endpoint_register : SyntheticModule (str * Z) :=
  mkSynthetic (lit "mechanics:endpoint") [(lit "default", (lit "endpoint", 2))].

Section modules.
Context {C U O Uuid : Type} `{Boa (Url.World C U) O} `{HostObjects C U O} `{UrlLib U} `{FormLib}.
Context `{DataEncoding} `{HexLib} `{Htmlize} `{SerdeMessages} `{UuidLib (Url.World C U) Uuid} `{Getrandom (Url.World C U)} `{Base64}.
Abbreviation W := (Url.World C U).

(** [bundle_builtin_modules]: the modules of every feature, in the order of
    registration; the console's object is made by the engine. *)
Definition bundled (f : Features) (console : O) (depth fuel : nat) : list (str * list str) :=
  [surface endpoint_register] ++
  (if f_encoding f then [surface (form_urlencoded_register (W := W) (O := O)); surface (base64_register (W := W) (O := O));
      surface (hex_register (W := W) (O := O)); surface (base32_register (W := W) (O := O))] else []) ++
  (if f_rand f then [surface (rand_register (W := W) (O := O)); surface (uuid_register (W := W) (O := O) (Uuid := Uuid))] else []) ++
  (if f_html f then [surface (html_register (W := W) (O := O))] else []) ++
  (if f_console f then [surface (mkSynthetic (lit "mechanics:console") [(lit "default", console)])] else []) ++
  (if f_url f then [surface (url_register (C := C) (U := U) (O := O))] else []) ++
  (if f_mime f then [surface (mime_register (W := W) (O := O) depth fuel)] else []).

(** The tables of the modules are those the runtime registers. *)
Lemma bundled_specifiers f console depth fuel : (bundled f console depth fuel).*1 = builtin_specifiers f.
Proof. destruct f as [[] [] [] [] [] []]; reflexivity. Qed.

(** No two modules share a specifier and no module exports a name twice. *)
Lemma bundled_distinct f console depth fuel :
  NoDup (bundled f console depth fuel).*1 /\ Forall (fun m => NoDup m.2) (bundled f console depth fuel).
Proof.
  split.
  - rewrite bundled_specifiers. apply (bool_decide_eq_true_1 _). destruct f as [[] [] [] [] [] []]; vm_compute; reflexivity.
  - destruct f as [[] [] [] [] [] []]; repeat constructor; cbn; apply (bool_decide_eq_true_1 _); vm_compute; reflexivity.
Qed.
End modules.

(** ** Imports *)

Section imports.
Context {I A P T G V C Realm Module Promise Config Endpoint Client Prepared : Type}.
Context `{JsTime I} `{!JsEngine I A P T G V C} `{!ConfigLib Config Endpoint Prepared}.
Context `{!JsRuntime I A P T G V C Realm Module Promise (MechanicsState Config Client Prepared)}.
Context (features : Features).
Abbreviation runtime := (RuntimeInternal (I := I) (A := A) (P := P) (T := T) (G := G) (V := V) (C := C)
  (Module := Module) (Client := Client)).

(** A loader that knows built-in modules only. *)
Definition confined (loader : gmap (list Z) Module) : Prop :=
  forall spec, is_Some (loader !! spec) -> spec ∈ builtin_specifiers features.

Lemma register_confined (specs : list str) (lc : gmap (list Z) Module * C) :
  (forall s : str, s ∈ specs -> s ∈ builtin_specifiers features) -> confined lc.1 -> confined (foldl register_module lc specs).1.
Proof.
  revert lc. induction specs as [|s specs IH]; intros [l c] Hs Hc; [done|]. cbn [foldl]. apply IH; [set_solver|].
  unfold register_module. destruct (synthetic_module s c) as [c1 [m|]]; [|done]. cbn. intros s'. unfold define_module.
  destruct (decide (s = s')) as [<-|Hne]; [set_solver|]. rewrite lookup_insert_ne by done. apply Hc.
Qed.

Lemma bundle_confined loader (c : C) : confined loader -> confined (bundle_builtin_modules features loader c).1.
Proof. intros Hl. by apply register_confined. Qed.

(** A module is registered if the engine can make its objects. *)
Lemma register_complete (specs : list str) (lc : gmap (list Z) Module * C) spec :
  (forall c, is_Some (synthetic_module spec c).2) -> spec ∈ specs \/ is_Some (lc.1 !! spec) ->
  is_Some ((foldl register_module lc specs).1 !! spec).
Proof.
  intros Hm. revert lc. induction specs as [|s specs IH]; intros [l c] Hor; [destruct Hor; [set_solver|done]|].
  cbn [foldl]. apply IH. unfold register_module. destruct (decide (s = spec)) as [->|Hne].
  - destruct (Hm c) as [m Hsm]. destruct (synthetic_module spec c) as [c1 o]. cbn in Hsm. subst o.
    right. cbn. unfold define_module. by rewrite lookup_insert_eq.
  - destruct (synthetic_module s c) as [c1 [m|]]; cbn; unfold define_module; rewrite ?lookup_insert_ne by done; set_solver.
Qed.

(** The runtimes a worker can have: a new one, after a change of settings,
    and after running a job. *)
Inductive runtime_reachable : runtime -> Prop :=
| reach_new (c : C) (client : Client) rt :
    runtime_new features (Ok ()) (Ok c) client = Ok rt -> runtime_reachable rt
| reach_limits rt l : runtime_reachable rt -> runtime_reachable (set_execution_limits l rt)
| reach_timeout rt t : runtime_reachable rt -> runtime_reachable (set_default_endpoint_timeout_ms t rt)
| reach_max_bytes rt m : runtime_reachable rt -> runtime_reachable (set_default_endpoint_response_max_bytes m rt)
| reach_run rt fuel j job_id rt' ran :
    runtime_reachable rt -> run_source_with_early_reply features fuel rt j job_id = Some (rt', ran) ->
    runtime_reachable rt'.

(** A run either keeps the loader or bundles the modules once more. *)
Lemma run_source_loader fuel (rt rt' : runtime) j job_id ran :
  run_source_with_early_reply features fuel rt j job_id = Some (rt', ran) ->
  rt_loader rt' = rt_loader rt \/ exists c : C, rt_loader rt' = (bundle_builtin_modules features (rt_loader rt) c).1.
Proof.
  unfold run_source_with_early_reply. cbn. destruct (rejection_ops (rt_ctx rt)) as [c0 ops].
  destruct (prepare_endpoints _ _) as [prepared|err]; [|intros [= <- <-]; by left].
  destruct (compute_deadline c0 _) as [d|err]; cbn; [|intros [= <- <-]; by left].
  destruct (create_realm c0) as [c1 [realm|err]]; cbn; [|intros [= <- <-]; by left].
  unfold run_in_realm, enter_job. destruct (enter_realm realm c1) as [c2 prev].
  destruct (bundle_builtin_modules _ _ c2) as [loader c3] eqn:Hb.
  change (bundle_builtin_modules features (rt_loader rt) c2 = (loader, c3)) in Hb.
  intros ([[[s h] log] r] & _ & Hrun)%bind_Some. right. exists c2.
  change (rt_loader rt' = (bundle_builtin_modules features (rt_loader rt) c2).1). rewrite Hb.
  destruct (rejection_ops _) as [c8 ?], (enter_realm prev c8) as [c9 ?], (run_outcome _ _ _) as [o log'].
  by injection Hrun as <- <-.
Qed.

(** The loader of a reachable runtime: what every bundling establishes and keeps
    holds of it. *)
Lemma reachable_loader (I' : gmap (list Z) Module -> Prop) (rt : runtime) :
  (forall c : C, I' (bundle_builtin_modules features loader_new c).1) ->
  (forall loader (c : C), I' loader -> I' (bundle_builtin_modules features loader c).1) ->
  runtime_reachable rt -> I' (rt_loader rt).
Proof.
  intros Hnew Hstep. induction 1 as [c client rt Hrt| | | |rt fuel j job_id rt' ran _ IH Hrun]; try done.
  - unfold runtime_new in Hrt. cbn [map_err mbind result_bind] in Hrt. specialize (Hnew c).
    destruct (bundle_builtin_modules features loader_new c) as [loader c1]. injection Hrt as <-. exact Hnew.
  - apply run_source_loader in Hrun as [->|[c ->]]; auto.
Qed.

(** C10. What a script can import: however many jobs a runtime has run, an
    import resolves only to a module of the enabled features, and any other
    specifier is a ReferenceError; a module of the enabled features is found
    whenever the engine can make its objects. *)
Theorem imports_confined (rt : runtime) (spec : str) :
  runtime_reachable rt ->
  match load_imported_module (V := V) (rt_loader rt) spec with
  | Ok _ => spec ∈ builtin_specifiers features
  | Err e => e = NativeError JsReferenceError (lit "Module not found") /\ rt_loader rt !! spec = None
  end /\
  (spec ∈ builtin_specifiers features -> (forall c : C, is_Some (synthetic_module spec c).2) ->
   is_ok (load_imported_module (V := V) (rt_loader rt) spec) = true).
Proof.
  intros Hr. unfold load_imported_module. split.
  - destruct (rt_loader rt !! spec) as [m|] eqn:Hm; cbn; [|done].
    apply (reachable_loader confined rt); [|intros; by apply bundle_confined|done|by eexists].
    intros c. apply bundle_confined. intros s [x Hx]. unfold loader_new in Hx. by rewrite lookup_empty in Hx.
  - intros Hin Hmake. destruct (reachable_loader (fun l => is_Some (l !! spec)) rt) as [m ->]; auto;
      intros; by apply register_complete; auto.
Qed.
End imports.

(** ** A concrete runtime *)

Module BuiltinsDemo.
Import RuntimeDemo.
#[local] Existing Instances demo_engine demo_config demo_runtime.

(** A new runtime that has run one job. *)
Definition used_rt : option (@RuntimeInternal Z Z () () () Z ctx Z ()) :=
  rt ← result_ok (runtime_new all_features (Ok ()) (Ok (mkCtx 0 0 None)) ());
  '(rt', _) ← run_source_with_early_reply all_features 20 rt (demo_job [from_millis 20]) (lit "j");
  Some rt'.

Lemma imports_confined_witness : exists rt, used_rt = Some rt /\
  match load_imported_module (V := Z) (rt_loader rt) (lit "node:fs") with
  | Ok _ => lit "node:fs" ∈ builtin_specifiers all_features
  | Err e => e = NativeError JsReferenceError (lit "Module not found") /\ rt_loader rt !! lit "node:fs" = None
  end /\ is_ok (load_imported_module (V := Z) (rt_loader rt) (lit "mechanics:mime")) = true.
Proof.
  destruct used_rt as [rt|] eqn:E; [|vm_compute in E; discriminate]. exists rt. split; [reflexivity|].
  assert (runtime_reachable all_features rt) as Hr.
  { unfold used_rt in E. apply bind_Some in E as (rt0 & Hnew & ([rt1 ran] & Hrun & [= ->])%bind_Some).
    eapply reach_run; [|exact Hrun]. eapply (reach_new _ (mkCtx 0 0 None) ()).
    destruct (runtime_new _ _ _ _) as [r|]; [|discriminate]. injection Hnew as ->. reflexivity. }
  split.
  - apply (imports_confined all_features rt (lit "node:fs") Hr).
  - apply (imports_confined all_features rt (lit "mechanics:mime") Hr).
    + apply (bool_decide_eq_true_1 _). vm_compute. reflexivity.
    + intros c. by eexists.
Defined.
End BuiltinsDemo.
