(* ===== verification/Pool.v ===== *)
(** * Pool: the worker pool as a transition system
    (src/src/internal/pool/{shared,worker,api,constructor,drop_impl}.rs)

    The threads of a pool are the thread that owns it (construction and drop),
    the supervisor, the workers and the callers of [run].  Each thread is a
    program counter with its local variables; one step is one access to the
    state the threads share: a channel operation, one critical section of the
    workers lock, one atomic load or store.  [step] is executable: an action
    says which thread moves and how a call to code outside the pool turns out
    (a thread start, a job execution, a timed wait).

    The channels are crossbeam's, taken by their documented behaviour: a
    bounded channel is a FIFO queue that never holds more than its capacity,
    [try_send] fails exactly when it is full, a send and a receive fail as
    disconnected only when the other side is gone.  [MechanicsPoolShared] owns
    both ends of the job channel, so the disconnected arms of its sends and
    receives are never taken and do not occur as branches. *)

From Stdlib Require Import SpecFloat.
From stdpp Require Import pretty.
From S2P Require Import Prelude Errors Json Job PoolConfig RestartGuard Metrics RuntimeApi.

(** ** The reply channel and the cancellation flag of one call *)

(** [canceled: Arc<AtomicBool>] and the [bounded(1)] reply channel: its one
    slot and whether the receiver is still there. *)
Record Cell := mkCell {
  canceled : bool;
  reply_buf : option reply;
  reply_rx : bool;
}.

Definition cell_new : Cell := mkCell false None true.

(** [PoolJob::is_canceled] and [mark_canceled]. *)
Definition is_canceled (c : Cell) : bool := canceled c.
Definition mark_canceled (c : Cell) : Cell := mkCell true (reply_buf c) (reply_rx c).

(** [PoolJob::send_result], and every other send on the reply channel: the
    error of a vanished receiver is ignored; [None] while the slot is full,
    where the sender blocks. *)
Definition send_result (r : reply) (c : Cell) : option Cell :=
  if reply_rx c then
    match reply_buf c with
    | Some _ => None
    | None => Some (mkCell (canceled c) (Some r) true)
    end
  else Some c.

(** The receiver goes out of scope when the call returns. *)
Definition drop_rx (c : Cell) : Cell := mkCell (canceled c) (reply_buf c) false.

(** ** Threads *)

Section threads.
Context {Config : Type}.

(** A queued [PoolMessage::Run]; [pj_call] names the cell that the [reply] and
    [canceled] fields share with the caller. *)
Record PoolJob := mkPoolJob {
  pj_job : MechanicsJob Config;
  pj_call : nat;
}.

(** Where a worker thread is.  [WSend] is a pending send of a reply, with
    whether the busy guard is held and how the loop goes on: the next
    iteration, or a break with the exit reason. *)
Inductive WorkerPc :=
| WStarting
| WSelect
| WGot (pj : PoolJob)
| WRunning (j : MechanicsJob Config) (c : nat) (job_id : str) (replied : bool)
| WSend (c : nat) (r : reply) (busy : bool) (next : option str)
| WExit (reason : str)
| WEnding
| WFinished.

(** A worker thread: its id, the signal in its [bounded(1)] shutdown channel,
    what it sent on its ready channel, and its job sequence number. *)
Record WorkerThread := mkThread {
  wt_id : Z;
  wt_pc : WorkerPc;
  wt_shutdown : bool;
  wt_ready : option (result MechanicsError ());
  wt_seq : Z;
}.

Definition thread_new (id : Z) : WorkerThread := mkThread id WStarting false None 0.
Definition set_pc (pc : WorkerPc) (th : WorkerThread) : WorkerThread :=
  mkThread (wt_id th) pc (wt_shutdown th) (wt_ready th) (wt_seq th).
Definition set_ready (r : result MechanicsError ()) (th : WorkerThread) : WorkerThread :=
  mkThread (wt_id th) (wt_pc th) (wt_shutdown th) (Some r) (wt_seq th).

(** [WorkerHandle::request_shutdown] seen from the thread. *)
Definition request_shutdown (th : WorkerThread) : WorkerThread :=
  mkThread (wt_id th) (wt_pc th) true (wt_ready th) (wt_seq th).

(** [WorkerHandle::is_finished]. *)
Definition is_finished (th : WorkerThread) : bool :=
  match wt_pc th with WFinished => true | _ => false end.

(** [format!("worker-{worker_id}-job-{worker_job_sequence}")]. *)
Definition job_id_of (id seq : Z) : str :=
  lit "worker-" ++ lit (pretty id) ++ lit "-job-" ++ lit (pretty seq).

(** [WorkerExit]. *)
Record WorkerExit := mkExit { exit_worker_id : Z; exit_restart_reason : str }.

(** The body of [spawn_worker] on the spawning thread. *)
Inductive SpawnPc :=
| SpFetch
| SpInsert (t : nat)
| SpReady (t : nat)
| SpRemove (t : nat) (e : MechanicsError)
| SpJoin (t : nat) (e : MechanicsError)
| SpDone (r : result MechanicsError Z).

(** The supervisor; [reason] is its [restart_reason], [m] the spawns left in
    the loop of [reconcile_workers]. *)
Inductive SupervisorPc :=
| SNotStarted
| SSelect
| SEvent (ev : WorkerExit)
| SJoin (t : nat) (reason : str)
| SClosed (reason : str)
| SReconcile (reason : str)
| SReap (reason : str)
| SReapRemove (reason : str) (ids : list Z)
| SLive (reason : str)
| SRestart (reason : str) (m : nat)
| SSpawn (reason : str) (m : nat) (sp : SpawnPc)
| SFinished.

(** Why the pool is torn down: construction failed, or it is dropped. *)
Inductive DropWhy := ConstructionFailed (e : MechanicsError) | PoolDropped.

(** The owner: [ONew k sp] in the loop of [new] with [k] spawns left, the
    current one included. *)
Inductive OwnerPc :=
| ONew (k : nat) (sp : SpawnPc)
| OSupervisor
| OReady
| OClose (why : DropWhy)
| ODrain (why : DropWhy)
| OSignal (why : DropWhy)
| OSupSend (why : DropWhy)
| OSupJoin (why : DropWhy)
| OTake (why : DropWhy)
| OJoin (why : DropWhy) (ts : list nat)
| ODone (why : DropWhy).

(** A call of [run] or [run_nonblocking_enqueue].  A timed wait takes two
    clock reads, with any delay between them: [remaining_to_deadline] gives
    [remaining], then [send_timeout] or [recv_timeout] reads the clock itself,
    at [since], and waits from there. *)
Inductive CallPc :=
| CEntry
| CBlocked
| CReap
| CReapRemove (ids : list Z)
| CLive
| CDeadline
| CEnqueue (deadline : Instant)
| CWaitSend (deadline : Instant) (remaining : Duration)
| CSend (deadline : Instant) (remaining : Duration) (since : Instant)
| CTrySend (deadline : Instant)
| CSent (deadline : Instant)
| CReply (deadline accepted_at : Instant)
| CWaitRecv (deadline : Instant) (remaining : Duration) (accepted_at : Instant)
| CRecv (deadline : Instant) (remaining : Duration) (since accepted_at : Instant)
| CDone (r : reply).

Record Call := mkCall {
  c_job : MechanicsJob Config;
  c_nonblocking : bool;
  c_cell : Cell;
  c_pc : CallPc;
}.

Definition set_cell (c : Cell) (cl : Call) : Call :=
  mkCall (c_job cl) (c_nonblocking cl) c (c_pc cl).
Definition goto (pc : CallPc) (cl : Call) : Call :=
  mkCall (c_job cl) (c_nonblocking cl) (c_cell cl) pc.
(** Return from the call. *)
Definition return_ (r : reply) (cl : Call) : Call :=
  mkCall (c_job cl) (c_nonblocking cl) (drop_rx (c_cell cl)) (CDone r).

(** [MechanicsPoolShared], less the configuration values it copies.  The job
    and exit channels are their contents: [shared] owns both ends of each, so
    they are never disconnected. *)
Record Shared := mkShared {
  queue : list PoolJob;
  exits : list WorkerExit;
  workers : gmap Z nat;
  next_worker_id : Z;
  closed : bool;
  restart_blocked : bool;
  restart_guard : RestartGuard;
  busy_workers : Z;
}.

(** What happened so far: the calls whose job entered and left the queue, the
    instants of the granted restarts, the number of worker ids handed out, and
    the metric operations.  No step reads it. *)
Record History := mkHistory {
  accepted : list nat;
  popped : list nat;
  grants : list Instant;
  spawned : Z;
  ops : list MetricOp;
}.

Record World := mkWorld {
  now : Instant;
  shared : Shared;
  threads : list WorkerThread;
  calls : list Call;
  supervisor : SupervisorPc;
  sup_shutdown : bool;
  owner : OwnerPc;
  hist : History;
}.

(** *** Field updates *)

Definition with_shared (f : Shared -> Shared) (w : World) : World :=
  mkWorld (now w) (f (shared w)) (threads w) (calls w) (supervisor w) (sup_shutdown w) (owner w) (hist w).
Definition with_threads (f : list WorkerThread -> list WorkerThread) (w : World) : World :=
  mkWorld (now w) (shared w) (f (threads w)) (calls w) (supervisor w) (sup_shutdown w) (owner w) (hist w).
Definition with_calls (f : list Call -> list Call) (w : World) : World :=
  mkWorld (now w) (shared w) (threads w) (f (calls w)) (supervisor w) (sup_shutdown w) (owner w) (hist w).
Definition with_hist (f : History -> History) (w : World) : World :=
  mkWorld (now w) (shared w) (threads w) (calls w) (supervisor w) (sup_shutdown w) (owner w) (f (hist w)).
Definition set_supervisor (pc : SupervisorPc) (w : World) : World :=
  mkWorld (now w) (shared w) (threads w) (calls w) pc (sup_shutdown w) (owner w) (hist w).
Definition set_sup_shutdown (b : bool) (w : World) : World :=
  mkWorld (now w) (shared w) (threads w) (calls w) (supervisor w) b (owner w) (hist w).
Definition set_owner (pc : OwnerPc) (w : World) : World :=
  mkWorld (now w) (shared w) (threads w) (calls w) (supervisor w) (sup_shutdown w) pc (hist w).
Definition advance (d : Duration) (w : World) : World :=
  mkWorld (now w + d) (shared w) (threads w) (calls w) (supervisor w) (sup_shutdown w) (owner w) (hist w).

Definition set_queue (q : list PoolJob) (s : Shared) : Shared :=
  mkShared q (exits s) (workers s) (next_worker_id s) (closed s) (restart_blocked s) (restart_guard s) (busy_workers s).
Definition set_exits (x : list WorkerExit) (s : Shared) : Shared :=
  mkShared (queue s) x (workers s) (next_worker_id s) (closed s) (restart_blocked s) (restart_guard s) (busy_workers s).
Definition set_workers (m : gmap Z nat) (s : Shared) : Shared :=
  mkShared (queue s) (exits s) m (next_worker_id s) (closed s) (restart_blocked s) (restart_guard s) (busy_workers s).
Definition set_next_worker_id (i : Z) (s : Shared) : Shared :=
  mkShared (queue s) (exits s) (workers s) i (closed s) (restart_blocked s) (restart_guard s) (busy_workers s).
Definition mark_closed (s : Shared) : Shared :=
  mkShared (queue s) (exits s) (workers s) (next_worker_id s) true (restart_blocked s) (restart_guard s) (busy_workers s).
Definition set_restart_blocked (b : bool) (s : Shared) : Shared :=
  mkShared (queue s) (exits s) (workers s) (next_worker_id s) (closed s) b (restart_guard s) (busy_workers s).
Definition set_restart_guard (g : RestartGuard) (s : Shared) : Shared :=
  mkShared (queue s) (exits s) (workers s) (next_worker_id s) (closed s) (restart_blocked s) g (busy_workers s).
Definition set_busy (b : Z) (s : Shared) : Shared :=
  mkShared (queue s) (exits s) (workers s) (next_worker_id s) (closed s) (restart_blocked s) (restart_guard s) b.

Definition emit (o : list MetricOp) : World -> World :=
  with_hist (fun h => mkHistory (accepted h) (popped h) (grants h) (spawned h) (ops h ++ o)).
Definition log_accepted (i : nat) : World -> World :=
  with_hist (fun h => mkHistory (accepted h ++ [i]) (popped h) (grants h) (spawned h) (ops h)).
Definition log_popped (i : nat) : World -> World :=
  with_hist (fun h => mkHistory (accepted h) (popped h ++ [i]) (grants h) (spawned h) (ops h)).
Definition log_grant (t : Instant) : World -> World :=
  with_hist (fun h => mkHistory (accepted h) (popped h) (grants h ++ [t]) (spawned h) (ops h)).
Definition log_spawned : World -> World :=
  with_hist (fun h => mkHistory (accepted h) (popped h) (grants h) (spawned h + 1) (ops h)).

Definition set_thread (t : nat) (th : WorkerThread) : World -> World := with_threads (<[t := th]>).
Definition set_call (i : nat) (cl : Call) : World -> World := with_calls (<[i := cl]>).

(** Send on the reply channel of call [i]. *)
Definition send_reply (i : nat) (r : reply) (w : World) : option World :=
  cl ← calls w !! i;
  cell ← send_result r (c_cell cl);
  Some (set_call i (set_cell cell cl) w).
End threads.

Arguments PoolJob : clear implicits.
Arguments WorkerPc : clear implicits.
Arguments WorkerThread : clear implicits.
Arguments Call : clear implicits.
Arguments Shared : clear implicits.
Arguments World : clear implicits.

(** ** [Duration::div_f64]

    Seconds as a binary64 number, [Duration::as_secs_f64], divided, and rounded
    to the nearest nanosecond, ties to even, as [Duration::from_secs_f64] does;
    [None] where it panics. *)

Definition f64_of_Z (z : Z) : spec_float := binary_normalize 53 1024 z 0 false.

Definition as_secs_f64 (d : Duration) : spec_float :=
  SFadd 53 1024 (f64_of_Z (d / nanos_per_sec))
    (SFdiv 53 1024 (f64_of_Z (d mod nanos_per_sec)) (f64_of_Z nanos_per_sec)).

(** The quotient [n / d] rounded to the nearest integer, ties to even. *)
Definition div_round_even (n d : Z) : Z :=
  let q := n / d in
  match Z.compare (2 * (n mod d)) d with
  | Lt => q
  | Eq => if Z.even q then q else q + 1
  | Gt => q + 1
  end.

Definition from_secs_f64 (f : spec_float) : option Duration :=
  match f with
  | S754_zero _ => Some 0
  | S754_finite false m e =>
      let n := Z.pos m * nanos_per_sec in
      let d := if 0 <=? e then n * 2 ^ e else div_round_even n (2 ^ (- e)) in
      if d <=? duration_max then Some d else None
  | _ => None
  end.

Definition div_f64 (d : Duration) (rhs : spec_float) : option Duration :=
  from_secs_f64 (SFdiv 53 1024 (as_secs_f64 d) rhs).

(** [MechanicsPool::reconcile_interval]: the pause between supervisor ticks. *)
Definition reconcile_interval (restart_window_ : Duration) : option Duration :=
  quarter ← div_f64 restart_window_ (f64_of_Z 4);
  Some (Z.min (Z.max quarter (from_millis 50)) (from_millis 500)).

(** ** Operations of the shared state *)

Section operations.
Context {Config Client : Type} (cfg : MechanicsPoolConfig Client).
Implicit Types w : World Config.

Definition is_closed w : bool := closed (shared w).
Definition is_restart_blocked w : bool := restart_blocked (shared w).
Definition desired_worker_count : Z := worker_count cfg.
Definition queue_depth w : Z := Z.of_nat (length (queue (shared w))).
Definition workers_len w : Z := Z.of_nat (size (workers (shared w))).

Definition restart_guard_snapshot w : Z * Z :=
  (Z.of_nat (restart_attempts_in_window (restart_guard (shared w))),
   Z.of_nat (max_restarts_in_window (restart_guard (shared w)))).

(** The critical section of [record_restart_attempt]. *)
Definition record_restart_attempt w : bool * World Config :=
  let '(g, ok) := allow_restart (restart_guard (shared w)) (now w) in
  let w' := with_shared (set_restart_guard g) w in
  (ok, if ok then log_grant (now w) w' else w').

Definition remove_worker_handle (id : Z) w : option nat * World Config :=
  let handle := workers (shared w) !! id in
  let w' := with_shared (set_workers (delete id (workers (shared w)))) w in
  (handle, emit (record_pool_workers_total (workers_len w')) w').

(** The two critical sections of [reap_finished_workers].  The joins after
    them are on finished threads and return at once. *)
Definition thread_finished w (t : nat) : bool :=
  match threads w !! t with Some th => is_finished th | None => false end.

Definition finished_ids w : list Z :=
  (filter (fun e => thread_finished w (snd e) = true) (map_to_list (workers (shared w)))).*1.

Definition reap_remove (ids : list Z) w : World Config :=
  let w' := with_shared (set_workers (foldl (fun m id => delete id m) (workers (shared w)) ids)) w in
  emit (record_pool_workers_total (workers_len w')) w'.

(** [Instant::now().checked_add(timeout)] at [t]. *)
Definition deadline_from_timeout (t : Instant) (timeout : Duration) : result MechanicsError Instant :=
  ok_or (runtime_pool (lit "run_timeout is too large for the current platform clock"))
    (instant_checked_add t timeout).

Definition remaining_to_deadline (t deadline : Instant) : option Duration :=
  if deadline <=? t then None else Some (duration_since deadline t).

(** A message enters the [bounded(queue_capacity)] job channel, the [Ok] of
    [send_timeout] and [try_send]: it goes to the back, when there is room. *)
Definition try_enqueue (pj : PoolJob Config) w : option (World Config) :=
  if queue_depth w <? queue_capacity cfg then
    Some (log_accepted (pj_call pj) (with_shared (set_queue (queue (shared w) ++ [pj])) w))
  else None.

(** A message leaves the job channel, from the front: [recv(rx)] of a worker's
    [select!] and the [try_recv] of the drain loops. *)
Definition dequeue w : option (PoolJob Config * World Config) :=
  match queue (shared w) with
  | [] => None
  | pj :: q => Some (pj, log_popped (pj_call pj) (with_shared (set_queue q) w))
  end.

(** [MechanicsPoolStats] and [stats]. *)
Record MechanicsPoolStats := mkStats {
  st_is_closed : bool;
  st_restart_blocked : bool;
  st_desired_workers : Z;
  st_known_workers : Z;
  st_live_workers : Z;
  st_finished_workers_pending_reap : Z;
  st_queue_depth : Z;
  st_queue_capacity : option Z;
  st_restart_attempts_in_window : Z;
  st_max_restarts_in_window : Z;
}.

Definition stats w : MechanicsPoolStats :=
  let known_workers := workers_len w in
  let finished := Z.of_nat (length (finished_ids w)) in
  let '(attempts_, max_) := restart_guard_snapshot w in
  {| st_is_closed := is_closed w;
     st_restart_blocked := is_restart_blocked w;
     st_desired_workers := desired_worker_count;
     st_known_workers := known_workers;
     st_live_workers := saturating_sub known_workers finished;
     st_finished_workers_pending_reap := finished;
     st_queue_depth := queue_depth w;
     st_queue_capacity := Some (queue_capacity cfg);
     st_restart_attempts_in_window := attempts_;
     st_max_restarts_in_window := max_ |}.

(** ** Steps of each thread *)

(** *** [spawn_worker] *)

(** What [thread::Builder::spawn] returned. *)
Inductive SpawnBranch := SpawnOk | SpawnFail (e : str).

Definition spawn_step (b : SpawnBranch) (pc : SpawnPc) w : option (SpawnPc * World Config) :=
  match pc with
  | SpFetch =>
      let id := next_worker_id (shared w) in
      let w1 := log_spawned (with_shared (set_next_worker_id (wrapping_add usize_max id 1)) w) in
      match b with
      | SpawnOk => Some (SpInsert (length (threads w1)), with_threads (.++ [thread_new id]) w1)
      | SpawnFail e =>
          Some (SpDone (Err (runtime_pool (lit "failed to spawn worker thread: " ++ e))), w1)
      end
  | SpInsert t =>
      th ← threads w !! t;
      let m := workers (shared w) in
      (* a replaced handle drops its [shutdown_tx], which ends that worker *)
      let w1 := match m !! wt_id th with
                | Some old => with_threads (alter request_shutdown old) w
                | None => w
                end in
      let w2 := with_shared (set_workers (<[wt_id th := t]> m)) w1 in
      Some (SpReady t, emit (record_pool_workers_total (workers_len w2)) w2)
  | SpReady t =>
      th ← threads w !! t;
      match wt_ready th with
      | Some (Ok _) => Some (SpDone (Ok (wt_id th)), with_shared (set_restart_blocked false) w)
      | Some (Err e) => Some (SpRemove t e, w)
      | None =>
          if is_finished th
          then Some (SpRemove t (runtime_pool (lit "worker exited before startup completed")), w)
          else None
      end
  | SpRemove t e =>
      th ← threads w !! t;
      let '(handle, w1) := remove_worker_handle (wt_id th) w in
      Some (match handle with Some t' => SpJoin t' e | None => SpDone (Err e) end, w1)
  | SpJoin t e => if thread_finished w t then Some (SpDone (Err e), w) else None
  | SpDone _ => None
  end.

(** *** Workers *)

(** How [RuntimeInternal::new_with_endpoint_http_client] ends, and how a job
    execution ends. *)
Inductive StartOutcome := StartOk | StartErr (e : MechanicsError) | StartPanic.
Inductive RunEnd := Returned (o : RunSourceOutcome) | Panicked.

Inductive WorkerBranch :=
| WbStart (o : StartOutcome)
| WbShutdown
| WbJob
| WbEarlyReply (r : reply)
| WbEnd (e : RunEnd)
| WbGo.

(** The busy guard at the start and at the end of a job. *)
Definition busy_enter w : World Config :=
  let r := busy_start (busy_workers (shared w)) in emit (snd r) (with_shared (set_busy (fst r)) w).
Definition busy_leave w : World Config :=
  let r := busy_drop (busy_workers (shared w)) in emit (snd r) (with_shared (set_busy (fst r)) w).

(** The body of the worker loop after a message was received. *)
Definition worker_got (t : nat) (th : WorkerThread Config) (pj : PoolJob Config) w : option (World Config) :=
  let w1 := emit (record_queue_depth (queue_depth w)) w in
  cl ← calls w !! pj_call pj;
  if is_canceled (c_cell cl) then
    Some (set_thread t (set_pc (WSend (pj_call pj)
      (Err (canceled_error (lit "job timed out before execution"))) false None) th) w1)
  else
    let seq := saturating_add u64_max (wt_seq th) 1 in
    let pc := WRunning (pj_job pj) (pj_call pj) (job_id_of (wt_id th) seq) false in
    Some (set_thread t (mkThread (wt_id th) pc (wt_shutdown th) (wt_ready th) seq) (busy_enter w1)).

Definition worker_step (b : WorkerBranch) (t : nat) w : option (World Config) :=
  th ← threads w !! t;
  match wt_pc th, b with
  | WStarting, WbStart o =>
      Some (set_thread t
        match o with
        | StartOk => set_ready (Ok ()) (set_pc WSelect th)
        | StartErr e => set_ready (Err e) (set_pc (WExit (lit "other")) th)
        | StartPanic =>
            set_ready (Err (worker_panic (lit "worker panicked during startup")))
              (set_pc (WExit (lit "panic")) th)
        end w)
  | WSelect, WbShutdown =>
      if wt_shutdown th
      then Some (set_thread t (mkThread (wt_id th) (WExit (lit "other")) false (wt_ready th) (wt_seq th)) w)
      else None
  | WSelect, WbJob =>
      '(pj, w1) ← dequeue w;
      Some (set_thread t (set_pc (WGot pj) th) w1)
  | WGot pj, WbGo => worker_got t th pj w
  | WRunning j c id false, WbEarlyReply r =>
      w1 ← send_reply c r w;
      Some (set_thread t (set_pc (WRunning j c id true) th) w1)
  | WRunning j c id replied, WbEnd e =>
      match e with
      | Returned o =>
          if outcome_matches replied o then
            match o with
            | MainReplied => Some (set_thread t (set_pc WSelect th) (busy_leave w))
            | MainNotReplied err => Some (set_thread t (set_pc (WSend c (Err err) true None) th) w)
            end
          else None
      | Panicked =>
          Some (set_thread t (set_pc (WSend c
            (Err (worker_panic (lit "worker panicked while running job"))) true (Some (lit "panic"))) th) w)
      end
  | WSend c r busy next, WbGo =>
      w1 ← send_reply c r w;
      let w2 := if busy : bool then busy_leave w1 else w1 in
      Some (set_thread t (set_pc match next with None => WSelect | Some reason => WExit reason end th) w2)
  | WExit reason, WbGo =>
      Some (set_thread t (set_pc WEnding th)
        (with_shared (set_exits (exits (shared w) ++ [mkExit (wt_id th) reason])) w))
  | WEnding, WbGo => Some (set_thread t (set_pc WFinished th) w)
  | _, _ => None
  end.

(** *** The supervisor *)

(** What [select!] picks, and what a thread start returns. *)
Inductive SupBranch := SbShutdown | SbEvent | SbTick | SbGo (b : SpawnBranch).

(** [reconcile_workers]: reap, count, and restart what is missing. *)
Definition reconcile_step (b : SpawnBranch) w : option (World Config) :=
  match supervisor w with
  | SReconcile reason =>
      Some (set_supervisor (if is_closed w then SSelect else SReap reason) w)
  | SReap reason =>
      let ids := finished_ids w in
      Some (set_supervisor (if bool_decide (ids = []) then SLive reason else SReapRemove reason ids) w)
  | SReapRemove reason ids => Some (set_supervisor (SLive reason) (reap_remove ids w))
  | SLive reason =>
      let missing := saturating_sub desired_worker_count (workers_len w) in
      if missing =? 0
      then Some (set_supervisor SSelect (with_shared (set_restart_blocked false) w))
      else Some (set_supervisor (SRestart reason (Z.to_nat missing)) w)
  | SRestart reason 0 => Some (set_supervisor SSelect w)
  | SRestart reason (S m) =>
      let '(can_restart, w1) := record_restart_attempt w in
      if can_restart : bool then Some (set_supervisor (SSpawn reason m SpFetch) w1)
      else Some (set_supervisor SSelect (with_shared (set_restart_blocked true) w1))
  | SSpawn reason m (SpDone (Ok _)) =>
      Some (set_supervisor (SRestart reason m) (emit (record_worker_restart reason) w))
  | SSpawn reason m (SpDone (Err _)) =>
      Some (set_supervisor SSelect (with_shared (set_restart_blocked true) w))
  | SSpawn reason m sp =>
      '(sp', w1) ← spawn_step b sp w;
      Some (set_supervisor (SSpawn reason m sp') w1)
  | _ => None
  end.

(** The loop of the supervisor thread. *)
Definition supervisor_step (b : SupBranch) w : option (World Config) :=
  match supervisor w, b with
  | SSelect, SbShutdown =>
      if sup_shutdown w then Some (set_supervisor SFinished (set_sup_shutdown false w)) else None
  | SSelect, SbEvent =>
      match exits (shared w) with
      | [] => None
      | ev :: rest => Some (set_supervisor (SEvent ev) (with_shared (set_exits rest) w))
      end
  | SSelect, SbTick => Some (set_supervisor (SClosed (lit "other")) w)
  | SEvent ev, SbGo _ =>
      let '(maybe_old, w1) := remove_worker_handle (exit_worker_id ev) w in
      let reason := exit_restart_reason ev in
      Some (set_supervisor match maybe_old with Some t => SJoin t reason | None => SClosed reason end w1)
  | SJoin t reason, SbGo _ =>
      if thread_finished w t then Some (set_supervisor (SClosed reason) w) else None
  | SClosed reason, SbGo _ =>
      Some (set_supervisor (if is_closed w then SFinished else SReconcile reason) w)
  | _, SbGo b => reconcile_step b w
  | _, _ => None
  end.

(** *** The owner: [new] and the two [Drop] implementations *)

Definition drop_message (why : DropWhy) : str :=
  match why with
  | ConstructionFailed _ => lit "pool construction failed before job execution"
  | PoolDropped => lit "pool dropped before job execution"
  end.

(** [Drop for MechanicsPool] and [Drop for PoolConstructor], which differ in
    the message of the cancelled jobs. *)
Definition drop_step w : option (World Config) :=
  match owner w with
  | OClose why => Some (set_owner (ODrain why) (with_shared mark_closed w))
  | ODrain why =>
      match dequeue w with
      | None => Some (set_owner (OSignal why) w)
      | Some (pj, w1) =>
          w2 ← send_reply (pj_call pj) (Err (canceled_error (drop_message why))) w1;
          Some (emit (record_queue_depth (queue_depth w2)) w2)
      end
  | OSignal why =>
      Some (set_owner (OSupSend why)
        (with_threads (fun ths => foldr (alter request_shutdown) ths
           (map_to_list (workers (shared w))).*2) w))
  | OSupSend why =>
      match supervisor w with
      | SNotStarted => Some (set_owner (OTake why) w)
      | _ => if sup_shutdown w then None else Some (set_owner (OSupJoin why) (set_sup_shutdown true w))
      end
  | OSupJoin why =>
      match supervisor w with SFinished => Some (set_owner (OTake why) w) | _ => None end
  | OTake why =>
      Some (set_owner (OJoin why (map_to_list (workers (shared w))).*2) (with_shared (set_workers ∅) w))
  | OJoin why (t :: ts) => if thread_finished w t then Some (set_owner (OJoin why ts) w) else None
  | OJoin why [] => Some (set_owner (ODone why) (emit (record_pool_workers_total 0) w))
  | _ => None
  end.

(** [MechanicsPool::new] from its first spawn on, then the drop. *)
Definition owner_step (b : SpawnBranch) w : option (World Config) :=
  match owner w with
  | ONew k (SpDone (Ok _)) =>
      match k with
      | S (S k') => Some (set_owner (ONew (S k') SpFetch) w)
      | _ => Some (set_owner OSupervisor w)
      end
  | ONew k (SpDone (Err e)) => Some (set_owner (OClose (ConstructionFailed e)) w)
  | ONew k sp =>
      '(sp', w1) ← spawn_step b sp w;
      Some (set_owner (ONew k sp') w1)
  | OSupervisor =>
      match b with
      | SpawnOk => Some (set_owner OReady (set_supervisor SSelect w))
      | SpawnFail e =>
          Some (set_owner (OClose (ConstructionFailed
            (runtime_pool (lit "failed to spawn supervisor thread: " ++ e)))) w)
      end
  | _ => drop_step w
  end.

(** *** Callers: [run] and [run_nonblocking_enqueue] *)

(** A timed channel operation succeeds, times out, or finds the channel
    disconnected. *)
Inductive CallBranch := CbGo | CbTimeout | CbDisconnected.

(** The reply channel is connected while some [PoolJob] or worker holds a
    sender. *)
Definition holds_reply (i : nat) (pc : WorkerPc Config) : bool :=
  match pc with
  | WGot pj => bool_decide (pj_call pj = i)
  | WRunning _ c _ _ | WSend c _ _ _ => bool_decide (c = i)
  | _ => false
  end.

Definition reply_connected (i : nat) w : bool :=
  existsb (fun pj => bool_decide (pj_call pj = i)) (queue (shared w)) ||
  existsb (fun th => holds_reply i (wt_pc th)) (threads w).

Definition outcome_of (r : reply) : JobOutcome :=
  match r with Ok _ => OOk | Err e => from_error e end.

Definition call_timeout_enqueue : MechanicsError :=
  run_timeout_error (lit "run timeout elapsed while waiting to enqueue").
Definition call_timeout_reply : MechanicsError :=
  run_timeout_error (lit "run timeout elapsed while waiting for worker reply").
Definition queue_timeout_full : MechanicsError :=
  queue_timeout (lit "enqueue timed out because queue is full").
Definition unavailable_blocked : MechanicsError :=
  worker_unavailable (lit "all workers are unavailable and restart guard is active").
Definition unavailable_reply : MechanicsError :=
  worker_unavailable (lit "worker dropped reply channel").

(** Give up on an accepted job: cancel it and report a timeout. *)
Definition reply_timed_out (i : nat) (cl : Call Config) (accepted_at : Instant) w : World Config :=
  emit (record_job_completed accepted_at (now w) OTimeout)
    (set_call i (return_ (Err call_timeout_reply) (set_cell (mark_canceled (c_cell cl)) cl)) w).

(** [enqueue_wait] of [run]: what is left of the run, at most the enqueue
    timeout. *)
Definition enqueue_wait (remaining : Duration) : Duration := Z.min (enqueue_timeout cfg) remaining.

(** [run] from the computation of the enqueue wait to the result of
    [send_timeout]. *)
Definition enqueue_step (b : CallBranch) (i : nat) (cl : Call Config) w : option (World Config) :=
  let at_ pc := Some (set_call i (goto pc cl) w) in
  match c_pc cl, b with
  | CEnqueue d, CbGo =>
      match remaining_to_deadline (now w) d with
      | None =>
          Some (set_call i (return_ (Err (run_timeout_error (lit "run timeout elapsed before enqueue")))
            (set_cell (mark_canceled (c_cell cl)) cl)) w)
      | Some remaining => at_ (CWaitSend d remaining)
      end
  | CWaitSend d remaining, CbGo => at_ (CSend d remaining (now w))
  | CSend d remaining since, CbGo =>
      w1 ← try_enqueue (mkPoolJob (c_job cl) i) w;
      Some (set_call i (goto (CSent d) cl) w1)
  | CSend d remaining since, CbTimeout =>
      if since + enqueue_wait remaining <=? now w then
        let limited_by_run_timeout := enqueue_wait remaining =? remaining in
        if limited_by_run_timeout then
          cell ← send_result (Err call_timeout_enqueue) (mark_canceled (c_cell cl));
          Some (set_call i (return_ (Err call_timeout_enqueue) (set_cell cell cl)) w)
        else
          cell ← send_result (Err queue_timeout_full) (c_cell cl);
          Some (set_call i (return_ (Err queue_timeout_full) (set_cell cell cl)) w)
      else None
  | _, _ => None
  end.

(** The [try_send] of [run_nonblocking_enqueue]. *)
Definition try_send_step (b : CallBranch) (i : nat) (cl : Call Config) w : option (World Config) :=
  match c_pc cl, b with
  | CTrySend d, CbGo =>
      match try_enqueue (mkPoolJob (c_job cl) i) w with
      | Some w1 => Some (set_call i (goto (CSent d) cl) w1)
      | None => Some (set_call i (return_ (Err (queue_full (lit "queue is full"))) cl) w)
      end
  | _, _ => None
  end.

(** Both calls after the job was accepted: the wait for the reply. *)
Definition reply_step (b : CallBranch) (i : nat) (cl : Call Config) w : option (World Config) :=
  let at_ pc := Some (set_call i (goto pc cl) w) in
  match c_pc cl, b with
  | CSent d, CbGo =>
      Some (emit (record_job_accepted (queue_depth w)) (set_call i (goto (CReply d (now w)) cl) w))
  | CReply d accepted_at, CbGo =>
      match remaining_to_deadline (now w) d with
      | None => Some (reply_timed_out i cl accepted_at w)
      | Some remaining => at_ (CWaitRecv d remaining accepted_at)
      end
  | CWaitRecv d remaining accepted_at, CbGo => at_ (CRecv d remaining (now w) accepted_at)
  | CRecv d remaining since accepted_at, CbGo =>
      r ← reply_buf (c_cell cl);
      Some (emit (record_job_completed accepted_at (now w) (outcome_of r))
        (set_call i (return_ r cl) w))
  | CRecv d remaining since accepted_at, CbTimeout =>
      if since + remaining <=? now w then Some (reply_timed_out i cl accepted_at w) else None
  | CRecv d remaining since accepted_at, CbDisconnected =>
      if bool_decide (reply_buf (c_cell cl) = None) && negb (reply_connected i w) then
        Some (emit (record_job_completed accepted_at (now w) OFailed)
          (set_call i (return_ (Err unavailable_reply) cl) w))
      else None
  | _, _ => None
  end.

(** A call up to its deadline, and the rest of it. *)
Definition call_step (b : CallBranch) (i : nat) w : option (World Config) :=
  cl ← calls w !! i;
  let at_ pc := Some (set_call i (goto pc cl) w) in
  let fail e := Some (set_call i (return_ (Err e) cl) w) in
  match c_pc cl, b with
  | CEntry, CbGo =>
      if is_closed w then fail (pool_closed (lit "runtime pool is closed")) else at_ CBlocked
  | CBlocked, CbGo => at_ (if is_restart_blocked w then CReap else CDeadline)
  | CReap, CbGo =>
      let ids := finished_ids w in
      at_ (if bool_decide (ids = []) then CLive else CReapRemove ids)
  | CReapRemove ids, CbGo => Some (set_call i (goto CLive cl) (reap_remove ids w))
  | CLive, CbGo => if workers_len w =? 0 then fail unavailable_blocked else at_ CDeadline
  | CDeadline, CbGo =>
      let run_timeout_ := default (cfg_run_timeout cfg) (run_timeout (c_job cl)) in
      match deadline_from_timeout (now w) run_timeout_ with
      | Err e => fail e
      | Ok d => at_ (if c_nonblocking cl then CTrySend d else CEnqueue d)
      end
  | CTrySend _, _ => try_send_step b i cl w
  | (CSent _ | CReply _ _ | CWaitRecv _ _ _ | CRecv _ _ _ _), _ => reply_step b i cl w
  | _, _ => enqueue_step b i cl w
  end.

(** ** The system *)

Inductive Action :=
| ATick (d : Duration)
| ACall (j : MechanicsJob Config) (nonblocking : bool)
| ACaller (i : nat) (b : CallBranch)
| AWorker (t : nat) (b : WorkerBranch)
| ASupervisor (b : SupBranch)
| AOwner (b : SpawnBranch)
| ADrop.

Definition call_returned (cl : Call Config) : bool :=
  match c_pc cl with CDone _ => true | _ => false end.

(** [run] borrows the pool, so a call starts while the pool exists, and the
    pool is dropped when no call borrows it. *)
Definition step (a : Action) w : option (World Config) :=
  match a with
  | ATick d => if 0 <=? d then Some (advance d w) else None
  | ACall j nonblocking =>
      match owner w with
      | OReady => Some (with_calls (.++ [mkCall j nonblocking cell_new CEntry]) w)
      | _ => None
      end
  | ACaller i b => call_step b i w
  | AWorker t b => worker_step b t w
  | ASupervisor b => supervisor_step b w
  | AOwner b => owner_step b w
  | ADrop =>
      match owner w with
      | OReady => if forallb call_returned (calls w) then Some (set_owner (OClose PoolDropped) w) else None
      | _ => None
      end
  end.

(** [MechanicsPoolShared::new], at the start of the loop of [new]. *)
Definition shared_new : Shared Config :=
  mkShared [] [] ∅ 0 false false
    (guard_new (restart_window cfg) (Z.to_nat (cfg_max_restarts_in_window cfg))) 0.

Definition world_new (t : Instant) : World Config :=
  mkWorld t shared_new [] [] SNotStarted false
    (ONew (Z.to_nat (worker_count cfg)) SpFetch)
    (mkHistory [] [] [] 0 register_metrics).

(** [MechanicsPool::new] up to its first spawn: validation and the transport;
    [built] is what building the default HTTP client gave. *)
Definition pool_new (t : Instant) (built : result str Client)
  : result MechanicsError (Client * World Config) :=
  _ ← validate t cfg;
  client ← match endpoint_http_client cfg with
           | Some client => Ok client
           | None => map_err runtime_pool built
           end;
  mret (client, world_new t).

(** A schedule, and the states schedules reach. *)
Fixpoint exec (acts : list Action) w : option (World Config) :=
  match acts with
  | [] => Some w
  | a :: rest => w' ← step a w; exec rest w'
  end.

Inductive reachable : World Config -> Prop :=
| reach_new t built client w : pool_new t built = Ok (client, w) -> reachable w
| reach_step w a w' : reachable w -> step a w = Some w' -> reachable w'.

End operations.
