(* ===== verification/PoolDemo.v ===== *)
(** * PoolDemo: concrete runs of the pool

    A one-worker configuration and schedules of the transition system of
    Pool.v, evaluated to concrete states.  They exercise construction, a call
    that is answered, a restart and a drop, and serve as inputs of the
    witnesses. *)

From S2P Require Import Prelude Errors Json Job PoolConfig RestartGuard Metrics RuntimeApi Pool.

(** A schedule from a reachable state ends in a reachable state. *)
Lemma exec_reachable {Config Client} (cfg : MechanicsPoolConfig Client) acts (w w' : World Config) :
  reachable cfg w -> exec cfg acts w = Some w' -> reachable cfg w'.
Proof.
  revert w. induction acts as [|a acts IH]; intros w Hr; cbn.
  - by intros [= <-].
  - intros (w1 & Hs & He)%bind_Some. eapply IH; [|exact He]. by eapply reach_step.
Qed.

Definition demo_cfg : MechanicsPoolConfig () :=
  {| worker_count := 1; queue_capacity := 1; enqueue_timeout := 5; cfg_run_timeout := 100;
     execution_limits := limits_default; default_http_timeout_ms := None;
     default_http_response_max_bytes := None; restart_window := 10;
     cfg_max_restarts_in_window := 2; endpoint_http_client := Some () |}.

Definition demo_job : MechanicsJob () := mkJob (lit "m") VNull () None.

Definition demo_start : World () := world_new demo_cfg 0.

(** Construction of a pool with one worker. *)
Definition build : list (Action (Config := ())) :=
  [AOwner SpawnOk; AOwner SpawnOk; AWorker 0 (WbStart StartOk); AOwner SpawnOk; AOwner SpawnOk;
   AOwner SpawnOk].

(** A call of [run] up to its wait for the reply. *)
Definition call_until_wait (i : nat) : list (Action (Config := ())) :=
  ACall demo_job false :: replicate 9 (ACaller i CbGo).

(** Worker [t] takes the next job, runs it and replies. *)
Definition serve (t : nat) (v : Value) : list (Action (Config := ())) :=
  [AWorker t WbJob; AWorker t WbGo; AWorker t (WbEarlyReply (Ok v))].

(** Worker [t] panics while running a job and exits. *)
Definition crash (t : nat) : list (Action (Config := ())) :=
  [AWorker t WbJob; AWorker t WbGo; AWorker t (WbEnd Panicked); AWorker t WbGo; AWorker t WbGo;
   AWorker t WbGo].

Definition demo (acts : list Action) : World () := default demo_start (exec demo_cfg acts demo_start).

Lemma demo_reachable acts : is_Some (exec demo_cfg acts demo_start) -> reachable demo_cfg (demo acts).
Proof.
  intros [w Hw]. unfold demo. rewrite Hw. cbn. eapply exec_reachable; [|exact Hw].
  eapply (reach_new _ 0 (Ok ()) ()). vm_compute. reflexivity.
Qed.

(** Evaluate the schedule and conclude. *)
Ltac reach := apply demo_reachable; vm_compute; eexists; reflexivity.

Example demo_answered :
  c_pc <$> calls (demo (build ++ call_until_wait 0 ++ serve 0 (VBool true) ++ [ACaller 0 CbGo])) =
  [CDone (Ok (VBool true))].
Proof. vm_compute. reflexivity. Qed.
