(* ===== verification/ReplyProtocol.v ===== *)
(** * ReplyProtocol: the contract between callers, queue and workers

    An abstract specification of how a job travels through the pool: a call is
    before the queue, awaiting its reply, or returned; an accepted job is in
    the queue or held by a worker; a reply goes into a one-slot channel that
    disappears when the call returns.  The concrete pool is shown to follow
    this protocol in PoolSafety.v. *)

From S2P Require Import Prelude.

(** The stage of a call, and what a worker still owes for the job it holds:
    a reply, nothing (it has replied), or an error report after a panic that
    may come on top of a reply. *)
Inductive Stage := Pre | Awaiting | Returned_.
Inductive HoldKind := Owes | Replied | PanicReport.

Global Instance Stage_eq_dec : EqDecision Stage.
Proof. solve_decision. Defined.
Global Instance HoldKind_eq_dec : EqDecision HoldKind.
Proof. solve_decision. Defined.

Record Proto := mkProto {
  p_queue : list nat;
  p_popped : list nat;
  p_holds : list (option (nat * HoldKind));
  p_cells : list (Stage * bool);
}.

(** A reply to call [i] fills its slot, or vanishes after the call returned;
    it must not find the slot full. *)
Inductive replies (i : nat) (cells : list (Stage * bool)) : list (Stage * bool) -> Prop :=
| reply_gone b : cells !! i = Some (Returned_, b) -> replies i cells cells
| reply_fills st : cells !! i = Some (st, false) -> st <> Returned_ ->
    replies i cells (<[i := (st, true)]> cells).

Inductive pstep : Proto -> Proto -> Prop :=
| PStutter p : pstep p p
| PNewCall q po h c : pstep (mkProto q po h c) (mkProto q po h (c ++ [(Pre, false)]))
| PSpawn q po h c : pstep (mkProto q po h c) (mkProto q po (h ++ [None]) c)
| PGiveUp q po h c i b b' : c !! i = Some (Pre, b) ->
    pstep (mkProto q po h c) (mkProto q po h (<[i := (Returned_, b')]> c))
| PAccept q po h c i b : c !! i = Some (Pre, b) ->
    pstep (mkProto q po h c) (mkProto (q ++ [i]) po h (<[i := (Awaiting, b)]> c))
| PReturn q po h c i b : c !! i = Some (Awaiting, b) ->
    pstep (mkProto q po h c) (mkProto q po h (<[i := (Returned_, b)]> c))
| PTake q po h c t i : h !! t = Some None ->
    pstep (mkProto (i :: q) po h c) (mkProto q (po ++ [i]) (<[t := Some (i, Owes)]> h) c)
| PEarlyReply q po h c c' t i : h !! t = Some (Some (i, Owes)) -> replies i c c' ->
    pstep (mkProto q po h c) (mkProto q po (<[t := Some (i, Replied)]> h) c')
| PAnswer q po h c c' t i k : h !! t = Some (Some (i, k)) -> replies i c c' ->
    pstep (mkProto q po h c) (mkProto q po (<[t := None]> h) c')
| PRelease q po h c t i : h !! t = Some (Some (i, Replied)) ->
    pstep (mkProto q po h c) (mkProto q po (<[t := None]> h) c)
| PPanic q po h c t i k : h !! t = Some (Some (i, k)) ->
    pstep (mkProto q po h c) (mkProto q po (<[t := Some (i, PanicReport)]> h) c)
| PCancelHead q po h c c' i : replies i c c' ->
    pstep (mkProto (i :: q) po h c) (mkProto q (po ++ [i]) h c').

(** ** The invariant of the protocol *)

Definition held (p : Proto) (i : nat) : Prop := exists t k, p_holds p !! t = Some (Some (i, k)).

Record pinv (p : Proto) : Prop := {
  pi_nodup : NoDup (p_popped p ++ p_queue p);
  pi_accepted : forall i, i ∈ p_popped p ++ p_queue p ->
    exists st b, p_cells p !! i = Some (st, b) /\ st <> Pre;
  pi_pre : forall i b, p_cells p !! i = Some (Pre, b) -> b = false;
  pi_held : forall t i k, p_holds p !! t = Some (Some (i, k)) -> i ∈ p_popped p;
  pi_unique : forall t t' i k k', p_holds p !! t = Some (Some (i, k)) ->
    p_holds p !! t' = Some (Some (i, k')) -> t = t';
  pi_queued : forall i b, i ∈ p_queue p -> p_cells p !! i = Some (Awaiting, b) -> b = false;
  pi_owes : forall t i b, p_holds p !! t = Some (Some (i, Owes)) ->
    p_cells p !! i = Some (Awaiting, b) -> b = false;
  pi_replied : forall t i b, p_holds p !! t = Some (Some (i, Replied)) ->
    p_cells p !! i = Some (Awaiting, b) -> b = true;
  pi_served : forall i, p_cells p !! i = Some (Awaiting, false) -> i ∈ p_queue p \/ held p i;
}.

(** Lookups in updated lists. *)
Lemma insert_inv {A} (l : list A) i x j y :
  <[i := x]> l !! j = Some y -> (i = j /\ y = x) \/ (i <> j /\ l !! j = Some y).
Proof. intros [(-> & -> & _)|[? ?]]%list_lookup_insert_Some; auto. Qed.

Lemma snoc_inv {A} (l : list A) x j y :
  (l ++ [x]) !! j = Some y -> (j = length l /\ y = x) \/ l !! j = Some y.
Proof. intros [[_ ?]|[-> ->]]%lookup_snoc_Some; auto. Qed.

Ltac lookups :=
  repeat match goal with
  | H : <[_ := _]> _ !! _ = Some _ |- _ => apply insert_inv in H as [[? ?]|[? H]]; simplify_eq
  | H : (_ ++ [_]) !! _ = Some _ |- _ => apply snoc_inv in H as [[? ?]|H]; simplify_eq
  end.

(** A reply leaves the stage of every call as it is. *)
Lemma replies_stage i c c' : replies i c c' ->
  forall j st b', c' !! j = Some (st, b') -> exists b, c !! j = Some (st, b) /\
    (j <> i -> b' = b) /\ (j = i -> st <> Returned_ -> b = false /\ b' = true).
Proof. intros [b Hb|st Hst Hne] j st' b' Hj; lookups; naive_solver. Qed.

Lemma replies_stage' i c c' : replies i c c' ->
  forall j st b, c !! j = Some (st, b) -> exists b', c' !! j = Some (st, b').
Proof.
  intros [b0 Hb|st0 Hst Hne] j st b Hj; [eauto|].
  destruct (decide (i = j)) as [->|].
  - simplify_eq. eexists. apply list_lookup_insert_eq. eauto using lookup_lt_Some.
  - eexists. by rewrite list_lookup_insert_ne.
Qed.

(** A call that is past the queue stays past it. *)
Definition stages_evolve (c c' : list (Stage * bool)) : Prop :=
  forall i st b, c !! i = Some (st, b) -> st <> Pre -> exists st' b', c' !! i = Some (st', b') /\ st' <> Pre.

Lemma stages_set c i st b x : c !! i = Some x -> st <> Pre -> stages_evolve c (<[i := (st, b)]> c).
Proof.
  intros Hi Hst j st' b' Hj Hne. destruct (decide (i = j)) as [->|].
  - rewrite list_lookup_insert_eq by eauto using lookup_lt_Some. eauto.
  - rewrite list_lookup_insert_ne by done. eauto.
Qed.

Lemma stages_snoc c x : stages_evolve c (c ++ [x]).
Proof. intros i st b Hi Hne. rewrite lookup_app_l by eauto using lookup_lt_Some. eauto. Qed.

Lemma stages_replies i c c' : replies i c c' -> stages_evolve c c'.
Proof. intros Hr j st b Hj Hne. destruct (replies_stage' _ _ _ Hr _ _ _ Hj). eauto. Qed.

Lemma accepted_evolve (l : list nat) c c' :
  stages_evolve c c' ->
  (forall i, i ∈ l -> exists st b, c !! i = Some (st, b) /\ st <> Pre) ->
  forall i, i ∈ l -> exists st b, c' !! i = Some (st, b) /\ st <> Pre.
Proof. intros He H i Hi. destruct (H i Hi) as (st & b & Hc & Hne). eauto. Qed.

(** Worker [t] now holds [x]: holdings of the others stay. *)
Lemma held_set (h : list (option (nat * HoldKind))) t x y i :
  h !! t = Some y -> (exists t' k, h !! t' = Some (Some (i, k))) ->
  (exists k, y = Some (i, k)) \/ exists t' k, <[t := x]> h !! t' = Some (Some (i, k)).
Proof.
  intros Ht (t' & k & Hk). destruct (decide (t = t')) as [->|].
  - left. simplify_eq. eauto.
  - right. exists t', k. by rewrite list_lookup_insert_ne.
Qed.

Lemma held_here (h : list (option (nat * HoldKind))) t x i k :
  h !! t = Some x -> exists t' k', <[t := Some (i, k)]> h !! t' = Some (Some (i, k')).
Proof. intros Ht. exists t, k. apply list_lookup_insert_eq. eauto using lookup_lt_Some. Qed.

Lemma held_snoc (h : list (option (nat * HoldKind))) x i :
  (exists t k, h !! t = Some (Some (i, k))) -> exists t k, (h ++ [x]) !! t = Some (Some (i, k)).
Proof. intros (t & k & H). exists t, k. by rewrite lookup_app_l by eauto using lookup_lt_Some. Qed.

(** The cases of the protocol that need an argument. *)
Ltac start_case := intros [Hnd Hacc Hpre Hheld Huniq Hq Hows Hrep Hserv]; unfold held in *; cbn in *.
Ltac fields := split; unfold held; cbn; intros; lookups; eauto 4.

Lemma nodup_head {A} (po : list A) i q :
  NoDup (po ++ (i :: q)) -> (i ∉ po) /\ (i ∉ q) /\ po ++ (i :: q) = (po ++ [i]) ++ q.
Proof.
  intros (_ & Hd & [Hn _]%NoDup_cons)%NoDup_app. split; [|split; [done|by rewrite <- (assoc_L (++))]].
  intros Hi. apply (Hd i Hi). apply list_elem_of_here.
Qed.

Lemma pinv_accept q po h c i b :
  c !! i = Some (Pre, b) -> pinv (mkProto q po h c) ->
  pinv (mkProto (q ++ [i]) po h (<[i := (Awaiting, b)]> c)).
Proof.
  intros Hi. start_case. pose proof (Hpre _ _ Hi). subst b.
  assert (i ∉ po ++ q) as Hnew by (intros Hin; destruct (Hacc i Hin) as (? & ? & ? & ?); simplify_eq).
  assert (i ∉ po) as Hnp by (intros ?; apply Hnew, elem_of_app; auto).
  fields.
  - rewrite (assoc_L (++)). apply NoDup_app. split; [done|]. split; [|apply NoDup_singleton].
    by intros j Hj ->%list_elem_of_singleton.
  - destruct (decide (i0 = i)) as [->|]; [|eapply (accepted_evolve (po ++ q)); eauto;
      [by eapply stages_set|]].
    + rewrite list_lookup_insert_eq by eauto using lookup_lt_Some. eauto.
    + rewrite (assoc_L (++)) in H. by apply elem_of_app in H as [?|?%list_elem_of_singleton].
  - by apply elem_of_app in H as [?|?%list_elem_of_singleton]; [eauto|].
  - left. apply elem_of_app. right. by apply list_elem_of_singleton.
  - destruct (Hserv i0); [done|left; apply elem_of_app; by left|by right].
Qed.

Lemma pinv_take q po h c t i :
  h !! t = Some None -> pinv (mkProto (i :: q) po h c) ->
  pinv (mkProto q (po ++ [i]) (<[t := Some (i, Owes)]> h) c).
Proof.
  intros Ht. start_case.
  destruct (nodup_head _ _ _ Hnd) as (Hnp & Hnq & Heq).
  rewrite Heq in *. fields.
  - apply elem_of_app. right. by apply list_elem_of_singleton.
  - apply elem_of_app. left. eauto.
  - exfalso. apply Hnp. by eapply Hheld.
  - exfalso. apply Hnp. by eapply Hheld.
  - eapply Hq; [|done]. by apply list_elem_of_further.
  - eapply Hq; [|done]. apply list_elem_of_here.
  - destruct (Hserv i0) as [Hin|Hh]; [done| |].
    + apply elem_of_cons in Hin as [->|]; [|by left]. right. eauto using held_here.
    + destruct (held_set _ _ (Some (i, Owes)) _ _ Ht Hh) as [[]|]; [done|by right].
Qed.

(** A worker replies; it has replied then, or lets the job go. *)
Lemma pinv_reply q po h c c' t i k x :
  h !! t = Some (Some (i, k)) -> replies i c c' -> x = None \/ x = Some (i, Replied) ->
  pinv (mkProto q po h c) -> pinv (mkProto q po (<[t := x]> h) c').
Proof.
  intros Ht Hr Hx. start_case.
  assert (i ∉ q) as Hnq by (apply NoDup_app in Hnd as (_ & Hd & _); eauto).
  pose proof (replies_stage _ _ _ Hr) as Hst.
  fields; try (destruct Hx; simplify_eq; by eauto 3).
  - eapply accepted_evolve; eauto using stages_replies.
  - destruct (Hst _ _ _ H) as (b0 & Hb0 & Hne & Hi). destruct (decide (i0 = i)) as [->|].
    + destruct (Hacc i) as (? & ? & ? & ?); [rewrite !elem_of_app, ?list_elem_of_singleton; eauto|]. simplify_eq.
    + rewrite Hne by done. eauto.
  - destruct (Hst _ _ _ H0) as (b0 & Hb0 & Hne & Hi). rewrite Hne by (by intros ->). eauto.
  - destruct (Hst _ _ _ H0) as (b0 & Hb0 & Hne & Hi). rewrite Hne by naive_solver. eauto.
  - destruct Hx; simplify_eq. destruct (Hst _ _ _ H0) as (b0 & Hb0 & Hne & Hi). naive_solver.
  - destruct (Hst _ _ _ H0) as (b0 & Hb0 & Hne & Hi). rewrite Hne by naive_solver. eauto.
  - destruct (Hst _ _ _ H) as (b0 & Hb0 & Hne & Hi).
    assert (i0 <> i) as Hd by naive_solver.
    rewrite <- (Hne Hd) in Hb0. destruct (Hserv i0) as [|Hh]; [done|by left|].
    destruct (held_set _ _ x _ _ Ht Hh) as [[? ?]|]; [by simplify_eq|by right].
Qed.

Lemma pinv_cancel_head q po h c c' i :
  replies i c c' -> pinv (mkProto (i :: q) po h c) -> pinv (mkProto q (po ++ [i]) h c').
Proof.
  intros Hr. start_case.
  destruct (nodup_head _ _ _ Hnd) as (Hnp & Hnq & Heq).
  rewrite Heq in *. pose proof (replies_stage _ _ _ Hr) as Hst.
  fields.
  - eapply accepted_evolve; eauto using stages_replies.
  - destruct (Hst _ _ _ H) as (b0 & Hb0 & Hne & Hi). destruct (decide (i0 = i)) as [->|].
    + destruct (Hacc i) as (? & ? & ? & ?); [rewrite !elem_of_app, ?list_elem_of_singleton; eauto|]. simplify_eq.
    + rewrite Hne by done. eauto.
  - apply elem_of_app. eauto.
  - destruct (Hst _ _ _ H0) as (b0 & Hb0 & Hne & Hi). rewrite Hne by (by intros ->). eapply Hq; [by apply list_elem_of_further|done].
  - destruct (Hst _ _ _ H0) as (b0 & Hb0 & Hne & Hi). rewrite Hne by (intros ->; eauto). eauto.
  - destruct (Hst _ _ _ H0) as (b0 & Hb0 & Hne & Hi). rewrite Hne by (intros ->; eauto). eauto.
  - destruct (Hst _ _ _ H) as (b0 & Hb0 & Hne & Hi).
    assert (i0 <> i) as Hd by naive_solver.
    rewrite <- (Hne Hd) in Hb0. destruct (Hserv i0) as [|Hh]; [done|left|by right].
    by apply elem_of_cons in H0 as [?|?].
Qed.

(** A worker lets go of a job it has replied to, or turns to reporting a
    panic. *)
Lemma pinv_rehold q po h c t i k x :
  h !! t = Some (Some (i, k)) -> (x = None /\ k = Replied) \/ x = Some (i, PanicReport) ->
  pinv (mkProto q po h c) -> pinv (mkProto q po (<[t := x]> h) c).
Proof.
  intros Ht Hx. start_case. fields; try (destruct Hx as [[]|]; simplify_eq; by eauto 3).
  destruct (Hserv i0) as [|Hh]; [done|by left|right].
  destruct (held_set _ _ x _ _ Ht Hh) as [[? ?]|]; [simplify_eq|done].
  destruct Hx as [[-> ->]| ->]; [|eauto using held_here].
  pose proof (Hrep _ _ _ Ht H). discriminate.
Qed.

Lemma pinv_step p p' : pinv p -> pstep p p' -> pinv p'.
Proof.
  intros Hinv Hs. destruct Hs; eauto using pinv_accept, pinv_take, pinv_reply, pinv_cancel_head, pinv_rehold.
  - revert Hinv. start_case. fields. eauto using accepted_evolve, stages_snoc.
  - revert Hinv. start_case. fields. destruct (Hserv i); eauto using held_snoc.
  - revert Hinv. start_case. fields. eapply accepted_evolve; eauto. by eapply stages_set.
  - revert Hinv. start_case. fields. eapply accepted_evolve; eauto. by eapply stages_set.
Qed.
