(* ===== verification/PoolSafety.v ===== *)
(** * PoolSafety: invariants of the worker pool

    Invariants of the transition system of Pool.v, by induction on reachable
    states, and the safety properties they give. *)

From S2P Require Import Prelude Errors Json Job PoolConfig RestartGuard Metrics RuntimeApi Pool PoolDemo ReplyProtocol.

(** Decompose the equations left by the operations a step is made of. *)
Ltac inv_hyps :=
  repeat first
    [ progress simplify_eq
    | match goal with
      | H : mbind _ _ = Some _ |- _ => apply bind_Some in H as (? & ? & H); cbn beta iota in H
      | H : match ?x with _ => _ end = Some _ |- _ => destruct x eqn:?
      | H : match ?x with _ => _ end = (_, _) |- _ => destruct x eqn:?
      end ].

(** Decompose a step that was taken: one goal per branch of the code. *)
Ltac inv_step H :=
  unfold step, call_step, enqueue_step, try_send_step, reply_step, worker_step, worker_got,
    supervisor_step, reconcile_step, owner_step, drop_step, spawn_step,
    try_enqueue, dequeue, send_reply, record_restart_attempt, remove_worker_handle,
    reply_timed_out in H;
  repeat first
    [ progress simplify_eq
    | apply bind_Some in H as (? & ? & H); cbn beta iota in H
    | match type of H with context [match ?x with _ => _ end] => destruct x eqn:? end ];
  inv_hyps.

Section safety.
Context {Config Client : Type} (cfg : MechanicsPoolConfig Client).
Implicit Types w : World Config.

Lemma reachable_ind_inv (I : World Config -> Prop) :
  (forall t built client w, pool_new cfg t built = Ok (client, w) -> I w) ->
  (forall w a w', reachable cfg w -> I w -> step cfg a w = Some w' -> I w') ->
  forall w, reachable cfg w -> I w.
Proof. intros H0 Hs w Hr. induction Hr; eauto. Qed.

(** The job of the call has been accepted and the call has not returned. *)
Definition awaiting (pc : CallPc) : bool :=
  match pc with CSent _ | CReply _ _ | CWaitRecv _ _ _ | CRecv _ _ _ _ => true | _ => false end.
Definition returned (pc : CallPc) : bool :=
  match pc with CDone _ => true | _ => false end.

Definition queued w : list nat := pj_call <$> queue (shared w).

(** Jobs leave the queue in the order in which they entered it, each once. *)
Record fifo_inv w : Prop := {
  fifo_order : accepted (hist w) = popped (hist w) ++ queued w;
  fifo_nodup : NoDup (accepted (hist w));
  fifo_pc : forall i, i ∈ accepted (hist w) -> exists cl, calls w !! i = Some cl /\
    (awaiting (c_pc cl) || returned (c_pc cl)) = true;
  fifo_bound : Z.of_nat (length (queue (shared w))) <= queue_capacity cfg;
}.

(** Calls only move forward: an accepted call stays accepted. *)
Definition in_system (cl : Call Config) : bool := awaiting (c_pc cl) || returned (c_pc cl).
Definition calls_evolve (l l' : list (Call Config)) : Prop :=
  forall i cl, l !! i = Some cl -> in_system cl = true ->
    exists cl', l' !! i = Some cl' /\ in_system cl' = true.

Lemma calls_evolve_refl l : calls_evolve l l.
Proof. intros i cl ??. eauto. Qed.

Lemma calls_evolve_snoc l cl : calls_evolve l (l ++ [cl]).
Proof. intros i cl' ??. exists cl'. by rewrite lookup_app_l by eauto using lookup_lt_Some. Qed.

Lemma calls_evolve_set l i cl cl' :
  l !! i = Some cl -> (in_system cl = true -> in_system cl' = true) ->
  calls_evolve l (<[i := cl']> l).
Proof.
  intros Hi Hm j clj Hj Hs. destruct (decide (i = j)) as [->|].
  - simplify_eq. exists cl'. rewrite list_lookup_insert_eq by eauto using lookup_lt_Some. eauto.
  - exists clj. by rewrite list_lookup_insert_ne.
Qed.
Hint Resolve calls_evolve_refl calls_evolve_snoc : mech.

Lemma fifo_frame w w' :
  fifo_inv w -> accepted (hist w') = accepted (hist w) -> popped (hist w') = popped (hist w) ->
  queue (shared w') = queue (shared w) -> calls_evolve (calls w) (calls w') -> fifo_inv w'.
Proof.
  intros [Ho Hn Hp Hb] Ha Hpo Hq Hc. unfold queued in *.
  split; unfold queued; rewrite ?Ha, ?Hpo, ?Hq; auto.
  intros i Hi. destruct (Hp i Hi) as (cl & Hcl & Hs). eauto.
Qed.

(** A call that has not entered the queue enters it. *)
Lemma fifo_enqueue w w' i cl cl' j :
  fifo_inv w -> calls w !! i = Some cl -> in_system cl = false -> in_system cl' = true ->
  (queue_depth w <? queue_capacity cfg) = true ->
  accepted (hist w') = accepted (hist w) ++ [i] -> popped (hist w') = popped (hist w) ->
  queue (shared w') = queue (shared w) ++ [mkPoolJob j i] -> calls w' = <[i := cl']> (calls w) ->
  fifo_inv w'.
Proof.
  intros [Ho Hn Hp Hb] Hi Hpre Hpost Hd Ha Hpo Hq Hc. unfold queued, queue_depth in *. bool_facts.
  split; unfold queued; rewrite ?Ha, ?Hpo, ?Hq, ?Hc, ?fmap_app, ?length_app; cbn; [|..|lia].
  - by rewrite Ho, (assoc_L (++)).
  - apply NoDup_app. split; [done|]. split; [|apply NoDup_singleton].
    intros k Hk ->%list_elem_of_singleton. destruct (Hp i Hk) as (cl2 & ? & Hs).
    unfold in_system in Hpre. simplify_eq. by rewrite Hs in Hpre.
  - intros k [Hk| ->%list_elem_of_singleton]%elem_of_app.
    + destruct (Hp k Hk) as (cl2 & Hk2 & Hs).
      eapply (calls_evolve_set _ i cl cl'); [done|by rewrite Hpre|done|done].
    + exists cl'. rewrite list_lookup_insert_eq by eauto using lookup_lt_Some. done.
Qed.

(** The head of the queue leaves it. *)
Lemma fifo_dequeue w w' pj q :
  fifo_inv w -> queue (shared w) = pj :: q -> accepted (hist w') = accepted (hist w) ->
  popped (hist w') = popped (hist w) ++ [pj_call pj] -> queue (shared w') = q ->
  calls_evolve (calls w) (calls w') -> fifo_inv w'.
Proof.
  intros [Ho Hn Hp Hb] Hq Ha Hpo Hq' Hc. unfold queued in *. rewrite Hq in *. cbn in *.
  split; unfold queued; rewrite ?Ha, ?Hpo, ?Hq'; [by rewrite <- (assoc_L (++))|done| |lia].
  intros i Hi. destruct (Hp i Hi) as (cl & Hcl & Hs). eauto.
Qed.

Ltac evolve :=
  first
    [ by eauto with mech
    | eapply calls_evolve_set; [eassumption|unfold in_system; cbn];
      first [done | match goal with E : c_pc _ = _ |- _ => by rewrite E end] ].

Lemma fifo_inv_step w a w' : fifo_inv w -> step cfg a w = Some w' -> fifo_inv w'.
Proof.
  intros Hinv H. destruct a. all: inv_step H.
  all: match goal with Hinv : fifo_inv ?w |- _ => first
    [ by (apply (fifo_frame w); cbn; repeat case_match; cbn; try done; evolve)
    | by (eapply (fifo_enqueue w); cbn; unfold in_system; try done; rewrite ?Heqc; try done)
    | by (eapply (fifo_dequeue w); cbn; try done; evolve) ]
   end.
Qed.

(** ** The pool follows the reply protocol *)

Definition hold_of (pc : WorkerPc Config) : option (nat * HoldKind) :=
  match pc with
  | WGot pj => Some (pj_call pj, Owes)
  | WRunning _ c _ false => Some (c, Owes)
  | WRunning _ c _ true => Some (c, Replied)
  | WSend c _ _ None => Some (c, Owes)
  | WSend c _ _ (Some _) => Some (c, PanicReport)
  | _ => None
  end.

Definition stage_of (pc : CallPc) : Stage :=
  if returned pc then Returned_ else if awaiting pc then Awaiting else Pre.

Definition cell_view (cl : Call Config) : Stage * bool :=
  (stage_of (c_pc cl), match reply_buf (c_cell cl) with Some _ => true | None => false end).
Definition thread_view (th : WorkerThread Config) : option (nat * HoldKind) := hold_of (wt_pc th).

Definition abs w : Proto :=
  mkProto (queued w) (popped (hist w)) (thread_view <$> threads w) (cell_view <$> calls w).

(** The reply receiver lives exactly as long as the call. *)
Definition rx_ok (cl : Call Config) : Prop := reply_rx (c_cell cl) = negb (returned (c_pc cl)).
Definition rx_inv w : Prop := Forall rx_ok (calls w).

Lemma send_result_rx r c c' : send_result r c = Some c' -> reply_rx c' = reply_rx c.
Proof. unfold send_result. intros; case_all; done. Qed.

Lemma rx_ok_set_cell cl c : rx_ok cl -> reply_rx c = reply_rx (c_cell cl) -> rx_ok (set_cell c cl).
Proof. unfold rx_ok. cbn. congruence. Qed.

Lemma rx_ok_goto cl pc : rx_ok cl -> returned (c_pc cl) = returned pc -> rx_ok (goto pc cl).
Proof. unfold rx_ok. cbn. congruence. Qed.

Lemma rx_ok_return r cl : rx_ok (return_ r cl).
Proof. done. Qed.

Lemma rx_inv_step w a w' : rx_inv w -> step cfg a w = Some w' -> rx_inv w'.
Proof.
  intros Hinv H. destruct a. all: inv_step H.
  all: unfold rx_inv in *; cbn; repeat case_match; cbn; try done.
  all: try (apply Forall_app; split; [done|by repeat constructor]).
  all: apply Forall_insert; [done|].
  all: first [ apply rx_ok_return
             | match goal with L : calls _ !! _ = Some ?x |- _ =>
                 pose proof (Forall_lookup_1 _ _ _ _ Hinv L) end;
               first [ apply rx_ok_set_cell; [done|by eapply send_result_rx]
                     | apply rx_ok_goto; [done|]; match goal with E : c_pc _ = _ |- _ => rewrite E end ] ].
  all: repeat case_match; done.
Qed.

Lemma view_lookup {A B} (f : A -> B) (l : list A) i x y :
  l !! i = Some x -> f x = y -> (f <$> l) !! i = Some y.
Proof. intros Hi <-. by rewrite list_lookup_fmap, Hi. Qed.

(** A send on the reply channel is a reply of the protocol. *)
Lemma send_replies w i cl r cell :
  rx_inv w -> calls w !! i = Some cl -> send_result r (c_cell cl) = Some cell ->
  replies i (cell_view <$> calls w) (cell_view <$> <[i := set_cell cell cl]> (calls w)).
Proof.
  intros Hrx Hi Hs. pose proof (Forall_lookup_1 _ _ _ _ Hrx Hi) as Hok. unfold rx_ok in Hok.
  unfold send_result in Hs. rewrite Hok in Hs.
  assert ((cell_view <$> calls w) !! i = Some (cell_view cl)) as Hv by by eapply view_lookup.
  unfold cell_view, stage_of in Hv. destruct (returned (c_pc cl)) eqn:Hret; cbn in Hs.
  - simplify_eq. rewrite (fmap_insert_same _ _ _ cl) by (destruct cl; done). by eapply reply_gone.
  - destruct (reply_buf (c_cell cl)) eqn:Hb; [done|]. simplify_eq. rewrite list_fmap_insert.
    replace (cell_view _) with (stage_of (c_pc cl), true) by done.
    unfold stage_of. rewrite Hret. apply reply_fills; [done|by case_match].
Qed.

Lemma pstep_stutter w w' :
  queued w' = queued w -> popped (hist w') = popped (hist w) ->
  thread_view <$> threads w' = thread_view <$> threads w ->
  cell_view <$> calls w' = cell_view <$> calls w -> pstep (abs w) (abs w').
Proof. intros Hq Hp Ht Hc. unfold abs. rewrite Hq, Hp, Ht, Hc. constructor. Qed.

Ltac same_view :=
  first [ done
        | by apply fmap_alter_same
        | by apply fmap_foldr_alter_same
        | eapply fmap_insert_same; [eassumption|];
          unfold cell_view, thread_view, stage_of; cbn;
          repeat match goal with E : c_pc _ = _ |- _ => rewrite !E | E : wt_pc _ = _ |- _ => rewrite !E end;
          by repeat case_match ].

(** The other steps of the protocol, by the fields they change. *)
Section shapes.
Context (w w' : World Config).

Lemma pstep_finish i cl cl' :
  calls w !! i = Some cl -> calls w' = <[i := cl']> (calls w) ->
  stage_of (c_pc cl) <> Returned_ -> stage_of (c_pc cl') = Returned_ ->
  (stage_of (c_pc cl) = Awaiting -> reply_buf (c_cell cl') = reply_buf (c_cell cl)) ->
  queued w' = queued w -> popped (hist w') = popped (hist w) -> threads w' = threads w ->
  pstep (abs w) (abs w').
Proof.
  intros Hi Hc Hst Hst' Hb Hq Hp Ht. unfold abs. rewrite Hq, Hp, Ht, Hc, list_fmap_insert.
  pose proof (view_lookup cell_view _ _ _ _ Hi eq_refl) as Hv. unfold cell_view in Hv.
  unfold cell_view at 2. rewrite Hst'. destruct (stage_of (c_pc cl)); [|rewrite Hb by done|done].
  - by eapply PGiveUp.
  - by eapply PReturn.
Qed.

Lemma pstep_accept i cl cl' pj :
  calls w !! i = Some cl -> calls w' = <[i := cl']> (calls w) ->
  queue (shared w') = queue (shared w) ++ [pj] ->
  stage_of (c_pc cl) = Pre -> stage_of (c_pc cl') = Awaiting ->
  c_cell cl' = c_cell cl -> pj_call pj = i -> popped (hist w') = popped (hist w) ->
  threads w' = threads w -> pstep (abs w) (abs w').
Proof.
  intros Hi Hc Hq Hst Hst' Hcell Hpj Hp Ht. unfold abs, queued.
  rewrite Hq, Hp, Ht, Hc, list_fmap_insert, fmap_app. cbn. rewrite Hpj.
  pose proof (view_lookup cell_view _ _ _ _ Hi eq_refl) as Hv. unfold cell_view in Hv.
  unfold cell_view at 2. rewrite Hst in Hv. rewrite Hst', Hcell. by eapply PAccept.
Qed.

Lemma pstep_take t th th' pj q :
  threads w !! t = Some th -> threads w' = <[t := th']> (threads w) ->
  queue (shared w) = pj :: q -> queue (shared w') = q ->
  thread_view th = None -> thread_view th' = Some (pj_call pj, Owes) ->
  popped (hist w') = popped (hist w) ++ [pj_call pj] -> calls w' = calls w -> pstep (abs w) (abs w').
Proof.
  intros Ht Hth Hq Hq' Hv Hv' Hp Hc. unfold abs, queued.
  rewrite Hq, Hq', Hp, Hth, Hc, list_fmap_insert, Hv'. cbn.
  apply PTake. by eapply view_lookup.
Qed.

(** A worker that holds a job moves, with or without a reply. *)
Lemma pstep_hold t th th' i k x :
  threads w !! t = Some th -> threads w' = <[t := th']> (threads w) ->
  thread_view th = Some (i, k) -> thread_view th' = x ->
  queued w' = queued w -> popped (hist w') = popped (hist w) ->
  (k = Replied /\ x = None \/ x = Some (i, PanicReport)) /\ calls w' = calls w \/
  (x = None \/ k = Owes /\ x = Some (i, Replied)) /\
    replies i (cell_view <$> calls w) (cell_view <$> calls w') ->
  pstep (abs w) (abs w').
Proof.
  intros Ht Hth Hv Hv' Hq Hp Hx. unfold abs.
  rewrite Hq, Hp, Hth, list_fmap_insert, Hv'.
  pose proof (view_lookup _ _ _ _ _ Ht Hv) as Hl.
  destruct Hx as [[[[-> ->]| ->] ->]|[[->|[-> ->]] Hr]].
  - by eapply PRelease.
  - by eapply PPanic.
  - by eapply PAnswer.
  - by eapply PEarlyReply.
Qed.

Lemma pstep_drain pj q :
  queue (shared w) = pj :: q -> queue (shared w') = q ->
  popped (hist w') = popped (hist w) ++ [pj_call pj] -> threads w' = threads w ->
  replies (pj_call pj) (cell_view <$> calls w) (cell_view <$> calls w') ->
  pstep (abs w) (abs w').
Proof.
  intros Hq Hq' Hp Hth Hr. unfold abs, queued. rewrite Hq, Hq', Hp, Hth. cbn. by apply PCancelHead.
Qed.
End shapes.

Lemma step_follows_protocol w a w' :
  rx_inv w -> step cfg a w = Some w' -> pstep (abs w) (abs w').
Proof.
  intros Hinv H. destruct a. all: inv_step H.
  all: try (apply pstep_stutter; cbn; repeat case_match; cbn; same_view).
  all: first
    [ by (eapply pstep_finish; [eassumption|reflexivity|..]; unfold stage_of; try done; rewrite ?Heqc)
    | by (eapply pstep_accept; [eassumption|reflexivity|reflexivity|..]; unfold stage_of; try done; rewrite ?Heqc)
    | by (eapply pstep_take; [eassumption|reflexivity|eassumption|reflexivity|..]; unfold thread_view; try done; rewrite ?Heqw0)
    | by (unfold abs, queued; cbn; rewrite fmap_app; first [apply PNewCall | apply PSpawn])
    | by (eapply pstep_drain; [eassumption|done|done|done|]; cbn; eapply send_replies; eauto)
    | idtac ].
  all: try match goal with E : wt_pc _ = WSend _ _ ?b ?n |- _ => destruct b, n end.
  all: eapply pstep_hold; [eassumption|reflexivity|unfold thread_view; by rewrite Heqw0|reflexivity|done|done|].
  all: first [by left; auto | right; split; [by auto|eapply send_replies; eauto]].
Qed.

(** Where every reachable pool starts. *)
Lemma pool_new_world t built client w : pool_new cfg t built = Ok (client, w) ->
  w = world_new cfg t /\ config_valid t cfg.
Proof.
  unfold pool_new. destruct (validate t cfg) as [[]|] eqn:Hv; cbn; [|done].
  destruct (match endpoint_http_client cfg with Some _ => _ | None => _ end); cbn; [|done].
  intros [= _ <-]. split; [done|by apply validate_ok_iff].
Qed.

Lemma reachable_rx w : reachable cfg w -> rx_inv w.
Proof.
  induction 1 as [t built client w [-> _]%pool_new_world|]; [constructor|eauto using rx_inv_step].
Qed.

Lemma reachable_protocol w : reachable cfg w -> pinv (abs w).
Proof.
  induction 1 as [t built client w [-> _]%pool_new_world|].
  - split; unfold abs, held; cbn; try (intros; set_solver). apply NoDup_nil_2.
  - eauto using pinv_step, step_follows_protocol, reachable_rx.
Qed.

Lemma reachable_fifo w : config_typed cfg -> reachable cfg w -> fifo_inv w.
Proof.
  intros (_ & [Hc _] & _). induction 1 as [t built client w [-> _]%pool_new_world|]; [|eauto using fifo_inv_step].
  split; unfold queued; cbn; [done|apply NoDup_nil_2|set_solver|done].
Qed.

Lemma holds_reply_view i pc : holds_reply i pc = true <-> exists k, hold_of pc = Some (i, k).
Proof.
  unfold holds_reply, hold_of. repeat case_match; try case_bool_decide; naive_solver.
Qed.

Lemma reply_connected_iff i w :
  reply_connected i w = true <-> i ∈ p_queue (abs w) \/ held (abs w) i.
Proof.
  unfold reply_connected. rewrite orb_true_iff, !existsb_exists. unfold held. cbn. split.
  - intros [(pj & Hin & Hi%bool_decide_eq_true)|(th & Hin & Hh)].
    + left. apply list_elem_of_fmap. exists pj. split; [done|]. by apply list_elem_of_In.
    + right. apply holds_reply_view in Hh as [k Hk]. apply list_elem_of_In, list_elem_of_lookup in Hin as [t Ht].
      exists t, k. by eapply view_lookup.
  - intros [Hq|(t & k & Ht)].
    + left. apply list_elem_of_fmap in Hq as (pj & -> & Hin). exists pj.
      split; [by apply list_elem_of_In|by apply bool_decide_eq_true].
    + right. rewrite list_lookup_fmap in Ht. destruct (threads w !! t) as [th|] eqn:Hth; [|done].
      exists th. split; [apply list_elem_of_In; eauto using list_elem_of_lookup_2|].
      apply holds_reply_view. exists k. by simplify_eq/=.
Qed.

(** ** The life of a pool *)

(** What holds while the owner is at a given point: no call runs before the
    pool exists or after it is dropped, the flag is set exactly from the start
    of the drop, the queue stays empty once drained, and the supervisor is
    gone when the workers are joined. *)
Definition not_started (pc : SupervisorPc) : bool :=
  match pc with SNotStarted => true | _ => false end.
Definition sup_gone (pc : SupervisorPc) : bool :=
  match pc with SNotStarted | SFinished => true | _ => false end.

Definition building (pc : OwnerPc) : bool :=
  match pc with ONew _ _ | OSupervisor => true | _ => false end.
Definition dropping (pc : OwnerPc) : bool :=
  match pc with ONew _ _ | OSupervisor | OReady => false | _ => true end.
Definition marked (pc : OwnerPc) : bool :=
  match pc with OClose _ => false | _ => dropping pc end.
Definition closing_done (pc : OwnerPc) : bool :=
  match pc with OSignal _ | OSupSend _ | OSupJoin _ | OTake _ | OJoin _ _ | ODone _ => true | _ => false end.
Definition joining (pc : OwnerPc) : bool :=
  match pc with OTake _ | OJoin _ _ | ODone _ => true | _ => false end.
Definition signalling (pc : OwnerPc) : bool :=
  match pc with OSupJoin _ | OTake _ | OJoin _ _ | ODone _ => true | _ => false end.

Record life_inv w : Prop := {
  life_building : building (owner w) = true ->
    calls w = [] /\ queue (shared w) = [] /\ supervisor w = SNotStarted;
  life_started : owner w = OReady -> supervisor w <> SNotStarted;
  life_returned : dropping (owner w) = true -> Forall (fun cl => call_returned cl = true) (calls w);
  life_drained : closing_done (owner w) = true -> queue (shared w) = [];
  life_closed : closed (shared w) = marked (owner w);
  life_joining : joining (owner w) = true -> sup_gone (supervisor w) = true;
  life_signal : sup_shutdown w = true -> signalling (owner w) = true;
}.

(** A returned call takes no step. *)
Lemma returned_stuck w i cl :
  calls w !! i = Some cl -> call_returned cl = false ->
  (dropping (owner w) = true -> Forall (fun cl => call_returned cl = true) (calls w)) ->
  dropping (owner w) = false.
Proof.
  intros Hi Hc Hd. destruct (dropping (owner w)); [|done].
  pose proof (Forall_lookup_1 _ _ _ _ (Hd eq_refl) Hi) as Ht. cbn in Ht. congruence.
Qed.

Lemma life_inv_step w a w' : life_inv w -> step cfg a w = Some w' -> life_inv w'.
Proof.
  intros [Hb Hs Hr Hd Hc Hj Hg] H. destruct a. all: inv_step H.
  all: try match goal with L : calls ?w !! ?i = Some ?x, E : c_pc ?x = _ |- _ =>
     assert (dropping (owner w) = false) by (eapply returned_stuck; [exact L|by unfold call_returned; rewrite E|done]);
     assert (building (owner w) = false) by (destruct (owner w); try done; by destruct Hb as [Hb _]; [done|rewrite Hb in L])
  end.
  all: split; cbn; repeat case_match; cbn; try done.
  all: repeat match goal with E : owner _ = _ |- _ => rewrite E in *; cbn in * end; try done.
  all: intros; repeat match goal with
    | P : ?A, Q : ?A -> _ |- _ => specialize (Q P); cbn in Q
    | Q : ?x = ?x -> _ |- _ => specialize (Q eq_refl)
    end; destruct_and?; try congruence.
  all: try match goal with E : calls _ = [], L : calls _ !! _ = Some _ |- _ => by rewrite E in L end.
  all: try (apply Forall_insert; [done|];
    match goal with L : calls _ !! _ = Some ?x |- call_returned (set_cell _ ?x) = _ =>
      by eapply (Forall_lookup_1 (fun cl => call_returned cl = true) _ _ x) end).
  all: try match goal with E : supervisor _ = _ |- _ => by rewrite E end.
  - by destruct (owner w).
  - by destruct (owner w).
  - match goal with E : calls _ = [] |- _ => by rewrite E end.
  - match goal with E : calls _ = [] |- _ => by rewrite E end.
  - apply Forall_forall. intros cl Hin%list_elem_of_In. by eapply forallb_forall.
Qed.

Lemma reachable_life w : reachable cfg w -> life_inv w.
Proof.
  induction 1 as [t built client w [-> _]%pool_new_world|]; [by split|eauto using life_inv_step].
Qed.

(** A worker that owes a reply finds the slot empty, or the caller gone. *)
Lemma owed_reply_enabled w t th c r :
  reachable cfg w -> threads w !! t = Some th -> hold_of (wt_pc th) = Some (c, Owes) ->
  is_Some (send_reply c r w).
Proof.
  intros Hr Ht Hh. pose proof (reachable_protocol _ Hr) as Hp. pose proof (reachable_rx _ Hr) as Hx.
  pose proof (view_lookup thread_view _ _ _ _ Ht Hh) as Hv.
  destruct (pi_accepted _ Hp c) as (st & b & Hc & Hst); [apply elem_of_app; left; by eapply pi_held|].
  cbn in Hc. pose proof (pi_owes _ Hp t c b Hv) as Hb. cbn in Hb. rewrite Hc in Hb.
  rewrite list_lookup_fmap in Hc. destruct (calls w !! c) as [cl|] eqn:Hcl; [|done].
  unfold send_reply, send_result. rewrite Hcl. cbn. rewrite (Forall_lookup_1 _ _ _ _ Hx Hcl : reply_rx _ = _).
  cbn in Hc. unfold cell_view, stage_of in Hc. destruct (returned (c_pc cl)); cbn; [eauto|].
  destruct (awaiting (c_pc cl)); [|by simplify_eq]. simplify_eq. specialize (Hb eq_refl).
  destruct (reply_buf (c_cell cl)); [done|]. cbn. eauto.
Qed.

(** A caller that waits has its reply, or the job is still somewhere. *)
Lemma awaiting_served w i cl :
  reachable cfg w -> calls w !! i = Some cl -> awaiting (c_pc cl) = true ->
  is_Some (reply_buf (c_cell cl)) \/ reply_connected i w = true.
Proof.
  intros Hr Hi Ha. destruct (reply_buf (c_cell cl)) as [r|] eqn:Hb; [left; eauto|right].
  apply reply_connected_iff. apply (pi_served _ (reachable_protocol _ Hr)).
  eapply view_lookup; [exact Hi|]. unfold cell_view, stage_of. rewrite Hb, Ha.
  by destruct (c_pc cl).
Qed.

(** ** Properties *)

(** C1. Refinement: every step of the pool, whichever thread takes it, is a
    step of the reply protocol on the abstraction of the state (or leaves the
    abstraction as it is), and every reachable state satisfies the protocol's
    invariant. *)
Theorem pool_follows_protocol w a w' :
  reachable cfg w -> step cfg a w = Some w' -> pstep (abs w) (abs w') /\ pinv (abs w').
Proof.
  intros Hr Hs. split; [by eapply step_follows_protocol; [apply reachable_rx|]|].
  apply reachable_protocol. by eapply reach_step.
Qed.

(** C2. No accepted job is lost: while a caller waits for the reply of an
    accepted job, the reply is in its channel, or the job is still in the
    queue or in the hands of a worker; so the error ["worker dropped reply
    channel"] of [run] is never produced. *)
Theorem accepted_job_not_lost w i cl :
  reachable cfg w -> calls w !! i = Some cl -> awaiting (c_pc cl) = true ->
  (is_Some (reply_buf (c_cell cl)) \/ reply_connected i w = true) /\
  step cfg (ACaller i CbDisconnected) w = None.
Proof.
  intros Hr Hi Ha. pose proof (awaiting_served w i cl Hr Hi Ha) as Hor.
  split; [done|]. unfold step, call_step, reply_step. rewrite Hi. cbn.
  destruct (c_pc cl); try done; cbn. case_match; [|done]. bool_facts.
  destruct Hor as [[r Hb]|]; congruence.
Qed.

(** C17. The queue is first-in first-out, takes each job once, and never holds
    more than [queue_capacity] jobs: the accepted calls are those whose job
    was taken, in order, followed by those still queued, without repetition. *)
Theorem queue_fifo_bounded w :
  config_typed cfg -> reachable cfg w ->
  accepted (hist w) = popped (hist w) ++ queued w /\ NoDup (accepted (hist w)) /\
  queue_depth w <= queue_capacity cfg.
Proof. intros Ht Hr. by destruct (reachable_fifo w Ht Hr). Qed.

(** C24. Replying never blocks a worker: whatever reply it owes, the one of the
    runtime or the one it sends itself, the send is enabled at once. *)
Theorem worker_reply_never_blocks w t th c r :
  reachable cfg w -> threads w !! t = Some th ->
  (forall j id, wt_pc th = WRunning j c id false -> is_Some (step cfg (AWorker t (WbEarlyReply r)) w)) /\
  (forall busy, wt_pc th = WSend c r busy None -> is_Some (step cfg (AWorker t WbGo) w)).
Proof.
  intros Hr Ht. pose proof (owed_reply_enabled w t th c r Hr Ht) as Hsend.
  split; intros *; intros Hpc; rewrite Hpc in Hsend; destruct (Hsend eq_refl) as [w1 Hw1];
    unfold step, worker_step; rewrite Ht; cbn; rewrite Hpc, Hw1; cbn; eauto.
Qed.
End safety.

(** ** Witnesses *)

Definition demo_waiting : World () := demo (build ++ call_until_wait 0).

Lemma pool_follows_protocol_witness :
  p_queue (abs demo_waiting) = [0%nat] /\
  pstep (abs demo_waiting) (abs (demo (build ++ call_until_wait 0 ++ [AWorker 0 WbJob]))).
Proof.
  split; [vm_compute; reflexivity|].
  apply (pool_follows_protocol demo_cfg _ (AWorker 0 WbJob)); [reach|vm_compute; reflexivity].
Defined.

Lemma accepted_job_not_lost_witness :
  reply_buf <$> (c_cell <$> calls demo_waiting) = [None] /\
  step demo_cfg (ACaller 0 CbDisconnected) demo_waiting = None.
Proof.
  split; [vm_compute; reflexivity|].
  assert (exists cl, calls demo_waiting !! 0%nat = Some cl /\ awaiting (c_pc cl) = true) as (cl & Hcl & Ha)
    by (vm_compute; eauto).
  apply (accepted_job_not_lost demo_cfg demo_waiting 0 cl); [reach|exact Hcl|exact Ha].
Defined.

Lemma demo_typed : config_typed demo_cfg.
Proof. vm_compute. intuition discriminate. Qed.

Lemma queue_fifo_bounded_witness :
  accepted (hist demo_waiting) = [0%nat] /\ queue_depth demo_waiting <= queue_capacity demo_cfg.
Proof.
  split; [vm_compute; reflexivity|].
  apply (queue_fifo_bounded demo_cfg demo_waiting); [apply demo_typed|reach].
Defined.

Definition demo_running : World () := demo (build ++ call_until_wait 0 ++ [AWorker 0 WbJob; AWorker 0 WbGo]).

Lemma worker_reply_never_blocks_witness :
  is_Some (step demo_cfg (AWorker 0 (WbEarlyReply (Ok VNull))) demo_running).
Proof.
  assert (exists th j id, threads demo_running !! 0%nat = Some th /\ wt_pc th = WRunning j 0 id false)
    as (th & j & id & Hth & Hpc) by (vm_compute; eauto).
  apply (worker_reply_never_blocks demo_cfg demo_running 0 th 0 (Ok VNull) ltac:(reach) Hth) with (1 := Hpc).
Defined.
