(* ===== verification/PoolCalls.v ===== *)
(** * PoolCalls: the calls of [run] and [run_nonblocking_enqueue]

    The deadlines of a call, the truth of the errors it returns, and that it
    returns by itself once its deadline has passed. *)

From S2P Require Import Prelude Errors Json Job PoolConfig RestartGuard Metrics RuntimeApi Pool PoolDemo ReplyProtocol PoolSafety.

Section calls.
Context {Config Client : Type} (cfg : MechanicsPoolConfig Client).
Implicit Types w : World Config.

(** The deadline a call has fixed. *)
Definition call_deadline (pc : CallPc) : option Instant :=
  match pc with
  | CEnqueue d | CWaitSend d _ | CSend d _ _ | CTrySend d
  | CSent d | CReply d _ | CWaitRecv d _ _ | CRecv d _ _ _ => Some d
  | _ => None
  end.

(** When the timed wait a call is in ends. *)
Definition wait_until (pc : CallPc) : option Instant :=
  match pc with
  | CSend _ remaining since => Some (since + enqueue_wait cfg remaining)
  | CRecv _ remaining since _ => Some (since + remaining)
  | _ => None
  end.

(** The call has read how long it may wait and has not entered the wait. *)
Definition entering_wait (pc : CallPc) : bool :=
  match pc with CWaitSend _ _ | CWaitRecv _ _ _ => true | _ => false end.

(** The deadline of the call has passed, and so has the end of its timed
    wait. *)
Definition overdue (t : Instant) (pc : CallPc) : Prop :=
  entering_wait pc = false /\
  (exists d, call_deadline pc = Some d /\ d <= t) /\
  forall until, wait_until pc = Some until -> until <= t.

(** How many steps of its own an overdue call is away from its return, at
    most. *)
Definition call_rank (pc : CallPc) : nat :=
  match pc with
  | CSend _ _ _ | CTrySend _ => 3 | CSent _ => 2 | CEnqueue _ | CReply _ _ | CRecv _ _ _ _ => 1
  | _ => 0
  end.

(** The steps of call [i] in a schedule. *)
Fixpoint own_steps (i : nat) (acts : list (Action (Config := Config))) : nat :=
  match acts with
  | [] => 0
  | ACaller j _ :: rest => if decide (j = i) then S (own_steps i rest) else own_steps i rest
  | _ :: rest => own_steps i rest
  end.

(** What was read of the clock is in the past: [remaining] was what was left
    of the run no later than now, no later than when the wait was entered. *)
Definition wait_ok (t : Instant) (cl : Call Config) : Prop :=
  match c_pc cl with
  | CWaitSend d remaining => 0 < remaining /\ d - remaining <= t /\ c_nonblocking cl = false
  | CSend d remaining since =>
      0 < remaining /\ d - remaining <= since /\ since <= t /\ c_nonblocking cl = false
  | CWaitRecv d remaining _ => 0 < remaining /\ d - remaining <= t
  | CRecv d remaining since _ => 0 < remaining /\ d - remaining <= since /\ since <= t
  | CEnqueue _ => c_nonblocking cl = false
  | CTrySend _ => c_nonblocking cl = true
  | _ => True
  end.
Definition wait_inv w : Prop := Forall (wait_ok (now w)) (calls w).

Lemma remaining_Some t d r : remaining_to_deadline t d = Some r <-> t < d /\ r = d - t.
Proof.
  unfold remaining_to_deadline, duration_since, saturating_sub. case_match; bool_facts; split.
  - done.
  - lia.
  - intros [= <-]. lia.
  - intros [? ->]. f_equal. lia.
Qed.

Lemma remaining_None t d : remaining_to_deadline t d = None <-> d <= t.
Proof. unfold remaining_to_deadline. case_match; bool_facts; naive_solver lia. Qed.

Lemma wait_ok_later t t' cl : t <= t' -> wait_ok t cl -> wait_ok t' cl.
Proof. unfold wait_ok. intros Ht. case_match; naive_solver lia. Qed.

Lemma wait_inv_step w a w' : wait_inv w -> step cfg a w = Some w' -> wait_inv w'.
Proof.
  intros Hinv H. destruct a. all: inv_step H.
  all: unfold wait_inv in *; cbn; repeat case_match; cbn; try done.
  1: bool_facts; eapply Forall_impl; [exact Hinv|]; intros; eapply wait_ok_later; [|done]; lia.
  all: try (apply Forall_app; split; [done|by repeat constructor]).
  all: apply Forall_insert; [done|]; unfold wait_ok in *; cbn; repeat case_match; try done.
  all: try match goal with L : calls _ !! _ = Some ?x, E : c_pc ?x = _ |- _ =>
    pose proof (Forall_lookup_1 _ _ _ _ Hinv L) as Hx; cbn in Hx; rewrite E in Hx end.
  all: simplify_eq; try done.
  all: try match goal with E : remaining_to_deadline _ _ = Some _ |- _ => apply remaining_Some in E as [? ->] end.
  all: naive_solver lia.
Qed.

Lemma reachable_wait w : reachable cfg w -> wait_inv w.
Proof.
  induction 1 as [t built client w [-> _]%pool_new_world|]; [constructor|eauto using wait_inv_step].
Qed.

(** A call that is not returned runs while the pool is open. *)
Lemma running_open w i cl :
  reachable cfg w -> calls w !! i = Some cl -> call_returned cl = false ->
  is_closed w = false.
Proof.
  intros Hr Hi Hc. pose proof (reachable_life _ _ Hr) as Hl.
  pose proof (returned_stuck _ _ _ Hi Hc (life_returned _ Hl)) as Hd.
  unfold is_closed. rewrite (life_closed _ Hl). by destruct (owner w).
Qed.

(** ** Properties *)

(** What an error that [run] produces itself says about the state in which it
    is returned. *)
Definition error_justified w (cl : Call Config) (e : MechanicsError) : Prop :=
  match kind e with
  | KRunTimeout => exists d, call_deadline (c_pc cl) = Some d /\ d <= now w
  | KQueueTimeout => exists d remaining since, c_pc cl = CSend d remaining since /\
      enqueue_timeout cfg < remaining /\ since + enqueue_timeout cfg <= now w
  | KQueueFull => c_nonblocking cl = true /\ queue_capacity cfg <= queue_depth w
  | KWorkerUnavailable => c_pc cl = CLive /\ workers_len w = 0
  | KRuntimePool =>
      instant_max < now w + default (cfg_run_timeout cfg) (run_timeout (c_job cl))
  | KPoolClosed | KExecution | KCanceled | KPanic => False
  end.

(** C16. The errors of [run] and [run_nonblocking_enqueue] tell the truth: when a
    call returns an error other than the reply it received, a run timeout
    means that its deadline has passed, a queue timeout that the call has
    waited for the whole enqueue timeout, which was less than what it had left
    of its run, a full queue that the queue is full, an
    unavailable worker that no worker is left, and a pool error that the clock
    cannot represent the deadline; no other error is possible. *)
Theorem call_errors_truthful w i cl b w' cl' e :
  reachable cfg w -> calls w !! i = Some cl -> call_returned cl = false ->
  reply_buf (c_cell cl) = None ->
  step cfg (ACaller i b) w = Some w' -> calls w' !! i = Some cl' -> c_pc cl' = CDone (Err e) ->
  error_justified w cl e.
Proof.
  intros Hr Hi Hc Hbuf Hs Hi' He. pose proof (running_open _ _ _ Hr Hi Hc) as Hopen.
  pose proof (Forall_lookup_1 _ _ _ _ (reachable_wait _ Hr) Hi) as Hw. unfold wait_ok in Hw.
  pose proof (reachable_protocol _ _ Hr) as Hp.
  inv_step Hs; cbn in Hi'; rewrite ?list_lookup_insert_eq in Hi' by eauto using lookup_lt_Some;
    cbn in Hi'; simplify_eq; cbn in He; repeat case_match; simplify_eq; cbn; unfold error_justified; cbn.
  - by bool_facts.
  - match goal with E : deadline_from_timeout _ _ = Err _ |- _ => unfold deadline_from_timeout in E end.
    destruct (instant_checked_add _ _) eqn:Ha; [done|]. injection Heqr as <-. by apply checked_add_None.
  - match goal with E : remaining_to_deadline _ _ = None |- _ => apply remaining_None in E end.
    rewrite Heqc. cbn. eauto.
  - bool_facts. rewrite Heqc. cbn. eexists. split; [done|]. lia.
  - bool_facts. eexists _, _, _. split; [exact Heqc|]. unfold enqueue_wait in *. lia.
  - bool_facts. done.
  - match goal with E : remaining_to_deadline _ _ = None |- _ => apply remaining_None in E end.
    rewrite Heqc. cbn. eauto.
  - bool_facts. rewrite Heqc. cbn. eexists. split; [done|]. lia.
  - exfalso. bool_facts. destruct (awaiting_served _ _ _ _ Hr Hi) as [[? ?]|]; [by rewrite Heqc| |]; congruence.
Qed.

(** A call that has not entered the queue can always drop its message. *)
Lemma pre_send_enabled w i cl r :
  reachable cfg w -> calls w !! i = Some cl -> stage_of (c_pc cl) = Pre ->
  is_Some (send_result r (c_cell cl)) /\ is_Some (send_result r (mark_canceled (c_cell cl))).
Proof.
  intros Hr Hi Hst. pose proof (Forall_lookup_1 _ _ _ _ (reachable_rx _ _ Hr) Hi) as Hx. unfold rx_ok in Hx.
  pose proof (pi_pre _ (reachable_protocol _ _ Hr) i) as Hpre.
  assert (p_cells (abs w) !! i = Some (cell_view cl)) as Hv by by eapply view_lookup.
  unfold cell_view in Hv. rewrite Hst in Hv. specialize (Hpre _ Hv).
  unfold send_result. cbn. rewrite Hx.
  destruct (returned (c_pc cl)); cbn; [eauto|]. destruct (reply_buf (c_cell cl)); [done|]. eauto.
Qed.

Lemma step_clock w a w' : step cfg a w = Some w' -> now w <= now w'.
Proof. intros H. destruct a. all: inv_step H. all: cbn; repeat case_match; cbn; bool_facts; lia. Qed.

Lemma exec_clock acts w w' : exec cfg acts w = Some w' -> now w <= now w'.
Proof.
  revert w. induction acts as [|a acts IH]; intros w; cbn; [by intros [= ->]|].
  intros (w1 & Hs & He)%bind_Some. pose proof (step_clock _ _ _ Hs). specialize (IH _ He). lia.
Qed.

Lemma own_or_other (a : Action (Config := Config)) i :
  (exists b, a = ACaller i b) \/ (forall b, a <> ACaller i b).
Proof. destruct a as [| |j b| | | |]; try (right; congruence). destruct (decide (j = i)) as [->|]; [eauto|right; congruence]. Qed.

(** A step of another thread leaves the call where it is. *)
Lemma other_step w a w' i cl :
  calls w !! i = Some cl -> step cfg a w = Some w' -> (forall b, a <> ACaller i b) ->
  exists cl', calls w' !! i = Some cl' /\ c_pc cl' = c_pc cl.
Proof.
  intros Hi H Ha. destruct a. all: inv_step H.
  all: cbn; repeat case_match; cbn; try (by eauto).
  all: try (exists cl; rewrite lookup_app_l by eauto using lookup_lt_Some; by auto).
  all: match goal with |- context [<[?j := _]> (calls _) !! ?i] => destruct (decide (i = j)) as [->|];
      [rewrite list_lookup_insert_eq by eauto using lookup_lt_Some; simplify_eq; eexists; split; [done|]
      |rewrite list_lookup_insert_ne by done; by eauto] end.
  all: cbn in *; simplify_eq; try done. all: by destruct (Ha _ eq_refl).
Qed.

(** A step of the call itself: it keeps the deadline or returns. *)
Lemma own_step w b w' i cl d :
  calls w !! i = Some cl -> call_deadline (c_pc cl) = Some d -> step cfg (ACaller i b) w = Some w' ->
  now w' = now w /\ exists cl', calls w' !! i = Some cl' /\
    (call_returned cl' = true \/ call_deadline (c_pc cl') = Some d /\
      (overdue (now w) (c_pc cl) ->
        overdue (now w') (c_pc cl') /\ (call_rank (c_pc cl') < call_rank (c_pc cl))%nat)).
Proof.
  intros Hi Hd H. pose proof (lookup_lt_Some _ _ _ Hi) as Hlt. inv_step H.
  all: split; [done|]; cbn; rewrite list_lookup_insert_eq by done; eexists; split; [done|].
  all: cbn; rewrite ?Heqc in Hd; cbn in Hd; simplify_eq; auto.
  all: right; split; [done|]; intros (Hnw & (d' & Hd' & Hle) & Hu).
  all: cbn in *; simplify_eq.
  all: try match goal with E : remaining_to_deadline _ _ = Some _ |- _ => apply remaining_Some in E as [? ->] end.
  all: try lia.
  all: split; [|lia]; split; [done|]; split; [eauto|done].
Qed.

(** Once it is overdue, a call always has a step. *)
Lemma overdue_enabled w i cl :
  reachable cfg w -> calls w !! i = Some cl -> overdue (now w) (c_pc cl) ->
  exists b w', step cfg (ACaller i b) w = Some w'.
Proof.
  intros Hr Hi (Hnw & (d & Hd & Hle) & Hu). pose proof (fun r => pre_send_enabled w i cl r Hr Hi) as Hsend.
  exists match c_pc cl with CSend _ _ _ | CRecv _ _ _ _ => CbTimeout | _ => CbGo end.
  unfold step, call_step, enqueue_step, try_send_step, reply_step. rewrite Hi. cbn.
  destruct (c_pc cl) eqn:Hpc; simplify_eq/=; try specialize (Hu _ eq_refl).
  - case_match; eauto.
  - destruct (Hsend (Err call_timeout_enqueue) eq_refl) as [_ [c1 Hc1]].
    destruct (Hsend (Err queue_timeout_full) eq_refl) as [[c2 Hc2] _].
    rewrite (proj2 (Z.leb_le _ (now w))) by lia. case_match; rewrite ?Hc1, ?Hc2; cbn; eauto.
  - case_match; eauto.
  - eauto.
  - case_match; eauto.
  - rewrite (proj2 (Z.leb_le _ (now w))) by lia. eauto.
Qed.

Lemma overdue_rank t pc : overdue t pc -> (1 <= call_rank pc)%nat.
Proof. intros (? & (d & ? & _) & _). destruct pc; cbn in *; (done || lia). Qed.

(** What is left of the run is read no earlier than [t0]. *)
Definition read_after (t0 : Instant) (pc : CallPc) : Prop :=
  match pc with
  | CWaitSend d remaining | CSend d remaining _ | CWaitRecv d remaining _ | CRecv d remaining _ _ =>
      remaining <= d - t0
  | _ => True
  end.

Lemma read_after_no_wait t pc : entering_wait pc = false -> wait_until pc = None -> read_after t pc.
Proof. by destruct pc. Qed.

Lemma read_after_step w a w' i cl t0 :
  t0 <= now w -> calls w !! i = Some cl -> read_after t0 (c_pc cl) -> step cfg a w = Some w' ->
  exists cl', calls w' !! i = Some cl' /\ read_after t0 (c_pc cl').
Proof.
  intros Ht Hi Hra H.
  destruct (own_or_other a i) as [[b ->]|Hne].
  - pose proof (lookup_lt_Some _ _ _ Hi) as Hlt. inv_step H.
    all: cbn; rewrite list_lookup_insert_eq by done; eexists; split; [done|].
    all: rewrite ?Heqc in Hra; cbn in *; repeat case_match; try done.
    all: match goal with E : remaining_to_deadline _ _ = Some _ |- _ => apply remaining_Some in E as [? ->] end; lia.
  - destruct (other_step _ _ _ _ _ Hi H) as (cl' & ? & ?); [done|]. exists cl'. split; congruence.
Qed.

(** One step of any thread, seen from a call with a deadline. *)
Lemma call_progress w a w' i cl d :
  calls w !! i = Some cl -> call_deadline (c_pc cl) = Some d -> step cfg a w = Some w' ->
  now w <= now w' /\ exists cl', calls w' !! i = Some cl' /\
    (call_returned cl' = true \/ call_deadline (c_pc cl') = Some d /\
      (overdue (now w) (c_pc cl) -> overdue (now w') (c_pc cl') /\
        (call_rank (c_pc cl') + own_steps i [a] <= call_rank (c_pc cl))%nat)).
Proof.
  intros Hi Hd H. destruct (own_or_other a i) as [[b ->]|Hne].
  - destruct (own_step _ _ _ _ _ _ Hi Hd H) as (Hn & cl' & Hi' & Hor). split; [lia|].
    exists cl'. split; [done|]. destruct Hor as [|[? Ho]]; [by left|right; split; [done|]].
    intros [? ?]%Ho. cbn. rewrite decide_True by done. split; [done|lia].
  - destruct (other_step _ _ _ _ _ Hi H) as (cl' & Hi' & Hpc); [done|].
    pose proof (step_clock _ _ _ H) as Hn. split; [done|]. exists cl'. rewrite Hpc. split; [done|]. right. split; [done|].
    intros (? & (d' & ? & ?) & Hu). split.
    + split; [done|]. split; [exists d'; split; [done|lia]|]. intros u Hu'. specialize (Hu u Hu'). lia.
    + replace (own_steps i [a]) with 0%nat; [lia|]. destruct a; cbn; try done. rewrite decide_False; naive_solver.
Qed.

Lemma own_steps_cons i a acts : own_steps i (a :: acts) = (own_steps i [a] + own_steps i acts)%nat.
Proof. destruct a; cbn; try done. by case_decide. Qed.

(** A returned call takes no step. *)
Lemma returned_stays acts w w1 i cl :
  calls w !! i = Some cl -> call_returned cl = true -> exec cfg acts w = Some w1 ->
  exists cl1, calls w1 !! i = Some cl1 /\ call_returned cl1 = true.
Proof.
  revert w cl. induction acts as [|a acts IH]; intros w cl Hi Hc; cbn.
  - intros [= ->]. eauto.
  - intros (w2 & Hs & He)%bind_Some.
    destruct (other_step _ _ _ _ _ Hi Hs) as (cl2 & Hi2 & Hpc).
    + intros b ->. unfold call_returned in Hc. inv_step Hs.
    + apply (IH w2 cl2 Hi2); [|done]. unfold call_returned in *. by rewrite Hpc.
Qed.

(** What any schedule makes of a call with a deadline. *)
Lemma call_schedule acts w w1 i cl d :
  calls w !! i = Some cl -> call_deadline (c_pc cl) = Some d -> exec cfg acts w = Some w1 ->
  now w <= now w1 /\ exists cl1, calls w1 !! i = Some cl1 /\
    (call_returned cl1 = true \/ call_deadline (c_pc cl1) = Some d /\
      (overdue (now w) (c_pc cl) -> overdue (now w1) (c_pc cl1) /\
        (call_rank (c_pc cl1) + own_steps i acts <= call_rank (c_pc cl))%nat)).
Proof.
  revert w cl. induction acts as [|a acts IH]; intros w cl Hi Hd; cbn [exec].
  - intros [= ->]. split; [done|]. exists cl. split; [done|]. right. split; [done|]. cbn. intros ?. split; [done|lia].
  - intros (w2 & Hs & He)%bind_Some.
    destruct (call_progress _ _ _ _ _ _ Hi Hd Hs) as (Hn & cl2 & Hi2 & [Hret|[Hd2 Ho]]).
    + split; [by pose proof (exec_clock _ _ _ He); lia|].
      destruct (returned_stays _ _ _ _ _ Hi2 Hret He) as (cl1 & ? & ?). eauto.
    + destruct (IH w2 cl2 Hi2 Hd2 He) as (Hn2 & cl1 & Hi1 & Hor). split; [lia|]. exists cl1. split; [done|].
      destruct Hor as [|[Hd1 Ho1]]; [by left|right]. split; [done|].
      intros [Ho2 ?]%Ho. destruct (Ho1 Ho2). rewrite own_steps_cons. split; [done|lia].
Qed.

Lemma read_after_schedule acts w w1 i cl t0 :
  t0 <= now w -> calls w !! i = Some cl -> read_after t0 (c_pc cl) -> exec cfg acts w = Some w1 ->
  exists cl1, calls w1 !! i = Some cl1 /\ read_after t0 (c_pc cl1).
Proof.
  revert w cl. induction acts as [|a acts IH]; intros w cl Ht Hi Hra; cbn [exec].
  - intros [= ->]. eauto.
  - intros (w2 & Hs & He)%bind_Some. destruct (read_after_step _ _ _ _ _ _ Ht Hi Hra Hs) as (cl2 & Hi2 & Hra2).
    apply (IH w2 cl2); [|done..]. by pose proof (step_clock _ _ _ Hs); lia.
Qed.

(** C5. [run] is bounded by its run timeout, whatever the other threads do.
    Take any reachable state in which a call has fixed its deadline, and any
    schedule from there, of the call and of all other threads.  Until the
    call has returned its deadline does not move.  A timed wait entered after
    that state ends no later than the deadline plus the time that has passed
    since that state (with the state taken at the clock read that computes
    the wait, plus the delay between that read and the wait's own).  And if
    in that state the deadline and the end of the wait in progress have
    passed, then under every schedule the call has returned once it has taken
    three steps of its own, and as long as it has not it has a step that no
    other thread can disable. *)
Theorem run_returns_after_deadline w i cl d acts w1 :
  reachable cfg w -> calls w !! i = Some cl -> call_deadline (c_pc cl) = Some d ->
  exec cfg acts w = Some w1 ->
  exists cl1, calls w1 !! i = Some cl1 /\ (call_returned cl1 = true \/
    call_deadline (c_pc cl1) = Some d /\
    (entering_wait (c_pc cl) = false -> wait_until (c_pc cl) = None ->
      forall until, wait_until (c_pc cl1) = Some until -> until <= d + (now w1 - now w)) /\
    (overdue (now w) (c_pc cl) ->
      (own_steps i acts < 3)%nat /\ exists b w2, step cfg (ACaller i b) w1 = Some w2)).
Proof.
  intros Hr Hi Hd He. destruct (call_schedule _ _ _ _ _ _ Hi Hd He) as (Hn & cl1 & Hi1 & Hor).
  exists cl1. split; [done|]. destruct Hor as [|[Hd1 Ho]]; [by left|right].
  pose proof (exec_reachable _ _ _ _ Hr He) as Hr1. split; [done|]. split.
  - intros Hnw Hnu until Hu.
    destruct (read_after_schedule _ _ _ _ _ (now w) (Z.le_refl _) Hi (read_after_no_wait _ _ Hnw Hnu) He)
      as (cl2 & Hi2 & Hra). simplify_eq.
    pose proof (Forall_lookup_1 _ _ _ _ (reachable_wait _ Hr1) Hi1) as Hw. unfold wait_ok in Hw.
    destruct (c_pc cl1) eqn:Hpc; simplify_eq/=; unfold enqueue_wait; lia.
  - intros [Ho1 Hk]%Ho. split; [|by eapply overdue_enabled].
    pose proof (overdue_rank _ _ Ho1). assert (call_rank (c_pc cl) <= 3)%nat by (destruct (c_pc cl); cbn; lia). lia.
Qed.
End calls.

(** ** Witnesses *)

Definition demo_late : World () := demo (build ++ call_until_wait 0 ++ [ATick 100]).

(** The two clock reads of a wait: the reply is awaited from 7 on for the 95
    that were left at 5. *)
Example demo_wait_overshoot :
  c_pc <$> calls (demo (build ++ ACall demo_job false :: replicate 7 (ACaller 0 CbGo) ++
    [ATick 5; ACaller 0 CbGo; ATick 2; ACaller 0 CbGo])) = [CRecv 100 95 7 0].
Proof. vm_compute. reflexivity. Qed.

(** A call whose deadline has passed before it sends its job. *)
Definition demo_overdue : World () :=
  demo (build ++ ACall demo_job true :: replicate 3 (ACaller 0 CbGo) ++ [ATick 100]).
Definition demo_rest : list (Action (Config := ())) :=
  [ACaller 0 CbGo; AWorker 0 WbJob; ACaller 0 CbGo; ATick 1; ACaller 0 CbGo].

Lemma run_returns_after_deadline_witness :
  exists w1 cl1, exec demo_cfg demo_rest demo_overdue = Some w1 /\
    calls w1 !! 0%nat = Some cl1 /\ call_returned cl1 = true.
Proof.
  assert (exists cl, calls demo_overdue !! 0%nat = Some cl /\ c_pc cl = CTrySend 100) as (cl & Hcl & Hpc)
    by (vm_compute; eauto).
  assert (call_deadline (c_pc cl) = Some 100) as Hd by (rewrite Hpc; reflexivity).
  assert (overdue demo_cfg (now demo_overdue) (c_pc cl)) as Ho.
  { rewrite Hpc. split; [reflexivity|]. split; [exists 100; split; [reflexivity|vm_compute; discriminate]|discriminate]. }
  assert (is_Some (exec demo_cfg demo_rest demo_overdue)) as [w1 Hw1] by (vm_compute; eauto).
  destruct (run_returns_after_deadline demo_cfg demo_overdue 0 cl 100 demo_rest w1 ltac:(reach) Hcl Hd Hw1)
    as (cl1 & Hcl1 & [Hret|(_ & _ & Hlate)]); [exists w1, cl1; auto|].
  exfalso. destruct (Hlate Ho) as [H3 _]. vm_compute in H3. lia.
Defined.

Lemma call_errors_truthful_witness :
  exists cl e, calls demo_late !! 0%nat = Some cl /\ kind e = KRunTimeout /\
    error_justified demo_cfg demo_late cl e.
Proof.
  assert (exists cl w' cl', calls demo_late !! 0%nat = Some cl /\ call_returned cl = false /\
    reply_buf (c_cell cl) = None /\ step demo_cfg (ACaller 0 CbTimeout) demo_late = Some w' /\
    calls w' !! 0%nat = Some cl' /\ c_pc cl' = CDone (Err call_timeout_reply))
    as (cl & w' & cl' & H1 & H2 & H3 & H4 & H5 & H6).
  { vm_compute. do 3 eexists. repeat split. }
  exists cl, call_timeout_reply. split; [exact H1|]. split; [reflexivity|].
  exact (call_errors_truthful demo_cfg demo_late 0 cl CbTimeout w' cl' _ ltac:(reach) H1 H2 H3 H4 H5 H6).
Defined.
