(* ===== verification/PoolWorkers.v ===== *)
(** * PoolWorkers: the worker threads of the pool

    How many workers there are, how often they are restarted, and that none of
    them outlives the pool: invariants of the transition system of Pool.v
    about the workers map, the restart guard and the threads. *)

From S2P Require Import Prelude Errors Json Job PoolConfig RestartGuard Metrics RuntimeApi Pool PoolDemo ReplyProtocol PoolSafety.

Section workers.
Context {Config Client : Type} (cfg : MechanicsPoolConfig Client).
Implicit Types w : World Config.

(** ** The number of workers *)

(** Handles that the spawn in progress and the spawns after it may add. *)
Definition spawn_left (sp : SpawnPc) : nat :=
  match sp with SpFetch | SpInsert _ => 1 | _ => 0 end.
Definition owner_left (pc : OwnerPc) : nat :=
  match pc with ONew k sp => k - 1 + spawn_left sp | _ => 0 end.
Definition sup_left (pc : SupervisorPc) : nat :=
  match pc with SRestart _ m => m | SSpawn _ m sp => m + spawn_left sp | _ => 0 end.

Definition desired : nat := Z.to_nat (worker_count cfg).

Definition count_inv w : Prop :=
  (size (workers (shared w)) + owner_left (owner w) + sup_left (supervisor w) <= desired)%nat.

Lemma foldl_delete_subseteq (ids : list Z) (m : gmap Z nat) :
  foldl (fun m id => delete id m) m ids ⊆ m.
Proof.
  revert m. induction ids as [|id ids IH]; intros m; [done|]. cbn.
  etrans; [apply IH|apply delete_subseteq].
Qed.

Lemma size_delete_le (m : gmap Z nat) id : (size (delete id m) <= size m)%nat.
Proof. apply map_subseteq_size, delete_subseteq. Qed.
Lemma size_foldl_delete_le (m : gmap Z nat) ids :
  (size (foldl (fun m id => delete id m) m ids) <= size m)%nat.
Proof. apply map_subseteq_size, foldl_delete_subseteq. Qed.
Lemma size_insert_le (m : gmap Z nat) i t : (size (<[i := t]> m) <= S (size m))%nat.
Proof. rewrite map_size_insert. case_match; unfold id; lia. Qed.

Lemma count_inv_step w a w' :
  life_inv w -> count_inv w -> step cfg a w = Some w' -> count_inv w'.
Proof.
  intros Hl Hinv H. destruct a. all: inv_step H.
  all: unfold count_inv in *; cbn -[size]; repeat case_match; cbn -[size] in *.
  all: try done.
  all: repeat match goal with
    | E : owner _ = _ |- _ => rewrite E in *; cbn -[size] in *
    | E : supervisor _ = _ |- _ => rewrite E in *; cbn -[size] in *
    | |- context [size (delete ?i ?m)] => pose proof (size_delete_le m i); generalize dependent (size (delete i m)); intros
    | |- context [size (<[?i := ?t]> ?m)] => pose proof (size_insert_le m i t); generalize dependent (size (<[i := t]> m)); intros
    | |- context [size (foldl ?f ?m ?l)] => pose proof (size_foldl_delete_le m l); generalize dependent (size (foldl f m l)); intros
    end; try lia.
  - assert (owner_left (owner w) = 0)%nat as ->.
    { destruct (owner w) eqn:Ho; try done. by destruct (life_building _ Hl) as (_ & _ & ?); [rewrite Ho|congruence]. }
    unfold saturating_sub, desired_worker_count, workers_len, desired in *. lia.
  - rewrite map_size_empty. lia.
Qed.

Lemma reachable_count w : config_typed cfg -> reachable cfg w -> count_inv w.
Proof.
  intros [[Hty _] _]. induction 1 as [t built client w [-> [Hv _]]%pool_new_world|]; [|eauto using count_inv_step, reachable_life].
  unfold count_inv, desired. cbn -[size]. rewrite map_size_empty. lia.
Qed.

(** ** The rate of restarts *)

(** Threads that a granted restart, or the loop of [new], has yet to start. *)
Definition owner_unspawned (pc : OwnerPc) : nat :=
  match pc with ONew k SpFetch => k | ONew k _ => k - 1 | _ => 0 end.
Definition sup_unspawned (pc : SupervisorPc) : nat :=
  match pc with SSpawn _ _ SpFetch => 1 | _ => 0 end.

Record restart_inv w : Prop := {
  ri_tracks : tracks (restart_window cfg) (Z.to_nat (cfg_max_restarts_in_window cfg)) (now w)
    (grants (hist w)) (restart_guard (shared w));
  ri_spaced : spaced (restart_window cfg) (Z.to_nat (cfg_max_restarts_in_window cfg)) (grants (hist w));
  ri_threads : (length (threads w) + owner_unspawned (owner w) + sup_unspawned (supervisor w)
    <= desired + length (grants (hist w)))%nat;
  ri_len : (length (restarts (restart_guard (shared w))) <= max_restarts (restart_guard (shared w)))%nat;
  ri_loop : forall k sp, owner w = ONew k sp -> (0 < k)%nat;
}.

Lemma tracks_later win m t t' h g : t <= t' -> tracks win m t h g -> tracks win m t' h g.
Proof.
  intros Ht [Hw Hm Hs Hp (old & Heq & Hold)]. split; eauto using Forall_le_trans.
  exists old. eauto using old_later.
Qed.

(** One attempt of the guard. *)
Lemma attempt_spaced win m t h g g' ok :
  0 <= win -> tracks win m t h g -> spaced win m h -> allow_restart g t = (g', ok) ->
  tracks win m t (if ok then h ++ [t] else h) g' /\ spaced win m (if ok then h ++ [t] else h).
Proof.
  intros Hw Ht Hsp Ha. pose proof (tracks_step win m t t h g Hw ltac:(lia) Ht) as Hstep.
  rewrite Ha in Hstep. destruct Hstep as [Ht' Hok]. split; [done|].
  destruct ok; [|done]. symmetry in Hok. apply Nat.ltb_lt in Hok.
  destruct Ht. by apply spaced_snoc.
Qed.

Lemma allow_restart_max g t : max_restarts (fst (allow_restart g t)) = max_restarts g.
Proof. unfold allow_restart. by case_match. Qed.

Lemma length_foldr_alter {A} (f : A -> A) l (is_ : list nat) : length (foldr (alter f) l is_) = length l.
Proof. induction is_; cbn; [done|]. by rewrite length_alter. Qed.

Lemma restart_inv_step w a w' :
  0 <= restart_window cfg -> restart_inv w -> step cfg a w = Some w' -> restart_inv w'.
Proof.
  intros Hwin [Ht Hsp Hn Hlen Hk] H. destruct a. all: inv_step H.
  all: try match goal with E : allow_restart ?g ?t = _ |- _ =>
    pose proof (allow_restart_bounded g t Hlen) as Hlen'; pose proof (allow_restart_max g t) as Hmax;
    rewrite E in Hlen', Hmax; cbn in Hlen', Hmax; rewrite <- Hmax in Hlen' end.
  all: try match goal with E : allow_restart _ _ = _ |- _ => pose proof (attempt_spaced _ _ _ _ _ _ _ Hwin Ht Hsp E) as [? ?] end.
  all: split; cbn; repeat case_match; cbn; try done.
  all: repeat match goal with
    | E : owner _ = _ |- _ => rewrite E in *; cbn in *
    | E : supervisor _ = _ |- _ => rewrite E in *; cbn in *
    end; try done.
  all: rewrite ?length_app, ?length_insert, ?length_alter, ?length_foldr_alter; cbn; try lia.
  all: cbn in *; try lia.
  all: try (pose proof (Hk _ _ eq_refl); lia).
  all: intros; simplify_eq; try lia.
  1: bool_facts; eapply tracks_later; [|done]; lia.
  all: by eapply Hk.
Qed.

Lemma reachable_restart w : config_typed cfg -> reachable cfg w -> restart_inv w.
Proof.
  intros Hty. pose proof Hty as ([Hwc _] & _ & _ & _ & _ & [Hwin _]).
  induction 1 as [t built client w [-> [Hv _]]%pool_new_world|]; [|eauto using restart_inv_step].
  split; cbn.
  - apply tracks_new.
  - by intros [] ?.
  - unfold desired. lia.
  - lia.
  - intros k sp [= <- _]. lia.
Qed.

(** ** Threads *)

(** A thread only moves towards its end and keeps its id. *)
Definition rank (th : WorkerThread Config) : nat :=
  match wt_pc th with WFinished => 2 | WEnding => 1 | _ => 0 end.

Definition threads_evolve (l l' : list (WorkerThread Config)) : Prop :=
  forall t th, l !! t = Some th -> exists th', l' !! t = Some th' /\ wt_id th' = wt_id th /\ (rank th <= rank th')%nat.

Lemma threads_evolve_refl l : threads_evolve l l.
Proof. intros t th H. eauto. Qed.

Lemma threads_evolve_trans l1 l2 l3 : threads_evolve l1 l2 -> threads_evolve l2 l3 -> threads_evolve l1 l3.
Proof.
  intros H12 H23 t th H. destruct (H12 _ _ H) as (th2 & H2 & Hi2 & Hr2).
  destruct (H23 _ _ H2) as (th3 & H3 & Hi3 & Hr3). exists th3. split; [done|]. split; [congruence|lia].
Qed.

Lemma threads_evolve_snoc l th : threads_evolve l (l ++ [th]).
Proof. intros t th' H. exists th'. by rewrite lookup_app_l by eauto using lookup_lt_Some. Qed.

Lemma threads_evolve_set l t th th' :
  l !! t = Some th -> wt_id th' = wt_id th -> (rank th <= rank th')%nat ->
  threads_evolve l (<[t := th']> l).
Proof.
  intros Ht Hi Hr t2 th2 H2. destruct (decide (t = t2)) as [->|].
  - simplify_eq. exists th'. by rewrite list_lookup_insert_eq by eauto using lookup_lt_Some.
  - exists th2. by rewrite list_lookup_insert_ne.
Qed.

Lemma threads_evolve_signal l t : threads_evolve l (alter request_shutdown t l).
Proof.
  intros t2 th2 H2. rewrite list_lookup_alter. case_decide; subst; rewrite H2; cbn; eauto.
Qed.

Lemma threads_evolve_signals l ts : threads_evolve l (foldr (alter request_shutdown) l ts).
Proof.
  induction ts as [|t ts IH]; cbn; eauto using threads_evolve_refl, threads_evolve_trans, threads_evolve_signal.
Qed.

Lemma step_threads_evolve w a w' : step cfg a w = Some w' -> threads_evolve (threads w) (threads w').
Proof.
  intros H. destruct a. all: inv_step H.
  all: cbn; repeat case_match; cbn;
    try by eauto using threads_evolve_refl, threads_evolve_snoc, threads_evolve_signal, threads_evolve_signals.
  all: eapply threads_evolve_set; [eassumption|done|]; unfold rank;
    try match goal with E : wt_pc _ = _ |- _ => rewrite E end; cbn; try lia.
Qed.

(** Worker ids are handed out in order; they repeat only after [2^64]. *)
Record ids_inv w : Prop := {
  ids_next : next_worker_id (shared w) = spawned (hist w) mod (usize_max + 1);
  ids_nonneg : 0 <= spawned (hist w);
  ids_range : spawned (hist w) <= usize_max ->
    Forall (fun id => 0 <= id < spawned (hist w)) (wt_id <$> threads w);
  ids_nodup : spawned (hist w) <= usize_max -> NoDup (wt_id <$> threads w);
}.

Lemma ids_inv_frame w w' :
  ids_inv w -> next_worker_id (shared w') = next_worker_id (shared w) ->
  spawned (hist w') = spawned (hist w) -> wt_id <$> threads w' = wt_id <$> threads w -> ids_inv w'.
Proof. intros [Hn H0 Hr Hd] En Es Et. split; by rewrite ?En, ?Es, ?Et. Qed.

Lemma ids_inv_fetch w w' :
  ids_inv w -> next_worker_id (shared w') = wrapping_add usize_max (next_worker_id (shared w)) 1 ->
  spawned (hist w') = spawned (hist w) + 1 ->
  threads w' = threads w \/ threads w' = threads w ++ [thread_new (next_worker_id (shared w))] -> ids_inv w'.
Proof.
  intros [Hn H0 Hr Hd] En Es Et. split; rewrite ?En, ?Es.
  - unfold wrapping_add. rewrite Hn, Zplus_mod_idemp_l. done.
  - lia.
  - intros Hb. assert (Forall (fun id => 0 <= id < spawned (hist w) + 1) (wt_id <$> threads w)) as Hold.
    { eapply Forall_impl; [apply Hr; lia|]. cbn. lia. }
    destruct Et as [->| ->]; [done|]. rewrite fmap_app. apply Forall_app. split; [done|].
    repeat constructor; cbn; rewrite Hn, Z.mod_small by lia; lia.
  - intros Hb. destruct Et as [->| ->]; [apply Hd; lia|]. rewrite fmap_app. apply NoDup_app.
    split; [apply Hd; lia|]. split; [|apply NoDup_singleton].
    intros id Hid ->%list_elem_of_singleton. cbn in Hid. rewrite Hn, Z.mod_small in Hid by lia.
    pose proof (proj1 (Forall_forall _ _) (Hr ltac:(lia)) _ Hid) as Hc. cbn in Hc. lia.
Qed.

Lemma ids_inv_step w a w' : ids_inv w -> step cfg a w = Some w' -> ids_inv w'.
Proof.
  intros Hinv H. destruct a. all: inv_step H.
  all: match goal with Hinv : ids_inv ?w |- _ => first
   [ by (apply (ids_inv_fetch w); [done|reflexivity|reflexivity|]; cbn; auto)
   | apply (ids_inv_frame w); [done|..]; cbn; repeat case_match; cbn; try done;
     first [ by apply fmap_alter_same | by apply fmap_foldr_alter_same
           | eapply fmap_insert_same; [eassumption|]; by repeat case_match ] ] end.
Qed.

Lemma reachable_ids w : reachable cfg w -> ids_inv w.
Proof.
  induction 1 as [t built client w [-> _]%pool_new_world|]; [|eauto using ids_inv_step].
  split; cbn; try done. intros _. apply NoDup_nil_2.
Qed.

(** A thread with the given id and at least the given rank. *)
Definition reached w (id : Z) (r : nat) : Prop :=
  exists t th, threads w !! t = Some th /\ wt_id th = id /\ (r <= rank th)%nat.

(** Lists of ids that a reaper has collected. *)
Definition reap_list w (ids : list Z) : Prop :=
  (exists reason, supervisor w = SReapRemove reason ids) \/
  exists i cl, calls w !! i = Some cl /\ c_pc cl = CReapRemove ids.

(** What the handles, the exit events and the collected ids refer to. *)
Record refs_inv w : Prop := {
  refs_handle : forall id t, workers (shared w) !! id = Some t ->
    exists th, threads w !! t = Some th /\ wt_id th = id;
  refs_exit : forall ev, ev ∈ exits (shared w) \/ supervisor w = SEvent ev ->
    reached w (exit_worker_id ev) 1;
  refs_reap : forall ids id, reap_list w ids -> id ∈ ids -> reached w id 2;
}.

Lemma reached_evolve w w' id r :
  threads_evolve (threads w) (threads w') -> reached w id r -> reached w' id r.
Proof.
  intros He (t & th & Ht & Hi & Hr). destruct (He _ _ Ht) as (th' & Ht' & Hi' & Hr').
  exists t, th'. split; [done|]. split; [congruence|lia].
Qed.

Lemma finished_ids_reached w id :
  refs_inv w -> id ∈ finished_ids w -> reached w id 2.
Proof.
  intros [Hh _ _] Hid. unfold finished_ids in Hid.
  apply list_elem_of_fmap in Hid as ([id' t] & -> & [Hf Hin]%list_elem_of_filter). cbn in *.
  apply elem_of_map_to_list in Hin. destruct (Hh _ _ Hin) as (th & Ht & Hi).
  exists t, th. split; [done|]. split; [done|]. unfold thread_finished, is_finished in Hf.
  rewrite Ht in Hf. unfold rank. by destruct (wt_pc th).
Qed.

Lemma refs_inv_gen w w' :
  refs_inv w -> threads_evolve (threads w) (threads w') ->
  (forall id t, workers (shared w') !! id = Some t -> workers (shared w) !! id = Some t \/
     exists th, threads w' !! t = Some th /\ wt_id th = id) ->
  (forall ev, ev ∈ exits (shared w') \/ supervisor w' = SEvent ev ->
     (ev ∈ exits (shared w) \/ supervisor w = SEvent ev) \/ reached w' (exit_worker_id ev) 1) ->
  (forall ids, reap_list w' ids -> reap_list w ids \/ ids = finished_ids w) -> refs_inv w'.
Proof.
  intros Hinv He Hw Hx Hr. pose proof Hinv as [Hh Hev Hreap]. split.
  - intros id t [Hl|?]%Hw; [|done]. destruct (Hh _ _ Hl) as (th & Ht & Hi).
    destruct (He _ _ Ht) as (th' & Ht' & Hi' & _). exists th'. split; [done|congruence].
  - intros ev [?|?]%Hx; eauto using reached_evolve.
  - intros ids id [?| ->]%Hr Hid; eauto using reached_evolve, finished_ids_reached.
Qed.

Lemma workers_step w a w' id t :
  step cfg a w = Some w' -> workers (shared w') !! id = Some t ->
  workers (shared w) !! id = Some t \/ exists th, threads w' !! t = Some th /\ wt_id th = id.
Proof.
  intros H. destruct a. all: inv_step H.
  all: cbn; repeat case_match; cbn; auto.
  all: rewrite ?lookup_delete_Some, ?lookup_insert_Some, ?lookup_empty.
  all: try (intros; destruct_and?; by auto).
  all: try (intros Hl; left; eapply lookup_weaken; [exact Hl|apply foldl_delete_subseteq]).
  all: try (intros [[<- <-]|[_ ?]]; [|by auto]; right).
  all: try by eauto.
  all: match goal with L : threads ?w !! ?t = Some ?x |- context [alter _ ?n _] =>
     destruct (threads_evolve_signal (threads w) n t x L) as (th' & ? & ? & _); eauto end.
Qed.

Lemma exits_step w a w' ev :
  step cfg a w = Some w' -> ev ∈ exits (shared w') \/ supervisor w' = SEvent ev ->
  (ev ∈ exits (shared w) \/ supervisor w = SEvent ev) \/ reached w' (exit_worker_id ev) 1.
Proof.
  intros H. destruct a. all: inv_step H.
  all: cbn; repeat case_match; cbn; auto.
  all: try (intros [?|?]; left; [by auto|right; congruence]).
  - intros [[?| ->%list_elem_of_singleton]%elem_of_app|?]; [by auto| |by auto]. right.
    exists t, (set_pc WEnding x). cbn. by rewrite list_lookup_insert_eq by eauto using lookup_lt_Some.
  - intros [?|[= ->]]; left; left; [by apply list_elem_of_further|apply list_elem_of_here].
Qed.

Lemma reap_sup w ids reason : supervisor w = SReapRemove reason ids -> reap_list w ids.
Proof. left. eauto. Qed.
Lemma reap_call w ids i cl : calls w !! i = Some cl -> c_pc cl = CReapRemove ids -> reap_list w ids.
Proof. right. eauto. Qed.

Lemma reap_list_step w a w' ids :
  step cfg a w = Some w' -> reap_list w' ids -> reap_list w ids \/ ids = finished_ids w.
Proof.
  intros H. destruct a. all: inv_step H.
  all: intros [[reason' Er]|(j' & cl' & Hl & Ec)]; cbn in *.
  all: repeat match goal with E : context [match ?x with _ => _ end] |- _ => destruct x eqn:?; cbn in E end; simplify_eq; cbn in *.
  all: lookups; cbn in *; simplify_eq.
  all: try by eauto using reap_sup, reap_call.
  all: repeat case_match; simplify_eq; auto.
Qed.

Lemma refs_inv_step w a w' : refs_inv w -> step cfg a w = Some w' -> refs_inv w'.
Proof.
  intros Hinv H. eapply refs_inv_gen; eauto using step_threads_evolve, workers_step, exits_step, reap_list_step.
Qed.

Lemma reachable_refs w : reachable cfg w -> refs_inv w.
Proof.
  induction 1 as [t built client w [-> _]%pool_new_world|]; [|eauto using refs_inv_step].
  split; cbn.
  - intros id t' Hl. by rewrite lookup_empty in Hl.
  - intros ev [?%not_elem_of_nil|?]; done.
  - intros ids id [[? ?]|(? & ? & ? & ?)]; done.
Qed.

(** Every thread that still runs is known to someone who will join it: its
    handle is in the map, or the spawning thread, the supervisor or the owner
    holds it. *)
Definition spawn_pending (sp : SpawnPc) : list nat :=
  match sp with SpInsert t | SpJoin t _ => [t] | _ => [] end.
Definition sup_pending (pc : SupervisorPc) : list nat :=
  match pc with SJoin t _ => [t] | SSpawn _ _ sp => spawn_pending sp | _ => [] end.
Definition owner_pending (pc : OwnerPc) : list nat :=
  match pc with ONew _ sp => spawn_pending sp | OJoin _ ts => ts | _ => [] end.
Definition tracked w (t : nat) : Prop :=
  (exists id, workers (shared w) !! id = Some t) \/
  t ∈ sup_pending (supervisor w) ++ owner_pending (owner w).

Definition tracked_inv w : Prop :=
  forall t, (t < length (threads w))%nat -> thread_finished w t = false -> tracked w t.

(** Two threads with the same id are the same. *)
Lemma same_id w t t' th th' :
  NoDup (wt_id <$> threads w) -> threads w !! t = Some th -> threads w !! t' = Some th' ->
  wt_id th = wt_id th' -> t = t'.
Proof.
  intros Hd Ht Ht' He. eapply NoDup_lookup; [exact Hd|by eapply view_lookup|].
  by eapply view_lookup.
Qed.

Lemma finished_evolve w w' t :
  threads_evolve (threads w) (threads w') -> thread_finished w' t = false -> thread_finished w t = false.
Proof.
  unfold thread_finished, is_finished. intros He Hf. destruct (threads w !! t) as [th|] eqn:Ht; [|done].
  destruct (He _ _ Ht) as (th' & Ht' & _ & Hr). rewrite Ht' in Hf. unfold rank in Hr.
  destruct (wt_pc th); try done. by destruct (wt_pc th'); cbn in Hr; try lia.
Qed.

(** Reaping removes only handles of finished threads. *)
Lemma reap_keeps w ids id t :
  NoDup (wt_id <$> threads w) -> refs_inv w -> reap_list w ids -> thread_finished w t = false ->
  workers (shared w) !! id = Some t ->
  foldl (fun m id => delete id m) (workers (shared w)) ids !! id = Some t.
Proof.
  intros Hd [Hh _ Hr] Hl Hf Hid.
  assert (id ∉ ids) as Hni.
  { intros Hin. destruct (Hr _ _ Hl Hin) as (t' & th' & Ht' & Hi' & Hrk).
    destruct (Hh _ _ Hid) as (th & Ht & Hi).
    assert (t' = t) as -> by (eapply same_id; eauto; congruence).
    unfold thread_finished, is_finished in Hf. rewrite Ht' in Hf. unfold rank in Hrk.
    destruct (wt_pc th'); try lia; done. }
  clear -Hni Hid. generalize dependent (workers (shared w)). induction ids as [|i ids IH]; cbn; intros m Hm; [done|].
  apply IH; [set_solver|]. rewrite lookup_delete_ne by set_solver. done.
Qed.

Lemma delete_tracked (m : gmap Z nat) i id t :
  m !! id = Some t -> (exists id', delete i m !! id' = Some t) \/ m !! i = Some t.
Proof.
  intros Hm. destruct (decide (i = id)) as [->|]; [by right|]. left. exists id. by rewrite lookup_delete_ne.
Qed.

Lemma insert_tracked w i (t0 t : nat) x id :
  NoDup (wt_id <$> threads w) -> refs_inv w -> threads w !! t0 = Some x -> wt_id x = i ->
  workers (shared w) !! id = Some t -> exists id', <[i := t0]> (workers (shared w)) !! id' = Some t.
Proof.
  intros Hd [Hh _ _] Hx Hi Hm. destruct (decide (i = id)) as [->|]; [|exists id; by rewrite lookup_insert_ne].
  destruct (Hh _ _ Hm) as (th & Ht & Hid). exists id. rewrite lookup_insert_eq. f_equal.
  eapply same_id; eauto. congruence.
Qed.

Lemma tracked_step w a w' t :
  life_inv w -> NoDup (wt_id <$> threads w) -> refs_inv w -> step cfg a w = Some w' ->
  thread_finished w t = false -> tracked w t \/ t = length (threads w) ->
  (t < length (threads w'))%nat -> tracked w' t.
Proof.
  intros Hlife Hd Hrefs H Hf Htr. destruct a. all: inv_step H.
  all: unfold tracked in *; cbn; repeat case_match; cbn; try done.
  all: rewrite ?length_app, ?length_insert, ?length_alter, ?length_foldr_alter; cbn; intros Hlt.
  all: destruct Htr as [Htr|Htr]; [|try lia].
  all: repeat match goal with
    | E : owner _ = _ |- _ => rewrite E in *; cbn in *
    | E : supervisor _ = _ |- _ => rewrite E in *; cbn in *
    end; try done.
  all: rewrite ?elem_of_app, ?elem_of_cons, ?elem_of_nil in *.
  all: repeat match goal with
    | E : _ \/ _ |- _ => destruct E as [E|E]
    | E : exists _, _ |- _ => destruct E as [? E]
    end; subst; try (by auto); try congruence.
  all: try match goal with E : workers (shared _) !! _ = Some ?t |- context [delete ?i _] =>
      destruct (delete_tracked _ i _ _ E); [by auto|simplify_eq; by auto] end.
  all: try match goal with E : workers (shared _) !! _ = Some ?t, X : threads _ !! ?t0 = Some ?x |- context [<[wt_id ?x := ?t0]> _] =>
      left; by eapply insert_tracked end.
  all: try (left; eexists; eapply reap_keeps; by eauto using reap_call, reap_sup).
  all: try (left; by eauto).
  all: try (left; eexists; by apply lookup_insert_eq).
  { destruct (life_building _ Hlife) as (_ & _ & E); [by rewrite Heqo|]. rewrite E in Htr. by apply not_elem_of_nil in Htr. }
  right. right. apply list_elem_of_fmap. eexists (_, _). split; [reflexivity|]. by apply elem_of_map_to_list.
Qed.

Lemma tracked_inv_step w a w' :
  life_inv w -> NoDup (wt_id <$> threads w) -> refs_inv w -> tracked_inv w ->
  step cfg a w = Some w' -> tracked_inv w'.
Proof.
  intros Hl Hd Hr Ht Hs t Hlt Hf.
  pose proof (finished_evolve _ _ _ (step_threads_evolve _ _ _ Hs) Hf) as Hf0.
  eapply tracked_step; try eassumption.
  destruct (decide (t < length (threads w)))%nat; [left; by apply Ht|right].
  assert (length (threads w') <= S (length (threads w)))%nat; [|lia].
  clear -Hs. destruct a; inv_step Hs; cbn; repeat case_match; cbn;
    rewrite ?length_app, ?length_insert, ?length_alter, ?length_foldr_alter; cbn; lia.
Qed.

Lemma spawned_mono w a w' : step cfg a w = Some w' -> spawned (hist w) <= spawned (hist w').
Proof.
  intros Hs. destruct a. all: inv_step Hs. all: cbn; repeat case_match; cbn; lia.
Qed.

Lemma reachable_tracked w : reachable cfg w -> spawned (hist w) <= usize_max -> tracked_inv w.
Proof.
  induction 1 as [t built client w [-> _]%pool_new_world|w a w' Hr IH Hs]; intros Hb.
  - intros t' Ht. cbn in Ht. lia.
  - pose proof (spawned_mono _ _ _ Hs).
    eapply tracked_inv_step; eauto using reachable_refs, reachable_life; [|apply IH; lia].
    apply ids_nodup; [by apply reachable_ids|lia].
Qed.

(** ** Properties *)

(** C23. The pool never has more workers than configured: at every moment, also
    while the supervisor restarts workers and callers reap them, the workers
    map has at most [worker_count] entries. *)
Theorem workers_bounded w :
  config_typed cfg -> reachable cfg w -> workers_len w <= worker_count cfg.
Proof.
  intros Ht Hr. pose proof (reachable_count w Ht Hr) as Hc. unfold count_inv, desired in Hc.
  destruct Ht as [[? _] _]. unfold workers_len. lia.
Qed.

(** The statistics are consistent: live and finished workers add up to the
    known ones, which are at most the desired number; the remembered restart
    attempts are at most the configured maximum. *)
Theorem stats_consistent w :
  config_typed cfg -> reachable cfg w ->
  let st := stats cfg w in
  st_known_workers st = st_live_workers st + st_finished_workers_pending_reap st /\
  0 <= st_live_workers st /\ st_known_workers st <= st_desired_workers st /\
  st_restart_attempts_in_window st <= st_max_restarts_in_window st /\
  st_max_restarts_in_window st = cfg_max_restarts_in_window cfg.
Proof.
  intros Ht Hr. pose proof (reachable_count w Ht Hr) as Hc. unfold count_inv, desired in Hc.
  pose proof (reachable_restart w Ht Hr) as [[_ Hmax _ _ _] _ _ Hlen _].
  destruct Ht as ([? _] & _ & [? _] & _).
  assert (length (finished_ids w) <= size (workers (shared w)))%nat as Hf.
  { unfold finished_ids. by rewrite length_fmap, length_filter, length_map_to_list. }
  unfold stats, restart_guard_snapshot, restart_attempts_in_window, max_restarts_in_window, workers_len,
    saturating_sub, desired_worker_count. cbn -[size]. rewrite Hmax in *. lia.
Qed.

(** C21. Restarts are rate limited: any granted restart and the
    [max_restarts_in_window]-th one after it are more than [restart_window]
    apart, and the pool never starts more threads than its workers plus the
    granted restarts. *)
Theorem restarts_rate_limited w :
  config_typed cfg -> reachable cfg w ->
  spaced (restart_window cfg) (Z.to_nat (cfg_max_restarts_in_window cfg)) (grants (hist w)) /\
  Z.of_nat (length (threads w)) <= worker_count cfg + Z.of_nat (length (grants (hist w))).
Proof.
  intros Ht Hr. destruct (reachable_restart w Ht Hr) as [_ Hs Hn _ _]. split; [done|].
  unfold desired in Hn. destruct Ht as [[? _] _]. lia.
Qed.
End workers.

(** ** Witnesses *)

(** The worker crashed on a job and the supervisor restarted it. *)
Definition restart : list (Action (Config := ())) :=
  ASupervisor SbEvent :: replicate 6 (ASupervisor (SbGo SpawnOk)) ++
  [ASupervisor (SbGo SpawnOk); ASupervisor (SbGo SpawnOk); AWorker 1 (WbStart StartOk)] ++
  replicate 3 (ASupervisor (SbGo SpawnOk)).
Definition demo_restarted : World () :=
  demo (build ++ call_until_wait 0 ++ crash 0 ++ [ATick 3] ++ restart).

Lemma workers_bounded_witness :
  workers_len demo_restarted = 1 /\ workers_len demo_restarted <= worker_count demo_cfg.
Proof.
  split; [vm_compute; reflexivity|].
  apply (workers_bounded demo_cfg demo_restarted); [apply demo_typed|reach].
Defined.

Lemma stats_consistent_witness :
  st_restart_attempts_in_window (stats demo_cfg demo_restarted) = 1 /\
  st_known_workers (stats demo_cfg demo_restarted) <= st_desired_workers (stats demo_cfg demo_restarted).
Proof.
  split; [vm_compute; reflexivity|].
  apply (stats_consistent demo_cfg demo_restarted); [apply demo_typed|reach].
Defined.

Lemma restarts_rate_limited_witness :
  grants (hist demo_restarted) = [3] /\
  Z.of_nat (length (threads demo_restarted)) <= worker_count demo_cfg + 1.
Proof.
  split; [vm_compute; reflexivity|].
  pose proof (restarts_rate_limited demo_cfg demo_restarted demo_typed ltac:(reach)) as [_ H].
  exact H.
Defined.
