(* ===== verification/PoolDrop.v ===== *)
(** * PoolDrop: tearing the pool down

    What is left when [Drop] (or the failed construction) is through, and the
    one interleaving in which [Drop] waits for ever. *)

From S2P Require Import Prelude Errors Json Job PoolConfig RestartGuard Metrics RuntimeApi Pool PoolDemo ReplyProtocol PoolSafety PoolWorkers.

Section drop.
Context {Config Client : Type} (cfg : MechanicsPoolConfig Client).
Implicit Types w : World Config.

(** Once the handles are taken, the workers map stays empty. *)
Definition handles_taken (pc : OwnerPc) : bool :=
  match pc with OJoin _ _ | ODone _ => true | _ => false end.
Definition taken_inv w : Prop := handles_taken (owner w) = true -> workers (shared w) = ∅.

Lemma taken_inv_step w a w' : life_inv w -> taken_inv w -> step cfg a w = Some w' -> taken_inv w'.
Proof.
  intros Hl Hinv H.
  assert (handles_taken (owner w) = true -> sup_gone (supervisor w) = true) as Hgone.
  { intros Hh. apply (life_joining _ Hl). by destruct (owner w). }
  destruct a. all: inv_step H.
  all: unfold taken_inv in *; cbn; repeat case_match; cbn; try done.
  all: repeat match goal with
    | E : owner _ = _ |- _ => rewrite E in *; cbn in *
    | E : supervisor _ = _ |- _ => rewrite E in *; cbn in *
    end; try done.
  all: intros Hh; specialize (Hinv Hh); try specialize (Hgone Hh); try done.
  all: rewrite ?Hinv, ?delete_empty; try done.
  apply map_size_empty_inv. pose proof (size_foldl_delete_le ∅ ids) as Hs. rewrite map_size_empty in Hs. lia.
Qed.

Lemma reachable_taken w : reachable cfg w -> taken_inv w.
Proof.
  induction 1 as [t built client w [-> _]%pool_new_world|]; [done|eauto using taken_inv_step, reachable_life].
Qed.

(** C3. Nothing outlives the pool: when [Drop] or a failed construction is done,
    every worker thread ever started has finished, the supervisor is gone, no
    job is left in the queue and no call is running.  (Worker ids repeat after
    [2^64] spawns; the statement is about pools before that.) *)
Theorem nothing_outlives_pool w why :
  reachable cfg w -> spawned (hist w) <= usize_max -> owner w = ODone why ->
  Forall (fun th => is_finished th = true) (threads w) /\ sup_gone (supervisor w) = true /\
  queue (shared w) = [] /\ workers (shared w) = ∅ /\ Forall (fun cl => call_returned cl = true) (calls w).
Proof.
  intros Hr Hb Ho. pose proof (reachable_life _ _ Hr) as Hl. pose proof (reachable_taken w Hr) as Ht.
  assert (workers (shared w) = ∅) as Hw by (apply Ht; by rewrite Ho).
  assert (sup_gone (supervisor w) = true) as Hg by (apply (life_joining _ Hl); by rewrite Ho).
  split; [|split; [done|split; [|split; [done|]]]]; [|apply (life_drained _ Hl); by rewrite Ho|apply (life_returned _ Hl); by rewrite Ho].
  apply Forall_lookup_2. intros t th Hth.
  destruct (is_finished th) eqn:Hf; [done|exfalso].
  destruct (reachable_tracked cfg w Hr Hb t) as [[id Hid]|Hp].
  - eauto using lookup_lt_Some.
  - unfold thread_finished. by rewrite Hth.
  - by rewrite Hw, lookup_empty in Hid.
  - rewrite Ho in Hp. by destruct (supervisor w); cbn in Hp; try done; apply not_elem_of_nil in Hp.
Qed.

(** ** A drop that never ends

    The owner joins a worker that is idle and was never told to stop: the
    supervisor passed its check of the closed flag before the flag was set and
    started the worker after the owner had signalled the ones it knew. *)
Record stuck (t : nat) w : Prop := {
  stuck_owner : exists why ts, owner w = OJoin why (t :: ts);
  stuck_thread : exists th, threads w !! t = Some th /\ wt_pc th = WSelect /\ wt_shutdown th = false;
  stuck_others : forall t' th, threads w !! t' = Some th -> t' <> t -> wt_pc th = WFinished;
  stuck_queue : queue (shared w) = [];
  stuck_sup : supervisor w = SFinished;
  stuck_calls : Forall (fun cl => call_returned cl = true) (calls w);
}.

Lemma stuck_step t w a w' :
  stuck t w -> step cfg a w = Some w' -> stuck t w' /\ owner w' = owner w.
Proof.
  intros [(why & ts & Ho) (th & Ht & Hpc & Hsh) Hoth Hq Hsup Hc] H. destruct a.
  all: try (unfold step in H; rewrite ?Ho in H; done).
  - cbn in H. case_match; [|done]. simplify_eq. split; [|done]. split; eauto.
  - exfalso. destruct (calls w !! i) as [cl|] eqn:Hi; [|unfold step, call_step in H; by rewrite Hi in H].
    pose proof (Forall_lookup_1 _ _ _ _ Hc Hi) as Hret. cbn in Hret. unfold call_returned in Hret.
    unfold step, call_step, enqueue_step in H. rewrite Hi in H. cbn in H. by destruct (c_pc cl).
  - exfalso. unfold step, worker_step in H. destruct (threads w !! t0) as [th0|] eqn:Ht0; [|done]. cbn in H.
    destruct (decide (t0 = t)) as [->|Hne].
    + simplify_eq. rewrite Hpc in H. unfold dequeue in H. rewrite Hq in H.
      destruct b; try done. by rewrite Hsh in H.
    + by rewrite (Hoth _ _ Ht0 Hne) in H; destruct b.
  - exfalso. unfold step, supervisor_step, reconcile_step in H. rewrite Hsup in H. by destruct b.
  - exfalso. unfold step, owner_step, drop_step in H. rewrite Ho in H. unfold thread_finished, is_finished in H.
    by rewrite Ht, Hpc in H.
Qed.

Lemma stuck_forever t w acts w' : stuck t w -> exec cfg acts w = Some w' -> owner w' = owner w.
Proof.
  revert w. induction acts as [|a acts IH]; intros w Hs; cbn; [by intros [= ->]|].
  intros (w1 & H1 & H2)%bind_Some. destruct (stuck_step _ _ _ _ Hs H1) as [Hs1 <-]. eauto.
Qed.
End drop.

(** The schedule: the worker crashes, the supervisor is granted a restart, the
    pool is dropped, and only then the new worker is started. *)
Definition crash_call : list (Action (Config := ())) := call_until_wait 0 ++ crash 0 ++ [ACaller 0 CbGo].
Definition late_restart : list (Action (Config := ())) :=
  ASupervisor SbEvent :: replicate 7 (ASupervisor (SbGo SpawnOk)) ++
  ADrop :: replicate 4 (AOwner SpawnOk) ++
  [ASupervisor (SbGo SpawnOk); ASupervisor (SbGo SpawnOk); AWorker 1 (WbStart StartOk);
   ASupervisor (SbGo SpawnOk); ASupervisor (SbGo SpawnOk); ASupervisor (SbGo SpawnOk);
   ASupervisor SbShutdown; AOwner SpawnOk; AOwner SpawnOk].
Definition demo_deadlock : World () := demo (build ++ crash_call ++ late_restart).

Lemma forallb_Forall {A} (f : A -> bool) l : forallb f l = true -> Forall (fun x => f x = true) l.
Proof. intros Hb. apply Forall_forall. intros x Hin%list_elem_of_In. by eapply forallb_forall. Qed.

Lemma demo_deadlock_returned : Forall (fun cl => call_returned cl = true) (calls demo_deadlock).
Proof. apply forallb_Forall. vm_compute. reflexivity. Qed.

(** C33. [Drop] can wait for ever: there is a reachable state in which the owner
    is joining a worker in the last loop of [Drop], and in which no schedule,
    however long, lets it go on. *)
Theorem drop_can_wait_forever :
  reachable demo_cfg demo_deadlock /\ owner demo_deadlock = OJoin PoolDropped [1%nat] /\
  forall acts w', exec demo_cfg acts demo_deadlock = Some w' -> owner w' = OJoin PoolDropped [1%nat].
Proof.
  split; [reach|]. assert (owner demo_deadlock = OJoin PoolDropped [1%nat]) as Ho by (vm_compute; reflexivity).
  split; [done|]. intros acts w' He. rewrite <- Ho. eapply (stuck_forever demo_cfg 1); [|exact He]. split.
  - eauto.
  - vm_compute. eauto.
  - intros [|[|t']] th Ht Hne; vm_compute in Ht;
      [injection Ht as <-; reflexivity|exfalso; by apply Hne|discriminate Ht].
  - vm_compute. reflexivity.
  - vm_compute. reflexivity.
  - exact demo_deadlock_returned.
Qed.

(** A drop without a restart in flight ends. *)
Definition clean_drop : list (Action (Config := ())) :=
  ADrop :: replicate 4 (AOwner SpawnOk) ++
  [ASupervisor SbShutdown; AWorker 0 WbShutdown; AWorker 0 WbGo; AWorker 0 WbGo] ++
  replicate 4 (AOwner SpawnOk).
Definition demo_dropped : World () := demo (build ++ clean_drop).

Lemma nothing_outlives_pool_witness :
  owner demo_dropped = ODone PoolDropped /\ Forall (fun th => is_finished th = true) (threads demo_dropped).
Proof.
  split; [vm_compute; reflexivity|].
  apply (nothing_outlives_pool demo_cfg demo_dropped PoolDropped); [reach|vm_compute; discriminate|vm_compute; reflexivity].
Defined.
