(* ===== verification/PoolLiveness.v ===== *)
(** * PoolLiveness: a drop without a restart in flight can always finish

    [PoolDrop.drop_can_wait_forever] needs the supervisor to be past its check
    of the closed flag when the flag is set.  Here the other case: if no restart
    is in flight when the owner has closed the pool, then after every schedule
    there is a continuation that brings [Drop] to its end.  A worker that was
    told to stop gets to its end by its own steps, whatever job it runs; that
    the job itself ends is one of these steps (in the program the execution
    deadline sees to it, [Runtime.run_source_ends_at_deadline]). *)

From S2P Require Import Prelude Errors Json Job PoolConfig RestartGuard Metrics RuntimeApi Pool PoolDemo ReplyProtocol PoolSafety PoolWorkers PoolDrop.

(** The supervisor is between its check of the closed flag and the end of the
    restarts. *)
Definition restarting (pc : SupervisorPc) : bool :=
  match pc with SReap _ | SReapRemove _ _ | SLive _ | SRestart _ _ | SSpawn _ _ _ => true | _ => false end.

(** The owner has told the workers to stop. *)
Definition signalled (pc : OwnerPc) : bool :=
  match pc with OSupSend _ | OSupJoin _ | OTake _ | OJoin _ _ | ODone _ => true | _ => false end.

Section liveness.
Context {Config Client : Type} (cfg : MechanicsPoolConfig Client).
Implicit Types w : World Config.

(** A thread that will end: it has the signal, or is past its loop. *)
Definition leaving (th : WorkerThread Config) : bool :=
  wt_shutdown th || match wt_pc th with WExit _ | WEnding | WFinished => true | _ => false end.
Definition leaving_at w (t : nat) : Prop := exists th, threads w !! t = Some th /\ leaving th = true.

Lemma leaving_signal (l : list (WorkerThread Config)) ts t th :
  l !! t = Some th -> (t ∈ ts \/ leaving th = true) ->
  exists th', foldr (alter request_shutdown) l ts !! t = Some th' /\ leaving th' = true.
Proof.
  intros Hl. induction ts as [|t' ts IH]; cbn [foldr]; intros Hor.
  { destruct Hor as [?%not_elem_of_nil|?]; [done|]. by exists th. }
  destruct (decide (t' = t)) as [->|Hne].
  - assert (is_Some (foldr (alter request_shutdown) l ts !! t)) as [th' Hth'].
    { apply lookup_lt_is_Some. rewrite length_foldr_alter. by eapply lookup_lt_Some. }
    exists (request_shutdown th'). rewrite list_lookup_alter_eq, Hth'. done.
  - rewrite list_lookup_alter_ne by done. apply IH. set_solver.
Qed.

Lemma leaving_step w a w' t : step cfg a w = Some w' -> leaving_at w t -> leaving_at w' t.
Proof.
  intros H (th & Ht & Hl). destruct a. all: inv_step H.
  all: unfold leaving_at; cbn; repeat case_match; cbn; try (by eauto).
  all: try (rewrite lookup_app_l by eauto using lookup_lt_Some; by eauto).
  all: try (apply (leaving_signal _ [_] _ th); by eauto).
  all: try (apply (leaving_signal _ _ _ th); by eauto).
  all: match goal with |- context [<[?t0 := _]> _] => destruct (decide (t0 = t)) as [->|Hne];
         [|rewrite list_lookup_insert_ne by done; by eauto] end.
  all: rewrite list_lookup_insert_eq by eauto using lookup_lt_Some; simplify_eq; eexists; split; [reflexivity|].
  all: unfold leaving in *; match goal with E : wt_pc _ = _ |- _ => rewrite E in Hl end; cbn in *;
    rewrite ?orb_false_r, ?orb_true_r in *; done.
Qed.

(** The supervisor waits only for threads that have announced their end. *)
Lemma joined_leaving w : reachable cfg w -> spawned (hist w) <= usize_max ->
  forall t reason, supervisor w = SJoin t reason -> leaving_at w t.
Proof.
  induction 1 as [t0 built client w [-> _]%pool_new_world|w a w' Hr IH Hs]; intros Hb t reason Hj; [done|].
  pose proof (spawned_mono _ _ _ _ Hs) as Hm. specialize (IH ltac:(lia)).
  pose proof (reachable_refs _ _ Hr) as Hrefs. pose proof (reachable_ids _ _ Hr) as Hids.
  assert (supervisor w = SJoin t reason \/ exists ev, supervisor w = SEvent ev /\ workers (shared w) !! exit_worker_id ev = Some t) as [Hw|(ev & Hev & Hid)].
  { clear -Hs Hj. destruct a. all: inv_step Hs. all: cbn in Hj; repeat case_match; cbn in Hj; simplify_eq; try congruence; first [left; congruence | by eauto]. }
  - eapply leaving_step; [exact Hs|]. by eapply IH.
  - eapply leaving_step; [exact Hs|]. destruct (refs_handle _ Hrefs _ _ Hid) as (th & Ht & Hi).
    destruct (refs_exit _ Hrefs ev) as (t' & th' & Ht' & Hi' & Hrk); [by right|].
    assert (t' = t) as -> by (eapply same_id; [apply (ids_nodup _ Hids); lia|done|done|congruence]).
    exists th'. split; [done|]. unfold leaving. unfold rank in Hrk. destruct (wt_pc th'); try lia; by rewrite orb_true_r.
Qed.

(** ** Closed without a restart in flight *)

(** What the steps of a closed pool do to the owner and the supervisor. *)
Definition drop_why (pc : OwnerPc) : option DropWhy :=
  match pc with
  | OClose why | ODrain why | OSignal why | OSupSend why | OSupJoin why | OTake why | OJoin why _ | ODone why => Some why
  | _ => None
  end.

Definition idle w : Prop := marked (owner w) = true /\ closed (shared w) = true /\ restarting (supervisor w) = false.

(** The supervisor has been told to stop, or is gone. *)
Definition told w : Prop := supervisor w = SFinished \/ (sup_shutdown w = true /\ supervisor w <> SNotStarted).

Ltac pcs := repeat match goal with
  | E : owner _ = _ |- _ => rewrite E in *; cbn in *
  | E : supervisor _ = _ |- _ => rewrite E in *; cbn in *
  end.

Lemma idle_step w a w' : idle w -> step cfg a w = Some w' ->
  idle w' /\ spawned (hist w') = spawned (hist w) /\ drop_why (owner w') = drop_why (owner w).
Proof.
  intros (Hm & Hc & Hs) H. unfold idle, is_closed in *. destruct a. all: inv_step H; unfold is_closed in *.
  all: cbn; pcs; try done; try congruence; repeat case_match; cbn; pcs; try done; congruence.
Qed.

Lemma idle_workers w a w' id t : idle w -> step cfg a w = Some w' ->
  workers (shared w') !! id = Some t -> workers (shared w) !! id = Some t.
Proof.
  intros (Hm & Hc & Hs) H. unfold is_closed in *. destruct a. all: inv_step H.
  all: cbn; pcs; try done; repeat case_match; cbn; try done.
  all: rewrite ?lookup_delete_Some, ?lookup_empty; try naive_solver.
  intros Hl. eapply lookup_weaken; [exact Hl|apply foldl_delete_subseteq].
Qed.

Lemma told_step w a w' : idle w -> step cfg a w = Some w' ->
  (forall why, owner w = OSupJoin why -> told w) -> forall why, owner w' = OSupJoin why -> told w'.
Proof.
  intros (Hm & Hc & Hs) H. unfold told. destruct a. all: inv_step H.
  all: cbn; repeat case_match; cbn; pcs; try done; intros Ht why' Ho; simplify_eq.
  all: try (destruct (Ht _ Ho); [by left|destruct_and?]; by auto).
  all: auto.
Qed.

(** Everyone the owner or the supervisor will wait for is on its way out. *)
Record calm w : Prop := {
  calm_reachable : reachable cfg w;
  calm_spawned : spawned (hist w) <= usize_max;
  calm_idle : idle w;
  calm_handles : signalled (owner w) = true -> forall id t, workers (shared w) !! id = Some t -> leaving_at w t;
  calm_joins : forall t, t ∈ owner_pending (owner w) -> leaving_at w t;
  calm_told : forall why, owner w = OSupJoin why -> told w;
}.

(** The step that tells the workers. *)
Lemma signal_step w a w' : idle w -> step cfg a w = Some w' ->
  signalled (owner w') = true -> signalled (owner w) = false ->
  threads w' = foldr (alter request_shutdown) (threads w) (map_to_list (workers (shared w))).*2.
Proof.
  intros (Hm & _) H. destruct a. all: inv_step H.
  all: cbn; pcs; try done; repeat case_match; cbn; pcs; try done; congruence.
Qed.

(** The threads the owner starts to wait for are those of the map. *)
Lemma pending_step w a w' t : idle w -> step cfg a w = Some w' -> t ∈ owner_pending (owner w') ->
  (t ∈ owner_pending (owner w)) \/ (signalled (owner w) = true /\ exists id, workers (shared w) !! id = Some t).
Proof.
  intros (Hm & _) H. destruct a. all: inv_step H.
  all: cbn; repeat case_match; cbn; pcs; try done; auto.
  all: try (intros; by apply not_elem_of_nil in H).
  - intros ([id t'] & -> & Hin%elem_of_map_to_list)%list_elem_of_fmap. right. eauto.
  - intros Hin. left. by apply list_elem_of_further.
Qed.

Lemma calm_step w a w' : calm w -> step cfg a w = Some w' -> calm w'.
Proof.
  intros [Hr Hb Hi Hh Hj Ht] H. destruct (idle_step _ _ _ Hi H) as (Hi' & Hb' & _).
  split; [by eapply reach_step|lia|done| | |exact (told_step _ _ _ Hi H Ht)].
  - intros Hs id t Hid%(idle_workers _ _ _ _ _ Hi H). destruct (signalled (owner w)) eqn:Ho.
    + eauto using leaving_step.
    + unfold leaving_at. rewrite (signal_step _ _ _ Hi H Hs Ho).
      destruct (refs_handle _ (reachable_refs _ _ Hr) _ _ Hid) as (th & Hth & _).
      eapply leaving_signal; [exact Hth|]. left. apply list_elem_of_fmap. exists (id, t).
      split; [done|]. by apply elem_of_map_to_list.
  - intros t [Hp|(Hs & id & Hid)]%(pending_step _ _ _ _ Hi H); eauto using leaving_step.
Qed.

Lemma calm_exec acts w w' : calm w -> exec cfg acts w = Some w' ->
  calm w' /\ drop_why (owner w') = drop_why (owner w).
Proof.
  revert w. induction acts as [|a acts IH]; intros w Hc; cbn; [by intros [= <-]|].
  intros (w1 & H1 & H2)%bind_Some. destruct (IH w1) as [? ->]; [by eapply calm_step|done|].
  split; [done|]. apply (idle_step _ _ _ (calm_idle _ Hc) H1).
Qed.

Lemma calm_start w why : reachable cfg w -> spawned (hist w) <= usize_max -> owner w = ODrain why ->
  restarting (supervisor w) = false -> calm w.
Proof.
  intros Hr Hb Ho Hs. split; try rewrite Ho; cbn; try done; [|by intros ? ?%not_elem_of_nil].
  split; [by rewrite Ho|]. split; [|done]. by rewrite (life_closed _ (reachable_life _ _ Hr)), Ho.
Qed.

(** ** Progress *)

Definition can w (P : World Config -> Prop) : Prop := exists acts w', exec cfg acts w = Some w' /\ P w'.

Lemma can_now w (P : World Config -> Prop) : P w -> can w P.
Proof. exists [], w. done. Qed.

Lemma can_step a w w' P : step cfg a w = Some w' -> can w' P -> can w P.
Proof. intros H (acts & w2 & He & HP). exists (a :: acts), w2. cbn. by rewrite H. Qed.

Lemma can_trans w P Q : can w P -> (forall w', P w' -> can w' Q) -> can w Q.
Proof.
  intros (acts & w' & He & HP) HQ. specialize (HQ w' HP). clear HP. revert w He.
  induction acts as [|a acts IH]; intros w; cbn; [by intros [= ->]|].
  intros (w1 & H1 & H2)%bind_Some. eauto using can_step.
Qed.

(** No one waits any more: every reply is sent at once. *)
Lemma returned_send w i r : reachable cfg w -> dropping (owner w) = true ->
  i ∈ p_popped (abs w) ++ p_queue (abs w) -> exists cl, send_reply i r w = Some (set_call i cl w).
Proof.
  intros Hr Hd Hi. destruct (pi_accepted _ (reachable_protocol _ _ Hr) i Hi) as (st & b & Hc & _).
  cbn in Hc. rewrite list_lookup_fmap in Hc. destruct (calls w !! i) as [cl|] eqn:Hcl; [|done].
  pose proof (Forall_lookup_1 _ _ _ _ (life_returned _ (reachable_life _ _ Hr) Hd) Hcl) as Hret.
  pose proof (Forall_lookup_1 _ _ _ _ (reachable_rx _ _ Hr) Hcl) as Hx. unfold rx_ok in Hx.
  unfold send_reply, send_result. rewrite Hcl. cbn. rewrite Hx. unfold call_returned in Hret.
  destruct (c_pc cl); try done. cbn. eauto.
Qed.

Lemma send_reply_calls w w' i r cl : send_reply i r w = Some (set_call i cl w) -> calls w' = calls w ->
  exists cl', send_reply i r w' = Some (set_call i cl' w').
Proof.
  unfold send_reply. intros (cl0 & Hcl & (cell & Hs & _)%bind_Some)%bind_Some ->.
  rewrite Hcl. cbn. rewrite Hs. cbn. eauto.
Qed.

Lemma held_send w t th c k r : reachable cfg w -> dropping (owner w) = true ->
  threads w !! t = Some th -> hold_of (wt_pc th) = Some (c, k) -> exists cl, send_reply c r w = Some (set_call c cl w).
Proof.
  intros Hr Hd Ht Hh. apply returned_send; [done..|]. apply elem_of_app. left.
  eapply (pi_held _ (reachable_protocol _ _ Hr)). by eapply view_lookup.
Qed.

(** How far a leaving worker is from its end. *)
Definition togo (pc : WorkerPc Config) : nat :=
  match pc with
  | WGot _ => 6 | WRunning _ _ _ _ => 5 | WSend _ _ _ _ | WStarting => 4 | WSelect => 3
  | WExit _ => 2 | WEnding => 1 | WFinished => 0
  end.

Lemma worker_frame w t b w' : step cfg (AWorker t b) w = Some w' ->
  owner w' = owner w /\ supervisor w' = supervisor w /\ sup_shutdown w' = sup_shutdown w.
Proof. intros H. inv_step H. all: cbn; repeat case_match; done. Qed.

(** The branches that bring a worker closer to its end: all but taking another
    job and replying early. *)
Definition settling (b : WorkerBranch) : bool :=
  match b with WbJob | WbEarlyReply _ => false | _ => true end.

Lemma settling_step w t b w' th : settling b = true -> step cfg (AWorker t b) w = Some w' ->
  threads w !! t = Some th -> exists th', threads w' !! t = Some th' /\ (togo (wt_pc th') < togo (wt_pc th))%nat.
Proof.
  intros Hb H Ht. pose proof (lookup_lt_Some _ _ _ Ht) as Hlt. inv_step H.
  all: try done; cbn; repeat case_match; cbn; rewrite list_lookup_insert_eq by done; eexists; (split; [done|]); cbn; lia.
Qed.

Lemma worker_enabled w t th : calm w -> threads w !! t = Some th -> leaving th = true ->
  is_finished th = false -> exists b, settling b = true /\ is_Some (step cfg (AWorker t b) w).
Proof.
  intros Hc Ht Hl Hf. pose proof (calm_reachable _ Hc) as Hr.
  assert (dropping (owner w) = true) as Hd by (destruct (calm_idle _ Hc) as (Hm & _); by destruct (owner w)).
  assert (forall c k r, hold_of (wt_pc th) = Some (c, k) -> exists cl, send_reply c r w = Some (set_call c cl w)) as Hsend
    by eauto using held_send.
  unfold is_finished in Hf. unfold leaving in Hl. unfold step, worker_step. rewrite Ht. cbn.
  destruct (wt_pc th) as [| |pj|j c id rep|c r busy next|reason| |] eqn:Hpc; try done.
  - exists (WbStart StartOk). eauto.
  - exists WbShutdown. rewrite orb_false_r in Hl. rewrite Hl. eauto.
  - exists WbGo. split; [done|]. unfold worker_got. destruct (Hsend _ _ (Ok VNull) eq_refl) as [cl Hcl].
    unfold send_reply in Hcl. destruct (calls w !! pj_call pj) as [cl0|]; [|done]. cbn. case_match; eauto.
  - exists (WbEnd (Returned (if rep then MainReplied else MainNotReplied (worker_panic (lit "job ended"))))). destruct rep; eauto.
  - exists WbGo. split; [done|]. destruct (Hsend c (if next is Some _ then PanicReport else Owes) r) as [cl ->]; [by destruct next|].
    cbn. eauto.
  - exists WbGo. eauto.
  - exists WbGo. eauto.
Qed.

(** A worker that is on its way out gets there by its own steps. *)
Lemma thread_can_finish w t : calm w -> leaving_at w t ->
  can w (fun w' => calm w' /\ thread_finished w' t = true /\ owner w' = owner w /\
    supervisor w' = supervisor w /\ sup_shutdown w' = sup_shutdown w).
Proof.
  intros Hc (th & Ht & Hl). remember (togo (wt_pc th)) as n eqn:Hn. revert w th Hc Ht Hl Hn.
  induction (lt_wf n) as [n _ IH]. intros w th Hc Ht Hl ->. destruct (is_finished th) eqn:Hf.
  { apply can_now. unfold thread_finished. by rewrite Ht. }
  destruct (worker_enabled w t th Hc Ht Hl Hf) as (b & Hb & w1 & H1).
  destruct (settling_step _ _ _ _ _ Hb H1 Ht) as (th1 & Ht1 & Hlt).
  destruct (leaving_step _ _ _ t H1) as (th1' & Ht1' & Hl1); [by exists th|]. simplify_eq.
  destruct (worker_frame _ _ _ _ H1) as (<- & <- & <-).
  eapply can_step; [exact H1|]. eapply IH; eauto using calm_step.
Qed.

(** A supervisor that was told to stop stops. *)
Definition sup_ended (why : DropWhy) w : Prop := calm w /\ owner w = OSupJoin why /\ supervisor w = SFinished.

Lemma closed_now w : calm w -> is_closed w = true.
Proof. intros Hc. by destruct (calm_idle _ Hc) as (_ & ? & _). Qed.

Lemma supervisor_at_closed w why reason : calm w -> owner w = OSupJoin why -> supervisor w = SClosed reason ->
  can w (sup_ended why).
Proof.
  intros Hc Ho Hs. assert (exists w', step cfg (ASupervisor (SbGo SpawnOk)) w = Some w' /\ owner w' = owner w /\ supervisor w' = SFinished)
    as (w' & H & Ho' & Hs').
  { unfold step, supervisor_step. rewrite Hs, (closed_now _ Hc). eauto. }
  eapply can_step; [exact H|]. apply can_now. split; [by eapply calm_step|]. by rewrite Ho'.
Qed.

Lemma supervisor_at_join w why t reason : calm w -> owner w = OSupJoin why -> supervisor w = SJoin t reason ->
  can w (sup_ended why).
Proof.
  intros Hc Ho Hs. pose proof (joined_leaving w (calm_reachable _ Hc) (calm_spawned _ Hc) _ _ Hs) as Hl.
  eapply can_trans; [by apply (thread_can_finish w t)|]. cbn. intros w1 (Hc1 & Hf & Ho1 & Hs1 & _).
  rewrite Hs in Hs1. rewrite Ho in Ho1.
  assert (exists w', step cfg (ASupervisor (SbGo SpawnOk)) w1 = Some w' /\ owner w' = owner w1 /\ supervisor w' = SClosed reason)
    as (w' & H & Ho' & Hs').
  { unfold step, supervisor_step. rewrite Hs1, Hf. eauto. }
  eapply can_step; [exact H|]. eapply supervisor_at_closed; [by eapply calm_step|congruence|done].
Qed.

Lemma supervisor_at_select w why : calm w -> owner w = OSupJoin why -> supervisor w = SSelect ->
  can w (sup_ended why).
Proof.
  intros Hc Ho Hs. destruct (calm_told _ Hc _ Ho) as [?|[Hsh _]]; [congruence|].
  assert (exists w', step cfg (ASupervisor SbShutdown) w = Some w' /\ owner w' = owner w /\ supervisor w' = SFinished)
    as (w' & H & Ho' & Hs').
  { unfold step, supervisor_step. rewrite Hs, Hsh. eauto. }
  eapply can_step; [exact H|]. apply can_now. split; [by eapply calm_step|]. by rewrite Ho'.
Qed.

Lemma supervisor_can_finish w why : calm w -> owner w = OSupJoin why -> can w (sup_ended why).
Proof.
  intros Hc Ho. destruct (calm_idle _ Hc) as (_ & Hcl & Hre).
  destruct (supervisor w) as [| |ev|t reason|reason|reason| | | | | |] eqn:Hs; try done.
  - by destruct (calm_told _ Hc _ Ho) as [?|[_ ?]]; [congruence|].
  - by apply supervisor_at_select.
  - assert (exists w', step cfg (ASupervisor (SbGo SpawnOk)) w = Some w' /\ owner w' = owner w /\
      ((exists t r, supervisor w' = SJoin t r) \/ exists r, supervisor w' = SClosed r)) as (w' & H & Ho' & Hs').
    { unfold step, supervisor_step. rewrite Hs. cbn. case_match; eauto 10. }
    pose proof (calm_step _ _ _ Hc H). rewrite Ho in Ho'. eapply can_step; [exact H|].
    destruct Hs' as [(t & r & Hj)|(r & Hj)]; eauto using supervisor_at_join, supervisor_at_closed.
  - by eapply supervisor_at_join.
  - by eapply supervisor_at_closed.
  - assert (exists w', step cfg (ASupervisor (SbGo SpawnOk)) w = Some w' /\ owner w' = owner w /\ supervisor w' = SSelect)
      as (w' & H & Ho' & Hs').
    { unfold step, supervisor_step, reconcile_step. rewrite Hs, (closed_now _ Hc). eauto. }
    eapply can_step; [exact H|]. eapply supervisor_at_select; [by eapply calm_step|congruence|done].
  - by apply can_now.
Qed.

(** ** The stages of the drop, from the last to the first *)

Definition dropped (why : DropWhy) w : Prop := owner w = ODone why.

Lemma owner_advance w w' P : calm w -> step cfg (AOwner SpawnOk) w = Some w' -> (calm w' -> can w' P) -> can w P.
Proof. intros Hc H Hgo. eapply can_step; [exact H|]. eauto using calm_step. Qed.

Ltac owner_go := eapply owner_advance; [done|unfold step, owner_step, drop_step|].

Lemma join_can_finish why ts w : calm w -> owner w = OJoin why ts -> can w (dropped why).
Proof.
  revert w. induction ts as [|t ts IH]; intros w Hc Ho.
  - owner_go; [by rewrite Ho|]. intros _. by apply can_now.
  - eapply can_trans; [apply (thread_can_finish w t Hc), (calm_joins _ Hc); rewrite Ho; apply list_elem_of_here|].
    cbn. intros w1 (Hc1 & Hf & Ho1 & _). rewrite Ho in Ho1. owner_go; [by rewrite Ho1, Hf|]. intros. by apply IH.
Qed.

Lemma take_can_finish why w : calm w -> owner w = OTake why -> can w (dropped why).
Proof. intros Hc Ho. owner_go; [by rewrite Ho|]. intros. by eapply join_can_finish. Qed.

Lemma sup_join_can_finish why w : calm w -> owner w = OSupJoin why -> can w (dropped why).
Proof.
  intros Hc Ho. eapply can_trans; [by apply supervisor_can_finish|]. intros w1 (Hc1 & Ho1 & Hs1).
  owner_go; [by rewrite Ho1, Hs1|]. intros. by apply take_can_finish.
Qed.

Lemma sup_send_can_finish why w : calm w -> owner w = OSupSend why -> can w (dropped why).
Proof.
  intros Hc Ho. assert (sup_shutdown w = false) as Hsh.
  { destruct (sup_shutdown w) eqn:E; [|done]. apply (life_signal _ (reachable_life _ _ (calm_reachable _ Hc))) in E. by rewrite Ho in E. }
  assert (step cfg (AOwner SpawnOk) w = Some (if not_started (supervisor w) then set_owner (OTake why) w
    else set_owner (OSupJoin why) (set_sup_shutdown true w))) as Hstep.
  { unfold step, owner_step, drop_step. rewrite Ho, Hsh. by destruct (supervisor w). }
  eapply owner_advance; [done|exact Hstep|]. case_match; intros; [by apply take_can_finish|by apply sup_join_can_finish].
Qed.

Lemma signal_can_finish why w : calm w -> owner w = OSignal why -> can w (dropped why).
Proof. intros Hc Ho. owner_go; [by rewrite Ho|]. intros. by apply sup_send_can_finish. Qed.

Lemma drain_can_finish why w : calm w -> owner w = ODrain why -> can w (dropped why).
Proof.
  remember (length (queue (shared w))) as n eqn:Hn. revert w Hn. induction n as [|n IH]; intros w Hn Hc Ho.
  - destruct (queue (shared w)) eqn:Hq; [|done]. owner_go; [unfold dequeue; by rewrite Ho, Hq|].
    intros. by apply signal_can_finish.
  - destruct (queue (shared w)) as [|pj q] eqn:Hq; [done|]. cbn in Hn.
    destruct (returned_send w (pj_call pj) (Err (canceled_error (drop_message why))) (calm_reachable _ Hc)) as [cl Hcl].
    { by rewrite Ho. }
    { apply elem_of_app. right. cbn. unfold queued. rewrite Hq. apply list_elem_of_here. }
    apply (send_reply_calls _ (log_popped (pj_call pj) (with_shared (set_queue q) w))) in Hcl as [cl' Hcl]; [|done].
    owner_go; [unfold dequeue; rewrite Ho, Hq; cbn [fst snd]; rewrite Hcl; reflexivity|].
    intros. apply IH; [cbn; lia|done|done].
Qed.

(** Whatever happens in between, the drop of a calm pool can go on to its end. *)
Lemma calm_can_finish why w : calm w -> drop_why (owner w) = Some why -> can w (dropped why).
Proof.
  intros Hc Hw. destruct (calm_idle _ Hc) as (Hm & _).
  destruct (owner w) eqn:Ho; try done; cbn in Hw; simplify_eq;
    eauto using drain_can_finish, signal_can_finish, sup_send_can_finish, sup_join_can_finish,
      take_can_finish, join_can_finish, can_now.
Qed.

(** C4. A drop without a restart in flight can always finish: when the owner has
    set the closed flag and the supervisor is not between its check of that
    flag and the end of a restart, then, whatever the threads do next, there
    is a continuation in which [Drop] (or the failed constructor) is done.  No
    order of the workers, of the supervisor and of the owner makes them wait
    for each other.  (A running job ends, by the limits of its execution; worker
    ids repeat after [2^64] spawns, and the statement is about pools before.) *)
Theorem drop_can_always_finish w why acts w1 :
  reachable cfg w -> spawned (hist w) <= usize_max -> owner w = ODrain why ->
  restarting (supervisor w) = false -> exec cfg acts w = Some w1 ->
  exists acts' w2, exec cfg acts' w1 = Some w2 /\ owner w2 = ODone why.
Proof.
  intros Hr Hb Ho Hs He. destruct (calm_exec _ _ _ (calm_start _ _ Hr Hb Ho Hs) He) as [Hc Hw].
  apply calm_can_finish; [done|]. by rewrite Hw, Ho.
Qed.
End liveness.

(** The pool is dropped while a worker has just crashed: the supervisor takes the
    exit event in the middle of the drop. *)
Definition drop_begun : World () := demo (build ++ crash_call ++ [ADrop; AOwner SpawnOk]).
Definition drop_interleaved : list (Action (Config := ())) :=
  [ASupervisor SbEvent; AOwner SpawnOk; ASupervisor (SbGo SpawnOk); AOwner SpawnOk; AOwner SpawnOk].

Lemma drop_can_always_finish_witness :
  exists w1, exec demo_cfg drop_interleaved drop_begun = Some w1 /\ owner w1 = OSupJoin PoolDropped /\
    exists acts' w2, exec demo_cfg acts' w1 = Some w2 /\ owner w2 = ODone PoolDropped.
Proof.
  assert (exists w1, exec demo_cfg drop_interleaved drop_begun = Some w1 /\ owner w1 = OSupJoin PoolDropped)
    as (w1 & He & Ho) by (vm_compute; eauto).
  exists w1. split; [exact He|]. split; [exact Ho|].
  apply (drop_can_always_finish demo_cfg drop_begun PoolDropped drop_interleaved w1);
    [reach|vm_compute; discriminate|vm_compute; reflexivity|vm_compute; reflexivity|exact He].
Defined.
